(* ===== verification/_CoqProject ===== *)
-Q . S2P
Prelude.v
Types.v
Names.v
Governance.v
Blobs.v
SampleMarket.v
SlashAppeals.v
Signatures.v
OpenValidators.v
Consensus.v
Merkle.v
Scheduler.v
Words.v
Bytecode.v
Qa.v
Store.v
Tokenomics.v
StoreLaws.v
StoreUndo.v
StoreQueries.v
Interp.v
InterpLaws.v
InterpGas.v
InterpFrame.v
Vm.v
VmWrites.v
VmMoney.v
VmBehaviours.v
InterpAgree.v
VmAgree.v
Executor.v
ExecutorRuns.v
ExecutorParallel.v
ExecutorMoney.v
ExecutorNonces.v
ExecutorBehaviours.v
Mempool.v
MempoolLaws.v
MempoolDrain.v
Chain.v
Blocks.v
BlocksLaws.v
BlocksBehaviours.v
NodeParts.v
Node.v
Admission.v
AdmissionLaws.v
Events.v
NodeLaws.v
NodeProgress.v
NodeBehaviours.v
