(* ===== verification/Prelude.v ===== *)
(** * Boing Network: verification of the node's core

    A model of the Rust crates under [src/crates] of the Boing Network repository, with the
    theorems that make them correct. Definitions keep the names of the source.

    ** The program and its model

    A node keeps a state ([boing-state]) that blocks of signed transactions change. A
    transaction is executed by the virtual machine ([boing-execution]), whose handlers call
    the registries of the state (names, validators, sample market, slash appeals,
    governance, QA policy), the fee rules ([boing-tokenomics]), the deploy checks
    ([boing-qa]) and the bytecode interpreter. The block executor runs the transactions of
    a block in batches; the node ([boing-node]) takes them from its mempool, proposes
    blocks, imports those of others, and commits what the consensus engine
    ([boing-consensus]) agrees on.

    - [Prelude]: results, the state-and-error monad [ST], saturating and wrapping
      arithmetic, tactics ([bool_to_prop], [st_unfold], ...), the hint database [boing].
    - [Types] ([boing-primitives/src/types.rs]): transactions, payloads, blocks, roots. The
      class [Host] holds BLAKE3, [bincode] of headers and transactions, and the ECVRF.
    - [Signatures] ([signature.rs], [consensus_vote.rs], [equivocation.rs],
      [validator_registration.rs], ballots): digests and policies; the class [Crypto] holds
      Ed25519 and BLS.
    - [Names], [Governance], [OpenValidators], [SampleMarket], [SlashAppeals], [Blobs]: the
      registries of [boing-state] and [boing-governance] and the blob phases of
      [boing-primitives], one Record per registry and one definition per operation.
    - [Consensus] ([boing-consensus]): engine, leader election, votes, views, quorums.
    - [Merkle] ([sparse_merkle.rs]): the arena trie, its cached hashes and proofs.
    - [Store] ([store.rs]): contents, undo journal, incremental root, persistence bundle;
      [StoreLaws], [StoreUndo] and [StoreQueries] hold its theorems.
    - [Words], [Bytecode], [Interp] ([interpreter.rs], [bytecode.rs], [gas.rs]): 256-bit
      words as byte lists, opcodes, and the interpreter with nested calls; the class
      [StorageAccess] is the trait of that name. [InterpLaws], [InterpGas], [InterpFrame]
      and [InterpAgree] hold its theorems, proved against that interface.
    - [Qa] ([boing-qa]): bytecode and metadata checks, the review pool; the class [TextOps]
      holds Unicode text functions.
    - [Tokenomics] ([boing-tokenomics]): fees, tips, emission, slashing.
    - [Vm] ([vm.rs]): every transaction handler and the block housekeeping; [VmWrites],
      [VmMoney], [VmAgree] and [VmBehaviours] hold its theorems.
    - [Scheduler], [Executor] ([scheduler.rs], [executor.rs], [parallel.rs], [history.rs]):
      batches, receipts and a whole block; [ExecutorRuns], [ExecutorParallel],
      [ExecutorMoney], [ExecutorNonces] and [ExecutorBehaviours] hold its theorems.
    - [Mempool] ([mempool.rs]), with [MempoolLaws] and [MempoolDrain].
    - [Chain] ([chain.rs]): the head and the block index.
    - [Blocks] ([block_validation.rs], [block_producer.rs], [network_preset.rs]), with
      [BlocksLaws] and [BlocksBehaviours].
    - [NodeParts] ([stake_validator_set.rs], [receipt_retention.rs], and
      [boing-governance/src/slashing_appeal.rs] in its Module [Mirror]).
    - [Node] ([node.rs]): the state of a node and its operations: blocks, votes, evidence,
      VRF proofs, timers, production, appeals, policies and the node's own governance, and
      the start-up of [main.rs] ([boot]). Clocks are arguments, keys a Record, messages sent
      a field. [Admission] ([node.rs]): the prechecks, the submission of transactions and
      the votes of the review pool; [AdmissionLaws] holds its theorems. [Events]: [handle]
      and [run_events] are the dispatch of [main.rs] and of the RPC calls that change the
      node. [NodeLaws] holds the invariant of a node, [NodeProgress] its theorems,
      [NodeBehaviours] a network of four nodes.

    ** State, errors, integers and iteration

    A method that mutates and may fail is a computation of [ST]: the writes made before an
    error are kept, as in Rust, and it is the executor that reverts them. Machine integers
    are [Z] with [sat_add], [checked_add] and [wrap_add] written where the code saturates,
    checks or wraps. A hash map is a [gmap]; where its iteration order can be seen, the
    order is the class [Iteration], any permutation. A panic is a value of the error type
    ([Panic], [ExecCrash], [ImportCrash]) or [None].

    ** What the theorems show

    - Money: a transaction and a block conserve the sum of balances, stakes, unbonding
      amounts and bonds, less burned name rents; fees are charged exactly; slashing and
      restoring is a round trip.
    - Replay: a transaction consumes its sender's nonce, and none succeeds twice in a chain.
    - Agreement: two commits of a height agree (anchor and classic quorum); a vote is cast
      once; a commit is backed by a quorum.
    - Determinism: a block computes the same on every node with the same contents; the
      parallel path equals running the batch in order; what a node proposes every node
      accepts, with the same state; proposing leaves the tip's state alone.
    - State commitments: the incremental root is the root of the contents after any history
      of writes and reverts; the sparse Merkle tree equals its reference and its proofs
      bind; reverting to a checkpoint restores the contents.
    - Execution: a run of bytecode ends within its fuel and bounds; a failed transaction
      leaves no trace; the deploy checks accept the instructions the machine runs.
    - Node: the mempool and the chain index are well formed in every history; draining is
      best first and gives the pool back; eviction is fair.
      A node is a replicated ledger: whatever happens, its state is what its chain of blocks
      gives, each block certified at its parent by a quorum of the validators of the node's
      engine; nodes with the same blocks and policies agree; a quorum of votes commits. What
      is admitted is signed, fresh and funded; the fast check of transfers is the dry run.
    - Registries: names, bonds, appeals, governance and samples keep their invariants.
    - Behaviours that are flaws are theorems too (the [Behaviours] files and the
      [Collision] and [SampleRuns] modules); the manifest lists them as findings.

    ** Fuel and bounds

    The interpreter's fuel is derived from the gas and the call depth, and
    [run_with_qa_safe] shows that it is never exhausted. [drain_for_block] has the number
    of transactions asked for plus the senders as fuel, and [drain_best_first] shows that
    it suffices; [block_roots_total] does so for the roots of lists, [state_root_incremental]
    for the tree. Other recursions are structural.

    ** Hypotheses

    Hash functions, signatures and codecs are parameters; a theorem that needs one to be
    injective on given inputs says so or exhibits the collision. The Merkle theorems assume
    that no account lives at the tree key of a registry ([Collision] shows why).
    Agreement assumes that an honest validator votes once in a round; [honest_nodes_fork]
    shows that a node that times out does not. The theorems on nodes that speak of static
    validators exclude the stake-based and the open validator set; [steady] events set no
    policy. A node starts on an empty data directory; the answers of the blob store on the
    disk and of the limiter of gossip come with the events.

    ** Not modelled

    JSON-RPC ([rpc.rs], [rpc_ws.rs], [rpc_block_json.rs], [media_blobs_rpc.rs],
    [names_rpc.rs]), peer-to-peer networking ([boing-p2p]), files on disk
    ([persistence.rs], [media_blob_store.rs]) and so the restart from them, arguments, environment
    and tasks of the process ([main.rs], [logging.rs]), the registries of a node that only
    RPC calls read (dApps, intents, BLS keys), telemetry, the command line ([boing-cli]): input and output around the modelled core.
    The TypeScript SDK, the workers, the websites, the desktop hub and the examples are
    clients of the node. Serialisation ([bincode], JSON, hex) is third-party code and a
    parameter. *)

From stdpp Require Export base tactics list gmap strings sorting.
From Stdlib Require Export ZArith Lia.

#[global] Open Scope Z_scope.
#[export] Set Default Goal Selector "!".

(** ** Results and the state-and-error monad *)

(** Rust's [Result<A, E>]. *)
Inductive result (A E : Type) : Type :=
| Ok (a : A)
| Err (e : E).

Arguments Ok {_ _} _.
Arguments Err {_ _} _.

(** A [&mut self] method returning [Result]: the state is kept on the error
    path too, because Rust keeps the writes made before an early return. *)
Definition ST (S E A : Type) : Type := S → result A E * S.

Section ST.
Context {S E : Type}.

#[global] Instance st_ret : MRet (ST S E) := λ A a s, (Ok a, s).

#[global] Instance st_bind : MBind (ST S E) := λ A B k m s,
  match m s with
  | (Ok a, s') => k a s'
  | (Err e, s') => (Err e, s')
  end.

Definition st_get : ST S E S := λ s, (Ok s, s).

Definition st_put (s : S) : ST S E () := λ _, (Ok (), s).

Definition st_modify (f : S → S) : ST S E () := λ s, (Ok (), f s).

Definition st_fail {A} (e : E) : ST S E A := λ s, (Err e, s).

(** [if !cond { return Err(e) }]. *)
Definition st_require (cond : bool) (e : E) : ST S E () :=
  if cond then mret () else st_fail e.

(** [o.ok_or(e)?]. *)
Definition st_some {A} (o : option A) (e : E) : ST S E A :=
  match o with Some a => mret a | None => st_fail e end.

Lemma st_bind_ok {A B} (m : ST S E A) (k : A → ST S E B) s r s' :
  mbind k m s = (Ok r, s') →
  ∃ a s1, m s = (Ok a, s1) ∧ k a s1 = (Ok r, s').
Proof.
  unfold mbind, st_bind. destruct (m s) as [[a|e] s1]; [eauto|discriminate].
Qed.

Lemma st_require_ok c e s u s' :
  st_require c e s = (Ok u, s') → c = true ∧ s' = s.
Proof. unfold st_require. destruct c; intros H; inversion H; auto. Qed.
End ST.

(** Splits every monadic step of a successful run in the context. *)
Ltac st_inv :=
  repeat match goal with
  | H : (_ ≫= _) _ = (Ok _, _) |- _ =>
      let a := fresh "a" in let s1 := fresh "s" in
      let H1 := fresh "Hm" in let H2 := fresh "Hk" in
      apply st_bind_ok in H as (a & s1 & H1 & H2)
  | H : st_require _ _ _ = (Ok _, _) |- _ =>
      let H1 := fresh "Hreq" in let H2 := fresh "Hs" in
      apply st_require_ok in H as [H1 H2]; try subst
  end.

(** Exposes the state passing of a computation. *)
Ltac st_unfold :=
  unfold mbind, st_bind, st_get, st_put, st_modify, st_some, st_fail, st_require, mret, st_ret in *;
  cbn beta iota in *.

(** A [for] loop over a list whose body can fail. *)
Fixpoint mfold {A B : Type} (f : B → A → option B) (b : B) (l : list A) : option B :=
  match l with
  | [] => Some b
  | a :: r => b' ← f b a; mfold f b' r
  end.

(** A loop keeps an invariant of the elements done and the accumulator, and ends
    when each iteration does. *)
Lemma mfold_ind {A B} (f : B → A → option B) (P : list A → B → Prop) b l :
  P [] b →
  (∀ done a b, done ++ [a] `prefix_of` l → P done b → ∃ b', f b a = Some b' ∧ P (done ++ [a]) b') →
  ∃ b', mfold f b l = Some b' ∧ P l b'.
Proof.
  intros H0 Hstep.
  assert (∀ rest done b, done ++ rest = l → P done b → ∃ b', mfold f b rest = Some b' ∧ P l b') as Hgen.
  { induction rest as [|a rest IH]; intros done b0 Hl HP; simpl.
    - rewrite app_nil_r in Hl. subst. eauto.
    - destruct (Hstep done a b0) as (b1 & -> & HP'); [|done|].
      { exists rest. by rewrite <- app_assoc. }
      simpl. apply (IH (done ++ [a])); [by rewrite <- app_assoc|done]. }
  by apply (Hgen l []).
Qed.

(** ** Machine integers

    A Rust unsigned integer is a [Z]; the operations the code uses on it are
    written out with their saturation or wrap-around. [usize] is 64 bits. *)

Definition u8_max : Z := 255.
Definition u64_max : Z := 18446744073709551615.
Definition u128_max : Z := 340282366920938463463374607431768211455.

Definition in_u64 (x : Z) : Prop := 0 ≤ x ≤ u64_max.
Definition in_u128 (x : Z) : Prop := 0 ≤ x ≤ u128_max.

(** [saturating_add], [saturating_mul] at the width whose maximum is [m]. *)
Definition sat_add (m a b : Z) : Z := Z.min m (a + b).
Definition sat_mul (m a b : Z) : Z := Z.min m (a * b).
(** [saturating_sub] of an unsigned integer. *)
Definition sat_sub (a b : Z) : Z := Z.max 0 (a - b).
(** [checked_add]. *)
Definition checked_add (m a b : Z) : option Z :=
  if a + b <=? m then Some (a + b) else None.
(** [wrapping_add], and [+=] in a release build. *)
Definition wrap_add (m a b : Z) : Z := (a + b) `mod` (m + 1).
(** [div_ceil]. *)
Definition div_ceil (a b : Z) : Z := (a + b - 1) `div` b.

Ltac unfold_sat := unfold sat_add, sat_mul, sat_sub, checked_add, wrap_add,
  div_ceil, in_u64, in_u128 in *.

Ltac bool_to_prop :=
  repeat match goal with
  | H : (_ <=? _) = true |- _ => apply Z.leb_le in H
  | H : (_ <=? _) = false |- _ => apply Z.leb_gt in H
  | H : (_ <? _) = true |- _ => apply Z.ltb_lt in H
  | H : (_ <? _) = false |- _ => apply Z.ltb_ge in H
  | H : (_ =? _) = true |- _ => apply Z.eqb_eq in H
  | H : (_ =? _) = false |- _ => apply Z.eqb_neq in H
  | H : (_ && _) = true |- _ => apply andb_prop in H as [? ?]
  | H : (_ || _) = false |- _ => apply orb_false_elim in H as [? ?]
  | H : negb _ = true |- _ => apply negb_true_iff in H
  | H : negb _ = false |- _ => apply negb_false_iff in H
  | H : bool_decide _ = true |- _ => apply bool_decide_eq_true in H
  | H : bool_decide _ = false |- _ => apply bool_decide_eq_false in H
  end.

Create HintDb boing discriminated.

(** ** Lists *)

Section ListFacts.
Context {A : Type} `{EqDecision A}.
Implicit Types l u : list A.

Lemma filter_negb_length (P : A → Prop) `{∀ x, Decision (P x)} l :
  (length (filter P l) + length (filter (λ x, ¬ P x) l) = length l)%nat.
Proof.
  induction l as [|x l IH]; [done|].
  rewrite !filter_cons. destruct (decide (P x)).
  - rewrite (decide_False (P := ¬ P x)) by tauto. simpl. lia.
  - rewrite (decide_True (P := ¬ P x)) by tauto. simpl. lia.
Qed.

Lemma NoDup_incl_length l u :
  NoDup l → (∀ x, x ∈ l → x ∈ u) → (length l ≤ length u)%nat.
Proof. intros. by apply submseteq_length, NoDup_submseteq. Qed.

(** Two duplicate-free sublists of [u] share at least the excess of their
    sizes over the size of [u]. *)
Lemma intersection_length l1 l2 u :
  NoDup l1 → NoDup l2 → (∀ x, x ∈ l1 → x ∈ u) → (∀ x, x ∈ l2 → x ∈ u) →
  (length l1 + length l2 ≤ length (filter (λ x, x ∈ l2) l1) + length u)%nat.
Proof.
  intros Hn1 Hn2 Hi1 Hi2.
  pose proof (filter_negb_length (λ x, x ∈ l2) l1) as Hs.
  assert (length (filter (λ x, x ∉ l2) l1 ++ l2) ≤ length u)%nat as Hl.
  { apply NoDup_incl_length.
    - apply NoDup_app. split_and!; [by apply NoDup_filter| |done].
      intros x [??]%list_elem_of_filter. done.
    - intros x [[??]%list_elem_of_filter|?]%elem_of_app; auto. }
  rewrite length_app in Hl. lia.
Qed.

End ListFacts.

Lemma exists_not_in {A} `{EqDecision A} (l bad : list A) :
  NoDup l → (length bad < length l)%nat → ∃ x, x ∈ l ∧ x ∉ bad.
Proof.
  intros Hnd Hlt. destruct (decide (Exists (λ x, x ∉ bad) l)) as [He|Hn].
  - by apply Exists_exists in He.
  - exfalso. apply not_Exists_Forall in Hn; [|intros x; apply _].
    rewrite Forall_forall in Hn.
    assert (length l ≤ length bad)%nat; [|lia]. apply NoDup_incl_length; [done|].
    intros x Hx. specialize (Hn x Hx). by apply dec_stable.
Qed.

Lemma StronglySorted_filter {A} (R : relation A) (P : A → Prop) `{∀ x, Decision (P x)} l :
  StronglySorted R l → StronglySorted R (filter P l).
Proof.
  induction 1 as [|x l Hs IH Hall]; [constructor|]. rewrite filter_cons.
  case_decide; [|done]. constructor; [done|]. rewrite Forall_forall in *.
  intros y [_ ?]%list_elem_of_filter. by apply Hall.
Qed.

(** ** Sums over a table *)

Section MapSum.
Context {K A : Type} `{Countable K}.
Implicit Types (f g : A → Z) (m : gmap K A).

Definition map_sum f m : Z := map_fold (λ _ a s, f a + s) 0 m.

Lemma map_sum_empty f : map_sum f ∅ = 0.
Proof. apply map_fold_empty. Qed.

Lemma map_sum_fresh f i x m : m !! i = None → map_sum f (<[i := x]> m) = f x + map_sum f m.
Proof. intros Hi. unfold map_sum. rewrite map_fold_insert_L; [done|intros; lia|done]. Qed.

Lemma map_sum_delete f i x m : m !! i = Some x → map_sum f m = f x + map_sum f (delete i m).
Proof.
  intros Hi. rewrite <- (insert_delete_id m i x Hi) at 1. apply map_sum_fresh, lookup_delete_eq.
Qed.

Lemma map_sum_insert f i x m :
  map_sum f (<[i := x]> m) = map_sum f m - from_option f 0 (m !! i) + f x.
Proof.
  destruct (m !! i) as [y|] eqn:Hi; simpl.
  - rewrite (map_sum_delete f i y m Hi), <- insert_delete_eq, map_sum_fresh by apply lookup_delete_eq. lia.
  - rewrite map_sum_fresh by done. lia.
Qed.

Lemma map_sum_alter f (h : A → A) i m :
  map_sum f (alter h i m) =
  map_sum f m - from_option f 0 (m !! i) + from_option (λ x, f (h x)) 0 (m !! i).
Proof.
  destruct (m !! i) as [y|] eqn:Hi; simpl.
  - assert (alter h i m = <[i := h y]> m) as ->.
    { apply map_eq. intros j. destruct (decide (j = i)) as [->|Hne].
      - by rewrite lookup_alter_eq, lookup_insert_eq, Hi.
      - by rewrite lookup_alter_ne, lookup_insert_ne. }
    rewrite map_sum_insert, Hi. simpl. lia.
  - assert (alter h i m = m) as ->; [|lia].
    apply map_eq. intros j. destruct (decide (j = i)) as [->|Hne].
    + by rewrite lookup_alter_eq, Hi.
    + by rewrite lookup_alter_ne.
Qed.

Lemma map_sum_ext f g m : map_Forall (λ _ x, f x = g x) m → map_sum f m = map_sum g m.
Proof.
  induction m as [|i x m Hi IH] using map_ind; [done|].
  intros Hm. apply map_Forall_insert in Hm as [Hx Hm]; [|done].
  rewrite !map_sum_fresh by done. rewrite IH by done. lia.
Qed.

Lemma map_sum_mono f g m : map_Forall (λ _ x, f x ≤ g x) m → map_sum f m ≤ map_sum g m.
Proof.
  induction m as [|i x m Hi IH] using map_ind; [done|]. intros [Hx Hm]%map_Forall_insert; [|done].
  rewrite !map_sum_fresh by done. specialize (IH Hm). lia.
Qed.

Lemma map_sum_nonneg f m : map_Forall (λ _ x, 0 ≤ f x) m → 0 ≤ map_sum f m.
Proof.
  induction m as [|i x m Hi IH] using map_ind; [done|].
  intros Hm. apply map_Forall_insert in Hm as [Hx Hm]; [|done].
  rewrite map_sum_fresh by done. specialize (IH Hm). simpl in Hx. lia.
Qed.

(** One entry is at most the whole. *)
Lemma map_sum_le f m i x :
  map_Forall (λ _ x, 0 ≤ f x) m → m !! i = Some x → f x ≤ map_sum f m.
Proof.
  intros Hm Hi. rewrite (map_sum_delete f i x m Hi).
  pose proof (map_sum_nonneg f (delete i m) (map_Forall_delete _ _ i Hm)). lia.
Qed.

(** Entries that count for nothing may be dropped. *)
Lemma map_sum_filter f m (P : K * A → Prop) `{∀ x, Decision (P x)} :
  map_Forall (λ i x, P (i, x) ∨ f x = 0) m → map_sum f (filter P m) = map_sum f m.
Proof.
  induction m as [|i x m Hi IH] using map_ind; [done|].
  intros Hm. apply map_Forall_insert in Hm as [Hx Hm]; [|done].
  rewrite map_sum_fresh by done. destruct (decide (P (i, x))) as [HP|HP].
  - rewrite map_filter_insert_True by done.
    rewrite map_sum_fresh by (apply map_lookup_filter_None; by left). by rewrite IH.
  - rewrite map_filter_insert_not' by (try done; intros y; by rewrite Hi).
    rewrite IH by done. destruct Hx as [?|Hx]; [done|]. lia.
Qed.

(** A change of the entries that keeps what they count for. *)
Lemma map_sum_imap f (h : K → A → A) m :
  (∀ i x, f (h i x) = f x) → map_sum f (map_imap (λ i x, Some (h i x)) m) = map_sum f m.
Proof.
  intros Hh. induction m as [|i x m Hi IH] using map_ind; [by rewrite map_imap_empty|].
  rewrite map_imap_insert. rewrite !map_sum_fresh; [|done|by rewrite map_lookup_imap, Hi].
  by rewrite IH, Hh.
Qed.

End MapSum.

(** ** Two-sided saturating tallies

    The loop with which the code counts weighted votes for and against. *)

Section Tally.
Context {K V : Type} `{Countable K} (side : V → bool) (w : V → Z).

Definition tally_step (t : Z * Z) (v : V) : Z * Z :=
  if side v then (sat_add u128_max t.1 (w v), t.2) else (t.1, sat_add u128_max t.2 (w v)).

Definition for_weight (v : V) : Z := if side v then w v else 0.
Definition against_weight (v : V) : Z := if side v then 0 else w v.

Lemma tally_list l y n :
  Forall (λ v, 0 ≤ w v) l → 0 ≤ y → 0 ≤ n →
  foldl tally_step (Z.min u128_max y, Z.min u128_max n) l =
    (Z.min u128_max (foldr (λ v s, for_weight v + s) y l),
     Z.min u128_max (foldr (λ v s, against_weight v + s) n l)).
Proof.
  intros Hl. revert y n. induction Hl as [|v l Hv Hl IH]; intros y n Hy Hn; [done|]. simpl.
  assert (tally_step (Z.min u128_max y, Z.min u128_max n) v
    = (Z.min u128_max (for_weight v + y), Z.min u128_max (against_weight v + n))) as ->.
  { unfold tally_step, for_weight, against_weight, sat_add, u128_max. case_match; simpl; f_equal; lia. }
  rewrite IH; [|unfold for_weight, against_weight; case_match; lia..].
  assert (∀ f z u l, foldr (λ (v : V) s, f v + s) (z + u) l = z + foldr (λ v s, f v + s) u l) as Hf.
  { clear. intros f z u l. induction l; simpl; lia. }
  by rewrite !Hf.
Qed.

Lemma map_sum_foldr (f : V → Z) (m : gmap K V) :
  foldr (λ v s, f v + s) 0 (map_to_list m).*2 = map_sum f m.
Proof.
  unfold map_sum. rewrite map_fold_foldr. induction (map_to_list m) as [|[k v] l IH]; [done|].
  rewrite fmap_cons. cbn [foldr uncurry fst snd]. by rewrite IH.
Qed.

(** The loop computes the capped sums of the two sides. *)
Lemma tally_map (m : gmap K V) :
  map_Forall (λ _ v, 0 ≤ w v) m →
  foldl tally_step (0, 0) (map_to_list m).*2 =
    (Z.min u128_max (map_sum for_weight m), Z.min u128_max (map_sum against_weight m)).
Proof.
  intros Hm. rewrite <- !map_sum_foldr. apply (tally_list _ 0 0); [|done..].
  apply Forall_forall. intros v [[k v'] [-> Hv%elem_of_map_to_list]]%list_elem_of_fmap. by apply (Hm k).
Qed.

Lemma sides_sum (m : gmap K V) : map_sum w m = map_sum for_weight m + map_sum against_weight m.
Proof.
  induction m as [|k v m Hk IH] using map_ind; [done|]. rewrite !map_sum_fresh, IH by done.
  unfold for_weight, against_weight. case_match; lia.
Qed.

Lemma sides_nonneg (m : gmap K V) :
  map_Forall (λ _ v, 0 ≤ w v) m → 0 ≤ map_sum for_weight m ∧ 0 ≤ map_sum against_weight m.
Proof.
  intros Hm. split; apply map_sum_nonneg; intros k v Hv; specialize (Hm k v Hv); simpl in Hm;
    unfold for_weight, against_weight; case_match; lia.
Qed.
End Tally.
