(* ===== verification/Types.v ===== *)
(** * Primitive types of the chain

    Models [crates/boing-primitives/src]: byte words, accounts, access lists,
    transactions, blocks and receipts, and the binary Merkle tree behind
    [tx_root] and [receipts_root]. A byte is a [Z] between 0 and 255, a 32-byte
    array is a list of 32 of them ([is_word]). BLAKE3, bincode and the Ed25519
    libraries are third-party code: they are the operations of the class
    [Host]. *)

From S2P Require Import Prelude.

(** ** Byte arrays *)

Notation bytes := (list Z) (only parsing).
Notation AccountId := (list Z) (only parsing).
Notation Hash := (list Z) (only parsing).
Notation BlobId := (list Z) (only parsing).

Definition is_byte (b : Z) : Prop := 0 ≤ b < 256.
Definition is_bytes (l : bytes) : Prop := Forall is_byte l.
Definition is_word (w : bytes) : Prop := length w = 32%nat ∧ is_bytes w.

Definition word_ok (w : bytes) : bool :=
  Nat.eqb (length w) 32 && forallb (λ b, (0 <=? b) && (b <? 256)) w.

(** [[0u8; 32]] / [Hash::ZERO]. *)
Definition ZERO : Hash := replicate 32 0.

(** The unsigned value of a big-endian / little-endian byte string. *)
Fixpoint be_val (l : bytes) : Z :=
  match l with
  | [] => 0
  | b :: r => b * 256 ^ Z.of_nat (length r) + be_val r
  end.

Fixpoint le_val (l : bytes) : Z :=
  match l with [] => 0 | b :: r => b + 256 * le_val r end.

(** The [n] low bytes of [z], little-endian and big-endian
    ([to_le_bytes] / [to_be_bytes] at the type's width). *)
Fixpoint le_bytes (n : nat) (z : Z) : bytes :=
  match n with O => [] | S n' => z `mod` 256 :: le_bytes n' (z `div` 256) end.

Definition be_bytes (n : nat) (z : Z) : bytes := rev (le_bytes n z).

(** Lexicographic order of byte arrays (the derived [Ord] of [[u8; 32]]). *)
Fixpoint bytes_cmp (a b : bytes) : comparison :=
  match a, b with
  | [], [] => Eq
  | [], _ :: _ => Lt
  | _ :: _, [] => Gt
  | x :: a', y :: b' => match x ?= y with Eq => bytes_cmp a' b' | c => c end
  end.

Definition bytes_ltb (a b : bytes) : bool :=
  match bytes_cmp a b with Lt => true | _ => false end.
Definition bytes_leb (a b : bytes) : bool :=
  match bytes_cmp a b with Gt => false | _ => true end.

(** ** Accounts and access lists *)

Record AccountState := mkAccountState {
  balance : Z;
  nonce : Z;
  stake : Z;
  pending_unbond : Z;
  unbond_unlock_height : Z;
}.

Definition AccountState_default : AccountState := mkAccountState 0 0 0 0 0.

#[global] Instance AccountState_eq_dec : EqDecision AccountState.
Proof. solve_decision. Defined.

Record AccessList := mkAccessList {
  al_read : list AccountId;
  al_write : list AccountId;
}.

(** [AccessList::all]. *)
Definition al_all (a : AccessList) : list AccountId := al_read a ++ al_write a.

(** [AccessList::conflicts_with]. *)
Definition conflicts_with (a b : AccessList) : bool :=
  existsb (λ x, bool_decide (x ∈ al_all b)) (al_all a).

(** ** Transactions *)

Inductive BlobRetention :=
| Prunable (ttl_blocks : Z)
| Forever.

Definition is_forever (r : BlobRetention) : bool :=
  match r with Forever => true | Prunable _ => false end.

Inductive QaPoolVoteKind := QaAllow | QaReject | QaAbstain.

Record ConsensusVote := mkConsensusVote {
  cv_round : Z;
  cv_block_hash : Hash;
  cv_validator : AccountId;
  cv_signature : bytes;
}.

Record EquivocationEvidence := mkEquivocationEvidence {
  vote_a : ConsensusVote;
  vote_b : ConsensusVote;
}.

Inductive BatchCall :=
| BatchTransfer (to : AccountId) (amount : Z)
| BatchContractCall (contract : AccountId) (calldata : bytes)
| BatchContractCallWithValue (contract : AccountId) (calldata : bytes) (value : Z).

Inductive TransactionPayload :=
| Transfer (to : AccountId) (amount : Z)
| ContractCall (contract : AccountId) (calldata : bytes)
| ContractDeploy (bytecode : bytes) (create2_salt : option bytes)
| ContractDeployWithPurpose (bytecode : bytes) (purpose_category : string)
    (description_hash : option bytes) (create2_salt : option bytes)
| ContractDeployWithPurposeAndMetadata (bytecode : bytes)
    (purpose_category : string) (description_hash : option bytes)
    (asset_name asset_symbol : option string) (create2_salt : option bytes)
| Bond (amount : Z)
| Unbond (amount : Z)
| ClaimUnbond
| QaPoolVote (subject : Hash) (vote : QaPoolVoteKind)
| Batch (calls : list BatchCall)
| ValidatorRegister (node_id : AccountId) (node_signature : bytes)
| ValidatorDeregister (node_id : AccountId)
| ValidatorUnjail (node_id : AccountId)
| NameCommit (commitment : bytes)
| NameRegister (name : string) (salt : bytes) (target : AccountId) (years : Z)
| NameRenew (name : string) (years : Z)
| NameTransfer (name : string) (new_owner : AccountId)
| NameSetTarget (name : string) (target : AccountId)
| NameSetPrimary (name : option string)
| NameRelease (name : string)
| ContractCallWithValue (contract : AccountId) (calldata : bytes) (value : Z)
| PutBlob (retention : BlobRetention) (content_type : string) (data : bytes)
| BlobAnnounce (blob_id : BlobId) (size : Z) (retention : BlobRetention)
    (content_type : string)
| RenewMediaBlobPin (blob_id : BlobId) (size : Z) (extend_blocks : Z)
| PayBlobSample (blob_id : BlobId) (chunk_index chunk_count : Z)
| RegisterBlobSampleOffer (blob_id : BlobId) (chunk_index chunk_count : Z)
    (ask_fee : Z) (expires_at_height : Z)
| SettleBlobSampleMatch (blob_id : BlobId) (chunk_index chunk_count : Z)
    (provider : AccountId)
| CancelBlobSampleOffer (blob_id : BlobId) (chunk_index : Z)
| ChallengeBlobSampleServe (blob_id : BlobId) (chunk_index chunk_count : Z)
    (provider : AccountId)
| RespondBlobSampleServe (blob_id : BlobId) (chunk_index chunk_count : Z)
    (challenger : AccountId) (chunk_hash chunks_root : bytes)
    (siblings : list bytes)
| SubmitSlashAppeal (slash_id : Z) (evidence : bytes)
| ResolveSlashAppeal (appeal_id : Z) (approved : bool)
| ResolveSlashAppealAttested (appeal_id : Z) (approved : bool)
    (ballot_signature : bytes)
| ResolveSlashAppealBlsAggregate (appeal_id : Z) (approved : bool)
    (signer_bitset aggregate_signature : bytes) (signer_bls_pubkeys : list bytes)
| GrantBlobDownload (blob_id : BlobId) (grantee : AccountId)
| RevokeBlobDownload (blob_id : BlobId) (grantee : AccountId)
| ReportEquivocation (equivocation : EquivocationEvidence)
| GovernancePropose (target_key : string) (target_value : bytes)
| GovernanceVote (proposal_id : Z) (approve : bool)
| GovernanceAdvanceCooling (proposal_id : Z).

Record Transaction := mkTransaction {
  tx_nonce : Z;
  tx_sender : AccountId;
  tx_payload : TransactionPayload;
  tx_access_list : AccessList;
}.

(** [SignedTransaction] of [signature.rs]. *)
Record SignedTransaction := mkSignedTransaction {
  st_tx : Transaction;
  st_signature : bytes;
  st_priority_tip : Z;
}.

(** ** Blocks *)

Record BlockHeader := mkBlockHeader {
  parent_hash : Hash;
  height : Z;
  timestamp : Z;
  proposer : AccountId;
  bh_tx_root : Hash;
  bh_receipts_root : Hash;
  bh_state_root : Hash;
  blobs_root : option Hash;
}.

Record Block := mkBlock {
  header : BlockHeader;
  transactions : list Transaction;
  signatures : list bytes;
  priority_tips : list Z;
}.

Record ExecutionLog := mkExecutionLog {
  log_topics : list bytes;
  log_data : bytes;
}.

(** [Block::priority_tip_at]. *)
Definition priority_tip_at (b : Block) (i : nat) : Z :=
  default 0 (priority_tips b !! i).

(** [Block::signed_transactions]. *)
Definition signed_transactions (b : Block) : option (list SignedTransaction) :=
  if negb (Nat.eqb (length (signatures b)) (length (transactions b))) then None
  else if negb (Nat.eqb (length (priority_tips b)) 0)
          && negb (Nat.eqb (length (priority_tips b)) (length (transactions b)))
  then None
  else Some (imap (λ i '(tx, sig), mkSignedTransaction tx sig (priority_tip_at b i))
                  (zip (transactions b) (signatures b))).

(** ** Third-party operations *)

(** [bincode] serializes headers and transactions, [blake3] digests byte
    strings, and [ecvrf_verify] stands for [from_slice], [decode_pi] and
    [verify] of the [vrf-rfc9381] crate: [None] when any of them fails. *)
Class Host := {
  blake3 : bytes → Hash;
  bincode_header : BlockHeader → bytes;
  bincode_tx : Transaction → bytes;
  ecvrf_verify : AccountId → bytes → bytes → option bytes;
}.

(** BLAKE3 digests are 32 bytes. *)
Class HostDigest (h : Host) := blake3_word : ∀ l, is_word (blake3 l).

(** A concrete instance, used only by the witnesses: a polynomial digest and
    plain concatenation. *)
Definition sample_digest (l : bytes) : Hash :=
  be_bytes 32 (fold_left (λ acc b, Z.land (acc * 257 + b + 1) (Z.ones 56)) l 7).

Definition sample_host : Host := {|
  blake3 := sample_digest;
  bincode_header h :=
    parent_hash h ++ le_bytes 8 (height h) ++ le_bytes 8 (timestamp h) ++ proposer h
    ++ bh_tx_root h ++ bh_receipts_root h ++ bh_state_root h ++ default [] (blobs_root h);
  bincode_tx tx := le_bytes 8 (tx_nonce tx) ++ tx_sender tx;
  ecvrf_verify pk alpha pi := Some (sample_digest (pk ++ alpha) ++ sample_digest pi);
|}.

Section Hashing.
Context `{Host}.

(** [Block::hash]. *)
Definition block_hash (b : Block) : Hash := blake3 (bincode_header (header b)).

(** [Transaction::id]. *)
Definition tx_id (tx : Transaction) : Hash := blake3 (bincode_tx tx).

(** [nonce_derived_contract_address]. *)
Definition nonce_derived_contract_address (sender : AccountId) (deploy_tx_nonce : Z)
    : AccountId :=
  blake3 (sender ++ le_bytes 8 deploy_tx_nonce).

(** The bytes of the constant [CREATE2_DOMAIN], "boing.create2.v1" and a zero byte. *)
Definition CREATE2_DOMAIN : bytes :=
  [98; 111; 105; 110; 103; 46; 99; 114; 101; 97; 116; 101; 50; 46; 118; 49; 0].

(** [create2_contract_address]. *)
Definition create2_contract_address (deployer : AccountId) (salt bytecode : bytes)
    : AccountId :=
  blake3 (CREATE2_DOMAIN ++ deployer ++ salt ++ blake3 bytecode).

(** [hash_pair] of [types.rs] and of [sparse_merkle.rs]. *)
Definition hash_pair (a b : Hash) : Hash := blake3 (a ++ b).

(** One level of [merkle_root_impl]: the loop over [hashes.chunks(2)]. *)
Fixpoint merkle_level (hashes : list Hash) : list Hash :=
  match hashes with
  | a :: b :: rest => hash_pair a b :: merkle_level rest
  | [a] => [hash_pair a a]
  | [] => []
  end.

(** [merkle_root_impl]: [None] is the recursion that does not end (the source
    never calls it on an empty slice). *)
Fixpoint merkle_root_impl (fuel : nat) (hashes : list Hash) : option Hash :=
  match fuel with
  | O => None
  | S fuel' =>
      match hashes with
      | [h] => Some h
      | _ => merkle_root_impl fuel' (merkle_level hashes)
      end
  end.

(** [tx_root]; the fuel is the number of leaves. *)
Definition tx_root (txs : list Transaction) : option Hash :=
  match txs with
  | [] => Some ZERO
  | _ => merkle_root_impl (length txs) (map tx_id txs)
  end.

End Hashing.

(** ** Payload helpers *)

Definition MAX_BATCH_CALLS : Z := 16.
Definition MAX_BATCH_CALLDATA_BYTES : Z := 64 * 1024.

Inductive BatchValidationError :=
| BatchEmpty
| TooManyCalls (got max : Z)
| CalldataTooLarge (got max : Z)
| AmountOverflow.

Definition batch_call_calldata (c : BatchCall) : Z :=
  match c with
  | BatchTransfer _ _ => 0
  | BatchContractCall _ d => Z.of_nat (length d)
  | BatchContractCallWithValue _ d _ => Z.of_nat (length d)
  end.

Definition batch_call_value (c : BatchCall) : Z :=
  match c with
  | BatchTransfer _ amount => amount
  | BatchContractCall _ _ => 0
  | BatchContractCallWithValue _ _ value => value
  end.

(** The accumulation loop of [validate_batch_calls]: summed calldata
    (saturating at [usize]) and summed amount ([checked_add] at [u128]). *)
Fixpoint batch_totals (calls : list BatchCall) (calldata total : Z)
    : result (Z * Z) BatchValidationError :=
  match calls with
  | [] => Ok (calldata, total)
  | BatchTransfer _ amount :: rest =>
      match checked_add u128_max total amount with
      | None => Err AmountOverflow
      | Some t => batch_totals rest calldata t
      end
  | BatchContractCall _ d :: rest =>
      batch_totals rest (sat_add u64_max calldata (Z.of_nat (length d))) total
  | BatchContractCallWithValue _ d value :: rest =>
      match checked_add u128_max total value with
      | None => Err AmountOverflow
      | Some t =>
          batch_totals rest (sat_add u64_max calldata (Z.of_nat (length d))) t
      end
  end.

(** [validate_batch_calls]. *)
Definition validate_batch_calls (calls : list BatchCall)
    : result () BatchValidationError :=
  if Nat.eqb (length calls) 0 then Err BatchEmpty
  else if MAX_BATCH_CALLS <? Z.of_nat (length calls)
  then Err (TooManyCalls (Z.of_nat (length calls)) MAX_BATCH_CALLS)
  else match batch_totals calls 0 0 with
  | Err e => Err e
  | Ok (calldata, _) =>
      if MAX_BATCH_CALLDATA_BYTES <? calldata
      then Err (CalldataTooLarge calldata MAX_BATCH_CALLDATA_BYTES)
      else Ok ()
  end.

(** [TransactionPayload::validate_batch]. *)
Definition validate_batch (p : TransactionPayload) : result () BatchValidationError :=
  match p with Batch calls => validate_batch_calls calls | _ => Ok () end.

(** [TransactionPayload::native_transfer_total]. *)
Definition native_transfer_total (p : TransactionPayload) : Z :=
  match p with
  | Transfer _ amount => amount
  | ContractCallWithValue _ _ value => value
  | Batch calls =>
      fold_left (sat_add u128_max) (map batch_call_value calls) 0
  | _ => 0
  end.

(** [TransactionPayload::deploy_create2_salt]. *)
Definition deploy_create2_salt (p : TransactionPayload) : option bytes :=
  match p with
  | ContractDeploy _ s => s
  | ContractDeployWithPurpose _ _ _ s => s
  | ContractDeployWithPurposeAndMetadata _ _ _ _ _ s => s
  | _ => None
  end.

(** [TransactionPayload::as_contract_deploy]: bytecode, purpose category,
    description hash, asset name, asset symbol. *)
Definition as_contract_deploy (p : TransactionPayload)
    : option (bytes * option string * option bytes * option string * option string) :=
  match p with
  | ContractDeploy b _ => Some (b, None, None, None, None)
  | ContractDeployWithPurpose b c d _ => Some (b, Some c, d, None, None)
  | ContractDeployWithPurposeAndMetadata b c d n s _ => Some (b, Some c, d, n, s)
  | _ => None
  end.

Definition CONTRACT_DEPLOY_INIT_CODE_MARKER : Z := 253.

(** [contract_deploy_uses_init_code], [contract_deploy_init_body]. *)
Definition contract_deploy_uses_init_code (bytecode : bytes) : bool :=
  match bytecode with b :: _ => b =? CONTRACT_DEPLOY_INIT_CODE_MARKER | [] => false end.

Definition contract_deploy_init_body (bytecode : bytes) : bytes :=
  if contract_deploy_uses_init_code bytecode then drop 1 bytecode else bytecode.

(** ** Lemmas on byte strings *)

Lemma pow256_pos n : 0 < 256 ^ Z.of_nat n.
Proof. apply Z.pow_pos_nonneg; lia. Qed.

Lemma pow256_S n : 256 ^ Z.of_nat (S n) = 256 * 256 ^ Z.of_nat n.
Proof. rewrite Nat2Z.inj_succ, Z.pow_succ_r by lia. done. Qed.

Lemma word_ok_spec w : word_ok w = true ↔ is_word w.
Proof.
  unfold word_ok, is_word, is_bytes. rewrite andb_true_iff, Nat.eqb_eq, forallb_forall.
  rewrite Forall_forall. unfold is_byte.
  setoid_rewrite list_elem_of_In.
  split; intros [Hl Hb]; split; [done| |done|]; intros x Hx; specialize (Hb x Hx);
    [bool_to_prop|apply andb_true_intro; split; [apply Z.leb_le|apply Z.ltb_lt]]; lia.
Qed.

Lemma be_val_app a b :
  be_val (a ++ b) = be_val a * 256 ^ Z.of_nat (length b) + be_val b.
Proof.
  induction a as [|x a IH]; [done|]. simpl.
  rewrite IH, length_app, Nat2Z.inj_add, Z.pow_add_r by lia. ring.
Qed.

Lemma be_val_rev l : be_val (rev l) = le_val l.
Proof.
  induction l as [|x l IH]; [done|].
  simpl. rewrite be_val_app, IH. simpl. lia.
Qed.

Lemma be_val_bound l : is_bytes l → 0 ≤ be_val l < 256 ^ Z.of_nat (length l).
Proof.
  induction 1 as [|x l Hx Hl IH]; [simpl; lia|].
  cbn [be_val length]. rewrite pow256_S. unfold is_byte in Hx. nia.
Qed.

Lemma be_val_inj a b :
  is_bytes a → is_bytes b → length a = length b → be_val a = be_val b → a = b.
Proof.
  intros Ha. revert b. induction Ha as [|x a Hx Ha IH]; intros [|y b] Hb Hlen Hv;
    try discriminate; [done|].
  inversion_clear Hb as [|? ? Hy Hb']. simpl in Hlen, Hv. injection Hlen as Hlen.
  pose proof (be_val_bound a Ha). pose proof (be_val_bound b Hb').
  rewrite Hlen in *. unfold is_byte in *.
  assert (x = y) as -> by nia. f_equal. apply IH; [done|done|lia].
Qed.

Lemma length_le_bytes n z : length (le_bytes n z) = n.
Proof. revert z. induction n; intros z; simpl; auto. Qed.

Lemma length_be_bytes n z : length (be_bytes n z) = n.
Proof. unfold be_bytes. rewrite length_rev. apply length_le_bytes. Qed.

Lemma is_bytes_le_bytes n z : is_bytes (le_bytes n z).
Proof.
  revert z. induction n; intros z; simpl; constructor; [|apply IHn].
  unfold is_byte. apply Z.mod_pos_bound. lia.
Qed.

Lemma is_bytes_be_bytes n z : is_bytes (be_bytes n z).
Proof.
  apply Forall_rev, is_bytes_le_bytes.
Qed.

Lemma le_val_le_bytes n z : le_val (le_bytes n z) = z `mod` 256 ^ Z.of_nat n.
Proof.
  revert z. induction n as [|n IH]; intros z; [simpl; by rewrite Z.mod_1_r|].
  cbn [le_bytes le_val]. rewrite IH, pow256_S.
  pose proof (pow256_pos n). rewrite Z.rem_mul_r by lia. done.
Qed.

Lemma be_val_be_bytes n z : be_val (be_bytes n z) = z `mod` 256 ^ Z.of_nat n.
Proof. unfold be_bytes. rewrite be_val_rev. apply le_val_le_bytes. Qed.

Lemma be_bytes_be_val l : is_bytes l → be_bytes (length l) (be_val l) = l.
Proof.
  intros Hl. apply be_val_inj; [apply is_bytes_be_bytes|done|apply length_be_bytes|].
  rewrite be_val_be_bytes. apply Z.mod_small, be_val_bound, Hl.
Qed.

Lemma is_word_be_bytes z : is_word (be_bytes 32 z).
Proof. split; [apply length_be_bytes|apply is_bytes_be_bytes]. Qed.

Lemma is_word_ZERO : is_word ZERO.
Proof. by apply word_ok_spec. Qed.

Lemma be_val_replicate_0 n : be_val (replicate n 0) = 0.
Proof. induction n as [|n IH]; [done|]. simpl. rewrite IH. lia. Qed.

Lemma bytes_cmp_be_val a b :
  is_bytes a → is_bytes b → length a = length b →
  bytes_cmp a b = (be_val a ?= be_val b).
Proof.
  intros Ha. revert b. induction Ha as [|x a Hx Ha IH]; intros [|y b] Hb Hlen;
    try discriminate; [done|].
  inversion_clear Hb as [|? ? Hy Hb']. simpl in Hlen. injection Hlen as Hlen.
  pose proof (be_val_bound a Ha). pose proof (be_val_bound b Hb').
  cbn [bytes_cmp be_val]. rewrite (IH b Hb' Hlen), Hlen in *. unfold is_byte in *.
  destruct (Z.compare_spec x y) as [->|Hxy|Hxy].
  - destruct (Z.compare_spec (be_val a) (be_val b)) as [->|?|?]; symmetry;
      [apply Z.compare_refl|apply Z.compare_lt_iff; lia|apply Z.compare_gt_iff; lia].
  - symmetry. apply Z.compare_lt_iff. nia.
  - symmetry. apply Z.compare_gt_iff. nia.
Qed.

(** The byte order is a total order on byte strings of any length. *)
Lemma bytes_cmp_eq a b : bytes_cmp a b = Eq ↔ a = b.
Proof.
  revert b. induction a as [|x a IH]; intros [|y b]; simpl; split; intros H;
    try discriminate; try done.
  - destruct (Z.compare_spec x y) as [->|?|?]; try discriminate.
    apply IH in H. by subst.
  - injection H as -> ->. rewrite Z.compare_refl. by apply IH.
Qed.

Lemma bytes_cmp_refl a : bytes_cmp a a = Eq.
Proof. by apply bytes_cmp_eq. Qed.

Lemma bytes_cmp_antisym a b : bytes_cmp b a = CompOpp (bytes_cmp a b).
Proof.
  revert b. induction a as [|x a IH]; intros [|y b]; simpl; try done.
  rewrite (Z.compare_antisym x y). destruct (x ?= y); simpl; auto.
Qed.

Lemma bytes_cmp_lt_trans a b c :
  bytes_cmp a b = Lt → bytes_cmp b c = Lt → bytes_cmp a c = Lt.
Proof.
  revert b c. induction a as [|x a IH]; intros [|y b] [|z c]; simpl; try done.
  destruct (Z.compare_spec x y) as [->|Hxy|Hxy]; try done.
  - destruct (y ?= z); try done. apply IH.
  - intros _. destruct (Z.compare_spec y z) as [->|Hyz|Hyz]; try done; intros _;
      (rewrite (proj2 (Z.compare_lt_iff x z)) by lia; done).
Qed.

Lemma bytes_ltb_irrefl a : bytes_ltb a a = false.
Proof. unfold bytes_ltb. by rewrite bytes_cmp_refl. Qed.

Lemma bytes_leb_total a b : bytes_leb a b = true ∨ bytes_leb b a = true.
Proof.
  unfold bytes_leb. rewrite (bytes_cmp_antisym a b). destruct (bytes_cmp a b); auto.
Qed.

Lemma bytes_leb_refl a : bytes_leb a a = true.
Proof. unfold bytes_leb. by rewrite bytes_cmp_refl. Qed.

Lemma bytes_ltb_true a b : bytes_ltb a b = true → bytes_leb a b = true.
Proof. unfold bytes_ltb, bytes_leb. by destruct (bytes_cmp a b). Qed.

Lemma bytes_ltb_false a b : bytes_ltb a b = false → bytes_leb b a = true.
Proof.
  unfold bytes_ltb, bytes_leb. rewrite (bytes_cmp_antisym a b). by destruct (bytes_cmp a b).
Qed.

Lemma bytes_leb_antisym a b : bytes_leb a b = true → bytes_leb b a = true → a = b.
Proof.
  unfold bytes_leb. rewrite (bytes_cmp_antisym a b).
  destruct (bytes_cmp a b) eqn:E; try done. by apply bytes_cmp_eq in E.
Qed.

Lemma bytes_leb_trans a b c :
  bytes_leb a b = true → bytes_leb b c = true → bytes_leb a c = true.
Proof.
  unfold bytes_leb. destruct (bytes_cmp a b) eqn:E1; try done.
  - apply bytes_cmp_eq in E1. by subst.
  - destruct (bytes_cmp b c) eqn:E2; try done.
    + apply bytes_cmp_eq in E2. subst. by rewrite E1.
    + by rewrite (bytes_cmp_lt_trans a b c).
Qed.

#[global] Instance bytes_le_total : Total (λ a b : bytes, Is_true (bytes_leb a b)).
Proof. intros a b. destruct (bytes_leb_total a b) as [-> | ->]; simpl; auto. Qed.

#[global] Instance bytes_le_trans : Transitive (λ a b : bytes, Is_true (bytes_leb a b)).
Proof. intros a b c. rewrite !Is_true_true. apply bytes_leb_trans. Qed.

#[export] Hint Resolve is_bytes_be_bytes is_bytes_le_bytes is_word_be_bytes is_word_ZERO : boing.
#[export] Hint Rewrite length_be_bytes length_le_bytes be_val_be_bytes : boing.

#[export] Instance sample_host_digest : HostDigest sample_host.
Proof. intros l. split; [apply length_be_bytes|apply is_bytes_be_bytes]. Qed.
