(* ===== verification/Names.v ===== *)
(** * The name registry

    Models [crates/boing-primitives/src/names.rs] (label rules, rent and
    commitments) and [crates/boing-state/src/names.rs] (the registry that the
    [Name*] transactions change). A label is the byte string of its UTF-8
    encoding. A [&mut self] method is a computation of the monad [ST] over
    [NameRegistry]: the pruning a failed call has done is kept. *)

From S2P Require Import Prelude Types.
From Stdlib Require Ascii String.

(** ** Labels *)

Definition NAME_MIN_LEN : nat := 3.
Definition NAME_MAX_LEN : nat := 32.
Definition NAME_MIN_YEARS : Z := 1.
Definition NAME_MAX_YEARS : Z := 10.

Definition str_bytes (s : string) : bytes :=
  (λ c, Z.of_N (Ascii.N_of_ascii c)) <$> String.list_ascii_of_string s.

Definition RESERVED_NAMES : list string :=
  ["boing"; "admin"; "administrator"; "root"; "system"; "validator"; "validators"; "faucet";
   "observer"; "wallet"; "support"; "help"; "official"; "team"; "dex"; "finance"; "express";
   "network"; "treasury"; "governance"; "security"; "staking"; "bridge"; "testnet"; "mainnet";
   "null"; "undefined"; "anchor"; "registry"; "names"]%string.

Inductive NameError := NeLength | NeCharset | NeHyphen | NeLooksLikeAddress | NeReserved.

(** [is_ascii_lowercase], [is_ascii_digit], [is_ascii_hexdigit] of a byte. *)
Definition is_lower (b : Z) : bool := (97 <=? b) && (b <=? 122).
Definition is_digit (b : Z) : bool := (48 <=? b) && (b <=? 57).
Definition is_hexdigit (b : Z) : bool :=
  is_digit b || ((97 <=? b) && (b <=? 102)) || ((65 <=? b) && (b <=? 70)).

Definition hyphen : Z := 45.

(** [contains("--")]. *)
Fixpoint double_hyphen (l : bytes) : bool :=
  match l with
  | a :: ((b :: _) as r) => ((a =? hyphen) && (b =? hyphen)) || double_hyphen r
  | _ => false
  end.

Definition validate_label (label : string) : result () NameError :=
  let l := str_bytes label in
  let len := length l in
  if negb ((NAME_MIN_LEN <=? len)%nat && (len <=? NAME_MAX_LEN)%nat) then Err NeLength
  else if negb (forallb (λ b, is_lower b || is_digit b || (b =? hyphen)) l) then Err NeCharset
  else if bool_decide (head l = Some hyphen) || bool_decide (last l = Some hyphen)
          || double_hyphen l then Err NeHyphen
  else if bool_decide (take 2 l = [48; 120]) || forallb is_digit l
          || ((32 <=? len)%nat && forallb is_hexdigit l) then Err NeLooksLikeAddress
  else Ok ().

Definition is_reserved (label : string) : bool := bool_decide (label ∈ RESERVED_NAMES).

Definition check_registrable (label : string) : result () NameError :=
  match validate_label label with
  | Err e => Err e
  | Ok _ => if is_reserved label then Err NeReserved else Ok ()
  end.

Definition name_rent_per_year (label : string) : Z :=
  match length (str_bytes label) with
  | 0%nat | 1%nat | 2%nat | 3%nat => 10
  | 4%nat => 5
  | 5%nat => 2
  | _ => 1
  end.

Definition name_rent (label : string) (years : Z) : Z := name_rent_per_year label * years.

(** ** The registry *)

Record NameRegistryParams := mkNameParams {
  np_activation_height : Z;
  blocks_per_year : Z;
  grace_blocks : Z;
  commit_min_age : Z;
  commit_max_age : Z;
}.

Record NameRecord := mkNameRecord {
  nr_owner : AccountId;
  nr_target : AccountId;
  nr_registered_at : Z;
  nr_expires_at : Z;
}.

Record CommitRecord := mkCommitRecord {
  cr_sender : AccountId;
  cr_height : Z;
}.

Inductive NameStatus := NameActive | NameGrace | NameExpired.

#[global] Instance NameStatus_eq_dec : EqDecision NameStatus.
Proof. solve_decision. Defined.

Inductive NameRegistryError :=
| NrDisabled
| NrNotYetActive (activation_height : Z)
| NrInvalidName (e : NameError)
| NrInvalidYears
| NrCommitExists
| NrCommitNotFound
| NrCommitTooNew (ready_at : Z)
| NrCommitTooOld
| NrNotAvailable
| NrNotRegistered
| NrNotOwner
| NrExpired
| NrTooFarAhead
| NrPrimaryMismatch
| NrInsufficientBalance (rent : Z).

Record NameRegistry := mkNameRegistry {
  names : gmap string NameRecord;
  reverse : gmap AccountId string;
  commits : gmap bytes CommitRecord;
}.

Definition empty_names : NameRegistry := mkNameRegistry ∅ ∅ ∅.

Definition set_names (r : NameRegistry) (m : gmap string NameRecord) : NameRegistry :=
  mkNameRegistry m (reverse r) (commits r).
Definition set_reverse (r : NameRegistry) (m : gmap AccountId string) : NameRegistry :=
  mkNameRegistry (names r) m (commits r).
Definition set_commits (r : NameRegistry) (m : gmap bytes CommitRecord) : NameRegistry :=
  mkNameRegistry (names r) (reverse r) m.

Module NameReg.
Section Registry.
Context `{Host}.

Notation M := (ST NameRegistry NameRegistryError).

(** [name_commitment]: domain, length, label, owner and salt. *)
Definition name_commitment (label : string) (owner : AccountId) (salt : bytes) : bytes :=
  blake3 (str_bytes "BOING_NAME_COMMIT_V1"%string ++ le_bytes 4 (Z.of_nat (length (str_bytes label)))
          ++ str_bytes label ++ owner ++ salt).

Definition is_empty (r : NameRegistry) : bool :=
  bool_decide (names r = ∅) && bool_decide (reverse r = ∅) && bool_decide (commits r = ∅).

Definition status_of (rec : NameRecord) (p : NameRegistryParams) (height : Z) : NameStatus :=
  if height <? nr_expires_at rec then NameActive
  else if height <? sat_add u64_max (nr_expires_at rec) (grace_blocks p) then NameGrace
  else NameExpired.

Definition status (r : NameRegistry) (label : string) (p : NameRegistryParams) (height : Z)
    : option NameStatus :=
  (λ rec, status_of rec p height) <$> names r !! label.

Definition is_available (r : NameRegistry) (label : string) (p : NameRegistryParams) (height : Z)
    : bool :=
  match names r !! label with
  | None => true
  | Some rec => bool_decide (status_of rec p height = NameExpired)
  end.

Definition resolve (r : NameRegistry) (label : string) (p : NameRegistryParams) (height : Z)
    : option NameRecord :=
  match names r !! label with
  | Some rec => if bool_decide (status_of rec p height = NameActive) then Some rec else None
  | None => None
  end.

Definition reverse_verified (r : NameRegistry) (addr : AccountId) (p : NameRegistryParams)
    (height : Z) : option string :=
  label ← reverse r !! addr;
  rec ← resolve r label p height;
  if bool_decide (nr_target rec = addr) then Some label else None.

Definition clear_reverse_pointing_to (addr : AccountId) (label : string) (r : NameRegistry)
    : NameRegistry :=
  if bool_decide (reverse r !! addr = Some label) then set_reverse r (delete addr (reverse r)) else r.

Definition prune_commits (p : NameRegistryParams) (height : Z) (r : NameRegistry) : NameRegistry :=
  set_commits r (filter (λ e, sat_sub height (cr_height e.2) <= commit_max_age p) (commits r)).

Definition sender_commit_key (sender : AccountId) (commitment : bytes) : bytes :=
  blake3 (str_bytes "BOING_NAME_COMMIT_V2"%string ++ sender ++ commitment).

Definition commit_keyed (p : NameRegistryParams) (height : Z) (sender : AccountId)
    (commitment : bytes) (sender_keyed : bool) : M () :=
  _ ← st_modify (prune_commits p height);
  let key := if sender_keyed then sender_commit_key sender commitment else commitment in
  r ← st_get;
  if decide (is_Some (commits r !! key)) then st_fail NrCommitExists
  else st_put (set_commits r (<[key := mkCommitRecord sender height]> (commits r))).

Definition find_commit (r : NameRegistry) (sender : AccountId) (commitment : bytes)
    (sender_keyed : bool) : option (bytes * CommitRecord) :=
  let legacy :=
    match commits r !! commitment with
    | Some rec => if bool_decide (cr_sender rec = sender) then Some (commitment, rec) else None
    | None => None
    end in
  if sender_keyed then
    let k := sender_commit_key sender commitment in
    match commits r !! k with
    | Some rec => Some (k, rec)
    | None => legacy
    end
  else legacy.

Definition years_ok (years : Z) : bool := (NAME_MIN_YEARS <=? years) && (years <=? NAME_MAX_YEARS).

Definition check_register_keyed (r : NameRegistry) (p : NameRegistryParams) (height : Z)
    (sender : AccountId) (label : string) (salt : bytes) (years : Z) (sender_keyed : bool)
    : result (Z * bytes) NameRegistryError :=
  match check_registrable label with
  | Err e => Err (NrInvalidName e)
  | Ok _ =>
      if negb (years_ok years) then Err NrInvalidYears
      else
        match find_commit r sender (name_commitment label sender salt) sender_keyed with
        | None => Err NrCommitNotFound
        | Some (key, rec) =>
            let age := sat_sub height (cr_height rec) in
            if age <? commit_min_age p
            then Err (NrCommitTooNew (wrap_add u64_max (cr_height rec) (commit_min_age p)))
            else if commit_max_age p <? age then Err NrCommitTooOld
            else if negb (is_available r label p height) then Err NrNotAvailable
            else Ok (name_rent label years, key)
        end
  end.

Definition register_keyed (p : NameRegistryParams) (height : Z) (sender : AccountId)
    (label : string) (salt : bytes) (target : AccountId) (years : Z) (sender_keyed : bool) : M Z :=
  r ← st_get;
  match check_register_keyed r p height sender label salt years sender_keyed with
  | Err e => st_fail e
  | Ok (rent, key) =>
      let r := set_commits r (delete key (commits r)) in
      let r := match names r !! label with
               | Some old =>
                   clear_reverse_pointing_to (nr_owner old) label
                     (clear_reverse_pointing_to (nr_target old) label
                        (set_names r (delete label (names r))))
               | None => r
               end in
      let rec := mkNameRecord sender target height
                   (sat_add u64_max height (sat_mul u64_max (blocks_per_year p) years)) in
      _ ← st_put (prune_commits p height (set_names r (<[label := rec]> (names r))));
      mret rent
  end.

(** [owned_mut]: the record a write goes to. *)
Definition owned_mut (p : NameRegistryParams) (height : Z) (sender : AccountId) (label : string)
    (allow_grace : bool) : M NameRecord :=
  r ← st_get;
  rec ← st_some (names r !! label) NrNotRegistered;
  match status_of rec p height with
  | NameGrace => if allow_grace then mret rec else st_fail NrExpired
  | NameExpired => st_fail NrNotRegistered
  | NameActive => mret rec
  end ≫= λ rec, if bool_decide (nr_owner rec = sender) then mret rec else st_fail NrNotOwner.

Definition write_record (label : string) (rec : NameRecord) : M () :=
  st_modify (λ r, set_names r (<[label := rec]> (names r))).

Definition renew (p : NameRegistryParams) (height : Z) (sender : AccountId) (label : string)
    (years : Z) : M Z :=
  if negb (years_ok years) then st_fail NrInvalidYears
  else
    let bpy := blocks_per_year p in
    rec ← owned_mut p height sender label true;
    let base := Z.max (nr_expires_at rec) height in
    let new_exp := sat_add u64_max base (sat_mul u64_max bpy years) in
    if sat_mul u64_max bpy NAME_MAX_YEARS <? sat_sub new_exp height then st_fail NrTooFarAhead
    else
      _ ← write_record label (mkNameRecord (nr_owner rec) (nr_target rec) (nr_registered_at rec) new_exp);
      mret (name_rent label years).

Definition transfer (p : NameRegistryParams) (height : Z) (sender : AccountId) (label : string)
    (new_owner : AccountId) : M () :=
  rec ← owned_mut p height sender label false;
  _ ← write_record label (mkNameRecord new_owner (nr_target rec) (nr_registered_at rec) (nr_expires_at rec));
  st_modify (clear_reverse_pointing_to sender label).

Definition set_target (p : NameRegistryParams) (height : Z) (sender : AccountId) (label : string)
    (target : AccountId) : M () :=
  rec ← owned_mut p height sender label false;
  let old := nr_target rec in
  _ ← write_record label (mkNameRecord (nr_owner rec) target (nr_registered_at rec) (nr_expires_at rec));
  if bool_decide (old = target) then mret () else st_modify (clear_reverse_pointing_to old label).

Definition set_primary (p : NameRegistryParams) (height : Z) (sender : AccountId)
    (label : option string) : M () :=
  match label with
  | None => st_modify (λ r, set_reverse r (delete sender (reverse r)))
  | Some l =>
      r ← st_get;
      let ok := match resolve r l p height with
                | Some rec => bool_decide (nr_target rec = sender)
                | None => false
                end in
      if ok then st_modify (λ r, set_reverse r (<[sender := l]> (reverse r)))
      else st_fail NrPrimaryMismatch
  end.

Definition release (p : NameRegistryParams) (height : Z) (sender : AccountId) (label : string)
    : M () :=
  rec ← owned_mut p height sender label true;
  st_modify (λ r, clear_reverse_pointing_to (nr_owner rec) label
                    (clear_reverse_pointing_to (nr_target rec) label
                       (set_names r (delete label (names r))))).

End Registry.
End NameReg.

(** ** Histories *)

(** A call the VM makes, with its sender and block height. *)
Inductive NameOp :=
| NoCommit (commitment : bytes) (sender_keyed : bool)
| NoRegister (label : string) (salt : bytes) (target : AccountId) (years : Z) (sender_keyed : bool)
| NoRenew (label : string) (years : Z)
| NoTransfer (label : string) (new_owner : AccountId)
| NoSetTarget (label : string) (target : AccountId)
| NoSetPrimary (label : option string)
| NoRelease (label : string).

Module NameLaws.
Import NameReg.
Section Laws.
Context `{Host} (p : NameRegistryParams).

Definition apply_name_op (height : Z) (sender : AccountId) (op : NameOp)
    : ST NameRegistry NameRegistryError Z :=
  match op with
  | NoCommit c k => _ ← commit_keyed p height sender c k; mret 0
  | NoRegister l s t y k => register_keyed p height sender l s t y k
  | NoRenew l y => renew p height sender l y
  | NoTransfer l o => _ ← transfer p height sender l o; mret 0
  | NoSetTarget l t => _ ← set_target p height sender l t; mret 0
  | NoSetPrimary l => _ ← set_primary p height sender l; mret 0
  | NoRelease l => _ ← release p height sender l; mret 0
  end.

(** The registry after a history of calls, failed ones included. *)
Definition run_names (r : NameRegistry) (ops : list (Z * AccountId * NameOp)) : NameRegistry :=
  foldl (λ r e, (apply_name_op e.1.1 e.1.2 e.2 r).2) r ops.

(** A reverse record names a label that targets its address; a registered label
    passed the checks. *)
Record names_ok (r : NameRegistry) : Prop := {
  no_reverse : ∀ a l, reverse r !! a = Some l → ∃ rec, names r !! l = Some rec ∧ nr_target rec = a;
  no_labels : ∀ l rec, names r !! l = Some rec → check_registrable l = Ok ();
}.

Lemma clear_reverse_lookup a l r b :
  reverse (clear_reverse_pointing_to a l r) !! b =
  if decide (b = a ∧ reverse r !! a = Some l) then None else reverse r !! b.
Proof.
  unfold clear_reverse_pointing_to. case_bool_decide as Ha; simpl.
  - destruct (decide (b = a)) as [->|Hne].
    + rewrite lookup_delete_eq, decide_True by done. done.
    + rewrite lookup_delete_ne, decide_False by (try done; by intros [? _]). done.
  - rewrite decide_False by (by intros [-> ?]). done.
Qed.

Lemma clear_reverse_names a l r : names (clear_reverse_pointing_to a l r) = names r.
Proof. unfold clear_reverse_pointing_to. by case_bool_decide. Qed.

Lemma clear_reverse_commits a l r : commits (clear_reverse_pointing_to a l r) = commits r.
Proof. unfold clear_reverse_pointing_to. by case_bool_decide. Qed.

(** What a successful [owned_mut] has checked; it changes nothing. *)
Lemma owned_mut_cases height sender l g r res r' :
  owned_mut p height sender l g r = (res, r') →
  r' = r ∧ (∀ rec, res = Ok rec →
    names r !! l = Some rec ∧ nr_owner rec = sender ∧ status_of rec p height ≠ NameExpired ∧
    (g = false → status_of rec p height = NameActive)).
Proof.
  unfold owned_mut, mbind, st_bind, st_get, st_some, mret, st_ret, st_fail.
  destruct (names r !! l) as [rec|]; [|intros [= <- <-]; by split].
  destruct (status_of rec p height) eqn:Es; [|destruct g|];
    try (intros [= <- <-]; by split);
    case_bool_decide; intros [= <- <-]; (split; [done|]; intros ? [= <-]; try rewrite Es; by split_and!).
Qed.

(** Moving the target of [l], or dropping [l], keeps the reverse records right
    once the old target's record is cleared. *)
Lemma no_reverse_clear r l rec ms :
  names_ok r → names r !! l = Some rec →
  (∀ l', l' ≠ l → ms !! l' = names r !! l') →
  ∀ a l', reverse (clear_reverse_pointing_to (nr_target rec) l (set_names r ms)) !! a = Some l' →
    l' ≠ l ∧ ∃ rec', ms !! l' = Some rec' ∧ nr_target rec' = a.
Proof.
  intros Hok Hl Hms a l'. rewrite clear_reverse_lookup. simpl. case_decide as Hd; [done|].
  intros Ha. destruct (no_reverse r Hok a l' Ha) as (rec' & Hl' & Ht).
  assert (l' ≠ l) as Hne.
  { intros ->. rewrite Hl in Hl'. simplify_eq. by destruct Hd. }
  split; [done|]. exists rec'. by rewrite Hms.
Qed.

Lemma clear_reverse_weaken (P : AccountId → string → Prop) a l r :
  (∀ b l', reverse r !! b = Some l' → P b l') →
  ∀ b l', reverse (clear_reverse_pointing_to a l r) !! b = Some l' → P b l'.
Proof. intros HP b l'. rewrite clear_reverse_lookup. case_decide; [done|]. apply HP. Qed.

Lemma commit_keyed_ok height sender c k r :
  names_ok r → names_ok (commit_keyed p height sender c k r).2.
Proof.
  intros [Hr Hl]. unfold commit_keyed, mbind, st_bind, st_modify, st_get. simpl.
  case_decide; by constructor.
Qed.

(** What a registration has checked when it succeeds. *)
Lemma check_register_cases r height sender l s y k rent key :
  check_register_keyed r p height sender l s y k = Ok (rent, key) →
  check_registrable l = Ok () ∧ 1 ≤ y ≤ 10 ∧ rent = name_rent l y ∧
  is_available r l p height = true ∧
  ∃ c, find_commit r sender (name_commitment l sender s) k = Some (key, c) ∧
    commit_min_age p ≤ sat_sub height (cr_height c) ≤ commit_max_age p.
Proof.
  unfold check_register_keyed. destruct (check_registrable l) as [[]|]; [|done].
  unfold years_ok, NAME_MIN_YEARS, NAME_MAX_YEARS.
  destruct (negb _) eqn:Ey; [done|]. destruct (find_commit _ _ _ _) as [[key' c]|] eqn:Ef; [|done].
  destruct (_ <? commit_min_age p) eqn:E1; [done|]. destruct (commit_max_age p <? _) eqn:E2; [done|].
  destruct (negb (is_available r l p height)) eqn:E3; [done|]. intros [= <- <-]. bool_to_prop.
  split_and!; [done|lia|lia|done|done|]. exists c. split; [done|lia].
Qed.

Lemma register_keyed_ok height sender l s t y k r :
  names_ok r → names_ok (register_keyed p height sender l s t y k r).2.
Proof.
  intros Hok. unfold register_keyed, mbind, st_bind, st_get.
  destruct (check_register_keyed _ _ _ _ _ _ _ _) as [[rent key]|e] eqn:Ec; [|done].
  apply check_register_cases in Ec as (Ec & _). simpl.
  destruct (names r !! l) as [old|] eqn:El; constructor; simpl.
  - rewrite !clear_reverse_names. simpl. intros a l'.
    revert a l'. apply clear_reverse_weaken. intros a l' Ha.
    assert (names_ok (set_commits r (delete key (commits r)))) as Hok' by by destruct Hok.
    destruct (no_reverse_clear _ l old (delete l (names r)) Hok' El
      ltac:(intros; by rewrite lookup_delete_ne) a l' Ha) as (Hne & rec' & Hrec & Ht).
    exists rec'. by rewrite lookup_insert_ne by congruence.
  - rewrite !clear_reverse_names. simpl. intros l' rec'.
    destruct (decide (l' = l)) as [->|Hne]; [done|].
    rewrite lookup_insert_ne, lookup_delete_ne by congruence. apply (no_labels r Hok).
  - intros a l' Ha. destruct (no_reverse r Hok a l' Ha) as (rec' & Hrec & Ht).
    exists rec'. rewrite lookup_insert_ne by congruence. done.
  - intros l' rec'. destruct (decide (l' = l)) as [->|Hne]; [done|].
    rewrite lookup_insert_ne by congruence. apply (no_labels r Hok).
Qed.

Lemma write_record_ok r l rec rec' :
  names_ok r → names r !! l = Some rec → nr_target rec' = nr_target rec →
  names_ok (set_names r (<[l := rec']> (names r))).
Proof.
  intros Hok Hl Ht. constructor; simpl.
  - intros a l' Ha. destruct (no_reverse r Hok a l' Ha) as (r1 & Hl1 & Ha1).
    destruct (decide (l' = l)) as [->|Hne].
    + exists rec'. rewrite lookup_insert_eq. split; [done|congruence].
    + exists r1. by rewrite lookup_insert_ne.
  - intros l' r1. destruct (decide (l' = l)) as [->|Hne].
    + intros _. by apply (no_labels r Hok l rec).
    + rewrite lookup_insert_ne by done. apply (no_labels r Hok).
Qed.

Lemma clear_reverse_ok a l r : names_ok r → names_ok (clear_reverse_pointing_to a l r).
Proof.
  intros Hok. constructor; rewrite clear_reverse_names; [|apply (no_labels r Hok)].
  apply (clear_reverse_weaken (λ a l, ∃ rec, names r !! l = Some rec ∧ nr_target rec = a)).
  apply (no_reverse r Hok).
Qed.

Lemma set_target_ok height sender l t r :
  names_ok r → names_ok (set_target p height sender l t r).2.
Proof.
  intros Hok. unfold set_target, mbind, st_bind.
  destruct (owned_mut p height sender l false r) as [res r1] eqn:Eo.
  apply owned_mut_cases in Eo as [-> Hrec]. destruct res as [rec|]; [|done].
  destruct (Hrec rec eq_refl) as (Hl & _). simpl. case_bool_decide as Ht; simpl.
  - by apply (write_record_ok r l rec).
  - constructor; rewrite clear_reverse_names; simpl.
    + intros a l' Ha.
      destruct (no_reverse_clear r l rec _ Hok Hl (λ l' Hne, lookup_insert_ne _ _ _ _ (not_eq_sym Hne)) a l' Ha)
        as (Hne & rec' & Hrec' & ?). by exists rec'.
    + intros l' r1. destruct (decide (l' = l)) as [->|Hne].
      * intros _. by apply (no_labels r Hok l rec).
      * rewrite lookup_insert_ne by done. apply (no_labels r Hok).
Qed.

Lemma release_ok height sender l r : names_ok r → names_ok (release p height sender l r).2.
Proof.
  intros Hok. unfold release, mbind, st_bind.
  destruct (owned_mut p height sender l true r) as [res r1] eqn:Eo.
  apply owned_mut_cases in Eo as [-> Hrec]. destruct res as [rec|]; [|done].
  destruct (Hrec rec eq_refl) as (Hl & _). simpl. apply clear_reverse_ok.
  constructor; rewrite clear_reverse_names; simpl.
  - intros a l' Ha.
    destruct (no_reverse_clear r l rec (delete l (names r)) Hok Hl
      ltac:(intros; by rewrite lookup_delete_ne) a l' Ha) as (Hne & rec' & ? & ?). by exists rec'.
  - intros l' r1 [_ Hl']%lookup_delete_Some. by apply (no_labels r Hok l' r1).
Qed.

Lemma apply_name_op_ok height sender op r :
  names_ok r → names_ok (apply_name_op height sender op r).2.
Proof.
  intros Hok. destruct op as [c k|l s t y k|l y|l o|l t|l|l]; simpl; unfold mbind, st_bind.
  - pose proof (commit_keyed_ok height sender c k r Hok). by destruct (commit_keyed _ _ _ _ _ _) as [[]].
  - by apply register_keyed_ok.
  - unfold renew. destruct (years_ok y); simpl; [|done]. unfold mbind, st_bind.
    destruct (owned_mut p height sender l true r) as [res r1] eqn:Eo.
    apply owned_mut_cases in Eo as [-> Hrec]. destruct res as [rec|]; [|done].
    destruct (Hrec rec eq_refl) as (Hl & _). destruct (_ <? _); simpl; [done|].
    by apply (write_record_ok r l rec).
  - unfold transfer, mbind, st_bind. destruct (owned_mut p height sender l false r) as [res r1] eqn:Eo.
    apply owned_mut_cases in Eo as [-> Hrec]. destruct res as [rec|]; [|done].
    destruct (Hrec rec eq_refl) as (Hl & _). simpl. apply clear_reverse_ok.
    by apply (write_record_ok r l rec).
  - pose proof (set_target_ok height sender l t r Hok). by destruct (set_target _ _ _ _ _ _) as [[]].
  - unfold set_primary. destruct l as [l|]; simpl.
    + unfold mbind, st_bind, st_get. destruct (resolve r l p height) as [rec|] eqn:Er; [|done].
      case_bool_decide as Ht; [|done]. simpl. constructor; simpl; [|apply (no_labels r Hok)].
      intros a l'. destruct (decide (a = sender)) as [->|Hne].
      * rewrite lookup_insert_eq. intros [= <-]. unfold resolve in Er.
        destruct (names r !! l) as [rec'|]; [|done]. case_bool_decide; [|done]. simplify_eq. by exists rec.
      * rewrite lookup_insert_ne by done. apply (no_reverse r Hok).
    + constructor; simpl; [|apply (no_labels r Hok)].
      intros a l' [_ Ha]%lookup_delete_Some. by apply (no_reverse r Hok).
  - pose proof (release_ok height sender l r Hok). by destruct (release _ _ _ _ _) as [[]].
Qed.

Lemma run_names_ok ops r : names_ok r → names_ok (run_names r ops).
Proof.
  revert r. induction ops as [|e ops IH]; intros r Hr; [done|]. by apply IH, apply_name_op_ok.
Qed.

(** In every registry a history of calls leads to (by any senders at any
    heights, failed calls included), an address's primary name is a registered
    label that targets the address, so at most one address has it; and every
    registered label passed the label rules and is not reserved. *)
Theorem names_reverse_sound ops a l :
  let r := run_names empty_names ops in
  reverse r !! a = Some l →
  (∃ rec, names r !! l = Some rec ∧ nr_target rec = a ∧ check_registrable l = Ok ()) ∧
  (∀ b, reverse r !! b = Some l → b = a).
Proof.
  intros r Ha. assert (names_ok r) as Hok by (apply run_names_ok; by constructor).
  destruct (no_reverse r Hok a l Ha) as (rec & Hl & Ht). split.
  - exists rec. split_and!; [done..|]. by apply (no_labels r Hok l rec).
  - intros b Hb. destruct (no_reverse r Hok b l Hb) as (rec' & Hl' & Ht'). congruence.
Qed.

Lemma write_other r sender l l0 (rec : NameRecord) :
  names r !! l = Some rec → nr_owner rec ≠ sender →
  (∀ rec0, names r !! l0 = Some rec0 → nr_owner rec0 = sender → l0 ≠ l).
Proof. intros Hl Ho rec0 Hl0 Ho0 ->. congruence. Qed.

(** C30: a name that has not expired (active or in grace) is its owner's alone: a
    call by anyone else, whatever it is and whether or not it succeeds, leaves the
    record as it is. *)
Theorem name_protected_until_expiry height sender op r l rec :
  names r !! l = Some rec → status_of rec p height ≠ NameExpired → nr_owner rec ≠ sender →
  names (apply_name_op height sender op r).2 !! l = Some rec.
Proof.
  intros Hl Hs Ho.
  assert (∀ l0 g res r1 rec0, owned_mut p height sender l0 g r = (res, r1) → res = Ok rec0 →
    r1 = r ∧ l0 ≠ l) as Hown.
  { intros l0 g res r1 rec0 Ew ->. apply owned_mut_cases in Ew as [-> Hrec].
    destruct (Hrec rec0 eq_refl) as (Hl0 & Ho0 & _). split; [done|]. by eapply write_other. }
  destruct op as [c k|l0 s t y k|l0 y|l0 o|l0 t|[l0|]|l0]; simpl; unfold mbind, st_bind.
  - unfold commit_keyed, mbind, st_bind, st_modify, st_get. simpl. by case_decide.
  - unfold register_keyed, mbind, st_bind, st_get.
    destruct (check_register_keyed _ _ _ _ _ _ _ _) as [[rent key]|e] eqn:Ec; [|done]. simpl.
    assert (l0 ≠ l) as Hne.
    { intros ->. apply check_register_cases in Ec as (_ & _ & _ & Hav & _).
      unfold is_available in Hav. rewrite Hl in Hav. by apply bool_decide_eq_true in Hav. }
    destruct (names r !! l0) as [old|]; rewrite ?clear_reverse_names; simpl;
      by rewrite !lookup_insert_ne, ?lookup_delete_ne by done.
  - unfold renew. destruct (years_ok y); simpl; [|done]. unfold mbind, st_bind.
    destruct (owned_mut p height sender l0 true r) as [[rec0|e] r1] eqn:Eo.
    + destruct (Hown _ _ _ _ _ Eo eq_refl) as [-> Hne]. destruct (_ <? _); simpl; [done|].
      by rewrite lookup_insert_ne.
    + by apply owned_mut_cases in Eo as [-> _].
  - unfold transfer, mbind, st_bind. destruct (owned_mut p height sender l0 false r) as [[rec0|e] r1] eqn:Eo.
    + destruct (Hown _ _ _ _ _ Eo eq_refl) as [-> Hne]. simpl. rewrite clear_reverse_names. simpl.
      by rewrite lookup_insert_ne.
    + by apply owned_mut_cases in Eo as [-> _].
  - unfold set_target, mbind, st_bind. destruct (owned_mut p height sender l0 false r) as [[rec0|e] r1] eqn:Eo.
    + destruct (Hown _ _ _ _ _ Eo eq_refl) as [-> Hne]. simpl.
      case_bool_decide; simpl; rewrite ?clear_reverse_names; simpl; by rewrite lookup_insert_ne.
    + by apply owned_mut_cases in Eo as [-> _].
  - unfold set_primary, mbind, st_bind, st_get. destruct (resolve r l0 p height) as [rec0|]; [|done].
    by case_bool_decide.
  - done.
  - unfold release, mbind, st_bind. destruct (owned_mut p height sender l0 true r) as [[rec0|e] r1] eqn:Eo.
    + destruct (Hown _ _ _ _ _ Eo eq_refl) as [-> Hne]. simpl. rewrite !clear_reverse_names. simpl.
      by rewrite lookup_delete_ne.
    + by apply owned_mut_cases in Eo as [-> _].
Qed.

Lemma find_commit_spec r sender c k key rec :
  find_commit r sender c k = Some (key, rec) →
  commits r !! key = Some rec ∧
  ((k = true ∧ key = sender_commit_key sender c) ∨ (key = c ∧ cr_sender rec = sender)).
Proof.
  unfold find_commit. destruct k.
  - destruct (commits r !! sender_commit_key sender c) eqn:E1; [intros [= <- <-]; auto|].
    destruct (commits r !! c) eqn:E2; [|done]. case_bool_decide; [|done]. intros [= <- <-]. auto.
  - destruct (commits r !! c) eqn:E2; [|done]. case_bool_decide; [|done]. intros [= <- <-]. auto.
Qed.

(** Commit-reveal. A registration that succeeds reveals a commitment its
    sender made (under the sender's key, or as the sender's own legacy entry)
    between [commit_min_age] and [commit_max_age] blocks before, for an available
    and registrable label and 1 to 10 years; it consumes the commitment, so it
    cannot be revealed twice, and the name is the sender's until [years] years
    later. *)
Theorem register_reveals_commitment height sender l s t y k r rent r' :
  register_keyed p height sender l s t y k r = (Ok rent, r') →
  check_registrable l = Ok () ∧ 1 ≤ y ≤ 10 ∧ rent = name_rent l y ∧
  is_available r l p height = true ∧
  names r' !! l = Some (mkNameRecord sender t height
    (sat_add u64_max height (sat_mul u64_max (blocks_per_year p) y))) ∧
  ∃ key c, commits r !! key = Some c ∧ commits r' !! key = None ∧
    commit_min_age p ≤ sat_sub height (cr_height c) ≤ commit_max_age p ∧
    ((k = true ∧ key = sender_commit_key sender (name_commitment l sender s)) ∨
     (key = name_commitment l sender s ∧ cr_sender c = sender)).
Proof.
  unfold register_keyed, mbind, st_bind, st_get.
  destruct (check_register_keyed r p height sender l s y k) as [[rent' key]|e] eqn:Ec; [|done].
  intros [= <- <-]. apply check_register_cases in Ec as (? & ? & ? & ? & c & Hf & ?).
  apply find_commit_spec in Hf as [Hc Hk]. split_and!; [done|lia|lia|done|done| |].
  - destruct (names r !! l) as [old|]; simpl; rewrite ?clear_reverse_names; simpl;
      by rewrite lookup_insert_eq.
  - exists key, c. split_and!; [done| |lia|lia|done].
    assert (commits (match names r !! l with
      | Some old => clear_reverse_pointing_to (nr_owner old) l (clear_reverse_pointing_to (nr_target old) l
          (set_names (set_commits r (delete key (commits r))) (delete l (names r))))
      | None => set_commits r (delete key (commits r)) end) = delete key (commits r)) as Hd.
    { destruct (names r !! l); by rewrite ?clear_reverse_commits. }
    simpl. rewrite Hd. apply map_lookup_filter_None. left. by rewrite lookup_delete_eq.
Qed.

End Laws.
End NameLaws.

Module SampleNames.
Import NameReg NameLaws.

#[local] Instance sample : Host := sample_host.

Definition params : NameRegistryParams := mkNameParams 0 100 10 1 50.
Definition alice : AccountId := replicate 32 1.
Definition bob : AccountId := replicate 32 2.
Definition the_salt : bytes := replicate 32 7.

Definition committed_alice : NameRegistry :=
  run_names params empty_names
    [((5, alice), NoCommit (name_commitment "alice" alice the_salt) true)].

Definition history : list (Z * AccountId * NameOp) :=
  [((5, alice), NoCommit (name_commitment "alice" alice the_salt) true);
   ((8, bob), NoRegister "alice" the_salt bob 1 true);
   ((8, alice), NoRegister "alice" the_salt alice 1 true);
   ((9, alice), NoSetPrimary (Some "alice"%string))].

Lemma names_reverse_sound_witness :
  reverse (run_names params empty_names history) !! alice = Some "alice"%string ∧
  ∃ rec, names (run_names params empty_names history) !! "alice"%string = Some rec ∧
    nr_target rec = alice.
Proof.
  assert (reverse (run_names params empty_names history) !! alice = Some "alice"%string) as Hr
    by (vm_compute; reflexivity).
  split; [exact Hr|].
  destruct (names_reverse_sound params history alice "alice" Hr) as [(rec & H1 & H2 & _) _].
  exists rec. split; [exact H1|exact H2].
Defined.

Lemma name_protected_until_expiry_witness :
  names (apply_name_op params 109 bob (NoRegister "alice" the_salt bob 1 true)
           (run_names params empty_names history)).2 !! "alice"%string
  = Some (mkNameRecord alice alice 8 108).
Proof.
  apply (name_protected_until_expiry params 109 bob _ (run_names params empty_names history) "alice");
    [vm_compute; reflexivity|vm_compute; discriminate|vm_compute; discriminate].
Defined.

Lemma register_reveals_commitment_witness :
  ∃ rent r', register_keyed params 8 alice "alice" the_salt alice 1 true committed_alice = (Ok rent, r') ∧
    names r' !! "alice"%string = Some (mkNameRecord alice alice 8 108).
Proof.
  eexists 2, _. split; [vm_compute; reflexivity|].
  eapply (register_reveals_commitment params 8 alice "alice" the_salt alice 1 true committed_alice 2).
  vm_compute; reflexivity.
Defined.

End SampleNames.
