(* ===== verification/Governance.v ===== *)
(** * Phased governance and the committed QA policy

    Models [crates/boing-governance/src/lib.rs] (the engine: propose, vote,
    cool, execute), [crates/boing-governance/src/consensus_tx.rs] (activation
    and structural checks), [crates/boing-state/src/governance_registry.rs] and
    [crates/boing-state/src/qa_policy.rs] (the registries that commit the engine
    and the executed policy).

    A [SystemTime] is its number of seconds since the epoch: consensus only
    builds times from block timestamps, and the serialised form keeps seconds.
    A sum of a time and a duration beyond the platform's range panics in the
    code; times here are unbounded. *)

From S2P Require Import Prelude Types.
From Stdlib Require Ascii String.

(** ** Data *)

Definition hex_digit (n : Z) : Ascii.ascii :=
  Ascii.ascii_of_N (Z.to_N (if n <? 10 then 48 + n else 87 + n)).

Fixpoint hex_encode (l : bytes) : string :=
  match l with
  | [] => String.EmptyString
  | b :: r => String.String (hex_digit (b ≫ 4)) (String.String (hex_digit (Z.land b 15)) (hex_encode r))
  end.

Definition voter_key_hex (voter : AccountId) : string := hex_encode voter.

Inductive ProposalPhase := PhProposal | PhCooling | PhExecution.

#[export] Instance ProposalPhase_eq_dec : EqDecision ProposalPhase.
Proof. solve_decision. Defined.

Record ProposalVote := mkProposalVote { pv_approve : bool; pv_weight : Z }.

Record Proposal := mkProposal {
  p_id : Z;
  target_key : string;
  target_value : bytes;
  phase : ProposalPhase;
  proposed_at : Z;
  cooling_ends_at : option Z;
  execution_ends_at : option Z;
  p_votes : gmap string ProposalVote
}.

Definition DEFAULT_COOLING : Z := 86400.
Definition DEFAULT_EXECUTION_WINDOW : Z := 7 * 86400.
Definition DEFAULT_QUORUM_APPROVE_BPS : Z := 6667.
Definition ALLOWED_TARGET_KEYS : list string :=
  ["qa_registry"; "qa_pool_config"; "network_fee_config"]%string.

Record Governance := mkGovernance {
  proposals : gmap Z Proposal;
  next_id : Z;
  cooling_period : Z;
  execution_window : Z;
  strict_quorum : bool;
  quorum_approve_bps : Z
}.

Inductive GovernanceError :=
| GeNotFound | GeInvalidPhase | GeCoolingNotEnded | GeExecutionWindowExpired
| GeUnknownTargetKey (key : string) | GeEmptyTargetValue | GeZeroVoteWeight | GeQuorumNotMet.

Definition set_proposals (g : Governance) (m : gmap Z Proposal) : Governance :=
  mkGovernance m (next_id g) (cooling_period g) (execution_window g) (strict_quorum g)
    (quorum_approve_bps g).

Definition set_phase (p : Proposal) (ph : ProposalPhase) (cooling execution : option Z) : Proposal :=
  mkProposal (p_id p) (target_key p) (target_value p) ph (proposed_at p) cooling execution (p_votes p).

Definition set_p_votes (p : Proposal) (m : gmap string ProposalVote) : Proposal :=
  mkProposal (p_id p) (target_key p) (target_value p) (phase p) (proposed_at p) (cooling_ends_at p)
    (execution_ends_at p) m.

(** ** The engine *)

Module Gov.

Definition new (cooling window : Z) : Governance :=
  mkGovernance ∅ 1 cooling window true DEFAULT_QUORUM_APPROVE_BPS.

(** [Governance::default()]. *)
Definition default_gov : Governance := new DEFAULT_COOLING DEFAULT_EXECUTION_WINDOW.

Definition is_allowed_key (key : string) : bool := bool_decide (key ∈ ALLOWED_TARGET_KEYS).

Definition is_empty (g : Governance) : bool :=
  bool_decide (proposals g = ∅) && (next_id g <=? 1).

Definition set_strict_quorum (on : bool) (g : Governance) : Governance :=
  mkGovernance (proposals g) (next_id g) (cooling_period g) (execution_window g) on
    (quorum_approve_bps g).

Notation M := (ST Governance GovernanceError).

Definition propose_at (key : string) (value : bytes) (now : Z) : M Z :=
  if negb (is_allowed_key key) then st_fail (GeUnknownTargetKey key)
  else if bool_decide (value = []) then st_fail GeEmptyTargetValue
  else
    g ← st_get;
    let id := next_id g in
    _ ← st_put (mkGovernance
          (<[id := mkProposal id key value PhProposal now None None ∅]> (proposals g))
          (wrap_add u64_max id 1) (cooling_period g) (execution_window g) (strict_quorum g)
          (quorum_approve_bps g));
    mret id.

Definition cast_vote (id : Z) (voter : AccountId) (approve : bool) (weight : Z) : M () :=
  if weight =? 0 then st_fail GeZeroVoteWeight
  else
    g ← st_get;
    p ← st_some (proposals g !! id) GeNotFound;
    if negb (bool_decide (phase p = PhProposal)) then st_fail GeInvalidPhase
    else st_put (set_proposals g (<[id :=
           set_p_votes p (<[voter_key_hex voter := mkProposalVote approve weight]> (p_votes p))]>
           (proposals g))).

(** The loop of [tally] over the ballots. *)
Definition count_ballot : Z * Z → ProposalVote → Z * Z := tally_step pv_approve pv_weight.

Definition tally (g : Governance) (id : Z) : result (Z * Z * Z) GovernanceError :=
  match proposals g !! id with
  | None => Err GeNotFound
  | Some p =>
      let '(yes, no) := foldl count_ballot (0, 0) (map_to_list (p_votes p)).*2 in
      Ok (yes, no, sat_add u128_max yes no)
  end.

Definition quorum_met (g : Governance) (id : Z) : result bool GovernanceError :=
  match tally g id with
  | Err e => Err e
  | Ok (yes, _, cast) =>
      if cast =? 0 then Ok false
      else Ok (sat_mul u128_max cast (Z.min (quorum_approve_bps g) 10000)
               <=? sat_mul u128_max yes 10000)
  end.

Definition advance_to_cooling (id : Z) (now : Z) : M () :=
  g ← st_get;
  _ ← (if strict_quorum g then
         match quorum_met g id with
         | Err e => st_fail e
         | Ok false => st_fail GeQuorumNotMet
         | Ok true => mret ()
         end
       else mret ());
  p ← st_some (proposals g !! id) GeNotFound;
  if negb (bool_decide (phase p = PhProposal)) then st_fail GeInvalidPhase
  else st_put (set_proposals g (<[id :=
         set_phase p PhCooling (Some (now + cooling_period g)) (execution_ends_at p)]> (proposals g))).

Definition advance_to_execution (id : Z) (now : Z) : M () :=
  g ← st_get;
  p ← st_some (proposals g !! id) GeNotFound;
  if negb (bool_decide (phase p = PhCooling)) then st_fail GeInvalidPhase
  else
    cooling_ends ← st_some (cooling_ends_at p) GeInvalidPhase;
    if now <? cooling_ends then st_fail GeCoolingNotEnded
    else st_put (set_proposals g (<[id :=
           set_phase p PhExecution (cooling_ends_at p) (Some (now + execution_window g))]>
           (proposals g))).

Definition execute (id : Z) (now : Z) : M (string * bytes) :=
  g ← st_get;
  p ← st_some (proposals g !! id) GeNotFound;
  if negb (bool_decide (phase p = PhExecution)) then st_fail GeInvalidPhase
  else if negb (is_allowed_key (target_key p)) then st_fail (GeUnknownTargetKey (target_key p))
  else
    window ← st_some (execution_ends_at p) GeInvalidPhase;
    if window <? now then st_fail GeExecutionWindowExpired
    else
      _ ← st_put (set_proposals g (delete id (proposals g)));
      mret (target_key p, target_value p).

Definition id_le (a b : Proposal) : Prop := p_id a ≤ p_id b.

#[export] Instance id_le_dec a b : Decision (id_le a b) := Z_le_dec (p_id a) (p_id b).

(** [list]: the open proposals by increasing id. *)
Definition list_proposals (g : Governance) : list Proposal :=
  merge_sort id_le (map_to_list (proposals g)).*2.

End Gov.

(** ** Consensus transactions and the committed policy *)

Definition consensus_txs_active (activation : option Z) (height : Z) : bool :=
  match activation with Some h => h <=? height | None => false end.

Definition validate_planned_propose (key : string) (value : bytes) : result () GovernanceError :=
  if negb (bool_decide (key ∈ ALLOWED_TARGET_KEYS)) then Err (GeUnknownTargetKey key)
  else if bool_decide (value = []) then Err GeEmptyTargetValue
  else Ok ().

Record CommittedQaPolicy := mkQaPolicy {
  registry_json : option bytes;
  pool_config_json : option bytes
}.

Definition empty_qa_policy : CommittedQaPolicy := mkQaPolicy None None.

Definition qa_policy_is_empty (p : CommittedQaPolicy) : bool :=
  bool_decide (registry_json p = None) && bool_decide (pool_config_json p = None).

(** ** Lemmas *)

Module GovLaws.
Import Gov.

Lemma hex_digit_inj a b : 0 ≤ a < 16 → 0 ≤ b < 16 → hex_digit a = hex_digit b → a = b.
Proof.
  intros Ha Hb He. apply (f_equal Ascii.N_of_ascii) in He. unfold hex_digit in He.
  rewrite !Ascii.N_ascii_embedding in He; [|repeat case_match; lia..].
  repeat case_match; lia.
Qed.

(** Distinct accounts have distinct ballots. *)
Lemma hex_encode_inj l l' : Forall is_byte l → Forall is_byte l' → hex_encode l = hex_encode l' → l = l'.
Proof.
  intros Hl. revert l'. induction Hl as [|b l Hb _ IH]; intros [|b' l'] Hl'; simpl; try done.
  inversion_clear Hl' as [|? ? Hb' Hl'']. intros [= Hhi Hlo Hr]. unfold is_byte in *.
  change 15 with (Z.ones 4) in Hlo. rewrite !Z.land_ones, !Z.shiftr_div_pow2 in * by lia.
  change (2 ^ 4) with 16 in *.
  apply hex_digit_inj in Hhi; [|pose proof (Z.div_lt_upper_bound b 16 16); pose proof (Z.div_pos b 16); lia
                               |pose proof (Z.div_lt_upper_bound b' 16 16); pose proof (Z.div_pos b' 16); lia].
  apply hex_digit_inj in Hlo; [|apply Z.mod_pos_bound; lia..].
  f_equal; [|by apply IH].
  rewrite (Z.div_mod b 16), (Z.div_mod b' 16) by lia. congruence.
Qed.

Notation yes_weight := (for_weight pv_approve pv_weight).
Notation no_weight := (against_weight pv_approve pv_weight).

Definition ballots_ok (m : gmap string ProposalVote) : Prop := map_Forall (λ _ v, 0 ≤ pv_weight v) m.

(** The saturating loop computes the capped sums. *)
Lemma tally_exact g id p :
  proposals g !! id = Some p → ballots_ok (p_votes p) →
  tally g id = Ok (Z.min u128_max (map_sum yes_weight (p_votes p)),
                   Z.min u128_max (map_sum no_weight (p_votes p)),
                   Z.min u128_max (map_sum pv_weight (p_votes p))).
Proof.
  intros Hp Hb. unfold tally. rewrite Hp. change count_ballot with (tally_step pv_approve pv_weight).
  rewrite tally_map by done. do 2 f_equal. destruct (sides_nonneg pv_approve pv_weight _ Hb).
  rewrite (sides_sum pv_approve pv_weight). unfold sat_add, u128_max. lia.
Qed.

(** *** Histories *)

Inductive GovOp :=
| GoPropose (key : string) (value : bytes)
| GoVote (id : Z) (voter : AccountId) (approve : bool) (weight : Z)
| GoCooling (id : Z)
| GoExecution (id : Z)
| GoExecute (id : Z)
| GoStrict (on : bool).

Definition apply_gov_op (g : Governance) (e : Z * GovOp) : Governance :=
  let '(now, op) := e in
  match op with
  | GoPropose key value => (propose_at key value now g).2
  | GoVote id voter approve weight => (cast_vote id voter approve weight g).2
  | GoCooling id => (advance_to_cooling id now g).2
  | GoExecution id => (advance_to_execution id now g).2
  | GoExecute id => (execute id now g).2
  | GoStrict on => set_strict_quorum on g
  end.

Definition run_gov (g : Governance) (h : list (Z * GovOp)) : Governance := foldl apply_gov_op g h.

Definition weight_ok (op : GovOp) : Prop :=
  match op with GoVote _ _ _ w => 0 ≤ w | _ => True end.

(** Each operation does nothing or one write. *)
Lemma propose_cases key value now g :
  (∃ e, propose_at key value now g = (Err e, g)) ∨
  propose_at key value now g = (Ok (next_id g), mkGovernance
    (<[next_id g := mkProposal (next_id g) key value PhProposal now None None ∅]> (proposals g))
    (wrap_add u64_max (next_id g) 1) (cooling_period g) (execution_window g) (strict_quorum g)
    (quorum_approve_bps g)).
Proof.
  unfold propose_at. st_unfold. destruct (negb _); [eauto|]. case_bool_decide; eauto.
Qed.

Lemma cast_vote_cases id v a w g :
  (∃ e, cast_vote id v a w g = (Err e, g)) ∨
  ∃ p, proposals g !! id = Some p ∧ phase p = PhProposal ∧
    cast_vote id v a w g = (Ok (), set_proposals g (<[id :=
      set_p_votes p (<[voter_key_hex v := mkProposalVote a w]> (p_votes p))]> (proposals g))).
Proof.
  unfold cast_vote. st_unfold. destruct (w =? 0); [eauto|].
  destruct (proposals g !! id) as [p|]; [|eauto]. case_bool_decide; simpl; eauto 6.
Qed.

Lemma cooling_cases id now g :
  (∃ e, advance_to_cooling id now g = (Err e, g)) ∨
  ∃ p, proposals g !! id = Some p ∧ phase p = PhProposal ∧
    (strict_quorum g = true → quorum_met g id = Ok true) ∧
    advance_to_cooling id now g = (Ok (), set_proposals g (<[id :=
      set_phase p PhCooling (Some (now + cooling_period g)) (execution_ends_at p)]> (proposals g))).
Proof.
  unfold advance_to_cooling. st_unfold.
  destruct (strict_quorum g); [destruct (quorum_met g id) as [[]|]; try by eauto|].
  all: destruct (proposals g !! id) as [p|]; [|eauto]; case_bool_decide; simpl; [|by eauto].
  all: right; exists p; split_and!; eauto; discriminate.
Qed.

Lemma execution_cases id now g :
  (∃ e, advance_to_execution id now g = (Err e, g)) ∨
  ∃ p c, proposals g !! id = Some p ∧ phase p = PhCooling ∧ cooling_ends_at p = Some c ∧ c ≤ now ∧
    advance_to_execution id now g = (Ok (), set_proposals g (<[id :=
      set_phase p PhExecution (cooling_ends_at p) (Some (now + execution_window g))]> (proposals g))).
Proof.
  unfold advance_to_execution. st_unfold. destruct (proposals g !! id) as [p|]; [|eauto].
  case_bool_decide; simpl; [|eauto]. destruct (cooling_ends_at p) as [c|] eqn:Hc; [|eauto].
  destruct (now <? c) eqn:Hn; [eauto|]. right. exists p, c. rewrite Hc. split_and!; eauto. lia.
Qed.

Lemma execute_cases id now g :
  (∃ e, execute id now g = (Err e, g)) ∨
  ∃ p w, proposals g !! id = Some p ∧ phase p = PhExecution ∧ execution_ends_at p = Some w ∧ now ≤ w ∧
    is_allowed_key (target_key p) = true ∧
    execute id now g = (Ok (target_key p, target_value p), set_proposals g (delete id (proposals g))).
Proof.
  unfold execute. st_unfold. destruct (proposals g !! id) as [p|]; [|eauto].
  case_bool_decide; simpl; [|eauto]. destruct (is_allowed_key _) eqn:Ha; simpl; [|eauto].
  destruct (execution_ends_at p) as [w|] eqn:Hw; [|eauto].
  destruct (w <? now) eqn:Hn; [eauto|]. right. exists p, w. split_and!; eauto. lia.
Qed.

(** *** The history of a proposal *)

Section History.
Variables cooling window : Z.

Notation event := (Z * GovOp)%type.

Definition state_at (h : list event) : Governance := run_gov (new cooling window) h.

(** [hp] is the history before the call that proposed [p]. *)
Definition was_proposed (h hp : list event) (p : Proposal) : Prop :=
  hp ++ [(proposed_at p, GoPropose (target_key p) (target_value p))] `prefix_of` h ∧
  next_id (state_at hp) = p_id p.

(** [hc] is the history before the call that moved [p] to cooling, at [t]. *)
Definition was_cooled (h hp hc : list event) (t : Z) (p : Proposal) : Prop :=
  (length hp < length hc)%nat ∧ hc ++ [(t, GoCooling (p_id p))] `prefix_of` h ∧
  (strict_quorum (state_at hc) = true → quorum_met (state_at hc) (p_id p) = Ok true).

(** [he] is the history before the call that released [p], at [t]. *)
Definition was_released (h hc he : list event) (t : Z) (p : Proposal) : Prop :=
  (length hc < length he)%nat ∧ he ++ [(t, GoExecution (p_id p))] `prefix_of` h.

Definition story (h : list event) (p : Proposal) : Prop :=
  ∃ hp, was_proposed h hp p ∧
    match phase p with
    | PhProposal => True
    | PhCooling => ∃ hc t1, was_cooled h hp hc t1 p ∧ cooling_ends_at p = Some (t1 + cooling)
    | PhExecution => ∃ hc t1 he t2, was_cooled h hp hc t1 p ∧ was_released h hc he t2 p ∧
        t1 + cooling ≤ t2 ∧ execution_ends_at p = Some (t2 + window)
    end.

Record gov_ok (h : list event) (g : Governance) : Prop := {
  go_next : 1 ≤ next_id g ≤ 1 + Z.of_nat (length h);
  go_cooling : cooling_period g = cooling;
  go_window : execution_window g = window;
  go_story : map_Forall (λ id p, p_id p = id ∧ id < next_id g ∧ story h p) (proposals g)
}.

Lemma story_grows h e p : story h p → story (h ++ [e]) p.
Proof.
  assert (∀ l, l `prefix_of` h → l `prefix_of` h ++ [e]) as Hpre by (intros; by apply prefix_app_r).
  intros (hp & [??] & Hph). exists hp. split; [by split; [apply Hpre|]|].
  destruct (phase p); [done| |].
  - destruct Hph as (hc & t1 & (? & ? & ?) & ?). exists hc, t1. repeat split; auto.
  - destruct Hph as (hc & t1 & he & t2 & (? & ? & ?) & (? & ?) & ? & ?).
    exists hc, t1, he, t2. repeat split; auto.
Qed.

(** The same proposal with other ballots. *)
Lemma story_votes h p m : story h p → story h (set_p_votes p m).
Proof. done. Qed.

Lemma prefix_snoc_lt {A} (l h : list A) a : l ++ [a] `prefix_of` h → (length l < length h)%nat.
Proof. intros Hl%prefix_length. rewrite length_app in Hl. simpl in Hl. lia. Qed.

Lemma gov_keep h e g : gov_ok h g → gov_ok (h ++ [e]) g.
Proof.
  intros [Hn Hc Hw Hst]. split; [rewrite length_app; simpl; lia|done..|].
  intros id p Hp. destruct (Hst id p Hp) as (? & ? & ?). auto using story_grows.
Qed.

Lemma gov_write h e g id p p' :
  gov_ok h g → proposals g !! id = Some p → p_id p' = p_id p → story (h ++ [e]) p' →
  gov_ok (h ++ [e]) (set_proposals g (<[id := p']> (proposals g))).
Proof.
  intros Hg Hp Hid Hst. destruct (gov_keep h e g Hg) as [Hn Hc Hw Hall].
  destruct (Hall id p Hp) as (? & ? & ?). split; [done..|].
  apply map_Forall_insert_2; [|done]. simpl. split_and!; congruence.
Qed.

Lemma gov_step h e :
  Z.of_nat (length h) < u64_max - 1 → gov_ok h (state_at h) → gov_ok (h ++ [e]) (state_at (h ++ [e])).
Proof.
  intros Hlen Hg. unfold state_at, run_gov. rewrite foldl_app. simpl.
  change (foldl apply_gov_op (new cooling window) h) with (state_at h). set (g := state_at h) in *.
  destruct e as [now op]. destruct op as [k v|id v a w|id|id|id|on]; simpl.
  - destruct (propose_cases k v now g) as [[er ->]| ->]; [by apply gov_keep|]. simpl.
    destruct (gov_keep h (now, GoPropose k v) g Hg) as [Hn Hc Hw Hall].
    pose proof (go_next _ _ Hg) as Hn0.
    assert (wrap_add u64_max (next_id g) 1 = next_id g + 1) as Hwrap
      by (unfold wrap_add, u64_max in *; apply Z.mod_small; lia).
    split; simpl; rewrite ?Hwrap, ?length_app; simpl; [lia|done..|].
    apply map_Forall_insert_2.
    + simpl. split_and!; [done|lia|]. exists h. split; [by split|done].
    + intros id p Hp. destruct (Hall id p Hp) as (? & ? & ?). split_and!; [done|lia|done].
  - destruct (cast_vote_cases id v a w g) as [[er ->]|(p & Hp & Hph & ->)]; [by apply gov_keep|]. simpl.
    apply (gov_write _ _ _ _ p); [done..|]. apply story_votes, story_grows. by eapply go_story.
  - destruct (cooling_cases id now g) as [[er ->]|(p & Hp & Hph & Hq & ->)]; [by apply gov_keep|]. simpl.
    destruct (go_story _ _ Hg id p Hp) as (Hid & _ & hp & [Hpre Hnext] & _).
    apply (gov_write _ _ _ _ p); [done..|]. exists hp. split; [by split; [apply prefix_app_r|]|]. simpl.
    exists h, now. rewrite (go_cooling _ _ Hg). split; [|done]. split_and!; [by eapply prefix_snoc_lt| |].
    + simpl. by rewrite Hid.
    + simpl. rewrite Hid. exact Hq.
  - destruct (execution_cases id now g) as [[er ->]|(p & c & Hp & Hph & Hcool & Hle & ->)];
      [by apply gov_keep|]. simpl.
    destruct (go_story _ _ Hg id p Hp) as (Hid & _ & hp & [Hpre Hnext] & Hst).
    rewrite Hph in Hst. destruct Hst as (hc & t1 & (Hl & Hpc & Hq) & Hc1).
    apply (gov_write _ _ _ _ p); [done..|]. exists hp. split; [by split; [apply prefix_app_r|]|]. simpl.
    exists hc, t1, h, now. rewrite (go_window _ _ Hg). split_and!; [| |congruence|done].
    + split_and!; [done|by apply prefix_app_r|done].
    + split; [by eapply prefix_snoc_lt|]. simpl. by rewrite Hid.
  - destruct (execute_cases id now g) as [[er ->]|(p & c & _ & _ & _ & _ & _ & ->)];
      [by apply gov_keep|]. simpl.
    destruct (gov_keep h (now, GoExecute id) g Hg) as [Hn Hc Hw Hall]. split; [done..|].
    by apply map_Forall_delete.
  - by destruct (gov_keep h (now, GoStrict on) g Hg).
Qed.

Lemma gov_reachable h : Z.of_nat (length h) < u64_max → gov_ok h (state_at h).
Proof.
  induction h as [|e h IH] using rev_ind; intros Hlen.
  - by split.
  - rewrite length_app in Hlen. simpl in Hlen. apply gov_step; [lia|]. apply IH. lia.
Qed.

(** An executed proposal never comes back: its id is below the allocator. *)
Lemma gone_step g e id :
  0 ≤ id → next_id g < u64_max → id < next_id g → proposals g !! id = None →
  let g' := apply_gov_op g e in
  next_id g ≤ next_id g' ≤ next_id g + 1 ∧ id < next_id g' ∧ proposals g' !! id = None.
Proof.
  intros H0 Hn Hid Hnone. destruct e as [now op]. destruct op as [k v|i v a w|i|i|i|on]; simpl.
  - destruct (propose_cases k v now g) as [[er ->]| ->]; simpl; [split_and!; [lia..|done]|].
    assert (wrap_add u64_max (next_id g) 1 = next_id g + 1) as ->
      by (unfold wrap_add, u64_max in *; apply Z.mod_small; lia).
    split_and!; [lia..|]. rewrite lookup_insert_ne by lia. done.
  - destruct (cast_vote_cases i v a w g) as [[er ->]|(p & Hp & _ & ->)]; simpl; split_and!; try lia; try done.
    rewrite lookup_insert_ne; [done|congruence].
  - destruct (cooling_cases i now g) as [[er ->]|(p & Hp & _ & _ & ->)]; simpl; split_and!; try lia; try done.
    rewrite lookup_insert_ne; [done|congruence].
  - destruct (execution_cases i now g) as [[er ->]|(p & c & Hp & _ & _ & _ & ->)]; simpl;
      split_and!; try lia; try done.
    rewrite lookup_insert_ne; [done|congruence].
  - destruct (execute_cases i now g) as [[er ->]|(p & c & Hp & _ & _ & _ & _ & ->)]; simpl;
      split_and!; try lia; try done.
    by rewrite lookup_delete_None; right.
  - split_and!; [lia..|done].
Qed.

(** The quorum stays strict until a call switches it off. *)
Lemma strict_kept h : (∀ t, (t, GoStrict false) ∉ h) → strict_quorum (state_at h) = true.
Proof.
  induction h as [|e h IH] using rev_ind; intros Hno; [done|].
  assert (strict_quorum (state_at h) = true) as Hs.
  { apply IH. intros t Ht. apply (Hno t), elem_of_app. by left. }
  unfold state_at, run_gov. rewrite foldl_app. simpl.
  change (foldl apply_gov_op (new cooling window) h) with (state_at h). set (g := state_at h) in *.
  destruct e as [now op]. destruct op as [k v|id v a w|id|id|id|on]; simpl.
  - by destruct (propose_cases k v now g) as [[er ->]| ->].
  - by destruct (cast_vote_cases id v a w g) as [[er ->]|(p & _ & _ & ->)].
  - by destruct (cooling_cases id now g) as [[er ->]|(p & _ & _ & _ & ->)].
  - by destruct (execution_cases id now g) as [[er ->]|(p & c & _ & _ & _ & _ & ->)].
  - by destruct (execute_cases id now g) as [[er ->]|(p & c & _ & _ & _ & _ & _ & ->)].
  - destruct on; [done|]. destruct (Hno now). apply elem_of_app. right. by left.
Qed.

Lemma gone_stays h g id :
  0 ≤ id → next_id g + Z.of_nat (length h) < u64_max → id < next_id g → proposals g !! id = None →
  proposals (run_gov g h) !! id = None.
Proof.
  intros H0. revert g. induction h as [|e h IH]; intros g Hlen Hid Hnone; [done|]. simpl in Hlen.
  destruct (gone_step g e id) as (? & ? & ?); [done|lia|done..|]. apply IH; [lia|done..].
Qed.

(** C32: a governed value takes effect only the long way and only once. When
    [execute] returns a key and value after any history of engine calls at any
    times, the switch of the strict quorum among them, the key is allowed; an
    earlier call proposed exactly that key and value under that id; a later call
    moved it to cooling, and if the quorum was strict then (as it is unless a call
    before switched it off) the approving weight met the quorum; a still later
    call released it no sooner than the cooling period after; the execution window
    is still open; and no later history can execute the id again. *)
Theorem executed_after_quorum_and_delay h id now key value g' :
  Z.of_nat (length h) < u64_max - 1 →
  execute id now (state_at h) = (Ok (key, value), g') →
  is_allowed_key key = true ∧
  (∃ hp t0 hc t1 he t2,
    hp ++ [(t0, GoPropose key value)] `prefix_of` h ∧ next_id (state_at hp) = id ∧
    hc ++ [(t1, GoCooling id)] `prefix_of` h ∧
    (strict_quorum (state_at hc) = true → quorum_met (state_at hc) id = Ok true) ∧
    ((∀ t, (t, GoStrict false) ∉ h) → quorum_met (state_at hc) id = Ok true) ∧
    he ++ [(t2, GoExecution id)] `prefix_of` h ∧ (length hp < length hc < length he)%nat ∧
    t1 + cooling ≤ t2 ∧ now ≤ t2 + window) ∧
  (∀ h' now', Z.of_nat (length h + length h') < u64_max - 2 →
    (execute id now' (run_gov g' h')).1 = Err GeNotFound).
Proof.
  intros Hlen He. pose proof (gov_reachable h ltac:(lia)) as Hg.
  destruct (execute_cases id now (state_at h)) as [[er Hx]|(p & w & Hp & Hph & Hw & Hle & Hk & Hx)];
    rewrite Hx in He; [done|]. injection He as <- <- <-.
  destruct (go_story _ _ Hg id p Hp) as (Hid & Hlt & hp & [Hpre Hnext] & Hst). rewrite Hph in Hst.
  destruct Hst as (hc & t1 & he & t2 & (Hl1 & Hc & Hq) & (Hl2 & Hr) & Ht & Hw2).
  rewrite Hid in *. split_and!; [done| |].
  - exists hp, (proposed_at p), hc, t1, he, t2. split_and!; try done; [|congruence].
    intros Hno. apply Hq, strict_kept. intros t Hin. apply (Hno t). destruct Hc as [rest ->].
    rewrite <- app_assoc. apply elem_of_app. by left.
  - intros h' now' Hlen'. pose proof (go_next _ _ Hg) as Hn.
    assert (0 ≤ id) as H0.
    { rewrite <- Hnext. pose proof (prefix_length _ _ Hpre) as Hpl. rewrite length_app in Hpl. simpl in Hpl.
      pose proof (go_next _ _ (gov_reachable hp ltac:(lia))). lia. }
    unfold execute. st_unfold. rewrite gone_stays; [done|done|simpl; lia|done|].
    simpl. apply lookup_delete_eq.
Qed.

End History.

(** Each account has one ballot per proposal. A vote of a byte-string
    account replaces that account's previous ballot and nobody else's, the
    tally is the capped sum of the recorded weights on each side, and, while the
    weights are small enough not to saturate, the quorum test compares the exact
    approving share of the cast weight with the configured basis points. *)
Theorem ballots_counted_once g g' id p voter approve weight :
  proposals g !! id = Some p → ballots_ok (p_votes p) → 0 ≤ weight →
  cast_vote id voter approve weight g = (Ok (), g') →
  ∃ p', proposals g' !! id = Some p' ∧ ballots_ok (p_votes p') ∧
    p_votes p' !! voter_key_hex voter = Some (mkProposalVote approve weight) ∧
    (∀ other, is_bytes voter → is_bytes other → other ≠ voter →
      p_votes p' !! voter_key_hex other = p_votes p !! voter_key_hex other) ∧
    let yes := map_sum yes_weight (p_votes p') in
    let cast := map_sum pv_weight (p_votes p') in
    yes = map_sum yes_weight (delete (voter_key_hex voter) (p_votes p)) + (if approve then weight else 0) ∧
    cast = map_sum pv_weight (delete (voter_key_hex voter) (p_votes p)) + weight ∧
    (cast * 10000 ≤ u128_max → 0 ≤ quorum_approve_bps g →
     quorum_met g' id =
       Ok (negb (cast =? 0) && (cast * Z.min (quorum_approve_bps g) 10000 <=? yes * 10000))).
Proof.
  intros Hp Hb Hw Hc.
  destruct (cast_vote_cases id voter approve weight g) as [[er Hx]|(p1 & Hp1 & Hph & Hx)];
    rewrite Hx in Hc; [done|]. injection Hc as <-. rewrite Hp in Hp1. injection Hp1 as <-.
  set (k := voter_key_hex voter). set (b := mkProposalVote approve weight).
  set (m' := <[k := b]> (p_votes p)). exists (set_p_votes p m').
  assert (ballots_ok m') as Hb' by (by apply map_Forall_insert_2).
  assert (∀ f, map_sum f m' = map_sum f (delete k (p_votes p)) + f b) as Hsum.
  { intros f. unfold m'. rewrite <- insert_delete_eq, map_sum_fresh; [lia|]. apply lookup_delete_eq. }
  simpl. split_and!; [apply lookup_insert_eq|done|apply lookup_insert_eq| |apply Hsum|apply Hsum|].
  { intros o Hv Ho Hne. apply lookup_insert_ne. intros He. apply hex_encode_inj in He; [congruence|done..]. }
  intros Hmax Hbps. unfold quorum_met.
  rewrite (tally_exact _ _ (set_p_votes p m')); [|simpl; apply lookup_insert_eq|done]. simpl.
  destruct (sides_nonneg pv_approve pv_weight _ Hb') as [Hy Hno].
  pose proof (sides_sum pv_approve pv_weight m') as Hyn.
  assert (0 ≤ map_sum pv_weight m') by (apply map_sum_nonneg; intros x v Hv; apply (Hb' x v Hv)).
  rewrite !(Z.min_r u128_max (map_sum _ _)) by lia.
  destruct (map_sum pv_weight m' =? 0) eqn:Hz; [done|]. simpl. unfold sat_mul.
  rewrite !(Z.min_r u128_max (_ * _)); [done|nia|nia].
Qed.

End GovLaws.

(** A proposal that one voter carries through. *)
Module SampleGov.
Import Gov GovLaws.

Definition voter : AccountId := replicate 32 1.
Definition key : string := "qa_registry".
Definition value : bytes := [123; 125].

Definition history : list (Z * GovOp) :=
  [(10, GoPropose key value); (11, GoVote 1 voter true 40); (20, GoCooling 1); (25, GoExecution 1)].

Lemma executed_after_quorum_and_delay_witness :
  (execute 1 30 (state_at 5 10 history)).1 = Ok (key, value) ∧
  is_allowed_key key = true ∧
  (execute 1 31 (run_gov (execute 1 30 (state_at 5 10 history)).2 [])).1 = Err GeNotFound.
Proof.
  assert (execute 1 30 (state_at 5 10 history)
    = (Ok (key, value), (execute 1 30 (state_at 5 10 history)).2)) as He by (vm_compute; reflexivity).
  split; [by rewrite He|].
  destruct (executed_after_quorum_and_delay 5 10 history 1 30 key value _ ltac:(vm_compute; reflexivity) He)
    as (Hk & _ & Hno).
  split; [exact Hk|]. apply Hno. vm_compute. reflexivity.
Defined.

Lemma ballots_counted_once_witness :
  let g := state_at 5 10 (take 2 history) in
  let g' := (cast_vote 1 voter false 7 g).2 in
  tally g 1 = Ok (40, 0, 40) ∧ tally g' 1 = Ok (0, 7, 7) ∧ quorum_met g' 1 = Ok false.
Proof.
  split; [vm_compute; reflexivity|]. split; [vm_compute; reflexivity|].
  destruct (ballots_counted_once (state_at 5 10 (take 2 history))
    (cast_vote 1 voter false 7 (state_at 5 10 (take 2 history))).2 1
    (mkProposal 1 key value PhProposal 10 None None {[voter_key_hex voter := mkProposalVote true 40]})
    voter false 7) as (p' & Hp' & _ & _ & _ & Hy & Hc & Hq).
  - vm_compute. reflexivity.
  - apply map_Forall_singleton. simpl. lia.
  - lia.
  - vm_compute. reflexivity.
  - assert (map_sum pv_weight (p_votes p') = 7) as Hc7 by (rewrite Hc; vm_compute; reflexivity).
    assert (map_sum yes_weight (p_votes p') = 0) as Hy0 by (rewrite Hy; vm_compute; reflexivity).
    rewrite Hq, Hc7, Hy0; [vm_compute; reflexivity|rewrite Hc7; unfold u128_max; lia|vm_compute; discriminate].
Defined.
End SampleGov.
