(* ===== verification/Blobs.v ===== *)
(** * Media blobs: validation, gas, chunks and samples

    Models [crates/boing-primitives/src/blobs.rs] (validation of the blob
    transactions, gas, the chunk Merkle tree, data-availability samples and the
    XOR erasure code) and the functions of [blobs_phase6.rs] to
    [blobs_phase24.rs] that the sample market and the serve challenges use.
    BLAKE3 is [Host]'s. *)

From stdpp Require Import pretty.
From S2P Require Import Prelude Types Names.

(** ** Constants *)

Definition MAX_MEDIA_BLOB_BYTES : Z := 16 * 1024 * 1024.
Definition MEDIA_BLOB_DAS_CHUNK_BYTES : Z := 64 * 1024.
Definition MAX_MEDIA_BLOB_CONTENT_TYPE_LEN : Z := 64.
Definition MAX_MEDIA_BLOB_TTL_BLOCKS : Z := 1000000.
Definition MAX_MEDIA_BLOB_RENEW_EXTEND_BLOCKS : Z := 1000000.
Definition MEDIA_BLOB_GAS_BASE : Z := 21000.
Definition MEDIA_BLOB_GAS_PER_WORD : Z := 16.
Definition MEDIA_BLOB_FOREVER_MULTIPLIER : Z := 10.
Definition PHASE6_TARGET_MAX_MEDIA_BLOB_BYTES : Z := 256 * 1024 * 1024.
Definition PHASE6_MAX_SAMPLE_OFFERS : Z := 1024.
Definition PHASE10_SERVE_CHALLENGE_WINDOW_BLOCKS : Z := 256.
Definition PHASE10_MAX_SERVE_CHALLENGES : Z := 256.
Definition PHASE12_MAX_SETTLE_RECEIPTS : Z := 256.
Definition PHASE13_SETTLE_RECEIPT_TTL_BLOCKS : Z := 4096.
Definition PHASE24_TERMINAL_SERVE_CHALLENGE_RETENTION_BLOCKS : Z := 4096.

(** A [u32]. *)
Definition u32_max : Z := 4294967295.

Inductive BlobError :=
| TooLarge (size : Z)
| ContentTypeTooLong (len : Z)
| TtlZero
| TtlTooLarge (ttl_blocks max : Z)
| AnnounceSizeZero
| AnnounceZeroBlobId
| ChunkIndexOutOfRange (index count : Z)
| RecoveryInsufficient
| RecoveryIdMismatch
| DasProofInvalid
| RenewExtendZero
| RenewExtendTooLarge (extend max : Z)
| SampleChunkOutOfRange (index count : Z)
| SampleOfferNotFound
| SampleOfferExpired (expires_at_height tip_height : Z).

(** ** Retention and gas *)

Definition gas_multiplier (r : BlobRetention) : Z :=
  match r with Prunable _ => 1 | Forever => MEDIA_BLOB_FOREVER_MULTIPLIER end.

Definition retention_validate (r : BlobRetention) : result () BlobError :=
  match r with
  | Forever => Ok ()
  | Prunable ttl =>
      if ttl =? 0 then Err TtlZero
      else if MAX_MEDIA_BLOB_TTL_BLOCKS <? ttl then Err (TtlTooLarge ttl MAX_MEDIA_BLOB_TTL_BLOCKS)
      else Ok ()
  end.

Definition media_blob_meta_tx_gas : Z := MEDIA_BLOB_GAS_BASE.

Definition media_blob_gas_raw (size : Z) : Z :=
  let words := Z.max (div_ceil size 32) 1 in
  sat_add u64_max MEDIA_BLOB_GAS_BASE (sat_mul u64_max words MEDIA_BLOB_GAS_PER_WORD).

Definition media_blob_gas (size : Z) (r : BlobRetention) : Z :=
  sat_mul u64_max (media_blob_gas_raw size) (gas_multiplier r).

(** ** Validation of the blob transactions *)

(** [content_type.len()] of a string. *)
Definition str_len (s : string) : Z := Z.of_nat (String.length s).

Definition validate_put_blob_with_cap `{Host} (r : BlobRetention) (content_type : string)
    (data : bytes) (max_bytes : Z) : result BlobId BlobError :=
  match retention_validate r with
  | Err e => Err e
  | Ok _ =>
      let size := Z.of_nat (length data) in
      if max_bytes <? size then Err (TooLarge size)
      else if MAX_MEDIA_BLOB_CONTENT_TYPE_LEN <? str_len content_type
      then Err (ContentTypeTooLong (str_len content_type))
      else Ok (blake3 data)
  end.

Definition validate_blob_announce_with_cap (blob_id : BlobId) (size : Z) (r : BlobRetention)
    (content_type : string) (max_bytes : Z) : result () BlobError :=
  match retention_validate r with
  | Err e => Err e
  | Ok _ =>
      if forallb (λ b, b =? 0) blob_id then Err AnnounceZeroBlobId
      else if size =? 0 then Err AnnounceSizeZero
      else if max_bytes <? size then Err (TooLarge size)
      else if MAX_MEDIA_BLOB_CONTENT_TYPE_LEN <? str_len content_type
      then Err (ContentTypeTooLong (str_len content_type))
      else Ok ()
  end.

Definition validate_renew_media_blob_pin (size extend_blocks : Z) : result () BlobError :=
  if (size =? 0) || (MAX_MEDIA_BLOB_BYTES <? size) then Err (TooLarge size)
  else if extend_blocks =? 0 then Err RenewExtendZero
  else if MAX_MEDIA_BLOB_RENEW_EXTEND_BLOCKS <? extend_blocks
  then Err (RenewExtendTooLarge extend_blocks MAX_MEDIA_BLOB_RENEW_EXTEND_BLOCKS)
  else Ok ().

Definition media_blob_das_chunk_count (size : Z) : Z :=
  if size =? 0 then 0 else div_ceil size MEDIA_BLOB_DAS_CHUNK_BYTES.

Definition validate_pay_blob_sample_with_max_chunks (chunk_index chunk_count max_chunks : Z)
    : result () BlobError :=
  if (chunk_count =? 0) || (chunk_count <=? chunk_index)
  then Err (SampleChunkOutOfRange chunk_index chunk_count)
  else if max_chunks <? chunk_count then Err (SampleChunkOutOfRange chunk_index chunk_count)
  else Ok ().

Definition validate_pay_blob_sample (chunk_index chunk_count : Z) : result () BlobError :=
  validate_pay_blob_sample_with_max_chunks chunk_index chunk_count
    (media_blob_das_chunk_count MAX_MEDIA_BLOB_BYTES).

Definition media_blob_max_bytes_at (height : Z) (phase7_cap_from : option Z) : Z :=
  match phase7_cap_from with
  | Some from => if from <=? height then PHASE6_TARGET_MAX_MEDIA_BLOB_BYTES else MAX_MEDIA_BLOB_BYTES
  | None => MAX_MEDIA_BLOB_BYTES
  end.

Definition media_blob_max_das_chunks_at (height : Z) (phase7_cap_from : option Z) : Z :=
  media_blob_das_chunk_count (media_blob_max_bytes_at height phase7_cap_from).

Definition validate_register_blob_sample_offer (chunk_index chunk_count : Z) : result () BlobError :=
  validate_pay_blob_sample chunk_index chunk_count.

(** ** The commitment of a block to its blobs *)

Definition blob_ids_of_tx `{Host} (tx : Transaction) : list BlobId :=
  match tx_payload tx with
  | PutBlob _ _ data => [blake3 data]
  | BlobAnnounce blob_id _ _ _ => [blob_id]
  | _ => []
  end.

Definition blobs_root_of_transactions `{Host} (txs : list Transaction) : Hash :=
  match txs ≫= blob_ids_of_tx with
  | [] => ZERO
  | ids => blake3 (str_bytes "BOING_BLOBS_ROOT_V1" ++ concat ids)
  end.

(** ** Chunks, the chunk tree and samples *)

Record MediaBlobErasureBundle := mkErasureBundle {
  eb_blob_id : BlobId;
  eb_original_len : Z;
  eb_data_chunks : list bytes;
  eb_parity_chunk : bytes;
  eb_chunk_hashes : list Hash;
  eb_chunks_root : Hash
}.

Record MediaBlobDasSample := mkDasSample {
  ds_blob_id : BlobId;
  ds_chunk_index : Z;
  ds_chunk_count : Z;
  ds_chunk_hash : Hash;
  ds_chunks_root : Hash;
  ds_siblings : list Hash
}.

Module Das.
Section Das.
Context `{Host}.

Definition chunk_hash_of (l : bytes) : Hash := blake3 l.

(** [hash_pair] of [blobs.rs]. *)
Definition chunk_pair (a b : Hash) : Hash := blake3 (str_bytes "BOING_BLOB_CHUNK_MERKLE_V1" ++ a ++ b).

(** One pass of the loop over [layer.chunks(2)]. *)
Fixpoint chunk_layer (layer : list Hash) : list Hash :=
  match layer with
  | a :: b :: rest => chunk_pair a b :: chunk_layer rest
  | [a] => [chunk_pair a a]
  | [] => []
  end.

(** The loop [while layer.len() > 1], bounded: each pass at least halves a layer
    of two or more, so [length leaves] passes are enough ([layers_end]). *)
Definition layer_step (layer : list Hash) : list Hash :=
  if (1 <? length layer)%nat then chunk_layer layer else layer.

Definition media_blob_chunks_merkle_root (leaves : list Hash) : Hash :=
  match leaves with
  | [] => ZERO
  | _ => nth 0 (Nat.iter (length leaves) layer_step leaves) ZERO
  end.

Definition sibling_of (layer : list Hash) (idx : nat) : Hash :=
  let sibling_idx := if Nat.even idx then S idx else pred idx in
  nth (if (sibling_idx <? length layer)%nat then sibling_idx else idx) layer ZERO.

Fixpoint chunk_path (fuel : nat) (layer : list Hash) (idx : nat) : list Hash :=
  match fuel with
  | O => []
  | S fuel =>
      if (1 <? length layer)%nat
      then sibling_of layer idx :: chunk_path fuel (chunk_layer layer) (idx / 2)
      else []
  end.

Definition media_blob_chunk_merkle_proof (leaves : list Hash) (index : nat)
    : result (list Hash) BlobError :=
  if (length leaves <=? index)%nat
  then Err (ChunkIndexOutOfRange (Z.of_nat index) (Z.of_nat (length leaves)))
  else Ok (chunk_path (length leaves) leaves index).

(** The loop over the siblings of [verify_media_blob_das_sample_path]. *)
Fixpoint fold_path (h : Hash) (idx : nat) (siblings : list Hash) : Hash :=
  match siblings with
  | [] => h
  | s :: rest => fold_path (if Nat.even idx then chunk_pair h s else chunk_pair s h) (idx / 2) rest
  end.

Definition verify_media_blob_das_sample (s : MediaBlobDasSample) : result () BlobError :=
  if (ds_chunk_count s =? 0) || (ds_chunk_count s <=? ds_chunk_index s)
  then Err (ChunkIndexOutOfRange (ds_chunk_index s) (ds_chunk_count s))
  else if bool_decide (fold_path (ds_chunk_hash s) (Z.to_nat (ds_chunk_index s)) (ds_siblings s)
                       = ds_chunks_root s)
  then Ok () else Err DasProofInvalid.

Definition verify_media_blob_das_sample_with_chunk (s : MediaBlobDasSample) (chunk : bytes)
    : result () BlobError :=
  if negb (bool_decide (chunk_hash_of chunk = ds_chunk_hash s)) then Err DasProofInvalid
  else verify_media_blob_das_sample s.

(** [slice::chunks]; the fuel is the length. *)
Fixpoint chunks_of (fuel : nat) (c : nat) (l : bytes) : list bytes :=
  match fuel, l with
  | S fuel, _ :: _ => take c l :: chunks_of fuel c (drop c l)
  | _, _ => []
  end.

Definition pad_chunk (c : nat) (l : bytes) : bytes := l ++ replicate (c - length l) 0.

Definition xor_bytes (a b : bytes) : bytes := zip_with Z.lxor a b.

Definition das_chunk : nat := Z.to_nat MEDIA_BLOB_DAS_CHUNK_BYTES.

Definition data_chunks_of (data : bytes) : list bytes :=
  pad_chunk das_chunk <$> chunks_of (length data) das_chunk data.

Definition parity_of (chunks : list bytes) : bytes := foldl xor_bytes (replicate das_chunk 0) chunks.

Definition chunk_media_blob (data : bytes) : result MediaBlobErasureBundle BlobError :=
  let len := Z.of_nat (length data) in
  if MAX_MEDIA_BLOB_BYTES <? len then Err (TooLarge len)
  else if bool_decide (data = []) then Ok (mkErasureBundle (blake3 data) 0 [] [] [] ZERO)
  else
    let chunks := data_chunks_of data in
    let hashes := chunk_hash_of <$> chunks in
    Ok (mkErasureBundle (blake3 data) len chunks (parity_of chunks) hashes
          (media_blob_chunks_merkle_root hashes)).

Definition media_blob_das_sample (b : MediaBlobErasureBundle) (chunk_index : Z)
    : result MediaBlobDasSample BlobError :=
  let count := Z.of_nat (length (eb_chunk_hashes b)) in
  if count <=? chunk_index then Err (ChunkIndexOutOfRange chunk_index count)
  else
    let i := Z.to_nat chunk_index in
    match media_blob_chunk_merkle_proof (eb_chunk_hashes b) i with
    | Err e => Err e
    | Ok siblings =>
        Ok (mkDasSample (eb_blob_id b) chunk_index count (nth i (eb_chunk_hashes b) ZERO)
              (eb_chunks_root b) siblings)
    end.

(** Indices of the missing chunks. *)
Definition missing_from (i : nat) (l : list (option bytes)) : list nat :=
  imap (λ j c, (j + i, c))%nat l ≫= λ p, match p.2 with None => [p.1] | Some _ => [] end.

(** The loop that xors the present chunks into the parity: [None] is the error
    path of a chunk of the wrong length. *)
Definition xor_present (recovered : bytes) (c : option bytes) : option bytes :=
  match c with
  | None => Some recovered
  | Some l => if (length l =? das_chunk)%nat then Some (xor_bytes recovered l) else None
  end.

Definition recover_media_blob_xor (blob_id : BlobId) (original_len : nat)
    (data_chunks : list (option bytes)) (parity : bytes) : result bytes BlobError :=
  let finish out := if bool_decide (blake3 out = blob_id) then Ok out else Err RecoveryIdMismatch in
  if (original_len =? 0)%nat then finish []
  else if bool_decide (data_chunks = []) then Err RecoveryInsufficient
  else match missing_from 0 data_chunks with
  | [] => finish (take original_len (concat (default [] <$> data_chunks)))
  | [_] =>
      if negb (length parity =? das_chunk)%nat then Err RecoveryInsufficient
      else match mfold xor_present parity data_chunks with
      | None => Err RecoveryInsufficient
      | Some recovered => finish (take original_len (concat (default recovered <$> data_chunks)))
      end
  | _ => Err RecoveryInsufficient
  end.

End Das.
End Das.

(** ** Lemmas *)

Module DasLaws.
Import Das.
Section Laws.
Context `{Host}.

Lemma chunk_layer_length l : length (chunk_layer l) = Nat.div2 (S (length l)).
Proof.
  assert (∀ n l, (length l ≤ n)%nat → length (chunk_layer l) = Nat.div2 (S (length l))) as Hn; [|eauto].
  clear l. induction n as [|n IH]; intros [|a [|b l]] Hl; simpl in *; try done; [lia|].
  by rewrite IH by lia.
Qed.

Lemma chunk_layer_halves l :
  (1 < length l)%nat →
  (1 ≤ length (chunk_layer l) < length l)%nat ∧
  (∀ i, (i < length l)%nat → (i / 2 < length (chunk_layer l))%nat).
Proof.
  intros Hl. rewrite chunk_layer_length, Nat.div2_div.
  pose proof (Nat.div_mod_eq (S (length l)) 2). pose proof (Nat.mod_upper_bound (S (length l)) 2).
  split; [lia|]. intros i Hi. apply Nat.Div0.div_lt_upper_bound. lia.
Qed.

Lemma chunk_layer_nth l i :
  (i < length l)%nat →
  nth (i / 2) (chunk_layer l) ZERO =
    if Nat.even i then chunk_pair (nth i l ZERO) (sibling_of l i)
    else chunk_pair (sibling_of l i) (nth i l ZERO).
Proof.
  assert (∀ n l i, (length l ≤ n)%nat → (i < length l)%nat → nth (i / 2) (chunk_layer l) ZERO =
    if Nat.even i then chunk_pair (nth i l ZERO) (sibling_of l i)
    else chunk_pair (sibling_of l i) (nth i l ZERO)) as Hn; [|eauto].
  clear l i. induction n as [|n IH]; intros [|a [|b l]] i Hl Hi; simpl in Hl, Hi; try lia.
  - destruct i as [|i]; [done|lia].
  - destruct i as [|[|i]]; [done..|].
    replace (S (S i) / 2)%nat with (S (i / 2))%nat
      by (change (S (S i)) with (1 * 2 + i)%nat; by rewrite Nat.div_add_l).
    cbn [chunk_layer nth]. rewrite (IH l i) by lia.
    assert (sibling_of (a :: b :: l) (S (S i)) = sibling_of l i) as ->; [|done].
    unfold sibling_of. cbn [Nat.even]. destruct (Nat.even i) eqn:Ev.
    + cbn [length]. change (S (S (S i)) <? S (S (length l)))%nat with (S i <? length l)%nat. by case_match.
    + destruct i as [|i]; [done|]. cbn [length pred].
      change (S (S i) <? S (S (length l)))%nat with (i <? length l)%nat. by case_match.
Qed.

Lemma layer_step_short l : (length l ≤ 1)%nat → layer_step l = l.
Proof. intros Hl. unfold layer_step. destruct (Nat.ltb_spec 1 (length l)); [lia|done]. Qed.

Lemma iter_short n l : (length l ≤ 1)%nat → Nat.iter n layer_step l = l.
Proof. intros Hl. induction n as [|n IH]; simpl; [done|]. by rewrite IH, layer_step_short. Qed.

(** The loop of the root has ended: one hash is left. *)
Lemma layers_end n l : l ≠ [] → (length l ≤ S n)%nat → length (Nat.iter n layer_step l) = 1%nat.
Proof.
  revert l. induction n as [|n IH]; intros l Hne Hl.
  - destruct l as [|a [|b l]]; simpl in *; try done; lia.
  - rewrite Nat.iter_succ_r. destruct (decide (length l ≤ 1)%nat) as [Hs|Hs].
    + rewrite layer_step_short by done. apply IH; [done|lia].
    + unfold layer_step at 2. destruct (Nat.ltb_spec 1 (length l)); [|lia].
      destruct (chunk_layer_halves l) as [? _]; [done|]. apply IH; [|lia].
      intros He. rewrite He in *. simpl in *. lia.
Qed.

(** Folding the path of a leaf gives the root. *)
Lemma fold_chunk_path n l i :
  (i < length l)%nat → (length l ≤ S n)%nat →
  fold_path (nth i l ZERO) i (chunk_path n l i) = nth 0 (Nat.iter n layer_step l) ZERO.
Proof.
  revert l i. induction n as [|n IH]; intros l i Hi Hl.
  - destruct i; [done|lia].
  - rewrite Nat.iter_succ_r. cbn [chunk_path]. unfold layer_step at 2.
    destruct (Nat.ltb_spec 1 (length l)).
    + cbn [fold_path]. rewrite <- chunk_layer_nth by done.
      destruct (chunk_layer_halves l) as [? Hi2]; [done|]. rewrite IH; [done|by apply Hi2|lia].
    + rewrite iter_short by lia. assert (i = 0%nat) as -> by lia. done.
Qed.

Lemma chunk_path_length n l i :
  length (chunk_path n l i) = length (chunk_path n l 0).
Proof.
  revert l i. induction n as [|n IH]; intros l i; simpl; [done|].
  case_match; simpl; [|done]. by rewrite (IH (chunk_layer l) (i / 2)%nat).
Qed.

(** *** The XOR code *)

Lemma xor_length a b : length a = length b → length (xor_bytes a b) = length a.
Proof. intros. unfold xor_bytes. rewrite length_zip_with. lia. Qed.

Lemma xor_comm a b : xor_bytes a b = xor_bytes b a.
Proof.
  unfold xor_bytes. revert b. induction a as [|x a IH]; intros [|y b]; simpl; [done..|].
  by rewrite Z.lxor_comm, IH.
Qed.

Lemma xor_assoc a b c : xor_bytes a (xor_bytes b c) = xor_bytes (xor_bytes a b) c.
Proof.
  unfold xor_bytes. revert b c. induction a as [|x a IH]; intros [|y b] [|z c]; simpl; [done..|].
  by rewrite Z.lxor_assoc, IH.
Qed.

Lemma xor_cancel a b : length a = length b → xor_bytes (xor_bytes a b) b = a.
Proof.
  unfold xor_bytes. revert b. induction a as [|x a IH]; intros [|y b]; simpl; try done. intros [= Hl].
  by rewrite Z.lxor_assoc, Z.lxor_nilpotent, Z.lxor_0_r, IH.
Qed.

Lemma xor_zeros n a : length a = n → xor_bytes (replicate n 0) a = a.
Proof. intros <-. unfold xor_bytes. induction a as [|x a IH]; simpl; [done|]. by rewrite IH. Qed.

Lemma fold_xor_comm a b l : foldl xor_bytes (xor_bytes a b) l = xor_bytes (foldl xor_bytes a l) b.
Proof.
  revert a. induction l as [|c l IH]; intros a; simpl; [done|].
  by rewrite <- IH, <- !xor_assoc, (xor_comm b c).
Qed.

Lemma fold_xor_cancel a l :
  Forall (λ c, length c = length a) l → foldl xor_bytes (foldl xor_bytes a l) l = a.
Proof.
  induction l as [|c l IH]; intros Hl; simpl; [done|]. inversion_clear Hl as [|? ? Hc Hl'].
  rewrite fold_xor_comm, (fold_xor_comm a c l), fold_xor_comm, IH by done. by apply xor_cancel.
Qed.

(** What is left of the parity after the other chunks is the missing one. *)
Lemma parity_gives_missing n l1 x l2 :
  Forall (λ c, length c = n) (l1 ++ x :: l2) →
  foldl xor_bytes (foldl xor_bytes (replicate n 0) (l1 ++ x :: l2)) (l1 ++ l2) = x.
Proof.
  intros [Hl1 Hx]%Forall_app. inversion_clear Hx as [|? ? Hxn Hl2].
  rewrite (foldl_app xor_bytes l1 (x :: l2)). simpl.
  rewrite (fold_xor_comm _ x l2), <- foldl_app, fold_xor_comm, fold_xor_cancel; [by apply xor_zeros|].
  apply Forall_app. rewrite length_replicate. done.
Qed.

Lemma mfold_xor_present l p :
  Forall (λ c, length c = das_chunk) l → mfold xor_present p (Some <$> l) = Some (foldl xor_bytes p l).
Proof.
  intros Hl. revert p. induction Hl as [|c l Hc _ IH]; intros p; [done|].
  assert (xor_present p (Some c) = Some (xor_bytes p c)) as Hx by (unfold xor_present; by rewrite Hc, Nat.eqb_refl).
  rewrite fmap_cons. cbn [mfold foldl]. rewrite Hx. apply IH.
Qed.

Lemma mfold_app {A B} (f : B → A → option B) b l1 l2 :
  mfold f b (l1 ++ l2) = mfold f b l1 ≫= λ b', mfold f b' l2.
Proof. revert b. induction l1 as [|a l1 IH]; intros b; simpl; [done|]. by destruct (f b a); simpl. Qed.

Lemma missing_from_app i l1 l2 :
  missing_from i (l1 ++ l2) = missing_from i l1 ++ missing_from (length l1 + i) l2.
Proof.
  unfold missing_from. rewrite imap_app, bind_app. do 2 f_equal. apply imap_ext.
  intros j c _. simpl. f_equal. lia.
Qed.

Lemma missing_from_present i (l : list bytes) : missing_from i (Some <$> l) = [].
Proof.
  revert i. induction l as [|c l IH]; intros i; [done|]. rewrite fmap_cons.
  change (Some c :: (Some <$> l)) with ([Some c] ++ (Some <$> l)). by rewrite missing_from_app, IH.
Qed.

Lemma das_chunk_pos : (0 < das_chunk)%nat.
Proof. unfold das_chunk, MEDIA_BLOB_DAS_CHUNK_BYTES. lia. Qed.

Lemma chunks_of_length n c l :
  (0 < c)%nat → (length l ≤ n)%nat → Forall (λ x, (length x ≤ c)%nat) (chunks_of n c l).
Proof.
  intros Hc. revert l. induction n as [|n IH]; intros [|x l] Hl; simpl; constructor.
  - rewrite length_take. lia.
  - apply IH. rewrite length_drop. simpl in *. lia.
Qed.

(** The padded chunks hold the data followed by zeros. *)
Lemma concat_padded n c l :
  (0 < c)%nat → (length l ≤ n)%nat →
  ∃ k, concat (pad_chunk c <$> chunks_of n c l) = l ++ replicate k 0.
Proof.
  intros Hc. revert l. induction n as [|n IH]; intros [|x l] Hl; try (by exists 0%nat); [simpl in Hl; lia|].
  cbn [chunks_of]. rewrite fmap_cons. cbn [concat].
  destruct (IH (drop c (x :: l))) as [k Hk]; [rewrite length_drop; simpl in *; lia|]. rewrite Hk.
  unfold pad_chunk. destruct (decide (c ≤ length (x :: l))%nat) as [Hle|Hgt].
  - exists k. rewrite length_take_le, Nat.sub_diag by done. simpl replicate.
    by rewrite app_nil_r, app_assoc, take_drop.
  - rewrite (take_ge (x :: l)), (drop_ge (x :: l)) by lia. exists (c - length (x :: l) + k)%nat.
    by rewrite replicate_add, <- app_assoc.
Qed.

Lemma data_chunks_length data : Forall (λ c, length c = das_chunk) (data_chunks_of data).
Proof.
  unfold data_chunks_of. apply Forall_fmap. eapply Forall_impl.
  - apply (chunks_of_length (length data) das_chunk data das_chunk_pos). done.
  - intros x Hx. simpl in *. unfold pad_chunk. rewrite length_app, length_replicate. lia.
Qed.

Lemma data_chunks_concat data : take (length data) (concat (data_chunks_of data)) = data.
Proof.
  destruct (concat_padded (length data) das_chunk data das_chunk_pos) as [k Hk]; [done|].
  unfold data_chunks_of. rewrite Hk. apply take_app_length.
Qed.

Lemma data_chunks_nil data : data ≠ [] → data_chunks_of data ≠ [].
Proof. unfold data_chunks_of. by destruct data. Qed.

Lemma chunk_media_blob_ok data b :
  chunk_media_blob data = Ok b → data ≠ [] →
  b = mkErasureBundle (blake3 data) (Z.of_nat (length data)) (data_chunks_of data)
        (parity_of (data_chunks_of data)) (chunk_hash_of <$> data_chunks_of data)
        (media_blob_chunks_merkle_root (chunk_hash_of <$> data_chunks_of data)).
Proof.
  unfold chunk_media_blob. intros Hb Hne. case_match; [done|]. case_bool_decide; [done|]. by injection Hb.
Qed.

(** The byte strings that [fold_path] hashes, and those that the check of a
    sample with its chunk hashes: a collision among them is one that the two
    verifications exhibit. *)
Definition pair_input (a b : Hash) : bytes := str_bytes "BOING_BLOB_CHUNK_MERKLE_V1" ++ a ++ b.

Definition turn_input (h : Hash) (idx : nat) (s : Hash) : bytes :=
  if Nat.even idx then pair_input h s else pair_input s h.

Fixpoint path_inputs (h : Hash) (idx : nat) (siblings : list Hash) : list bytes :=
  match siblings with
  | [] => []
  | s :: rest => turn_input h idx s :: path_inputs (blake3 (turn_input h idx s)) (idx / 2) rest
  end.

Definition sample_inputs (s : MediaBlobDasSample) (chunk : bytes) : list bytes :=
  chunk :: path_inputs (blake3 chunk) (Z.to_nat (ds_chunk_index s)) (ds_siblings s).

Definition collide (l l' : list bytes) : Prop :=
  ∃ x y, x ∈ l ∧ y ∈ l' ∧ x ≠ y ∧ blake3 x = blake3 y.

Lemma collide_cons x y l l' : collide l l' → collide (x :: l) (y :: l').
Proof. intros (a & b & Ha & Hb & Hc). exists a, b. by repeat split; try (apply elem_of_cons; right); try apply Hc. Qed.

Lemma collide_here x y l l' : x ≠ y → blake3 x = blake3 y → collide (x :: l) (y :: l').
Proof. intros. exists x, y. repeat split; try done; apply elem_of_cons; by left. Qed.

Lemma turn_blake3 h i s :
  (if Nat.even i then chunk_pair h s else chunk_pair s h) = blake3 (turn_input h i s).
Proof. unfold turn_input, pair_input, chunk_pair. by destruct (Nat.even i). Qed.

Lemma turn_input_inj h h' i s s' :
  length h = 32%nat → length h' = 32%nat → length s = 32%nat → length s' = 32%nat →
  turn_input h i s = turn_input h' i s' → h = h'.
Proof.
  intros Hh Hh' Hs Hs'. unfold turn_input, pair_input.
  destruct (Nat.even i); intros [? ?]%app_inv_head%app_inj_1; congruence.
Qed.

Lemma fold_path_collision `{!HostDigest _} sib sib' h h' i :
  length sib = length sib' → length h = 32%nat → length h' = 32%nat →
  Forall (λ s : Hash, length s = 32%nat) sib → Forall (λ s : Hash, length s = 32%nat) sib' →
  fold_path h i sib = fold_path h' i sib' →
  h = h' ∨ collide (path_inputs h i sib) (path_inputs h' i sib').
Proof.
  intros Hl Hh Hh' Hs. revert sib' h h' i Hl Hh Hh'.
  induction Hs as [|s sib Hs _ IH]; intros [|s' sib'] h h' i Hl Hh Hh' Hs'; try done; [by left|].
  simpl in Hl. injection Hl as Hl. inversion_clear Hs' as [|? ? Hs1 Hs2].
  cbn [fold_path path_inputs]. rewrite !turn_blake3. intros He.
  apply IH in He as [He|Hc]; try done; try apply blake3_word; [|right; by apply collide_cons].
  destruct (decide (turn_input h i s = turn_input h' i s')) as [Heq|Hne].
  - left. by apply (turn_input_inj h h' i s s').
  - right. by apply collide_here.
Qed.

Lemma with_chunk_ok s chunk :
  verify_media_blob_das_sample_with_chunk s chunk = Ok () →
  ds_chunk_hash s = blake3 chunk ∧
  fold_path (blake3 chunk) (Z.to_nat (ds_chunk_index s)) (ds_siblings s) = ds_chunks_root s.
Proof.
  unfold verify_media_blob_das_sample_with_chunk, verify_media_blob_das_sample, chunk_hash_of.
  case_bool_decide as He; [|done]. simpl. case_match; [done|]. case_bool_decide as Hf; [|done].
  intros _. rewrite He. auto.
Qed.

(** C34: a sample is binding. Take two samples of one position that verify, each
    with its chunk, against one root, with siblings of 32 bytes and paths of the
    same length. Then the chunks are the same bytes, or two different byte strings
    among those the two checks hash (the chunk, and at every level the tag with
    the two digests) have the same BLAKE3 digest. (The root itself must come from
    somewhere trusted.) *)
Theorem das_sample_binding `{!HostDigest _} s s' chunk chunk' :
  ds_chunk_index s = ds_chunk_index s' → ds_chunks_root s = ds_chunks_root s' →
  length (ds_siblings s) = length (ds_siblings s') →
  Forall (λ x : Hash, length x = 32%nat) (ds_siblings s) →
  Forall (λ x : Hash, length x = 32%nat) (ds_siblings s') →
  verify_media_blob_das_sample_with_chunk s chunk = Ok () →
  verify_media_blob_das_sample_with_chunk s' chunk' = Ok () →
  chunk = chunk' ∨ collide (sample_inputs s chunk) (sample_inputs s' chunk').
Proof.
  intros Hi Hr Hl Hs Hs' Hv Hv'.
  apply with_chunk_ok in Hv as [_ Hv]. apply with_chunk_ok in Hv' as [_ Hv'].
  rewrite <- Hr, <- Hv, <- Hi in Hv'. unfold sample_inputs. rewrite <- Hi.
  destruct (decide (chunk = chunk')) as [|Hne]; [by left|right].
  symmetry in Hv'. apply fold_path_collision in Hv' as [He|?]; try done; try apply blake3_word.
  - by apply collide_here.
  - by apply collide_cons.
Qed.

(** Sampling is complete. Whatever chunk of a chunked blob is asked for, the
    sample built for it carries the blob's id and root and verifies, also with
    the bytes of the chunk. *)
Theorem das_sample_roundtrip data b i :
  chunk_media_blob data = Ok b → 0 ≤ i < Z.of_nat (length (eb_chunk_hashes b)) →
  ∃ s chunk, media_blob_das_sample b i = Ok s ∧ eb_data_chunks b !! Z.to_nat i = Some chunk ∧
    ds_blob_id s = blake3 data ∧ ds_chunk_index s = i ∧ ds_chunks_root s = eb_chunks_root b ∧
    verify_media_blob_das_sample s = Ok () ∧
    verify_media_blob_das_sample_with_chunk s chunk = Ok ().
Proof.
  intros Hb Hi. destruct (decide (data = [])) as [->|Hne].
  { unfold chunk_media_blob in Hb. simpl in Hb. injection Hb as <-. simpl in Hi. lia. }
  apply chunk_media_blob_ok in Hb as ->; [|done]. cbn [eb_chunk_hashes eb_data_chunks eb_chunks_root] in *.
  set (cs := data_chunks_of data) in *. set (hs := chunk_hash_of <$> cs) in *.
  assert (length hs = length cs) as Hlen by apply length_fmap.
  destruct (lookup_lt_is_Some_2 cs (Z.to_nat i)) as [chunk Hc]; [lia|].
  assert (nth (Z.to_nat i) hs ZERO = chunk_hash_of chunk) as Hn
    by (apply nth_lookup_Some; unfold hs; by rewrite list_lookup_fmap, Hc).
  unfold media_blob_das_sample, media_blob_chunk_merkle_proof. cbn [eb_chunk_hashes eb_blob_id eb_chunks_root].
  destruct (Z.leb_spec (Z.of_nat (length hs)) i); [lia|].
  destruct (Nat.leb_spec (length hs) (Z.to_nat i)); [lia|].
  eexists _, chunk. split; [done|]. split; [done|]. do 3 (split; [done|]).
  assert (verify_media_blob_das_sample (mkDasSample (blake3 data) i (Z.of_nat (length hs))
    (nth (Z.to_nat i) hs ZERO) (media_blob_chunks_merkle_root hs)
    (chunk_path (length hs) hs (Z.to_nat i))) = Ok ()) as Hv.
  { unfold verify_media_blob_das_sample. cbn [ds_chunk_count ds_chunk_index ds_chunk_hash ds_siblings ds_chunks_root].
    destruct (Z.eqb_spec (Z.of_nat (length hs)) 0); [lia|]. destruct (Z.leb_spec (Z.of_nat (length hs)) i); [lia|].
    rewrite fold_chunk_path by lia. simpl.
    rewrite bool_decide_eq_true_2; [done|]. unfold media_blob_chunks_merkle_root. by destruct hs. }
  split; [exact Hv|]. unfold verify_media_blob_das_sample_with_chunk. rewrite Hv. cbn [ds_chunk_hash].
  by rewrite Hn, bool_decide_eq_true_2.
Qed.

Lemma missing_one (l1 l2 : list bytes) :
  missing_from 0 ((Some <$> l1) ++ None :: (Some <$> l2)) = [length l1].
Proof.
  rewrite missing_from_app, missing_from_present. change (None :: (Some <$> l2)) with ([None] ++ (Some <$> l2)).
  rewrite missing_from_app, missing_from_present, length_fmap. cbn. f_equal. lia.
Qed.

Lemma xor_present_all l1 x l2 :
  Forall (λ c, length c = das_chunk) (l1 ++ x :: l2) →
  mfold xor_present (parity_of (l1 ++ x :: l2)) ((Some <$> l1) ++ None :: (Some <$> l2)) = Some x.
Proof.
  intros Hl. pose proof (parity_gives_missing _ _ _ _ Hl) as Hx.
  apply Forall_app in Hl as [Hl1 Hl2]. inversion_clear Hl2.
  rewrite mfold_app, mfold_xor_present by done. cbn [mbind option_bind mfold xor_present].
  rewrite mfold_xor_present by done. rewrite <- foldl_app. f_equal. exact Hx.
Qed.

Lemma parity_length l : Forall (λ c, length c = das_chunk) l → length (parity_of l) = das_chunk.
Proof.
  unfold parity_of. intros Hl. assert (∀ a, length a = das_chunk → length (foldl xor_bytes a l) = das_chunk) as Hg;
    [|apply Hg, length_replicate].
  induction Hl as [|c l Hc _ IH]; intros a Ha; simpl; [done|]. apply IH. rewrite xor_length; congruence.
Qed.

(** The XOR code repairs a blob. With any one data chunk missing, or none,
    the remaining chunks and the parity give back exactly the original bytes. *)
Theorem xor_recovers_missing_chunk data b m :
  chunk_media_blob data = Ok b →
  recover_media_blob_xor (eb_blob_id b) (length data) (<[m := None]> (Some <$> eb_data_chunks b))
    (eb_parity_chunk b) = Ok data.
Proof.
  intros Hb. unfold recover_media_blob_xor. destruct (decide (data = [])) as [->|Hne].
  { unfold chunk_media_blob in Hb. simpl in Hb. injection Hb as <-. simpl. by rewrite bool_decide_eq_true_2. }
  apply chunk_media_blob_ok in Hb as ->; [|done]. cbn [eb_blob_id eb_data_chunks eb_parity_chunk].
  pose proof (data_chunks_nil data Hne) as Hnil. pose proof (data_chunks_length data) as Hlen.
  pose proof (data_chunks_concat data) as Hcat. set (cs := data_chunks_of data) in *.
  destruct (Nat.eqb_spec (length data) 0); [by destruct data|].
  rewrite bool_decide_eq_false_2 by (intros He%(f_equal length); rewrite length_insert, length_fmap in He;
    by destruct cs).
  destruct (cs !! m) as [x|] eqn:Hx.
  - apply list_elem_of_split_length in Hx as (l1 & l2 & Hcs & ->).
    assert (<[length l1 := None]> (Some <$> cs) = (Some <$> l1) ++ None :: (Some <$> l2)) as ->.
    { rewrite Hcs, fmap_app, fmap_cons. rewrite <- (length_fmap (Some (A:=bytes)) l1) at 1.
      by rewrite insert_app_r_alt, Nat.sub_diag by lia. }
    rewrite missing_one, Hcs in *. rewrite parity_length, Nat.eqb_refl, xor_present_all by done. simpl.
    rewrite fmap_app, fmap_cons, <- !list_fmap_compose. cbn [default compose].
    rewrite !list_fmap_id, Hcat. by rewrite bool_decide_eq_true_2.
  - apply lookup_ge_None in Hx. rewrite list_insert_ge by (rewrite length_fmap; done).
    rewrite missing_from_present, <- list_fmap_compose. cbn [default compose].
    rewrite list_fmap_id, Hcat. by rewrite bool_decide_eq_true_2.
Qed.

End Laws.
End DasLaws.

Module SampleBlob.
Import Das DasLaws.
#[local] Existing Instance sample_host.

Definition data : bytes := [1; 2; 3].

Lemma das_sample_roundtrip_witness :
  ∃ b s chunk, chunk_media_blob data = Ok b ∧ media_blob_das_sample b 0 = Ok s ∧
    verify_media_blob_das_sample_with_chunk s chunk = Ok ().
Proof.
  eexists. destruct (das_sample_roundtrip data _ 0 eq_refl) as (s & chunk & Hs & _ & _ & _ & _ & _ & Hv).
  - cbn [eb_chunk_hashes]. unfold data_chunks_of. rewrite !length_fmap. lazy. split; [discriminate|reflexivity].
  - exists s, chunk. split; [reflexivity|]. split; [exact Hs|exact Hv].
Defined.

Lemma xor_recovers_missing_chunk_witness :
  ∃ b, chunk_media_blob data = Ok b ∧
    recover_media_blob_xor (eb_blob_id b) 3 (<[0%nat := None]> (Some <$> eb_data_chunks b))
      (eb_parity_chunk b) = Ok data.
Proof. eexists. split; [reflexivity|]. apply (xor_recovers_missing_chunk data _ 0 eq_refl). Defined.

Lemma das_sample_binding_witness :
  let s := mkDasSample ZERO 0 1 (blake3 data) (blake3 data) [] in
  verify_media_blob_das_sample_with_chunk s data = Ok () ∧
  (data = data ∨ collide (sample_inputs s data) (sample_inputs s data)).
Proof.
  assert (verify_media_blob_das_sample_with_chunk (mkDasSample ZERO 0 1 (blake3 data) (blake3 data) []) data
    = Ok ()) as Hv by (vm_compute; reflexivity).
  split; [exact Hv|].
  apply (das_sample_binding (mkDasSample ZERO 0 1 (blake3 data) (blake3 data) [])
    (mkDasSample ZERO 0 1 (blake3 data) (blake3 data) []) data data); try reflexivity; try exact Hv; constructor.
Defined.
End SampleBlob.
