(* ===== verification/SampleMarket.v ===== *)
(** * The blob sample market and the serve challenges

    Models [crates/boing-state/src/sample_offers.rs] (escrowed offers and settle
    receipts), [crates/boing-state/src/sample_serve.rs] (challenges of a provider
    to prove that it serves a chunk) and the functions of
    [crates/boing-primitives/src/blobs_phase7.rs], [blobs_phase9.rs],
    [blobs_phase10.rs], [blobs_phase12.rs] and [blobs_phase24.rs] they call.
    A [BTreeMap] with string keys is a finite map; where the code iterates over
    it the entries are listed in the order of their keys. *)

From stdpp Require Import pretty.
From S2P Require Import Prelude Types Names Governance Blobs.

(** [hex::encode]. *)
Class HexText := { hex_str : bytes → string }.

(** ** Iteration over a [BTreeMap<String, _>] *)

Definition key_le {A} (p q : string * A) : Prop := Is_true (bytes_leb (str_bytes p.1) (str_bytes q.1)).

#[export] Instance key_le_dec {A} (p q : string * A) : Decision (key_le p q).
Proof. unfold key_le. apply _. Defined.

Definition btree_list {A} (m : gmap string A) : list (string * A) := merge_sort key_le (map_to_list m).

(** [min_by_key]: the first of the smallest elements. *)
Definition min_by_key {A} (f : A → Z) (l : list A) : option A :=
  foldl (λ best x, match best with Some b => if f x <? f b then Some x else best | None => Some x end)
    None l.

(** ** Data *)

Record SettledSampleMatch := mkSettledMatch {
  sm_blob_id : BlobId;
  sm_chunk_index : Z;
  sm_chunk_count : Z;
  sm_provider : AccountId;
  sm_payer : AccountId;
  settled_at_height : Z
}.

Record EscrowedSampleOffer := mkOffer {
  eo_blob_id : BlobId;
  eo_chunk_index : Z;
  eo_chunk_count : Z;
  eo_provider : AccountId;
  eo_ask_fee : Z;
  eo_expires_at_height : Z;
  eo_registered_at_height : Z
}.

Inductive SampleOfferRegistryError :=
| SoMarketFull (max : Z)
| SoNotFound
| SoExpired (expires_at_height tip_height : Z)
| SoBlob (e : BlobError).

Record SampleOfferRegistry := mkOffers {
  offers : gmap string EscrowedSampleOffer;
  settled_receipts : gmap string SettledSampleMatch
}.

Definition empty_offers : SampleOfferRegistry := mkOffers ∅ ∅.

Inductive BlobSampleServeChallengeStatus := ChOpen | ChResponded | ChFailedServe.

#[export] Instance challenge_status_eq_dec : EqDecision BlobSampleServeChallengeStatus.
Proof. solve_decision. Defined.

Record BlobSampleServeChallenge := mkChallenge {
  ch_blob_id : BlobId;
  ch_chunk_index : Z;
  ch_chunk_count : Z;
  ch_provider : AccountId;
  ch_challenger : AccountId;
  ch_opened_at_height : Z;
  ch_deadline_height : Z;
  ch_status : BlobSampleServeChallengeStatus;
  ch_bond_amount : Z;
  ch_provider_penalty : Z;
  ch_bond_settled : bool;
  ch_slash_id : option Z
}.

Inductive SampleServeChallengeError :=
| ScFull (max : Z)
| ScNotFound
| ScClosed
| ScBlob (e : BlobError).

Record SampleServeChallengeRegistry := mkServe {
  challenges : gmap string BlobSampleServeChallenge;
  next_failed_serve_slash_id : Z
}.

Definition empty_serve : SampleServeChallengeRegistry := mkServe ∅ 1.

Definition set_ch_status (c : BlobSampleServeChallenge) (s : BlobSampleServeChallengeStatus)
    : BlobSampleServeChallenge :=
  mkChallenge (ch_blob_id c) (ch_chunk_index c) (ch_chunk_count c) (ch_provider c) (ch_challenger c)
    (ch_opened_at_height c) (ch_deadline_height c) s (ch_bond_amount c) (ch_provider_penalty c)
    (ch_bond_settled c) (ch_slash_id c).

Definition set_ch_settled (c : BlobSampleServeChallenge) : BlobSampleServeChallenge :=
  mkChallenge (ch_blob_id c) (ch_chunk_index c) (ch_chunk_count c) (ch_provider c) (ch_challenger c)
    (ch_opened_at_height c) (ch_deadline_height c) (ch_status c) (ch_bond_amount c)
    (ch_provider_penalty c) true (ch_slash_id c).

Definition set_ch_slash_id (c : BlobSampleServeChallenge) (id : Z) : BlobSampleServeChallenge :=
  mkChallenge (ch_blob_id c) (ch_chunk_index c) (ch_chunk_count c) (ch_provider c) (ch_challenger c)
    (ch_opened_at_height c) (ch_deadline_height c) (ch_status c) (ch_bond_amount c)
    (ch_provider_penalty c) (ch_bond_settled c) (Some id).

(** ** Keys *)

Section Keys.
Context `{HexText}.

Definition sample_offer_market_key (blob_id : BlobId) (chunk_index : Z) (provider : AccountId) : string :=
  hex_str blob_id +:+ ":" +:+ pretty (Z.to_N chunk_index) +:+ ":" +:+ hex_str provider.

Definition settle_receipt_key (blob_id : BlobId) (chunk_index : Z) (provider payer : AccountId) : string :=
  hex_str blob_id +:+ ":" +:+ pretty (Z.to_N chunk_index) +:+ ":" +:+ hex_str provider
    +:+ ":" +:+ hex_str payer.

Definition serve_challenge_key (blob_id : BlobId) (chunk_index : Z) (provider challenger : AccountId)
    : string :=
  hex_str blob_id +:+ ":" +:+ pretty (Z.to_N chunk_index) +:+ ":" +:+ hex_str provider
    +:+ ":" +:+ hex_str challenger.

Definition offer_market_key (o : EscrowedSampleOffer) : string :=
  sample_offer_market_key (eo_blob_id o) (eo_chunk_index o) (eo_provider o).

Definition challenge_market_key (c : BlobSampleServeChallenge) : string :=
  serve_challenge_key (ch_blob_id c) (ch_chunk_index c) (ch_provider c) (ch_challenger c).
End Keys.

(** ** Offers and receipts *)

Definition offer_is_expired (o : EscrowedSampleOffer) (tip_height : Z) : bool :=
  (0 <? eo_expires_at_height o) && (eo_expires_at_height o <? tip_height).

Definition set_offers (r : SampleOfferRegistry) (m : gmap string EscrowedSampleOffer)
    : SampleOfferRegistry := mkOffers m (settled_receipts r).
Definition set_receipts (r : SampleOfferRegistry) (m : gmap string SettledSampleMatch)
    : SampleOfferRegistry := mkOffers (offers r) m.

Module Offers.
Section Offers.
Context `{HexText}.

Notation M := (ST SampleOfferRegistry SampleOfferRegistryError).

Definition is_empty (r : SampleOfferRegistry) : bool :=
  bool_decide (offers r = ∅) && bool_decide (settled_receipts r = ∅).

Definition register (offer : EscrowedSampleOffer) : M (option EscrowedSampleOffer) :=
  match validate_pay_blob_sample (eo_chunk_index offer) (eo_chunk_count offer) with
  | Err e => st_fail (SoBlob e)
  | Ok _ =>
      r ← st_get;
      let key := offer_market_key offer in
      let prev := offers r !! key in
      let m := delete key (offers r) in
      if bool_decide (prev = None) && (PHASE6_MAX_SAMPLE_OFFERS <=? Z.of_nat (size m))
      then (_ ← st_put (set_offers r m); st_fail (SoMarketFull PHASE6_MAX_SAMPLE_OFFERS))
      else (_ ← st_put (set_offers r (<[key := offer]> m)); mret prev)
  end.

Definition settle (blob_id : BlobId) (chunk_index : Z) (provider : AccountId) (tip_height : Z)
    : M EscrowedSampleOffer :=
  r ← st_get;
  let key := sample_offer_market_key blob_id chunk_index provider in
  offer ← st_some (offers r !! key) SoNotFound;
  let m := delete key (offers r) in
  if offer_is_expired offer tip_height
  then (_ ← st_put (set_offers r (<[key := offer]> m));
        st_fail (SoExpired (eo_expires_at_height offer) tip_height))
  else (_ ← st_put (set_offers r m); mret offer).

Definition cancel (blob_id : BlobId) (chunk_index : Z) (provider : AccountId) : M EscrowedSampleOffer :=
  r ← st_get;
  let key := sample_offer_market_key blob_id chunk_index provider in
  offer ← st_some (offers r !! key) SoNotFound;
  _ ← st_put (set_offers r (delete key (offers r)));
  mret offer.

Definition take_expired (tip_height : Z) (r : SampleOfferRegistry)
    : list EscrowedSampleOffer * SampleOfferRegistry :=
  ((filter (λ e, offer_is_expired e.2 tip_height = true) (btree_list (offers r))).*2,
   set_offers r (filter (λ e, offer_is_expired e.2 tip_height = false) (offers r))).

Definition record_settle_receipt (receipt : SettledSampleMatch) (r : SampleOfferRegistry)
    : SampleOfferRegistry :=
  let key := settle_receipt_key (sm_blob_id receipt) (sm_chunk_index receipt) (sm_provider receipt)
               (sm_payer receipt) in
  let m :=
    if bool_decide (settled_receipts r !! key = None)
       && (PHASE12_MAX_SETTLE_RECEIPTS <=? Z.of_nat (size (settled_receipts r)))
    then match min_by_key (λ e, settled_at_height e.2) (btree_list (settled_receipts r)) with
         | Some oldest => delete oldest.1 (settled_receipts r)
         | None => settled_receipts r
         end
    else settled_receipts r in
  set_receipts r (<[key := receipt]> m).

Definition has_settle_receipt (r : SampleOfferRegistry) (blob_id : BlobId) (chunk_index : Z)
    (provider payer : AccountId) : bool :=
  bool_decide (is_Some (settled_receipts r !! settle_receipt_key blob_id chunk_index provider payer)).

Definition remove_settle_receipt (blob_id : BlobId) (chunk_index : Z) (provider payer : AccountId)
    (r : SampleOfferRegistry) : SampleOfferRegistry :=
  set_receipts r (delete (settle_receipt_key blob_id chunk_index provider payer) (settled_receipts r)).

Definition prune_settle_receipts (tip_height : Z) (r : SampleOfferRegistry) : SampleOfferRegistry :=
  set_receipts r (filter (λ e, sat_sub tip_height (settled_at_height e.2)
                               ≤ PHASE13_SETTLE_RECEIPT_TTL_BLOCKS) (settled_receipts r)).

(** [validate_settle_blob_sample_match] on the settled offer. *)
Definition validate_settle_blob_sample_match (o : EscrowedSampleOffer) (tip_height : Z)
    (provider : AccountId) : result () BlobError :=
  match validate_pay_blob_sample (eo_chunk_index o) (eo_chunk_count o) with
  | Err e => Err e
  | Ok _ =>
      if negb (bool_decide (eo_provider o = provider)) then Err SampleOfferNotFound
      else if offer_is_expired o tip_height
      then Err (SampleOfferExpired (eo_expires_at_height o) tip_height)
      else Ok ()
  end.
End Offers.
End Offers.

(** ** Serve challenges *)

Module Serve.
Section Serve.
Context `{Host, HexText}.

Notation M := (ST SampleServeChallengeRegistry SampleServeChallengeError).

Definition set_challenges (r : SampleServeChallengeRegistry) (m : gmap string BlobSampleServeChallenge)
    : SampleServeChallengeRegistry := mkServe m (next_failed_serve_slash_id r).

Definition is_empty (r : SampleServeChallengeRegistry) : bool := bool_decide (challenges r = ∅).

(** What the deadline does to one challenge. *)
Definition expire_challenge (tip_height : Z) (c : BlobSampleServeChallenge) : BlobSampleServeChallenge :=
  if bool_decide (ch_status c = ChOpen) && (ch_deadline_height c <? tip_height)
  then set_ch_status c ChFailedServe else c.

Definition needs_settle (c : BlobSampleServeChallenge) : bool :=
  bool_decide (ch_status c = ChFailedServe) && negb (ch_bond_settled c).

Definition take_newly_failed (tip_height : Z) (r : SampleServeChallengeRegistry)
    : list BlobSampleServeChallenge * SampleServeChallengeRegistry :=
  let m := expire_challenge tip_height <$> challenges r in
  (filter (λ c, needs_settle c = true) (btree_list m).*2, set_challenges r m).

Definition validate_challenge_blob_sample_serve (chunk_index chunk_count : Z)
    (provider challenger : AccountId) : result () BlobError :=
  match validate_pay_blob_sample chunk_index chunk_count with
  | Err e => Err e
  | Ok _ => if bool_decide (provider = challenger) then Err SampleOfferNotFound else Ok ()
  end.

Definition open_serve_challenge_with_bond (blob_id : BlobId) (chunk_index chunk_count : Z)
    (provider challenger : AccountId) (tip_height bond_amount provider_penalty : Z)
    : result BlobSampleServeChallenge BlobError :=
  match validate_challenge_blob_sample_serve chunk_index chunk_count provider challenger with
  | Err e => Err e
  | Ok _ =>
      Ok (mkChallenge blob_id chunk_index chunk_count provider challenger tip_height
            (sat_add u64_max tip_height PHASE10_SERVE_CHALLENGE_WINDOW_BLOCKS) ChOpen bond_amount
            provider_penalty false None)
  end.

Definition challenge (blob_id : BlobId) (chunk_index chunk_count : Z) (provider challenger : AccountId)
    (tip_height bond_amount provider_penalty : Z) : M BlobSampleServeChallenge :=
  _ ← st_modify (λ r, (take_newly_failed tip_height r).2);
  match open_serve_challenge_with_bond blob_id chunk_index chunk_count provider challenger tip_height
          bond_amount provider_penalty with
  | Err e => st_fail (ScBlob e)
  | Ok c =>
      r ← st_get;
      let key := challenge_market_key c in
      match challenges r !! key with
      | Some existing =>
          if bool_decide (ch_status existing = ChOpen) then st_fail ScClosed
          else (_ ← st_put (set_challenges r (<[key := c]> (challenges r))); mret c)
      | None =>
          if PHASE10_MAX_SERVE_CHALLENGES <=? Z.of_nat (size (challenges r))
          then st_fail (ScFull PHASE10_MAX_SERVE_CHALLENGES)
          else (_ ← st_put (set_challenges r (<[key := c]> (challenges r))); mret c)
      end
  end.

Definition validate_respond_blob_sample_serve (c : BlobSampleServeChallenge) (tip_height : Z)
    (s : MediaBlobDasSample) : result () BlobError :=
  if negb (bool_decide (ch_status c = ChOpen)) then Err SampleOfferNotFound
  else if ch_deadline_height c <? tip_height
  then Err (SampleOfferExpired (ch_deadline_height c) tip_height)
  else if negb (bool_decide (ds_blob_id s = ch_blob_id c))
          || negb (ds_chunk_index s =? ch_chunk_index c)
          || negb (ds_chunk_count s =? ch_chunk_count c)
  then Err DasProofInvalid
  else Das.verify_media_blob_das_sample s.

Definition respond (blob_id : BlobId) (chunk_index : Z) (provider challenger : AccountId)
    (tip_height : Z) (s : MediaBlobDasSample) : M BlobSampleServeChallenge :=
  _ ← st_modify (λ r, (take_newly_failed tip_height r).2);
  r ← st_get;
  let key := serve_challenge_key blob_id chunk_index provider challenger in
  c ← st_some (challenges r !! key) ScNotFound;
  match validate_respond_blob_sample_serve c tip_height s with
  | Err e => st_fail (ScBlob e)
  | Ok _ =>
      let c := set_ch_status c ChResponded in
      _ ← st_put (set_challenges r (<[key := c]> (challenges r)));
      mret c
  end.

Definition mark_bond_settled (blob_id : BlobId) (chunk_index : Z) (provider challenger : AccountId)
    (r : SampleServeChallengeRegistry) : SampleServeChallengeRegistry :=
  set_challenges r
    (alter set_ch_settled (serve_challenge_key blob_id chunk_index provider challenger) (challenges r)).

(** [set_failed_serve_slash_id]; its result is ignored by the caller. *)
Definition set_failed_serve_slash_id (blob_id : BlobId) (chunk_index : Z)
    (provider challenger : AccountId) (id : Z) (r : SampleServeChallengeRegistry)
    : SampleServeChallengeRegistry :=
  let key := serve_challenge_key blob_id chunk_index provider challenger in
  match challenges r !! key with
  | None => r
  | Some c =>
      match ch_slash_id c with
      | Some _ => r
      | None =>
          mkServe (<[key := set_ch_slash_id c id]> (challenges r))
            (if next_failed_serve_slash_id r <=? id then sat_add u64_max id 1
             else next_failed_serve_slash_id r)
      end
  end.

Definition phase24_terminal_serve_challenge_prunable (tip_height deadline_height : Z)
    (status : BlobSampleServeChallengeStatus) (bond_settled : bool) : bool :=
  if negb bond_settled then false
  else match status with
  | ChOpen => false
  | _ => sat_add u64_max deadline_height PHASE24_TERMINAL_SERVE_CHALLENGE_RETENTION_BLOCKS <? tip_height
  end.

Definition prune_terminal_challenges (tip_height : Z) (r : SampleServeChallengeRegistry)
    : SampleServeChallengeRegistry :=
  set_challenges r (filter (λ e, phase24_terminal_serve_challenge_prunable tip_height
    (ch_deadline_height e.2) (ch_status e.2) (ch_bond_settled e.2) = false) (challenges r)).
End Serve.
End Serve.

(** ** Lemmas *)

Module MarketLaws.
Import Offers Serve.

Lemma btree_list_perm {A} (m : gmap string A) : btree_list m ≡ₚ map_to_list m.
Proof. apply merge_sort_Permutation. Qed.

Definition sum_list {A} (f : A → Z) (l : list A) : Z := foldr (λ a s, f a + s) 0 l.

Lemma sum_list_perm {A} (f : A → Z) l l' : l ≡ₚ l' → sum_list f l = sum_list f l'.
Proof. unfold sum_list. induction 1; simpl; lia. Qed.

Lemma map_sum_list {A} (f : A → Z) (m : gmap string A) : map_sum f m = sum_list f (map_to_list m).*2.
Proof. symmetry. apply map_sum_foldr. Qed.

(** The entries a [retain] drops and those it keeps. *)
Lemma map_sum_split {A} (f : A → Z) (m : gmap string A) (b : A → bool) :
  map_sum f m = sum_list f (filter (λ e : string * A, b e.2 = true) (btree_list m)).*2
                + map_sum f (filter (λ e, b e.2 = false) m).
Proof.
  assert (filter (λ e : string * A, b e.2 = true) (btree_list m)
    ≡ₚ filter (λ e : string * A, b e.2 = true) (map_to_list m)) as Hp by (by rewrite btree_list_perm).
  rewrite (sum_list_perm f _ _ (fmap_Permutation snd _ _ Hp)). clear Hp.
  induction m as [|k v m Hk IH] using map_ind; [done|].
  assert (filter (λ e : string * A, b e.2 = true) (map_to_list (<[k := v]> m))
    ≡ₚ filter (λ e : string * A, b e.2 = true) ((k, v) :: map_to_list m)) as Hp
    by (by rewrite map_to_list_insert).
  rewrite (sum_list_perm f _ _ (fmap_Permutation snd _ _ Hp)), map_sum_fresh, IH by done. clear Hp.
  rewrite filter_cons. cbn [snd]. destruct (b v) eqn:Hb; case_decide; try done.
  - rewrite fmap_cons. rewrite (map_filter_insert_False _ m) by (simpl; congruence).
    rewrite delete_id by done. unfold sum_list. simpl. lia.
  - rewrite (map_filter_insert_True _ m) by done.
    rewrite map_sum_fresh; [lia|]. apply map_lookup_filter_None. by left.
Qed.

Section Laws.
Context `{Host, HexText}.

(** What the registry owes its providers. *)
Definition total_asks (r : SampleOfferRegistry) : Z := map_sum eo_ask_fee (offers r).

Definition fee_of (o : option EscrowedSampleOffer) : Z := from_option eo_ask_fee 0 o.

Lemma total_asks_delete r k :
  map_sum eo_ask_fee (delete k (offers r)) = total_asks r - fee_of (offers r !! k).
Proof.
  unfold total_asks, fee_of. destruct (offers r !! k) as [o|] eqn:Ho; simpl.
  - rewrite (map_sum_delete _ _ _ _ Ho). lia.
  - rewrite delete_id by done. lia.
Qed.

Lemma total_asks_replace r k o :
  map_sum eo_ask_fee (<[k := o]> (delete k (offers r))) = total_asks r - fee_of (offers r !! k) + eo_ask_fee o.
Proof. rewrite map_sum_fresh by apply lookup_delete_eq. rewrite total_asks_delete. lia. Qed.

Lemma register_total o r :
  match register o r with
  | (Ok prev, r') => total_asks r' = total_asks r - fee_of prev + eo_ask_fee o
  | (Err _, r') => total_asks r' = total_asks r
  end.
Proof.
  unfold register. destruct (validate_pay_blob_sample _ _); [|done]. st_unfold.
  case_bool_decide as Hp; cbn [andb]; [destruct (_ <=? _)|].
  - unfold total_asks at 1. simpl. rewrite total_asks_delete, Hp. simpl. lia.
  - unfold total_asks at 1. simpl. rewrite total_asks_replace. done.
  - unfold total_asks at 1. simpl. rewrite total_asks_replace. done.
Qed.

Lemma settle_total b i p h r :
  match settle b i p h r with
  | (Ok o, r') => total_asks r' = total_asks r - eo_ask_fee o
  | (Err _, r') => total_asks r' = total_asks r
  end.
Proof.
  unfold settle. st_unfold. destruct (offers r !! _) as [o|] eqn:Ho; [|done].
  destruct (offer_is_expired o h); simpl; unfold total_asks at 1; simpl.
  - rewrite total_asks_replace, Ho. simpl. lia.
  - rewrite total_asks_delete, Ho. done.
Qed.

Lemma cancel_total b i p r :
  match cancel b i p r with
  | (Ok o, r') => total_asks r' = total_asks r - eo_ask_fee o
  | (Err _, r') => r' = r
  end.
Proof.
  unfold cancel. st_unfold. destruct (offers r !! _) as [o|] eqn:Ho; [|done].
  unfold total_asks at 1. simpl. by rewrite total_asks_delete, Ho.
Qed.

Lemma take_expired_total h r :
  total_asks r = sum_list eo_ask_fee (take_expired h r).1 + total_asks (take_expired h r).2.
Proof. unfold total_asks. apply (map_sum_split eo_ask_fee (offers r) (λ o, offer_is_expired o h)). Qed.

(** What is at stake in a challenge: the challenger's bond and the provider's penalty. *)
Definition stake_of (c : BlobSampleServeChallenge) : Z :=
  if ch_bond_settled c then 0 else ch_bond_amount c + ch_provider_penalty c.

Definition total_stakes (r : SampleServeChallengeRegistry) : Z := map_sum stake_of (challenges r).

Lemma expire_challenge_stake h c : stake_of (expire_challenge h c) = stake_of c.
Proof. unfold expire_challenge. by case_match. Qed.

Lemma take_newly_failed_total h r : total_stakes (take_newly_failed h r).2 = total_stakes r.
Proof.
  unfold total_stakes. simpl. induction (challenges r) as [|k c m Hk IH] using map_ind; [by rewrite fmap_empty|].
  rewrite fmap_insert, !map_sum_fresh, expire_challenge_stake by (by rewrite ?lookup_fmap, ?Hk). by rewrite IH.
Qed.

Definition stake_at (r : SampleServeChallengeRegistry) (k : string) : Z :=
  from_option stake_of 0 (challenges r !! k).

Lemma total_stakes_write r k c :
  total_stakes (set_challenges r (<[k := c]> (challenges r))) = total_stakes r - stake_at r k + stake_of c.
Proof.
  unfold total_stakes, stake_at. cbn [challenges set_challenges]. rewrite <- insert_delete_eq, map_sum_fresh by apply lookup_delete_eq.
  destruct (challenges r !! k) as [c0|] eqn:Hc; simpl.
  - rewrite (map_sum_delete _ _ _ _ Hc). lia.
  - rewrite delete_id by done. lia.
Qed.

Lemma stake_at_expired h r k : stake_at (take_newly_failed h r).2 k = stake_at r k.
Proof.
  unfold stake_at. simpl. rewrite lookup_fmap. destruct (challenges r !! k); [|done].
  apply expire_challenge_stake.
Qed.

Lemma challenge_total b i n p q h bond pen r :
  match challenge b i n p q h bond pen r with
  | (Ok c, r') =>
      total_stakes r' = total_stakes r - stake_at r (serve_challenge_key b i p q) + bond + pen ∧ p ≠ q
  | (Err _, r') => total_stakes r' = total_stakes r
  end.
Proof.
  unfold challenge. st_unfold.
  pose proof (take_newly_failed_total h r) as Ht. pose proof (stake_at_expired h r) as Hs.
  set (r1 := (take_newly_failed h r).2) in *.
  unfold open_serve_challenge_with_bond, validate_challenge_blob_sample_serve.
  destruct (validate_pay_blob_sample _ _); [|done]. case_bool_decide as Hpq; [done|].
  set (k := challenge_market_key _). change (serve_challenge_key b i p q) with k.
  destruct (challenges r1 !! k) as [ex|].
  - case_bool_decide; [done|]. rewrite total_stakes_write, Hs, Ht. unfold stake_of. simpl. split; [lia|done].
  - destruct (_ <=? _); [done|]. rewrite total_stakes_write, Hs, Ht. unfold stake_of. simpl. split; [lia|done].
Qed.

Lemma respond_total b i p q h s r :
  total_stakes (respond b i p q h s r).2 = total_stakes r ∧
  (∀ k, stake_at (respond b i p q h s r).2 k = stake_at r k) ∧
  (∀ c, (respond b i p q h s r).1 = Ok c →
    challenges (respond b i p q h s r).2 !! serve_challenge_key b i p q = Some c ∧ ch_status c = ChResponded).
Proof.
  unfold respond. st_unfold.
  pose proof (take_newly_failed_total h r) as Ht. pose proof (stake_at_expired h r) as Hs.
  set (r1 := (take_newly_failed h r).2) in *.
  destruct (challenges r1 !! _) as [c|] eqn:Hc; [|by simpl; split_and!].
  destruct (validate_respond_blob_sample_serve c h s); [|by simpl; split_and!]. cbn [fst snd].
  assert (stake_of (set_ch_status c ChResponded) = stake_of c) as Hst by done.
  assert (stake_at r1 (serve_challenge_key b i p q) = stake_of c) as Hat by (unfold stake_at; by rewrite Hc).
  split_and!.
  - rewrite total_stakes_write, Hat, Hst. lia.
  - intros k. rewrite <- Hs. unfold stake_at. cbn [challenges set_challenges]. destruct (decide (k = serve_challenge_key b i p q)) as [->|Hne].
    + by rewrite lookup_insert_eq, Hc.
    + by rewrite lookup_insert_ne by done.
  - intros c' [= <-]. split; [apply lookup_insert_eq|done].
Qed.

Lemma mark_bond_settled_total b i p q r :
  total_stakes (mark_bond_settled b i p q r) = total_stakes r - stake_at r (serve_challenge_key b i p q).
Proof.
  unfold mark_bond_settled, total_stakes, stake_at. simpl. set (k := serve_challenge_key b i p q).
  destruct (challenges r !! k) as [c|] eqn:Hc; simpl.
  - assert (alter set_ch_settled k (challenges r) = <[k := set_ch_settled c]> (challenges r)) as ->.
    { apply map_eq. intros k'. destruct (decide (k = k')) as [<-|Hne].
      - by rewrite lookup_alter_eq, Hc, lookup_insert_eq.
      - by rewrite lookup_alter_ne, lookup_insert_ne. }
    change (total_stakes (set_challenges r (<[k := set_ch_settled c]> (challenges r)))
      = total_stakes r - stake_of c).
    rewrite total_stakes_write. unfold stake_at. rewrite Hc. simpl. unfold stake_of at 2. simpl. lia.
  - rewrite alter_id by (by rewrite Hc). lia.
Qed.

(** A response proves nothing about the data. Whatever the blob, a provider
    answers an open challenge with any 32 bytes at all: a sample whose root is
    its own chunk hash, with no siblings, is accepted, and the challenge counts
    as responded. Nothing compares the root with a commitment to the blob. *)
Theorem respond_needs_no_data blob_id i provider challenger height (h : Hash) r c :
  challenges r !! serve_challenge_key blob_id i provider challenger = Some c →
  ch_blob_id c = blob_id → ch_chunk_index c = i → 0 ≤ i < ch_chunk_count c →
  ch_status c = ChOpen → height ≤ ch_deadline_height c →
  (respond blob_id i provider challenger height (mkDasSample blob_id i (ch_chunk_count c) h h []) r).1
    = Ok (set_ch_status c ChResponded).
Proof.
  intros Hc Hb Hi Hn Ho Hd. unfold respond. st_unfold. cbn [challenges take_newly_failed set_challenges snd].
  rewrite lookup_fmap, Hc. cbn [fmap option_fmap option_map].
  assert (expire_challenge height c = c) as ->.
  { unfold expire_challenge. destruct (Z.ltb_spec (ch_deadline_height c) height); [lia|]. by rewrite andb_false_r. }
  assert (validate_respond_blob_sample_serve c height (mkDasSample blob_id i (ch_chunk_count c) h h []) = Ok ())
    as ->; [|done].
  unfold validate_respond_blob_sample_serve, Das.verify_media_blob_das_sample. simpl.
  rewrite !bool_decide_eq_true_2, Hi, !Z.eqb_refl by done. simpl.
  destruct (Z.ltb_spec (ch_deadline_height c) height); [lia|].
  destruct (Z.eqb_spec (ch_chunk_count c) 0); [lia|]. by destruct (Z.leb_spec (ch_chunk_count c) i); [lia|].
Qed.

(** The raised size cap does not reach the market. At a height where the cap
    is raised, an offer for a blob of more chunks than the old cap passes the
    check made for the raised cap and is then refused by the registry, which
    checks against the old one. *)
Theorem raised_cap_not_applied height from o r :
  from ≤ height → 0 ≤ eo_chunk_index o < eo_chunk_count o → 256 < eo_chunk_count o ≤ 4096 →
  validate_pay_blob_sample_with_max_chunks (eo_chunk_index o) (eo_chunk_count o)
    (media_blob_max_das_chunks_at height (Some from)) = Ok () ∧
  register o r = (Err (SoBlob (SampleChunkOutOfRange (eo_chunk_index o) (eo_chunk_count o))), r).
Proof.
  intros Hf Hi Hn. unfold media_blob_max_das_chunks_at, media_blob_max_bytes_at, register,
    validate_pay_blob_sample, validate_pay_blob_sample_with_max_chunks.
  destruct (Z.leb_spec from height); [|lia].
  change (media_blob_das_chunk_count PHASE6_TARGET_MAX_MEDIA_BLOB_BYTES) with 4096.
  change (media_blob_das_chunk_count MAX_MEDIA_BLOB_BYTES) with 256.
  destruct (Z.eqb_spec (eo_chunk_count o) 0); [lia|].
  destruct (Z.leb_spec (eo_chunk_count o) (eo_chunk_index o)); [lia|].
  destruct (Z.ltb_spec 4096 (eo_chunk_count o)); [lia|].
  by destruct (Z.ltb_spec 256 (eo_chunk_count o)); [|lia].
Qed.
End Laws.
End MarketLaws.

Module SampleServing.
Import Offers Serve MarketLaws.

#[local] Instance hex : HexText := {| hex_str := hex_encode |}.
#[local] Existing Instance sample_host.

Definition blob : BlobId := replicate 32 7.
Definition alice : AccountId := replicate 32 1.
Definition bob : AccountId := replicate 32 2.

Definition opened : SampleServeChallengeRegistry := (challenge blob 3 10 alice bob 100 5 5 empty_serve).2.

Lemma respond_needs_no_data_witness :
  (respond blob 3 alice bob 200 (mkDasSample blob 3 10 ZERO ZERO []) opened).1
    = Ok (mkChallenge blob 3 10 alice bob 100 356 ChResponded 5 5 false None).
Proof.
  apply (respond_needs_no_data blob 3 alice bob 200 ZERO opened
    (mkChallenge blob 3 10 alice bob 100 356 ChOpen 5 5 false None)).
  - vm_compute. reflexivity.
  - reflexivity.
  - reflexivity.
  - simpl. lia.
  - reflexivity.
  - simpl. lia.
Defined.

Lemma raised_cap_not_applied_witness :
  register (mkOffer blob 300 1000 alice 1 0 50) empty_offers
    = (Err (SoBlob (SampleChunkOutOfRange 300 1000)), empty_offers).
Proof. apply (raised_cap_not_applied 50 50 (mkOffer blob 300 1000 alice 1 0 50)); simpl; lia. Defined.
End SampleServing.
