(* ===== verification/SlashAppeals.v ===== *)
(** * The slash and appeal book

    Models [crates/boing-state/src/slash_appeals.rs]: the records of slashed
    validators and providers, the appeals against them, the stake-weighted votes
    that resolve an appeal, expiry and pruning, and the migration of older
    persisted books; and the functions of [blobs_phase17.rs], [blobs_phase20.rs],
    [blobs_phase21.rs], [blobs_phase23.rs] and [blobs_phase25.rs] they call. *)

From S2P Require Import Prelude Types Names.

Definition PHASE14_MAX_APPEAL_EVIDENCE_BYTES : Z := 4096.
Definition PHASE21_RESOLVE_WINDOW_BLOCKS : Z := 1000.
Definition PHASE23_EXPIRED_APPEAL_RETENTION_BLOCKS : Z := 4096.
Definition PHASE25_RESOLVED_APPEAL_RETENTION_BLOCKS : Z := 4096.
Definition PHASE20_LEGACY_ELECTORATE_W_SENTINEL : Z := 0.
Definition PHASE20_LEGACY_PIN_SET_COMMITMENT : bytes := replicate 32 0.
Definition PHASE20_PIN_SET_DOMAIN : bytes := str_bytes "BOING_SLASH_APPEAL_PIN_SET_V1".

(** ** Data *)

Inductive ConsensusSlashReason :=
| SrEquivocation | SrLiveness | SrFraud | SrBlobFailedServe | SrOther (s : string).

Inductive ConsensusAppealStatus := ApPending | ApApproved | ApRejected | ApExpired.

#[export] Instance slash_reason_eq_dec : EqDecision ConsensusSlashReason.
Proof. solve_decision. Defined.

#[export] Instance appeal_status_eq_dec : EqDecision ConsensusAppealStatus.
Proof. solve_decision. Defined.

Record ResolveVote := mkResolveVote {
  rv_approved : bool;
  rv_weight : Z;
  rv_ballot_signature : option bytes
}.

Inductive CastResolveOutcome :=
| OcPending (approve_weight reject_weight electorate_w : Z)
| OcFinalized (approved : bool).

Record ConsensusSlashRecord := mkSlashRecord {
  sr_id : Z;
  sr_account : AccountId;
  sr_amount : Z;
  sr_reason : ConsensusSlashReason;
  sr_block_height : Z;
  sr_appeal_deadline : Z;
  sr_reversed : bool
}.

Record ConsensusSlashAppeal := mkAppeal {
  ap_id : Z;
  ap_slash_id : Z;
  ap_evidence : bytes;
  ap_status : ConsensusAppealStatus;
  ap_votes : gmap AccountId ResolveVote;
  electorate_w_snapshot : Z;
  pin_set_commitment : bytes;
  resolve_deadline : Z
}.

Inductive SlashAppealError :=
| SaSlashNotFound | SaAppealNotFound | SaAppealAlreadyExists | SaAppealAlreadyResolved
| SaAlreadyVoted | SaAppealWindowClosed | SaResolveWindowClosed | SaEvidenceTooLarge (max : Z)
| SaAlreadyReversed.

Record SlashAppealRegistry := mkAppealBook {
  slashes : gmap Z ConsensusSlashRecord;
  appeals : gmap Z ConsensusSlashAppeal;
  next_appeal_id : Z;
  next_slash_id : Z
}.

Definition empty_appeals : SlashAppealRegistry := mkAppealBook ∅ ∅ 1 1.

Definition set_slashes (r : SlashAppealRegistry) (m : gmap Z ConsensusSlashRecord)
    : SlashAppealRegistry := mkAppealBook m (appeals r) (next_appeal_id r) (next_slash_id r).
Definition set_appeals (r : SlashAppealRegistry) (m : gmap Z ConsensusSlashAppeal)
    : SlashAppealRegistry := mkAppealBook (slashes r) m (next_appeal_id r) (next_slash_id r).
Definition set_next_slash_id (r : SlashAppealRegistry) (n : Z) : SlashAppealRegistry :=
  mkAppealBook (slashes r) (appeals r) (next_appeal_id r) n.
Definition set_ap_status (a : ConsensusSlashAppeal) (s : ConsensusAppealStatus) : ConsensusSlashAppeal :=
  mkAppeal (ap_id a) (ap_slash_id a) (ap_evidence a) s (ap_votes a) (electorate_w_snapshot a)
    (pin_set_commitment a) (resolve_deadline a).
Definition set_ap_votes (a : ConsensusSlashAppeal) (v : gmap AccountId ResolveVote)
    : ConsensusSlashAppeal :=
  mkAppeal (ap_id a) (ap_slash_id a) (ap_evidence a) (ap_status a) v (electorate_w_snapshot a)
    (pin_set_commitment a) (resolve_deadline a).
Definition set_sr_reversed (s : ConsensusSlashRecord) : ConsensusSlashRecord :=
  mkSlashRecord (sr_id s) (sr_account s) (sr_amount s) (sr_reason s) (sr_block_height s)
    (sr_appeal_deadline s) true.

(** ** Thresholds, windows and the electorate *)

Definition phase17_resolve_threshold_met (weight electorate_w : Z) : bool :=
  if electorate_w =? 0 then false
  else sat_mul u128_max 2 electorate_w <=? sat_mul u128_max weight 3.

Definition phase21_resolve_deadline (submit_height : Z) : Z :=
  sat_add u64_max submit_height PHASE21_RESOLVE_WINDOW_BLOCKS.

Definition phase21_resolve_expired (tip_height deadline : Z) : bool := deadline <? tip_height.

Definition phase23_expired_appeal_prunable (tip_height deadline : Z) : bool :=
  sat_add u64_max deadline PHASE23_EXPIRED_APPEAL_RETENTION_BLOCKS <? tip_height.

Definition phase25_resolved_appeal_prunable (tip_height deadline : Z) : bool :=
  sat_add u64_max deadline PHASE25_RESOLVED_APPEAL_RETENTION_BLOCKS <? tip_height.

Definition phase20_snapshot_electorate_w (pinned_stakes : list Z) : Z :=
  match pinned_stakes with
  | [] => 1
  | _ => foldl (λ acc s, sat_add u128_max acc s) 0 pinned_stakes
  end.

Definition phase20_pin_set_commitment `{Host} (pinned : list AccountId) : bytes :=
  match pinned with
  | [] => blake3 (PHASE20_PIN_SET_DOMAIN ++ str_bytes "UNPINNED")
  | _ => blake3 (PHASE20_PIN_SET_DOMAIN ++ le_bytes 8 (Z.of_nat (length pinned))
                 ++ concat (merge_sort (λ a b : AccountId, Is_true (bytes_leb a b)) pinned))
  end.

Definition phase20_is_legacy_electorate_snapshot (w : Z) (commitment : bytes) : bool :=
  (w =? PHASE20_LEGACY_ELECTORATE_W_SENTINEL)
  && bool_decide (commitment = PHASE20_LEGACY_PIN_SET_COMMITMENT).

(** ** Operations *)

Module Book.

Notation M := (ST SlashAppealRegistry SlashAppealError).

(** [keys().next_back().unwrap_or(0)]: the largest key. *)
Definition max_key {A} (m : gmap Z A) : Z := map_fold (λ k _ acc, Z.max k acc) 0 m.

Definition is_empty (r : SlashAppealRegistry) : bool :=
  bool_decide (slashes r = ∅) && bool_decide (appeals r = ∅).

Definition bump_next_slash_id_past_max (r : SlashAppealRegistry) : SlashAppealRegistry :=
  let m := max_key (slashes r) in
  let n := if next_slash_id r <=? m then sat_add u64_max m 1 else next_slash_id r in
  set_next_slash_id r (if n =? 0 then 1 else n).

Definition peek_next_slash_id (r : SlashAppealRegistry) : Z :=
  let m := max_key (slashes r) in
  let n := Z.max (next_slash_id r) 1 in
  if n <=? m then sat_add u64_max m 1 else n.

(** [record_slash_with_id] never fails. *)
Definition record_slash_with_id (id : Z) (account : AccountId) (amount : Z)
    (reason : ConsensusSlashReason) (block_height appeal_window_blocks : Z)
    (r : SlashAppealRegistry) : SlashAppealRegistry :=
  let bump r := if next_slash_id r <=? id then set_next_slash_id r (sat_add u64_max id 1) else r in
  match slashes r !! id with
  | Some _ => bump r
  | None =>
      bump (set_slashes r (<[id := mkSlashRecord id account amount reason block_height
              (sat_add u64_max block_height appeal_window_blocks) false]> (slashes r)))
  end.

Definition record_slash (account : AccountId) (amount : Z) (reason : ConsensusSlashReason)
    (block_height appeal_window_blocks : Z) (r : SlashAppealRegistry) : Z * SlashAppealRegistry :=
  let r := bump_next_slash_id_past_max r in
  let id := next_slash_id r in
  (id, record_slash_with_id id account amount reason block_height appeal_window_blocks
         (set_next_slash_id r (sat_add u64_max id 1))).

Definition submit_appeal (slash_id : Z) (evidence : bytes) (tip_height max_evidence : Z)
    (w_snapshot : Z) (pin_commitment : bytes) : M Z :=
  if max_evidence <? Z.of_nat (length evidence) then st_fail (SaEvidenceTooLarge max_evidence)
  else
    r ← st_get;
    slash ← st_some (slashes r !! slash_id) SaSlashNotFound;
    if sr_appeal_deadline slash <? tip_height then st_fail SaAppealWindowClosed
    else if sr_reversed slash then st_fail SaAlreadyReversed
    else if existsb (λ a, ap_slash_id a =? slash_id) (map_to_list (appeals r)).*2
    then st_fail SaAppealAlreadyExists
    else
      let id := next_appeal_id r in
      _ ← st_put (mkAppealBook (slashes r)
            (<[id := mkAppeal id slash_id evidence ApPending ∅ w_snapshot pin_commitment
                       (phase21_resolve_deadline tip_height)]> (appeals r))
            (sat_add u64_max id 1) (next_slash_id r));
      mret id.

Definition expire_appeal (tip_height : Z) (a : ConsensusSlashAppeal) : ConsensusSlashAppeal :=
  if bool_decide (ap_status a = ApPending) && phase21_resolve_expired tip_height (resolve_deadline a)
  then set_ap_status a ApExpired else a.

Definition expire_pending_appeals (tip_height : Z) (r : SlashAppealRegistry) : SlashAppealRegistry :=
  set_appeals r (expire_appeal tip_height <$> appeals r).

Definition expired_prunable (tip_height : Z) (a : ConsensusSlashAppeal) : bool :=
  bool_decide (ap_status a = ApExpired) && phase23_expired_appeal_prunable tip_height (resolve_deadline a).

Definition prune_expired_appeals (tip_height : Z) (r : SlashAppealRegistry) : SlashAppealRegistry :=
  set_appeals r (filter (λ e, expired_prunable tip_height e.2 = false) (appeals r)).

Definition resolved_prunable (tip_height : Z) (a : ConsensusSlashAppeal) : bool :=
  match ap_status a with
  | ApApproved | ApRejected => phase25_resolved_appeal_prunable tip_height (resolve_deadline a)
  | ApPending | ApExpired => false
  end.

Definition prune_resolved_appeals (tip_height : Z) (r : SlashAppealRegistry) : SlashAppealRegistry :=
  set_appeals r (filter (λ e, resolved_prunable tip_height e.2 = false) (appeals r)).

Definition gate_resolve_window (appeal_id tip_height : Z) : M () :=
  r ← st_get;
  a ← st_some (appeals r !! appeal_id) SaAppealNotFound;
  if negb (bool_decide (ap_status a = ApPending)) then st_fail SaAppealAlreadyResolved
  else if phase21_resolve_expired tip_height (resolve_deadline a)
  then (_ ← st_put (set_appeals r (<[appeal_id := set_ap_status a ApExpired]> (appeals r)));
        st_fail SaResolveWindowClosed)
  else mret ().

(** One entry of a batch of votes. *)
Definition Ballot : Type := AccountId * bool * Z * option bytes.

(** The loop that inserts the votes: the votes made before a duplicate stay. *)
Fixpoint insert_votes (l : list Ballot) (m : gmap AccountId ResolveVote)
    : bool * gmap AccountId ResolveVote :=
  match l with
  | [] => (true, m)
  | (voter, approved, weight, sig) :: rest =>
      if bool_decide (is_Some (m !! voter)) then (false, m)
      else insert_votes rest (<[voter := mkResolveVote approved weight sig]> m)
  end.

Definition count_vote : Z * Z → ResolveVote → Z * Z := tally_step rv_approved rv_weight.

Definition weight_tallies (r : SlashAppealRegistry) (appeal_id : Z) : option (Z * Z) :=
  a ← appeals r !! appeal_id; Some (foldl count_vote (0, 0) (map_to_list (ap_votes a)).*2).

Definition finalize_appeal (appeal_id slash_id : Z) (approved : bool) : M () :=
  r ← st_get;
  a ← st_some (appeals r !! appeal_id) SaAppealNotFound;
  let r := set_appeals r (<[appeal_id := set_ap_status a (if approved then ApApproved else ApRejected)]>
                            (appeals r)) in
  _ ← st_put r;
  slash ← st_some (slashes r !! slash_id) SaSlashNotFound;
  if approved then
    if sr_reversed slash then st_fail SaAlreadyReversed
    else st_put (set_slashes r (<[slash_id := set_sr_reversed slash]> (slashes r)))
  else mret ().

Definition cast_resolve_votes_batch (appeal_id : Z) (votes : list Ballot) (electorate_w : Z)
    : M CastResolveOutcome :=
  r ← st_get;
  a ← st_some (appeals r !! appeal_id) SaAppealNotFound;
  if negb (bool_decide (ap_status a = ApPending)) then st_fail SaAppealAlreadyResolved
  else
    let '(fresh, m) := insert_votes votes (ap_votes a) in
    let r := set_appeals r (<[appeal_id := set_ap_votes a m]> (appeals r)) in
    _ ← st_put r;
    if negb fresh then st_fail SaAlreadyVoted
    else
      match weight_tallies r appeal_id with
      | None => st_fail SaAppealNotFound
      | Some (approve_weight, reject_weight) =>
          if phase17_resolve_threshold_met approve_weight electorate_w
          then (_ ← finalize_appeal appeal_id (ap_slash_id a) true; mret (OcFinalized true))
          else if phase17_resolve_threshold_met reject_weight electorate_w
          then (_ ← finalize_appeal appeal_id (ap_slash_id a) false; mret (OcFinalized false))
          else mret (OcPending approve_weight reject_weight electorate_w)
      end.

Definition cast_resolve_vote (appeal_id : Z) (voter : AccountId) (approved : bool)
    (voter_weight electorate_w : Z) (sig : option bytes) : M CastResolveOutcome :=
  cast_resolve_votes_batch appeal_id [(voter, approved, voter_weight, sig)] electorate_w.

Definition slash_le (a b : Z * ConsensusSlashRecord) : Prop := a.1 ≤ b.1.

#[export] Instance slash_le_dec a b : Decision (slash_le a b) := Z_le_dec a.1 b.1.

Definition find_equivocation_at_round (r : SlashAppealRegistry) (account : AccountId) (round : Z)
    : option ConsensusSlashRecord :=
  find (λ s, bool_decide (sr_account s = account) && (sr_block_height s =? round)
             && bool_decide (sr_reason s = SrEquivocation))
    (merge_sort slash_le (map_to_list (slashes r))).*2.

(** *** Migration of older books *)

(** The appeal of a persisted book before [resolve_deadline], with its own kind of votes. *)
Record LegacyAppeal (V : Type) := mkLegacyAppeal {
  la_id : Z;
  la_slash_id : Z;
  la_evidence : bytes;
  la_status : ConsensusAppealStatus;
  la_votes : gmap AccountId V;
  la_electorate_w : Z;
  la_pin_set : bytes
}.

Record LegacyRegistry (V : Type) := mkLegacyRegistry {
  lr_slashes : gmap Z ConsensusSlashRecord;
  lr_appeals : gmap Z (LegacyAppeal V);
  lr_next_appeal_id : Z
}.

Arguments la_id {_} _.
Arguments la_slash_id {_} _.
Arguments la_evidence {_} _.
Arguments la_status {_} _.
Arguments la_votes {_} _.
Arguments la_electorate_w {_} _.
Arguments la_pin_set {_} _.
Arguments lr_slashes {_} _.
Arguments lr_appeals {_} _.
Arguments lr_next_appeal_id {_} _.

Definition migrate_bool_votes (votes : gmap AccountId bool) : gmap AccountId ResolveVote :=
  (λ approved, mkResolveVote approved 0 None) <$> votes.

Definition migrate_v2_votes (votes : gmap AccountId (bool * Z)) : gmap AccountId ResolveVote :=
  (λ v, mkResolveVote v.1 v.2 None) <$> votes.

Definition migrate_resolve_deadline (m : gmap Z ConsensusSlashRecord) (slash_id : Z) : Z :=
  from_option sr_appeal_deadline 0 (m !! slash_id).

(** What the five [from_legacy_*] do after decoding: [keep_w] is the electorate
    of the migrated appeal, the persisted one or the legacy sentinels. *)
Definition migrate {V} (votes : gmap AccountId V → gmap AccountId ResolveVote)
    (keep_w : LegacyAppeal V → Z * bytes) (l : LegacyRegistry V) : SlashAppealRegistry :=
  bump_next_slash_id_past_max (mkAppealBook (lr_slashes l)
    ((λ a, mkAppeal (la_id a) (la_slash_id a) (la_evidence a) (la_status a) (votes (la_votes a))
             (keep_w a).1 (keep_w a).2 (migrate_resolve_deadline (lr_slashes l) (la_slash_id a)))
       <$> lr_appeals l)
    (Z.max (lr_next_appeal_id l) 1) 1).

Definition legacy_electorate_snapshot_fields : Z * bytes :=
  (PHASE20_LEGACY_ELECTORATE_W_SENTINEL, PHASE20_LEGACY_PIN_SET_COMMITMENT).

Definition from_legacy_phase20_v4 : LegacyRegistry ResolveVote → SlashAppealRegistry :=
  migrate id (λ a, (la_electorate_w a, la_pin_set a)).
Definition from_legacy_phase18_v3 : LegacyRegistry ResolveVote → SlashAppealRegistry :=
  migrate id (λ _, legacy_electorate_snapshot_fields).
Definition from_legacy_phase17_v2 : LegacyRegistry (bool * Z) → SlashAppealRegistry :=
  migrate migrate_v2_votes (λ _, legacy_electorate_snapshot_fields).
Definition from_legacy_phase16 : LegacyRegistry bool → SlashAppealRegistry :=
  migrate migrate_bool_votes (λ _, legacy_electorate_snapshot_fields).
Definition from_legacy_phase14 : LegacyRegistry () → SlashAppealRegistry :=
  migrate (λ _, ∅) (λ _, legacy_electorate_snapshot_fields).

End Book.

(** ** Lemmas *)

Module BookLaws.
Import Book.

Lemma max_key_insert {A} (m : gmap Z A) k x : m !! k = None → max_key (<[k := x]> m) = Z.max k (max_key m).
Proof. intros Hk. unfold max_key. apply (map_fold_insert_L (λ k (_ : A) acc, Z.max k acc)); [intros; lia|done]. Qed.

Lemma max_key_ge {A} (m : gmap Z A) k x : m !! k = Some x → k ≤ max_key m.
Proof.
  revert k x. induction m as [|i y m Hi IH] using map_ind; intros k x Hk; [done|].
  rewrite max_key_insert by done. apply lookup_insert_Some in Hk as [[-> _]|[_ Hk]]; [lia|].
  specialize (IH k x Hk). lia.
Qed.

Lemma max_key_overwrite {A} (m : gmap Z A) k x y : m !! k = Some x → max_key (<[k := y]> m) = max_key m.
Proof.
  intros Hk. rewrite <- (insert_delete_id m k x Hk) at 2. rewrite <- (insert_delete_eq m k y).
  rewrite !max_key_insert by apply lookup_delete_eq. done.
Qed.

Lemma max_key_nonneg {A} (m : gmap Z A) : 0 ≤ max_key m.
Proof.
  induction m as [|i y m Hi IH] using map_ind; [done|]. rewrite max_key_insert by done. lia.
Qed.

(** *** Histories *)

Inductive BookOp :=
| BoRecord (account : AccountId) (amount : Z) (reason : ConsensusSlashReason) (height window : Z)
| BoSubmit (slash_id : Z) (evidence : bytes) (tip max_evidence w : Z) (pin : bytes)
| BoExpire (tip : Z)
| BoPruneExpired (tip : Z)
| BoPruneResolved (tip : Z)
| BoGate (appeal_id tip : Z)
| BoCast (appeal_id : Z) (votes : list Ballot) (electorate_w : Z).

(** A slash is recorded under the next id, as block execution does. *)
Definition apply_book_op (r : SlashAppealRegistry) (op : BookOp) : SlashAppealRegistry :=
  match op with
  | BoRecord account amount reason height window =>
      record_slash_with_id (peek_next_slash_id r) account amount reason height window r
  | BoSubmit slash_id evidence tip max_evidence w pin =>
      (submit_appeal slash_id evidence tip max_evidence w pin r).2
  | BoExpire tip => expire_pending_appeals tip r
  | BoPruneExpired tip => prune_expired_appeals tip r
  | BoPruneResolved tip => prune_resolved_appeals tip r
  | BoGate appeal_id tip => (gate_resolve_window appeal_id tip r).2
  | BoCast appeal_id votes w => (cast_resolve_votes_batch appeal_id votes w r).2
  end.

Definition run_book (r : SlashAppealRegistry) (ops : list BookOp) : SlashAppealRegistry :=
  foldl apply_book_op r ops.

Definition reversed_at (r : SlashAppealRegistry) (id : Z) : Prop :=
  ∃ s, slashes r !! id = Some s ∧ sr_reversed s = true.

Record book_ok (n : Z) (r : SlashAppealRegistry) : Prop := {
  bo_next : next_slash_id r = 1 + max_key (slashes r);
  bo_slash_bound : max_key (slashes r) ≤ n;
  bo_appeal_bound : 1 ≤ next_appeal_id r ≤ 1 + n;
  bo_appeal : map_Forall (λ id a, id < next_appeal_id r ∧ is_Some (slashes r !! ap_slash_id a) ∧
                (ap_status a = ApPending → ¬ reversed_at r (ap_slash_id a))) (appeals r);
  bo_unique : ∀ i j a b, appeals r !! i = Some a → appeals r !! j = Some b →
                ap_slash_id a = ap_slash_id b → i = j
}.

Lemma empty_book_ok : book_ok 0 empty_appeals.
Proof. by split. Qed.

Lemma peek_next r n : book_ok n r → peek_next_slash_id r = next_slash_id r.
Proof.
  intros Hok. unfold peek_next_slash_id. rewrite (bo_next n r Hok).
  pose proof (max_key_nonneg (slashes r)). rewrite Z.max_l by lia.
  destruct (Z.leb_spec (1 + max_key (slashes r)) (max_key (slashes r))); lia.
Qed.

Lemma record_next n r acc amt re h w :
  book_ok n r → n < u64_max - 1 →
  slashes r !! next_slash_id r = None ∧
  record_slash_with_id (peek_next_slash_id r) acc amt re h w r =
    mkAppealBook (<[next_slash_id r := mkSlashRecord (next_slash_id r) acc amt re h
                     (sat_add u64_max h w) false]> (slashes r))
      (appeals r) (next_appeal_id r) (next_slash_id r + 1).
Proof.
  intros Hok Hn. rewrite (peek_next r n Hok). pose proof (bo_next n r Hok) as Hnext.
  pose proof (bo_slash_bound n r Hok).
  assert (slashes r !! next_slash_id r = None) as Hnone.
  { destruct (slashes r !! next_slash_id r) as [s|] eqn:Hs; [|done]. apply max_key_ge in Hs. lia. }
  split; [done|]. unfold record_slash_with_id. rewrite Hnone. cbn [next_slash_id set_slashes].
  rewrite Z.leb_refl. unfold set_next_slash_id. simpl. f_equal.
  unfold sat_add, u64_max in *. pose proof (max_key_nonneg (slashes r)). lia.
Qed.

(** The same appeals, each possibly in another state. *)
Lemma appeals_update_ok n n' r m :
  book_ok n r → n ≤ n' →
  (∀ i a, m !! i = Some a → ∃ a0, appeals r !! i = Some a0 ∧ ap_slash_id a = ap_slash_id a0 ∧
     (ap_status a = ApPending → ap_status a0 = ApPending)) →
  book_ok n' (set_appeals r m).
Proof.
  intros Hok Hn Hm. split.
  - apply (bo_next n r Hok).
  - pose proof (bo_slash_bound n r Hok). simpl. lia.
  - pose proof (bo_appeal_bound n r Hok). simpl. lia.
  - intros i a Ha. destruct (Hm i a Ha) as (a0 & Ha0 & Hs & Hp). rewrite Hs.
    destruct (bo_appeal n r Hok i a0 Ha0) as (? & ? & ?). split_and!; auto.
  - intros i j a b Ha Hb Hs. destruct (Hm i a Ha) as (a0 & Ha0 & Hsa & _).
    destruct (Hm j b Hb) as (b0 & Hb0 & Hsb & _). apply (bo_unique n r Hok i j a0 b0); congruence.
Qed.

Lemma one_appeal_ok n n' r i a a' :
  book_ok n r → n ≤ n' → appeals r !! i = Some a → ap_slash_id a' = ap_slash_id a →
  (ap_status a' = ApPending → ap_status a = ApPending) →
  book_ok n' (set_appeals r (<[i := a']> (appeals r))).
Proof.
  intros Hok Hn Ha Hs Hp. apply (appeals_update_ok n); [done..|].
  intros j b [[<- <-]|[_ Hb]]%lookup_insert_Some; eauto 6.
Qed.

Lemma book_ok_mono n n' r : book_ok n r → n ≤ n' → book_ok n' r.
Proof. intros [] Hn. split; try done; lia. Qed.

(** Reversing the slash of a pending appeal that stops being pending. *)
Lemma reverse_ok n n' r i a s :
  book_ok n r → n ≤ n' → appeals r !! i = Some a → slashes r !! ap_slash_id a = Some s →
  ap_status a ≠ ApPending →
  book_ok n' (set_slashes r (<[ap_slash_id a := set_sr_reversed s]> (slashes r))).
Proof.
  intros Hok Hn Ha Hs Hst. pose proof (max_key_overwrite _ _ _ (set_sr_reversed s) Hs) as Hmax. split; simpl.
  - rewrite Hmax. apply (bo_next n r Hok).
  - rewrite Hmax. pose proof (bo_slash_bound n r Hok). lia.
  - pose proof (bo_appeal_bound n r Hok). lia.
  - intros j b Hb. destruct (bo_appeal n r Hok j b Hb) as (Hj & Hsb & Hp). split_and!; [done| |].
    + destruct (decide (ap_slash_id b = ap_slash_id a)) as [->|];
        [rewrite lookup_insert_eq; eauto|by rewrite lookup_insert_ne].
    + intros Hpb (s' & Hs' & Hr). simpl in Hs'. apply lookup_insert_Some in Hs' as [[He _]|[_ Hs']].
      * pose proof (bo_unique n r Hok i j a b Ha Hb He) as ->. congruence.
      * apply (Hp Hpb). by exists s'.
  - apply (bo_unique n r Hok).
Qed.

(** What a finalization does. *)
Lemma finalize_cases n r i a (approved : bool) :
  book_ok n r → appeals r !! i = Some a → ap_status a = ApPending →
  ∃ s, slashes r !! ap_slash_id a = Some s ∧ sr_reversed s = false ∧
  let r1 := set_appeals r (<[i := set_ap_status a (if approved then ApApproved else ApRejected)]> (appeals r)) in
  finalize_appeal i (ap_slash_id a) approved r =
    (Ok (), if approved then set_slashes r1 (<[ap_slash_id a := set_sr_reversed s]> (slashes r)) else r1).
Proof.
  intros Hok Ha Hp. destruct (bo_appeal n r Hok i a Ha) as (_ & [s Hs] & Hrev). exists s.
  assert (sr_reversed s = false) as Hr.
  { destruct (sr_reversed s) eqn:Hr; [|done]. exfalso. apply (Hrev Hp). by exists s. }
  split_and!; [done..|]. simpl. unfold finalize_appeal. st_unfold. rewrite Ha. simpl. rewrite Hs.
  by destruct approved; [rewrite Hr|].
Qed.

Definition tally (m : gmap AccountId ResolveVote) : Z * Z := foldl count_vote (0, 0) (map_to_list m).*2.

(** What a cast does, on each of its branches. *)
Lemma cast_cases n r i votes w :
  book_ok n r →
  (∃ e, cast_resolve_votes_batch i votes w r = (Err e, r)) ∨
  ∃ a b m, appeals r !! i = Some a ∧ ap_status a = ApPending ∧ insert_votes votes (ap_votes a) = (b, m) ∧
    let r1 := set_appeals r (<[i := set_ap_votes a m]> (appeals r)) in
    match b with
    | false => cast_resolve_votes_batch i votes w r = (Err SaAlreadyVoted, r1)
    | true =>
        (cast_resolve_votes_batch i votes w r = (Ok (OcPending (tally m).1 (tally m).2 w), r1)) ∨
        ∃ (approved : bool) s, slashes r !! ap_slash_id a = Some s ∧ sr_reversed s = false ∧
          phase17_resolve_threshold_met (if approved then (tally m).1 else (tally m).2) w = true ∧
          let r2 := set_appeals r (<[i := set_ap_status (set_ap_votes a m)
                      (if approved then ApApproved else ApRejected)]> (appeals r)) in
          cast_resolve_votes_batch i votes w r =
            (Ok (OcFinalized approved),
             if approved then set_slashes r2 (<[ap_slash_id a := set_sr_reversed s]> (slashes r)) else r2)
    end.
Proof.
  intros Hok. unfold cast_resolve_votes_batch. st_unfold.
  destruct (appeals r !! i) as [a|] eqn:Ha; [|eauto]. case_bool_decide as Hp; simpl; [|eauto].
  right. destruct (insert_votes votes (ap_votes a)) as [b m] eqn:Hv. exists a, b, m.
  split_and!; [done..|]. destruct b; simpl; [|done].
  set (r1 := set_appeals r (<[i := set_ap_votes a m]> (appeals r))).
  assert (appeals r1 !! i = Some (set_ap_votes a m)) as Ha1 by apply lookup_insert_eq.
  assert (book_ok n r1) as Hok1 by (by apply (one_appeal_ok n n r i a)).
  unfold weight_tallies. rewrite Ha1. cbn [mbind option_bind ap_votes set_ap_votes].
  change (foldl count_vote (0, 0) (map_to_list m).*2) with (tally m). destruct (tally m) as [ya na] eqn:Ht.
  assert (∀ approved, <[i := set_ap_status (set_ap_votes a m) (if approved : bool then ApApproved else ApRejected)]>
    (appeals r1) = <[i := set_ap_status (set_ap_votes a m) (if approved then ApApproved else ApRejected)]>
    (appeals r)) as Hins by (intros; apply insert_insert_eq).
  destruct (phase17_resolve_threshold_met ya w) eqn:Hy; [|destruct (phase17_resolve_threshold_met na w) eqn:Hna].
  - right. destruct (finalize_cases n r1 i _ true Hok1 Ha1 Hp) as (s & Hs & Hr & Hf).
    exists true, s. split_and!; [done..|]. change (ap_slash_id a) with (ap_slash_id (set_ap_votes a m)).
    rewrite Hf. unfold set_slashes, set_appeals in *. simpl in *. by rewrite (Hins true).
  - right. destruct (finalize_cases n r1 i _ false Hok1 Ha1 Hp) as (s & Hs & Hr & Hf).
    exists false, s. split_and!; [done..|]. change (ap_slash_id a) with (ap_slash_id (set_ap_votes a m)).
    rewrite Hf. unfold set_slashes, set_appeals in *. simpl in *. by rewrite (Hins false).
  - by left.
Qed.

Lemma record_ok n r acc amt re h w :
  n < u64_max - 1 → book_ok n r →
  book_ok (n + 1) (record_slash_with_id (peek_next_slash_id r) acc amt re h w r).
Proof.
  intros Hn Hok.
  destruct (record_next n r acc amt re h w Hok Hn) as [Hnone ->].
  pose proof (bo_next n r Hok) as Hnext. pose proof (bo_slash_bound n r Hok).
  pose proof (max_key_nonneg (slashes r)). pose proof (bo_appeal_bound n r Hok).
  split; simpl; rewrite ?max_key_insert by done; [lia..| |apply (bo_unique n r Hok)].
  intros i a Ha. destruct (bo_appeal n r Hok i a Ha) as (Hi & [s Hs] & Hp).
  assert (next_slash_id r ≠ ap_slash_id a) as Hne by congruence.
  split_and!; [done|rewrite lookup_insert_ne by done; eauto|].
  intros Hpa (s' & Hs' & Hr). simpl in Hs'. rewrite lookup_insert_ne in Hs' by done.
  apply (Hp Hpa). by exists s'.
Qed.

Lemma submit_ok n r sid ev tip mx w pin :
  n < u64_max - 1 → book_ok n r → book_ok (n + 1) (submit_appeal sid ev tip mx w pin r).2.
Proof.
  intros Hn Hok. assert (n ≤ n + 1) as Hle by lia.
  unfold submit_appeal. case_match; [by apply (book_ok_mono n)|]. st_unfold.
  destruct (slashes r !! sid) as [s|] eqn:Hs; [|by apply (book_ok_mono n)].
  case_match; [by apply (book_ok_mono n)|]. destruct (sr_reversed s) eqn:Hr; [by apply (book_ok_mono n)|].
  destruct (existsb _ _) eqn:He; [by apply (book_ok_mono n)|]. simpl.
  pose proof (bo_appeal_bound n r Hok) as Hb.
  assert (sat_add u64_max (next_appeal_id r) 1 = next_appeal_id r + 1) as -> by (unfold sat_add, u64_max in *; lia).
  assert (∀ j b, appeals r !! j = Some b → ap_slash_id b ≠ sid) as Hfresh.
  { intros j b Hj Heq. assert (existsb (λ a, ap_slash_id a =? sid) (map_to_list (appeals r)).*2 = true) as Hx;
      [|congruence]. apply existsb_exists. exists b. split; [|by apply Z.eqb_eq].
    apply list_elem_of_In, list_elem_of_fmap. exists (j, b). split; [done|]. by apply elem_of_map_to_list. }
  split; simpl.
  + apply (bo_next n r Hok).
  + pose proof (bo_slash_bound n r Hok). lia.
  + lia.
  + apply map_Forall_insert_2; simpl.
    * split_and!; [lia|eauto|]. intros _ (s' & Hs' & Hr'). simpl in Hs'. congruence.
    * intros j b Hj. destruct (bo_appeal n r Hok j b Hj) as (? & ? & ?). split_and!; [lia|done|done].
  + intros j k a b Ha Hb' Hab. apply lookup_insert_Some in Ha as [[<- <-]|[_ Ha]];
      apply lookup_insert_Some in Hb' as [[<- <-]|[_ Hb']]; simpl in *; try done.
    * by destruct (Hfresh k b Hb').
    * by destruct (Hfresh j a Ha).
    * by apply (bo_unique n r Hok j k a b).
Qed.

Lemma gate_ok n r i tip : book_ok n r → book_ok n (gate_resolve_window i tip r).2.
Proof.
  intros Hok. unfold gate_resolve_window. st_unfold. destruct (appeals r !! i) as [a|] eqn:Ha; [|done].
  case_bool_decide; simpl; [|done]. case_match; simpl; [|done]. by apply (one_appeal_ok n _ r i a).
Qed.

Lemma cast_ok n r i votes w : book_ok n r → book_ok n (cast_resolve_votes_batch i votes w r).2.
Proof.
  intros Hok.
  destruct (cast_cases n r i votes w Hok) as [[e ->]|(a & b & m & Ha & Hp & _ & Hc)];
    [done|].
  destruct b; [destruct Hc as [->|(ap & s & Hs & Hr & _ & ->)]|rewrite Hc]; simpl.
  + by apply (one_appeal_ok n _ r i a).
  + set (a' := set_ap_status (set_ap_votes a m) (if ap then ApApproved else ApRejected)).
    assert (book_ok n (set_appeals r (<[i := a']> (appeals r)))) as Hok2
      by (apply (one_appeal_ok n n r i a); [done..|by destruct ap]).
    destruct ap; [|done].
    change (ap_slash_id a) with (ap_slash_id a').
    apply (reverse_ok n _ (set_appeals r (<[i := a']> (appeals r))) i a' s); try done.
    apply lookup_insert_eq.
  + by apply (one_appeal_ok n _ r i a).
Qed.

Lemma apply_book_op_ok n r op : n < u64_max - 1 → book_ok n r → book_ok (n + 1) (apply_book_op r op).
Proof.
  intros Hn Hok. assert (n ≤ n + 1) as Hle by lia.
  destruct op as [acc amt re h w|sid ev tip mx w pin|tip|tip|tip|i tip|i votes w]; simpl.
  - by apply record_ok.
  - by apply submit_ok.
  - apply (appeals_update_ok n); [done..|]. intros i a Ha. rewrite lookup_fmap in Ha.
    destruct (appeals r !! i) as [a0|]; [|done]. injection Ha as <-. exists a0.
    unfold expire_appeal. case_match; simpl; [|done]. by split_and!.
  - apply (appeals_update_ok n); [done..|]. intros i a [Ha _]%map_lookup_filter_Some. eauto.
  - apply (appeals_update_ok n); [done..|]. intros i a [Ha _]%map_lookup_filter_Some. eauto.
  - eapply book_ok_mono; [by apply gate_ok|done].
  - eapply book_ok_mono; [by apply cast_ok|done].
Qed.

Lemma run_book_ok ops n r :
  n + Z.of_nat (length ops) < u64_max - 1 → book_ok n r → book_ok (n + Z.of_nat (length ops)) (run_book r ops).
Proof.
  revert n r. induction ops as [|op ops IH]; intros n r Hlen Hok.
  - simpl. by rewrite Z.add_0_r.
  - simpl length in *. simpl run_book. replace (n + Z.of_nat (S (length ops))) with ((n + 1) + Z.of_nat (length ops)) by lia.
    apply IH; [lia|]. apply apply_book_op_ok; [lia|done].
Qed.

(** A slash keeps its account, amount and reason, and stays reversed. *)
Definition slash_kept (s s' : ConsensusSlashRecord) : Prop :=
  sr_account s' = sr_account s ∧ sr_amount s' = sr_amount s ∧ sr_reason s' = sr_reason s ∧
  (sr_reversed s = true → sr_reversed s' = true).

Lemma slash_kept_refl s : slash_kept s s.
Proof. by split_and!. Qed.

Lemma slash_stays n r op id s :
  n < u64_max - 1 → book_ok n r → slashes r !! id = Some s →
  ∃ s', slashes (apply_book_op r op) !! id = Some s' ∧ slash_kept s s'.
Proof.
  intros Hn Hok Hs. pose proof (slash_kept_refl s) as Hrefl.
  destruct op as [acc amt re h w|sid ev tip mx w pin|tip|tip|tip|i tip|i votes w]; simpl; try by eauto.
  - destruct (record_next n r acc amt re h w Hok Hn) as [Hnone ->]. simpl.
    rewrite lookup_insert_ne by congruence. eauto.
  - unfold submit_appeal. case_match; [by eauto|]. st_unfold. destruct (slashes r !! sid); [|by eauto].
    repeat (case_match; [by eauto|]). simpl. eauto.
  - unfold gate_resolve_window. st_unfold. destruct (appeals r !! i); [|by eauto].
    case_bool_decide; simpl; [|by eauto]. case_match; simpl; eauto.
  - destruct (cast_cases n r i votes w Hok) as [[e ->]|(a & b & m & Ha & Hp & _ & Hc)]; [by eauto|].
    destruct b; [destruct Hc as [->|(ap & s0 & Hs0 & Hr & _ & ->)]|rewrite Hc]; simpl; eauto.
    destruct ap; simpl; eauto.
    destruct (decide (ap_slash_id a = id)) as [<-|]; [|rewrite lookup_insert_ne by done; eauto].
    rewrite lookup_insert_eq. eexists. split; [done|]. rewrite Hs0 in Hs. injection Hs as <-. by split_and!.
Qed.

Lemma run_slash_stays ops n r id s :
  n + Z.of_nat (length ops) < u64_max - 1 → book_ok n r → slashes r !! id = Some s →
  ∃ s', slashes (run_book r ops) !! id = Some s' ∧ slash_kept s s'.
Proof.
  revert n r s. induction ops as [|op ops IH]; intros n r s Hlen Hok Hs.
  - exists s. split; [done|]. apply slash_kept_refl.
  - simpl length in Hlen. destruct (slash_stays n r op id s) as (s1 & Hs1 & H1); [lia|done..|].
    destruct (IH (n + 1) (apply_book_op r op) s1) as (s2 & Hs2 & H2);
      [lia|apply apply_book_op_ok; [lia|done]|done|].
    exists s2. split; [done|]. destruct H1 as (? & ? & ? & ?), H2 as (? & ? & ? & ?).
    split_and!; try congruence. auto.
Qed.

Definition voter_of (b : Ballot) : AccountId := b.1.1.1.

Lemma insert_votes_fresh l m m' :
  insert_votes l m = (true, m') →
  NoDup (voter_of <$> l) ∧ Forall (λ b, m !! voter_of b = None) l ∧ m ⊆ m'.
Proof.
  revert m. induction l as [|[[[v ap] w] sg] l IH]; intros m Hl; simpl in Hl.
  - injection Hl as <-. by split_and!; [constructor..|].
  - case_bool_decide as Hv; [done|]. apply eq_None_not_Some in Hv.
    destruct (IH _ Hl) as (Hnd & Hf & Hsub). rewrite fmap_cons. split_and!.
    + constructor; [|done]. intros [b [Hb Hin]]%list_elem_of_fmap.
      rewrite Forall_forall in Hf. specialize (Hf b Hin). simpl in Hf.
      rewrite <- Hb in Hf. cbn in Hf. by rewrite lookup_insert_eq in Hf.
    + constructor; [done|]. eapply Forall_impl; [exact Hf|]. intros b Hb. simpl in Hb.
      by apply lookup_insert_None in Hb as [? _].
    + etrans; [by apply (insert_subseteq m v (mkResolveVote ap w sg))|done].
Qed.

Definition weights_ok (m : gmap AccountId ResolveVote) : Prop := map_Forall (λ _ v, 0 ≤ rv_weight v) m.

Notation approving := (for_weight rv_approved rv_weight).

(** Without saturation, the threshold is two thirds of the electorate. *)
Lemma threshold_exact m w :
  weights_ok m → 0 ≤ w → 3 * map_sum rv_weight m ≤ u128_max →
  phase17_resolve_threshold_met (tally m).1 w = true → 0 < w ∧ (2 * w ≤ u128_max → 2 * w ≤ 3 * map_sum approving m).
Proof.
  intros Hm Hw Hmax. unfold phase17_resolve_threshold_met, tally. destruct (Z.eqb_spec w 0); [done|].
  change count_vote with (tally_step rv_approved rv_weight). rewrite tally_map by done. simpl.
  destruct (sides_nonneg rv_approved rv_weight m Hm). rewrite (sides_sum rv_approved rv_weight) in Hmax.
  intros Ht%Z.leb_le. split; [lia|]. intros Hw2. unfold sat_mul in Ht. lia.
Qed.

(** Slash ids survive a restart. The allocator is not persisted, yet after any
    history the id handed out next, with the allocator lost, is the one the
    running node would hand out, and it is not in use. *)
Theorem slash_ids_restart_safe ops :
  let r := run_book empty_appeals ops in
  Z.of_nat (length ops) < u64_max - 1 →
  peek_next_slash_id (set_next_slash_id r 0) = peek_next_slash_id r ∧
  slashes r !! peek_next_slash_id r = None ∧
  peek_next_slash_id r = 1 + max_key (slashes r).
Proof.
  intros r Hlen. pose proof (run_book_ok ops 0 empty_appeals Hlen empty_book_ok) as Hok. fold r in Hok.
  rewrite (peek_next r _ Hok), (bo_next _ r Hok). pose proof (max_key_nonneg (slashes r)).
  pose proof (bo_slash_bound _ r Hok). split_and!; [| |done].
  - unfold peek_next_slash_id. simpl. change (0 `max` 1) with 1. destruct (Z.leb_spec 1 (max_key (slashes r))).
    + unfold sat_add, u64_max in *. lia.
    + lia.
  - destruct (slashes r !! (1 + max_key (slashes r))) as [s|] eqn:Hs; [|done]. apply max_key_ge in Hs. lia.
Qed.

(** C33: a slash is undone once, and only by its electorate. When a cast finalizes
    an appeal with approval after any history, the appeal was pending and its
    slash not yet reversed, each voter of the batch is new to the appeal and
    votes once, the weights recorded for approval reach two thirds of the
    electorate (which is not empty), exactly that slash becomes reversed; and
    whatever happens later, no cast finalizes an approval of that slash again. *)
Theorem appeal_approval_sound ops i votes w r' :
  let r := run_book empty_appeals ops in
  Z.of_nat (length ops) < u64_max - 2 → 0 ≤ w ≤ u128_max / 2 →
  cast_resolve_votes_batch i votes w r = (Ok (OcFinalized true), r') →
  ∃ a s m, appeals r !! i = Some a ∧ ap_status a = ApPending ∧
    slashes r !! ap_slash_id a = Some s ∧ sr_reversed s = false ∧
    slashes r' = <[ap_slash_id a := set_sr_reversed s]> (slashes r) ∧
    insert_votes votes (ap_votes a) = (true, m) ∧ NoDup (voter_of <$> votes) ∧
    Forall (λ b, ap_votes a !! voter_of b = None) votes ∧
    (weights_ok m → 3 * map_sum rv_weight m ≤ u128_max → 0 < w ∧ 2 * w ≤ 3 * map_sum approving m) ∧
    ∀ later j votes' w' a', Z.of_nat (length ops + length later) < u64_max - 2 →
      appeals (run_book r' later) !! j = Some a' → ap_slash_id a' = ap_slash_id a →
      (cast_resolve_votes_batch j votes' w' (run_book r' later)).1 ≠ Ok (OcFinalized true).
Proof.
  intros r Hlen Hw Hc. pose proof (run_book_ok ops 0 empty_appeals ltac:(lia) empty_book_ok) as Hok.
  fold r in Hok. simpl in Hok.
  destruct (cast_cases _ r i votes w Hok) as [[e Hx]|(a & b & m & Ha & Hp & Hv & Hx)]; [congruence|].
  destruct b; [|simpl in Hx; congruence].
  destruct Hx as [Hx|(ap & s & Hs & Hr & Ht & Hx)]; rewrite Hx in Hc; [done|].
  injection Hc as -> Hr'. simpl in Hr'. exists a, s, m.
  destruct (insert_votes_fresh _ _ _ Hv) as (Hnd & Hf & _).
  assert (slashes r' = <[ap_slash_id a := set_sr_reversed s]> (slashes r)) as Hsl by (by rewrite <- Hr').
  split_and!; try done.
  - intros Hm Hmax. destruct (threshold_exact m w Hm) as [? Hth]; [lia|done|exact Ht|]. split; [done|].
    apply Hth. pose proof (Z.mul_div_le u128_max 2). lia.
  - intros later j votes' w' a' Hl Ha' Hsid Hfin.
    assert (book_ok (Z.of_nat (length ops)) r') as Hok' by (pose proof (cast_ok _ r i votes w Hok) as Hk;
      by rewrite Hx, Hr' in Hk).
    pose proof (run_book_ok later (Z.of_nat (length ops)) r' ltac:(lia) Hok') as Hok2.
    destruct (run_slash_stays later (Z.of_nat (length ops)) r' (ap_slash_id a) (set_sr_reversed s) ltac:(lia) Hok')
      as (s2 & Hs2 & _ & _ & _ & Hrev2); [rewrite Hsl; apply lookup_insert_eq|].
    destruct (cast_cases _ (run_book r' later) j votes' w' Hok2)
      as [[e Hy]|(a2 & b & m2 & Ha2 & Hp2 & _ & Hy)]; [by rewrite Hy in Hfin|].
    rewrite Ha' in Ha2. injection Ha2 as <-.
    destruct (bo_appeal _ _ Hok2 j a' Ha') as (_ & _ & Hno). apply (Hno Hp2). rewrite Hsid. exists s2. auto.
Qed.
End BookLaws.

Module SampleBook.
Import Book BookLaws.

Definition node (n : Z) : AccountId := replicate 32 n.

Definition history : list BookOp :=
  [BoRecord (node 9) 500 SrEquivocation 10 1000; BoSubmit 1 [1] 20 4096 90 [];
   BoCast 1 [(node 1, true, 30, None)] 90].

Lemma slash_ids_restart_safe_witness :
  peek_next_slash_id (set_next_slash_id (run_book empty_appeals history) 0) = 2.
Proof.
  destruct (slash_ids_restart_safe history ltac:(vm_compute; reflexivity)) as (-> & _ & ->).
  vm_compute. reflexivity.
Defined.

Lemma appeal_approval_sound_witness :
  let r := run_book empty_appeals history in
  let r' := (cast_resolve_votes_batch 1 [(node 2, true, 30, None)] 90 r).2 in
  ∃ s, slashes r !! 1 = Some s ∧ sr_reversed s = false ∧ slashes r' = <[1 := set_sr_reversed s]> (slashes r).
Proof.
  destruct (appeal_approval_sound history 1 [(node 2, true, 30, None)] 90
    (cast_resolve_votes_batch 1 [(node 2, true, 30, None)] 90 (run_book empty_appeals history)).2)
    as (a & s & m & Ha & _ & Hs & Hr & Hsl & _).
  - vm_compute. reflexivity.
  - split; vm_compute; discriminate.
  - vm_compute. reflexivity.
  - assert (ap_slash_id a = 1) as Hid by (vm_compute in Ha; injection Ha as <-; reflexivity).
    rewrite Hid in *. exists s. auto.
Defined.
End SampleBook.
