(* ===== verification/Signatures.v ===== *)
(** * Signed statements

    Models [crates/boing-primitives/src]: [signature.rs] (transaction signatures
    and the acceptance policy), [consensus_vote.rs] and [equivocation.rs],
    [validator_registration.rs], and the ballots of slash appeals
    ([blobs_phase18.rs], [blobs_phase22.rs], [blobs_phase26.rs],
    [blobs_phase29.rs], [blobs_phase30.rs], [blobs_phase32.rs]).

    Ed25519 ([ed25519_dalek]), BLS ([blst]) and [bincode] are third-party code,
    the operations of the class [Crypto]. *)

From S2P Require Import Prelude Types Names SlashAppeals.

Class Crypto := {
  (** [VerifyingKey::from_bytes] succeeds. *)
  ed25519_key_ok : bytes → bool;
  (** [verify_strict] of a digest. *)
  ed25519_verify : bytes → bytes → bytes → bool;
  (** Parsing and validating the keys and the signature, and [fast_aggregate_verify]. *)
  bls_fast_aggregate_verify : list bytes → bytes → bytes → bool;
  bincode_payload : TransactionPayload → bytes;
  bincode_access_list : AccessList → bytes;
}.

Inductive SignatureError := InvalidPublicKey | InvalidSignature | LegacySignatureRejected.

(** [Signature::from_slice]. *)
Definition signature_from_slice (l : bytes) : option bytes :=
  if Nat.eqb (length l) 64 then Some l else None.

(** ** Transactions *)

Definition TX_SIGNING_DOMAIN_V2 : bytes := str_bytes "BOING_TX_V2".
Definition TX_SIGNING_DOMAIN_PRIORITY : bytes := str_bytes "BOING_TX_PRIORITY".

Section Signing.
Context `{Host} `{Crypto}.

(** [pk.verify_strict] under [VerifyingKey::from_bytes]. *)
Definition verify_digest (pk digest sig : bytes) : result () SignatureError :=
  if ed25519_key_ok pk then
    if ed25519_verify pk digest sig then Ok () else Err InvalidSignature
  else Err InvalidPublicKey.

Definition tx_body (tx : Transaction) : bytes :=
  le_bytes 8 (tx_nonce tx) ++ tx_sender tx ++ bincode_payload (tx_payload tx)
    ++ bincode_access_list (tx_access_list tx).

Definition signable_hash (tx : Transaction) : Hash := blake3 (tx_body tx).

(** What the digest with a tip is taken of. *)
Definition tipped_preimage (tx : Transaction) (chain_id tip : Z) : bytes :=
  if tip =? 0 then TX_SIGNING_DOMAIN_V2 ++ le_bytes 8 chain_id ++ tx_body tx
  else TX_SIGNING_DOMAIN_PRIORITY ++ le_bytes 8 chain_id ++ tx_body tx ++ le_bytes 16 tip.

Definition signable_transaction_hash_v2 (tx : Transaction) (chain_id : Z) : Hash :=
  blake3 (TX_SIGNING_DOMAIN_V2 ++ le_bytes 8 chain_id ++ tx_body tx).

Definition signable_transaction_hash_with_tip (tx : Transaction) (chain_id tip : Z) : Hash :=
  blake3 (tipped_preimage tx chain_id tip).

Record TxSigPolicy := mkTxSigPolicy { chain_id : option Z; require_v2 : bool }.

Definition verify_signature_with_tip (tx : Transaction) (sig : bytes) (sender : AccountId)
    (policy : TxSigPolicy) (tip : Z) : result () SignatureError :=
  if negb (ed25519_key_ok sender) then Err InvalidPublicKey
  else if match chain_id policy with
          | Some cid => ed25519_verify sender (signable_transaction_hash_with_tip tx cid tip) sig
          | None => false
          end
  then Ok ()
  else if 0 <? tip then Err InvalidSignature
  else if require_v2 policy then
    Err (if ed25519_verify sender (signable_hash tx) sig then LegacySignatureRejected
         else InvalidSignature)
  else if ed25519_verify sender (signable_hash tx) sig then Ok () else Err InvalidSignature.

(** [SignedTransaction::verify_with]. *)
Definition verify_with (s : SignedTransaction) (policy : TxSigPolicy) : result () SignatureError :=
  verify_signature_with_tip (st_tx s) (st_signature s) (tx_sender (st_tx s)) policy (st_priority_tip s).

(** The process-wide policy packed in one [u64]. *)
Definition VERIFY_REQUIRE_V2_BIT : Z := Z.shiftl 1 63.
Definition VERIFY_CHAIN_ID_MASK : Z := VERIFY_REQUIRE_V2_BIT - 1.

Definition pack_tx_verify_policy (p : TxSigPolicy) : Z :=
  let v := Z.land (default 0 (chain_id p)) VERIFY_CHAIN_ID_MASK in
  if require_v2 p then Z.lor v VERIFY_REQUIRE_V2_BIT else v.

Definition unpack_tx_verify_policy (v : Z) : TxSigPolicy :=
  let c := Z.land v VERIFY_CHAIN_ID_MASK in
  mkTxSigPolicy (if c =? 0 then None else Some c) (negb (Z.land v VERIFY_REQUIRE_V2_BIT =? 0)).

(** ** Consensus votes *)

(** ["boing.consensus.vote.v1"] and a zero byte. *)
Definition CONSENSUS_VOTE_DOMAIN : bytes := str_bytes "boing.consensus.vote.v1" ++ [0].

Definition consensus_vote_signable_hash (round : Z) (block_hash : Hash) : Hash :=
  blake3 (CONSENSUS_VOTE_DOMAIN ++ le_bytes 8 round ++ block_hash).

Definition vote_verify (v : ConsensusVote) : result () SignatureError :=
  verify_digest (cv_validator v) (consensus_vote_signable_hash (cv_round v) (cv_block_hash v))
    (cv_signature v).

Inductive EquivocationError :=
| ValidatorMismatch | RoundMismatch | SameBlock | BadSignature (e : SignatureError).

Definition try_from_votes (a b : ConsensusVote) : result EquivocationEvidence EquivocationError :=
  if negb (bool_decide (cv_validator a = cv_validator b)) then Err ValidatorMismatch
  else if negb (cv_round a =? cv_round b) then Err RoundMismatch
  else if bool_decide (cv_block_hash a = cv_block_hash b) then Err SameBlock
  else match vote_verify a with
  | Err e => Err (BadSignature e)
  | Ok _ =>
      match vote_verify b with
      | Err e => Err (BadSignature e)
      | Ok _ => Ok (mkEquivocationEvidence a b)
      end
  end.

Definition evidence_verify (e : EquivocationEvidence) : result () EquivocationError :=
  match try_from_votes (vote_a e) (vote_b e) with Ok _ => Ok () | Err x => Err x end.

Definition evidence_validator (e : EquivocationEvidence) : AccountId := cv_validator (vote_a e).
Definition evidence_round (e : EquivocationEvidence) : Z := cv_round (vote_a e).

(** ** Validator registration *)

Definition VALIDATOR_REGISTRATION_DOMAIN : bytes := str_bytes "BOING_OPEN_VALIDATOR_REGISTER_V1".
Definition VALIDATOR_REGISTRATION_DOMAIN_V2 : bytes := str_bytes "BOING_OPEN_VALIDATOR_REGISTER_V2".

Definition validator_registration_message (owner node_id : AccountId) : Hash :=
  blake3 (VALIDATOR_REGISTRATION_DOMAIN ++ owner ++ node_id).

Definition validator_registration_message_v2 (owner node_id : AccountId) (cid : Z) : Hash :=
  blake3 (VALIDATOR_REGISTRATION_DOMAIN_V2 ++ le_bytes 8 cid ++ owner ++ node_id).

Definition verify_msg (node_id sig msg : bytes) : bool :=
  Nat.eqb (length sig) 64 && ed25519_key_ok node_id && ed25519_verify node_id msg sig.

Definition verify_validator_registration (owner node_id : AccountId) (sig : bytes) : bool :=
  verify_msg node_id sig (validator_registration_message owner node_id).

Definition verify_validator_registration_v2 (owner node_id : AccountId) (sig : bytes) (cid : Z)
    : bool :=
  verify_msg node_id sig (validator_registration_message_v2 owner node_id cid).

(** ** Ballots of slash appeals *)

Definition SLASH_APPEAL_RESOLVE_BALLOT_DOMAIN : bytes :=
  str_bytes "BOING_SLASH_APPEAL_RESOLVE_BALLOT_V1".
Definition SLASH_APPEAL_RESOLVE_BALLOT_DOMAIN_V2 : bytes :=
  str_bytes "BOING_SLASH_APPEAL_RESOLVE_BALLOT_V2".

(** [u8::from(approved)]. *)
Definition bool_byte (b : bool) : Z := if b then 1 else 0.

Definition ballot_fields (cid appeal_id slash_id : Z) (approved : bool) : bytes :=
  le_bytes 8 cid ++ le_bytes 8 appeal_id ++ le_bytes 8 slash_id ++ [bool_byte approved].

Definition slash_appeal_resolve_ballot_preimage (cid appeal_id slash_id : Z) (approved : bool)
    (voter : AccountId) : Hash :=
  blake3 (SLASH_APPEAL_RESOLVE_BALLOT_DOMAIN ++ ballot_fields cid appeal_id slash_id approved ++ voter).

Definition slash_appeal_resolve_ballot_preimage_v2 (cid appeal_id slash_id : Z) (approved : bool)
    (voter : AccountId) (pin_set_commitment : bytes) : Hash :=
  blake3 (SLASH_APPEAL_RESOLVE_BALLOT_DOMAIN_V2 ++ ballot_fields cid appeal_id slash_id approved
            ++ voter ++ pin_set_commitment).

Definition verify_slash_appeal_resolve_ballot (cid appeal_id slash_id : Z) (approved : bool)
    (voter : AccountId) (sig : bytes) : result () SignatureError :=
  verify_digest voter (slash_appeal_resolve_ballot_preimage cid appeal_id slash_id approved voter) sig.

Definition verify_slash_appeal_resolve_ballot_v2 (cid appeal_id slash_id : Z) (approved : bool)
    (voter : AccountId) (pin_set_commitment sig : bytes) : result () SignatureError :=
  verify_digest voter
    (slash_appeal_resolve_ballot_preimage_v2 cid appeal_id slash_id approved voter pin_set_commitment)
    sig.

Definition phase22_is_legacy_pin_commitment (c : bytes) : bool :=
  bool_decide (c = PHASE20_LEGACY_PIN_SET_COMMITMENT).

Inductive SlashAppealBallotDomain := BallotV1 | BallotV2.

Definition verify_slash_appeal_resolve_ballot_dual (cid appeal_id slash_id : Z) (approved : bool)
    (voter : AccountId) (pin_set_commitment sig : bytes)
    : result SlashAppealBallotDomain SignatureError :=
  let v1 := match verify_slash_appeal_resolve_ballot cid appeal_id slash_id approved voter sig with
            | Ok _ => Ok BallotV1 | Err e => Err e end in
  if phase22_is_legacy_pin_commitment pin_set_commitment then v1
  else match verify_slash_appeal_resolve_ballot_v2 cid appeal_id slash_id approved voter
               pin_set_commitment sig with
  | Ok _ => Ok BallotV2
  | Err _ => v1
  end.

(** ** BLS aggregates *)

Definition PHASE26_BLS_AGGREGATE_BALLOT_DOMAIN : bytes := str_bytes "BOING_SLASH_APPEAL_BLS_AGG_V1".
Definition PHASE29_MAX_PIN_SET_LEN : nat := 64.

Record DualKeyIdentity := mkDualKey { account_id : AccountId; bls_pubkey : bytes }.

Definition phase26_bls_aggregate_ballot_preimage (cid appeal_id slash_id : Z) (approved : bool)
    (pin_set_commitment : bytes) : Hash :=
  blake3 (PHASE26_BLS_AGGREGATE_BALLOT_DOMAIN ++ ballot_fields cid appeal_id slash_id approved
            ++ pin_set_commitment).

(** Nonempty and without repeated accounts; the key length is its type's. *)
Definition phase26_validate_dual_key_set (ids : list DualKeyIdentity) : bool :=
  negb (bool_decide (ids = [])) && bool_decide (NoDup (account_id <$> ids)).

Definition phase27_verify_bls_aggregate (message sig : bytes) (ids : list DualKeyIdentity) : bool :=
  phase26_validate_dual_key_set ids && bls_fast_aggregate_verify (bls_pubkey <$> ids) message sig.

(** The set bits of the bitset, ascending. *)
Definition bit_indices (bitset : bytes) : list nat :=
  concat (imap (λ i byte, (λ k, i * 8 + k)%nat <$>
    filter (λ k, Z.testbit byte (Z.of_nat k) = true) (seq 0 8)) bitset).

Definition phase29_decode_signer_bitset (pinned : list AccountId) (bitset : bytes)
    : option (list AccountId) :=
  if bool_decide (pinned = []) then None
  else if (PHASE29_MAX_PIN_SET_LEN <? length pinned)%nat then None
  else if div_ceil (Z.of_nat (length pinned)) 8 <? Z.of_nat (length bitset) then None
  else
    out ← mapM (λ i, pinned !! i) (bit_indices bitset);
    if bool_decide (out = []) then None else Some out.

Definition phase29_verify_aggregate_resolve (cid slash_id : Z) (pin_set_commitment : bytes)
    (pinned : list AccountId) (appeal_id : Z) (approved : bool) (bitset sig : bytes)
    (ids : list DualKeyIdentity) : bool :=
  match phase29_decode_signer_bitset pinned bitset with
  | None => false
  | Some signers =>
      bool_decide ((account_id <$> ids) = signers) && phase26_validate_dual_key_set ids &&
      phase27_verify_bls_aggregate
        (phase26_bls_aggregate_ballot_preimage cid appeal_id slash_id approved pin_set_commitment) sig ids
  end.

Definition phase30_identities_from_self_contained (pinned : list AccountId) (bitset : bytes)
    (pubkeys : list bytes) : option (list DualKeyIdentity) :=
  signers ← phase29_decode_signer_bitset pinned bitset;
  if negb (Nat.eqb (length pubkeys) (length signers)) then None
  else
    let ids := zip_with mkDualKey signers pubkeys in
    if phase26_validate_dual_key_set ids then Some ids else None.

Definition phase30_verify_aggregate_resolve_self_contained (cid slash_id : Z)
    (pin_set_commitment : bytes) (pinned : list AccountId) (appeal_id : Z) (approved : bool)
    (bitset sig : bytes) (pubkeys : list bytes) : bool :=
  match phase30_identities_from_self_contained pinned bitset pubkeys with
  | None => false
  | Some ids =>
      phase29_verify_aggregate_resolve cid slash_id pin_set_commitment pinned appeal_id approved
        bitset sig ids
  end.

End Signing.

Definition phase32_bls_committee_flip_active (height : Z) (flip_from : option Z) : bool :=
  match flip_from with Some h => h <=? height | None => false end.

Definition phase32_committee_requires_attested (pinned_len : nat) (height : Z)
    (flip_from : option Z) : bool :=
  if phase32_bls_committee_flip_active height flip_from then false else (1 <? pinned_len)%nat.

Definition phase32_committee_requires_bls_aggregate (pinned_len : nat) (height : Z)
    (flip_from : option Z) : bool :=
  phase32_bls_committee_flip_active height flip_from && (1 <? pinned_len)%nat.

(** ** What a signature binds *)

Module SigningLaws.

Lemma le_bytes_inj n a b :
  0 ≤ a < 256 ^ Z.of_nat n → 0 ≤ b < 256 ^ Z.of_nat n → le_bytes n a = le_bytes n b → a = b.
Proof.
  intros Ha Hb He. apply (f_equal le_val) in He. rewrite !le_val_le_bytes in He.
  by rewrite !Z.mod_small in He.
Qed.

(** The first field of a record of fixed-width fields. *)
Lemma le_bytes_app_inj n a b l k :
  0 ≤ a < 256 ^ Z.of_nat n → 0 ≤ b < 256 ^ Z.of_nat n →
  le_bytes n a ++ l = le_bytes n b ++ k → a = b ∧ l = k.
Proof.
  intros Ha Hb He. apply app_inj_1 in He as [He ->]; [|by rewrite !length_le_bytes].
  split; [by apply (le_bytes_inj n)|done].
Qed.

Section Laws.
Context `{Host} `{Crypto}.

(** A transaction whose fields are in the range of their types. *)
Definition tx_typed (tx : Transaction) : Prop := in_u64 (tx_nonce tx) ∧ is_word (tx_sender tx).

Lemma u64_range z : in_u64 z → 0 ≤ z < 256 ^ Z.of_nat 8.
Proof. unfold in_u64, u64_max. simpl. lia. Qed.

Lemma u128_range z : in_u128 z → 0 ≤ z < 256 ^ Z.of_nat 16.
Proof. unfold in_u128, u128_max. simpl. lia. Qed.

Lemma tx_body_inj tx tx' rest rest' :
  tx_typed tx → tx_typed tx' → tx_body tx ++ rest = tx_body tx' ++ rest' →
  tx_nonce tx = tx_nonce tx' ∧ tx_sender tx = tx_sender tx' ∧
  (bincode_payload (tx_payload tx) ++ bincode_access_list (tx_access_list tx)) ++ rest =
  (bincode_payload (tx_payload tx') ++ bincode_access_list (tx_access_list tx')) ++ rest'.
Proof.
  intros [Hn [Hl _]] [Hn' [Hl' _]]. unfold tx_body. rewrite <- !app_assoc.
  intros [-> He]%le_bytes_app_inj; [|by apply u64_range..].
  apply app_inj_1 in He as [-> He]; [|congruence]. done.
Qed.

(** The digest binds chain, tip and transaction: equal preimages agree on all of
    them (on the payload and access list up to their encoding). *)
Lemma tipped_preimage_inj tx tx' c c' tip tip' :
  tx_typed tx → tx_typed tx' → in_u64 c → in_u64 c' → in_u128 tip → in_u128 tip' →
  tipped_preimage tx c tip = tipped_preimage tx' c' tip' →
  c = c' ∧ tip = tip' ∧ tx_nonce tx = tx_nonce tx' ∧ tx_sender tx = tx_sender tx' ∧
  bincode_payload (tx_payload tx) ++ bincode_access_list (tx_access_list tx) =
  bincode_payload (tx_payload tx') ++ bincode_access_list (tx_access_list tx').
Proof.
  intros Ht Ht' Hc%u64_range Hc'%u64_range Htip Htip' He. unfold tipped_preimage in He.
  destruct (Z.eqb_spec tip 0) as [->|Hz], (Z.eqb_spec tip' 0) as [->|Hz']; [|done|done|].
  - apply app_inv_head, le_bytes_app_inj in He as [-> He]; [|done..].
    rewrite <- (app_nil_r (tx_body tx)), <- (app_nil_r (tx_body tx')) in He.
    apply tx_body_inj in He as (-> & -> & He); [|done..]. by rewrite !app_nil_r in He.
  - apply app_inv_head, le_bytes_app_inj in He as [-> He]; [|done..].
    apply tx_body_inj in He as (-> & -> & He); [|done..].
    apply app_inj_2 in He as [-> He]; [|by rewrite !length_le_bytes].
    apply le_bytes_inj in He; [done|by apply u128_range..].
Qed.

Lemma verify_v2_digest s c :
  verify_with s (mkTxSigPolicy (Some c) true) = Ok () →
  ed25519_verify (tx_sender (st_tx s))
    (blake3 (tipped_preimage (st_tx s) c (st_priority_tip s))) (st_signature s) = true.
Proof.
  unfold verify_with, verify_signature_with_tip. simpl.
  destruct (ed25519_key_ok _); simpl; [|done].
  unfold signable_transaction_hash_with_tip. case_match; [done|]. by case_match.
Qed.

(** C28: no replay. When a node that requires chain-bound signatures accepts a
    signed transaction, the Ed25519 signature is over a digest whose preimage
    determines the chain, the tip, the nonce, the sender and the encoding of
    payload and access list. So one signature accepted for two transactions that
    differ in any of them (the sender included) verifies, under the key of each
    sender, the digests of two different byte strings: a hash collision or a
    broken signature scheme. *)
Theorem signature_binds_chain_and_tip s s' c c' :
  tx_typed (st_tx s) → tx_typed (st_tx s') → in_u64 c → in_u64 c' →
  in_u128 (st_priority_tip s) → in_u128 (st_priority_tip s') →
  verify_with s (mkTxSigPolicy (Some c) true) = Ok () →
  verify_with s' (mkTxSigPolicy (Some c') true) = Ok () →
  st_signature s = st_signature s' →
  c ≠ c' ∨ st_priority_tip s ≠ st_priority_tip s' ∨ tx_nonce (st_tx s) ≠ tx_nonce (st_tx s') ∨
    tx_sender (st_tx s) ≠ tx_sender (st_tx s') ∨
    bincode_payload (tx_payload (st_tx s)) ++ bincode_access_list (tx_access_list (st_tx s)) ≠
    bincode_payload (tx_payload (st_tx s')) ++ bincode_access_list (tx_access_list (st_tx s')) →
  let p := tipped_preimage (st_tx s) c (st_priority_tip s) in
  let p' := tipped_preimage (st_tx s') c' (st_priority_tip s') in
  p ≠ p' ∧ ed25519_verify (tx_sender (st_tx s)) (blake3 p) (st_signature s) = true ∧
    ed25519_verify (tx_sender (st_tx s')) (blake3 p') (st_signature s) = true.
Proof.
  intros Ht Ht' Hc Hc' Htip Htip' Hv%verify_v2_digest Hv'%verify_v2_digest Hsig Hdiff.
  intros p p'. split; [|split; [exact Hv|rewrite Hsig; exact Hv']].
  intros He%tipped_preimage_inj; [|done..]. destruct He as (? & ? & ? & ? & ?). naive_solver.
Qed.

End Laws.

(** ** The packed policy *)

Lemma land_mask v : 0 ≤ v → Z.land v VERIFY_CHAIN_ID_MASK = v `mod` 2 ^ 63.
Proof. intros. change VERIFY_CHAIN_ID_MASK with (Z.ones 63). by apply Z.land_ones. Qed.

Lemma land_flag v : 0 ≤ v < 2 ^ 63 → Z.land v VERIFY_REQUIRE_V2_BIT = 0.
Proof.
  intros Hv. apply Z.bits_inj_iff'. intros i Hi. rewrite Z.land_spec, Z.bits_0.
  change VERIFY_REQUIRE_V2_BIT with (2 ^ 63). destruct (decide (i = 63)) as [->|Hne].
  - rewrite Z.bits_above_log2; [done|lia|]. destruct (decide (v = 0)) as [->|]; [simpl; lia|].
    apply Z.log2_lt_pow2; lia.
  - rewrite (Z.pow2_bits_false 63 i) by lia. apply andb_false_r.
Qed.

(** The policy survives its packing into one atomic word: every policy whose
    chain id is a non-zero 63-bit number (or absent) is read back as written. *)
Theorem policy_pack_roundtrip p :
  match chain_id p with Some c => 0 < c < 2 ^ 63 | None => True end →
  unpack_tx_verify_policy (pack_tx_verify_policy p) = p.
Proof.
  intros Hc. destruct p as [cid req]. simpl in *. unfold unpack_tx_verify_policy, pack_tx_verify_policy. simpl.
  set (d := default 0 cid). assert (0 ≤ d < 2 ^ 63) as Hd. { unfold d. destruct cid; simpl; lia. }
  rewrite (land_mask d), Z.mod_small by lia.
  assert (Z.land (if req then Z.lor d VERIFY_REQUIRE_V2_BIT else d) VERIFY_CHAIN_ID_MASK = d ∧
          negb (Z.land (if req then Z.lor d VERIFY_REQUIRE_V2_BIT else d) VERIFY_REQUIRE_V2_BIT =? 0) = req)
    as [-> ->].
  { destruct req.
    - rewrite !Z.land_lor_distr_l, land_mask, Z.mod_small, land_flag by lia. by rewrite Z.lor_0_r.
    - by rewrite land_mask, Z.mod_small, land_flag by lia. }
  f_equal. unfold d in *. destruct cid as [c|]; simpl in *; [|done]. by destruct (Z.eqb_spec c 0); [lia|].
Qed.

End SigningLaws.

Module SampleSigs.

Import SigningLaws.
#[local] Existing Instance sample_host.

(** Accepts every signature: only to show that the hypotheses can hold. *)
#[local] Instance open_crypto : Crypto := {|
  ed25519_key_ok _ := true;
  ed25519_verify _ _ _ := true;
  bls_fast_aggregate_verify _ _ _ := true;
  bincode_payload _ := [0];
  bincode_access_list _ := [];
|}.

Definition signed (tip : Z) : SignedTransaction :=
  mkSignedTransaction (mkTransaction 4 (replicate 32 9) ClaimUnbond (mkAccessList [] [])) (replicate 64 1) tip.

Lemma signature_binds_chain_and_tip_witness :
  verify_with (signed 0) (mkTxSigPolicy (Some 6913) true) = Ok () ∧
  tipped_preimage (st_tx (signed 0)) 6913 0 ≠ tipped_preimage (st_tx (signed 5)) 6914 5.
Proof.
  split; [reflexivity|].
  apply (signature_binds_chain_and_tip (signed 0) (signed 5) 6913 6914); try reflexivity; try done.
  - split; [done|]. apply word_ok_spec. reflexivity.
  - split; [done|]. apply word_ok_spec. reflexivity.
  - by left.
Defined.

Lemma policy_pack_roundtrip_witness :
  unpack_tx_verify_policy (pack_tx_verify_policy (mkTxSigPolicy (Some 6914) true))
  = mkTxSigPolicy (Some 6914) true.
Proof. apply policy_pack_roundtrip. simpl. lia. Defined.

End SampleSigs.
