(* ===== verification/OpenValidators.v ===== *)
(** * The open validator registry

    Models [crates/boing-state/src/open_validators.rs]: permissionless
    registration with a bond, the epoch transition that picks the open part of the
    consensus set, and liveness jailing. The [VecDeque] of liveness entries is a
    list, oldest first. *)

From S2P Require Import Prelude Types.

Record OpenValidatorParams := mkOvParams {
  ov_activation_height : Z;
  ov_anchors : list AccountId;
  ov_bond : Z;
  deregister_delay : Z;
  epoch_len : Z;
  max_open_validators : Z;
  liveness_window : Z;
  miss_threshold_bps : Z;
  min_liveness_samples : Z;
  jail_cooldown : Z;
}.

Definition is_anchor_param (p : OpenValidatorParams) (id : AccountId) : bool :=
  bool_decide (id ∈ ov_anchors p).

Inductive ValidatorStatus := VPending | VActive | VJailed (until : Z) | VExiting.

#[global] Instance ValidatorStatus_eq_dec : EqDecision ValidatorStatus.
Proof. solve_decision. Defined.

Record ValidatorRecord := mkValidatorRecord {
  vr_owner : AccountId;
  vr_bond : Z;
  vr_registered_at : Z;
  vr_status : ValidatorStatus;
  vr_jail_count : Z;
}.

Record LivenessEntry := mkLiveness {
  le_height : Z;
  le_expected : AccountId;
  le_proposer : AccountId;
}.

Inductive OpenValidatorError :=
| OvDisabled
| OvNotYetActive (activation_height : Z)
| OvInvalidNodeSignature
| OvAlreadyRegistered
| OvOwnerAlreadyRegistered
| OvAnchorNotRegistrable
| OvNotRegistered
| OvNotOwner
| OvAlreadyExiting
| OvNotJailed
| OvJailCooldown (until : Z)
| OvRegistryFull (max : Z).

Record LivenessStats := mkStats {
  scheduled : Z;
  missed : Z;
}.

Record JailSnapshot := mkJailSnapshot {
  jailed_at : Z;
  js_scheduled : Z;
  js_missed : Z;
}.

Record OpenValidatorRegistry := mkOvRegistry {
  activated_at : option Z;
  records : gmap AccountId ValidatorRecord;
  active : list AccountId;
  liveness : list LivenessEntry;
  last_jail : gmap AccountId JailSnapshot;
}.

Definition empty_open_validators : OpenValidatorRegistry := mkOvRegistry None ∅ [] [] ∅.

Definition set_records (r : OpenValidatorRegistry) (m : gmap AccountId ValidatorRecord)
    : OpenValidatorRegistry :=
  mkOvRegistry (activated_at r) m (active r) (liveness r) (last_jail r).
Definition set_liveness (r : OpenValidatorRegistry) (l : list LivenessEntry) : OpenValidatorRegistry :=
  mkOvRegistry (activated_at r) (records r) (active r) l (last_jail r).
Definition set_status (rec : ValidatorRecord) (s : ValidatorStatus) : ValidatorRecord :=
  mkValidatorRecord (vr_owner rec) (vr_bond rec) (vr_registered_at rec) s (vr_jail_count rec).

Definition word_le (a b : AccountId) : Prop := Is_true (bytes_leb a b).

#[global] Instance word_le_dec : RelDecision word_le.
Proof. intros a b. unfold word_le. apply _. Defined.

(** The order of [(registered_at, id)] pairs. *)
Definition seniority_le (a b : Z * AccountId) : Prop :=
  a.1 < b.1 ∨ (a.1 = b.1 ∧ word_le a.2 b.2).

#[global] Instance seniority_le_dec : RelDecision seniority_le.
Proof. intros a b. unfold seniority_le. apply _. Defined.

Module OpenReg.

Notation M := (ST OpenValidatorRegistry OpenValidatorError).

(** [is_empty]. *)
Definition ov_is_empty (r : OpenValidatorRegistry) : bool :=
  bool_decide (activated_at r = None) && bool_decide (records r = ∅)
  && Nat.eqb (length (liveness r)) 0.

(** [dedup] of a sorted list: consecutive duplicates. *)
Fixpoint dedup_sorted (l : list AccountId) : list AccountId :=
  match l with
  | a :: ((b :: _) as r) => if bool_decide (a = b) then dedup_sorted r else a :: dedup_sorted r
  | _ => l
  end.

Definition consensus_set (p : OpenValidatorParams) (r : OpenValidatorRegistry)
    : option (list AccountId) :=
  match activated_at r with
  | None => None
  | Some _ =>
      let set := foldl (λ set id, if bool_decide (id ∈ set) then set else set ++ [id])
                   (ov_anchors p) (active r) in
      Some (dedup_sorted (merge_sort word_le set))
  end.

Definition max_records (p : OpenValidatorParams) : Z :=
  Z.max (sat_mul u64_max (max_open_validators p) 4) 16.

Definition register_with_cap (p : OpenValidatorParams) (height : Z) (owner node_id : AccountId)
    (capped : bool) : M () :=
  if height <? ov_activation_height p then st_fail (OvNotYetActive (ov_activation_height p))
  else if is_anchor_param p node_id then st_fail OvAnchorNotRegistrable
  else
    r ← st_get;
    if bool_decide (is_Some (records r !! node_id)) then st_fail OvAlreadyRegistered
    else if existsb (λ e, bool_decide (vr_owner e.2 = owner)) (map_to_list (records r))
    then st_fail OvOwnerAlreadyRegistered
    else if capped && (max_records p <=? Z.of_nat (size (records r)))
    then st_fail (OvRegistryFull (max_records p))
    else st_put (set_records r (<[node_id := mkValidatorRecord owner (ov_bond p) height VPending 0]>
                                  (records r))).

Definition deregister_at (owner node_id : AccountId) (height : Z) (jail_locks_bond : bool) : M Z :=
  r ← st_get;
  rec ← st_some (records r !! node_id) OvNotRegistered;
  if negb (bool_decide (vr_owner rec = owner)) then st_fail OvNotOwner
  else
    let bond := vr_bond rec in
    let remove := _ ← st_put (set_records r (delete node_id (records r))); mret bond in
    match vr_status rec with
    | VExiting => st_fail OvAlreadyExiting
    | VJailed until =>
        if jail_locks_bond && (height <? until) then st_fail (OvJailCooldown until) else remove
    | VActive =>
        _ ← st_put (set_records r (<[node_id :=
               mkValidatorRecord (vr_owner rec) 0 (vr_registered_at rec) VExiting (vr_jail_count rec)]>
               (records r)));
        mret bond
    | VPending => remove
    end.

Definition unjail (owner node_id : AccountId) (height : Z) : M () :=
  r ← st_get;
  rec ← st_some (records r !! node_id) OvNotRegistered;
  if negb (bool_decide (vr_owner rec = owner)) then st_fail OvNotOwner
  else
    match vr_status rec with
    | VJailed until =>
        if until <=? height then st_put (set_records r (<[node_id := set_status rec VPending]> (records r)))
        else st_fail (OvJailCooldown until)
    | _ => st_fail OvNotJailed
    end.

Definition stats (r : OpenValidatorRegistry) (id : AccountId) : LivenessStats :=
  let mine := filter (λ e, le_expected e = id) (liveness r) in
  mkStats (Z.of_nat (length mine)) (Z.of_nat (length (filter (λ e, le_proposer e ≠ id) mine))).

(** The test of the first loop of [epoch_transition]. *)
Definition misses_too_much (p : OpenValidatorParams) (s : LivenessStats) : bool :=
  (Z.max (min_liveness_samples p) 1 <=? scheduled s)
  && (miss_threshold_bps p * scheduled s <? missed s * 10000).

(** The body of the second loop. *)
Definition jail (p : OpenValidatorParams) (height : Z) (r : OpenValidatorRegistry) (id : AccountId)
    : OpenValidatorRegistry :=
  let s := stats r id in
  let recs := alter (λ rec,
      if decide (vr_status rec = VActive) then
        mkValidatorRecord (vr_owner rec) (vr_bond rec) (vr_registered_at rec)
          (VJailed (sat_add u64_max height (jail_cooldown p))) (sat_add 4294967295 (vr_jail_count rec) 1)
      else rec) id (records r) in
  mkOvRegistry (activated_at r) recs (active r) (filter (λ e, le_expected e ≠ id) (liveness r))
    (<[id := mkJailSnapshot height (scheduled s) (missed s)]> (last_jail r)).

Definition electable (s : ValidatorStatus) : bool :=
  match s with VPending | VActive => true | _ => false end.

Definition elect (chosen : list AccountId) (id : AccountId) (rec : ValidatorRecord) : ValidatorRecord :=
  if electable (vr_status rec)
  then set_status rec (if bool_decide (id ∈ chosen) then VActive else VPending)
  else rec.

Definition chosen_ids (p : OpenValidatorParams) (recs : gmap AccountId ValidatorRecord)
    : list AccountId :=
  let eligible := merge_sort seniority_le
    ((λ e, (vr_registered_at e.2, e.1)) <$>
       filter (λ e, electable (vr_status e.2) = true) (map_to_list recs)) in
  (take (Z.to_nat (max_open_validators p)) eligible).*2.

Definition epoch_transition (p : OpenValidatorParams) (height : Z) (r : OpenValidatorRegistry)
    : OpenValidatorRegistry :=
  let jailed := filter (λ id, misses_too_much p (stats r id) = true) (active r) in
  let r := foldl (jail p height) r jailed in
  let recs := filter (λ e, vr_status e.2 ≠ VExiting) (records r) in
  let lj := filter (λ e, is_Some (recs !! e.1)) (last_jail r) in
  let chosen := chosen_ids p recs in
  mkOvRegistry (activated_at r) (map_imap (λ id rec, Some (elect chosen id rec)) recs)
    (merge_sort word_le chosen) (liveness r) lj.

(** The liveness entry of one block, in the bounded window. *)
Definition record_block (p : OpenValidatorParams) (height : Z) (proposer : AccountId)
    (r : OpenValidatorRegistry) : OpenValidatorRegistry :=
  match consensus_set p r with
  | None | Some [] => r
  | Some set =>
      let expected := default [] (set !! Z.to_nat (height `mod` Z.of_nat (length set))) in
      let l := liveness r ++ [mkLiveness height expected proposer] in
      set_liveness r (drop (length l - Z.to_nat (Z.max (liveness_window p) 1)) l)
  end.

Definition on_block (p : OpenValidatorParams) (height : Z) (proposer : AccountId)
    (r : OpenValidatorRegistry) : OpenValidatorRegistry :=
  if (height <? ov_activation_height p) || (epoch_len p =? 0) then r
  else
    let r := record_block p height proposer r in
    if height `mod` epoch_len p =? 0 then
      let r := mkOvRegistry (Some (default height (activated_at r))) (records r) (active r)
                 (liveness r) (last_jail r) in
      epoch_transition p height r
    else r.

End OpenReg.

(** ** The registry's invariant *)

(** A call of the VM or the end-of-block hook. The configured bond is scaled by
    the VM before a registration, so it is an argument. *)
Inductive OvOp :=
| OvRegister (bond : Z) (owner node_id : AccountId) (capped : bool)
| OvDeregister (owner node_id : AccountId) (jail_locks_bond : bool)
| OvUnjail (owner node_id : AccountId)
| OvBlock (proposer : AccountId).

Module OpenLaws.
Import OpenReg.
Section Laws.
Context (p : OpenValidatorParams).

Definition with_bond (bond : Z) : OpenValidatorParams :=
  mkOvParams (ov_activation_height p) (ov_anchors p) bond (deregister_delay p) (epoch_len p)
    (max_open_validators p) (liveness_window p) (miss_threshold_bps p) (min_liveness_samples p)
    (jail_cooldown p).

Definition apply_ov_op (height : Z) (op : OvOp) (r : OpenValidatorRegistry) : OpenValidatorRegistry :=
  match op with
  | OvRegister b o n c => (register_with_cap (with_bond b) height o n c r).2
  | OvDeregister o n j => (deregister_at o n height j r).2
  | OvUnjail o n => (unjail o n height r).2
  | OvBlock a => on_block p height a r
  end.

Definition run_ov (r : OpenValidatorRegistry) (ops : list (Z * OvOp)) : OpenValidatorRegistry :=
  foldl (λ r e, apply_ov_op e.1 e.2 r) r ops.

Definition in_set (s : ValidatorStatus) : bool :=
  match s with VActive | VExiting => true | _ => false end.

Record ov_ok (r : OpenValidatorRegistry) : Prop := {
  ov_sorted : StronglySorted word_le (active r);
  ov_nodup : NoDup (active r);
  ov_active : ∀ id, id ∈ active r ↔ ∃ rec, records r !! id = Some rec ∧ in_set (vr_status rec) = true;
  ov_cap : (length (active r) ≤ Z.to_nat (max_open_validators p))%nat;
  ov_owner : ∀ a b ra rb, records r !! a = Some ra → records r !! b = Some rb →
    vr_owner ra = vr_owner rb → a = b;
  ov_no_anchor : ∀ a, is_Some (records r !! a) → a ∉ ov_anchors p;
  ov_exit : ∀ a rec, records r !! a = Some rec → vr_status rec = VExiting → vr_bond rec = 0;
  ov_window : (length (liveness r) ≤ Z.to_nat (Z.max (liveness_window p) 1))%nat;
}.

Lemma empty_ov_ok : ov_ok empty_open_validators.
Proof.
  constructor; simpl.
  - constructor.
  - constructor.
  - intros id. split; [by intros ?%elem_of_nil|]. intros (rec & Hr & _). done.
  - lia.
  - done.
  - by intros a [? ?].
  - done.
  - lia.
Qed.

#[global] Instance word_le_total : Total word_le.
Proof. intros a b. unfold word_le. destruct (bytes_leb_total a b) as [-> | ->]; simpl; auto. Qed.

#[global] Instance word_le_trans : Transitive word_le.
Proof.
  intros a b c. unfold word_le. rewrite !Is_true_true. apply bytes_leb_trans.
Qed.

#[global] Instance word_le_antisym : AntiSymm (=) word_le.
Proof. intros a b. unfold word_le. rewrite !Is_true_true. apply bytes_leb_antisym. Qed.

(** ** The epoch transition *)

(** Jailing changes only the status and the jail count, from [VActive]. *)
Definition jailed_from (rec rec' : ValidatorRecord) : Prop :=
  vr_owner rec' = vr_owner rec ∧ vr_bond rec' = vr_bond rec ∧
  vr_registered_at rec' = vr_registered_at rec ∧
  (vr_status rec' = vr_status rec ∨ (vr_status rec = VActive ∧ ∃ u, vr_status rec' = VJailed u)).

Lemma jail_lookup height r id a :
  records (jail p height r id) !! a = None ↔ records r !! a = None.
Proof.
  simpl. destruct (decide (a = id)) as [->|Hne].
  - rewrite lookup_alter_eq. by destruct (records r !! id).
  - by rewrite lookup_alter_ne.
Qed.

Lemma jail_from height r id a rec :
  records r !! a = Some rec → ∃ rec', records (jail p height r id) !! a = Some rec' ∧ jailed_from rec rec'.
Proof.
  intros Ha. simpl. destruct (decide (a = id)) as [->|Hne].
  - rewrite lookup_alter_eq, Ha. simpl. eexists; split; [done|]. unfold jailed_from.
    case_decide; simpl; eauto 10.
  - rewrite lookup_alter_ne, Ha by done. exists rec. unfold jailed_from. auto 10.
Qed.

Lemma jailed_from_trans a b c : jailed_from a b → jailed_from b c → jailed_from a c.
Proof.
  unfold jailed_from. intros (Ho & Hb & Hr & Hs) (Ho' & Hb' & Hr' & Hs'). split_and!; try congruence.
  destruct Hs as [Hs|[Hs (u & Hu)]], Hs' as [Hs'|[Hs' (u' & Hu')]].
  - left. congruence.
  - right. split; [congruence|eauto].
  - right. split; [done|]. exists u. congruence.
  - congruence.
Qed.

Lemma jail_all height l r :
  active (foldl (jail p height) r l) = active r ∧
  (∀ a, records (foldl (jail p height) r l) !! a = None ↔ records r !! a = None) ∧
  (∀ a rec, records r !! a = Some rec →
     ∃ rec', records (foldl (jail p height) r l) !! a = Some rec' ∧ jailed_from rec rec') ∧
  (length (liveness (foldl (jail p height) r l)) ≤ length (liveness r))%nat ∧
  map_sum vr_bond (records (foldl (jail p height) r l)) = map_sum vr_bond (records r) ∧
  activated_at (foldl (jail p height) r l) = activated_at r.
Proof.
  revert r. induction l as [|id l IH]; intros r; simpl.
  { split_and!; try done. intros a rec Ha. exists rec. unfold jailed_from. auto 10. }
  destruct (IH (jail p height r id)) as (Hact & Hnone & Hfrom & Hlen & Hsum & Hat). split_and!.
  - done.
  - intros a. rewrite Hnone. apply jail_lookup.
  - intros a rec Ha. destruct (jail_from height r id a rec Ha) as (rec1 & H1 & Hj1).
    destruct (Hfrom a rec1 H1) as (rec2 & H2 & Hj2). exists rec2. eauto using jailed_from_trans.
  - etransitivity; [exact Hlen|]. simpl. apply length_filter.
  - rewrite Hsum. simpl. rewrite map_sum_alter. destruct (records r !! id) as [rec|]; simpl; [|lia].
    case_decide; simpl; lia.
  - done.
Qed.

Lemma elem_of_chosen recs id :
  id ∈ chosen_ids p recs → ∃ rec, recs !! id = Some rec ∧ electable (vr_status rec) = true.
Proof.
  unfold chosen_ids. intros ([x a] & -> & Hin)%list_elem_of_fmap. simpl.
  assert ((x, a) ∈ (λ e, (vr_registered_at e.2, e.1)) <$>
    filter (λ e, electable (vr_status e.2) = true) (map_to_list recs)) as Hin'.
  { rewrite <- (merge_sort_Permutation seniority_le).
    eapply elem_of_sublist; [exact Hin|apply sublist_take]. }
  apply list_elem_of_fmap in Hin' as ([a' rec] & [= -> ->] & [He Hm]%list_elem_of_filter).
  apply elem_of_map_to_list in Hm. by exists rec.
Qed.

Lemma chosen_NoDup recs : NoDup (chosen_ids p recs).
Proof.
  unfold chosen_ids. rewrite fmap_take.
  eapply sublist_NoDup; [|apply sublist_take].
  rewrite (merge_sort_Permutation seniority_le), <- list_fmap_compose.
  change (NoDup (fst <$> filter (λ e, electable (vr_status e.2) = true) (map_to_list recs))).
  apply NoDup_fmap_2_strong; [|apply NoDup_filter, NoDup_map_to_list].
  intros [a ra] [b rb] [_ Ha%elem_of_map_to_list]%list_elem_of_filter
    [_ Hb%elem_of_map_to_list]%list_elem_of_filter. simpl in *. intros ->. by simplify_eq.
Qed.

Lemma chosen_length recs : (length (chosen_ids p recs) ≤ Z.to_nat (max_open_validators p))%nat.
Proof. unfold chosen_ids. rewrite length_fmap, length_take. lia. Qed.

Lemma elect_bond chosen id rec : vr_bond (elect chosen id rec) = vr_bond rec.
Proof. unfold elect. by destruct (electable _). Qed.

Lemma elect_owner chosen id rec : vr_owner (elect chosen id rec) = vr_owner rec.
Proof. unfold elect. by destruct (electable _). Qed.

Lemma elect_in_set chosen id rec :
  vr_status rec ≠ VExiting →
  in_set (vr_status (elect chosen id rec)) = true ↔ id ∈ chosen ∧ electable (vr_status rec) = true.
Proof.
  intros Hne. unfold elect. destruct (electable (vr_status rec)) eqn:He; simpl.
  - case_bool_decide; simpl; by split; [|intros []].
  - split; [|by intros []]. by destruct (vr_status rec).
Qed.

Lemma elect_not_exiting chosen id rec :
  vr_status rec ≠ VExiting → vr_status (elect chosen id rec) ≠ VExiting.
Proof.
  intros Hne. unfold elect. destruct (electable _); simpl; [by case_bool_decide|done].
Qed.

(** The records an epoch transition keeps, before the election. *)
Lemma epoch_lookup height r a rec' :
  records (epoch_transition p height r) !! a = Some rec' →
  ∃ rec rec1, records r !! a = Some rec ∧ jailed_from rec rec1 ∧ vr_status rec1 ≠ VExiting ∧
    ∃ chosen, rec' = elect chosen a rec1.
Proof.
  unfold epoch_transition. set (l := filter _ (active r)). simpl.
  destruct (jail_all height l r) as (_ & Hnone & Hfrom & _).
  rewrite map_lookup_imap. intros (rec1 & Hr1 & Hrec')%bind_Some. injection Hrec' as <-.
  apply map_lookup_filter_Some in Hr1 as [Hr1 Hex]. simpl in Hex.
  destruct (records r !! a) as [rec|] eqn:Ha; [|apply Hnone in Ha; congruence].
  destruct (Hfrom a rec Ha) as (rec2 & H2 & Hj). rewrite H2 in Hr1. simplify_eq. eauto 10.
Qed.

Lemma epoch_ok height r : ov_ok r → ov_ok (epoch_transition p height r).
Proof.
  intros Hok. pose proof (epoch_lookup height r) as Hlook.
  constructor.
  - apply StronglySorted_merge_sort; apply _.
  - unfold epoch_transition. simpl. rewrite merge_sort_Permutation. apply chosen_NoDup.
  - intros id. unfold epoch_transition. set (l := filter _ (active r)). simpl.
    set (recs := filter _ (records _)).
    assert (∀ rec, recs !! id = Some rec → vr_status rec ≠ VExiting) as Hex.
    { intros rec [_ Hx]%map_lookup_filter_Some. done. }
    rewrite merge_sort_Permutation, map_lookup_imap. split.
    + intros Hid. destruct (elem_of_chosen recs id Hid) as (rec & Hrec & He). rewrite Hrec. simpl.
      eexists. split; [done|]. apply elect_in_set; [by apply Hex|done].
    + intros (rec' & (rec & Hrec & [= <-])%bind_Some & Hs).
      by apply elect_in_set in Hs as [? _]; [|apply Hex].
  - unfold epoch_transition. simpl. rewrite merge_sort_Permutation. apply chosen_length.
  - intros a b ra rb (rec & rec1 & Ha & (Ho & _) & _ & ch & ->)%Hlook
      (rec' & rec1' & Hb & (Ho' & _) & _ & ch' & ->)%Hlook. rewrite !elect_owner.
    intros He. apply (ov_owner r Hok a b rec rec' Ha Hb). congruence.
  - intros a [rec' (rec & _ & Ha & _)%Hlook]. by apply (ov_no_anchor r Hok).
  - intros a rec' (rec & rec1 & Ha & _ & Hx & ch & ->)%Hlook Hs.
    by apply elect_not_exiting in Hs.
  - unfold epoch_transition. set (l := filter _ (active r)). simpl.
    destruct (jail_all height l r) as (_ & _ & _ & Hlen & _). etransitivity; [exact Hlen|].
    apply (ov_window r Hok).
Qed.

Lemma epoch_bonds height r :
  ov_ok r → map_sum vr_bond (records (epoch_transition p height r)) = map_sum vr_bond (records r).
Proof.
  intros Hok. unfold epoch_transition. set (l := filter _ (active r)). simpl.
  destruct (jail_all height l r) as (_ & Hnone & Hfrom & _ & Hsum & _).
  rewrite map_sum_imap by (intros; apply elect_bond). rewrite map_sum_filter; [done|].
  intros a rec1 Ha. simpl. destruct (decide (vr_status rec1 = VExiting)) as [Hx|Hx]; [right|by left].
  destruct (records r !! a) as [rec|] eqn:Hr; [|apply Hnone in Hr; congruence].
  destruct (Hfrom a rec Hr) as (rec2 & H2 & _ & Hb & _ & Hs). rewrite H2 in Ha. simplify_eq.
  rewrite Hb. apply (ov_exit r Hok a rec Hr). destruct Hs as [Hs|[_ (u & Hu)]]; congruence.
Qed.

(** ** Transactions and the block hook *)

Lemma record_block_fields height a r :
  records (record_block p height a r) = records r ∧ active (record_block p height a r) = active r ∧
  activated_at (record_block p height a r) = activated_at r.
Proof. unfold record_block. by destruct (consensus_set p r) as [[|]|]. Qed.

Lemma ov_ok_ext r r' :
  ov_ok r → records r' = records r → active r' = active r →
  (length (liveness r') ≤ Z.to_nat (Z.max (liveness_window p) 1))%nat → ov_ok r'.
Proof. intros [] Hr Ha Hl. constructor; rewrite ?Hr, ?Ha; done. Qed.

Lemma record_block_ok height a r : ov_ok r → ov_ok (record_block p height a r).
Proof.
  intros Hok. destruct (record_block_fields height a r) as (Hr & Ha & _).
  apply (ov_ok_ext r); try done. pose proof (ov_window r Hok).
  unfold record_block. destruct (consensus_set p r) as [[|]|]; try done. simpl.
  rewrite length_drop. lia.
Qed.

Lemma on_block_ok height a r : ov_ok r → ov_ok (on_block p height a r).
Proof.
  intros Hok. unfold on_block. destruct (_ || _); [done|].
  pose proof (record_block_ok height a r Hok) as Hok'. destruct (_ =? _); [|done].
  apply epoch_ok. by apply (ov_ok_ext _ _ Hok'); try apply (ov_window _ Hok').
Qed.

Lemma on_block_bonds height a r :
  ov_ok r → map_sum vr_bond (records (on_block p height a r)) = map_sum vr_bond (records r).
Proof.
  intros Hok. unfold on_block. destruct (_ || _); [done|].
  pose proof (record_block_ok height a r Hok) as Hok'.
  destruct (record_block_fields height a r) as (Hr & _). destruct (_ =? _); [|by rewrite Hr].
  rewrite epoch_bonds; [simpl; by rewrite Hr|].
  by apply (ov_ok_ext _ _ Hok'); try apply (ov_window _ Hok').
Qed.

(** A write to one record that keeps its owner and its place in the set. *)
Lemma write_ov_ok r n rec rec' :
  ov_ok r → records r !! n = Some rec → vr_owner rec' = vr_owner rec →
  in_set (vr_status rec') = in_set (vr_status rec) → (vr_status rec' = VExiting → vr_bond rec' = 0) →
  ov_ok (set_records r (<[n := rec']> (records r))).
Proof.
  intros Hok Hn Ho Hs Hb.
  assert (∀ a ra, <[n := rec']> (records r) !! a = Some ra →
    ∃ ra0, records r !! a = Some ra0 ∧ vr_owner ra = vr_owner ra0 ∧
      in_set (vr_status ra) = in_set (vr_status ra0) ∧ (vr_status ra = VExiting → vr_bond ra = 0)) as Hlook.
  { intros a ra [[<- <-]|[Hne Ha]]%lookup_insert_Some; [eauto 10|]. exists ra. split_and!; try done.
    by apply (ov_exit r Hok a). }
  constructor; simpl; try apply Hok.
  - intros id. rewrite (ov_active r Hok id). split.
    + intros (ra & Ha & Hset). destruct (decide (id = n)) as [->|Hne].
      * exists rec'. rewrite lookup_insert_eq. split; [done|]. by simplify_eq; rewrite Hs.
      * exists ra. by rewrite lookup_insert_ne.
    + intros (ra & (ra0 & Ha & _ & Hset & _)%Hlook & Hin). exists ra0. by rewrite <- Hset.
  - intros a b ra rb (ra0 & Ha & Hoa & _)%Hlook (rb0 & Hb0 & Hob & _)%Hlook He.
    apply (ov_owner r Hok a b ra0 rb0 Ha Hb0). congruence.
  - intros a [ra (ra0 & Ha & _)%Hlook]. by apply (ov_no_anchor r Hok).
  - intros a ra (ra0 & _ & _ & _ & Hx)%Hlook. done.
Qed.

Lemma remove_ov_ok r n rec :
  ov_ok r → records r !! n = Some rec → in_set (vr_status rec) = false →
  ov_ok (set_records r (delete n (records r))).
Proof.
  intros Hok Hn Hs. constructor; simpl; try apply Hok.
  - intros id. rewrite (ov_active r Hok id). split; intros (ra & Ha & Hin).
    + exists ra. rewrite lookup_delete_ne; [done|]. intros ->. by simplify_eq; rewrite Hs in Hin.
    + apply lookup_delete_Some in Ha as [_ Ha]. by exists ra.
  - intros a b ra rb [_ Ha]%lookup_delete_Some [_ Hb]%lookup_delete_Some. by apply (ov_owner r Hok).
  - intros a [ra [_ Ha]%lookup_delete_Some]. by apply (ov_no_anchor r Hok).
  - intros a ra [_ Ha]%lookup_delete_Some. by apply (ov_exit r Hok a).
Qed.

(** What the three transactions do: nothing, or one write. *)
Lemma register_cases b height o n c r :
  (register_with_cap (with_bond b) height o n c r).2 = r ∧
    (∃ e, (register_with_cap (with_bond b) height o n c r).1 = Err e) ∨
  (register_with_cap (with_bond b) height o n c r =
     (Ok (), set_records r (<[n := mkValidatorRecord o b height VPending 0]> (records r))) ∧
   n ∉ ov_anchors p ∧ records r !! n = None ∧
   (∀ a rec, records r !! a = Some rec → vr_owner rec ≠ o) ∧
   (c = true → Z.of_nat (size (records r)) < max_records p)).
Proof.
  unfold register_with_cap, is_anchor_param. st_unfold.
  destruct (_ <? _); [left; eauto|]. case_bool_decide as Han; [left; eauto|].
  case_bool_decide as Hn; [left; eauto|]. destruct (existsb _ _) eqn:Eo; [left; eauto|].
  destruct (c && _) eqn:Ec; [left; eauto|]. right. split_and!; try done.
  - by apply eq_None_not_Some.
  - intros a rec Ha He. assert (existsb (λ e : AccountId * ValidatorRecord,
      bool_decide (vr_owner e.2 = o)) (map_to_list (records r)) = true) as Hx; [|congruence].
    apply existsb_exists. exists (a, rec). split; [|by apply bool_decide_eq_true].
    by apply list_elem_of_In, elem_of_map_to_list.
  - intros ->. simpl in Ec. apply Z.leb_gt in Ec. exact Ec.
Qed.

Lemma deregister_cases o n height j r :
  (deregister_at o n height j r).2 = r ∧ (∃ e, (deregister_at o n height j r).1 = Err e) ∨
  ∃ rec, records r !! n = Some rec ∧ vr_owner rec = o ∧
    ((deregister_at o n height j r = (Ok (vr_bond rec), set_records r (delete n (records r))) ∧
      in_set (vr_status rec) = false ∧ (∀ u, vr_status rec = VJailed u → j = true → u ≤ height)) ∨
     (vr_status rec = VActive ∧ deregister_at o n height j r =
       (Ok (vr_bond rec), set_records r (<[n := mkValidatorRecord (vr_owner rec) 0
          (vr_registered_at rec) VExiting (vr_jail_count rec)]> (records r))))).
Proof.
  unfold deregister_at. st_unfold.
  destruct (records r !! n) as [rec|] eqn:Hn; [|left; eauto].
  case_bool_decide as Ho; simpl; [|left; eauto].
  destruct (vr_status rec) eqn:Es; [| |destruct (j && _) eqn:Ej|]; try (left; by eauto); right; exists rec.
  - split_and!; try done. left. rewrite Es. by split_and!.
  - split_and!; try done. right. by rewrite Es.
  - split_and!; try done. left. rewrite Es. split_and!; try done. intros u [= <-] ->. simpl in Ej. lia.
Qed.

Lemma unjail_cases o n height r :
  (unjail o n height r).2 = r ∧ (∃ e, (unjail o n height r).1 = Err e) ∨
  ∃ rec u, records r !! n = Some rec ∧ vr_owner rec = o ∧ vr_status rec = VJailed u ∧ u ≤ height ∧
    unjail o n height r = (Ok (), set_records r (<[n := set_status rec VPending]> (records r))).
Proof.
  unfold unjail. st_unfold.
  destruct (records r !! n) as [rec|] eqn:Hn; [|left; eauto].
  case_bool_decide as Ho; simpl; [|left; eauto].
  destruct (vr_status rec) as [| |u|] eqn:Es; try (left; by eauto).
  destruct (u <=? height) eqn:Eu; [|left; eauto]. right. exists rec, u. split_and!; try done. lia.
Qed.

Lemma apply_ov_op_ok height op r : ov_ok r → ov_ok (apply_ov_op height op r).
Proof.
  intros Hok. destruct op as [b o n c|o n j|o n|a]; simpl.
  - destruct (register_cases b height o n c r) as [[-> _]|(-> & Han & Hn & Ho & _)]; [done|]. simpl.
    constructor; simpl; try apply Hok.
    + intros id. rewrite (ov_active r Hok id). split.
      * intros (ra & Ha & Hin). exists ra. rewrite lookup_insert_ne; [done|]. congruence.
      * intros (ra & [[<- <-]|[_ Ha]]%lookup_insert_Some & Hin); [done|]. by exists ra.
    + intros x y rx ry [[<- <-]|[_ Hx]]%lookup_insert_Some [[<- <-]|[_ Hy]]%lookup_insert_Some; simpl;
        [done| | |by apply (ov_owner r Hok)]; intros He; [by destruct (Ho y ry Hy)|by destruct (Ho x rx Hx)].
    + intros x [rx [[<- <-]|[_ Hx]]%lookup_insert_Some]; [done|]. by apply (ov_no_anchor r Hok).
    + intros x rx [[<- <-]|[_ Hx]]%lookup_insert_Some; [done|]. by apply (ov_exit r Hok x).
  - destruct (deregister_cases o n height j r) as [[-> _]|(rec & Hn & _ & [(-> & Hs & _)|(Hs & ->)])];
      [done|by apply (remove_ov_ok r n rec)|]. simpl.
    apply (write_ov_ok r n rec); simpl; try done. by rewrite Hs.
  - destruct (unjail_cases o n height r) as [[-> _]|(rec & u & Hn & _ & Hs & _ & ->)]; [done|]. simpl.
    apply (write_ov_ok r n rec); simpl; try done. by rewrite Hs.
  - by apply on_block_ok.
Qed.

Lemma run_ov_ok ops r : ov_ok r → ov_ok (run_ov r ops).
Proof.
  revert r. induction ops as [|e ops IH]; intros r Hr; [done|]. by apply IH, apply_ov_op_ok.
Qed.

(** ** The consensus set *)

Lemma elem_of_dedup_sorted l a : a ∈ dedup_sorted l ↔ a ∈ l.
Proof.
  induction l as [|x [|y l] IH]; [done..|]. simpl in *. case_bool_decide as Hxy.
  - subst. rewrite IH, !elem_of_cons. tauto.
  - rewrite elem_of_cons, IH, !elem_of_cons. tauto.
Qed.

Lemma dedup_sorted_NoDup l : StronglySorted word_le l → NoDup (dedup_sorted l).
Proof.
  induction l as [|x [|y l] IH]; intros Hs; [constructor|apply NoDup_singleton|].
  apply StronglySorted_inv in Hs as [Hs Hx]. specialize (IH Hs). simpl in *. case_bool_decide as Hxy; [done|].
  constructor; [|done]. rewrite (elem_of_dedup_sorted (y :: l)). intros Hin.
  rewrite Forall_forall in Hx. apply Hxy, (anti_symm word_le).
  - apply Hx. left.
  - apply elem_of_cons in Hin as [->|Hin]; [done|].
    apply StronglySorted_inv in Hs as [_ Hy]. rewrite Forall_forall in Hy. by apply Hy.
Qed.

Lemma dedup_sorted_sorted l : StronglySorted word_le l → StronglySorted word_le (dedup_sorted l).
Proof.
  induction l as [|x [|y l] IH]; intros Hs; [done..|].
  apply StronglySorted_inv in Hs as [Hs Hx]. specialize (IH Hs). simpl in *. case_bool_decide as Hxy; [done|].
  constructor; [done|]. rewrite Forall_forall in *. intros z Hz. apply Hx.
  by apply (elem_of_dedup_sorted (y :: l)).
Qed.

Lemma union_elem (l base : list AccountId) a :
  a ∈ foldl (λ set id, if bool_decide (id ∈ set) then set else set ++ [id]) base l ↔ a ∈ base ∨ a ∈ l.
Proof.
  revert base. induction l as [|x l IH]; intros base; simpl; [rewrite elem_of_nil; tauto|].
  rewrite IH. case_bool_decide; rewrite ?elem_of_app, !elem_of_cons, ?elem_of_nil.
  - split; [tauto|]. intros [?|[->|?]]; auto.
  - tauto.
Qed.

Lemma consensus_set_spec r set :
  consensus_set p r = Some set →
  StronglySorted word_le set ∧ NoDup set ∧ ∀ a, a ∈ set ↔ a ∈ ov_anchors p ∨ a ∈ active r.
Proof.
  unfold consensus_set. destruct (activated_at r); [|done]. intros [= <-].
  set (l := merge_sort word_le _).
  assert (StronglySorted word_le l) as Hs by (apply StronglySorted_merge_sort; apply _).
  split_and!; [by apply dedup_sorted_sorted|by apply dedup_sorted_NoDup|].
  intros a. rewrite elem_of_dedup_sorted. unfold l. rewrite merge_sort_Permutation. apply union_elem.
Qed.

(** The registry's invariant. After any history of registrations,
    deregistrations, unjailings (failed ones included) and blocks, the open part
    of the set is sorted and duplicate-free, within the cap, and is exactly the
    validators whose record is active or exiting; no owner has two records, no
    anchor has one, an exiting record holds no bond, and the liveness window is
    bounded. *)
Theorem open_validators_reachable ops : ov_ok (run_ov empty_open_validators ops).
Proof. apply run_ov_ok, empty_ov_ok. Qed.

(** C31: bonds are accounted for exactly. In a reachable registry a registration
    that succeeds adds its bond to the bonds held, a deregistration takes out what
    it refunds, and failed calls, unjailing and the end-of-block hook (jailing,
    exits and elections included) leave the total as it is. *)
Theorem bonds_accounted ops height op :
  let r := run_ov empty_open_validators ops in
  map_sum vr_bond (records (apply_ov_op height op r)) =
  map_sum vr_bond (records r) +
    match op with
    | OvRegister b o n c =>
        match (register_with_cap (with_bond b) height o n c r).1 with Ok _ => b | Err _ => 0 end
    | OvDeregister o n j => match (deregister_at o n height j r).1 with Ok refund => - refund | Err _ => 0 end
    | _ => 0
    end.
Proof.
  intros r. assert (ov_ok r) as Hok by apply run_ov_ok, empty_ov_ok.
  destruct op as [b o n c|o n j|o n|a]; simpl.
  - destruct (register_cases b height o n c r) as [[-> [e ->]]|(-> & _ & Hn & _)]; simpl; [lia|].
    rewrite map_sum_fresh by done. simpl. lia.
  - destruct (deregister_cases o n height j r) as [[-> [e ->]]|(rec & Hn & _ & [(-> & _)|(_ & ->)])]; simpl.
    + lia.
    + rewrite (map_sum_delete vr_bond n rec (records r)) by done. lia.
    + rewrite map_sum_insert, Hn. simpl. lia.
  - destruct (unjail_cases o n height r) as [[-> _]|(rec & u & Hn & _ & _ & _ & ->)]; simpl; [lia|].
    rewrite map_sum_insert, Hn. simpl. lia.
  - rewrite on_block_bonds by done. lia.
Qed.

(** The consensus set is stable between epoch boundaries. Transactions, and
    blocks at heights that are not multiples of the epoch length, leave it as it
    is; whenever the open set is in force it is sorted and duplicate-free, has
    every anchor and at most [max_open_validators] others. *)
Theorem consensus_set_stable ops height op :
  let r := run_ov empty_open_validators ops in
  match op with OvBlock _ => height `mod` epoch_len p ≠ 0 | _ => True end →
  consensus_set p (apply_ov_op height op r) = consensus_set p r ∧
  ∀ set, consensus_set p r = Some set →
    StronglySorted word_le set ∧ NoDup set ∧ (∀ a, a ∈ ov_anchors p → a ∈ set) ∧
    (length (filter (λ a, a ∉ ov_anchors p) set) ≤ Z.to_nat (max_open_validators p))%nat.
Proof.
  intros r Hop. assert (ov_ok r) as Hok by apply run_ov_ok, empty_ov_ok. split.
  - destruct op as [b o n c|o n j|o n|a]; simpl.
    + by destruct (register_cases b height o n c r) as [[-> _]|(-> & _)].
    + by destruct (deregister_cases o n height j r) as [[-> _]|(rec & Hn & _ & [(-> & _)|(_ & ->)])].
    + by destruct (unjail_cases o n height r) as [[-> _]|(rec & u & _ & _ & _ & _ & ->)].
    + unfold on_block. destruct (_ || _); [done|]. destruct (_ =? 0) eqn:E; [lia|].
      destruct (record_block_fields height a r) as (_ & Ha & Hat).
      unfold consensus_set. by rewrite Ha, Hat.
  - intros set (Hs & Hnd & Hset)%consensus_set_spec. split_and!; try done.
    + intros a Ha. apply Hset. by left.
    + etransitivity; [|apply (ov_cap r Hok)]. apply NoDup_incl_length; [by apply NoDup_filter|].
      intros a [Hna Ha]%list_elem_of_filter. apply Hset in Ha as [?|?]; done.
Qed.

Lemma jail_other_status height r id a rec :
  a ≠ id → records r !! a = Some rec → records (jail p height r id) !! a = Some rec.
Proof. intros Hne Ha. simpl. by rewrite lookup_alter_ne. Qed.

Lemma jail_all_other height l r a rec :
  a ∉ l → records r !! a = Some rec → records (foldl (jail p height) r l) !! a = Some rec.
Proof.
  revert r. induction l as [|x l IH]; intros r Hnot Ha; [done|]. simpl.
  apply not_elem_of_cons in Hnot as [Hax Hnot]. apply IH; [done|]. by apply jail_other_status.
Qed.

Lemma jail_all_jailed height l r a rec u :
  records r !! a = Some rec → vr_status rec = VJailed u →
  records (foldl (jail p height) r l) !! a = Some rec.
Proof.
  revert r. induction l as [|x l IH]; intros r Ha Hs; [done|]. simpl. apply IH; [|done]. simpl.
  destruct (decide (a = x)) as [->|Hne]; [|by rewrite lookup_alter_ne].
  rewrite lookup_alter_eq, Ha. simpl. by rewrite decide_False by congruence.
Qed.

Lemma jail_all_hit height l r a rec :
  a ∈ l → records r !! a = Some rec → vr_status rec = VActive →
  records (foldl (jail p height) r l) !! a =
  Some (mkValidatorRecord (vr_owner rec) (vr_bond rec) (vr_registered_at rec)
    (VJailed (sat_add u64_max height (jail_cooldown p))) (sat_add 4294967295 (vr_jail_count rec) 1)).
Proof.
  revert r. induction l as [|x l IH]; intros r Hin Ha Hs; [by apply elem_of_nil in Hin|]. simpl.
  destruct (decide (a = x)) as [->|Hne].
  - eapply jail_all_jailed; [|done]. simpl. rewrite lookup_alter_eq, Ha. simpl. by rewrite decide_True.
  - apply elem_of_cons in Hin as [?|Hin]; [done|]. apply IH; [done| |done]. by apply jail_other_status.
Qed.

(** Jailing at an epoch boundary is exact. In a reachable registry, an active
    validator is jailed, until [jail_cooldown] blocks later, exactly when it was
    scheduled at least [min_liveness_samples] times in the window and missed more
    than the threshold share of its slots; then it is out of the set with its bond
    kept, and otherwise it stays electable. *)
Theorem jailing_exact ops height id rec :
  let r := run_ov empty_open_validators ops in
  records r !! id = Some rec → vr_status rec = VActive →
  ∃ rec', records (epoch_transition p height r) !! id = Some rec' ∧ vr_bond rec' = vr_bond rec ∧
    if misses_too_much p (stats r id)
    then vr_status rec' = VJailed (sat_add u64_max height (jail_cooldown p)) ∧
         id ∉ active (epoch_transition p height r)
    else electable (vr_status rec') = true.
Proof.
  intros r Hid Hs. assert (ov_ok r) as Hok by apply run_ov_ok, empty_ov_ok.
  assert (id ∈ active r) as Hact by (apply (ov_active r Hok); exists rec; by rewrite Hs).
  pose proof (epoch_ok height r Hok) as Hok'. unfold epoch_transition in *.
  set (l := filter _ (active r)) in *. simpl in *. rewrite map_lookup_imap.
  destruct (misses_too_much p (stats r id)) eqn:Em.
  - assert (id ∈ l) as Hl by (apply list_elem_of_filter; done).
    pose proof (jail_all_hit height l r id rec Hl Hid Hs) as Hj. set (rec1 := mkValidatorRecord _ _ _ _ _) in Hj.
    assert (filter (λ e : AccountId * ValidatorRecord, vr_status e.2 ≠ VExiting)
      (records (foldl (jail p height) r l)) !! id = Some rec1) as Hf.
    { apply map_lookup_filter_Some. by split. }
    rewrite Hf. simpl. exists rec1. split_and!; try done.
    rewrite (ov_active _ Hok' id). simpl. rewrite map_lookup_imap, Hf. simpl. intros (x & [= <-] & Hx). done.
  - assert (id ∉ l) as Hl by (intros [Hx _]%list_elem_of_filter; congruence).
    pose proof (jail_all_other height l r id rec Hl Hid) as Hj.
    assert (filter (λ e : AccountId * ValidatorRecord, vr_status e.2 ≠ VExiting)
      (records (foldl (jail p height) r l)) !! id = Some rec) as ->.
    { apply map_lookup_filter_Some. split; [done|]. simpl. by rewrite Hs. }
    simpl. eexists. split; [done|]. rewrite elect_bond. split; [done|].
    unfold elect. rewrite Hs. simpl. by case_bool_decide.
Qed.

End Laws.
End OpenLaws.

Module SampleValidators.
Import OpenReg OpenLaws.

Definition node (n : Z) : AccountId := replicate 32 n.

Definition params : OpenValidatorParams := mkOvParams 0 [node 1] 100 10 2 2 8 1000 1 5.

(** Registered in epoch 0, in the set from block 2, scheduled at block 3 (two
    members, sorted) and absent. *)
Definition history : list (Z * OvOp) :=
  [(1, OvRegister 100 (node 9) (node 5) true); (2, OvBlock (node 1)); (3, OvBlock (node 1))].

Lemma consensus_set_stable_witness :
  consensus_set params (apply_ov_op params 5 (OvBlock (node 1)) (run_ov params empty_open_validators history))
  = consensus_set params (run_ov params empty_open_validators history).
Proof.
  destruct (consensus_set_stable params history 5 (OvBlock (node 1))) as [H _];
    [vm_compute; discriminate|]. exact H.
Defined.

Lemma jailing_exact_witness :
  ∃ rec', records (epoch_transition params 4 (run_ov params empty_open_validators history)) !! node 5
    = Some rec' ∧ vr_status rec' = VJailed 9 ∧ vr_bond rec' = 100.
Proof.
  destruct (jailing_exact params history 4 (node 5) (mkValidatorRecord (node 9) 100 1 VActive 0))
    as (rec' & H1 & H2 & H3); [vm_compute; reflexivity|reflexivity|].
  exists rec'. split; [exact H1|]. split; [|exact H2].
  assert (misses_too_much params (stats (run_ov params empty_open_validators history) (node 5)) = true)
    as Hm by (vm_compute; reflexivity).
  rewrite Hm in H3. destruct H3 as [H3 _]. exact H3.
Defined.

End SampleValidators.
