(* ===== verification/Consensus.v ===== *)
(** * The consensus engine

    Models [crates/boing-consensus/src/engine.rs] (single-round quorum commit
    with a wall-clock pacemaker) and the leader selection of
    [crates/boing-primitives/src/randomness.rs]. A method that takes
    [&mut self] is a function on the record [ConsensusEngine]; a method that
    returns [Result] is in the monad [ST], which keeps the writes made before
    an early return. Panics ([assert!], indexing an empty validator set) are
    [None]. *)

From S2P Require Import Prelude Types.

(** ** Leader selection *)

Record VrfOutput := mkVrfOutput {
  vrf_proof : bytes;
  vrf_output : bytes;
}.

#[global] Instance VrfOutput_eq_dec : EqDecision VrfOutput.
Proof. solve_decision. Defined.

(** The bytes of [VRF_DOMAIN], "boing.vrf.leader.v1" and a zero byte. *)
Definition VRF_DOMAIN : bytes :=
  [98; 111; 105; 110; 103; 46; 118; 114; 102; 46; 108; 101; 97; 100; 101; 114;
   46; 118; 49; 0].

Definition ECVRF_PROOF_LEN : nat := 80.

(** [leader_from_vrf]: the first eight output bytes, little-endian, modulo the
    number of validators. *)
Definition leader_from_vrf (vals : list AccountId) (vrf : VrfOutput)
    : option AccountId :=
  match vals with
  | [] => None
  | _ =>
      vals !! Z.to_nat (le_val (take 8 (vrf_output vrf)) `mod` Z.of_nat (length vals))
  end.

Section Vrf.
Context `{Host}.

Definition vrf_round_seed (round : Z) : bytes :=
  blake3 (VRF_DOMAIN ++ le_bytes 8 round).

Definition vrf_round_alpha (round : Z) : bytes :=
  VRF_DOMAIN ++ le_bytes 8 round.

(** [verify_ecvrf_output]. *)
Definition verify_ecvrf_output (public_key : AccountId) (round : Z) (vrf : VrfOutput)
    : bool :=
  if negb (Nat.eqb (length (vrf_proof vrf)) ECVRF_PROOF_LEN) then false
  else match ecvrf_verify public_key (vrf_round_alpha round) (vrf_proof vrf) with
  | None => false
  | Some hash512 => bool_decide (vrf_output vrf = take 32 hash512)
  end.

(** [dummy_vrf_output]: "out" and "prf" are the domain suffixes. *)
Definition dummy_vrf_output (round : Z) : VrfOutput :=
  let seed := vrf_round_seed round in
  mkVrfOutput (blake3 (VRF_DOMAIN ++ [112; 114; 102] ++ seed))
              (blake3 (VRF_DOMAIN ++ [111; 117; 116] ++ seed)).

(** The loop of [leader_from_ecvrf_proofs] over the validators, [best] being
    the smallest output so far. *)
Fixpoint best_ecvrf (vals : list AccountId) (round : Z)
    (proofs : list (AccountId * VrfOutput)) (best : option (AccountId * bytes))
    : option AccountId :=
  match vals with
  | [] => fst <$> best
  | v :: rest =>
      match find (λ p, bool_decide (p.1 = v)) proofs with
      | None => None
      | Some (_, vrf) =>
          if negb (verify_ecvrf_output v round vrf) then None
          else
            let best' :=
              match best with
              | None => Some (v, vrf_output vrf)
              | Some (_, best_out) =>
                  if bytes_ltb (vrf_output vrf) best_out
                  then Some (v, vrf_output vrf) else best
              end in
            best_ecvrf rest round proofs best'
      end
  end.

(** [leader_from_ecvrf_proofs]. *)
Definition leader_from_ecvrf_proofs (vals : list AccountId) (round : Z)
    (proofs : list (AccountId * VrfOutput)) : option AccountId :=
  match vals with [] => None | _ => best_ecvrf vals round proofs None end.

End Vrf.

(** ** State *)

Inductive LeaderElection := RoundRobin | Vrf.

#[global] Instance LeaderElection_eq_dec : EqDecision LeaderElection.
Proof. solve_decision. Defined.

Record ConsensusEngine := mkEngine {
  validators : list AccountId;
  round : Z;
  view : Z;
  pending_block : option Block;
  votes : gmap AccountId Hash;
  leader_election : LeaderElection;
  last_committed_voters : list AccountId;
  vrf_proofs : gmap Z (gmap AccountId VrfOutput);
  anchors : list AccountId;
}.

(** The [String] of [ConsensusError::InvalidBlock], one constructor per message. *)
Inductive InvalidReason :=
| HeightMismatch (got expected : Z)
| ProposerNotInSet
| ProposerNotEligible (round view : Z)
| ViewTooFarAhead (eligible_view view : Z)
| StaleView
| DifferentPending
| VoterNotInSet
| NoPendingBlock
| WrongBlockHash.

Inductive ConsensusError :=
| InvalidBlock (reason : InvalidReason)
| InsufficientVotes
| Equivocation (validator : AccountId) (round : Z).

Definition set_view (e : ConsensusEngine) (v : Z) : ConsensusEngine :=
  mkEngine (validators e) (round e) v (pending_block e) (votes e)
    (leader_election e) (last_committed_voters e) (vrf_proofs e) (anchors e).

Definition set_votes (e : ConsensusEngine) (vs : gmap AccountId Hash) : ConsensusEngine :=
  mkEngine (validators e) (round e) (view e) (pending_block e) vs
    (leader_election e) (last_committed_voters e) (vrf_proofs e) (anchors e).

Definition set_vrf_proofs (e : ConsensusEngine) (ps : gmap Z (gmap AccountId VrfOutput))
    : ConsensusEngine :=
  mkEngine (validators e) (round e) (view e) (pending_block e) (votes e)
    (leader_election e) (last_committed_voters e) ps (anchors e).

(** ** Construction and configuration *)

Definition new (vals : list AccountId) : option ConsensusEngine :=
  match vals with
  | [] => None
  | _ => Some (mkEngine vals 0 0 None ∅ RoundRobin [] ∅ [])
  end.

(** [Vec::dedup]: drops consecutive repetitions. *)
Fixpoint dedup (l : list AccountId) : list AccountId :=
  match l with
  | [] => []
  | x :: l' =>
      match dedup l' with
      | [] => [x]
      | y :: r => if decide (x = y) then y :: r else x :: y :: r
      end
  end.

Definition account_le (a b : AccountId) : Prop := Is_true (bytes_leb a b).

#[global] Instance account_le_dec : RelDecision account_le.
Proof. intros a b. unfold account_le. apply _. Defined.

Definition set_anchors (e : ConsensusEngine) (ancs : list AccountId) : ConsensusEngine :=
  mkEngine (validators e) (round e) (view e) (pending_block e) ∅
    (leader_election e) (last_committed_voters e) (vrf_proofs e)
    (dedup (merge_sort account_le ancs)).

Definition set_leader_election (e : ConsensusEngine) (mode : LeaderElection)
    : ConsensusEngine :=
  mkEngine (validators e) (round e) (view e) (pending_block e) (votes e)
    mode (last_committed_voters e)
    (if decide (mode = Vrf) then vrf_proofs e else ∅) (anchors e).

Definition set_validators (e : ConsensusEngine) (vals : list AccountId)
    : option ConsensusEngine :=
  match vals with
  | [] => None
  | _ => Some (mkEngine vals (round e) 0 None ∅ (leader_election e) [] ∅ (anchors e))
  end.

Definition sync_round (e : ConsensusEngine) (next_block_height : Z) : ConsensusEngine :=
  mkEngine (validators e) next_block_height 0 None ∅ (leader_election e) []
    (vrf_proofs e) (anchors e).

(** [abandon_proposal]: the pacemaker's view change. *)
Definition abandon_proposal (e : ConsensusEngine) : ConsensusEngine :=
  mkEngine (validators e) (round e) (sat_add u64_max (view e) 1) None ∅
    (leader_election e) (last_committed_voters e) (vrf_proofs e) (anchors e).

(** ** Leaders, anchors and eligibility *)

Definition is_validator (e : ConsensusEngine) (who : AccountId) : bool :=
  bool_decide (who ∈ validators e).

Definition is_anchor (e : ConsensusEngine) (who : AccountId) : bool :=
  bool_decide (who ∈ anchors e).

Definition active_anchors (e : ConsensusEngine) : list AccountId :=
  filter (λ a, a ∈ validators e) (anchors e).

Definition round_robin_index_at (e : ConsensusEngine) (r v : Z) : nat :=
  Z.to_nat (wrap_add u64_max r v `mod` Z.max 1 (Z.of_nat (length (validators e)))).

Definition fallback_anchor_at (e : ConsensusEngine) (r v : Z) : option AccountId :=
  match active_anchors e with
  | [] => None
  | a => a !! Z.to_nat (wrap_add u64_max r v `mod` Z.of_nat (length a))
  end.

Section Engine.
Context `{Host}.

(** [leader_at]; [None] is the panic on an empty validator set. *)
Definition leader_at (e : ConsensusEngine) (r v : Z) : option AccountId :=
  match leader_election e with
  | RoundRobin => validators e !! round_robin_index_at e r v
  | Vrf =>
      if v =? 0 then
        match
          m ← vrf_proofs e !! r;
          leader_from_ecvrf_proofs (validators e) r (map_to_list m)
        with
        | Some leader => Some leader
        | None => leader_from_vrf (validators e) (dummy_vrf_output r)
        end
      else validators e !! round_robin_index_at e r v
  end.

Definition leader (e : ConsensusEngine) (r : Z) : option AccountId :=
  leader_at e r (view e).

Definition fallback_anchor (e : ConsensusEngine) (r : Z) : option AccountId :=
  fallback_anchor_at e r (view e).

Definition may_propose_at (e : ConsensusEngine) (r v : Z) (who : AccountId) : bool :=
  if negb (is_validator e who) then false
  else bool_decide (leader_at e r v = Some who)
       || bool_decide (fallback_anchor_at e r v = Some who).

Definition may_propose (e : ConsensusEngine) (r : Z) (who : AccountId) : bool :=
  may_propose_at e r (view e) who.

(** The loop bound of [earliest_eligible_view]. *)
Definition eligible_bound (e : ConsensusEngine) : Z :=
  Z.max 8 (sat_mul u64_max (Z.max 1 (Z.of_nat (length (validators e)))) 2).

Definition earliest_eligible_view (e : ConsensusEngine) (r : Z) (who : AccountId)
    : option Z :=
  if negb (is_validator e who) then None
  else find (λ v, may_propose_at e r v who)
         (map (λ d, sat_add u64_max (view e) (Z.of_nat d))
              (seq 0 (Z.to_nat (eligible_bound e)))).

(** [leader_vrf_output]. *)
Definition leader_vrf_output (e : ConsensusEngine) (r : Z) : option bytes :=
  match leader_election e with
  | RoundRobin => None
  | Vrf =>
      match
        m ← vrf_proofs e !! r;
        l ← leader_from_ecvrf_proofs (validators e) r (map_to_list m);
        p ← find (λ p, bool_decide (p.1 = l)) (map_to_list m);
        Some (vrf_output p.2)
      with
      | Some out => Some out
      | None => Some (vrf_output (dummy_vrf_output r))
      end
  end.

(** [insert_vrf_proof]: whether the proof was stored, and the new state. *)
Definition insert_vrf_proof (e : ConsensusEngine) (v : AccountId) (r : Z)
    (vrf : VrfOutput) : bool * ConsensusEngine :=
  if negb (bool_decide (leader_election e = Vrf)) then (false, e)
  else if negb (is_validator e v) then (false, e)
  else if negb (verify_ecvrf_output v r vrf) then (false, e)
  else
    let entry := default ∅ (vrf_proofs e !! r) in
    let ps := <[r := <[v := vrf]> entry]> (vrf_proofs e) in
    (true, set_vrf_proofs e (filter (λ p, sat_sub (round e) 1 ≤ p.1) ps)).

Definition has_full_vrf_proofs (e : ConsensusEngine) (r : Z) : bool :=
  match vrf_proofs e !! r with
  | None => false
  | Some m => forallb (λ v, bool_decide (is_Some (m !! v))) (validators e)
  end.

(** ** Quorums *)

(** [f] and [quorum]: [2f+1] of all validators, or a BFT quorum over the
    anchors that are in the set. *)
Definition max_faulty (n : Z) : Z := sat_sub n 1 `div` 3.

Definition f (e : ConsensusEngine) : Z := max_faulty (Z.of_nat (length (validators e))).

Definition anchor_quorum (a : Z) : Z := (a + (a - 1) `div` 3) `div` 2 + 1.

Definition quorum (e : ConsensusEngine) : Z :=
  match anchors e with
  | [] => 2 * f e + 1
  | _ =>
      let a := Z.of_nat (length (active_anchors e)) in
      if a =? 0 then 2 * f e + 1 else anchor_quorum a
  end.

(** Whether a vote by [v] counts: any validator in classic mode, the active
    anchors in anchor mode. *)
Definition vote_counts (e : ConsensusEngine) (v : AccountId) : bool :=
  match anchors e, active_anchors e with
  | [], _ => true
  | _, [] => true
  | _, active => bool_decide (v ∈ active)
  end.

(** The voters whose recorded vote is for [want]. *)
Definition voters_for (vs : gmap AccountId Hash) (want : Hash) : list AccountId :=
  (map_to_list (filter (λ p, p.2 = want) vs)).*1.

Definition counted_votes (e : ConsensusEngine) : Z :=
  match pending_block e with
  | None => 0
  | Some b =>
      Z.of_nat (length (filter (λ v, vote_counts e v = true)
                               (voters_for (votes e) (block_hash b))))
  end.

(** ** Proposals *)

Definition validate_proposal_current_view (e : ConsensusEngine) (b : Block)
    : result () ConsensusError :=
  if negb (height (header b) =? round e)
  then Err (InvalidBlock (HeightMismatch (height (header b)) (round e)))
  else if negb (is_validator e (proposer (header b)))
  then Err (InvalidBlock ProposerNotInSet)
  else if negb (may_propose e (round e) (proposer (header b)))
  then Err (InvalidBlock (ProposerNotEligible (round e) (view e)))
  else Ok ().

Definition enter_voting_phase (e : ConsensusEngine) (b : Block) : ConsensusEngine :=
  mkEngine (validators e) (round e) (view e) (Some b) ∅
    (leader_election e) (last_committed_voters e) (vrf_proofs e) (anchors e).

Definition propose (b : Block) : ST ConsensusEngine ConsensusError () := λ e,
  match validate_proposal_current_view e b with
  | Err err => (Err err, e)
  | Ok _ => (Ok (), enter_voting_phase e b)
  end.

Definition accept_proposal (b : Block) : ST ConsensusEngine ConsensusError () := λ e,
  if negb (height (header b) =? round e)
  then (Err (InvalidBlock (HeightMismatch (height (header b)) (round e))), e)
  else if negb (is_validator e (proposer (header b)))
  then (Err (InvalidBlock ProposerNotInSet), e)
  else match earliest_eligible_view e (round e) (proposer (header b)) with
  | None => (Err (InvalidBlock (ProposerNotEligible (round e) (view e))), e)
  | Some ev =>
      if sat_add u64_max (view e) 1 <? ev
      then (Err (InvalidBlock (ViewTooFarAhead ev (view e))), e)
      else match pending_block e with
      | Some pending =>
          if bool_decide (block_hash pending = block_hash b)
          then (Ok (), if view e <? ev then set_view e ev else e)
          else if ev <? view e
          then (Err (InvalidBlock StaleView), e)
          else if ev =? view e
          then
            if bool_decide (fallback_anchor_at e (round e) (view e)
                            = Some (proposer (header b)))
               && negb (is_anchor e (proposer (header pending)))
            then (Ok (), enter_voting_phase e b)
            else (Err (InvalidBlock DifferentPending), e)
          else (Ok (), enter_voting_phase (set_view e ev) b)
      | None => (Ok (), enter_voting_phase (set_view e ev) b)
      end
  end.

(** ** Votes *)

Definition commit_state (e : ConsensusEngine) (h : Hash) : ConsensusEngine :=
  mkEngine (validators e) (wrap_add u64_max (round e) 1) 0 None ∅
    (leader_election e) (voters_for (votes e) h) (vrf_proofs e) (anchors e).

Definition vote (bh : Hash) (v : AccountId)
    : ST ConsensusEngine ConsensusError (option Hash) := λ e,
  if negb (is_validator e v)
  then (Err (InvalidBlock VoterNotInSet), e)
  else match pending_block e with
  | None => (Err (InvalidBlock NoPendingBlock), e)
  | Some b =>
      let pending_hash := block_hash b in
      match votes e !! v with
      | Some prev =>
          if bool_decide (prev ≠ bh)
          then (Err (Equivocation v (round e)), e)
          else (Ok None, e)
      | None =>
          let e1 := set_votes e (<[v := bh]> (votes e)) in
          if bool_decide (pending_hash ≠ bh)
          then (Err (InvalidBlock WrongBlockHash), e1)
          else if quorum e1 <=? counted_votes e1
          then (Ok (Some pending_hash), commit_state e1 pending_hash)
          else (Ok None, e1)
      end
  end.

(** The loop of [propose_and_commit]: a failing vote is skipped. *)
Fixpoint vote_all (bh : Hash) (vals : list AccountId)
    : ST ConsensusEngine ConsensusError Hash := λ e,
  match vals with
  | [] => (Err InsufficientVotes, e)
  | v :: rest =>
      match vote bh v e with
      | (Ok (Some h), e') => (Ok h, e')
      | (_, e') => vote_all bh rest e'
      end
  end.

Definition propose_and_commit (b : Block) : ST ConsensusEngine ConsensusError Hash := λ e,
  match propose b e with
  | (Err err, e') => (Err err, e')
  | (Ok _, e') => vote_all (block_hash b) (validators e') e'
  end.

End Engine.

(** ** Runs of an engine

    [Op] is one call of the engine's interface; [reaches] collects, beside the
    state, the votes the engine was given and the commits it reported. *)

Inductive Op :=
| OpAnchors (ancs : list AccountId)
| OpElection (mode : LeaderElection)
| OpValidators (vals : list AccountId)
| OpSync (next_block_height : Z)
| OpAbandon
| OpVrf (v : AccountId) (r : Z) (p : VrfOutput)
| OpPropose (b : Block)
| OpAccept (b : Block)
| OpVote (h : Hash) (v : AccountId).

(** A vote as the network sees it: the round the engine was in, the voter and
    the hash voted for. *)
Notation CastVote := (Z * AccountId * Hash)%type.

Record Commit := mkCommit {
  c_engine : ConsensusEngine;
  c_hash : Hash;
  c_voters : list AccountId;
}.

Section Runs.
Context `{Host}.

(** [None] is a failed assertion. *)
Definition apply_op (op : Op) (e : ConsensusEngine) : option ConsensusEngine :=
  match op with
  | OpAnchors ancs => Some (set_anchors e ancs)
  | OpElection mode => Some (set_leader_election e mode)
  | OpValidators vals => set_validators e vals
  | OpSync h => Some (sync_round e h)
  | OpAbandon => Some (abandon_proposal e)
  | OpVrf v r p => Some (insert_vrf_proof e v r p).2
  | OpPropose b => Some (propose b e).2
  | OpAccept b => Some (accept_proposal b e).2
  | OpVote h v => Some (vote h v e).2
  end.

Definition op_ok (op : Op) : Prop :=
  match op with OpSync h => in_u64 h | _ => True end.

Definition cast_of (op : Op) (e : ConsensusEngine) : list CastVote :=
  match op with OpVote h v => [(round e, v, h)] | _ => [] end.

Definition commits_of (op : Op) (e : ConsensusEngine) : list Commit :=
  match op with
  | OpVote h v =>
      match vote h v e with
      | (Ok (Some h'), e') => [mkCommit e h' (last_committed_voters e')]
      | _ => []
      end
  | _ => []
  end.

Inductive reaches : ConsensusEngine → list CastVote → list Commit → Prop :=
| reaches_new vals e :
    new vals = Some e → reaches e [] []
| reaches_op op e e' cast commits :
    reaches e cast commits → op_ok op → apply_op op e = Some e' →
    reaches e' (cast_of op e ++ cast) (commits_of op e ++ commits).

(** Runs a list of calls, collecting the votes and commits. *)
Fixpoint run_ops (ops : list Op) (st : ConsensusEngine * list CastVote * list Commit)
    : option (ConsensusEngine * list CastVote * list Commit) :=
  match ops with
  | [] => Some st
  | op :: rest =>
      let '(e, cast, commits) := st in
      match apply_op op e with
      | None => None
      | Some e' => run_ops rest (e', cast_of op e ++ cast, commits_of op e ++ commits)
      end
  end.

Definition run (ops : list Op) (e : ConsensusEngine)
    : ConsensusEngine * list CastVote * list Commit :=
  default (e, [], []) (run_ops ops (e, [], [])).

(** The well-formedness invariant of a reachable engine. *)
Record engine_inv (e : ConsensusEngine) : Prop := {
  inv_validators : validators e ≠ [];
  inv_round : in_u64 (round e);
  inv_view : in_u64 (view e);
  inv_votes : ∀ v h, votes e !! v = Some h → v ∈ validators e;
  inv_pending : ∀ b, pending_block e = Some b →
    height (header b) = round e ∧ proposer (header b) ∈ validators e;
  inv_no_pending : pending_block e = None → votes e = ∅;
  inv_anchors : NoDup (anchors e);
  inv_voters : NoDup (last_committed_voters e) ∧
    ∀ v, v ∈ last_committed_voters e → v ∈ validators e;
  inv_vrf : ∀ r m v p, vrf_proofs e !! r = Some m → m !! v = Some p →
    leader_election e = Vrf ∧ v ∈ validators e ∧ verify_ecvrf_output v r p = true;
}.

(** What a commit record certifies. *)
Record commit_justified (cast : list CastVote) (c : Commit) : Prop := {
  just_nodup : NoDup (c_voters c);
  just_validators : ∀ v, v ∈ c_voters c → v ∈ validators (c_engine c);
  just_cast : ∀ v, v ∈ c_voters c → (round (c_engine c), v, c_hash c) ∈ cast;
  just_quorum : quorum (c_engine c) ≤
    Z.of_nat (length (filter (λ v, vote_counts (c_engine c) v = true) (c_voters c)));
  just_pending : ∃ b, pending_block (c_engine c) = Some b ∧ block_hash b = c_hash c
    ∧ height (header b) = round (c_engine c);
}.

(** The same validators and anchors, hence the same electorate and quorum. *)
Definition same_config (e1 e2 : ConsensusEngine) : Prop :=
  validators e1 = validators e2 ∧ anchors e1 = anchors e2.

(** The validators whose votes count. *)
Definition electorate (e : ConsensusEngine) : list AccountId :=
  match anchors e, active_anchors e with
  | [], _ => validators e
  | _, [] => validators e
  | _, active => active
  end.

(** The number of view changes after which index [i] leads. *)
Definition views_until (e : ConsensusEngine) (i : nat) : nat :=
  Z.to_nat ((Z.of_nat i - (round e + view e)) `mod` Z.of_nat (length (validators e))).

(** The proof [leader_from_ecvrf_proofs] uses for a validator. *)
Definition proof_of (proofs : list (AccountId * VrfOutput)) (v : AccountId)
    : option VrfOutput :=
  snd <$> find (λ p, bool_decide (p.1 = v)) proofs.

End Runs.

(** ** Concrete engines for the witnesses *)

Module Sample.
Definition v0 : AccountId := replicate 31 0 ++ [1].
Definition v1 : AccountId := replicate 31 0 ++ [2].
Definition v2 : AccountId := replicate 31 0 ++ [3].
Definition v3 : AccountId := replicate 31 0 ++ [4].

Definition block_by (p : AccountId) (h ts : Z) : Block :=
  mkBlock (mkBlockHeader ZERO h ts p ZERO ZERO ZERO None) [] [] [].

Definition engine (vals ancs : list AccountId) : ConsensusEngine :=
  mkEngine vals 0 0 None ∅ RoundRobin [] ∅ ancs.
End Sample.

(** ** Lemmas on the data *)

Lemma elem_of_voters_for vs h v : v ∈ voters_for vs h ↔ vs !! v = Some h.
Proof.
  unfold voters_for. rewrite list_elem_of_fmap. split.
  - intros ([k x] & -> & Hin). apply elem_of_map_to_list in Hin.
    apply map_lookup_filter_Some in Hin as [? Hx]. simpl in *. by rewrite Hx in *.
  - intros Hl. exists (v, h). split; [done|]. apply elem_of_map_to_list.
    by apply map_lookup_filter_Some.
Qed.

Lemma NoDup_voters_for vs h : NoDup (voters_for vs h).
Proof. apply NoDup_fst_map_to_list. Qed.

Lemma elem_of_dedup x l : x ∈ dedup l ↔ x ∈ l.
Proof.
  induction l as [|y l IH]; [done|]. simpl.
  rewrite elem_of_cons, <- IH. destruct (dedup l) as [|z r] eqn:E.
  - set_solver.
  - destruct (decide (y = z)) as [->|]; set_solver.
Qed.

(** [dedup] after a sort removes every repetition: the result is strictly
    increasing. *)
Lemma dedup_NoDup l : StronglySorted account_le l → NoDup (dedup l).
Proof.
  induction 1 as [|x l Hs IH Hall]; [constructor|]. simpl.
  pose proof (λ y, elem_of_dedup y l) as Hel.
  destruct (dedup l) as [|z r] eqn:E; [by apply NoDup_singleton|].
  destruct (decide (x = z)) as [|Hne]; [done|].
  constructor; [|done]. rewrite elem_of_cons. intros [?|Hr]; [done|].
  (* [z] is the head of a sorted list, [x] below it and also after it *)
  assert (StronglySorted account_le (z :: r)) as Hsr.
  { rewrite <- E. clear -Hs. induction Hs as [|a k Hk IHk Ha]; [constructor|].
    simpl. destruct (dedup k) as [|b t] eqn:Ek; [by repeat constructor|].
    destruct (decide (a = b)) as [->|]; [done|]. constructor; [done|].
    rewrite Forall_forall in *. intros w Hw. apply Ha, elem_of_dedup. by rewrite Ek. }
  apply StronglySorted_inv in Hsr as [_ Hzr]. rewrite Forall_forall in Hzr, Hall.
  apply Hne, bytes_leb_antisym.
  - apply Is_true_true, Hall, Hel. set_solver.
  - apply Is_true_true, Hzr, Hr.
Qed.

Lemma set_anchors_NoDup e ancs : NoDup (anchors (set_anchors e ancs)).
Proof. apply dedup_NoDup, StronglySorted_merge_sort; apply _. Qed.

(** ** The invariant *)

Section Invariant.
Context `{Host}.
Implicit Types e : ConsensusEngine.

(** Splits the invariant and closes the fields an operation leaves alone. *)
Ltac inv_split :=
  split; simpl; try done; try by intros; simplify_map_eq.

Lemma wrap_add_u64 a b : in_u64 (wrap_add u64_max a b).
Proof.
  unfold wrap_add, in_u64. pose proof (Z.mod_pos_bound (a + b) (u64_max + 1)).
  unfold u64_max in *. lia.
Qed.

Lemma sat_add_u64 a b : 0 ≤ a → 0 ≤ b → in_u64 (sat_add u64_max a b).
Proof. unfold_sat. unfold u64_max. lia. Qed.

Lemma is_validator_spec e v : is_validator e v = true ↔ v ∈ validators e.
Proof. apply bool_decide_eq_true. Qed.

Lemma earliest_eligible_view_spec e r who ev :
  earliest_eligible_view e r who = Some ev →
  may_propose_at e r ev who = true ∧
  ∃ d : nat, Z.of_nat d < eligible_bound e ∧ ev = sat_add u64_max (view e) (Z.of_nat d).
Proof.
  unfold earliest_eligible_view. destruct (negb _); [done|]. intros Hf.
  apply find_some in Hf as [Hin Hm]. split; [done|].
  apply in_map_iff in Hin as (d & <- & Hd). apply in_seq in Hd. exists d. lia.
Qed.

Lemma earliest_eligible_view_u64 e r who ev :
  in_u64 (view e) → earliest_eligible_view e r who = Some ev →
  in_u64 ev ∧ view e ≤ ev.
Proof.
  intros Hv (_ & d & _ & ->)%earliest_eligible_view_spec. split.
  - apply sat_add_u64; unfold_sat; lia.
  - unfold_sat. lia.
Qed.

Lemma enter_voting_phase_inv e b v :
  engine_inv e → in_u64 v → height (header b) = round e →
  proposer (header b) ∈ validators e →
  engine_inv (enter_voting_phase (set_view e v) b).
Proof.
  intros [] ? Hh Hp. inv_split.
Qed.

Lemma set_view_inv e v : engine_inv e → in_u64 v → engine_inv (set_view e v).
Proof. intros [] ?. by split. Qed.

Lemma set_view_id e : set_view e (view e) = e.
Proof. by destruct e. Qed.

Lemma propose_inv b e : engine_inv e → engine_inv (propose b e).2.
Proof.
  intros Hi. unfold propose, validate_proposal_current_view.
  repeat case_match; simplify_eq/=; bool_to_prop; try done.
  rewrite <- (set_view_id e) at 1. apply enter_voting_phase_inv; try done; [apply Hi|].
  by apply is_validator_spec.
Qed.

(** Every accepted proposal goes through one of two states. *)
Lemma accept_proposal_cases b e r e' :
  accept_proposal b e = (r, e') →
  (e' = e ∧ (r = Ok () → ∃ p, pending_block e = Some p ∧ block_hash p = block_hash b)) ∨
  ∃ ev, r = Ok () ∧ earliest_eligible_view e (round e) (proposer (header b)) = Some ev
    ∧ ev ≤ sat_add u64_max (view e) 1
    ∧ height (header b) = round e ∧ proposer (header b) ∈ validators e
    ∧ (e' = set_view e ev ∧ (∃ p, pending_block e = Some p ∧ block_hash p = block_hash b)
       ∨ e' = enter_voting_phase (set_view e ev) b).
Proof.
  unfold accept_proposal. intros Ha.
  repeat case_match; simplify_eq/=; bool_to_prop; subst;
    try (left; split; [done|by eauto]);
    right; eexists; (split_and!; [done..|lia|done|by apply is_validator_spec|]);
    eauto; right; by rewrite set_view_id.
Qed.

Lemma accept_proposal_inv b e : engine_inv e → engine_inv (accept_proposal b e).2.
Proof.
  intros Hi. destruct (accept_proposal b e) as [r e'] eqn:Ha. simpl.
  apply accept_proposal_cases in Ha as [[-> _]|(ev & _ & Hev & _ & Hh & Hp & Hc)]; [done|].
  apply earliest_eligible_view_u64 in Hev as [Hu _]; [|apply Hi].
  destruct Hc as [[-> _] | ->]; eauto using set_view_inv, enter_voting_phase_inv.
Qed.

Lemma set_votes_inv e v h b :
  engine_inv e → v ∈ validators e → pending_block e = Some b →
  engine_inv (set_votes e (<[v := h]> (votes e))).
Proof.
  intros [] Hv Hb. inv_split.
  intros w h' [[-> _]|[_ ?]]%lookup_insert_Some; eauto.
Qed.

Lemma commit_state_inv e h : engine_inv e → engine_inv (commit_state e h).
Proof.
  intros []. inv_split.
  - apply wrap_add_u64.
  - split; [apply NoDup_voters_for|]. intros v Hv%elem_of_voters_for. eauto.
Qed.

(** The outcomes of a vote. *)
Lemma vote_cases h v e r e' :
  vote h v e = (r, e') →
  (e' = e ∧ ∀ h', r ≠ Ok (Some h')) ∨
  ∃ b, v ∈ validators e ∧ pending_block e = Some b ∧ votes e !! v = None ∧
    let e1 := set_votes e (<[v := h]> (votes e)) in
    (e' = e1 ∧ ∀ h', r ≠ Ok (Some h')) ∨
    (h = block_hash b ∧ quorum e1 ≤ counted_votes e1 ∧
     r = Ok (Some h) ∧ e' = commit_state e1 h).
Proof.
  unfold vote. intros Hv.
  repeat case_match; simplify_eq/=; bool_to_prop; try (left; by auto);
    right; eexists; (split_and!; [by apply is_validator_spec|done..|]); [by left|right|by left].
  match goal with Hn : ¬ block_hash ?b ≠ h |- _ => apply dec_stable in Hn; subst h end.
  by split_and!.
Qed.

Lemma vote_inv h v e : engine_inv e → engine_inv (vote h v e).2.
Proof.
  intros Hi. destruct (vote h v e) as [r e'] eqn:Hv. simpl.
  apply vote_cases in Hv as [[-> _]|(b & Hin & Hb & _ & [[-> _]|(_ & _ & _ & ->)])];
    eauto using commit_state_inv, set_votes_inv.
Qed.

Lemma insert_vrf_proof_inv v r p e : engine_inv e → engine_inv (insert_vrf_proof e v r p).2.
Proof.
  intros Hi. unfold insert_vrf_proof. repeat case_match; simpl; try done.
  bool_to_prop. destruct Hi. inv_split.
  intros r' m' v' p' [Hl _]%map_lookup_filter_Some Hm.
  apply lookup_insert_Some in Hl as [[-> <-]|[_ Hl]]; [|by eauto].
  apply lookup_insert_Some in Hm as [[-> ->]|[_ Hm]].
  - split_and!; try done. by apply is_validator_spec.
  - destruct (vrf_proofs e !! r') as [m|] eqn:E; simpl in Hm; [by eauto|].
    by rewrite lookup_empty in Hm.
Qed.

Lemma config_inv op e e' :
  match op with OpPropose _ | OpAccept _ | OpVote _ _ | OpVrf _ _ _ => False | _ => True end →
  engine_inv e → op_ok op → apply_op op e = Some e' → engine_inv e'.
Proof.
  destruct op as [ancs|mode|vals|h| | | | |]; intros Hop Hi Hok Ha; try done;
    simpl in Ha; simplify_eq; destruct Hi.
  - inv_split. apply (set_anchors_NoDup e ancs).
  - inv_split. case_decide; [|by intros ???? Hl; rewrite lookup_empty in Hl].
    subst. naive_solver.
  - unfold set_validators in Ha. destruct vals; simplify_eq. inv_split.
    split; [constructor|]. by intros v Hv%elem_of_nil.
  - inv_split.
    split; [constructor|]. by intros v Hv%elem_of_nil.
  - inv_split.
    apply sat_add_u64; unfold in_u64 in *; lia.
Qed.

Lemma apply_op_inv op e e' :
  engine_inv e → op_ok op → apply_op op e = Some e' → engine_inv e'.
Proof.
  intros Hi Hok Ha. destruct op; try (by eapply config_inv; eauto);
    simpl in Ha; simplify_eq;
    auto using propose_inv, accept_proposal_inv, vote_inv, insert_vrf_proof_inv.
Qed.

Lemma new_inv vals e : new vals = Some e → engine_inv e.
Proof.
  destruct vals; [done|]. intros [= <-]. inv_split.
  - apply NoDup_nil_2.
  - split; [apply NoDup_nil_2|set_solver].
Qed.

Lemma reaches_inv e cast commits : reaches e cast commits → engine_inv e.
Proof. induction 1; eauto using new_inv, apply_op_inv. Qed.

End Invariant.

(** ** Quorums and agreement *)

Section Agreement.
Context `{Host}.
Implicit Types e : ConsensusEngine.

Lemma config_electorate e1 e2 : same_config e1 e2 → electorate e1 = electorate e2.
Proof. unfold electorate, active_anchors. by intros [-> ->]. Qed.

Lemma config_quorum e1 e2 : same_config e1 e2 → quorum e1 = quorum e2.
Proof. unfold quorum, f, active_anchors. by intros [-> ->]. Qed.

Lemma config_vote_counts e1 e2 v : same_config e1 e2 → vote_counts e1 v = vote_counts e2 v.
Proof. unfold vote_counts, active_anchors. by intros [-> ->]. Qed.

Lemma electorate_spec e v :
  v ∈ electorate e ↔ v ∈ validators e ∧ vote_counts e v = true.
Proof.
  unfold electorate, vote_counts. destruct (anchors e) eqn:Ea; [naive_solver|].
  destruct (active_anchors e) eqn:E; [naive_solver|].
  rewrite bool_decide_eq_true, <- E. unfold active_anchors.
  rewrite list_elem_of_filter. naive_solver.
Qed.

Lemma anchor_quorum_overlap a :
  1 ≤ a → a + (a - 1) `div` 3 + 1 ≤ 2 * anchor_quorum a.
Proof. unfold anchor_quorum. intros. Z.to_euclidean_division_equations. lia. Qed.

Lemma anchor_quorum_bounds a : 1 ≤ a → 1 ≤ anchor_quorum a ≤ a.
Proof. unfold anchor_quorum. intros. Z.to_euclidean_division_equations. lia. Qed.

(** The engine only counts votes it was given in the round it is in. *)
Lemma vote_cast_step op e e' cast :
  (∀ v h, votes e !! v = Some h → (round e, v, h) ∈ cast) → apply_op op e = Some e' →
  ∀ v h, votes e' !! v = Some h → (round e', v, h) ∈ cast_of op e ++ cast.
Proof.
  intros Hc Ha v h Hl. rewrite elem_of_app.
  destruct op as [ancs|mode|vals|sh| |w r p|b|b|h' w]; simpl in *.
  1-5: try (unfold set_validators in Ha; case_match; simplify_eq); simplify_eq/=;
    try (by simplify_map_eq); by auto.
  - unfold insert_vrf_proof in Ha. repeat case_match; simplify_eq/=; auto.
  - unfold propose in Ha. repeat case_match; simplify_eq/=; auto; by simplify_map_eq.
  - destruct (accept_proposal b e) as [r e2] eqn:E. simplify_eq/=.
    apply accept_proposal_cases in E as [[-> _]|(ev & _ & _ & _ & _ & _ & Hc')]; [by auto|].
    destruct Hc' as [[-> _] | ->]; simpl in *; [by auto|]. by simplify_map_eq.
  - destruct (vote h' w e) as [r e2] eqn:E. simplify_eq/=.
    apply vote_cases in E as [[-> _]|(b & _ & _ & _ & [[-> _]|(_ & _ & _ & ->)])];
      simpl in *; [by auto| |by simplify_map_eq].
    apply lookup_insert_Some in Hl as [[-> ->]|[_ ?]]; [left; by apply list_elem_of_singleton|].
    by auto.
Qed.

Lemma reaches_votes_cast e cast commits :
  reaches e cast commits → ∀ v h, votes e !! v = Some h → (round e, v, h) ∈ cast.
Proof.
  induction 1 as [vals e Hn|op e e' cast commits Hr IH Hok Ha].
  - intros v h. destruct vals; simplify_eq/=. by rewrite lookup_empty.
  - by eapply vote_cast_step.
Qed.

Lemma commit_justified_mono cast cast' c :
  commit_justified cast c → commit_justified (cast' ++ cast) c.
Proof. intros []. split; try done. intros. apply elem_of_app. auto. Qed.

(** A reported commit is backed by a quorum of distinct validators. *)
Lemma commits_of_justified op e cast c :
  engine_inv e → (∀ v h, votes e !! v = Some h → (round e, v, h) ∈ cast) →
  c ∈ commits_of op e → commit_justified (cast_of op e ++ cast) c.
Proof.
  intros Hi Hc Hin. destruct op as [| | | | | | | |h v]; try by apply elem_of_nil in Hin.
  simpl in Hin. destruct (vote h v e) as [r e'] eqn:E.
  pose proof (vote_inv h v e Hi) as Hi'. rewrite E in Hi'. simpl in Hi'.
  apply vote_cases in E as [[-> Hr]|(b & Hv & Hb & Hn & [[-> Hr]|(Hh & Hq & -> & ->)])].
  1,2: destruct r as [[h0|]|]; [by destruct (Hr h0)|by apply elem_of_nil in Hin..].
  apply list_elem_of_singleton in Hin as ->. split; simpl.
  - apply Hi'.
  - intros w Hw. by apply Hi'.
  - intros w Hw%elem_of_voters_for. simpl in Hw.
    apply lookup_insert_Some in Hw as [[-> _]|[_ ?]]; [left|right; by auto].
  - unfold counted_votes in Hq. simpl in Hq. rewrite Hb, <- Hh in Hq.
    by rewrite (config_quorum e (set_votes e (<[v:=h]> (votes e)))).
  - exists b. split_and!; try done. by eapply inv_pending.
Qed.

Lemma reaches_commits e cast commits c :
  reaches e cast commits → c ∈ commits → commit_justified cast c.
Proof.
  induction 1 as [|op e e' cast commits Hr IH Hok Ha]; intros Hin.
  - by apply elem_of_nil in Hin.
  - apply elem_of_app in Hin as [Hin|Hin].
    + eapply commits_of_justified; eauto using reaches_inv, reaches_votes_cast.
    + by apply commit_justified_mono, IH.
Qed.

Lemma run_ops_reaches ops e cast commits e' cast' commits' :
  reaches e cast commits → Forall op_ok ops →
  run_ops ops (e, cast, commits) = Some (e', cast', commits') →
  reaches e' cast' commits'.
Proof.
  revert e cast commits. induction ops as [|op ops IH]; intros e cast commits Hr Hok Hrun;
    simpl in Hrun; [by simplify_eq|].
  apply Forall_cons in Hok as [??]. case_match; [|done].
  eapply IH; [|done|done]. by eapply reaches_op.
Qed.

Lemma run_reaches vals ops e :
  new vals = Some e → Forall op_ok ops → is_Some (run_ops ops (e, [], [])) →
  reaches (run ops e).1.1 (run ops e).1.2 (run ops e).2.
Proof.
  intros Hn Hok [[[e' cast] commits] Hrun]. unfold run. rewrite Hrun. simpl.
  eapply run_ops_reaches; [by eapply reaches_new|done|done].
Qed.

(** The voters common to two commits under one configuration. *)
Lemma common_voters c1 c2 cast1 cast2 :
  commit_justified cast1 c1 → commit_justified cast2 c2 →
  same_config (c_engine c1) (c_engine c2) →
  ∃ S, NoDup S ∧
    2 * quorum (c_engine c1) - Z.of_nat (length (electorate (c_engine c1)))
      ≤ Z.of_nat (length S) ∧
    ∀ v, v ∈ S → v ∈ electorate (c_engine c1) ∧
      (round (c_engine c1), v, c_hash c1) ∈ cast1 ∧
      (round (c_engine c2), v, c_hash c2) ∈ cast2.
Proof.
  intros J1 J2 Hcfg.
  set (Q e (l : list AccountId) := filter (λ v, vote_counts e v = true) l).
  set (l1 := Q (c_engine c1) (c_voters c1)). set (l2 := Q (c_engine c2) (c_voters c2)).
  assert (∀ v, v ∈ l1 → v ∈ c_voters c1 ∧ v ∈ electorate (c_engine c1)) as H1.
  { intros v [? ?]%list_elem_of_filter. rewrite electorate_spec. by eauto using just_validators. }
  assert (∀ v, v ∈ l2 → v ∈ c_voters c2 ∧ v ∈ electorate (c_engine c1)) as H2.
  { intros v [? ?]%list_elem_of_filter. rewrite (config_electorate _ _ Hcfg), electorate_spec.
    by eauto using just_validators. }
  exists (filter (λ v, v ∈ l2) l1). split_and!.
  - by apply NoDup_filter, NoDup_filter, J1.
  - pose proof (intersection_length l1 l2 (electorate (c_engine c1))
      (NoDup_filter _ _ (just_nodup _ _ J1)) (NoDup_filter _ _ (just_nodup _ _ J2))
      (λ v Hv, proj2 (H1 v Hv)) (λ v Hv, proj2 (H2 v Hv))).
    pose proof (just_quorum _ _ J1). pose proof (just_quorum _ _ J2) as Hq2.
    rewrite <- (config_quorum _ _ Hcfg) in Hq2. unfold l1, l2, Q in *. lia.
  - intros v [Hv2 Hv1]%list_elem_of_filter.
    apply H1 in Hv1 as [??]. apply H2 in Hv2 as [??]. by eauto using just_cast.
Qed.

End Agreement.

(** ** Progress *)

Section Progress.
Context `{Host}.
Implicit Types e : ConsensusEngine.

Lemma voters_for_insert vs v h :
  vs !! v = None → voters_for (<[v := h]> vs) h ≡ₚ v :: voters_for vs h.
Proof.
  intros Hn. unfold voters_for. rewrite map_filter_insert_True by done.
  rewrite map_to_list_insert; [done|]. by apply map_lookup_filter_None; left.
Qed.

Lemma counted_votes_pending e b :
  pending_block e = Some b →
  counted_votes e = Z.of_nat (length (filter (λ v, vote_counts e v = true)
                                             (voters_for (votes e) (block_hash b)))).
Proof. unfold counted_votes. by intros ->. Qed.

(** A vote for the pending block by a validator that has not voted. *)
Lemma vote_fresh e b v :
  pending_block e = Some b → v ∈ validators e → votes e !! v = None →
  let e1 := set_votes e (<[v := block_hash b]> (votes e)) in
  vote (block_hash b) v e =
    if quorum e <=? counted_votes e1
    then (Ok (Some (block_hash b)), commit_state e1 (block_hash b))
    else (Ok None, e1).
Proof.
  intros Hb Hv Hn. cbv zeta. unfold vote. rewrite (proj2 (is_validator_spec e v) Hv), Hb, Hn.
  simpl. rewrite bool_decide_eq_false_2 by auto.
  by rewrite (config_quorum (set_votes _ _) e).
Qed.

(** If the remaining voters can complete the quorum, the loop commits. *)
Lemma vote_all_commits b vals e :
  pending_block e = Some b → counted_votes e < quorum e →
  NoDup vals → (∀ v, v ∈ vals → v ∈ validators e ∧ votes e !! v = None) →
  quorum e ≤ Z.of_nat (length (filter (λ v, vote_counts e v = true)
                              (voters_for (votes e) (block_hash b) ++ vals))) →
  ∃ e', vote_all (block_hash b) vals e = (Ok (block_hash b), e') ∧
    round e' = wrap_add u64_max (round e) 1 ∧ view e' = 0 ∧ pending_block e' = None ∧
    validators e' = validators e.
Proof.
  revert e. induction vals as [|v vals IH]; intros e Hb Hlt Hnd Hvals Hq.
  { rewrite app_nil_r, <- (counted_votes_pending e b Hb) in Hq. lia. }
  apply NoDup_cons in Hnd as [Hnv Hnd]. destruct (Hvals v) as [Hv Hn]; [left|].
  simpl. rewrite (vote_fresh e b v) by done.
  set (e1 := set_votes e _). destruct (quorum e <=? counted_votes e1) eqn:Eq.
  { eexists. split; [done|]. done. }
  bool_to_prop. edestruct (IH e1) as (e' & -> & ?); [done| |done| | |by eauto].
  - by rewrite (config_quorum e1 e).
  - intros w Hw. destruct (Hvals w) as [? ?]; [by right|]. split; [done|].
    simpl. rewrite lookup_insert_ne; [done|]. by intros ->.
  - rewrite (config_quorum e1 e) by done. simpl.
    rewrite (voters_for_insert _ _ _ Hn).
    rewrite <- Permutation_middle in Hq. simpl. done.
Qed.

Lemma quorum_le_electorate e :
  validators e ≠ [] → 1 ≤ quorum e ≤ Z.of_nat (length (electorate e)).
Proof.
  intros Hne. unfold quorum, electorate, f, max_faulty, sat_sub.
  assert (1 ≤ Z.of_nat (length (validators e))) by (destruct (validators e); [done|simpl; lia]).
  destruct (anchors e); [Z.to_euclidean_division_equations; lia|].
  destruct (active_anchors e) eqn:E; [simpl; Z.to_euclidean_division_equations; lia|].
  destruct (_ =? 0) eqn:Ez; [by bool_to_prop|]. apply anchor_quorum_bounds. simpl. lia.
Qed.

Lemma electorate_counted e :
  NoDup (validators e) → NoDup (anchors e) →
  (length (electorate e)
   ≤ length (filter (λ v, vote_counts e v = true) (validators e)))%nat.
Proof.
  intros Hv Ha. apply NoDup_incl_length.
  - assert (NoDup (active_anchors e)) by (by apply NoDup_filter).
    unfold electorate. by destruct (anchors e), (active_anchors e).
  - intros v [? ?]%electorate_spec. by apply list_elem_of_filter.
Qed.

(** Iterated view changes. *)
Lemma view_iter_abandon k e :
  0 ≤ view e → view e + Z.of_nat k ≤ u64_max →
  view (Nat.iter k abandon_proposal e) = view e + Z.of_nat k.
Proof.
  induction k as [|k IH]; intros H0 Hk; [simpl; lia|].
  simpl. rewrite IH by lia. unfold sat_add. lia.
Qed.

Lemma iter_abandon_fields k e :
  validators (Nat.iter k abandon_proposal e) = validators e ∧
  round (Nat.iter k abandon_proposal e) = round e ∧
  leader_election (Nat.iter k abandon_proposal e) = leader_election e ∧
  anchors (Nat.iter k abandon_proposal e) = anchors e ∧
  ((0 < k)%nat → pending_block (Nat.iter k abandon_proposal e) = None).
Proof. induction k as [|k (?&?&?&?&?)]; simpl; split_and!; try done. lia. Qed.

Lemma round_robin_index_hit e r v i x :
  validators e !! i = Some x → 0 ≤ r + v ≤ u64_max →
  (r + v) `mod` Z.of_nat (length (validators e)) = Z.of_nat i →
  validators e !! round_robin_index_at e r v = Some x.
Proof.
  intros Hi Hb Hm. unfold round_robin_index_at, wrap_add.
  pose proof (lookup_lt_Some _ _ _ Hi).
  rewrite (Z.mod_small (r + v)) by lia.
  replace (Z.max 1 _) with (Z.of_nat (length (validators e))) by lia.
  by rewrite Hm, Nat2Z.id.
Qed.

Lemma views_until_hit e i :
  (i < length (validators e))%nat →
  (views_until e i < length (validators e))%nat ∧
  (round e + (view e + Z.of_nat (views_until e i)))
    `mod` Z.of_nat (length (validators e)) = Z.of_nat i.
Proof.
  intros Hi. unfold views_until. set (n := Z.of_nat (length (validators e))).
  assert (0 < n) by lia.
  pose proof (Z.mod_pos_bound (Z.of_nat i - (round e + view e)) n ltac:(lia)).
  split; [lia|]. rewrite Z2Nat.id by lia.
  rewrite Z.add_assoc, Zplus_mod_idemp_r.
  replace (_ + (_ - _)) with (Z.of_nat i) by lia. apply Z.mod_small. lia.
Qed.

Lemma iter_abandon_leads e i x :
  leader_election e = RoundRobin → validators e !! i = Some x →
  0 ≤ round e → 0 ≤ view e →
  round e + view e + Z.of_nat (length (validators e)) ≤ u64_max →
  let e' := Nat.iter (views_until e i) abandon_proposal e in
  leader e' (round e) = Some x ∧ may_propose e' (round e) x = true.
Proof.
  intros Hrr Hi Hr Hv Hb e'. pose proof (lookup_lt_Some _ _ _ Hi) as Hlt.
  destruct (views_until_hit e i Hlt) as [Hk Hm].
  destruct (iter_abandon_fields (views_until e i) e) as (Ev & Er & El & _ & _).
  fold e' in Ev, Er, El.
  assert (view e' = view e + Z.of_nat (views_until e i)) as Hview
    by (apply view_iter_abandon; lia).
  assert (leader_at e' (round e) (view e') = Some x) as Hl.
  { unfold leader_at. rewrite El, Hrr. apply round_robin_index_hit with i.
    - by rewrite Ev.
    - rewrite Hview. lia.
    - by rewrite Ev, Hview. }
  split; [done|]. unfold may_propose, may_propose_at. rewrite Hl.
  rewrite (proj2 (is_validator_spec e' x)).
  - simpl. by rewrite bool_decide_eq_true_2.
  - rewrite Ev. by eapply list_elem_of_lookup_2.
Qed.

End Progress.

(** ** Properties *)

Section Properties.
Context `{Host}.
Implicit Types e : ConsensusEngine.

(** Every state an engine reaches through its interface is well formed:
    a non-empty validator set, [u64] round and view, votes and the recorded
    committing voters only from validators and without repetition, a pending
    block of the current round by a validator, no votes without a pending
    block, distinct anchors, and only verified ECVRF proofs of validators. *)
Theorem engine_reachable_inv e cast commits :
  reaches e cast commits → engine_inv e.
Proof. apply reaches_inv. Qed.

(** C25: a commit is backed by a quorum: each commit an engine reports is for
    the hash of the block that was pending at that height, and the recorded
    voters are distinct validators that each voted for that hash in that
    round, at least a quorum of them with a vote that counts. *)
Theorem commit_backed_by_quorum e cast commits c :
  reaches e cast commits → c ∈ commits → commit_justified cast c.
Proof. apply reaches_commits. Qed.

(** C6: agreement in anchor mode. Two engines with the same validators and
    anchors that commit in the same round commit the same block, when at most
    [(a - 1) / 3] of the [a] active anchors vote for two hashes in it. *)
Theorem anchor_agreement e1 e2 cast1 cast2 commits1 commits2 c1 c2 bad :
  reaches e1 cast1 commits1 → reaches e2 cast2 commits2 →
  c1 ∈ commits1 → c2 ∈ commits2 →
  same_config (c_engine c1) (c_engine c2) → round (c_engine c1) = round (c_engine c2) →
  active_anchors (c_engine c1) ≠ [] →
  Z.of_nat (length bad) ≤ (Z.of_nat (length (active_anchors (c_engine c1))) - 1) `div` 3 →
  (∀ v h1 h2, v ∈ active_anchors (c_engine c1) → v ∉ bad →
    (round (c_engine c1), v, h1) ∈ cast1 → (round (c_engine c1), v, h2) ∈ cast2 → h1 = h2) →
  c_hash c1 = c_hash c2.
Proof.
  intros R1 R2 Hc1 Hc2 Hcfg Hr Hact Hbad Hhonest.
  destruct (common_voters c1 c2 cast1 cast2) as (S & Hnd & Hlen & HS);
    eauto using reaches_commits.
  assert (electorate (c_engine c1) = active_anchors (c_engine c1)
    ∧ quorum (c_engine c1) = anchor_quorum (Z.of_nat (length (active_anchors (c_engine c1)))))
    as [He Hq].
  { unfold electorate, quorum.
    destruct (anchors (c_engine c1)) eqn:E; [by unfold active_anchors in Hact; rewrite E in Hact|].
    destruct (active_anchors (c_engine c1)); done. }
  rewrite He, Hq in Hlen.
  assert (1 ≤ Z.of_nat (length (active_anchors (c_engine c1))))
    by (destruct (active_anchors (c_engine c1)); [done|simpl; lia]).
  pose proof (anchor_quorum_overlap (Z.of_nat (length (active_anchors (c_engine c1))))).
  destruct (exists_not_in S bad) as (v & Hv & Hnb); [done|lia|].
  rewrite He in HS. destruct (HS v Hv) as (? & ? & ?). rewrite <- Hr in *. eauto.
Qed.

(** C11: agreement of the classic quorum for [n = 3f + 1]: without active
    anchors, two engines with the same validators that commit in one round
    commit the same block, when at most [f] validators vote for two hashes. *)
Theorem classic_agreement e1 e2 cast1 cast2 commits1 commits2 c1 c2 bad :
  reaches e1 cast1 commits1 → reaches e2 cast2 commits2 →
  c1 ∈ commits1 → c2 ∈ commits2 →
  same_config (c_engine c1) (c_engine c2) → round (c_engine c1) = round (c_engine c2) →
  active_anchors (c_engine c1) = [] →
  Z.of_nat (length (validators (c_engine c1))) = 3 * f (c_engine c1) + 1 →
  Z.of_nat (length bad) ≤ f (c_engine c1) →
  (∀ v h1 h2, v ∈ validators (c_engine c1) → v ∉ bad →
    (round (c_engine c1), v, h1) ∈ cast1 → (round (c_engine c1), v, h2) ∈ cast2 → h1 = h2) →
  c_hash c1 = c_hash c2.
Proof.
  intros R1 R2 Hc1 Hc2 Hcfg Hr Hact Hn Hbad Hhonest.
  destruct (common_voters c1 c2 cast1 cast2) as (S & Hnd & Hlen & HS);
    eauto using reaches_commits.
  assert (electorate (c_engine c1) = validators (c_engine c1)
    ∧ quorum (c_engine c1) = 2 * f (c_engine c1) + 1) as [He Hq].
  { unfold electorate, quorum. rewrite Hact. by destruct (anchors (c_engine c1)). }
  rewrite He, Hq in Hlen. rewrite He in HS.
  destruct (exists_not_in S bad) as (v & Hv & Hnb); [done|lia|].
  destruct (HS v Hv) as (? & ? & ?). rewrite <- Hr in *. eauto.
Qed.

(** One vote per validator and proposal. After a validator has voted on
    the pending block, whatever the hash, a later vote of it for another hash
    is reported as equivocation, and a repetition is accepted without effect;
    neither changes the state. *)
Theorem vote_once e h1 h2 v r e1 :
  is_validator e v = true → is_Some (pending_block e) →
  vote h1 v e = (r, e1) → (∀ h, r ≠ Ok (Some h)) → votes e !! v = None →
  votes e1 !! v = Some h1 ∧ pending_block e1 = pending_block e ∧
  vote h2 v e1 =
    (if bool_decide (h1 = h2) then Ok None else Err (Equivocation v (round e)), e1).
Proof.
  intros Hv [b Hb] Hvote Hr Hn.
  assert (e1 = set_votes e (<[v := h1]> (votes e))) as ->.
  { unfold vote in Hvote. rewrite Hv, Hb, Hn in Hvote.
    repeat case_match; simplify_eq/=; try done. by destruct (Hr (block_hash b)). }
  simpl. split_and!; [by simplify_map_eq|done|].
  unfold vote. simpl. unfold is_validator in *. simpl in *.
  rewrite Hv, Hb. simpl. rewrite lookup_insert_eq.
  by repeat case_bool_decide.
Qed.

(** A network proposal moves the view by at most one and never back,
    keeps the round, and replaces a pending proposal by another block only
    from the next view or, in the same view, by the fallback anchor over a
    proposer that is not an anchor. *)
Theorem accept_proposal_view e b e' :
  in_u64 (view e) → accept_proposal b e = (Ok (), e') →
  view e ≤ view e' ≤ view e + 1 ∧ round e' = round e ∧
  height (header b) = round e ∧ may_propose_at e (round e) (view e') (proposer (header b)) = true ∧
  (∀ p, pending_block e = Some p → block_hash p ≠ block_hash b →
    pending_block e' = Some b ∧ votes e' = ∅ ∧
    (view e' = view e + 1 ∨
     fallback_anchor_at e (round e) (view e) = Some (proposer (header b))
     ∧ is_anchor e (proposer (header p)) = false)).
Proof.
  intros Hu Ha. unfold accept_proposal in Ha.
  repeat match type of Ha with
  | (if ?c then _ else _) = _ => destruct c eqn:?
  | match earliest_eligible_view ?a ?b ?c with _ => _ end = _ =>
      destruct (earliest_eligible_view a b c) as [ev|] eqn:Hev
  | match pending_block ?x with _ => _ end = _ => destruct (pending_block x) as [p|] eqn:Hp
  end; simplify_eq/=; bool_to_prop;
  destruct (earliest_eligible_view_u64 _ _ _ _ Hu Hev) as [??];
  apply earliest_eligible_view_spec in Hev as [Hm _]; unfold sat_add, in_u64 in *;
  repeat (case_match; bool_to_prop); simpl; subst;
  (split_and!; [lia..|done|done| |]); try done;
  try (by intros p' [= <-]); try (intros p' [= <-] _); try lia.
  all: try (replace (view e) with ev by lia; done).
  all: (split_and!; [done..|]); try (left; lia); by right.
Qed.

End Properties.

(** Lemmas on the ECVRF leader. *)
Section EcvrfLemmas.
Context `{Host}.

(** [best] is a candidate whose output is no larger than those seen. *)
Lemma best_ecvrf_spec vals round proofs best l :
  best_ecvrf vals round proofs best = Some l →
  (∃ out, (best = Some (l, out) ∨ l ∈ vals ∧ vrf_output <$> proof_of proofs l = Some out) ∧
    (∀ v o, best = Some (v, o) → bytes_leb out o = true) ∧
    ∀ v, v ∈ vals → ∃ p, proof_of proofs v = Some p ∧ verify_ecvrf_output v round p = true ∧
      bytes_leb out (vrf_output p) = true).
Proof.
  revert best. induction vals as [|v vals IH]; intros best Hb; simpl in Hb.
  - destruct best as [[l' out]|]; simplify_eq/=. exists out.
    split_and!; [by left| |by intros ? ?%elem_of_nil].
    intros ?? [= _ <-]. by rewrite bytes_leb_refl.
  - destruct (find _ proofs) as [[w vrf]|] eqn:Ef; [|done].
    destruct (verify_ecvrf_output v round vrf) eqn:Ev; [simpl in Hb|done].
    assert (proof_of proofs v = Some vrf) as Hp by (unfold proof_of; by rewrite Ef).
    apply IH in Hb as (out & Hl & Hbest & Hall). exists out.
    assert (bytes_leb out (vrf_output vrf) = true ∧
      ∀ v' o, best = Some (v', o) → bytes_leb out o = true) as [H1 H2].
    { destruct best as [[bv bo]|]; [|split; [by eapply Hbest|done]].
      destruct (bytes_ltb (vrf_output vrf) bo) eqn:Ec.
      - split; [by eapply Hbest|]. intros ?? [= <- <-].
        eapply bytes_leb_trans; [by eapply Hbest|by apply bytes_ltb_true].
      - split; [|by intros ?? [= <- <-]; eapply Hbest].
        eapply bytes_leb_trans; [by eapply Hbest|by apply bytes_ltb_false]. }
    split_and!; [|done|].
    + destruct Hl as [Hl|[??]]; [|right; set_solver].
      repeat case_match; simplify_eq; eauto; right; rewrite Hp; (split; [left|done]).
    + intros v' [->|?]%elem_of_cons; eauto.
Qed.

Lemma best_ecvrf_total vals round proofs best :
  vals ≠ [] ∨ is_Some best →
  (∀ v, v ∈ vals → ∃ p, proof_of proofs v = Some p ∧ verify_ecvrf_output v round p = true) →
  is_Some (best_ecvrf vals round proofs best).
Proof.
  revert best. induction vals as [|v vals IH]; intros best Hne Hall; simpl.
  - destruct Hne as [?|[? ->]]; [done|]. by eexists.
  - destruct (Hall v) as (p & Hp & Hv); [left|]. unfold proof_of in Hp.
    destruct (find _ proofs) as [[w vrf]|]; simplify_eq/=. rewrite Hv. simpl.
    apply IH; [|intros; apply Hall; by right]. right. repeat case_match; eauto.
Qed.

Lemma proof_of_map_to_list (m : gmap AccountId VrfOutput) v :
  proof_of (map_to_list m) v = m !! v.
Proof.
  unfold proof_of. destruct (find _ _) as [[w p]|] eqn:Ef; simpl.
  - apply find_some in Ef as [Hin Hw]. bool_to_prop. simpl in Hw. subst.
    apply list_elem_of_In, elem_of_map_to_list in Hin. done.
  - symmetry. apply eq_None_not_Some. intros [p Hp].
    apply find_none with (x := (v, p)) in Ef.
    + by bool_to_prop.
    + by apply list_elem_of_In, elem_of_map_to_list.
Qed.

End EcvrfLemmas.

Section MoreProperties.
Context `{Host}.
Implicit Types e : ConsensusEngine.

(** The pacemaker gives every validator its turn. In round-robin mode
    fewer than [n] timeouts make any chosen validator the leader of the round;
    the engine is then ready for its proposal: an eligible block of that
    validator for the round enters the voting phase. *)
Theorem pacemaker_rotates e i x b :
  leader_election e = RoundRobin → validators e !! i = Some x →
  in_u64 (round e) → in_u64 (view e) →
  round e + view e + Z.of_nat (length (validators e)) ≤ u64_max →
  height (header b) = round e → proposer (header b) = x →
  (views_until e i < length (validators e))%nat ∧
  leader (Nat.iter (views_until e i) abandon_proposal e) (round e) = Some x ∧
  ∃ e', propose b (Nat.iter (views_until e i) abandon_proposal e) = (Ok (), e')
    ∧ pending_block e' = Some b ∧ votes e' = ∅.
Proof.
  intros Hrr Hi [Hr _] [Hv _] Hb Hh Hp.
  destruct (iter_abandon_leads e i x) as [Hl Hm]; try done.
  destruct (iter_abandon_fields (views_until e i) e) as (Ev & Er & _ & _ & _).
  split_and!; [|done|].
  - apply views_until_hit. by eapply lookup_lt_Some.
  - eexists. unfold propose, validate_proposal_current_view. rewrite Hh, Hp, Er, Z.eqb_refl, Hm.
    rewrite (proj2 (is_validator_spec _ x)); [done|].
    rewrite Ev. by eapply list_elem_of_lookup_2.
Qed.

(** With every validator voting, an eligible proposal commits:
    [propose_and_commit] returns the block's hash and moves to the next round
    with no pending block, for duplicate-free validator and anchor lists. *)
Theorem propose_and_commit_commits e b :
  engine_inv e → NoDup (validators e) →
  validate_proposal_current_view e b = Ok () →
  ∃ e', propose_and_commit b e = (Ok (block_hash b), e') ∧
    round e' = wrap_add u64_max (round e) 1 ∧ view e' = 0 ∧ pending_block e' = None ∧
    validators e' = validators e.
Proof.
  intros Hi Hnd Hok. unfold propose_and_commit, propose. rewrite Hok.
  set (e1 := enter_voting_phase e b).
  destruct (quorum_le_electorate e1) as [Hq1 Hq2]; [apply Hi|].
  apply (vote_all_commits b (validators e) e1); try done.
  - rewrite (counted_votes_pending e1 b) by done.
    change (votes e1) with (∅ : gmap AccountId Hash). unfold voters_for.
    rewrite map_filter_empty, map_to_list_empty. simpl. lia.
  - change (votes e1) with (∅ : gmap AccountId Hash). unfold voters_for.
    rewrite map_filter_empty, map_to_list_empty. simpl.
    pose proof (electorate_counted e1 Hnd (inv_anchors _ Hi)) as Hl. simpl in Hl. lia.
Qed.

(** The ECVRF leader. With a verified proof of every validator the
    leader of view 0 is a validator whose output is the smallest, whatever
    order the proof map iterates in; a missing or invalid proof makes every
    node use the shared fallback output instead. *)
Theorem ecvrf_leader_smallest e r m :
  engine_inv e → leader_election e = Vrf → vrf_proofs e !! r = Some m →
  (if has_full_vrf_proofs e r then
     ∃ l p, leader_at e r 0 = Some l ∧ l ∈ validators e ∧ m !! l = Some p ∧
       leader_vrf_output e r = Some (vrf_output p) ∧
       ∀ v, v ∈ validators e → ∃ q, m !! v = Some q ∧
         bytes_leb (vrf_output p) (vrf_output q) = true
   else leader_at e r 0 = leader_from_vrf (validators e) (dummy_vrf_output r)).
Proof.
  intros Hi Hvrf Hm. pose proof (inv_validators _ Hi) as Hne.
  unfold has_full_vrf_proofs, leader_at, leader_vrf_output. rewrite Hm, Hvrf. simpl.
  set (L := leader_from_ecvrf_proofs (validators e) r (map_to_list m)).
  assert (L = best_ecvrf (validators e) r (map_to_list m) None) as HL
    by (unfold L, leader_from_ecvrf_proofs; by destruct (validators e)).
  destruct (forallb _ _) eqn:Ef.
  - assert (is_Some L) as [l Hl].
    { rewrite HL. apply best_ecvrf_total; [by left|]. intros v Hv.
      rewrite forallb_forall in Ef. apply list_elem_of_In, Ef in Hv as Hs. bool_to_prop.
      destruct Hs as [p Hp]. exists p. rewrite proof_of_map_to_list.
      split; [done|]. by eapply (inv_vrf _ Hi). }
    rewrite Hl. rewrite HL in Hl. apply best_ecvrf_spec in Hl as (out & Hl & _ & Hall).
    destruct Hl as [?|[Hlv Hlp]]; [done|].
    pose proof (proof_of_map_to_list m l) as Hpm.
    destruct (proof_of (map_to_list m) l) as [p|] eqn:Hp; simplify_eq/=.
    exists l, p. split_and!; try done.
    + unfold proof_of in Hp. destruct (find _ _) as [[w q]|]; by simplify_eq/=.
    + intros v Hv. destruct (Hall v Hv) as (q & Hq & _ & Hle).
      rewrite proof_of_map_to_list in Hq. eauto.
  - destruct L as [l|] eqn:E; [|done]. exfalso.
    symmetry in HL. apply best_ecvrf_spec in HL as (out & _ & _ & Hall).
    apply not_true_iff_false in Ef. apply Ef. rewrite forallb_forall. intros v Hv.
    apply list_elem_of_In, Hall in Hv as (p & Hp & _). rewrite proof_of_map_to_list in Hp.
    apply bool_decide_eq_true. eauto.
Qed.

End MoreProperties.

(** ** Concrete runs *)

Module SampleRuns.
Import Sample.
#[local] Existing Instance sample_host.

Definition A : Block := block_by v0 0 10.
Definition B : Block := block_by v1 0 20.

(** Two nodes with the validators [v0], [v1], [v2] and no anchors: the first
    takes the proposal of view 0, the second times out and takes that of view 1. *)
Definition classic_node1 := run [OpPropose A; OpVote (block_hash A) v0] (engine [v0; v1; v2] []).
Definition classic_node2 :=
  run [OpAbandon; OpPropose B; OpVote (block_hash B) v1] (engine [v0; v1; v2] []).

(** Four anchors, one of them voting twice. *)
Definition anchored := [v0; v1; v2; v3].
Definition anchor_node1 :=
  run [OpAnchors anchored; OpAccept A; OpVote (block_hash A) v0;
       OpVote (block_hash A) v1; OpVote (block_hash A) v2] (engine anchored []).
Definition anchor_node2 :=
  run [OpAnchors anchored; OpAccept A; OpVote (block_hash B) v3;
       OpVote (block_hash A) v1; OpVote (block_hash A) v2;
       OpVote (block_hash A) v0] (engine anchored []).

Definition quorum_node1 :=
  run [OpAccept A; OpVote (block_hash A) v0;
       OpVote (block_hash A) v1; OpVote (block_hash A) v2] (engine anchored []).
Definition quorum_node2 :=
  run [OpAccept A; OpVote (block_hash B) v3;
       OpVote (block_hash A) v1; OpVote (block_hash A) v2;
       OpVote (block_hash A) v0] (engine anchored []).

Definition first_commit (r : ConsensusEngine * list CastVote * list Commit) : Commit :=
  default (mkCommit (engine [] []) [] []) (head r.2).

Lemma engine_new vals : vals ≠ [] → new vals = Some (engine vals []).
Proof. by destruct vals. Qed.

Lemma reaches_sample vals ops :
  vals ≠ [] → forallb (λ op, match op with OpSync _ => false | _ => true end) ops = true →
  bool_decide (is_Some (run_ops ops (engine vals [], [], []))) = true →
  reaches (run ops (engine vals [])).1.1 (run ops (engine vals [])).1.2
    (run ops (engine vals [])).2.
Proof.
  intros Hv Hops Hs. apply (run_reaches vals); [by apply engine_new| |by bool_to_prop].
  rewrite forallb_forall in Hops. apply Forall_forall. intros op Hop%list_elem_of_In.
  specialize (Hops op Hop). by destruct op.
Qed.

(** Checks that the voters outside [bad] cast no two votes in round [r]. *)
Definition honest_outside (bad : list AccountId) (r : Z) (cast1 cast2 : list CastVote) : bool :=
  forallb (λ c1, forallb (λ c2,
    negb (bool_decide (c1.1 = c2.1)) || negb (c1.1.1 =? r) || bool_decide (c1.1.2 ∈ bad)
    || bool_decide (c1.2 = c2.2)) cast2) cast1.

Lemma honest_outside_spec bad r cast1 cast2 :
  honest_outside bad r cast1 cast2 = true →
  ∀ v h1 h2, v ∉ bad → (r, v, h1) ∈ cast1 → (r, v, h2) ∈ cast2 → h1 = h2.
Proof.
  unfold honest_outside. rewrite forallb_forall. intros Hall v h1 h2 Hb H1 H2.
  apply list_elem_of_In in H1, H2. specialize (Hall _ H1). rewrite forallb_forall in Hall.
  specialize (Hall _ H2). simpl in Hall. rewrite Z.eqb_refl in Hall.
  rewrite bool_decide_eq_true_2, bool_decide_eq_false_2 in Hall by done. simpl in Hall.
  by bool_to_prop.
Qed.

Ltac by_honest :=
  let v := fresh in let h1 := fresh in let h2 := fresh in
  intros v h1 h2 _; apply honest_outside_spec; vm_compute; reflexivity.

Ltac sample_reach := apply reaches_sample; [done|vm_compute; reflexivity..].

(** The classic quorum [2f + 1] with [f = (n - 1) / 3] does not intersect
    when [n] is not [3f + 1]: with three validators, none of which votes twice,
    two engines commit different blocks in round 0, because a quorum is a
    single vote. *)
Theorem classic_quorum_forks :
  reaches classic_node1.1.1 classic_node1.1.2 classic_node1.2 ∧
  reaches classic_node2.1.1 classic_node2.1.2 classic_node2.2 ∧
  (c_hash <$> classic_node1.2) = [block_hash A] ∧
  (c_hash <$> classic_node2.2) = [block_hash B] ∧ block_hash A ≠ block_hash B ∧
  ((λ c, (validators (c_engine c), round (c_engine c))) <$> classic_node1.2)
    = ((λ c, (validators (c_engine c), round (c_engine c))) <$> classic_node2.2) ∧
  classic_node1.1.2 ++ classic_node2.1.2 = [(0, v0, block_hash A); (0, v1, block_hash B)].
Proof. split_and!; [sample_reach..| | | | |]; vm_compute; done. Qed.

Lemma engine_reachable_inv_witness :
  reaches classic_node2.1.1 classic_node2.1.2 classic_node2.2 ∧ engine_inv classic_node2.1.1.
Proof.
  assert (reaches classic_node2.1.1 classic_node2.1.2 classic_node2.2) as Hr by sample_reach.
  split; [exact Hr|exact (engine_reachable_inv _ _ _ Hr)].
Defined.

Lemma commit_backed_by_quorum_witness :
  first_commit anchor_node1 ∈ anchor_node1.2 ∧
  commit_justified anchor_node1.1.2 (first_commit anchor_node1).
Proof.
  assert (first_commit anchor_node1 ∈ anchor_node1.2) as Hin by (vm_compute; left).
  split; [exact Hin|].
  apply (commit_backed_by_quorum anchor_node1.1.1 anchor_node1.1.2 anchor_node1.2); [|exact Hin].
  sample_reach.
Defined.

Lemma anchor_agreement_witness :
  c_hash (first_commit anchor_node1) = c_hash (first_commit anchor_node2) ∧
  round (c_engine (first_commit anchor_node1)) = 0.
Proof.
  split; [|vm_compute; reflexivity].
  apply (anchor_agreement anchor_node1.1.1 anchor_node2.1.1 anchor_node1.1.2 anchor_node2.1.2
    anchor_node1.2 anchor_node2.2 (first_commit anchor_node1) (first_commit anchor_node2) [v3]).
  - sample_reach.
  - sample_reach.
  - vm_compute; left.
  - vm_compute; left.
  - split; vm_compute; reflexivity.
  - vm_compute; reflexivity.
  - vm_compute; discriminate.
  - vm_compute; discriminate.
  - by_honest.
Defined.

Lemma classic_agreement_witness :
  c_hash (first_commit quorum_node1) = c_hash (first_commit quorum_node2) ∧
  round (c_engine (first_commit quorum_node1)) = 0.
Proof.
  split; [|vm_compute; reflexivity].
  apply (classic_agreement quorum_node1.1.1 quorum_node2.1.1 quorum_node1.1.2 quorum_node2.1.2
    quorum_node1.2 quorum_node2.2 (first_commit quorum_node1) (first_commit quorum_node2) [v3]).
  - sample_reach.
  - sample_reach.
  - vm_compute; left.
  - vm_compute; left.
  - split; vm_compute; reflexivity.
  - vm_compute; reflexivity.
  - vm_compute; reflexivity.
  - vm_compute; reflexivity.
  - vm_compute; discriminate.
  - by_honest.
Defined.

Lemma vote_once_witness :
  let e := (propose A (engine anchored [])).2 in
  let e1 := (vote (block_hash B) v1 e).2 in
  votes e1 !! v1 = Some (block_hash B) ∧ pending_block e1 = pending_block e ∧
  vote (block_hash A) v1 e1 =
    (if bool_decide (block_hash B = block_hash A) then Ok None
     else Err (Equivocation v1 (round e)), e1).
Proof.
  apply (vote_once _ (block_hash B) (block_hash A) v1 (Err (InvalidBlock WrongBlockHash)) _).
  - vm_compute; reflexivity.
  - vm_compute. eexists. reflexivity.
  - vm_compute; reflexivity.
  - intros h. discriminate.
  - vm_compute; reflexivity.
Defined.

Lemma accept_proposal_view_witness :
  let e := (propose A (engine anchored [])).2 in
  let e' := (accept_proposal B e).2 in
  accept_proposal B e = (Ok (), e') ∧ 0 ≤ view e' ≤ 1 ∧ view e' = 1.
Proof.
  assert (accept_proposal B (propose A (engine anchored [])).2
    = (Ok (), (accept_proposal B (propose A (engine anchored [])).2).2)) as Ha
    by (vm_compute; reflexivity).
  split; [exact Ha|]. split; [|vm_compute; reflexivity].
  apply (accept_proposal_view _ B _) in Ha as [Hv _]; [exact Hv|].
  split; vm_compute; discriminate.
Defined.

Lemma pacemaker_rotates_witness :
  (views_until (engine anchored []) 1 < 4)%nat ∧
  leader (Nat.iter (views_until (engine anchored []) 1) abandon_proposal (engine anchored [])) 0
    = Some v1 ∧
  ∃ e', propose B (Nat.iter (views_until (engine anchored []) 1) abandon_proposal
                     (engine anchored [])) = (Ok (), e')
    ∧ pending_block e' = Some B ∧ votes e' = ∅.
Proof.
  apply (pacemaker_rotates (engine anchored []) 1 v1 B); try reflexivity;
    try (split; vm_compute; discriminate). vm_compute; discriminate.
Defined.

Lemma propose_and_commit_commits_witness :
  ∃ e', propose_and_commit A (engine anchored []) = (Ok (block_hash A), e') ∧ round e' = 1
    ∧ view e' = 0 ∧ pending_block e' = None ∧ validators e' = anchored.
Proof.
  apply (propose_and_commit_commits (engine anchored []) A).
  - by eapply new_inv, (engine_new anchored).
  - apply (bool_decide_unpack _). vm_compute. exact I.
  - vm_compute; reflexivity.
Defined.

(** A full set of proofs for round 0. *)
Definition sample_vrf (v : AccountId) : VrfOutput :=
  mkVrfOutput (replicate 80 5) (sample_digest (v ++ vrf_round_alpha 0)).

Definition vrf_engine : ConsensusEngine :=
  (run [OpElection Vrf; OpVrf v0 0 (sample_vrf v0); OpVrf v1 0 (sample_vrf v1)]
    (engine [v0; v1] [])).1.1.

Lemma ecvrf_leader_smallest_witness :
  has_full_vrf_proofs vrf_engine 0 = true ∧
  ∃ l p, leader_at vrf_engine 0 0 = Some l ∧ l ∈ validators vrf_engine ∧
    default ∅ (vrf_proofs vrf_engine !! 0) !! l = Some p ∧
    leader_vrf_output vrf_engine 0 = Some (vrf_output p) ∧
    ∀ v, v ∈ validators vrf_engine →
      ∃ q, default ∅ (vrf_proofs vrf_engine !! 0) !! v = Some q ∧
        bytes_leb (vrf_output p) (vrf_output q) = true.
Proof.
  assert (has_full_vrf_proofs vrf_engine 0 = true) as Hf by (vm_compute; reflexivity).
  split; [exact Hf|].
  assert (vrf_proofs vrf_engine !! 0 = Some (default ∅ (vrf_proofs vrf_engine !! 0))) as Hm
    by (vm_compute; reflexivity).
  pose proof (ecvrf_leader_smallest vrf_engine 0 (default ∅ (vrf_proofs vrf_engine !! 0))) as Ht. rewrite Hf in Ht. apply Ht.
  - eapply (reaches_inv _ _ _). apply (reaches_sample [v0; v1]); [done|vm_compute; reflexivity..].
  - vm_compute; reflexivity.
  - exact Hm.
Defined.

End SampleRuns.
