(* ===== verification/Merkle.v ===== *)
(** * The sparse Merkle tree

    Models [crates/boing-state/src/sparse_merkle.rs]: the arena-backed
    path-compressed trie ([Trie]) with its free list and cached node hashes, the
    tree ([SparseMerkleTree]) over it, the sort-and-partition reference root and
    Merkle proofs.

    The recursive methods of the arena take fuel; [None] is an exhausted fuel or
    an index out of range. An arena index is a [u32] whose maximum is the
    sentinel [NIL]: here an index is a [nat] and [NIL] is [None], so the arena is
    taken to hold fewer than [2^32 - 1] nodes. The vector [free] is a stack whose
    top is the head of the list. *)

From S2P Require Import Prelude Types.

Definition LEGACY_MAX_DEPTH : nat := 64.
Definition DEEP_MAX_DEPTH : nat := 256.

(** [path_bit]: bit [depth] of the key, most significant first. *)
Definition path_bit (key : bytes) (depth : nat) : bool :=
  match key !! (depth / 8)%nat with
  | Some b => Z.testbit b (7 - Z.of_nat (depth mod 8))
  | None => false
  end.

(** ** The arena *)

Notation entry := (list Z * list Z)%type.

Inductive Node :=
| NLeaf (key val : bytes)
| NBucket (v : list entry)
| NBranch (left right : option nat) (hash : option bytes)
| NFree.

Record Trie := mkTrie {
  nodes : list Node;
  free : list nat;
  t_root : option nat;
}.

Definition set_node (t : Trie) (i : nat) (n : Node) : Trie :=
  mkTrie (<[i := n]> (nodes t)) (free t) (t_root t).

Definition set_t_root (t : Trie) (r : option nat) : Trie :=
  mkTrie (nodes t) (free t) r.

Definition alloc (t : Trie) (n : Node) : Trie * nat :=
  match free t with
  | i :: rest => (mkTrie (<[i := n]> (nodes t)) rest (t_root t), i)
  | [] => (mkTrie (nodes t ++ [n]) [] (t_root t), length (nodes t))
  end.

Definition release (t : Trie) (i : nat) : Trie :=
  mkTrie (<[i := NFree]> (nodes t)) (i :: free t) (t_root t).

(** Two entries as [sort_by_key] orders them. *)
Definition sorted_pair (a b : entry) : list entry :=
  if bytes_leb a.1 b.1 then [a; b] else [b; a].

(** [binary_search_by] in a sorted bucket, then overwrite or insert. *)
Fixpoint bucket_put (l : list entry) (key val : bytes) : list entry :=
  match l with
  | [] => [(key, val)]
  | (k, v) :: r =>
      match bytes_cmp k key with
      | Eq => (k, val) :: r
      | Lt => (k, v) :: bucket_put r key val
      | Gt => (key, val) :: (k, v) :: r
      end
  end.

(** [binary_search_by] in a sorted bucket, then remove; [None] when absent. *)
Fixpoint bucket_take (l : list entry) (key : bytes) : option (list entry) :=
  match l with
  | [] => None
  | (k, v) :: r =>
      match bytes_cmp k key with
      | Eq => Some r
      | Lt => cons (k, v) <$> bucket_take r key
      | Gt => None
      end
  end.

(** Overwrites the child a key descends to in the branch [i]. *)
Definition set_child (t : Trie) (i : nat) (right_side : bool) (c : option nat) : Trie :=
  match nodes t !! i with
  | Some (NBranch l r h) =>
      set_node t i (if right_side then NBranch l c h else NBranch c r h)
  | _ => t
  end.

Fixpoint ins (fuel : nat) (max_depth : nat) (t : Trie) (idx : option nat) (d : nat)
    (key val : bytes) : option (Trie * option nat) :=
  match fuel with
  | O => None
  | S fuel =>
      match idx with
      | None => let '(t', i) := alloc t (NLeaf key val) in Some (t', Some i)
      | Some i =>
          n ← nodes t !! i;
          match n with
          | NLeaf k0 v0 =>
              if bool_decide (k0 = key) then Some (set_node t i (NLeaf k0 val), idx)
              else if (max_depth <=? d)%nat then
                Some (set_node t i (NBucket (sorted_pair (k0, v0) (key, val))), idx)
              else
                let t1 := set_node t i (NBranch None None None) in
                p2 ← ins fuel max_depth t1 idx d k0 v0;
                p3 ← ins fuel max_depth p2.1 idx d key val;
                Some (p3.1, idx)
          | NBucket l => Some (set_node t i (NBucket (bucket_put l key val)), idx)
          | NBranch l r _ =>
              let t1 := set_node t i (NBranch l r None) in
              let b := path_bit key d in
              p2 ← ins fuel max_depth t1 (if b then r else l) (S d) key val;
              Some (set_child p2.1 i b p2.2, idx)
          | NFree => let '(t', j) := alloc t (NLeaf key val) in Some (t', Some j)
          end
      end
  end.

Fixpoint rem (fuel : nat) (t : Trie) (idx : option nat) (d : nat) (key : bytes)
    : option (Trie * option nat) :=
  match fuel with
  | O => None
  | S fuel =>
      match idx with
      | None => Some (t, None)
      | Some i =>
          n ← nodes t !! i;
          match n with
          | NLeaf k0 _ =>
              if bool_decide (k0 = key) then Some (release t i, None) else Some (t, idx)
          | NBucket l =>
              match bucket_take l key with
              | None => Some (t, idx)
              | Some [(k, v)] => Some (set_node t i (NLeaf k v), idx)
              | Some l' => Some (set_node t i (NBucket l'), idx)
              end
          | NBranch l r _ =>
              let t1 := set_node t i (NBranch l r None) in
              let b := path_bit key d in
              p2 ← rem fuel t1 (if b then r else l) (S d) key;
              let t3 := set_child p2.1 i b p2.2 in
              n3 ← nodes t3 !! i;
              match n3 with
              | NBranch None None _ => Some (release t3 i, None)
              | NBranch (Some only) None _ | NBranch None (Some only) _ =>
                  no ← nodes t3 !! only;
                  match no with
                  | NLeaf _ _ => Some (release t3 i, Some only)
                  | _ => Some (t3, idx)
                  end
              | _ => Some (t3, idx)
              end
          | NFree => Some (t, idx)
          end
      end
  end.

(** Enough for every descent: two calls per level (a split re-enters the node
    it turned into a branch) and the leaf. *)
Definition trie_fuel (max_depth : nat) : nat := 2 * max_depth + 2.

Definition trie_insert (max_depth : nat) (t : Trie) (key val : bytes) : option Trie :=
  p ← ins (trie_fuel max_depth) max_depth t (t_root t) 0 key val;
  Some (set_t_root p.1 p.2).

Definition trie_remove (max_depth : nat) (t : Trie) (key : bytes) : option Trie :=
  p ← rem (trie_fuel max_depth) t (t_root t) 0 key;
  Some (set_t_root p.1 p.2).

(** ** Hashes, the tree and proofs *)

Record ProofStep := mkProofStep {
  sibling_hash : Hash;
  step_bit : bool;
}.

Record MerkleProof := mkMerkleProof {
  mp_key : bytes;
  mp_value_hash : Hash;
  mp_siblings : list ProofStep;
  mp_root : Hash;
}.

Record SparseMerkleTree := mkSMT {
  leaves : gmap bytes bytes;
  trie : Trie;
  smt_depth : nat;
}.

Definition with_max_depth (max_depth : nat) : SparseMerkleTree :=
  mkSMT ∅ (mkTrie [] [] None) max_depth.

Definition smt_len (s : SparseMerkleTree) : nat := size (leaves s).
Definition smt_is_empty (s : SparseMerkleTree) : bool := bool_decide (leaves s = ∅).

Definition insert_leaf_hash (s : SparseMerkleTree) (key : bytes) (value_hash : Hash)
    : option SparseMerkleTree :=
  if bool_decide (leaves s !! key = Some value_hash) then Some s
  else
    t ← trie_insert (smt_depth s) (trie s) key value_hash;
    Some (mkSMT (<[key := value_hash]> (leaves s)) t (smt_depth s)).

Definition delete_raw (s : SparseMerkleTree) (key : bytes) : option SparseMerkleTree :=
  if bool_decide (is_Some (leaves s !! key)) then
    t ← trie_remove (smt_depth s) (trie s) key;
    Some (mkSMT (delete key (leaves s)) t (smt_depth s))
  else Some s.

Section Hashes.
Context `{Host}.

Definition leaf_hash (key val : bytes) : Hash := blake3 (key ++ val).

Fixpoint hash_of (fuel : nat) (t : Trie) (idx : option nat) : option (Trie * Hash) :=
  match fuel with
  | O => None
  | S fuel =>
      match idx with
      | None => Some (t, ZERO)
      | Some i =>
          n ← nodes t !! i;
          match n with
          | NLeaf k v => Some (t, leaf_hash k v)
          | NBucket l => e ← head l; Some (t, leaf_hash e.1 e.2)
          | NBranch _ _ (Some h) => Some (t, h)
          | NBranch l r None =>
              p1 ← hash_of fuel t l;
              p2 ← hash_of fuel p1.1 r;
              let h := hash_pair p1.2 p2.2 in
              let t3 := match nodes p2.1 !! i with
                        | Some (NBranch l' r' _) => set_node p2.1 i (NBranch l' r' (Some h))
                        | _ => p2.1
                        end in
              Some (t3, h)
          | NFree => Some (t, ZERO)
          end
      end
  end.

(** The loop of [proof_path] from the node [idx] at depth [d]. *)
Fixpoint proof_path (fuel hfuel : nat) (t : Trie) (idx : option nat) (d : nat) (key : bytes)
    : option (Trie * list ProofStep) :=
  match fuel with
  | O => None
  | S fuel =>
      match idx with
      | None => Some (t, [])
      | Some i =>
          n ← nodes t !! i;
          match n with
          | NBranch l r _ =>
              let b := path_bit key d in
              p1 ← hash_of hfuel t (if b then l else r);
              p2 ← proof_path fuel hfuel p1.1 (if b then r else l) (S d) key;
              Some (p2.1, mkProofStep p1.2 b :: p2.2)
          | _ => Some (t, [])
          end
      end
  end.

Definition smt_root (s : SparseMerkleTree) : option (SparseMerkleTree * Hash) :=
  p ← hash_of (trie_fuel (smt_depth s)) (trie s) (t_root (trie s));
  Some (mkSMT (leaves s) p.1 (smt_depth s), p.2).

Definition prove (s : SparseMerkleTree) (key : bytes)
    : option (SparseMerkleTree * option MerkleProof) :=
  match leaves s !! key with
  | None => Some (s, None)
  | Some value_hash =>
      p ← smt_root s;
      let f := trie_fuel (smt_depth s) in
      q ← proof_path f f (trie p.1) (t_root (trie p.1)) 0 key;
      Some (mkSMT (leaves s) q.1 (smt_depth s),
            Some (mkMerkleProof key value_hash q.2 p.2))
  end.

(** [compute_root_from_proof] and [verify_against]. *)
Definition fold_step (step : ProofStep) (current : Hash) : Hash :=
  if step_bit step then hash_pair (sibling_hash step) current
  else hash_pair current (sibling_hash step).

Definition compute_root_from_proof (key : bytes) (value_hash : Hash) (steps : list ProofStep)
    : Hash :=
  foldr fold_step (leaf_hash key value_hash) steps.

Definition verify_against (p : MerkleProof) (trusted_root : Hash) : bool :=
  bool_decide (compute_root_from_proof (mp_key p) (mp_value_hash p) (mp_siblings p)
               = trusted_root)
  && bool_decide (mp_root p = trusted_root).

Definition verify (p : MerkleProof) : bool := verify_against p (mp_root p).

(** [build_root]: the recursion of the reference algorithm, [n] levels above
    the maximal depth. *)
Fixpoint build_root (n d : nat) (entries : list entry) : Hash :=
  match entries with
  | [] => ZERO
  | (k, v) :: rest =>
      match n, rest with
      | O, _ => leaf_hash k v
      | _, [] => leaf_hash k v
      | S n', _ =>
          hash_pair (build_root n' (S d) (filter (λ e, path_bit e.1 d = false) entries))
                    (build_root n' (S d) (filter (λ e, ¬ path_bit e.1 d = false) entries))
      end
  end.

Definition entry_le (a b : entry) : Prop := Is_true (bytes_leb a.1 b.1).

#[global] Instance entry_le_dec : RelDecision entry_le.
Proof. intros a b. unfold entry_le. apply _. Defined.

Definition reference_root (s : SparseMerkleTree) : Hash :=
  build_root (smt_depth s) 0 (merge_sort entry_le (map_to_list (leaves s))).

(** [hash_storage_value], [insert_storage_slot], [hash_account_leaf],
    [hash_contract_code]. *)
Definition hash_storage_value (value : bytes) : Hash := blake3 value.

Definition insert_storage_slot (s : SparseMerkleTree) (slot value : bytes)
    : option SparseMerkleTree :=
  insert_leaf_hash s slot (hash_storage_value value).

Definition hash_account_leaf (v : AccountState) (code_hash storage_root : Hash) : Hash :=
  blake3 (le_bytes 16 (balance v) ++ le_bytes 8 (nonce v) ++ le_bytes 16 (stake v)
          ++ le_bytes 16 (pending_unbond v) ++ le_bytes 8 (unbond_unlock_height v)
          ++ code_hash ++ storage_root).

Definition hash_contract_code (bytecode : bytes) : Hash :=
  match bytecode with [] => ZERO | _ => blake3 bytecode end.

End Hashes.

(** ** The functional trie

    The tree the arena represents, without indexes, free list or caches. *)

Inductive tree :=
| TNil
| TLeaf (key val : bytes)
| TBucket (l : list entry)
| TBranch (l r : tree).

Fixpoint entries (t : tree) : list entry :=
  match t with
  | TNil => []
  | TLeaf k v => [(k, v)]
  | TBucket l => l
  | TBranch l r => entries l ++ entries r
  end.

Definition tput (b : bool) (f : tree → tree) (l r : tree) : tree :=
  if b then TBranch l (f r) else TBranch (f l) r.

Fixpoint tins (n d : nat) (t : tree) (key val : bytes) : tree :=
  match t with
  | TNil => TLeaf key val
  | TLeaf k0 v0 =>
      if bool_decide (k0 = key) then TLeaf k0 val
      else match n with
      | O => TBucket (sorted_pair (k0, v0) (key, val))
      | S n' =>
          if path_bit k0 d
          then tput (path_bit key d) (λ c, tins n' (S d) c key val) TNil (TLeaf k0 v0)
          else tput (path_bit key d) (λ c, tins n' (S d) c key val) (TLeaf k0 v0) TNil
      end
  | TBucket l => TBucket (bucket_put l key val)
  | TBranch l r =>
      match n with
      | O => t
      | S n' => tput (path_bit key d) (λ c, tins n' (S d) c key val) l r
      end
  end.

(** Lifts a lone leaf into the place of its branch. *)
Definition tlift (l r : tree) : tree :=
  match l, r with
  | TNil, TNil => TNil
  | TLeaf k v, TNil | TNil, TLeaf k v => TLeaf k v
  | _, _ => TBranch l r
  end.

Fixpoint trem (d : nat) (t : tree) (key : bytes) {struct t} : tree :=
  match t with
  | TNil => TNil
  | TLeaf k0 v0 => if bool_decide (k0 = key) then TNil else t
  | TBucket l =>
      match bucket_take l key with
      | None => t
      | Some [(k, v)] => TLeaf k v
      | Some l' => TBucket l'
      end
  | TBranch l r =>
      if path_bit key d then tlift l (trem (S d) r key) else tlift (trem (S d) l key) r
  end.

Section TreeHash.
Context `{Host}.

Fixpoint thash (t : tree) : Hash :=
  match t with
  | TNil => ZERO
  | TLeaf k v => leaf_hash k v
  | TBucket l => match l with [] => ZERO | e :: _ => leaf_hash e.1 e.2 end
  | TBranch l r => hash_pair (thash l) (thash r)
  end.

Fixpoint tpath (d : nat) (t : tree) (key : bytes) : list ProofStep :=
  match t with
  | TBranch l r =>
      if path_bit key d then mkProofStep (thash l) true :: tpath (S d) r key
      else mkProofStep (thash r) false :: tpath (S d) l key
  | _ => []
  end.
End TreeHash.

(** ** Well-formed trees *)

Definition key_lt (a b : entry) : Prop := bytes_cmp a.1 b.1 = Lt.

(** [n] levels remain below depth [d]: a bucket only at the maximal depth,
    sorted by key with at least two entries; a branch with at least two entries
    below it, split by the key bit of its depth. *)
Fixpoint wf (n d : nat) (t : tree) {struct t} : Prop :=
  match t with
  | TNil | TLeaf _ _ => True
  | TBucket l => n = 0%nat ∧ (2 ≤ length l)%nat ∧ StronglySorted key_lt l
  | TBranch l r =>
      match n with
      | O => False
      | S n' =>
          wf n' (S d) l ∧ wf n' (S d) r ∧
          (∀ e, e ∈ entries l → path_bit e.1 d = false) ∧
          (∀ e, e ∈ entries r → path_bit e.1 d = true) ∧
          (2 ≤ length (entries l ++ entries r))%nat
      end
  end.

(** The tree holds exactly the bindings of [m]. *)
Definition holds (t : tree) (m : gmap bytes bytes) : Prop :=
  ∀ k v, (k, v) ∈ entries t ↔ m !! k = Some v.

Lemma elem_of_keys (l : list entry) x : x ∈ l.*1 ↔ ∃ v, (x, v) ∈ l.
Proof.
  rewrite list_elem_of_fmap. split.
  - intros ([k v] & -> & ?). eauto.
  - intros [v ?]. exists (x, v). done.
Qed.

Lemma key_lt_NoDup l : StronglySorted key_lt l → NoDup l.*1.
Proof.
  induction 1 as [|e l Hs IH Hall]; simpl; [constructor|].
  constructor; [|done]. intros [v Hin]%elem_of_keys.
  rewrite Forall_forall in Hall. apply Hall in Hin. unfold key_lt in Hin. simpl in Hin.
  by rewrite bytes_cmp_refl in Hin.
Qed.

Lemma wf_NoDup n d t : wf n d t → NoDup (entries t).*1.
Proof.
  revert n d. induction t as [|k v|l|l IHl r IHr]; intros n d Hw; simpl in *.
  - constructor.
  - apply NoDup_singleton.
  - by apply key_lt_NoDup, Hw.
  - destruct n; [done|]. destruct Hw as (Hl & Hr & Bl & Br & _).
    rewrite fmap_app. apply NoDup_app. split_and!; [by eauto| |by eauto].
    intros x [v1 H1]%elem_of_keys [v2 H2]%elem_of_keys.
    apply Bl in H1. apply Br in H2. simpl in *. congruence.
Qed.

(** A tree that is neither empty nor a leaf holds at least two entries. *)
Lemma wf_two n d t :
  wf n d t → t = TNil ∨ (∃ k v, t = TLeaf k v) ∨ (2 ≤ length (entries t))%nat.
Proof.
  destruct t; simpl; [by auto|by eauto| |].
  - intros (_ & ? & _). auto.
  - destruct n; [done|]. intros (_ & _ & _ & _ & ?). auto.
Qed.

(** *** Buckets *)

Lemma elem_of_bucket_put l k v e :
  StronglySorted key_lt l →
  e ∈ bucket_put l k v ↔ e = (k, v) ∨ (e ∈ l ∧ e.1 ≠ k).
Proof.
  induction 1 as [|[k0 v0] l Hs IH Hall]; simpl.
  - rewrite list_elem_of_singleton. split; [by auto|]. by intros [->|[?%elem_of_nil _]].
  - rewrite Forall_forall in Hall. destruct (bytes_cmp k0 k) eqn:E.
    + apply bytes_cmp_eq in E as ->. rewrite !elem_of_cons. split.
      * intros [->|Hin]; [by auto|]. right. split; [by auto|].
        intros Hk. apply Hall in Hin as Hlt. unfold key_lt in Hlt. simpl in Hlt.
        by rewrite Hk, bytes_cmp_refl in Hlt.
      * intros [->|[[->|?] Hn]]; [by auto|by destruct Hn|by auto].
    + rewrite !elem_of_cons, IH. split; [|tauto].
      intros [->|[->|[??]]]; auto. right. split; [by auto|]. simpl.
      intros ->. by rewrite bytes_cmp_refl in E.
    + rewrite !elem_of_cons. split; [|tauto].
      assert (∀ e, e ∈ l → e.1 ≠ k) as Hne.
      { intros e' Hin Hk. apply Hall in Hin. unfold key_lt in Hin. simpl in Hin.
        rewrite Hk in Hin. congruence. }
      intros [->|[->|?]]; [by auto| |by auto]. right. split; [by auto|]. simpl.
      intros ->. by rewrite bytes_cmp_refl in E.
Qed.

Lemma bucket_put_sorted l k v :
  StronglySorted key_lt l → StronglySorted key_lt (bucket_put l k v).
Proof.
  intros Hs0. induction Hs0 as [|[k0 v0] l Hs IH Hall]; simpl; [by repeat constructor|].
  destruct (bytes_cmp k0 k) eqn:E.
  - by constructor.
  - constructor; [done|]. rewrite Forall_forall in *. intros e He.
    apply (elem_of_bucket_put _ _ _ _ Hs) in He as [->|[? _]]; [done|]. by apply Hall.
  - assert (bytes_cmp k k0 = Lt) as Hlt by (rewrite (bytes_cmp_antisym k0 k), E; done).
    constructor; [by constructor|]. constructor; [done|]. rewrite Forall_forall in *.
    intros e He%Hall. unfold key_lt in *. simpl in *. by eapply bytes_cmp_lt_trans.
Qed.

Lemma bucket_put_length l k v : (length l ≤ length (bucket_put l k v))%nat.
Proof. induction l as [|[k0 v0] l IH]; simpl; [lia|]. destruct (bytes_cmp k0 k); simpl; lia. Qed.

Lemma bucket_take_Some l k l' :
  StronglySorted key_lt l → bucket_take l k = Some l' →
  StronglySorted key_lt l' ∧ S (length l') = length l ∧
  ∀ e, e ∈ l' ↔ e ∈ l ∧ e.1 ≠ k.
Proof.
  intros Hs. revert l'. induction Hs as [|[k0 v0] l Hs IH Hall]; intros l' Ht; simpl in Ht; [done|].
  rewrite Forall_forall in Hall. destruct (bytes_cmp k0 k) eqn:E.
  - simplify_eq. split_and!; [done..|]. apply bytes_cmp_eq in E as ->.
    intros e. rewrite elem_of_cons. split.
    + intros Hin. split; [by auto|]. intros Hk. apply Hall in Hin. unfold key_lt in Hin.
      simpl in Hin. by rewrite Hk, bytes_cmp_refl in Hin.
    + by intros [[->|?] ?].
  - apply fmap_Some in Ht as (l1 & Hl1 & ->). apply IH in Hl1 as (? & ? & Hel).
    split_and!; [|simpl; lia|].
    + constructor; [done|]. apply Forall_forall. intros e [? _]%Hel. by apply Hall.
    + intros e. rewrite !elem_of_cons, Hel. split; [|tauto].
      intros [->|[??]]; [|by auto]. split; [by auto|]. simpl. intros ->.
      by rewrite bytes_cmp_refl in E.
  - done.
Qed.

Lemma bucket_take_None l k :
  StronglySorted key_lt l → bucket_take l k = None → ∀ e, e ∈ l → e.1 ≠ k.
Proof.
  intros Hs. induction Hs as [|[k0 v0] l Hs IH Hall]; intros Ht e He; simpl in Ht.
  { by apply elem_of_nil in He. }
  rewrite Forall_forall in Hall. destruct (bytes_cmp k0 k) eqn:E; [done| |].
  - apply elem_of_cons in He as [->|He].
    + simpl. intros ->. by rewrite bytes_cmp_refl in E.
    + apply IH; [|done]. by destruct (bucket_take l k).
  - intros Hk. apply elem_of_cons in He as [->|He].
    + simpl in Hk. subst. by rewrite bytes_cmp_refl in E.
    + apply Hall in He. unfold key_lt in He. simpl in He. rewrite Hk in He. congruence.
Qed.

Lemma sorted_pair_spec k0 v0 k v :
  k0 ≠ k → StronglySorted key_lt (sorted_pair (k0, v0) (k, v)) ∧
  (length (sorted_pair (k0, v0) (k, v)) = 2)%nat ∧
  ∀ e, e ∈ sorted_pair (k0, v0) (k, v) ↔ e = (k, v) ∨ e = (k0, v0).
Proof.
  intros Hne. unfold sorted_pair, bytes_leb. simpl. destruct (bytes_cmp k0 k) eqn:E.
  - by apply bytes_cmp_eq in E.
  - split_and!; [by repeat constructor|done|set_solver].
  - assert (bytes_cmp k k0 = Lt) by (rewrite (bytes_cmp_antisym k0 k), E; done).
    split_and!; [by repeat constructor|done|set_solver].
Qed.

(** *** Insertion *)

Lemma elem_of_tput b f l r e :
  e ∈ entries (tput b f l r) ↔
  (if b then e ∈ entries l ∨ e ∈ entries (f r) else e ∈ entries (f l) ∨ e ∈ entries r).
Proof. by destruct b; simpl; rewrite elem_of_app. Qed.

Lemma elem_of_tins n d t k v e :
  wf n d t → e ∈ entries (tins n d t k v) ↔ e = (k, v) ∨ (e ∈ entries t ∧ e.1 ≠ k).
Proof.
  revert d t. induction n as [|n IH]; intros d t Hw; destruct t as [|k0 v0|l|l r]; simpl.
  1,5: rewrite list_elem_of_singleton; split; [by auto|by intros [->|[?%elem_of_nil _]]].
  2,5: by apply elem_of_bucket_put, Hw.
  2: done.
  - case_bool_decide as Hk.
    + subst. simpl. rewrite !list_elem_of_singleton. split; [by auto|by intros [?|[-> []]]].
    + simpl. destruct (sorted_pair_spec k0 v0 k v Hk) as (_ & _ & ->).
      rewrite list_elem_of_singleton. split; [intros [-> | ->]; auto|tauto].
  - case_bool_decide as Hk.
    + subst. simpl. rewrite !list_elem_of_singleton. split; [by auto|by intros [?|[-> []]]].
    + rewrite list_elem_of_singleton.
      destruct (path_bit k0 d), (path_bit k d); simpl; rewrite ?elem_of_cons, ?elem_of_app, ?IH by done; simpl;
        rewrite ?list_elem_of_singleton, ?elem_of_nil;
        destruct (decide (e = (k0, v0))) as [->|]; simpl; intuition congruence.
  - simpl in Hw. destruct Hw as (Hl & Hr & Bl & Br & _).
    rewrite elem_of_tput, elem_of_app. destruct (path_bit k d) eqn:Eb; rewrite IH by done.
    + assert (e ∈ entries l → e.1 ≠ k) by (intros ?%Bl ?; congruence). tauto.
    + assert (e ∈ entries r → e.1 ≠ k) by (intros ?%Br ?; congruence). tauto.
Qed.

Lemma tins_length n d t k v :
  (length (entries t) ≤ length (entries (tins n d t k v)))%nat.
Proof.
  revert d t. induction n as [|n IH]; intros d t; destruct t as [|k0 v0|l|l r]; simpl;
    auto using bucket_put_length with lia.
  - case_bool_decide; simpl; [lia|]. unfold sorted_pair. case_match; simpl; lia.
  - case_bool_decide; simpl; [lia|].
    destruct (path_bit k0 d), (path_bit k d); simpl; rewrite ?length_app; simpl;
      try lia; apply (IH (S d) (TLeaf k0 v0)) || (etrans; [apply (IH (S d) (TLeaf k0 v0))|lia]).
  - destruct (path_bit k d); simpl; rewrite !length_app; [pose proof (IH (S d) r)|pose proof (IH (S d) l)]; lia.
Qed.

Lemma tins_leaf_length n d k0 v0 k v :
  k0 ≠ k → length (entries (tins n d (TLeaf k0 v0) k v)) = 2%nat.
Proof.
  intros Hk. revert d. induction n as [|n IH]; intros d; simpl;
    rewrite bool_decide_eq_false_2 by done.
  - by apply sorted_pair_spec.
  - destruct (path_bit k0 d), (path_bit k d); simpl; rewrite ?length_app; simpl;
      rewrite ?IH; simpl; try done.
    all: by destruct n.
Qed.

Lemma wf_tins n d t k v : wf n d t → wf n d (tins n d t k v).
Proof.
  revert d t. induction n as [|n IH]; intros d t Hw; destruct t as [|k0 v0|l|l r]; simpl; try done.
  - case_bool_decide as Hk; [done|]. simpl.
    destruct (sorted_pair_spec k0 v0 k v Hk) as (? & -> & _). auto.
  - destruct Hw as (_ & Hlen & Hs). pose proof (bucket_put_length l k v).
    split_and!; [done|lia|by apply bucket_put_sorted].
  - case_bool_decide as Hk; [done|].
    pose proof (tins_leaf_length n (S d) k0 v0 k v Hk) as Hlen.
    assert (wf n (S d) (tins n (S d) (TLeaf k0 v0) k v)) as Hwf by (by apply IH).
    assert (wf n (S d) (tins n (S d) TNil k v)) as Hwf0 by (by apply IH).
    assert (entries (tins n (S d) TNil k v) = [(k, v)]) as He0 by (by destruct n).
    assert (∀ e, e ∈ entries (tins n (S d) (TLeaf k0 v0) k v) → e.1 = k ∨ e.1 = k0) as He.
    { intros e [->|[->%list_elem_of_singleton _]]%elem_of_tins; auto. }
    destruct (path_bit k0 d) eqn:E0, (path_bit k d) eqn:E1; simpl; rewrite ?He0, ?length_app, ?Hlen;
      (split_and!; [done..| | |simpl; lia]); intros e He';
      try apply He in He' as [-> | ->]; try (by apply elem_of_nil in He');
      try apply list_elem_of_singleton in He' as ->; done.
  - destruct Hw as [? _]. done.
  - destruct Hw as (Hl & Hr & Bl & Br & Hlen). rewrite length_app in Hlen.
    destruct (path_bit k d) eqn:Eb; simpl; rewrite length_app.
    + pose proof (tins_length n (S d) r k v). split_and!; [done|by apply IH|done| |lia].
      intros e [->|[??]]%elem_of_tins; auto.
    + pose proof (tins_length n (S d) l k v). split_and!; [by apply IH|done| |done|lia].
      intros e [->|[??]]%elem_of_tins; auto.
Qed.

Lemma holds_tins n d t m k v :
  wf n d t → holds t m → holds (tins n d t k v) (<[k := v]> m).
Proof.
  intros Hw Hm k' v'. rewrite (elem_of_tins _ _ _ _ _ _ Hw), (Hm k' v'), lookup_insert_Some.
  simpl. naive_solver.
Qed.

(** *** Removal *)

Lemma entries_tlift l r : entries (tlift l r) = entries l ++ entries r.
Proof. destruct l, r; simpl; rewrite ?app_nil_r; done. Qed.

Lemma wf_tlift n d l r :
  wf n (S d) l → wf n (S d) r →
  (∀ e, e ∈ entries l → path_bit e.1 d = false) →
  (∀ e, e ∈ entries r → path_bit e.1 d = true) →
  wf (S n) d (tlift l r).
Proof.
  intros Hl Hr Bl Br. pose proof (wf_two _ _ _ Hl) as Cl. pose proof (wf_two _ _ _ Hr) as Cr.
  assert (tlift l r = TBranch l r → wf (S n) d (tlift l r)) as Hb.
  { intros Ht. rewrite Ht. simpl. split_and!; try done. rewrite length_app.
    destruct Cl as [->|[(?&?&->)|]], Cr as [->|[(?&?&->)|]]; simpl in *; try done; lia. }
  destruct l, r; try done; by apply Hb.
Qed.

Lemma elem_of_trem n d t k e :
  wf n d t → e ∈ entries (trem d t k) ↔ e ∈ entries t ∧ e.1 ≠ k.
Proof.
  revert n d. induction t as [|k0 v0|l|l IHl r IHr]; intros n d Hw; simpl.
  - set_solver.
  - case_bool_decide; simpl; rewrite ?list_elem_of_singleton, ?elem_of_nil; naive_solver.
  - destruct Hw as (_ & _ & Hs). destruct (bucket_take l k) as [l'|] eqn:E; simpl.
    + apply bucket_take_Some in E as (_ & _ & Hel); [|done]. rewrite <- Hel.
      by destruct l' as [|[??] [|??]].
    + pose proof (bucket_take_None _ _ Hs E e). tauto.
  - simpl in Hw. destruct n; [done|]. destruct Hw as (Hl & Hr & Bl & Br & _).
    rewrite elem_of_app. destruct (path_bit k d) eqn:Eb; rewrite entries_tlift, elem_of_app.
    + rewrite (IHr _ _ Hr). assert (e ∈ entries l → e.1 ≠ k) by (intros ?%Bl ?; congruence).
      tauto.
    + rewrite (IHl _ _ Hl). assert (e ∈ entries r → e.1 ≠ k) by (intros ?%Br ?; congruence).
      tauto.
Qed.

Lemma wf_trem n d t k : wf n d t → wf n d (trem d t k).
Proof.
  revert n d. induction t as [|k0 v0|l|l IHl r IHr]; intros n d Hw; simpl; try done.
  - by case_bool_decide.
  - destruct Hw as (-> & Hlen & Hs). destruct (bucket_take l k) as [l'|] eqn:E; [|done].
    apply bucket_take_Some in E as (? & ? & _); [|done].
    destruct l' as [|[??] [|??]]; simpl in *; [lia|done|].
    split_and!; [done|lia|done].
  - simpl in Hw. destruct n; [done|]. destruct Hw as (Hl & Hr & Bl & Br & _).
    destruct (path_bit k d); apply wf_tlift; auto.
    + intros e [??]%(elem_of_trem n); auto.
    + intros e [??]%(elem_of_trem n); auto.
Qed.

Lemma holds_trem n d t m k :
  wf n d t → holds t m → holds (trem d t k) (delete k m).
Proof.
  intros Hw Hm k' v'. rewrite (elem_of_trem _ _ _ _ _ Hw), (Hm k' v'), lookup_delete_Some.
  simpl. naive_solver.
Qed.

(** ** The reference root *)

Section Reference.
Context `{Host}.

#[local] Instance entry_le_total : Total entry_le.
Proof. intros a b. apply (bytes_le_total a.1 b.1). Qed.

#[local] Instance entry_le_trans : Transitive entry_le.
Proof. intros a b c. apply bytes_le_trans. Qed.

Lemma key_lt_le a b : key_lt a b → entry_le a b.
Proof. unfold key_lt, entry_le, bytes_leb. by intros ->. Qed.

Lemma keys_unique (l : list entry) a b : NoDup l.*1 → a ∈ l → b ∈ l → a.1 = b.1 → a = b.
Proof.
  intros Hnd Ha Hb Hab. apply list_elem_of_lookup in Ha as [i Hi].
  apply list_elem_of_lookup in Hb as [j Hj].
  assert (i = j) as ->; [|congruence].
  eapply (NoDup_lookup _ _ _ (a.1) Hnd); rewrite list_lookup_fmap; [by rewrite Hi|].
  rewrite Hj. simpl. by rewrite Hab.
Qed.

(** The first entry of a sorted permutation of a bucket is the bucket's first. *)
Lemma sorted_head_bucket e E b l :
  StronglySorted entry_le (e :: E) → StronglySorted key_lt (b :: l) →
  e :: E ≡ₚ b :: l → e = b.
Proof.
  intros HE Hl Hp. pose proof (key_lt_NoDup _ Hl) as Hnd.
  apply StronglySorted_inv in HE as [_ HE], Hl as [_ Hl].
  rewrite Forall_forall in HE, Hl.
  assert (e ∈ b :: l) as Hin by (rewrite <- Hp; left).
  assert (b ∈ e :: E) as Hin' by (rewrite Hp; left).
  apply elem_of_cons in Hin' as [->|Hb]; [done|].
  apply elem_of_cons in Hin as Hin'. destruct Hin' as [->|He]; [done|].
  apply (keys_unique (b :: l)); [done|done|left|].
  apply HE in Hb. apply Hl, key_lt_le in He.
  unfold entry_le in *. by apply bytes_leb_antisym; apply Is_true_true.
Qed.

Lemma filter_all_none (P : entry → Prop) `{∀ x, Decision (P x)} (l r : list entry) :
  (∀ e, e ∈ l → P e) → (∀ e, e ∈ r → ¬ P e) → filter P (l ++ r) = l.
Proof.
  intros Hl Hr. induction l as [|x l IH]; simpl.
  - induction r as [|y r IHr]; [done|]. rewrite filter_cons_False by (apply Hr; left).
    apply IHr. intros e He. apply Hr. by right.
  - rewrite filter_cons_True by (apply Hl; left). rewrite IH; [done|].
    intros e He. apply Hl. by right.
Qed.

Lemma build_root_two n d e1 e2 E :
  build_root (S n) d (e1 :: e2 :: E) =
  hash_pair (build_root n (S d) (filter (λ e, path_bit e.1 d = false) (e1 :: e2 :: E)))
            (build_root n (S d) (filter (λ e, ¬ path_bit e.1 d = false) (e1 :: e2 :: E))).
Proof. by destruct e1. Qed.

(** The trie hash is the reference root of its entries in any sorted order. *)
Lemma thash_build_root n d t E :
  wf n d t → StronglySorted entry_le E → E ≡ₚ entries t → thash t = build_root n d E.
Proof.
  revert n d E. induction t as [|k v|l|l IHl r IHr]; intros n d E Hw HE Hp.
  - simpl in Hp. apply Permutation_nil_r in Hp as ->. by destruct n.
  - simpl in Hp. apply Permutation_singleton_r in Hp as ->. by destruct n.
  - destruct Hw as (-> & Hlen & Hs). destruct l as [|b l]; [simpl in Hlen; lia|].
    destruct E as [|e E]; [by apply Permutation_nil_cons in Hp|].
    assert (e = b) as -> by (by eapply sorted_head_bucket). by destruct b.
  - destruct n as [|n]; [done|]. simpl in Hp.
    destruct Hw as (Hl & Hr & Bl & Br & Hlen).
    destruct E as [|e1 [|e2 E]]; [apply Permutation_length in Hp; simpl in *; lia..|].
    rewrite build_root_two. simpl. f_equal.
    + apply IHl; [done|by apply StronglySorted_filter|]. rewrite Hp.
      rewrite filter_all_none; [done|done|]. intros e He%Br. congruence.
    + apply IHr; [done|by apply StronglySorted_filter|]. rewrite Hp, Permutation_app_comm.
      rewrite filter_all_none; [done| |].
      * intros e He%Br. congruence.
      * intros e He%Bl. tauto.
Qed.

Lemma holds_permutation n d t m :
  wf n d t → holds t m → map_to_list m ≡ₚ entries t.
Proof.
  intros Hw Hm. apply NoDup_Permutation; [apply NoDup_map_to_list| |].
  - apply wf_NoDup in Hw. by eapply NoDup_fmap_1.
  - intros [k v]. by rewrite elem_of_map_to_list, (Hm k v).
Qed.

Lemma thash_reference n t m :
  wf n 0 t → holds t m →
  thash t = build_root n 0 (merge_sort entry_le (map_to_list m)).
Proof.
  intros Hw Hm. apply thash_build_root; [done| |].
  - apply StronglySorted_merge_sort; apply _.
  - rewrite merge_sort_Permutation. by eapply holds_permutation.
Qed.

(** ** Proof paths *)

(** The entry a descent for [key] ends at, if any. *)
Fixpoint tfind (d : nat) (t : tree) (key : bytes) : option entry :=
  match t with
  | TNil => None
  | TLeaf k v => Some (k, v)
  | TBucket l => head l
  | TBranch l r => if path_bit key d then tfind (S d) r key else tfind (S d) l key
  end.

(** Folding the siblings over the entry's leaf hash gives back the root. *)
Lemma tpath_root d t key e :
  tfind d t key = Some e →
  foldr fold_step (leaf_hash e.1 e.2) (tpath d t key) = thash t.
Proof.
  revert d. induction t as [|k v|l|l IHl r IHr]; intros d Hf; simpl in *; simplify_eq/=; try done.
  - by destruct l; simplify_eq/=.
  - by destruct (path_bit key d); simpl; unfold fold_step at 1; simpl; rewrite ?IHl, ?IHr.
Qed.

(** A descent for a stored key ends at its own entry, or at the first entry of
    the bucket that holds it. *)
Lemma tfind_elem n d t key v :
  wf n d t → (key, v) ∈ entries t →
  ∃ e, tfind d t key = Some e ∧ e ∈ entries t ∧ bytes_leb e.1 key = true ∧
    ∀ d', (d ≤ d' < d + n)%nat → path_bit e.1 d' = path_bit key d'.
Proof.
  revert n d. induction t as [|k0 v0|l|l IHl r IHr]; intros n d Hw Hin; simpl in *.
  - by apply elem_of_nil in Hin.
  - apply list_elem_of_singleton in Hin as [= <- <-]. eexists. split; [done|]. split_and!; [left| |done].
    apply bytes_leb_refl.
  - destruct Hw as (-> & _ & Hs). destruct l as [|b l]; [by apply elem_of_nil in Hin|].
    exists b. split_and!; [done|left| |lia].
    apply elem_of_cons in Hin as [<-|Hin]; [apply bytes_leb_refl|].
    apply StronglySorted_inv in Hs as [_ Hs]. rewrite Forall_forall in Hs.
    apply Is_true_true, (key_lt_le b (key, v)). by apply Hs.
  - destruct n as [|n]; [done|]. destruct Hw as (Hl & Hr & Bl & Br & _).
    apply elem_of_app in Hin as [Hin|Hin].
    + pose proof (Bl _ Hin) as Hk. simpl in Hk. rewrite Hk. destruct (IHl n (S d) Hl Hin) as (e & -> & He & Hle & Hb).
      exists e. split_and!; [done|by apply elem_of_app; left|done|].
      intros d' Hd. destruct (decide (d' = d)) as [->|]; [|apply Hb; lia].
      by rewrite (Bl _ He), Hk.
    + pose proof (Br _ Hin) as Hk. simpl in Hk. rewrite Hk. destruct (IHr n (S d) Hr Hin) as (e & -> & He & Hle & Hb).
      exists e. split_and!; [done|by apply elem_of_app; right|done|].
      intros d' Hd. destruct (decide (d' = d)) as [->|]; [|apply Hb; lia].
      by rewrite (Br _ He), Hk.
Qed.

End Reference.

(** The smallest key among the stored keys that share its first [n] bits: the
    one the root commits to. *)
Definition committed (n : nat) (m : gmap bytes bytes) (key : bytes) : Prop :=
  ∀ k, is_Some (m !! k) → (∀ d, (d < n)%nat → path_bit k d = path_bit key d) →
  bytes_leb key k = true.

Lemma byte_bits_eq a b :
  is_byte a → is_byte b → (∀ i, 0 ≤ i < 8 → Z.testbit a i = Z.testbit b i) → a = b.
Proof.
  intros Ha Hb Hbits. apply Z.bits_inj'. intros i Hi.
  destruct (decide (i < 8)); [apply Hbits; lia|].
  unfold is_byte in *. assert (2 ^ 8 ≤ 2 ^ i) by (apply Z.pow_le_mono_r; lia).
  assert (∀ x, 0 ≤ x < 256 → Z.testbit x i = false) as Hf.
  { intros x Hx. rewrite Z.testbit_eqb by lia.
    rewrite Z.div_small by (change (2 ^ 8) with 256 in *; lia). done. }
  by rewrite !Hf.
Qed.

(** All 256 bits determine a 32-byte key. *)
Lemma word_bits_eq a b :
  is_word a → is_word b → (∀ d, (d < 256)%nat → path_bit a d = path_bit b d) → a = b.
Proof.
  intros [La Ba] [Lb Bb] Hbits. apply list_eq_same_length with (length a); [lia|done|].
  intros i x y Hi Hx Hy. unfold is_bytes in *. rewrite Forall_forall in Ba, Bb.
  apply byte_bits_eq; [by eapply Ba, list_elem_of_lookup_2|by eapply Bb, list_elem_of_lookup_2|].
  intros j Hj. specialize (Hbits (8 * i + Z.to_nat (7 - j))%nat ltac:(lia)).
  unfold path_bit in Hbits.
  replace ((8 * i + Z.to_nat (7 - j)) / 8)%nat with i in Hbits
    by (apply Nat.div_unique with (Z.to_nat (7 - j)); lia).
  replace ((8 * i + Z.to_nat (7 - j)) mod 8)%nat with (Z.to_nat (7 - j)) in Hbits
    by (apply Nat.mod_unique with i; lia).
  rewrite Hx, Hy, Z2Nat.id in Hbits by lia. by replace (7 - (7 - j)) with j in Hbits by lia.
Qed.

Lemma committed_deep m key :
  is_word key → (∀ k, is_Some (m !! k) → is_word k) → committed DEEP_MAX_DEPTH m key.
Proof.
  intros Hk Hm k Hin Hbits. rewrite (word_bits_eq k key); auto using bytes_leb_refl.
Qed.

(** ** The arena represents the tree *)

Section Arena.
Context `{Host}.

(** [rep ns idx t F]: the subtree at [idx] of the arena [ns] is [t] and lives on
    the nodes [F]; a cached branch hash is the hash of the branch. *)
Inductive rep (ns : list Node) : option nat → tree → gset nat → Prop :=
| rep_nil : rep ns None TNil ∅
| rep_leaf i k v :
    ns !! i = Some (NLeaf k v) → rep ns (Some i) (TLeaf k v) {[i]}
| rep_bucket i l :
    ns !! i = Some (NBucket l) → rep ns (Some i) (TBucket l) {[i]}
| rep_branch i l r h tl tr Fl Fr :
    ns !! i = Some (NBranch l r h) → rep ns l tl Fl → rep ns r tr Fr →
    i ∉ Fl → i ∉ Fr → Fl ## Fr →
    h = None ∨ h = Some (hash_pair (thash tl) (thash tr)) →
    rep ns (Some i) (TBranch tl tr) ({[i]} ∪ Fl ∪ Fr).

Definition free_ok (t : Trie) (F : gset nat) : Prop :=
  NoDup (free t) ∧ ∀ i, i ∈ free t → (i < length (nodes t))%nat ∧ i ∉ F.

(** What an operation on the nodes [F] may do: it writes only nodes of [F],
    free nodes and new ones. *)
Record evolves (t : Trie) (F : gset nat) (t' : Trie) (F' : gset nat) : Prop := {
  ev_frame : ∀ i, (i < length (nodes t))%nat → i ∉ F → i ∉ free t →
    nodes t' !! i = nodes t !! i;
  ev_fresh : ∀ i, i ∈ F' ∨ i ∈ free t' →
    i ∈ F ∨ i ∈ free t ∨ (length (nodes t) ≤ i)%nat;
  ev_len : (length (nodes t) ≤ length (nodes t'))%nat;
  ev_free : free_ok t' F';
  ev_root : t_root t' = t_root t;
}.

(** Branches only where levels remain. *)
Fixpoint fits (n : nat) (t : tree) {struct t} : Prop :=
  match t with
  | TBranch l r => match n with O => False | S n' => fits n' l ∧ fits n' r end
  | _ => True
  end.

Lemma wf_fits n d t : wf n d t → fits n t.
Proof.
  revert n d. induction t as [| | |l IHl r IHr]; intros n d; simpl; try done.
  destruct n; [done|]. intros (? & ? & _). eauto.
Qed.

Lemma fits_tins n d t k v : fits n t → fits n (tins n d t k v).
Proof.
  revert d t. induction n as [|n IH]; intros d t Hf; destruct t as [|k0 v0|l|l r]; simpl in *; try done.
  - by case_bool_decide.
  - case_bool_decide; [done|].
    destruct (path_bit k0 d), (path_bit k d); simpl; split; try done; by apply IH.
  - destruct (path_bit k d); simpl; split; try tauto; apply IH; tauto.
Qed.

Lemma rep_range ns idx t F i : rep ns idx t F → i ∈ F → (i < length ns)%nat.
Proof.
  induction 1 as [|j k v Hj|j l Hj|j l r h tl tr Fl Fr Hj Hl IHl Hr IHr]; intros Hi.
  - set_solver.
  - apply elem_of_singleton in Hi as ->. by eapply lookup_lt_Some.
  - apply elem_of_singleton in Hi as ->. by eapply lookup_lt_Some.
  - apply elem_of_union in Hi as [[->%elem_of_singleton|?]%elem_of_union|?]; auto.
    by eapply lookup_lt_Some.
Qed.

Lemma rep_frame ns ns' idx t F :
  rep ns idx t F → (∀ i, i ∈ F → ns' !! i = ns !! i) → rep ns' idx t F.
Proof.
  induction 1 as [|j k v Hj|j l Hj|j l r h tl tr Fl Fr Hj Hl IHl Hr IHr]; intros Hfr.
  - constructor.
  - constructor. rewrite Hfr; [done|set_solver].
  - constructor. rewrite Hfr; [done|set_solver].
  - econstructor; eauto.
    + rewrite Hfr; [done|set_solver].
    + apply IHl. intros. apply Hfr. set_solver.
    + apply IHr. intros. apply Hfr. set_solver.
Qed.

Lemma rep_None ns t F : rep ns None t F → t = TNil ∧ F = ∅.
Proof. by inversion 1. Qed.

Lemma rep_Some ns i t F : rep ns (Some i) t F → t ≠ TNil ∧ i ∈ F ∧ (i < length ns)%nat.
Proof.
  intros Hr. assert (i ∈ F) by (inversion Hr; set_solver).
  split_and!; [by inversion Hr|done|by eapply rep_range].
Qed.

Lemma set_node_lookup t i n j :
  (i < length (nodes t))%nat →
  nodes (set_node t i n) !! j = if decide (i = j) then Some n else nodes t !! j.
Proof.
  intros Hi. simpl. case_decide as Hij; [subst; by apply list_lookup_insert_eq|].
  by apply list_lookup_insert_ne.
Qed.

(** Overwriting a node of the footprint. *)
Lemma evolves_set_node t F F' i n :
  free_ok t F → i ∈ F → (i < length (nodes t))%nat → F' ⊆ F →
  evolves t F (set_node t i n) F'.
Proof.
  intros [Hnd Hfr] Hi Hlt Hsub. split; simpl; rewrite ?length_insert; try done.
  - intros j Hj HjF _. apply list_lookup_insert_ne. set_solver.
  - intros j [?|?]; [|by auto]. left. set_solver.
  - split; [done|]. intros j Hj. simpl. rewrite length_insert.
    destruct (Hfr j Hj). split; [done|]. set_solver.
Qed.

Lemma evolves_trans t1 F1 t2 F2 t3 F3 :
  evolves t1 F1 t2 F2 → evolves t2 F2 t3 F3 → evolves t1 F1 t3 F3.
Proof.
  intros [Hf1 Hn1 Hl1 Hk1 Hr1] [Hf2 Hn2 Hl2 Hk2 Hr2]. split; try done; try lia; [| |congruence].
  - intros i Hi HiF Hifr. rewrite Hf2; [by apply Hf1|lia| |].
    + intros Hin. destruct (Hn1 i) as [?|[?|?]]; [by left|done..|lia].
    + intros Hin. destruct (Hn1 i) as [?|[?|?]]; [by right|done..|lia].
  - intros i Hi. destruct (Hn2 i Hi) as [?|[?|?]]; [apply Hn1; by left|apply Hn1; by right|].
    right. right. lia.
Qed.

(** Allocation of a leaf for an empty subtree. *)
Lemma alloc_leaf t k v F :
  free_ok t F → F = ∅ →
  evolves t F (alloc t (NLeaf k v)).1 {[(alloc t (NLeaf k v)).2]} ∧
  rep (nodes (alloc t (NLeaf k v)).1) (Some (alloc t (NLeaf k v)).2) (TLeaf k v)
    {[(alloc t (NLeaf k v)).2]}.
Proof.
  intros [Hnd Hfr] ->. unfold alloc. destruct (free t) as [|i fr] eqn:Ef; simpl.
  - split; [split|constructor]; simpl; rewrite ?length_app; simpl; try done; try lia.
    + intros j Hj _ _. by rewrite lookup_app_l.
    + intros j [->%elem_of_singleton|?%elem_of_nil]; [|done]. right. right. lia.
    + split; simpl; [constructor|]. by intros j ?%elem_of_nil.
    + rewrite lookup_app_r by lia. by rewrite Nat.sub_diag.
  - apply NoDup_cons in Hnd as [Hni Hnd].
    assert (i < length (nodes t))%nat as Hi by (apply Hfr; left).
    split; [split|constructor]; simpl; rewrite ?length_insert; try done.
    + intros j Hj _ Hnf. apply list_lookup_insert_ne. rewrite Ef in Hnf. set_solver.
    + rewrite Ef. intros j [->%elem_of_singleton|?]; right; left; set_solver.
    + split; simpl; [done|]. intros j Hj. rewrite length_insert. split.
      * apply Hfr. by right.
      * intros ->%elem_of_singleton. done.
    + by apply list_lookup_insert_eq.
Qed.

(** Releasing the top node of a subtree whose remaining nodes are [F']. *)
Lemma evolves_release t F F' i :
  free_ok t F → i ∈ F → (i < length (nodes t))%nat → F' ⊆ F → i ∉ F' →
  evolves t F (release t i) F'.
Proof.
  intros [Hnd Hfr] Hi Hlt Hsub Hni. split; simpl; rewrite ?length_insert; try done.
  - intros j Hj HjF _. apply list_lookup_insert_ne. set_solver.
  - intros j [?|[->|?]%elem_of_cons]; [left; set_solver|by auto|by auto].
  - split; simpl.
    + constructor; [|done]. intros Hin. by destruct (Hfr i Hin).
    + intros j [->|Hj]%elem_of_cons; rewrite length_insert; [done|].
      destruct (Hfr j Hj). split; [done|]. set_solver.
Qed.

End Arena.

(** ** Refinement of the arena operations *)

Section Refinement.
Context `{Host}.

(** A branch node with its two represented children. *)
Record branch_at (t : Trie) (i : nat) (l r : option nat) (tl tr : tree) (Fl Fr : gset nat)
    : Prop := {
  br_lt : (i < length (nodes t))%nat;
  br_l : rep (nodes t) l tl Fl;
  br_r : rep (nodes t) r tr Fr;
  br_il : i ∉ Fl;
  br_ir : i ∉ Fr;
  br_dis : Fl ## Fr;
  br_free : free_ok t ({[i]} ∪ Fl ∪ Fr);
}.

Definition child {A} (b : bool) (l r : A) : A := if b then r else l.

(** Entering a branch: its cache is cleared and the child is untouched. *)
Lemma branch_down t i l r tl tr Fl Fr b :
  branch_at t i l r tl tr Fl Fr →
  let t1 := set_node t i (NBranch l r None) in
  rep (nodes t1) (child b l r) (child b tl tr) (child b Fl Fr) ∧ free_ok t1 (child b Fl Fr).
Proof.
  intros [Hlt Hl Hr Hil Hir Hd [Hnd Hfr]] t1.
  assert (∀ j, j ≠ i → nodes t1 !! j = nodes t !! j) as Hne.
  { intros j Hj. unfold t1. rewrite set_node_lookup by done. by rewrite decide_False. }
  split.
  - destruct b; simpl; (eapply rep_frame; [done|]); intros j Hj; apply Hne; set_solver.
  - split; [done|]. intros j Hj. simpl. rewrite length_insert.
    destruct (Hfr j Hj). destruct b; simpl; set_solver.
Qed.

(** Coming back: the branch with the new child, on the old nodes elsewhere. *)
Lemma branch_up t i l r tl tr Fl Fr b t2 c tc F2 :
  branch_at t i l r tl tr Fl Fr →
  evolves (set_node t i (NBranch l r None)) (child b Fl Fr) t2 F2 →
  rep (nodes t2) c tc F2 →
  let t3 := set_child t2 i b c in
  nodes t3 !! i = Some (child b (NBranch c r None) (NBranch l c None)) ∧
  branch_at t3 i (child b c l) (child b r c) (child b tc tl) (child b tr tc)
    (child b F2 Fl) (child b Fr F2) ∧
  evolves t ({[i]} ∪ Fl ∪ Fr) t3 ({[i]} ∪ child b F2 Fl ∪ child b Fr F2).
Proof.
  intros [Hlt Hl Hr Hil Hir Hd [Hnd Hfr]] [Hfrm Hfresh Hlen [Hnd2 Hfr2] Hroot] Hc t3.
  simpl in *. rewrite length_insert in *.
  assert (i ∉ free t) as Hif by (intros Hin; destruct (Hfr i Hin); set_solver).
  assert (nodes t2 !! i = Some (NBranch l r None)) as Hi2.
  { rewrite Hfrm; [by apply list_lookup_insert_eq|done|by destruct b|done]. }
  assert (t3 = set_node t2 i (child b (NBranch c r None) (NBranch l c None))) as Ht3.
  { unfold t3, set_child. rewrite Hi2. by destruct b. }
  assert (i < length (nodes t2))%nat as Hlt2 by lia.
  assert (∀ j, j ≠ i → nodes t3 !! j = nodes t2 !! j) as Hne.
  { intros j Hj. rewrite Ht3, set_node_lookup by done. by rewrite decide_False. }
  assert (∀ j, (j < length (nodes t))%nat → j ≠ i → j ∉ child b Fl Fr → j ∉ free t →
    nodes t2 !! j = nodes t !! j) as Hold.
  { intros j ????. rewrite Hfrm by done. by apply list_lookup_insert_ne. }
  assert (∀ j, j ∈ child b Fr Fl → (j < length (nodes t))%nat ∧ j ≠ i ∧ j ∉ child b Fl Fr ∧ j ∉ free t)
    as Hsib.
  { intros j Hj. split_and!.
    - destruct b; eauto using rep_range.
    - destruct b; set_solver.
    - destruct b; set_solver.
    - intros Hin. destruct (Hfr j Hin). destruct b; set_solver. }
  assert (i ∉ F2) as Hi2'.
  { intros Hin. destruct (Hfresh i (or_introl Hin)) as [?|[?|?]]; [by destruct b|done|lia]. }
  assert (child b Fr Fl ## F2) as Hdis.
  { intros j Hj Hj2. destruct (Hsib j Hj) as (? & ? & ? & ?).
    destruct (Hfresh j (or_introl Hj2)) as [?|[?|?]]; [done..|lia]. }
  assert (rep (nodes t3) (child b r l) (child b tr tl) (child b Fr Fl)) as Hrs.
  { apply rep_frame with (nodes t); [by destruct b|]. intros j Hj.
    destruct (Hsib j Hj) as (? & ? & ? & ?). rewrite Hne by done. by apply Hold. }
  assert (rep (nodes t3) c tc F2) as Hrc.
  { eapply rep_frame; [done|]. intros j Hj. apply Hne. by intros ->. }
  assert (free t3 = free t2 ∧ length (nodes t3) = length (nodes t2) ∧ t_root t3 = t_root t2)
    as (Ef3 & El3 & Er3) by (rewrite Ht3; simpl; rewrite length_insert; done).
  assert (free_ok t3 ({[i]} ∪ child b F2 Fl ∪ child b Fr F2)) as Hfree3.
  { split; [by rewrite Ef3|]. rewrite Ef3, El3. intros j Hj. destruct (Hfr2 j Hj) as [Hj2 HjF2].
    split; [done|]. destruct (Hfresh j (or_intror Hj)) as [Hj'|[Hj'|Hj']].
    - intros Hin. destruct b; simpl in *; set_solver.
    - destruct (Hfr j Hj'). destruct b; simpl in *; set_solver.
    - intros Hin. assert (j = i ∨ j ∈ child b Fr Fl) as [->|Hs] by (destruct b; simpl in *; set_solver).
      + lia.
      + destruct (Hsib j Hs). lia. }
  split_and!.
  - rewrite Ht3, set_node_lookup by done. by rewrite decide_True.
  - split; try (by rewrite El3); try done; destruct b; simpl in *; try done; set_solver.
  - split; rewrite ?Er3, ?El3; try done.
    + intros j Hj HjF Hjf. rewrite Hne by set_solver. apply Hold; try done; [set_solver|].
      destruct b; set_solver.
    + intros j Hj. rewrite Ef3 in Hj.
      assert (j ∈ {[i]} ∪ Fl ∪ Fr ∨ j ∈ F2 ∨ j ∈ free t2) as [?|Hj'] by (destruct b; simpl in *; set_solver).
      * by left.
      * destruct (Hfresh j Hj') as [?|[?|?]]; [left; destruct b; simpl in *; set_solver|by auto..].
Qed.

(** The fuel a call needs with [n] levels left. *)
Definition ins_need (n : nat) (t : tree) : nat :=
  match t with TBranch _ _ => 2 * n + 1 | _ => 2 * n + 2 end.

Definition ins_post (t : Trie) (idx : option nat) (F : gset nat) (tc : tree)
    (res : option (Trie * option nat)) : Prop :=
  ∃ t' idx' F', res = Some (t', idx') ∧ rep (nodes t') idx' tc F' ∧
    evolves t F t' F' ∧ (idx ≠ None → idx' = idx).

Lemma ins_branch fuel n max_depth t i l r tl tr Fl Fr h k v :
  (∀ t idx tc F d, (n = max_depth - d)%nat → fits n tc → rep (nodes t) idx tc F → free_ok t F →
     (ins_need n tc ≤ fuel)%nat →
     ins_post t idx F (tins n d tc k v) (ins fuel max_depth t idx d k v)) →
  ∀ d, (S n = max_depth - d)%nat → (2 * n + 2 ≤ fuel)%nat → fits n tl → fits n tr →
  nodes t !! i = Some (NBranch l r h) → branch_at t i l r tl tr Fl Fr →
  ins_post t (Some i) ({[i]} ∪ Fl ∪ Fr) (tins (S n) d (TBranch tl tr) k v)
    (ins (S fuel) max_depth t (Some i) d k v).
Proof.
  intros IH d Hn Hfuel Hfl Hfr Hi Hbr. simpl ins. rewrite Hi. simpl.
  set (b := path_bit k d). pose proof (branch_down _ _ _ _ _ _ _ _ b Hbr) as [Hc Hcf].
  destruct (IH (set_node t i (NBranch l r None)) (child b l r) (child b tl tr) (child b Fl Fr) (S d))
    as (t2 & c & F2 & Hins & Hrep & Hev & _); try done; [lia|by destruct b| |].
  { unfold ins_need. case_match; lia. }
  replace (if b then r else l) with (child b l r) by (by destruct b). rewrite Hins. simpl.
  destruct (branch_up _ _ _ _ _ _ _ _ b t2 c _ F2 Hbr Hev Hrep) as (Hi3 & Hb3 & Hev3).
  eexists _, _, _. split_and!; [done| |exact Hev3|done].
  destruct Hb3. destruct b; simpl in *; econstructor; eauto.
Qed.

(** A leaf that is split: the node becomes a branch, which both keys enter. *)
Lemma ins_split fuel n max_depth t i k0 v0 k v d :
  (∀ t idx tc F k v d n, (n = max_depth - d)%nat → fits n tc → rep (nodes t) idx tc F →
     free_ok t F → (ins_need n tc ≤ fuel)%nat →
     ins_post t idx F (tins n d tc k v) (ins fuel max_depth t idx d k v)) →
  (S n = max_depth - d)%nat → (i < length (nodes t))%nat → free_ok t {[i]} → k0 ≠ k →
  (ins_need (S n) (TLeaf k0 v0) ≤ S fuel)%nat →
  ins_post t (Some i) {[i]} (tins (S n) d (TLeaf k0 v0) k v)
    (p2 ← ins fuel max_depth (set_node t i (NBranch None None None)) (Some i) d k0 v0;
     p3 ← ins fuel max_depth p2.1 (Some i) d k v;
     Some (p3.1, Some i)).
Proof.
  intros IH Hn Hlt Hfree Hk Hfuel. remember (tins (S n) d (TLeaf k0 v0) k v) as tcf eqn:Htcf.
  set (t1 := set_node t i (NBranch None None None)).
  assert (evolves t {[i]} t1 ({[i]} ∪ ∅ ∪ ∅)) as Hev1
    by (apply evolves_set_node; [done|set_solver|done|set_solver]).
  assert (rep (nodes t1) (Some i) (TBranch TNil TNil) ({[i]} ∪ ∅ ∪ ∅)) as Hrep1.
  { econstructor; [by apply list_lookup_insert_eq|constructor|constructor|set_solver..|by left]. }
  destruct (IH t1 (Some i) (TBranch TNil TNil) _ k0 v0 d (S n) Hn (conj I I) Hrep1
    (ev_free _ _ _ _ Hev1)) as (t2 & i2 & F2 & Hins2 & Hrep2 & Hev2 & Hi2); [simpl in *; lia|].
  rewrite Hins2. simpl. specialize (Hi2 ltac:(done)). subst i2.
  set (tc2 := tins (S n) d (TBranch TNil TNil) k0 v0) in *.
  destruct (IH t2 (Some i) tc2 F2 k v d (S n) Hn
    (fits_tins (S n) d (TBranch TNil TNil) k0 v0 (conj I I)) Hrep2 (ev_free _ _ _ _ Hev2))
    as (t3 & i3 & F3 & Hins3 & Hrep3 & Hev3 & Hi3).
  { unfold tc2. simpl. destruct (path_bit k0 d); simpl in *; lia. }
  rewrite Hins3. simpl. specialize (Hi3 ltac:(done)). subst i3. eexists _, _, F3.
  split_and!; [done| |by eauto using evolves_trans|done].
  replace tcf with (tins (S n) d tc2 k v); [done|].
  unfold tc2. rewrite Htcf. simpl. rewrite bool_decide_eq_false_2 by done.
  assert (tins n (S d) TNil k0 v0 = TLeaf k0 v0) as Hnil by (by destruct n).
  by destruct (path_bit k0 d); simpl; rewrite Hnil.
Qed.

Lemma ins_spec fuel max_depth t idx tc F k v :
  ∀ d n, (n = max_depth - d)%nat → fits n tc → rep (nodes t) idx tc F → free_ok t F →
  (ins_need n tc ≤ fuel)%nat →
  ins_post t idx F (tins n d tc k v) (ins fuel max_depth t idx d k v).
Proof.
  revert t idx tc F k v. induction fuel as [|fuel IH]; intros t idx tc F k v d n Hn Hfit Hrep Hfree Hfuel.
  { unfold ins_need in Hfuel. destruct tc; lia. }
  inversion Hrep as [|i k0 v0 Hi|i l Hi|i l r h tl tr Fl Fr Hi Hl Hr Hil Hir Hd Hh]; subst idx tc F.
  - destruct (alloc_leaf t k v ∅ Hfree eq_refl) as [Hev Hr]. simpl ins.
    destruct (alloc t (NLeaf k v)) as [t' j]. exists t', (Some j), {[j]}.
    split_and!; [done| |done|done]. by destruct n.
  - pose proof (lookup_lt_Some _ _ _ Hi) as Hlt.
    simpl ins. rewrite Hi. simpl. case_bool_decide as Hk.
    + eexists _, _, {[i]}. split_and!; [done| |by apply evolves_set_node; set_solver|done].
      replace (tins n d (TLeaf k0 v0) k v) with (TLeaf k0 v)
        by (destruct n; simpl; by rewrite bool_decide_eq_true_2).
      constructor. by apply list_lookup_insert_eq.
    + destruct (Nat.leb_spec max_depth d) as [Hmax|Hmax].
      * eexists _, _, {[i]}. split_and!; [done| |by apply evolves_set_node; set_solver|done].
        replace n with 0%nat by lia. simpl. rewrite bool_decide_eq_false_2 by done.
        constructor. by apply list_lookup_insert_eq.
      * destruct n as [|n]; [lia|]. by eapply ins_split.
  - pose proof (lookup_lt_Some _ _ _ Hi) as Hlt. simpl ins. rewrite Hi. simpl.
    eexists _, _, {[i]}. split_and!; [done| |by apply evolves_set_node; set_solver|done].
    replace (tins n d (TBucket l) k v) with (TBucket (bucket_put l k v)) by (by destruct n).
    constructor. by apply list_lookup_insert_eq.
  - destruct n as [|n]; [done|]. destruct Hfit as [??].
    eapply ins_branch; [|done|simpl in *; lia|done..|].
    + intros. by eapply IH.
    + split; try done. by eapply lookup_lt_Some.
Qed.

Definition rem_post (t : Trie) (F : gset nat) (tc : tree)
    (res : option (Trie * option nat)) : Prop :=
  ∃ t' idx' F', res = Some (t', idx') ∧ rep (nodes t') idx' tc F' ∧ evolves t F t' F'.

(** Lifting the only remaining child of a branch. *)
Lemma lift_spec t i l r tl tr Fl Fr :
  nodes t !! i = Some (NBranch l r None) → branch_at t i l r tl tr Fl Fr →
  rem_post t ({[i]} ∪ Fl ∪ Fr) (tlift tl tr)
    (n3 ← nodes t !! i;
     match n3 with
     | NBranch None None _ => Some (release t i, None)
     | NBranch (Some only) None _ | NBranch None (Some only) _ =>
         no ← nodes t !! only;
         match no with
         | NLeaf _ _ => Some (release t i, Some only)
         | _ => Some (t, Some i)
         end
     | _ => Some (t, Some i)
     end).
Proof.
  intros Hi [Hlt Hl Hr Hil Hir Hd Hfree]. rewrite Hi. simpl.
  assert (rem_post t ({[i]} ∪ Fl ∪ Fr) (TBranch tl tr) (Some (t, Some i))) as Hstay.
  { eexists _, _, _. split_and!; [done|by econstructor; eauto|]. split; try done. naive_solver. }
  assert (∀ o tc F', rep (nodes t) o tc F' → i ∉ F' → F' ⊆ {[i]} ∪ Fl ∪ Fr →
    rem_post t ({[i]} ∪ Fl ∪ Fr) tc (Some (release t i, o))) as Hgo.
  { intros o tc F' Ho HiF Hsub. eexists _, _, F'. split_and!; [done| |].
    - apply rep_frame with (nodes t); [done|]. intros j Hj.
      apply list_lookup_insert_ne. by intros ->.
    - apply evolves_release; try done. set_solver. }
  destruct l as [l|], r as [r|].
  - apply rep_Some in Hl as [? _], Hr as [? _]. by destruct tl, tr.
  - apply rep_None in Hr as [-> ->].
    inversion Hl as [|? k v Hn|? lb Hn|? ? ? ? ? ? ? ? Hn]; subst; rewrite Hn; simpl; try done.
    apply (Hgo _ _ {[l]}); [done|done|set_solver].
  - apply rep_None in Hl as [-> ->].
    inversion Hr as [|? k v Hn|? lb Hn|? ? ? ? ? ? ? ? Hn]; subst; rewrite Hn; simpl; try done.
    apply (Hgo _ _ {[r]}); [done|done|set_solver].
  - apply rep_None in Hl as [-> ->], Hr as [-> ->].
    apply (Hgo _ _ ∅); [constructor|done|set_solver].
Qed.

Lemma rem_spec fuel t idx tc F k :
  ∀ d n, wf n d tc → rep (nodes t) idx tc F → free_ok t F → (n < fuel)%nat →
  rem_post t F (trem d tc k) (rem fuel t idx d k).
Proof.
  revert t idx tc F. induction fuel as [|fuel IH]; intros t idx tc F d n Hw Hrep Hfree Hfuel; [lia|].
  assert (∀ idx', rep (nodes t) idx' tc F → rem_post t F tc (Some (t, idx'))) as Hsame.
  { intros idx' ?. eexists _, _, _. split_and!; [done..|]. split; try done. naive_solver. }
  assert (∀ i nd tc', i ∈ F → (i < length (nodes t))%nat → rep (<[i := nd]> (nodes t)) (Some i) tc' {[i]} →
    rem_post t F tc' (Some (set_node t i nd, Some i))) as Hset.
  { intros i nd tc' ???. eexists _, _, {[i]}. split_and!; [done..|].
    apply evolves_set_node; [done..|set_solver]. }
  inversion Hrep as [|i k0 v0 Hi|i l Hi|i l r h tl tr Fl Fr Hi Hl Hr Hil Hir Hd Hh]; subst idx tc F.
  - by apply Hsame.
  - simpl. rewrite Hi. simpl. case_bool_decide; [|by apply Hsame].
    eexists _, _, ∅. split_and!; [done|constructor|].
    apply evolves_release; try done; [set_solver|by eapply lookup_lt_Some].
  - pose proof (lookup_lt_Some _ _ _ Hi) as Hlt. simpl. rewrite Hi. simpl.
    destruct (bucket_take l k) as [[|[k1 v1] [|e l']]|]; [| | |by apply Hsame];
      (apply Hset; [set_solver|done|constructor; by apply list_lookup_insert_eq]).
  - destruct n as [|n]; [done|]. destruct Hw as (Hwl & Hwr & Bl & Br & _).
    assert (branch_at t i l r tl tr Fl Fr) as Hbr by (split; try done; by eapply lookup_lt_Some).
    simpl. rewrite Hi. simpl. set (b := path_bit k d).
    pose proof (branch_down _ _ _ _ _ _ _ _ b Hbr) as [Hc Hcf].
    destruct (IH (set_node t i (NBranch l r None)) (child b l r) (child b tl tr) (child b Fl Fr) (S d) n)
      as (t2 & c & F2 & Hrem & Hrc & Hev); try done; [by destruct b|lia|].
    replace (if b then r else l) with (child b l r) by (by destruct b). rewrite Hrem. simpl.
    destruct (branch_up _ _ _ _ _ _ _ _ b t2 c _ F2 Hbr Hev Hrc) as (Hi3 & Hb3 & Hev3).
    assert (nodes (set_child t2 i b c) !! i = Some (NBranch (child b c l) (child b r c) None))
      as Hi3' by (rewrite Hi3; by destruct b).
    destruct (lift_spec _ _ _ _ _ _ _ _ Hi3' Hb3) as (t4 & i4 & F4 & -> & Hr4 & Hev4).
    exists t4, i4, F4. split_and!; [done|by destruct b|]. by eapply evolves_trans.
Qed.

(** Hashing fills caches and changes nothing else. *)
Definition hash_post (t : Trie) (idx : option nat) (F : gset nat) (tc : tree)
    (res : option (Trie * Hash)) : Prop :=
  ∃ t', res = Some (t', thash tc) ∧ rep (nodes t') idx tc F ∧
    free t' = free t ∧ t_root t' = t_root t ∧ length (nodes t') = length (nodes t) ∧
    ∀ i, i ∉ F → nodes t' !! i = nodes t !! i.

Lemma hash_of_spec fuel t idx tc F :
  ∀ d n, wf n d tc → rep (nodes t) idx tc F → (n < fuel)%nat →
  hash_post t idx F tc (hash_of fuel t idx).
Proof.
  revert t idx tc F. induction fuel as [|fuel IH]; intros t idx tc F d n Hw Hrep Hfuel; [lia|].
  inversion Hrep as [|i k0 v0 Hi|i l Hi|i l r h tl tr Fl Fr Hi Hl Hr Hil Hir Hd Hh];
    subst idx tc F; simpl; try (rewrite Hi; simpl).
  1,2: eexists; split_and!; done.
  - destruct l as [|e l]; [destruct Hw as (_ & Hlen & _); simpl in Hlen; lia|].
    eexists; split_and!; done.
  - destruct Hh as [->|Hcache]; [|rewrite Hcache; eexists; split_and!; done].
    destruct n as [|n]; [done|]. destruct Hw as (Hwl & Hwr & _).
    destruct (IH t l tl Fl (S d) n Hwl Hl) as (t1 & H1 & Hl1 & Hf1 & Hr1 & Hn1 & Ho1); [lia|].
    assert (rep (nodes t1) r tr Fr) as Hr1' by (eapply rep_frame; [done|]; set_solver).
    destruct (IH t1 r tr Fr (S d) n Hwr Hr1') as (t2 & H2 & Hr2 & Hf2 & Hrt2 & Hn2 & Ho2); [lia|].
    rewrite H1. simpl. rewrite H2. simpl.
    assert (nodes t2 !! i = Some (NBranch l r None)) as Hi2 by (rewrite Ho2, Ho1; done).
    rewrite Hi2. pose proof (lookup_lt_Some _ _ _ Hi2) as Hlt2.
    eexists. split_and!; [done| | | | |]; simpl; rewrite ?length_insert; try congruence.
    + econstructor; [by apply list_lookup_insert_eq| | |done..|by right].
      * apply rep_frame with (nodes t1); [done|]. intros j Hj.
        rewrite list_lookup_insert_ne by set_solver. apply Ho2. set_solver.
      * eapply rep_frame; [done|]. intros j Hj. apply list_lookup_insert_ne. set_solver.
    + intros j Hj. rewrite list_lookup_insert_ne by set_solver.
      rewrite Ho2 by set_solver. apply Ho1. set_solver.
Qed.

Lemma proof_path_spec fuel hfuel t idx tc F key :
  ∀ d n, wf n d tc → rep (nodes t) idx tc F → (n < fuel)%nat → (n < hfuel)%nat →
  ∃ t', proof_path fuel hfuel t idx d key = Some (t', tpath d tc key) ∧
    rep (nodes t') idx tc F ∧ free t' = free t ∧ t_root t' = t_root t ∧
    length (nodes t') = length (nodes t) ∧ ∀ i, i ∉ F → nodes t' !! i = nodes t !! i.
Proof.
  revert t idx tc F. induction fuel as [|fuel IH]; intros t idx tc F d n Hw Hrep Hfuel Hh; [lia|].
  inversion Hrep as [|i k0 v0 Hi|i l Hi|i l r h tl tr Fl Fr Hi Hl Hr Hil Hir Hd Hc];
    subst idx tc F; simpl; try (rewrite Hi; simpl).
  1-3: eexists; split_and!; done.
  destruct n as [|n]; [done|]. destruct Hw as (Hwl & Hwr & _). set (b := path_bit key d).
  destruct (hash_of_spec hfuel t (child b r l) (child b tr tl) (child b Fr Fl) (S d) n)
    as (t1 & H1 & Hs1 & Hf1 & Hr1 & Hn1 & Ho1); [by destruct b|by destruct b|lia|].
  assert (rep (nodes t1) (child b l r) (child b tl tr) (child b Fl Fr)) as Hc1.
  { apply rep_frame with (nodes t); [by destruct b|]. intros j Hj. apply Ho1.
    destruct b; set_solver. }
  destruct (IH t1 (child b l r) (child b tl tr) (child b Fl Fr) (S d) n)
    as (t2 & H2 & Hs2 & Hf2 & Hr2 & Hn2 & Ho2); [by destruct b|done|lia|lia|].
  replace (if b then l else r) with (child b r l) by (by destruct b). rewrite H1. simpl.
  replace (if b then r else l) with (child b l r) by (by destruct b). rewrite H2. simpl.
  exists t2. split_and!; try congruence; [by destruct b| |].
  - assert (rep (nodes t2) (child b r l) (child b tr tl) (child b Fr Fl)) as Hs2'.
    { eapply rep_frame; [done|]. intros j Hj. apply Ho2. destruct b; set_solver. }
    econstructor; [|destruct b; eassumption..|done|done|done|done].
    rewrite Ho2, Ho1; [done|by destruct b..].
  - intros j Hj. rewrite Ho2, Ho1; [done|destruct b; set_solver..].
Qed.

End Refinement.

(** ** The tree as a map *)

(** One call of the tree's interface. *)
Inductive SmtOp :=
| SmtInsert (key value_hash : bytes)
| SmtDelete (key : bytes)
| SmtRoot
| SmtProve (key : bytes).

Section TreeProperties.
Context `{Host}.

Definition smt_apply (s : SparseMerkleTree) (op : SmtOp) : option SparseMerkleTree :=
  match op with
  | SmtInsert k v => insert_leaf_hash s k v
  | SmtDelete k => delete_raw s k
  | SmtRoot => fst <$> smt_root s
  | SmtProve k => fst <$> prove s k
  end.

Fixpoint smt_run (s : SparseMerkleTree) (ops : list SmtOp) : option SparseMerkleTree :=
  match ops with
  | [] => Some s
  | op :: rest => s' ← smt_apply s op; smt_run s' rest
  end.

(** The abstract specification: a finite map. *)
Definition spec_apply (m : gmap bytes bytes) (op : SmtOp) : gmap bytes bytes :=
  match op with
  | SmtInsert k v => <[k := v]> m
  | SmtDelete k => delete k m
  | SmtRoot | SmtProve _ => m
  end.

Definition spec_run (ops : list SmtOp) : gmap bytes bytes := foldl spec_apply ∅ ops.

Definition spec_root (n : nat) (m : gmap bytes bytes) : Hash :=
  build_root n 0 (merge_sort entry_le (map_to_list m)).

(** The representation invariant of the tree. *)
Definition smt_ok (s : SparseMerkleTree) : Prop :=
  ∃ t F, rep (nodes (trie s)) (t_root (trie s)) t F ∧ free_ok (trie s) F ∧
    wf (smt_depth s) 0 t ∧ holds t (leaves s).

(** The inputs a verification hashes, leaf first. *)
Fixpoint proof_inputs (key : bytes) (value_hash : Hash) (steps : list ProofStep) : list bytes :=
  match steps with
  | [] => [key ++ value_hash]
  | step :: rest =>
      let current := compute_root_from_proof key value_hash rest in
      (if step_bit step then sibling_hash step ++ current else current ++ sibling_hash step)
        :: proof_inputs key value_hash rest
  end.

Lemma with_max_depth_ok n : smt_ok (with_max_depth n).
Proof.
  exists TNil, ∅. split_and!; simpl; [constructor| |done|].
  - split; [constructor|]. by intros i ?%elem_of_nil.
  - intros k v. simpl. rewrite lookup_empty, elem_of_nil. done.
Qed.

Lemma insert_leaf_hash_ok s k v :
  smt_ok s → ∃ s', insert_leaf_hash s k v = Some s' ∧ smt_ok s' ∧
    leaves s' = <[k := v]> (leaves s) ∧ smt_depth s' = smt_depth s.
Proof.
  intros (t & F & Hrep & Hfree & Hw & Hm). unfold insert_leaf_hash.
  case_bool_decide as Hk.
  { exists s. split_and!; [done|by exists t, F| |done]. by rewrite insert_id. }
  unfold trie_insert.
  destruct (ins_spec (trie_fuel (smt_depth s)) (smt_depth s) (trie s) (t_root (trie s)) t F k v
    0 (smt_depth s)) as (t' & idx & F' & -> & Hrep' & Hev & _); try done; [lia|by eapply wf_fits| |].
  { unfold ins_need, trie_fuel. destruct t; lia. }
  eexists. split_and!; [done| |done|done].
  exists (tins (smt_depth s) 0 t k v), F'. split_and!; simpl.
  - done.
  - by destruct Hev as [_ _ _ [??] _].
  - by apply wf_tins.
  - by eapply holds_tins.
Qed.

Lemma delete_raw_ok s k :
  smt_ok s → ∃ s', delete_raw s k = Some s' ∧ smt_ok s' ∧
    leaves s' = delete k (leaves s) ∧ smt_depth s' = smt_depth s.
Proof.
  intros (t & F & Hrep & Hfree & Hw & Hm). unfold delete_raw. case_bool_decide as Hk.
  - unfold trie_remove.
    destruct (rem_spec (trie_fuel (smt_depth s)) (trie s) (t_root (trie s)) t F k 0 (smt_depth s))
      as (t' & idx & F' & -> & Hrep' & Hev); try done; [unfold trie_fuel; lia|].
    eexists. split_and!; [done| |done|done].
    exists (trem 0 t k), F'. split_and!; simpl.
    + done.
    + by destruct Hev as [_ _ _ [??] _].
    + by apply wf_trem.
    + by eapply holds_trem.
  - exists s. split_and!; [done|by exists t, F| |done].
    rewrite delete_id; [done|]. by apply eq_None_not_Some.
Qed.

Lemma smt_root_ok s :
  smt_ok s → ∃ s', smt_root s = Some (s', reference_root s) ∧ smt_ok s' ∧
    leaves s' = leaves s ∧ smt_depth s' = smt_depth s.
Proof.
  intros (t & F & Hrep & Hfree & Hw & Hm). unfold smt_root.
  destruct (hash_of_spec (trie_fuel (smt_depth s)) (trie s) (t_root (trie s)) t F 0 (smt_depth s))
    as (t' & -> & Hrep' & Hf & Hr & Hl & _); try done; [unfold trie_fuel; lia|].
  simpl. rewrite (thash_reference _ _ _ Hw Hm). eexists. split_and!; [done| |done|done].
  exists t, F. split_and!; simpl; try done; [by rewrite Hr|].
  destruct Hfree. split; rewrite ?Hf, ?Hl; done.
Qed.

(** Proving a stored key: the state and the siblings of the represented tree. *)
Lemma prove_ok s key v :
  smt_ok s → leaves s !! key = Some v →
  ∃ s' t, prove s key = Some (s', Some (mkMerkleProof key v (tpath 0 t key) (reference_root s))) ∧
    smt_ok s' ∧ leaves s' = leaves s ∧ smt_depth s' = smt_depth s ∧
    wf (smt_depth s) 0 t ∧ holds t (leaves s).
Proof.
  intros Hok Hv. unfold prove. rewrite Hv.
  destruct (smt_root_ok s Hok) as (s1 & -> & (t & F & Hrep & Hfree & Hw & Hm) & El & Ed).
  simpl. rewrite <- Ed.
  destruct (proof_path_spec (trie_fuel (smt_depth s1)) (trie_fuel (smt_depth s1)) (trie s1)
    (t_root (trie s1)) t F key 0 (smt_depth s1)) as (t2 & -> & Hrep2 & Hf & Hr & Hl & _);
    try done; [unfold trie_fuel; lia..|].
  simpl. eexists _, t. split_and!; try done; [|by rewrite <- El].
  exists t, F. split_and!; simpl; try done; [by rewrite Hr| |by rewrite <- El].
  destruct Hfree. split; rewrite ?Hf, ?Hl; done.
Qed.

Lemma prove_absent s key : leaves s !! key = None → prove s key = Some (s, None).
Proof. unfold prove. by intros ->. Qed.

Lemma smt_apply_ok s op :
  smt_ok s → ∃ s', smt_apply s op = Some s' ∧ smt_ok s' ∧
    leaves s' = spec_apply (leaves s) op ∧ smt_depth s' = smt_depth s.
Proof.
  intros Hok. destruct op as [k v|k| |k]; simpl.
  - by apply insert_leaf_hash_ok.
  - by apply delete_raw_ok.
  - destruct (smt_root_ok s Hok) as (s' & -> & ? & ? & ?). eauto 6.
  - destruct (leaves s !! k) as [v|] eqn:E.
    + destruct (prove_ok s k v Hok E) as (s' & t & -> & ? & ? & ? & _). simpl. eauto 6.
    + rewrite prove_absent by done. simpl. eauto 6.
Qed.

Lemma smt_run_ok ops s :
  smt_ok s → ∃ s', smt_run s ops = Some s' ∧ smt_ok s' ∧
    leaves s' = foldl spec_apply (leaves s) ops ∧ smt_depth s' = smt_depth s.
Proof.
  revert s. induction ops as [|op ops IH]; intros s Hok; simpl; [by eauto|].
  destruct (smt_apply_ok s op Hok) as (s1 & -> & Hok1 & El & Ed). simpl.
  destruct (IH s1 Hok1) as (s2 & -> & ? & El2 & Ed2). exists s2.
  rewrite El2, El, Ed2, Ed. done.
Qed.

(** A verification along a tree path succeeds for a committed key. *)
Lemma tpath_verifies n t m key v :
  wf n 0 t → holds t m → m !! key = Some v → committed n m key →
  compute_root_from_proof key v (tpath 0 t key) = thash t.
Proof.
  intros Hw Hm Hv Hc. apply Hm in Hv as Hin.
  destruct (tfind_elem n 0 t key v Hw Hin) as ([k' v'] & Hf & Hin' & Hle & Hbits).
  assert (k' = key) as ->.
  { apply bytes_leb_antisym; [done|]. apply Hc; [|intros; apply Hbits; lia].
    apply Hm in Hin'. eauto. }
  apply Hm in Hin'. assert (v' = v) as -> by congruence.
  unfold compute_root_from_proof. by rewrite <- (tpath_root 0 t key _ Hf).
Qed.

End TreeProperties.

(** ** Properties *)

Section MerkleProperties.
Context `{Host}.

(** C23: the incremental trie implements the reference tree. After any sequence
    of insertions, deletions, root computations and proofs on an empty tree of
    depth [n], no call fails (the fuel is enough and every index is in range),
    the leaves are those of the abstract map, and the root, with all its cached
    hashes, is the root of the sort-and-partition algorithm. *)
Theorem smt_root_matches_reference n ops :
  ∃ s s', smt_run (with_max_depth n) ops = Some s ∧ leaves s = spec_run ops ∧
    smt_root s = Some (s', reference_root s) ∧
    reference_root s = spec_root n (spec_run ops) ∧ leaves s' = leaves s.
Proof.
  destruct (smt_run_ok ops _ (with_max_depth_ok n)) as (s & Hrun & Hok & El & Ed).
  destruct (smt_root_ok s Hok) as (s' & Hroot & _ & El' & _). simpl in *.
  exists s, s'. split_and!; try done. unfold reference_root, spec_root, spec_run. by rewrite El, Ed.
Qed.

(** The root is a function of the leaves: two histories that leave the same
    map have the same root, whatever their order and intermediate states. *)
Theorem smt_root_history_independent n ops1 ops2 s1 s2 r1 r2 :
  spec_run ops1 = spec_run ops2 →
  smt_run (with_max_depth n) ops1 = Some s1 → smt_run (with_max_depth n) ops2 = Some s2 →
  snd <$> smt_root s1 = Some r1 → snd <$> smt_root s2 = Some r2 → r1 = r2.
Proof.
  intros Hspec H1 H2.
  destruct (smt_run_ok ops1 _ (with_max_depth_ok n)) as (s1' & Hr1 & Hok1 & El1 & Ed1).
  destruct (smt_run_ok ops2 _ (with_max_depth_ok n)) as (s2' & Hr2 & Hok2 & El2 & Ed2).
  simplify_eq. destruct (smt_root_ok s1 Hok1) as (? & -> & _), (smt_root_ok s2 Hok2) as (? & -> & _).
  simpl. intros [= <-] [= <-]. unfold reference_root, spec_run in *. simpl in *.
  by rewrite El1, El2, Ed1, Ed2, Hspec.
Qed.

(** Proofs are complete. In any reachable tree a stored key that is the
    smallest one of its bucket gets a proof of its own value hash that verifies
    against the current root; a key that is not stored gets none. *)
Theorem prove_verifies n ops s key :
  smt_run (with_max_depth n) ops = Some s →
  (leaves s !! key = None → prove s key = Some (s, None)) ∧
  ∀ v, leaves s !! key = Some v → committed n (leaves s) key →
    ∃ s' p, prove s key = Some (s', Some p) ∧ mp_key p = key ∧ mp_value_hash p = v ∧
      mp_root p = reference_root s ∧ verify_against p (reference_root s) = true ∧
      leaves s' = leaves s.
Proof.
  intros Hrun. destruct (smt_run_ok ops _ (with_max_depth_ok n)) as (s1 & Hr & Hok & _ & Ed).
  simplify_eq. simpl in Ed. split; [apply prove_absent|]. intros v Hv Hc.
  destruct (prove_ok s key v Hok Hv) as (s' & t & Hp & _ & El & _ & Hw & Hm).
  eexists s', _. split_and!; try done. unfold verify_against. simpl.
  rewrite (tpath_verifies (smt_depth s) t (leaves s)); try done; [|by rewrite Ed].
  rewrite (thash_reference _ _ _ Hw Hm). by rewrite !bool_decide_eq_true_2.
Qed.

(** At the full depth of 256 bits every stored 32-byte key is committed, so
    every stored slot has a verifying proof. *)
Theorem deep_tree_commits_every_key ops s key v :
  smt_run (with_max_depth DEEP_MAX_DEPTH) ops = Some s →
  (∀ k, is_Some (leaves s !! k) → is_word k) → leaves s !! key = Some v →
  ∃ s' p, prove s key = Some (s', Some p) ∧ mp_value_hash p = v ∧
    verify_against p (reference_root s) = true.
Proof.
  intros Hrun Hwords Hv.
  destruct (smt_run_ok ops _ (with_max_depth_ok DEEP_MAX_DEPTH)) as (s1 & Hr & Hok & _ & Ed).
  simplify_eq. destruct (prove_ok s key v Hok Hv) as (s' & t & Hp & _ & _ & _ & Hw & Hm).
  eexists s', _. split_and!; try done. unfold verify_against. simpl.
  rewrite (tpath_verifies (smt_depth s) t (leaves s)); try done.
  - rewrite (thash_reference _ _ _ Hw Hm). by rewrite !bool_decide_eq_true_2.
  - rewrite Ed. apply committed_deep; eauto.
Qed.

(** C24: a verified proof binds the value. Two proofs of one key that take the
    same turns and verify against the same root carry the same value hash, or
    two of the inputs they hash collide (digests and siblings being 32 bytes long,
    and the two value hashes equally long). *)
Theorem proof_binding key v1 v2 steps1 steps2 root :
  (∀ x, length (blake3 x) = 32%nat) →
  Forall (λ st, length (sibling_hash st) = 32%nat) (steps1 ++ steps2) →
  length v1 = length v2 →
  step_bit <$> steps1 = step_bit <$> steps2 →
  verify_against (mkMerkleProof key v1 steps1 root) root = true →
  verify_against (mkMerkleProof key v2 steps2 root) root = true →
  v1 = v2 ∨ ∃ x y, x ∈ proof_inputs key v1 steps1 ∧ y ∈ proof_inputs key v2 steps2 ∧
    x ≠ y ∧ blake3 x = blake3 y.
Proof.
  intros Hlen Hsib Hv Hbits V1 V2. unfold verify_against in *. bool_to_prop. simpl in *.
  clear - Hlen Hsib Hv Hbits H0 H2.
  assert (compute_root_from_proof key v1 steps1 = compute_root_from_proof key v2 steps2) as Heq
    by congruence. clear H0 H2. revert steps2 Hsib Hbits Heq.
  induction steps1 as [|st1 steps1 IH]; intros [|st2 steps2] Hsib Hbits Heq; simplify_eq/=.
  - unfold compute_root_from_proof, leaf_hash in Heq. simpl in Heq.
    destruct (decide (key ++ v1 = key ++ v2)) as [He|Hne].
    + left. by apply app_inj_1 in He as [_ ?].
    + right. exists (key ++ v1), (key ++ v2). split_and!; [left|left|done|done].
  - set (c1 := compute_root_from_proof key v1 steps1) in *.
    set (c2 := compute_root_from_proof key v2 steps2) in *.
    assert (length c1 = 32%nat ∧ length c2 = 32%nat) as [Hc1 Hc2].
    { unfold c1, c2, compute_root_from_proof, fold_step, hash_pair, leaf_hash.
      split; [destruct steps1|destruct steps2]; simpl; repeat case_match; apply Hlen. }
    apply Forall_cons in Hsib as [Hl1 Hsib]. apply Forall_app in Hsib as [Hs1 [Hl2 Hs2]%Forall_cons].
    set (i1 := if step_bit st1 then sibling_hash st1 ++ c1 else c1 ++ sibling_hash st1).
    set (i2 := if step_bit st2 then sibling_hash st2 ++ c2 else c2 ++ sibling_hash st2).
    assert (blake3 i1 = blake3 i2) as Hh.
    { unfold i1, i2. revert Heq. unfold compute_root_from_proof. simpl. fold c1 c2.
      unfold fold_step, hash_pair. by destruct (step_bit st1), (step_bit st2). }
    destruct (decide (i1 = i2)) as [He|Hne].
    2: { right. exists i1, i2. split_and!; [left|left|done|done]. }
    assert (c1 = c2) as Hc.
    { unfold i1, i2 in He.
      match goal with Hb : step_bit st1 = step_bit st2 |- _ => rewrite Hb in He end.
      destruct (step_bit st2); [by apply app_inj_1 in He as [_ ?]; [|congruence]|].
      by apply app_inj_1 in He as [? _]; [|congruence]. }
    destruct (IH steps2) as [?|(x & y & ? & ? & ? & ?)]; [by apply Forall_app|done|done|by left|].
    right. exists x, y. split_and!; [by right|by right|done|done].
Qed.

(** Leaves and branches are hashed alike, without a domain tag: in a tree
    of two or more leaves the two halves of the root are accepted as the key and
    value hash of a proof with no siblings. *)
Theorem internal_node_verifies s :
  (0 < smt_depth s)%nat → (2 ≤ size (leaves s))%nat →
  ∃ l r, verify_against (mkMerkleProof l r [] (reference_root s)) (reference_root s) = true ∧
    reference_root s = hash_pair l r.
Proof.
  intros Hd Hsz. unfold reference_root. rewrite <- length_map_to_list in Hsz.
  rewrite <- (Permutation_length (merge_sort_Permutation entry_le (map_to_list (leaves s)))) in Hsz.
  destruct (merge_sort entry_le (map_to_list (leaves s))) as [|e1 [|e2 E]]; simpl in Hsz; [lia..|].
  destruct (smt_depth s) as [|n]; [lia|]. rewrite build_root_two.
  eexists _, _. split; [|done]. unfold verify_against, compute_root_from_proof, leaf_hash, hash_pair.
  simpl. by rewrite !bool_decide_eq_true_2.
Qed.

End MerkleProperties.

(** ** Concrete trees *)

Module SampleTrees.
#[local] Existing Instance sample_host.

Definition key (a b : Z) : bytes := [a; 0; 0; 0; 0; 0; 0; 0; b] ++ replicate 23 0.
Definition val (a : Z) : bytes := replicate 31 0 ++ [a].

(** Keys [key 1 1] and [key 1 2] share their first eight bytes. *)
Definition ops1 : list SmtOp :=
  [SmtInsert (key 1 1) (val 1); SmtRoot; SmtInsert (key 1 2) (val 2);
   SmtInsert (key 7 1) (val 3); SmtProve (key 1 1)].
Definition ops2 : list SmtOp :=
  [SmtInsert (key 7 1) (val 9); SmtInsert (key 1 2) (val 2); SmtInsert (key 3 3) (val 4);
   SmtRoot; SmtInsert (key 7 1) (val 3); SmtDelete (key 3 3); SmtInsert (key 1 1) (val 1)].

Definition tree_of (n : nat) (ops : list SmtOp) : SparseMerkleTree :=
  default (with_max_depth n) (smt_run (with_max_depth n) ops).

Definition proof_of_key (s : SparseMerkleTree) (k : bytes) : MerkleProof :=
  default (mkMerkleProof [] [] [] []) (prove s k ≫= snd).

(** At the legacy depth of 64 bits a stored key that is not the smallest of
    its bucket gets a proof that does not verify, and its value does not enter
    the root: both trees below have one root and differ in the value of
    [key 1 2]. *)
Theorem legacy_bucket_not_committed :
  let s := tree_of LEGACY_MAX_DEPTH ops1 in
  let s' := tree_of LEGACY_MAX_DEPTH (ops1 ++ [SmtInsert (key 1 2) (val 5)]) in
  leaves s !! key 1 2 = Some (val 2) ∧ leaves s' !! key 1 2 = Some (val 5) ∧
  mp_key (proof_of_key s (key 1 2)) = key 1 2 ∧ verify (proof_of_key s (key 1 2)) = false ∧
  reference_root s = reference_root s'.
Proof. vm_compute. split_and!; reflexivity. Qed.

Lemma smt_root_history_independent_witness :
  reference_root (tree_of 256 ops1) = reference_root (tree_of 256 ops2) ∧
  is_Some (snd <$> smt_root (tree_of 256 ops1)).
Proof.
  split; [|vm_compute; eexists; reflexivity].
  apply (smt_root_history_independent 256 ops1 ops2 (tree_of 256 ops1) (tree_of 256 ops2));
    vm_compute; reflexivity.
Defined.

Lemma words_ok (m : gmap bytes bytes) :
  forallb (λ p, word_ok p.1) (map_to_list m) = true → ∀ k, is_Some (m !! k) → is_word k.
Proof.
  intros Hall k [v Hv]. rewrite forallb_forall in Hall. apply word_ok_spec.
  apply elem_of_map_to_list, list_elem_of_In in Hv. by apply Hall in Hv.
Qed.

Lemma prove_verifies_witness :
  verify (proof_of_key (tree_of 256 ops2) (key 1 2)) = true ∧
  ∃ s' p, prove (tree_of 256 ops2) (key 1 2) = Some (s', Some p) ∧ mp_key p = key 1 2 ∧
    mp_value_hash p = val 2 ∧ mp_root p = reference_root (tree_of 256 ops2) ∧
    verify_against p (reference_root (tree_of 256 ops2)) = true ∧
    leaves s' = leaves (tree_of 256 ops2).
Proof.
  split; [vm_compute; reflexivity|].
  apply (prove_verifies 256 ops2 (tree_of 256 ops2) (key 1 2)).
  - vm_compute; reflexivity.
  - vm_compute; reflexivity.
  - apply committed_deep; [|apply words_ok; vm_compute; reflexivity].
    apply word_ok_spec. vm_compute; reflexivity.
Defined.

Lemma deep_tree_commits_every_key_witness :
  ∃ s' p, prove (tree_of DEEP_MAX_DEPTH ops1) (key 1 2) = Some (s', Some p) ∧
    mp_value_hash p = val 2 ∧
    verify_against p (reference_root (tree_of DEEP_MAX_DEPTH ops1)) = true.
Proof.
  apply (deep_tree_commits_every_key ops1).
  - vm_compute; reflexivity.
  - apply words_ok. vm_compute; reflexivity.
  - vm_compute; reflexivity.
Defined.

Lemma proof_binding_witness :
  let p := proof_of_key (tree_of 256 ops1) (key 1 2) in
  verify p = true ∧
  (val 2 = mp_value_hash p ∨
   ∃ x y, x ∈ proof_inputs (key 1 2) (val 2) (mp_siblings p) ∧
     y ∈ proof_inputs (key 1 2) (mp_value_hash p) (mp_siblings p) ∧ x ≠ y ∧ blake3 x = blake3 y).
Proof.
  split; [vm_compute; reflexivity|].
  apply (proof_binding (key 1 2) (val 2) _ _ _ (reference_root (tree_of 256 ops1))).
  - intros x. apply length_be_bytes.
  - apply (bool_decide_unpack _). vm_compute. exact I.
  - vm_compute; reflexivity.
  - vm_compute; reflexivity.
  - vm_compute; reflexivity.
  - vm_compute; reflexivity.
Defined.

Lemma internal_node_verifies_witness :
  ∃ l r, verify_against (mkMerkleProof l r [] (reference_root (tree_of 256 ops1)))
      (reference_root (tree_of 256 ops1)) = true ∧
    reference_root (tree_of 256 ops1) = hash_pair l r.
Proof.
  apply (internal_node_verifies (tree_of 256 ops1)).
  - apply Nat.ltb_lt. vm_compute; reflexivity.
  - apply Nat.leb_le. vm_compute; reflexivity.
Defined.

End SampleTrees.
