(* ===== verification/Scheduler.v ===== *)
(** * The transaction scheduler

    Models [crates/boing-execution/src/scheduler.rs]: the greedy grouping of a
    block's transactions into batches whose declared access lists are disjoint.
    Transactions are indexes into the block, as in the code. *)

From S2P Require Import Prelude Types.

(** [txs[k].access_list.conflicts_with(&txs[j].access_list)]; the loops only use
    indexes of the block. *)
Definition conflict_at (txs : list Transaction) (k j : nat) : bool :=
  match txs !! k, txs !! j with
  | Some a, Some b => conflicts_with (tx_access_list a) (tx_access_list b)
  | _, _ => false
  end.

(** [assigned[j]]. *)
Definition is_assigned (assigned : list bool) (j : nat) : bool :=
  default false (assigned !! j).

(** The inner loop over [j], extending one batch. *)
Fixpoint fill_batch (txs : list Transaction) (js : list nat) (batch : list nat)
    (assigned : list bool) : list nat * list bool :=
  match js with
  | [] => (batch, assigned)
  | j :: rest =>
      if is_assigned assigned j then fill_batch txs rest batch assigned
      else if existsb (λ k, conflict_at txs k j) batch
      then fill_batch txs rest batch assigned
      else fill_batch txs rest (batch ++ [j]) (<[j := true]> assigned)
  end.

(** The outer loop over [i]. *)
Fixpoint schedule_from (txs : list Transaction) (idxs : list nat) (assigned : list bool)
    (batches : list (list nat)) : list (list nat) :=
  match idxs with
  | [] => batches
  | i :: rest =>
      if is_assigned assigned i then schedule_from txs rest assigned batches
      else
        let '(batch, assigned') :=
          fill_batch txs (seq (S i) (length txs - S i)) [i] (<[i := true]> assigned) in
        schedule_from txs rest assigned' (batches ++ [batch])
  end.

Definition schedule (txs : list Transaction) : list (list nat) :=
  schedule_from txs (seq 0 (length txs)) (replicate (length txs) false) [].

(** ** Lemmas *)

(** Shared accounts, as a proposition. *)
Lemma conflicts_with_spec a b :
  conflicts_with a b = true ↔ ∃ x, x ∈ al_all a ∧ x ∈ al_all b.
Proof.
  unfold conflicts_with. rewrite existsb_exists. split.
  - intros (x & Hx & Hb). bool_to_prop. exists x. split; [by apply list_elem_of_In|done].
  - intros (x & Ha & Hb). exists x. split; [by apply list_elem_of_In|]. by apply bool_decide_eq_true.
Qed.

Lemma conflict_at_sym txs k j : conflict_at txs k j = conflict_at txs j k.
Proof.
  unfold conflict_at. destruct (txs !! k) as [a|], (txs !! j) as [b|]; try done.
  apply eq_bool_prop_intro. rewrite !Is_true_true, !conflicts_with_spec. naive_solver.
Qed.

Lemma is_assigned_insert assigned j k :
  (j < length assigned)%nat →
  is_assigned (<[j := true]> assigned) k = (bool_decide (j = k) || is_assigned assigned k).
Proof.
  intros Hj. unfold is_assigned. case_bool_decide as Hjk; simpl.
  - subst. by rewrite list_lookup_insert_eq.
  - by rewrite list_lookup_insert_ne.
Qed.

(** Pairwise absence of conflicts. *)
Definition conflict_free (txs : list Transaction) (batch : list nat) : Prop :=
  ∀ k j, k ∈ batch → j ∈ batch → k ≠ j → conflict_at txs k j = false.

(** What the inner loop does to its batch. *)
Record filled (txs : list Transaction) (js batch : list nat) (assigned : list bool)
    (batch' : list nat) (assigned' : list bool) : Prop := {
  fl_ext : ∃ new, batch' = batch ++ new ∧ new `sublist_of` js ∧
    (∀ j, j ∈ new → is_assigned assigned j = false) ∧
    (∀ k, is_assigned assigned' k = (is_assigned assigned k || bool_decide (k ∈ new)));
  fl_free : conflict_free txs batch → conflict_free txs batch';
  fl_greedy : ∀ j, j ∈ js → is_assigned assigned' j = false →
    ∃ k, k ∈ batch' ∧ conflict_at txs k j = true;
  fl_len : length assigned' = length assigned;
}.

Lemma fill_batch_spec txs js batch assigned :
  NoDup js → (∀ j, j ∈ js → (j < length assigned)%nat) →
  filled txs js batch assigned (fill_batch txs js batch assigned).1
    (fill_batch txs js batch assigned).2.
Proof.
  revert batch assigned. induction js as [|j js IH]; intros batch assigned Hnd Hlt; simpl.
  { split; try done; [|by intros j ?%elem_of_nil]. exists []. rewrite app_nil_r.
    split_and!; [done|done|by intros ? ?%elem_of_nil|]. intros k. by rewrite orb_false_r. }
  apply NoDup_cons in Hnd as [Hj Hnd].
  assert (∀ j', j' ∈ js → (j' < length assigned)%nat) as Hlt' by (intros; apply Hlt; by right).
  assert (j < length assigned)%nat as Hjlt by (apply Hlt; left).
  destruct (is_assigned assigned j) eqn:Ea; [|destruct (existsb _ batch) eqn:Ec].
  - destruct (IH batch assigned Hnd Hlt') as [(new & Hb & Hsub & Hnew & Has) Hfree Hgr Hlen].
    split; [|done| |done].
    + exists new. split_and!; auto using sublist_cons.
    + intros j' [->|?]%elem_of_cons Hn; [|by auto]. rewrite Has, Ea in Hn. done.
  - destruct (IH batch assigned Hnd Hlt') as [(new & Hb & Hsub & Hnew & Has) Hfree Hgr Hlen].
    split; [|done| |done].
    + exists new. split_and!; auto using sublist_cons.
    + intros j' [->|?]%elem_of_cons Hn; [|by auto].
      apply existsb_exists in Ec as (k & Hk & Hc). exists k. split; [|done].
      rewrite Hb. apply elem_of_app. left. by apply list_elem_of_In.
  - set (a1 := <[j := true]> assigned).
    assert (∀ j', j' ∈ js → (j' < length a1)%nat) as Hlt1
      by (intros; unfold a1; rewrite length_insert; auto).
    destruct (IH (batch ++ [j]) a1 Hnd Hlt1) as [(new & Hb & Hsub & Hnew & Has) Hfree Hgr Hlen].
    assert (∀ k, is_assigned a1 k = bool_decide (j = k) || is_assigned assigned k) as Ha1
      by (intros; by apply is_assigned_insert).
    split.
    + exists (j :: new). rewrite Hb, <- app_assoc. split_and!; [done|by apply sublist_skip| |].
      * intros k [->|Hk]%elem_of_cons; [done|]. apply Hnew in Hk. rewrite Ha1 in Hk. by bool_to_prop.
      * intros k. rewrite Has, Ha1. destruct (is_assigned assigned k); simpl; [by rewrite orb_true_r|].
        rewrite orb_false_r. destruct (decide (j = k)) as [->|].
        -- rewrite (bool_decide_eq_true_2 (k = k)), (bool_decide_eq_true_2 (k ∈ k :: new)); [done|left|done].
        -- rewrite bool_decide_eq_false_2 by done. simpl. apply bool_decide_ext. set_solver.
    + intros Hf. apply Hfree. intros a b Ha Hb' Hab. rewrite elem_of_app, list_elem_of_singleton in Ha, Hb'.
      assert (∀ k, k ∈ batch → conflict_at txs k j = false) as Hn.
      { intros k Hk. destruct (conflict_at txs k j) eqn:E; [|done].
        assert (existsb (λ k, conflict_at txs k j) batch = true); [|congruence].
        apply existsb_exists. exists k. split; [by apply list_elem_of_In|done]. }
      destruct Ha as [Ha | ->], Hb' as [Hb' | ->]; [by apply Hf|by apply Hn| |done].
      rewrite conflict_at_sym. by apply Hn.
    + intros j' [->|?]%elem_of_cons Hn; [|by auto].
      rewrite Has, Ha1, bool_decide_eq_true_2 in Hn by done. done.
    + unfold a1 in Hlen. by rewrite length_insert in Hlen.
Qed.

(** The invariant of the outer loop: the indexes up to [i] are assigned. *)
Record sched_inv (txs : list Transaction) (i : nat) (assigned : list bool)
    (batches : list (list nat)) : Prop := {
  si_len : length assigned = length txs;
  si_prefix : ∀ k, (k < i)%nat → (k < length txs)%nat → is_assigned assigned k = true;
  si_mem : ∀ k, is_assigned assigned k = true ↔ k ∈ concat batches;
  si_nodup : NoDup (concat batches);
  si_range : ∀ k, k ∈ concat batches → (k < length txs)%nat;
  si_batch : Forall (λ b, b ≠ [] ∧ StronglySorted lt b ∧ conflict_free txs b) batches;
  si_open : ∀ b j, b ∈ batches → (j < length txs)%nat → is_assigned assigned j = false →
    ∃ k, k ∈ b ∧ conflict_at txs k j = true;
  si_layers : ∀ p q bp bq j, (p < q)%nat → batches !! p = Some bp → batches !! q = Some bq →
    j ∈ bq → ∃ k, k ∈ bp ∧ conflict_at txs k j = true;
}.

Lemma sublist_sorted (l k : list nat) : l `sublist_of` k → StronglySorted lt k → StronglySorted lt l.
Proof.
  induction 1 as [|x l k Hs IH|x l k Hs IH]; intros Hk; [constructor| |].
  - apply StronglySorted_inv in Hk as [Hk Hall]. constructor; [by apply IH|].
    rewrite Forall_forall in *. intros y Hy. apply Hall. by eapply sublist_subseteq.
  - apply StronglySorted_inv in Hk as [Hk _]. by apply IH.
Qed.

Lemma seq_sorted a n : StronglySorted lt (seq a n).
Proof.
  revert a. induction n as [|n IH]; intros a; simpl; [constructor|]. constructor; [apply IH|].
  apply Forall_forall. intros y Hy%elem_of_seq. lia.
Qed.

(** A new batch started at the unassigned index [i]. *)
Lemma sched_inv_step txs i assigned batches :
  sched_inv txs i assigned batches → (i < length txs)%nat → is_assigned assigned i = false →
  let r := fill_batch txs (seq (S i) (length txs - S i)) [i] (<[i := true]> assigned) in
  sched_inv txs (S i) r.2 (batches ++ [r.1]).
Proof.
  intros [Hlen Hpre Hmem Hnd Hran Hbat Hopen Hlay] Hi Hia r.
  set (a1 := <[i := true]> assigned). set (js := seq (S i) (length txs - S i)).
  assert (∀ k, is_assigned a1 k = bool_decide (i = k) || is_assigned assigned k) as Ha1
    by (intros; apply is_assigned_insert; lia).
  destruct (fill_batch_spec txs js [i] a1) as [(new & Hb & Hsub & Hnew & Has) Hfree Hgr Hl1].
  { apply NoDup_seq. } { intros j Hj%elem_of_seq. unfold a1. rewrite length_insert. lia. }
  change (fill_batch txs js [i] a1) with r in Hb, Has, Hfree, Hgr, Hl1.
  assert (∀ k, k ∈ r.1 → is_assigned assigned k = false ∧ (i ≤ k < length txs)%nat) as Hrk.
  { intros k. rewrite Hb. intros [->|Hk]%elem_of_cons; [split; [done|lia]|].
    apply Hnew in Hk as Hu. rewrite Ha1 in Hu. bool_to_prop. split; [done|].
    eapply sublist_subseteq, elem_of_seq in Hk; [|done]. lia. }
  assert (∀ k, is_assigned r.2 k = is_assigned assigned k || bool_decide (k ∈ r.1)) as Hr2.
  { intros k. rewrite Has, Ha1, Hb. simpl. destruct (is_assigned assigned k);
      [by rewrite orb_true_r|]. rewrite orb_false_r. simpl.
    destruct (decide (i = k)) as [->|].
    - rewrite (bool_decide_eq_true_2 (k = k)), (bool_decide_eq_true_2 (k ∈ k :: new)); [done|left|done].
    - rewrite (bool_decide_eq_false_2 (i = k)) by done. apply bool_decide_ext. set_solver. }
  split; rewrite ?concat_app; simpl; rewrite ?app_nil_r.
  - rewrite Hl1. unfold a1. by rewrite length_insert.
  - intros k Hk Hk'. rewrite Hr2. destruct (decide (k = i)) as [->|].
    + rewrite (bool_decide_eq_true_2 (i ∈ r.1)); [by rewrite orb_true_r|]. rewrite Hb. left.
    + rewrite Hpre by lia. done.
  - intros k. rewrite Hr2, orb_true_iff, Hmem, bool_decide_eq_true, elem_of_app. done.
  - apply NoDup_app. split_and!; [done| |].
    + intros k Hk%Hmem Hk'. apply Hrk in Hk' as [? _]. congruence.
    + rewrite Hb. simpl. constructor.
      * intros Hin. eapply sublist_subseteq, elem_of_seq in Hin; [|done]. lia.
      * eapply sublist_NoDup; [|exact Hsub]. apply NoDup_seq.
  - intros k [?|?]%elem_of_app; [by auto|]. by apply Hrk.
  - apply Forall_app. split; [done|]. apply Forall_singleton. split_and!.
    + by rewrite Hb.
    + rewrite Hb. simpl. apply sublist_sorted with (i :: js).
      * by apply sublist_skip.
      * apply (seq_sorted i (S (length txs - S i))).
    + apply Hfree. intros a b ->%list_elem_of_singleton ->%list_elem_of_singleton. done.
  - intros b j [?|Hbj%list_elem_of_singleton]%elem_of_app Hj Hu; [|subst b];
      rewrite Hr2 in Hu; bool_to_prop; [by eauto|].
    apply Hgr; [|rewrite Hr2; apply orb_false_iff; split; [done|by apply bool_decide_eq_false]].
    apply elem_of_seq. destruct (decide (j < i)%nat); [rewrite Hpre in * by lia; done|].
    assert (j ≠ i); [|lia]. intros ->. rewrite Hb in *. set_solver.
  - intros p q bp bq j Hpq Hp Hq Hj.
    assert (p < length batches)%nat as Hpl.
    { apply lookup_lt_Some in Hq. rewrite length_app in Hq. simpl in Hq. lia. }
    rewrite lookup_app_l in Hp by done. destruct (decide (q < length batches)%nat).
    + rewrite lookup_app_l in Hq by done. exact (Hlay p q bp bq j Hpq Hp Hq Hj).
    + assert (q = length batches) as ->.
      { apply lookup_lt_Some in Hq. rewrite length_app in Hq. simpl in Hq. lia. }
      rewrite lookup_app_r, Nat.sub_diag in Hq by done. simplify_eq/=.
      apply Hrk in Hj as [? ?]. apply (Hopen bp j); [by eapply list_elem_of_lookup_2|lia|done].
Qed.

Lemma schedule_from_inv txs i m assigned batches :
  sched_inv txs i assigned batches → (i + m = length txs)%nat →
  ∃ assigned', sched_inv txs (length txs) assigned'
    (schedule_from txs (seq i m) assigned batches).
Proof.
  revert i assigned batches. induction m as [|m IH]; intros i assigned batches Hinv Hm; simpl.
  { exists assigned. by replace (length txs) with i by lia. }
  destruct (is_assigned assigned i) eqn:E.
  - apply IH; [|lia]. destruct Hinv. split; try done.
    intros k Hk Hk'. destruct (decide (k = i)) as [->|]; [done|]. apply si_prefix0; lia.
  - pose proof (sched_inv_step txs i assigned batches Hinv ltac:(lia) E) as Hs.
    destruct (fill_batch _ _ _ _) as [b a']. apply IH; [done|lia].
Qed.

Lemma schedule_inv txs : ∃ assigned, sched_inv txs (length txs) assigned (schedule txs).
Proof.
  apply schedule_from_inv; [|done]. split; simpl; try done.
  - by rewrite length_replicate.
  - lia.
  - intros k. rewrite elem_of_nil. unfold is_assigned.
    destruct (replicate _ _ !! k) as [b|] eqn:E; [|done].
    apply lookup_replicate in E as [-> _]. done.
  - constructor.
  - by intros k ?%elem_of_nil.
  - by intros b j ?%elem_of_nil.
Qed.

Lemma schedule_perm txs : concat (schedule txs) ≡ₚ seq 0 (length txs).
Proof.
  destruct (schedule_inv txs) as [assigned [_ Hpre Hmem Hnd Hran _ _ _]].
  apply NoDup_Permutation; [done|apply NoDup_seq|]. intros k. rewrite elem_of_seq. split.
  - intros Hk%Hran. lia.
  - intros Hk. apply Hmem, Hpre; lia.
Qed.

(** ** Properties *)

(** The batches of a block partition its transactions: every index occurs
    exactly once, batches are non-empty and in block order, two transactions of
    one batch declare no common account, and a transaction that was put in a
    later batch shares an account with a member of every earlier one. *)
Theorem schedule_partitions txs :
  concat (schedule txs) ≡ₚ seq 0 (length txs) ∧
  (∀ b, b ∈ schedule txs → b ≠ [] ∧ StronglySorted lt b ∧
    ∀ k j tk tj x, k ∈ b → j ∈ b → k ≠ j → txs !! k = Some tk → txs !! j = Some tj →
      x ∈ al_all (tx_access_list tk) → x ∉ al_all (tx_access_list tj)) ∧
  (∀ p q bp bq j, (p < q)%nat → schedule txs !! p = Some bp → schedule txs !! q = Some bq →
    j ∈ bq → ∃ k tk tj x, k ∈ bp ∧ txs !! k = Some tk ∧ txs !! j = Some tj ∧
      x ∈ al_all (tx_access_list tk) ∧ x ∈ al_all (tx_access_list tj)).
Proof.
  destruct (schedule_inv txs) as [assigned [_ Hpre Hmem Hnd Hran Hbat _ Hlay]].
  split_and!; [apply schedule_perm|..].
  - intros b Hb. rewrite Forall_forall in Hbat. destruct (Hbat b Hb) as (? & ? & Hfree).
    split_and!; [done..|]. intros k j tk tj x Hk Hj Hne Htk Htj Hx Hx'.
    specialize (Hfree k j Hk Hj Hne). unfold conflict_at in Hfree. rewrite Htk, Htj in Hfree.
    apply not_true_iff_false in Hfree. apply Hfree, conflicts_with_spec. eauto.
  - intros p q bp bq j Hpq Hp Hq Hj. destruct (Hlay p q bp bq j Hpq Hp Hq Hj) as (k & Hk & Hc).
    unfold conflict_at in Hc. destruct (txs !! k) as [tk|] eqn:Etk; [|done].
    destruct (txs !! j) as [tj|]; [|done]. apply conflicts_with_spec in Hc as (x & ? & ?).
    exists k, tk, tj, x. done.
Qed.

(** A block of three transactions: the second conflicts with the first on
    account [a], the third with the second on account [b], its sender. *)
Definition acct (x : Z) : AccountId := replicate 31 0 ++ [x].

Definition transfer_tx (sender to : Z) (n : Z) (accts : list Z) : Transaction :=
  mkTransaction n (acct sender) (Transfer (acct to) 1)
    (mkAccessList (acct <$> accts) (acct <$> accts)).

Definition reordered_block : list Transaction :=
  [transfer_tx 1 1 0 [1]; transfer_tx 2 1 0 [2; 1]; transfer_tx 2 2 1 [2]].

(** The greedy grouping does not keep the order of conflicting
    transactions: the third transaction of the block below, the second one of
    its sender, runs in the first batch, before the sender's first one, although
    the two conflict. *)
Theorem schedule_reorders_conflicts :
  schedule reordered_block = [[0; 2]; [1]]%nat ∧
  conflict_at reordered_block 1 2 = true ∧
  (tx_sender <$> reordered_block !! 1%nat) = (tx_sender <$> reordered_block !! 2%nat) ∧
  (tx_nonce <$> reordered_block !! 1%nat) = Some 0 ∧
  (tx_nonce <$> reordered_block !! 2%nat) = Some 1.
Proof. vm_compute. done. Qed.
