(* ===== verification/Words.v ===== *)
(** * 256-bit words of the virtual machine

    Models the word helpers of [crates/boing-execution/src/interpreter.rs]: a
    word is its 32 big-endian bytes, and the schoolbook loops of [add_u256],
    [sub_u256] and [div_mod_u256_be] are the recursions below. The products,
    remainders and shifts the code computes with [num_bigint] are integers;
    [to_bytes_be] and [to_signed_bytes_be] are that crate's minimal encodings. *)

From S2P Require Import Prelude Types.

Definition WORD : Z := 2 ^ 256.

(** ** Encodings *)

Definition word_u64_env (n : Z) : bytes := replicate 24 0 ++ be_bytes 8 n.
Definition word_u128 (n : Z) : bytes := replicate 16 0 ++ be_bytes 16 n.
Definition word_one : bytes := replicate 31 0 ++ [1].

(** The number of bytes of the minimal encoding of a non-negative integer (one
    for zero) and of a signed one. *)
Definition byte_len (z : Z) : nat := if z =? 0 then 1 else Z.to_nat (Z.log2 z / 8 + 1).
Definition signed_byte_len (z : Z) : nat :=
  Z.to_nat (Z.log2_up (Z.max (z + 1) (- z)) / 8 + 1).

Definition to_bytes_be (z : Z) : bytes := be_bytes (byte_len z) z.
Definition to_signed_bytes_be (z : Z) : bytes := be_bytes (signed_byte_len z) z.

Definition from_signed_bytes_be (w : bytes) : Z :=
  let v := be_val w in
  let m := 256 ^ Z.of_nat (length w) in
  if v <? m / 2 then v else v - m.

(** [biguint_low_u256_be]; [biguint_rem_to_u256_be] computes the same bytes. *)
Definition biguint_low_u256_be (v : Z) : bytes :=
  let b := to_bytes_be v in
  if (length b <=? 32)%nat then replicate (32 - length b) 0 ++ b
  else drop (length b - 32) b.

Definition biguint_rem_to_u256_be (rem : Z) : bytes :=
  let b := to_bytes_be rem in
  let len := Nat.min (length b) 32 in
  replicate (32 - len) 0 ++ drop (length b - len) b.

Definition signed_bigint_to_i256_word (i : Z) : bytes :=
  let b := to_signed_bytes_be i in
  let fill := if i <? 0 then 255 else 0 in
  let b := if (32 <? length b)%nat then drop (length b - 32) b else b in
  replicate (32 - length b) fill ++ b.

(** [u256_to_usize]: the last eight bytes. *)
Definition u256_to_usize (v : bytes) : Z := le_val (take 8 (rev v)).

Definition effective_shift_count (w : bytes) : Z := default 0 (w !! 31%nat).

(** ** Arithmetic *)

(** [add_u256] from the least significant byte, with the outgoing carry. *)
Fixpoint add_carry (a b : bytes) : Z * bytes :=
  match a, b with
  | x :: a', y :: b' =>
      let '(carry, out) := add_carry a' b' in
      let s := x + y + carry in
      (Z.shiftr s 8, s `mod` 256 :: out)
  | _, _ => (0, [])
  end.

Definition add_u256 (a b : bytes) : bytes := (add_carry a b).2.

(** [sub_u256], with the outgoing borrow; the byte is
    [diff.wrapping_rem(256) as u8]. *)
Fixpoint sub_borrow (a b : bytes) : Z * bytes :=
  match a, b with
  | x :: a', y :: b' =>
      let '(borrow, out) := sub_borrow a' b' in
      let diff := x - y - borrow in
      (if diff <? 0 then 1 else 0, (Z.rem diff 256) `mod` 256 :: out)
  | _, _ => (0, [])
  end.

Definition sub_u256 (a b : bytes) : bytes := (sub_borrow a b).2.

Definition mul_u256 (a b : bytes) : bytes := biguint_low_u256_be (be_val a * be_val b).

(** [u256_shl1_be], with the carry it drops at the end. *)
Fixpoint shl1_carry (r : bytes) : Z * bytes :=
  match r with
  | x :: r' =>
      let '(carry, out) := shl1_carry r' in
      (Z.shiftr x 7, Z.lor (Z.shiftl x 1 `mod` 256) carry :: out)
  | [] => (0, [])
  end.

Definition u256_shl1_be (r : bytes) : bytes := (shl1_carry r).2.

Definition get_bit_msb_first (a : bytes) (i : nat) : bool :=
  match a !! (i / 8)%nat with
  | Some b => Z.testbit b (7 - Z.of_nat (i mod 8))
  | None => false
  end.

Definition set_bit_msb_first (q : bytes) (i : nat) : bytes :=
  alter (λ b, Z.lor b (Z.shiftl 1 (7 - Z.of_nat (i mod 8)))) (i / 8)%nat q.

(** [r[31] |= 1]. *)
Definition set_low_bit (r : bytes) : bytes := alter (λ b, Z.lor b 1) 31%nat r.

(** One iteration of the division loop on [(q, r)]. *)
Definition div_step (a b : bytes) (qr : bytes * bytes) (i : nat) : bytes * bytes :=
  let '(q, r) := qr in
  let r := u256_shl1_be r in
  let r := if get_bit_msb_first a i then set_low_bit r else r in
  if bytes_ltb r b then (q, r) else (set_bit_msb_first q i, sub_u256 r b).

(** [div_mod_u256_be]; [None] is [DivisionByZero]. *)
Definition div_mod_u256_be (a b : bytes) : option (bytes * bytes) :=
  if bool_decide (b = ZERO) then None
  else Some (foldl (div_step a b) (ZERO, ZERO) (seq 0 256)).

(** The bodies of the word instructions after their operands are popped. *)
Definition addmod_u256 (a b n : bytes) : bytes :=
  if bool_decide (n = ZERO) then ZERO
  else biguint_rem_to_u256_be ((be_val a + be_val b) `mod` be_val n).

Definition mulmod_u256 (a b n : bytes) : bytes :=
  if bool_decide (n = ZERO) then ZERO
  else biguint_rem_to_u256_be ((be_val a * be_val b) `mod` be_val n).

Definition and_u256 : bytes → bytes → bytes := zip_with Z.land.
Definition or_u256 : bytes → bytes → bytes := zip_with Z.lor.
Definition xor_u256 : bytes → bytes → bytes := zip_with Z.lxor.
Definition not_u256 (a : bytes) : bytes := (λ b, 255 - b) <$> a.

Definition shl_u256 (shift value : bytes) : bytes :=
  biguint_rem_to_u256_be (Z.shiftl (be_val value) (effective_shift_count shift) `mod` WORD).

Definition shr_u256 (shift value : bytes) : bytes :=
  biguint_rem_to_u256_be (Z.shiftr (be_val value) (effective_shift_count shift)).

Definition sar_u256 (shift value : bytes) : bytes :=
  signed_bigint_to_i256_word
    (Z.shiftr (from_signed_bytes_be value) (effective_shift_count shift)).

Definition bool_word (b : bool) : bytes := if b then word_one else ZERO.

(** The value of a word as a two's-complement integer. *)
Definition signed_val (w : bytes) : Z :=
  if be_val w <? WORD / 2 then be_val w else be_val w - WORD.

(** ** Bits of a byte string *)

Lemma testbit_high_low b v m n :
  0 ≤ m → 0 ≤ n → 0 ≤ v < 2 ^ m →
  Z.testbit (b * 2 ^ m + v) n = if n <? m then Z.testbit v n else Z.testbit b (n - m).
Proof.
  intros Hm Hn Hv. assert (0 < 2 ^ m) by (apply Z.pow_pos_nonneg; lia).
  destruct (Z.ltb_spec n m).
  - rewrite <- (Z.mod_pow2_bits_low _ m) by lia.
    rewrite Z.add_comm, Z_mod_plus_full, Z.mod_small by lia. done.
  - replace n with ((n - m) + m) at 1 by lia. rewrite <- Z.div_pow2_bits by lia.
    rewrite Z.add_comm, Z_div_plus_full by lia. rewrite Z.div_small by lia. done.
Qed.

Lemma pow256_pow2 n : 256 ^ Z.of_nat n = 2 ^ (8 * Z.of_nat n).
Proof. change 256 with (2 ^ 8). rewrite <- Z.pow_mul_r by lia. done. Qed.

(** The bit of weight [8 * (length w - 1 - j) + k] is bit [k] of byte [j]. *)
Lemma be_val_testbit w j k b :
  is_bytes w → w !! j = Some b → 0 ≤ k < 8 →
  Z.testbit (be_val w) (8 * Z.of_nat (length w - 1 - j) + k) = Z.testbit b k.
Proof.
  intros Hw. revert j. induction Hw as [|x w Hx Hw IH]; intros j Hj Hk; [done|].
  pose proof (be_val_bound w Hw) as Hb. simpl be_val. rewrite pow256_pow2 in *.
  rewrite testbit_high_low by lia.
  destruct j as [|j]; simpl in Hj; simplify_eq/=.
  - destruct (Z.ltb_spec (8 * Z.of_nat (length w - 0 - 0) + k) (8 * Z.of_nat (length w))); [lia|].
    f_equal. lia.
  - pose proof (lookup_lt_Some _ _ _ Hj).
    destruct (Z.ltb_spec (8 * Z.of_nat (length w - 0 - S j) + k) (8 * Z.of_nat (length w))); [|lia].
    replace (length w - 0 - S j)%nat with (length w - 1 - j)%nat by lia. by apply IH.
Qed.

Lemma be_val_testbit_high w n :
  is_bytes w → 8 * Z.of_nat (length w) ≤ n → Z.testbit (be_val w) n = false.
Proof.
  intros Hw Hn. pose proof (be_val_bound w Hw) as Hb. rewrite pow256_pow2 in Hb.
  rewrite Z.testbit_eqb by lia. rewrite Z.div_small; [done|].
  split; [lia|]. eapply Z.lt_le_trans; [apply Hb|]. apply Z.pow_le_mono_r; lia.
Qed.

(** Every bit position below the width is a bit of some byte. *)
Lemma bit_position (w : bytes) n :
  0 ≤ n < 8 * Z.of_nat (length w) →
  ∃ j k b, w !! j = Some b ∧ 0 ≤ k < 8 ∧ n = 8 * Z.of_nat (length w - 1 - j) + k.
Proof.
  intros Hn. set (j := (length w - 1 - Z.to_nat (n / 8))%nat).
  assert (0 ≤ n / 8 < Z.of_nat (length w)) by (Z.to_euclidean_division_equations; lia).
  destruct (lookup_lt_is_Some_2 w j) as [b Hb]; [lia|].
  exists j, (n mod 8), b. split_and!; [done|Z.to_euclidean_division_equations; lia..|].
  unfold j. Z.to_euclidean_division_equations. lia.
Qed.

(** Bitwise operations on bytes are those on the values. *)
Lemma be_val_zip_with (f : Z → Z → Z) (g : bool → bool → bool) a b :
  (∀ x y n, Z.testbit (f x y) n = g (Z.testbit x n) (Z.testbit y n)) → g false false = false →
  (∀ x y, is_byte x → is_byte y → is_byte (f x y)) →
  is_bytes a → is_bytes b → length a = length b →
  is_bytes (zip_with f a b) ∧ be_val (zip_with f a b) = f (be_val a) (be_val b).
Proof.
  intros Hbits Hg Hf Ha Hb Hlen.
  assert (is_bytes (zip_with f a b)) as Hz.
  { unfold is_bytes in *. rewrite Forall_forall in *. intros z Hz.
    apply elem_of_lookup_zip_with in Hz as (i & x & y & -> & Hx & Hy).
    apply Hf; [by eapply Ha, list_elem_of_lookup_2|by eapply Hb, list_elem_of_lookup_2]. }
  split; [done|]. apply Z.bits_inj'. intros n Hn.
  assert (length (zip_with f a b) = length a) as Hl by (rewrite length_zip_with; lia).
  rewrite Hbits. destruct (decide (n < 8 * Z.of_nat (length a))) as [Hlt|Hge].
  - destruct (bit_position a n) as (j & k & x & Hx & Hk & ->); [lia|].
    destruct (lookup_lt_is_Some_2 b j) as [y Hy]; [apply lookup_lt_Some in Hx; lia|].
    rewrite (be_val_testbit a j k x), <- Hl by done.
    rewrite (be_val_testbit _ j k (f x y)); [|done| |done].
    + rewrite Hl, Hlen, (be_val_testbit b j k y) by done. apply Hbits.
    + rewrite lookup_zip_with, Hx. simpl. by rewrite Hy.
  - rewrite !be_val_testbit_high; [done|done|lia|done|lia|done|lia].
Qed.

Lemma is_byte_bits (x : Z) : is_byte x ↔ 0 ≤ x ∧ ∀ n, 8 ≤ n → Z.testbit x n = false.
Proof.
  unfold is_byte. split.
  - intros Hx. split; [lia|]. intros n Hn. rewrite Z.testbit_eqb by lia.
    rewrite Z.div_small; [done|]. split; [lia|].
    eapply Z.lt_le_trans; [apply Hx|]. change 256 with (2 ^ 8). apply Z.pow_le_mono_r; lia.
  - intros [H0 Hb]. split; [done|]. destruct (Z.lt_ge_cases x 256) as [?|Hge]; [done|].
    assert (8 ≤ Z.log2 x) by (change 8 with (Z.log2 256); by apply Z.log2_le_mono).
    pose proof (Z.bit_log2 x ltac:(lia)) as Ht. by rewrite Hb in Ht.
Qed.

Lemma is_byte_bitop (f : Z → Z → Z) (g : bool → bool → bool) x y :
  (∀ x y n, Z.testbit (f x y) n = g (Z.testbit x n) (Z.testbit y n)) → g false false = false →
  (0 ≤ x → 0 ≤ y → 0 ≤ f x y) → is_byte x → is_byte y → is_byte (f x y).
Proof.
  intros Hf Hg Hp [Hx Hbx]%is_byte_bits [Hy Hby]%is_byte_bits. apply is_byte_bits.
  split; [by auto|]. intros n Hn. by rewrite Hf, Hbx, Hby.
Qed.

(** ** Addition and subtraction *)

Lemma add_carry_spec a b :
  is_bytes a → is_bytes b → length a = length b →
  let '(c, out) := add_carry a b in
  is_bytes out ∧ length out = length a ∧ 0 ≤ c ≤ 1 ∧
  be_val out + c * 256 ^ Z.of_nat (length a) = be_val a + be_val b.
Proof.
  intros Ha. revert b. induction Ha as [|x a Hx Ha IH]; intros [|y b] Hb Hlen; try done.
  apply Forall_cons in Hb as [Hy Hb]. injection Hlen as Hlen. specialize (IH b Hb Hlen).
  simpl. destruct (add_carry a b) as [c out]. destruct IH as (Ho & Hl & Hc & Hv).
  unfold is_byte in *. rewrite Z.shiftr_div_pow2 by lia. change (2 ^ 8) with 256.
  pose proof (Z.mod_pos_bound (x + y + c) 256 ltac:(lia)).
  split_and!.
  - constructor; [done|done].
  - simpl. by rewrite Hl.
  - apply Z.div_pos; lia.
  - Z.to_euclidean_division_equations. lia.
  - cbn [be_val length]. rewrite Hl, pow256_S, <- Hlen.
    pose proof (Z.div_mod (x + y + c) 256 ltac:(lia)). nia.
Qed.

Lemma rem_mod_256 d : (Z.rem d 256) `mod` 256 = d `mod` 256.
Proof.
  rewrite Z.rem_eq by lia. replace (d - 256 * (d ÷ 256)) with (d + - (d ÷ 256) * 256) by lia.
  apply Z_mod_plus_full.
Qed.

Lemma sub_borrow_spec a b :
  is_bytes a → is_bytes b → length a = length b →
  let '(c, out) := sub_borrow a b in
  is_bytes out ∧ length out = length a ∧ 0 ≤ c ≤ 1 ∧
  be_val out - c * 256 ^ Z.of_nat (length a) = be_val a - be_val b.
Proof.
  intros Ha. revert b. induction Ha as [|x a Hx Ha IH]; intros [|y b] Hb Hlen; try done.
  apply Forall_cons in Hb as [Hy Hb]. injection Hlen as Hlen. specialize (IH b Hb Hlen).
  simpl. destruct (sub_borrow a b) as [c out]. destruct IH as (Ho & Hl & Hc & Hv).
  unfold is_byte in *. set (d := x - y - c). rewrite rem_mod_256.
  assert (d `mod` 256 = d + 256 * (if d <? 0 then 1 else 0)) as Hd.
  { destruct (Z.ltb_spec d 0); Z.to_euclidean_division_equations; lia. }
  pose proof (Z.mod_pos_bound d 256 ltac:(lia)).
  split_and!.
  - constructor; [done|done].
  - simpl. by rewrite Hl.
  - by destruct (d <? 0).
  - by destruct (d <? 0).
  - cbn [be_val length]. rewrite Hd, Hl, pow256_S, <- Hlen. unfold d. destruct (_ <? _); nia.
Qed.

Lemma WORD_pow : 256 ^ Z.of_nat 32 = WORD.
Proof. done. Qed.

Lemma word_bound w : is_word w → 0 ≤ be_val w < WORD.
Proof. intros [Hl Hb]. rewrite <- WORD_pow, <- Hl. by apply be_val_bound. Qed.

(** A word is determined by its value. *)
Lemma word_eq w z : is_word w → be_val w = z → w = be_bytes 32 z.
Proof. intros [Hl Hb] <-. rewrite <- Hl. symmetry. by apply be_bytes_be_val. Qed.

Lemma word_zero w : is_word w → (w = ZERO ↔ be_val w = 0).
Proof.
  intros Hw. split; [intros ->; done|]. intros Hv. rewrite (word_eq w 0 Hw Hv). done.
Qed.

Lemma add_u256_spec a b :
  is_word a → is_word b →
  is_word (add_u256 a b) ∧ be_val (add_u256 a b) = (be_val a + be_val b) `mod` WORD.
Proof.
  intros [La Ba] [Lb Bb]. pose proof (add_carry_spec a b Ba Bb ltac:(lia)) as Hs.
  unfold add_u256. destruct (add_carry a b) as [c out]. destruct Hs as (Ho & Hl & Hc & Hv).
  simpl. rewrite La, WORD_pow in Hv. split; [split; [lia|done]|].
  rewrite <- Hv, Z_mod_plus_full, Z.mod_small; [done|]. apply word_bound. split; [lia|done].
Qed.

Lemma sub_u256_spec a b :
  is_word a → is_word b →
  is_word (sub_u256 a b) ∧ be_val (sub_u256 a b) = (be_val a - be_val b) `mod` WORD.
Proof.
  intros [La Ba] [Lb Bb]. pose proof (sub_borrow_spec a b Ba Bb ltac:(lia)) as Hs.
  unfold sub_u256. destruct (sub_borrow a b) as [c out]. destruct Hs as (Ho & Hl & Hc & Hv).
  simpl. rewrite La, WORD_pow in Hv. split; [split; [lia|done]|].
  replace (be_val a - be_val b) with (be_val out + (- c) * WORD) by lia.
  rewrite Z_mod_plus_full, Z.mod_small; [done|]. apply word_bound. split; [lia|done].
Qed.

(** ** Shifts by one bit and single bits *)

Lemma lor_double k c : 0 ≤ c ≤ 1 → Z.lor (2 * k) c = 2 * k + c.
Proof.
  intros Hc. assert (c = 0 ∨ c = 1) as [-> | ->] by lia; [rewrite Z.lor_0_r; lia|].
  apply Z.bits_inj'. intros n Hn. rewrite Z.lor_spec.
  destruct (Z.eq_dec n 0) as [->|].
  - rewrite Z.testbit_even_0, Z.testbit_odd_0. done.
  - replace n with (Z.succ (n - 1)) by lia.
    rewrite Z.testbit_even_succ, Z.testbit_odd_succ by lia.
    assert (Z.testbit 1 (Z.succ (n - 1)) = false) as ->
      by (rewrite <- (Z.bits_0 (n - 1)); apply (Z.testbit_odd_succ 0); lia).
    apply orb_false_r.
Qed.

Lemma shl1_carry_spec r :
  is_bytes r →
  let '(c, out) := shl1_carry r in
  is_bytes out ∧ length out = length r ∧ 0 ≤ c ≤ 1 ∧
  be_val out + c * 256 ^ Z.of_nat (length r) = 2 * be_val r.
Proof.
  induction 1 as [|x r Hx Hr IH]; simpl; [split_and!; [constructor|done|lia..]|].
  destruct (shl1_carry r) as [c out]. destruct IH as (Ho & Hl & Hc & Hv).
  unfold is_byte in *. rewrite Z.shiftr_div_pow2, Z.shiftl_mul_pow2 by lia.
  change (2 ^ 7) with 128. change (2 ^ 1) with 2.
  assert ((x * 2) `mod` 256 = 2 * (x `mod` 128)) as -> by (Z.to_euclidean_division_equations; lia).
  rewrite lor_double by done.
  pose proof (Z.div_mod x 128 ltac:(lia)). pose proof (Z.mod_pos_bound x 128 ltac:(lia)).
  split_and!.
  - constructor; [split; lia|done].
  - simpl. by rewrite Hl.
  - apply Z.div_pos; lia.
  - Z.to_euclidean_division_equations; lia.
  - cbn [be_val length]. rewrite Hl, pow256_S. nia.
Qed.

Lemma shl1_spec r :
  is_word r → 2 * be_val r < WORD →
  is_word (u256_shl1_be r) ∧ be_val (u256_shl1_be r) = 2 * be_val r.
Proof.
  intros [Hl Hb] Hlt. pose proof (shl1_carry_spec r Hb) as Hs. unfold u256_shl1_be.
  destruct (shl1_carry r) as [c out]. destruct Hs as (Ho & Hlo & Hc & Hv). simpl.
  rewrite Hl, WORD_pow in Hv. split; [split; [lia|done]|].
  pose proof (be_val_bound out Ho). unfold WORD in *. nia.
Qed.

Lemma lor_pow2_add x m :
  0 ≤ m → Z.testbit x m = false → Z.lor x (2 ^ m) = x + 2 ^ m.
Proof.
  intros Hm Hb. rewrite Z.add_nocarry_lxor.
  - symmetry. apply Z.lxor_lor. apply Z.bits_inj'. intros n Hn.
    rewrite Z.land_spec, Z.bits_0, Z.pow2_bits_eqb by done.
    destruct (Z.eqb_spec m n) as [->|]; [by rewrite Hb|apply andb_false_r].
  - apply Z.bits_inj'. intros n Hn. rewrite Z.land_spec, Z.bits_0, Z.pow2_bits_eqb by done.
    destruct (Z.eqb_spec m n) as [->|]; [by rewrite Hb|apply andb_false_r].
Qed.

(** Setting bit [k] of byte [j]. *)
Lemma be_val_set_bit w j k :
  is_bytes w → (j < length w)%nat → 0 ≤ k < 8 →
  let w' := alter (λ b, Z.lor b (2 ^ k)) j w in
  is_bytes w' ∧ be_val w' = Z.lor (be_val w) (2 ^ (8 * Z.of_nat (length w - 1 - j) + k)).
Proof.
  intros Hw Hj Hk w'. assert (length w' = length w) as Hl by apply length_alter.
  assert (is_bytes w') as Hw'.
  { unfold is_bytes in *. apply Forall_alter; [done|]. intros b Hb Hbyte.
    apply (is_byte_bitop Z.lor orb); try done; [apply Z.lor_spec|by intros; apply Z.lor_nonneg|].
    unfold is_byte. split; [apply Z.pow_nonneg; lia|].
    change 256 with (2 ^ 8). apply Z.pow_lt_mono_r; lia. }
  split; [done|]. apply Z.bits_inj'. intros n Hn. rewrite Z.lor_spec, Z.pow2_bits_eqb by lia.
  destruct (decide (n < 8 * Z.of_nat (length w))) as [Hlt|Hge].
  - destruct (bit_position w n) as (j' & k' & b & Hb & Hk' & ->); [lia|].
    pose proof (lookup_lt_Some _ _ _ Hb).
    rewrite (be_val_testbit w j' k' b) by done. rewrite <- Hl at 1.
    destruct (decide (j = j')) as [->|Hne].
    + rewrite (be_val_testbit w' j' k' (Z.lor b (2 ^ k))); [|done| |done].
      * rewrite Z.lor_spec, Z.pow2_bits_eqb by lia. f_equal. apply eq_bool_prop_intro.
        rewrite !Is_true_true, !Z.eqb_eq. lia.
      * unfold w'. rewrite list_lookup_alter_eq, Hb. done.
    + rewrite (be_val_testbit w' j' k' b); [|done| |done].
      * replace (_ =? _) with false; [by rewrite orb_false_r|]. symmetry. apply Z.eqb_neq. lia.
      * unfold w'. by rewrite list_lookup_alter_ne.
  - rewrite !be_val_testbit_high; [|done|lia|done|lia]. simpl. symmetry. apply Z.eqb_neq. lia.
Qed.

Lemma get_bit_spec a i :
  is_word a → (i < 256)%nat →
  get_bit_msb_first a i = Z.testbit (be_val a) (255 - Z.of_nat i).
Proof.
  intros [Hl Hb] Hi. unfold get_bit_msb_first.
  pose proof (Nat.div_mod i 8 ltac:(lia)). pose proof (Nat.mod_upper_bound i 8 ltac:(lia)).
  destruct (lookup_lt_is_Some_2 a (i / 8)) as [b Hbi]; [lia|]. rewrite Hbi.
  rewrite <- (be_val_testbit a (i / 8) (7 - Z.of_nat (i mod 8)) b) by (done || lia).
  f_equal. rewrite Hl. lia.
Qed.

Lemma set_bit_spec q i :
  is_word q → (i < 256)%nat → Z.testbit (be_val q) (255 - Z.of_nat i) = false →
  is_word (set_bit_msb_first q i) ∧
  be_val (set_bit_msb_first q i) = be_val q + 2 ^ (255 - Z.of_nat i).
Proof.
  intros [Hl Hb] Hi Hbit. unfold set_bit_msb_first.
  pose proof (Nat.div_mod i 8 ltac:(lia)). pose proof (Nat.mod_upper_bound i 8 ltac:(lia)).
  destruct (be_val_set_bit q (i / 8) (7 - Z.of_nat (i mod 8))) as [Hw Hv]; [done|lia|lia|].
  rewrite Z.shiftl_mul_pow2, Z.mul_1_l by lia. split; [split; [by rewrite length_alter|done]|].
  rewrite Hv, Hl.
  replace (8 * Z.of_nat (32 - 1 - i / 8) + (7 - Z.of_nat (i mod 8))) with (255 - Z.of_nat i) by lia.
  apply lor_pow2_add; [lia|done].
Qed.

Lemma set_low_bit_spec r :
  is_word r → Z.even (be_val r) = true →
  is_word (set_low_bit r) ∧ be_val (set_low_bit r) = be_val r + 1.
Proof.
  intros [Hl Hb] Hev. destruct (be_val_set_bit r 31 0) as [Hw Hv]; [done|lia|lia|].
  change (alter (λ b, Z.lor b (2 ^ 0)) 31%nat r) with (set_low_bit r) in Hw, Hv.
  split; [split; [unfold set_low_bit; by rewrite length_alter|done]|].
  rewrite Hv, Hl. change (8 * Z.of_nat (32 - 1 - 31) + 0) with 0.
  rewrite lor_pow2_add; [done|lia|]. rewrite Z.bit0_odd, <- Z.negb_even, Hev. done.
Qed.

(** ** Division *)

(** The state of the division loop before iteration [i]. *)
Definition div_inv (A B : Z) (i : nat) (qr : bytes * bytes) : Prop :=
  let X := A `div` 2 ^ (256 - Z.of_nat i) in
  is_word qr.1 ∧ is_word qr.2 ∧ be_val qr.2 = X `mod` B ∧
  be_val qr.1 = X `div` B * 2 ^ (256 - Z.of_nat i).

Lemma div_inv_step a b i qr :
  is_word a → is_word b → 0 < be_val b → (i < 256)%nat →
  div_inv (be_val a) (be_val b) i qr →
  div_inv (be_val a) (be_val b) (S i) (div_step a b qr i).
Proof.
  intros Ha Hb HB Hi. destruct qr as [q r]. intros (Hq & Hr & Hrv & Hqv). simpl in *.
  pose proof (word_bound a Ha) as HA. pose proof (word_bound b Hb) as HBW.
  set (A := be_val a) in *. set (B := be_val b) in *.
  set (X := A `div` 2 ^ (256 - Z.of_nat i)) in *.
  assert (0 < 2 ^ (255 - Z.of_nat i)) as Hp by (apply Z.pow_pos_nonneg; lia).
  assert (2 ^ (256 - Z.of_nat i) = 2 * 2 ^ (255 - Z.of_nat i)) as Hpow.
  { rewrite <- Z.pow_succ_r by lia. f_equal. lia. }
  set (bit := if get_bit_msb_first a i then 1 else 0).
  assert (A `div` 2 ^ (255 - Z.of_nat i) = 2 * X + bit) as HX'.
  { unfold X, bit. rewrite Hpow, (Z.mul_comm 2 (2 ^ _)), <- Z.div_div by lia.
    rewrite get_bit_spec by done. fold A. rewrite Z.testbit_odd, Z.shiftr_div_pow2 by lia.
    set (Y := A `div` 2 ^ (255 - Z.of_nat i)).
    pose proof (Z.div_mod Y 2 ltac:(lia)) as HY. rewrite Zmod_odd in HY.
    destruct (Z.odd Y); lia. }
  assert (0 ≤ X < 2 ^ Z.of_nat i) as HXb.
  { split; [apply Z.div_pos; lia|]. apply Z.div_lt_upper_bound; [lia|].
    rewrite <- Z.pow_add_r by lia. replace (256 - Z.of_nat i + Z.of_nat i) with 256 by lia. apply HA. }
  assert (2 ^ Z.of_nat i ≤ 2 ^ 255) by (apply Z.pow_le_mono_r; lia).
  pose proof (Z.mod_pos_bound X B HB) as Hm. pose proof (Z.mod_le X B ltac:(lia) HB).
  assert (2 * be_val r < WORD) as Hno by (unfold WORD; rewrite Hrv; change (2 ^ 256) with (2 * 2 ^ 255); lia).
  destruct (shl1_spec r Hr Hno) as [Hr1 Hr1v].
  set (r2 := if get_bit_msb_first a i then set_low_bit (u256_shl1_be r) else u256_shl1_be r).
  assert (is_word r2 ∧ be_val r2 = 2 * (X `mod` B) + bit) as [Hr2 Hr2v].
  { unfold r2, bit. rewrite <- Hrv. destruct (get_bit_msb_first a i).
    - destruct (set_low_bit_spec (u256_shl1_be r)) as [? Hv]; [done| |].
      + rewrite Hr1v. apply Z.even_mul.
      + split; [done|]. lia.
    - split; [done|]. lia. }
  pose proof (Z.div_mod X B ltac:(lia)) as HX.
  assert (0 ≤ bit ≤ 1) as Hbit by (unfold bit; destruct (get_bit_msb_first a i); lia).
  fold r2. unfold div_inv. replace (256 - Z.of_nat (S i)) with (255 - Z.of_nat i) by lia.
  rewrite HX'. unfold bytes_ltb. destruct Hr2 as [Lr2 Br2], Hb as [Lb Bb].
  rewrite bytes_cmp_be_val by (done || lia). fold B.
  destruct (Z.compare_spec (be_val r2) B) as [Heq|Hlt|Hgt]; simpl.
  2: { rewrite <- (Z.div_unique_pos (2 * X + bit) B (2 * (X `div` B)) (be_val r2)) by lia.
       rewrite <- (Z.mod_unique_pos (2 * X + bit) B (2 * (X `div` B)) (be_val r2)) by lia.
       split_and!; [done|done|done|]. rewrite Hqv, Hpow. lia. }
  all: rewrite <- (Z.div_unique_pos (2 * X + bit) B (2 * (X `div` B) + 1) (be_val r2 - B)) by lia;
    rewrite <- (Z.mod_unique_pos (2 * X + bit) B (2 * (X `div` B) + 1) (be_val r2 - B)) by lia;
    destruct (sub_u256_spec r2 b) as [Hsw Hsv]; [done|done|];
    rewrite Z.mod_small in Hsv by (fold B; pose proof (word_bound r2 (conj Lr2 Br2)); lia);
    (destruct (set_bit_spec q i) as [Hqw Hqv']; [done|done| |split_and!; [done|done|done|]]);
    [rewrite Hqv; apply Z.mul_pow2_bits_low; lia|rewrite Hqv', Hqv, Hpow; lia].
Qed.

Lemma div_mod_u256_spec a b :
  is_word a → is_word b → 0 < be_val b →
  ∃ q r, div_mod_u256_be a b = Some (q, r) ∧ is_word q ∧ is_word r ∧
    be_val q = be_val a `div` be_val b ∧ be_val r = be_val a `mod` be_val b.
Proof.
  intros Ha Hb HB. unfold div_mod_u256_be. rewrite bool_decide_eq_false_2.
  2: { intros ->. simpl in HB. lia. }
  assert (∀ n i qr, (i + n = 256)%nat → div_inv (be_val a) (be_val b) i qr →
    div_inv (be_val a) (be_val b) 256 (foldl (div_step a b) qr (seq i n))) as Hloop.
  { induction n as [|n IH]; intros i qr Hn Hi.
    - replace i with 256%nat in Hi by lia. done.
    - cbn [seq foldl]. apply IH; [lia|]. apply div_inv_step; try done. lia. }
  pose proof (word_bound a Ha) as HA.
  destruct (Hloop 256%nat 0%nat (ZERO, ZERO)) as (Hq & Hr & Hrv & Hqv); [lia| |].
  - unfold div_inv. change (256 - Z.of_nat 0) with 256.
    assert (be_val a `div` 2 ^ 256 = 0) as -> by (apply Z.div_small; apply HA).
    split_and!; try apply is_word_ZERO; done.
  - destruct (foldl _ _ _) as [q r]. cbn [fst snd] in *. exists q, r. split_and!; try done.
    + rewrite Hqv. change (256 - Z.of_nat 256) with 0. rewrite Z.div_1_r. lia.
    + rewrite Hrv. change (256 - Z.of_nat 256) with 0. by rewrite Z.div_1_r.
Qed.

(** ** Encodings of integers *)

Lemma byte_len_pos z : (1 ≤ byte_len z)%nat.
Proof.
  unfold byte_len. case_match; [lia|]. pose proof (Z.log2_nonneg z).
  assert (0 ≤ Z.log2 z / 8) by (apply Z.div_pos; lia). lia.
Qed.

Lemma byte_len_bound z : 0 ≤ z → z < 256 ^ Z.of_nat (byte_len z).
Proof.
  intros Hz. unfold byte_len. case_match; bool_to_prop; [subst; done|].
  pose proof (Z.log2_spec z ltac:(lia)) as [_ Hlt]. pose proof (Z.log2_nonneg z).
  assert (0 ≤ Z.log2 z / 8) by (apply Z.div_pos; lia).
  rewrite pow256_pow2. eapply Z.lt_le_trans; [apply Hlt|]. apply Z.pow_le_mono_r; [lia|].
  rewrite Z2Nat.id by lia. Z.to_euclidean_division_equations. lia.
Qed.

Lemma be_val_to_bytes_be z : 0 ≤ z → be_val (to_bytes_be z) = z.
Proof.
  intros Hz. unfold to_bytes_be. rewrite be_val_be_bytes. apply Z.mod_small.
  split; [done|by apply byte_len_bound].
Qed.

Lemma be_val_drop n l :
  is_bytes l → (n ≤ length l)%nat →
  be_val (drop n l) = be_val l `mod` 256 ^ Z.of_nat (length l - n).
Proof.
  intros Hl Hn. rewrite <- (take_drop n l) at 2. rewrite be_val_app, length_drop.
  rewrite Z.add_comm, Z_mod_plus_full, Z.mod_small; [done|].
  rewrite <- length_drop. apply be_val_bound. by apply Forall_drop.
Qed.

(** The low 256 bits of a non-negative integer. *)
Lemma biguint_low_spec v : 0 ≤ v → biguint_low_u256_be v = be_bytes 32 v.
Proof.
  intros Hv. set (b := to_bytes_be v).
  assert (is_bytes b) as Hb by apply is_bytes_be_bytes.
  assert (be_val b = v) as Hbv by (by apply be_val_to_bytes_be).
  apply be_val_inj; try apply is_bytes_be_bytes.
  - unfold biguint_low_u256_be. fold b. case_match; [|by apply Forall_drop].
    apply Forall_app. split; [apply Forall_replicate; unfold is_byte; lia|done].
  - rewrite length_be_bytes. unfold biguint_low_u256_be. fold b.
    destruct (Nat.leb_spec (length b) 32).
    + rewrite length_app, length_replicate. lia.
    + rewrite length_drop. lia.
  - rewrite be_val_be_bytes. unfold biguint_low_u256_be. fold b.
    destruct (Nat.leb_spec (length b) 32).
    + rewrite be_val_app, be_val_replicate_0, Hbv, Z.mod_small; [lia|]. rewrite <- Hbv.
      pose proof (be_val_bound b Hb). assert (256 ^ Z.of_nat (length b) ≤ 256 ^ Z.of_nat 32)
        by (apply Z.pow_le_mono_r; lia). lia.
    + rewrite be_val_drop by (done || lia). rewrite Hbv. do 2 f_equal. lia.
Qed.

Lemma biguint_rem_low v : biguint_rem_to_u256_be v = biguint_low_u256_be v.
Proof.
  unfold biguint_rem_to_u256_be, biguint_low_u256_be. set (b := to_bytes_be v).
  destruct (Nat.leb_spec (length b) 32).
  - rewrite Nat.min_l, Nat.sub_diag by lia. done.
  - rewrite Nat.min_r, Nat.sub_diag by lia. done.
Qed.

Lemma be_val_replicate_255 n : be_val (replicate n 255) = 256 ^ Z.of_nat n - 1.
Proof.
  induction n as [|n IH]; [done|]. cbn [replicate be_val]. rewrite IH, length_replicate, pow256_S. lia.
Qed.

(** The two's-complement encoding of a 256-bit signed integer. *)
Lemma signed_word_spec i :
  - 2 ^ 255 ≤ i < 2 ^ 255 → signed_bigint_to_i256_word i = be_bytes 32 i.
Proof.
  intros Hi. unfold signed_bigint_to_i256_word. set (n := signed_byte_len i).
  assert (Z.of_nat n = Z.log2_up (Z.max (i + 1) (- i)) / 8 + 1) as Hn.
  { unfold n, signed_byte_len. rewrite Z2Nat.id; [done|].
    pose proof (Z.log2_up_nonneg (Z.max (i + 1) (- i))).
    assert (0 ≤ Z.log2_up (Z.max (i + 1) (- i)) / 8) by (apply Z.div_pos; lia). lia. }
  set (L := Z.log2_up (Z.max (i + 1) (- i))) in *.
  assert (0 ≤ L ≤ 255) as HL.
  { split; [apply Z.log2_up_nonneg|]. unfold L. rewrite <- (Z.log2_up_pow2 255) by lia.
    apply Z.log2_up_le_mono. lia. }
  assert (Z.max (i + 1) (- i) ≤ 2 ^ L) as Hmax.
  { destruct (Z.le_gt_cases (Z.max (i + 1) (- i)) 1).
    - assert (0 < 2 ^ L) by (apply Z.pow_pos_nonneg; lia). lia.
    - by apply Z.log2_up_spec. }
  assert (2 ^ L ≤ 2 ^ (8 * Z.of_nat n - 1)) as HLn.
  { apply Z.pow_le_mono_r; [lia|]. rewrite Hn. Z.to_euclidean_division_equations. lia. }
  assert (1 ≤ n ≤ 32)%nat as Hn32 by (Z.to_euclidean_division_equations; lia).
  assert (256 ^ Z.of_nat n = 2 * 2 ^ (8 * Z.of_nat n - 1)) as Hp.
  { rewrite pow256_pow2, <- Z.pow_succ_r by lia. f_equal. lia. }
  assert (length (to_signed_bytes_be i) = n) as Hlen by apply length_be_bytes.
  rewrite Hlen. destruct (Nat.ltb_spec 32 n); [lia|].
  apply be_val_inj; [|apply is_bytes_be_bytes| |].
  - apply Forall_app. split; [|apply is_bytes_be_bytes].
    apply Forall_replicate. unfold is_byte. case_match; lia.
  - rewrite length_app, length_replicate, Hlen, length_be_bytes. lia.
  - rewrite be_val_app, Hlen, be_val_be_bytes. unfold to_signed_bytes_be. fold n.
    rewrite be_val_be_bytes. set (P := 256 ^ Z.of_nat n) in *.
    assert (256 ^ Z.of_nat 32 = 256 ^ Z.of_nat (32 - n) * P) as HW.
    { unfold P. rewrite <- Z.pow_add_r by lia. f_equal. lia. }
    pose proof (pow256_pos (32 - n)). pose proof (pow256_pos n). fold P in H1.
    destruct (Z.ltb_spec i 0).
    + rewrite be_val_replicate_255, HW.
      rewrite <- (Z.mod_unique_pos i P (-1) (i + P)) by lia.
      rewrite <- (Z.mod_unique_pos i (256 ^ Z.of_nat (32 - n) * P) (-1)
        (i + 256 ^ Z.of_nat (32 - n) * P)) by nia. lia.
    + rewrite be_val_replicate_0, HW, !Z.mod_small by nia. lia.
Qed.

Lemma from_signed_spec w : is_word w → from_signed_bytes_be w = signed_val w.
Proof. intros [Hl _]. unfold from_signed_bytes_be, signed_val. by rewrite Hl. Qed.

Lemma signed_val_bound w : is_word w → - 2 ^ 255 ≤ signed_val w < 2 ^ 255.
Proof.
  intros Hw%word_bound. unfold signed_val. change (WORD / 2) with (2 ^ 255).
  unfold WORD in *. change (2 ^ 256) with (2 * 2 ^ 255) in *. destruct (Z.ltb_spec (be_val w) (2 ^ 255)); lia.
Qed.

Lemma shift_count_bound w : is_word w → 0 ≤ effective_shift_count w < 256.
Proof.
  intros [Hl Hb]. unfold effective_shift_count.
  destruct (lookup_lt_is_Some_2 w 31) as [b Hw]; [lia|]. rewrite Hw. simpl.
  unfold is_bytes in Hb. rewrite Forall_forall in Hb. by apply Hb, (list_elem_of_lookup_2 _ 31).
Qed.

(** The shift count is the shift word modulo 256. *)
Lemma shift_count_spec w : is_word w → effective_shift_count w = be_val w `mod` 256.
Proof.
  intros Hw. pose proof (shift_count_bound w Hw) as Hs. destruct Hw as [Hl Hb].
  unfold effective_shift_count in *. destruct (w !! 31%nat) as [b|] eqn:E;
    [|apply lookup_ge_None in E; lia]. simpl in *.
  assert (w = take 31 w ++ [b]) as ->.
  { rewrite <- (take_drop 31 w) at 1. f_equal. rewrite (drop_S w b 31) by done.
    rewrite drop_ge by lia. done. }
  rewrite be_val_app. simpl length. rewrite Z.add_comm. change (256 ^ Z.of_nat 1) with 256.
  rewrite Z_mod_plus_full. simpl. rewrite Z.mul_1_r, Z.add_0_r, Z.mod_small; lia.
Qed.

Lemma shiftr_bound z s m : 0 ≤ s → - m ≤ z < m → - m ≤ Z.shiftr z s < m.
Proof.
  intros Hs Hz. rewrite Z.shiftr_div_pow2 by done.
  assert (1 ≤ 2 ^ s) by (pose proof (Z.pow_pos_nonneg 2 s); lia).
  split; [apply Z.div_le_lower_bound; nia|apply Z.div_lt_upper_bound; nia].
Qed.

Lemma be_val_not a : is_bytes a → is_bytes (not_u256 a) ∧
  be_val (not_u256 a) = 256 ^ Z.of_nat (length a) - 1 - be_val a.
Proof.
  induction 1 as [|x a Hx Ha [IHb IHv]]; [split; [constructor|done]|].
  unfold not_u256 in *. unfold is_byte in *. split.
  - simpl. constructor; [unfold is_byte; lia|done].
  - cbn [fmap list_fmap be_val length]. rewrite IHv, length_fmap, pow256_S. lia.
Qed.

Lemma word_of_value w z : w = be_bytes 32 z → is_word w ∧ be_val w = z `mod` WORD.
Proof. intros ->. split; [apply is_word_be_bytes|]. by rewrite be_val_be_bytes. Qed.

(** ** Properties *)

(** [Add], [Sub] and [Mul] on 32-byte words are addition, subtraction and
    multiplication modulo [2^256]; the carry and borrow loops lose nothing else. *)
Theorem word_ring_ops a b :
  is_word a → is_word b →
  (is_word (add_u256 a b) ∧ be_val (add_u256 a b) = (be_val a + be_val b) `mod` 2 ^ 256) ∧
  (is_word (sub_u256 a b) ∧ be_val (sub_u256 a b) = (be_val a - be_val b) `mod` 2 ^ 256) ∧
  (is_word (mul_u256 a b) ∧ be_val (mul_u256 a b) = (be_val a * be_val b) `mod` 2 ^ 256).
Proof.
  intros Ha Hb. split; [by apply add_u256_spec|]. split; [by apply sub_u256_spec|].
  apply word_of_value, biguint_low_spec.
  pose proof (word_bound a Ha). pose proof (word_bound b Hb). nia.
Qed.

(** The 256-step shift-and-subtract loop of [Div] and [Mod] computes the
    exact quotient and remainder for every divisor, also one above [2^255] where
    the remainder is shifted at full width; a zero divisor is an error. [AddMod]
    and [MulMod] reduce the exact sum and product and give zero for a zero
    modulus. *)
Theorem word_division a b n :
  is_word a → is_word b → is_word n →
  (if be_val b =? 0 then div_mod_u256_be a b = None
   else ∃ q r, div_mod_u256_be a b = Some (q, r) ∧ is_word q ∧ is_word r ∧
     be_val q = be_val a `div` be_val b ∧ be_val r = be_val a `mod` be_val b) ∧
  be_val (addmod_u256 a b n) =
    (if be_val n =? 0 then 0 else (be_val a + be_val b) `mod` be_val n) ∧
  be_val (mulmod_u256 a b n) =
    (if be_val n =? 0 then 0 else (be_val a * be_val b) `mod` be_val n).
Proof.
  intros Ha Hb Hn. pose proof (word_bound a Ha). pose proof (word_bound b Hb).
  pose proof (word_bound n Hn) as Hnb. split_and!.
  - destruct (Z.eqb_spec (be_val b) 0) as [Hz|Hnz].
    + unfold div_mod_u256_be. rewrite bool_decide_eq_true_2; [done|]. by apply word_zero.
    + apply div_mod_u256_spec; try done. lia.
  - unfold addmod_u256. case_bool_decide as Hz; apply (word_zero n Hn) in Hz || rewrite (word_zero n Hn) in Hz.
    + by rewrite Hz.
    + destruct (Z.eqb_spec (be_val n) 0); [done|].
      pose proof (Z.mod_pos_bound (be_val a + be_val b) (be_val n) ltac:(lia)).
      rewrite biguint_rem_low, biguint_low_spec, be_val_be_bytes by lia.
      apply Z.mod_small. rewrite WORD_pow. lia.
  - unfold mulmod_u256. case_bool_decide as Hz; apply (word_zero n Hn) in Hz || rewrite (word_zero n Hn) in Hz.
    + by rewrite Hz.
    + destruct (Z.eqb_spec (be_val n) 0); [done|].
      pose proof (Z.mod_pos_bound (be_val a * be_val b) (be_val n) ltac:(lia)).
      rewrite biguint_rem_low, biguint_low_spec, be_val_be_bytes by lia.
      apply Z.mod_small. rewrite WORD_pow. lia.
Qed.

(** The bitwise instructions and shifts act on the 256-bit value: [And],
    [Or] and [Xor] bit by bit, [Not] as complement, [Shl] and [Shr] by the shift
    word modulo 256, and [Sar] as division with floor of the two's-complement
    value. *)
Theorem word_bit_ops a b :
  is_word a → is_word b →
  be_val (and_u256 a b) = Z.land (be_val a) (be_val b) ∧
  be_val (or_u256 a b) = Z.lor (be_val a) (be_val b) ∧
  be_val (xor_u256 a b) = Z.lxor (be_val a) (be_val b) ∧
  be_val (not_u256 a) = 2 ^ 256 - 1 - be_val a ∧
  be_val (shl_u256 a b) = (be_val b * 2 ^ (be_val a `mod` 256)) `mod` 2 ^ 256 ∧
  be_val (shr_u256 a b) = be_val b `div` 2 ^ (be_val a `mod` 256) ∧
  signed_val (sar_u256 a b) = signed_val b `div` 2 ^ (be_val a `mod` 256).
Proof.
  intros Ha Hb. pose proof (word_bound b Hb) as Hbb. pose proof (shift_count_bound a Ha) as Hs.
  pose proof (shift_count_spec a Ha) as Hsv. destruct Ha as [La Ba]. destruct Hb as [Lb Bb] eqn:Hbw.
  split_and!.
  - apply (be_val_zip_with Z.land andb); try done; [apply Z.land_spec| |lia].
    intros. apply (is_byte_bitop Z.land andb); try done; [apply Z.land_spec|].
    intros. apply Z.land_nonneg. by left.
  - apply (be_val_zip_with Z.lor orb); try done; [apply Z.lor_spec| |lia].
    intros. apply (is_byte_bitop Z.lor orb); try done; [apply Z.lor_spec|].
    intros. by apply Z.lor_nonneg.
  - apply (be_val_zip_with Z.lxor xorb); try done; [apply Z.lxor_spec| |lia].
    intros. apply (is_byte_bitop Z.lxor xorb); try done; [apply Z.lxor_spec|].
    intros. apply Z.lxor_nonneg. lia.
  - destruct (be_val_not a Ba) as [_ ->]. by rewrite La.
  - unfold shl_u256. rewrite Hsv, Z.shiftl_mul_pow2 by lia.
    pose proof (Z.mod_pos_bound (be_val b * 2 ^ (be_val a `mod` 256)) WORD ltac:(done)).
    rewrite biguint_rem_low, biguint_low_spec, be_val_be_bytes, WORD_pow by lia. by rewrite Zmod_mod.
  - unfold shr_u256. rewrite Hsv, Z.shiftr_div_pow2 by lia.
    assert (0 < 2 ^ (be_val a `mod` 256)) by (apply Z.pow_pos_nonneg; lia).
    assert (0 ≤ be_val b `div` 2 ^ (be_val a `mod` 256)) by (apply Z.div_pos; lia).
    rewrite biguint_rem_low, biguint_low_spec, be_val_be_bytes, WORD_pow by lia.
    apply Z.mod_small. split; [done|]. apply Z.div_lt_upper_bound; nia.
  - unfold sar_u256. rewrite from_signed_spec by (split; done).
    pose proof (shiftr_bound (signed_val b) (effective_shift_count a) (2 ^ 255) ltac:(lia)
      (signed_val_bound b (conj Lb Bb))) as Hr.
    rewrite signed_word_spec by done. rewrite Hsv, Z.shiftr_div_pow2 in * by lia.
    set (i := signed_val b `div` 2 ^ (be_val a `mod` 256)) in *.
    unfold signed_val. rewrite be_val_be_bytes, WORD_pow. change (WORD / 2) with (2 ^ 255).
    unfold WORD. change (2 ^ 256) with (2 * 2 ^ 255).
    destruct (Z.lt_ge_cases i 0).
    + rewrite <- (Z.mod_unique_pos i (2 * 2 ^ 255) (-1) (i + 2 * 2 ^ 255)) by lia.
      destruct (Z.ltb_spec (i + 2 * 2 ^ 255) (2 ^ 255)); lia.
    + rewrite Z.mod_small by lia. destruct (Z.ltb_spec i (2 ^ 255)); lia.
Qed.

(** Concrete words. *)
Definition w_big : bytes := replicate 32 255.
Definition w_neg : bytes := 128 :: replicate 30 0 ++ [7].
Definition w_five : bytes := replicate 31 0 ++ [5].

Lemma word_ring_ops_witness :
  be_val (add_u256 w_big w_five) = 4 ∧ be_val (sub_u256 w_five w_big) = 6 ∧
  be_val (mul_u256 w_big w_five) = 2 ^ 256 - 5.
Proof.
  destruct (word_ring_ops w_big w_five) as ([_ Ha] & _ & [_ Hm]);
    [apply word_ok_spec; vm_compute; reflexivity..|].
  destruct (word_ring_ops w_five w_big) as (_ & [_ Hs] & _);
    [apply word_ok_spec; vm_compute; reflexivity..|].
  rewrite Ha, Hs, Hm. split_and!; vm_compute; reflexivity.
Defined.

Lemma word_division_witness :
  ∃ q r, div_mod_u256_be w_big w_neg = Some (q, r) ∧ is_word q ∧ is_word r ∧
    be_val q = be_val w_big `div` be_val w_neg ∧ be_val r = be_val w_big `mod` be_val w_neg.
Proof.
  destruct (word_division w_big w_neg w_five) as (Hd & _ & _);
    [apply word_ok_spec; vm_compute; reflexivity..|]. exact Hd.
Defined.

Lemma word_bit_ops_witness :
  signed_val (sar_u256 w_five w_neg) = signed_val w_neg `div` 2 ^ 5 ∧ signed_val w_neg < 0.
Proof.
  destruct (word_bit_ops w_five w_neg) as (_ & _ & _ & _ & _ & _ & Hs);
    [apply word_ok_spec; vm_compute; reflexivity..|].
  split; [exact Hs|vm_compute; reflexivity].
Defined.
