(* ===== verification/Bytecode.v ===== *)
(** * Instruction set

    Models [crates/boing-execution/src/bytecode.rs]: the opcodes, their bytes
    ([Opcode::from_byte], [Opcode::push_size]) and the gas schedule; the memory
    gas of [interpreter.rs] and the adaptive gas of [gas.rs]. *)

From S2P Require Import Prelude Types.

Inductive Opcode :=
| Stop | Add | Sub | Mul | Div | Mod | AddMod | MulMod
| OpLt | OpGt | OpEq | IsZero | And | Or | Xor | Not
| Blake3 | Shl | Shr | Sar | Dup1 | Address | BlockHeight | Timestamp | Caller
| Log0 | Log1 | Log2 | Log3 | Log4 | MLoad | MStore | SLoad | SStore
| Push1 | Push32 | Jump | JumpI | OpReturn | Call | Create2
| Balance | CallValue | SelfBalance | NativeTransfer.

#[global] Instance Opcode_eq_dec : EqDecision Opcode.
Proof. solve_decision. Defined.

(** The discriminants of the enum. *)
Definition to_byte (o : Opcode) : Z :=
  match o with
  | Stop => 0x00 | Add => 0x01 | Sub => 0x02 | Mul => 0x03 | Div => 0x04 | Mod => 0x06
  | AddMod => 0x08 | MulMod => 0x09 | OpLt => 0x10 | OpGt => 0x11 | OpEq => 0x14
  | IsZero => 0x15 | And => 0x16 | Or => 0x17 | Xor => 0x18 | Not => 0x19
  | Blake3 => 0x20 | Shl => 0x1b | Shr => 0x1c | Sar => 0x1d | Dup1 => 0x80
  | Address => 0x30 | BlockHeight => 0x40 | Timestamp => 0x41 | Caller => 0x33
  | Log0 => 0xa0 | Log1 => 0xa1 | Log2 => 0xa2 | Log3 => 0xa3 | Log4 => 0xa4
  | MLoad => 0x51 | MStore => 0x52 | SLoad => 0x54 | SStore => 0x55
  | Push1 => 0x60 | Push32 => 0x7f | Jump => 0x56 | JumpI => 0x57 | OpReturn => 0xf3
  | Call => 0xf1 | Create2 => 0xf5 | Balance => 0x31 | CallValue => 0x34
  | SelfBalance => 0x47 | NativeTransfer => 0xf2
  end.

Definition from_byte (b : Z) : option Opcode :=
  match b with
  | 0x00 => Some Stop | 0x01 => Some Add | 0x02 => Some Sub | 0x03 => Some Mul
  | 0x04 => Some Div | 0x06 => Some Mod | 0x08 => Some AddMod | 0x09 => Some MulMod
  | 0x10 => Some OpLt | 0x11 => Some OpGt | 0x14 => Some OpEq | 0x15 => Some IsZero
  | 0x16 => Some And | 0x17 => Some Or | 0x18 => Some Xor | 0x19 => Some Not
  | 0x20 => Some Blake3 | 0x1b => Some Shl | 0x1c => Some Shr | 0x1d => Some Sar
  | 0x30 => Some Address | 0x40 => Some BlockHeight | 0x41 => Some Timestamp
  | 0x33 => Some Caller | 0x80 => Some Dup1
  | 0xa0 => Some Log0 | 0xa1 => Some Log1 | 0xa2 => Some Log2 | 0xa3 => Some Log3
  | 0xa4 => Some Log4 | 0x51 => Some MLoad | 0x52 => Some MStore | 0x54 => Some SLoad
  | 0x55 => Some SStore | 0x56 => Some Jump | 0x57 => Some JumpI
  | 0x60 => Some Push1 | 0x7f => Some Push32 | 0xf1 => Some Call | 0xf3 => Some OpReturn
  | 0xf5 => Some Create2 | 0x31 => Some Balance | 0x34 => Some CallValue
  | 0x47 => Some SelfBalance | 0xf2 => Some NativeTransfer
  | _ => None
  end.

Definition push_size (b : Z) : option Z :=
  if (0x60 <=? b) && (b <=? 0x7f) then Some (b - 0x5f) else None.

(** ** Gas *)

Module gas.
Definition STOP : Z := 0.
Definition ADD : Z := 3.
Definition SUB : Z := 3.
Definition MUL : Z := 5.
Definition DIV : Z := 5.
Definition MOD : Z := 5.
Definition ADDMOD : Z := 8.
Definition MULMOD : Z := 8.
Definition CMP : Z := 3.
Definition ISZERO : Z := 3.
Definition BITWISE : Z := 3.
Definition SHIFT : Z := 3.
Definition MLOAD : Z := 3.
Definition MSTORE : Z := 3.
Definition SLOAD : Z := 100.
Definition SSTORE : Z := 20000.
Definition PUSH : Z := 3.
Definition JUMP : Z := 8.
Definition JUMPI : Z := 10.
Definition RETURN : Z := 0.
Definition CALL : Z := 700.
Definition CREATE2 : Z := 32000.
Definition CREATE2_PER_INIT_BYTE : Z := 200.
Definition DUP1 : Z := 3.
Definition ADDRESS : Z := 2.
Definition BLOCKCTX : Z := 2.
Definition CALLER : Z := 2.
Definition LOG_BASE : Z := 100.
Definition LOG_PER_TOPIC : Z := 375.
Definition LOG_PER_DATA_BYTE : Z := 8.
Definition CALLVALUE : Z := 2.
Definition SELFBALANCE : Z := 5.
Definition BALANCE : Z := 100.
Definition NATIVE_TRANSFER : Z := 7000.
Definition BLAKE3 : Z := 30.
Definition BLAKE3_PER_WORD : Z := 6.
End gas.

Definition MEMORY_GAS_PER_WORD : Z := 3.
Definition MEMORY_GAS_QUAD_DIVISOR : Z := 512.

(** [memory_gas_cost]. *)
Definition memory_gas_cost (words : Z) : Z :=
  sat_add u64_max (sat_mul u64_max MEMORY_GAS_PER_WORD words)
    (sat_mul u64_max words words `div` MEMORY_GAS_QUAD_DIVISOR).

(** The gas base costs and the multiplier of [gas.rs]; [base * multiplier_e4]
    wraps at [u64] in a release build. *)
Definition base_TRANSFER : Z := 21000.
Definition base_CONTRACT_CALL : Z := 40000000.
Definition base_CONTRACT_DEPLOY : Z := 200000.

Definition gas_config_gas (multiplier_e4 base : Z) : Z :=
  ((base * multiplier_e4) `mod` (u64_max + 1)) `div` 10000.

Definition max_tx_gas (multiplier_e4 : Z) : Z :=
  gas_config_gas multiplier_e4
    (sat_mul u64_max (Z.max base_CONTRACT_CALL base_CONTRACT_DEPLOY) 3).

(** ** Lemmas *)

Lemma from_to_byte o : from_byte (to_byte o) = Some o.
Proof. by destruct o. Qed.

Lemma to_from_byte b o : from_byte b = Some o → to_byte o = b.
Proof.
  intros H. unfold from_byte in H.
  repeat (case_match; simplify_eq/=; try done).
Qed.

Lemma memory_gas_mono a b : 0 ≤ a ≤ b → memory_gas_cost a ≤ memory_gas_cost b.
Proof.
  intros Hab. unfold memory_gas_cost, sat_add, sat_mul, MEMORY_GAS_PER_WORD, MEMORY_GAS_QUAD_DIVISOR.
  assert (a * a ≤ b * b) by nia.
  assert (Z.min u64_max (a * a) `div` 512 ≤ Z.min u64_max (b * b) `div` 512)
    by (apply Z.div_le_mono; lia). lia.
Qed.
