(* ===== verification/Qa.v ===== *)
(** * Deploy quality assurance

    Models [crates/boing-qa/src]: the deploy checks of [lib.rs] (opcode
    whitelist, well-formedness, blocklist, scam patterns, purpose, content policy,
    soft rules) and the rule registry; the pool configuration of [pool_config.rs]
    with its quorum decision in IEEE double precision; and the node's pending queue
    of [pool.rs].

    A string is its UTF-8 bytes. [trim], [to_lowercase] (Unicode tables of the
    standard library) and [hex::decode] are the operations of the class [TextOps].
    The messages of rejections are dropped, their rule ids kept. *)

From S2P Require Import Prelude Types Bytecode.
From Stdlib Require Ascii String.
From Stdlib Require Import Floats.SpecFloat.

Class TextOps := {
  str_trim : string → string;
  str_to_lowercase : string → string;
  hex_decode : string → option bytes;
}.

Definition utf8 (s : string) : bytes :=
  (λ c, Z.of_N (Ascii.N_of_ascii c)) <$> String.list_ascii_of_string s.

(** ** Results and rules *)

Inductive RuleId :=
| MAX_BYTECODE_SIZE | INVALID_OPCODE | MALFORMED_BYTECODE | BLOCKLIST_MATCH | SCAM_PATTERN_MATCH
| PURPOSE_DECLARATION_INVALID | ALWAYS_REVIEW_CATEGORY | SOFT_RULE_FAILED | METADATA_TOO_LONG
| CONTENT_POLICY_VIOLATION.

Inductive QaResult := Allow | Reject (rule : RuleId) | Unsure.

#[global] Instance RuleId_eq_dec : EqDecision RuleId.
Proof. solve_decision. Defined.

#[global] Instance QaResult_eq_dec : EqDecision QaResult.
Proof. solve_decision. Defined.

Definition NATIVE_VALUE_OPCODES : list Z := [0x31; 0x34; 0x47; 0xf2].
Definition BLAKE3_OPCODE : Z := 0x20.
Definition DEFAULT_MAX_BYTECODE_SIZE : Z := 32 * 1024.
Definition MAX_ASSET_NAME_LEN : Z := 256.
Definition MAX_ASSET_SYMBOL_LEN : Z := 32.
Definition MAX_SCAM_PATTERNS : nat := 256.
Definition MAX_SCAM_PATTERN_LEN : Z := 1024.
Definition ABSOLUTE_MAX_BYTECODE_SIZE : Z := 16 * 1024 * 1024.

Record RuleRegistry := mkRuleRegistry {
  rr_max_bytecode_size : Z;
  blocklist : list bytes;
  scam_patterns : list bytes;
  always_review_categories : list string;
  content_blocklist : list string;
  native_value_opcodes : bool;
  blake3_opcodes : bool;
}.

(** [RuleRegistry::new]. *)
Definition new_rules : RuleRegistry :=
  mkRuleRegistry DEFAULT_MAX_BYTECODE_SIZE [] [] [] [] false false.

Definition with_native_value_opcodes (r : RuleRegistry) (allow : bool) : RuleRegistry :=
  mkRuleRegistry (rr_max_bytecode_size r) (blocklist r) (scam_patterns r)
    (always_review_categories r) (content_blocklist r) allow (blake3_opcodes r).

Definition with_blake3_opcodes (r : RuleRegistry) (allow : bool) : RuleRegistry :=
  mkRuleRegistry (rr_max_bytecode_size r) (blocklist r) (scam_patterns r)
    (always_review_categories r) (content_blocklist r) (native_value_opcodes r) allow.

(** [RuleRegistry::validate]. *)
Definition rules_validate (r : RuleRegistry) : bool :=
  negb (rr_max_bytecode_size r =? 0)
  && (rr_max_bytecode_size r <=? ABSOLUTE_MAX_BYTECODE_SIZE)
  && (length (scam_patterns r) <=? MAX_SCAM_PATTERNS)%nat
  && forallb (λ p, negb (Nat.eqb (length p) 0) && (Z.of_nat (length p) <=? MAX_SCAM_PATTERN_LEN))
       (scam_patterns r).

(** ** Bytecode *)

Definition is_valid_opcode (b : Z) : bool :=
  bool_decide (b ∈ [0x00; 0x01; 0x02; 0x03; 0x04; 0x06; 0x08; 0x09; 0x10; 0x11; 0x14; 0x15; 0x16;
    0x17; 0x18; 0x19; 0x1b; 0x1c; 0x1d; 0x30; 0x33; 0x40; 0x41; 0x80; 0xa0; 0xa1; 0xa2; 0xa3; 0xa4;
    0x51; 0x52; 0x54; 0x55; 0x56; 0x57; 0xf1; 0xf3; 0xf5])
  || ((0x60 <=? b) && (b <=? 0x7f)).

Definition is_valid_opcode_with (b : Z) (native_value blake3 : bool) : bool :=
  is_valid_opcode b
  || (native_value && bool_decide (b ∈ NATIVE_VALUE_OPCODES))
  || (blake3 && (b =? BLAKE3_OPCODE)).

Definition push_immediate_size (b : Z) : option nat :=
  if (0x60 <=? b) && (b <=? 0x7f) then Some (Z.to_nat (b - 0x5f)) else None.

(** The loop of [check_well_formed] on the code from [pc] on: [Err true] is an
    invalid opcode. Each iteration consumes a byte, so [length] is enough fuel;
    [pc] never passes the end, so the test after the loop is on an empty rest. *)
Fixpoint well_formed_from (fuel : nat) (code : bytes) (native_value blake3 : bool)
    : result () bool :=
  match fuel, code with
  | _, [] => Ok ()
  | O, _ => Err false
  | S fuel, op :: rest =>
      if negb (is_valid_opcode_with op native_value blake3) then Err true
      else
        match push_immediate_size op with
        | Some n =>
            if (length rest <? n)%nat then Err false
            else well_formed_from fuel (drop n rest) native_value blake3
        | None => well_formed_from fuel rest native_value blake3
        end
  end.

Definition check_well_formed (code : bytes) (native_value blake3 : bool) : result () bool :=
  well_formed_from (length code) code native_value blake3.

(** [slice.windows(p.len()).any(|w| w == p)], and [str::contains] on bytes. *)
Fixpoint contains (text pat : bytes) : bool :=
  bool_decide (take (length pat) text = pat)
  || match text with [] => false | _ :: r => contains r pat end.

(** ** Strings *)

Section Text.
Context `{TextOps}.

Definition VALID_PURPOSE_CATEGORIES : list string :=
  ["dapp"; "dApp"; "token"; "nft"; "NFT"; "meme"; "community"; "entertainment"; "tooling";
   "other"]%string.

Definition is_valid_purpose_category (s : string) : bool :=
  let s := str_to_lowercase (str_trim s) in
  existsb (λ c, bool_decide (str_to_lowercase c = s)) VALID_PURPOSE_CATEGORIES.

(** [fold_homoglyphs] on UTF-8: the Cyrillic letters are two bytes. *)
Definition homoglyph (a b : Z) : option Z :=
  match a, b with
  | 208, 176 | 208, 144 => Some 97
  | 208, 181 | 208, 149 => Some 101
  | 208, 190 | 208, 158 => Some 111
  | 209, 128 | 208, 160 => Some 112
  | 209, 129 | 208, 161 => Some 99
  | 209, 131 | 208, 163 => Some 121
  | 209, 133 | 208, 165 => Some 120
  | 209, 150 | 208, 134 => Some 105
  | 209, 149 | 208, 133 => Some 115
  | _, _ => None
  end.

Fixpoint fold_homoglyphs (l : bytes) : bytes :=
  match l with
  | a :: ((b :: r) as rest) =>
      match homoglyph a b with
      | Some c => c :: fold_homoglyphs r
      | None => a :: fold_homoglyphs rest
      end
  | _ => l
  end.

Definition is_alphanumeric (b : Z) : bool :=
  ((48 <=? b) && (b <=? 57)) || ((65 <=? b) && (b <=? 90)) || ((97 <=? b) && (b <=? 122)).

(** The non-empty words of a text, split at the bytes that are not alphanumeric. *)
Fixpoint words_from (cur : bytes) (l : bytes) : list bytes :=
  match l with
  | [] => if Nat.eqb (length cur) 0 then [] else [cur]
  | b :: r =>
      if is_alphanumeric b then words_from (cur ++ [b]) r
      else if Nat.eqb (length cur) 0 then words_from [] r else cur :: words_from [] r
  end.

Definition content_term_matches (text : bytes) (term : string) : bool :=
  let t := fold_homoglyphs (utf8 (str_to_lowercase (str_trim term))) in
  match t with
  | [] => false
  | _ =>
      if negb (forallb is_alphanumeric t) then contains text t
      else ((4 <=? length t)%nat && contains text t)
           || existsb (λ w, bool_decide (w = t)) (words_from [] text)
  end.

(** The closure [check] of [check_content_policy]. *)
Definition content_forbidden (terms : list string) (s : string) : bool :=
  let lower := fold_homoglyphs (utf8 (str_to_lowercase (str_trim s))) in
  existsb (λ t, negb (bool_decide (t = ""%string)) && content_term_matches lower t) terms.

Definition opt_any {A} (f : A → bool) (o : option A) : bool :=
  match o with Some a => f a | None => false end.

(** [check_content_policy]: [true] is a violation. *)
Definition check_content_policy (asset_name asset_symbol : option string) (terms : list string) : bool :=
  opt_any (content_forbidden terms) asset_name || opt_any (content_forbidden terms) asset_symbol.

(** [check_soft_rules]: [true] is [Unsure]. *)
Definition check_soft_rules (purpose_category : option string) (description_hash : option bytes) : bool :=
  opt_any (λ cat, bool_decide (str_to_lowercase (str_trim cat) = "other"%string)
                  && (Z.of_nat (length (default [] description_hash)) <? 4)) purpose_category.

(** ** The checks *)

Context `{Host}.

Definition check_contract_deploy_with_blocklist (bytecode : bytes) (purpose_category : option string)
    (max_bytecode_size : Z) (blocklist_hashes : list bytes) (native_value blake3_ok : bool) : QaResult :=
  if Nat.eqb (length bytecode) 0 then Reject MALFORMED_BYTECODE
  else if contract_deploy_uses_init_code bytecode
          && Nat.eqb (length (contract_deploy_init_body bytecode)) 0 then Reject MALFORMED_BYTECODE
  else if max_bytecode_size <? Z.of_nat (length bytecode) then Reject MAX_BYTECODE_SIZE
  else
    match check_well_formed (contract_deploy_init_body bytecode) native_value blake3_ok with
    | Err true => Reject INVALID_OPCODE
    | Err false => Reject MALFORMED_BYTECODE
    | Ok _ =>
        if bool_decide (blake3 bytecode ∈ blocklist_hashes) then Reject BLOCKLIST_MATCH
        else if opt_any (λ cat, negb (bool_decide (str_trim cat = ""%string))
                                && negb (is_valid_purpose_category cat)) purpose_category
        then Reject PURPOSE_DECLARATION_INVALID
        else Allow
    end.

Definition scam_match (bytecode pattern : bytes) : bool :=
  negb (Nat.eqb (length pattern) 0 || (MAX_SCAM_PATTERN_LEN <? Z.of_nat (length pattern)))
  && (length pattern <=? length bytecode)%nat && contains bytecode pattern.

Definition check_contract_deploy_full_with_metadata (bytecode : bytes) (purpose_category : option string)
    (description_hash : option bytes) (asset_name asset_symbol : option string)
    (registry : RuleRegistry) : QaResult :=
  if opt_any (λ n, MAX_ASSET_NAME_LEN <? Z.of_nat (length (utf8 n))) asset_name
  then Reject METADATA_TOO_LONG
  else if opt_any (λ n, MAX_ASSET_SYMBOL_LEN <? Z.of_nat (length (utf8 n))) asset_symbol
  then Reject METADATA_TOO_LONG
  else
    match check_contract_deploy_with_blocklist bytecode purpose_category (rr_max_bytecode_size registry)
            (blocklist registry) (native_value_opcodes registry) (blake3_opcodes registry) with
    | Reject r => Reject r
    | _ =>
        if existsb (scam_match bytecode) (take MAX_SCAM_PATTERNS (scam_patterns registry))
        then Reject SCAM_PATTERN_MATCH
        else if negb (Nat.eqb (length (content_blocklist registry)) 0)
                && check_content_policy asset_name asset_symbol (content_blocklist registry)
        then Reject CONTENT_POLICY_VIOLATION
        else if opt_any (λ cat, bool_decide (str_to_lowercase (str_trim cat) ∈ always_review_categories registry))
                  purpose_category then Unsure
        else if check_soft_rules purpose_category description_hash then Unsure
        else Allow
    end.

Definition check_contract_deploy_full (bytecode : bytes) (purpose_category : option string)
    (description_hash : option bytes) (registry : RuleRegistry) : QaResult :=
  check_contract_deploy_full_with_metadata bytecode purpose_category description_hash None None registry.

End Text.

(** ** Instructions *)

(** What the VM executes at an instruction boundary: an opcode active under the
    context's flags, or a push with its immediate. *)
Inductive Instr := IOp (o : Opcode) | IPush (imm : bytes).

Definition instr_ok (native_value blake3 : bool) (i : Instr) : Prop :=
  match i with
  | IOp (Push1 | Push32) => False
  | IOp (Balance | CallValue | SelfBalance | NativeTransfer) => native_value = true
  | IOp Blake3 => blake3 = true
  | IOp _ => True
  | IPush imm => (1 ≤ length imm ≤ 32)%nat
  end.

Definition encode_instr (i : Instr) : bytes :=
  match i with
  | IOp o => [to_byte o]
  | IPush imm => (0x5f + Z.of_nat (length imm)) :: imm
  end.

Definition assemble (prog : list Instr) : bytes := concat (encode_instr <$> prog).

(** The VM's decoder on one byte, with the guards of its native-value and
    [Blake3] arms. *)
Definition vm_decodes (native_value blake3 : bool) (b : Z) : bool :=
  match push_size b with
  | Some _ => true
  | None =>
      match from_byte b with
      | None => false
      | Some (Balance | CallValue | SelfBalance | NativeTransfer) => native_value
      | Some Blake3 => blake3
      | Some _ => true
      end
  end.

Lemma whitelist_decodes b nv bl : is_byte b → is_valid_opcode_with b nv bl = vm_decodes nv bl b.
Proof.
  intros Hb.
  assert (forallb (λ n, let b := Z.of_nat n in
    forallb (λ nv, forallb (λ bl, Bool.eqb (is_valid_opcode_with b nv bl) (vm_decodes nv bl b))
      [true; false]) [true; false]) (seq 0 256) = true) as Hall by (vm_compute; reflexivity).
  rewrite forallb_forall in Hall. specialize (Hall (Z.to_nat b)).
  rewrite Z2Nat.id in Hall by (unfold is_byte in Hb; lia).
  assert (In (Z.to_nat b) (seq 0 256)) as Hin by (apply in_seq; unfold is_byte in Hb; lia).
  specialize (Hall Hin). rewrite forallb_forall in Hall.
  assert (In nv [true; false]) as Hnv by (destruct nv; simpl; auto).
  specialize (Hall nv Hnv). rewrite forallb_forall in Hall.
  assert (In bl [true; false]) as Hbl by (destruct bl; simpl; auto).
  by apply eqb_prop, (Hall bl Hbl).
Qed.

Lemma push_sizes_agree b : push_size b = Z.of_nat <$> push_immediate_size b.
Proof.
  unfold push_size, push_immediate_size. destruct (_ && _) eqn:E; [|done]. simpl. bool_to_prop.
  f_equal. lia.
Qed.

Lemma instr_byte nv bl i :
  instr_ok nv bl i → ∃ op rest, encode_instr i = op :: rest ∧ vm_decodes nv bl op = true ∧
    push_immediate_size op = match i with IOp _ => None | IPush imm => Some (length imm) end.
Proof.
  destruct i as [o|imm]; simpl.
  - intros Ho. exists (to_byte o), []. split; [done|]. destruct o; simpl in *; try done; subst; done.
  - intros Hlen. eexists _, imm. split; [done|]. unfold vm_decodes. rewrite push_sizes_agree.
    unfold push_immediate_size.
    replace ((0x60 <=? 0x5f + Z.of_nat (length imm)) && (0x5f + Z.of_nat (length imm) <=? 0x7f)) with true
      by (symmetry; apply andb_true_intro; lia).
    simpl. split; [done|]. f_equal. lia.
Qed.

(** A byte the VM decodes starts an instruction. *)
Lemma byte_instr nv bl op :
  vm_decodes nv bl op = true →
  match push_immediate_size op with
  | Some n => (1 ≤ n ≤ 32)%nat ∧ op = 0x5f + Z.of_nat n
  | None => ∃ o, op = to_byte o ∧ instr_ok nv bl (IOp o)
  end.
Proof.
  unfold vm_decodes. rewrite push_sizes_agree. destruct (push_immediate_size op) as [n|] eqn:E; simpl.
  - intros _. unfold push_immediate_size in E. destruct (_ && _) eqn:Eb; [|done]. simplify_eq.
    bool_to_prop. lia.
  - destruct (from_byte op) as [o|] eqn:Ef; [|done]. pose proof (to_from_byte op o Ef) as <-.
    intros Hd. exists o. split; [done|]. destruct o; simpl; try done; vm_compute in E; done.
Qed.

Lemma assemble_cons i prog : assemble (i :: prog) = encode_instr i ++ assemble prog.
Proof. done. Qed.

Lemma assemble_well_formed nv bl prog fuel :
  Forall (instr_ok nv bl) prog → is_bytes (assemble prog) → (length (assemble prog) ≤ fuel)%nat →
  well_formed_from fuel (assemble prog) nv bl = Ok ().
Proof.
  intros Hok. revert fuel. induction Hok as [|i prog Hi Hprog IH]; intros fuel Hb Hf; [by destruct fuel|].
  destruct (instr_byte nv bl i Hi) as (op & rest & He & Hd & Hp).
  rewrite assemble_cons, He in *. cbn [app] in *. apply Forall_cons in Hb as [Hop Hb].
  apply Forall_app in Hb as [_ Hb]. cbn [length] in Hf. rewrite length_app in Hf.
  destruct fuel as [|fuel]; [lia|]. cbn [well_formed_from].
  rewrite whitelist_decodes, Hd, Hp by done. cbn [negb]. destruct i as [o|imm]; simpl in He; simplify_eq.
  - apply IH; [done|simpl in Hf; lia].
  - rewrite length_app, drop_app_length. destruct (_ <? _)%nat eqn:El; [apply Nat.ltb_lt in El; lia|].
    apply IH; [done|lia].
Qed.

Lemma well_formed_assembles nv bl fuel code :
  is_bytes code → well_formed_from fuel code nv bl = Ok () →
  ∃ prog, Forall (instr_ok nv bl) prog ∧ code = assemble prog.
Proof.
  revert code. induction fuel as [|fuel IH]; intros [|op rest] Hb; simpl; try done; try by exists [].
  apply Forall_cons in Hb as [Hop Hb]. rewrite whitelist_decodes by done.
  destruct (vm_decodes nv bl op) eqn:Hd; [|done]. simpl. apply byte_instr in Hd.
  destruct (push_immediate_size op) as [n|].
  - destruct Hd as [Hn ->]. destruct (_ <? _)%nat eqn:El; [done|]. apply Nat.ltb_ge in El.
    intros (prog & Hok & Heq)%IH; [|by apply Forall_drop].
    exists (IPush (take n rest) :: prog). assert (length (take n rest) = n) as Hl by (rewrite length_take; lia).
    split; [constructor; [simpl; lia|done]|]. rewrite assemble_cons, <- Heq. simpl.
    by rewrite Hl, take_drop.
  - destruct Hd as (o & -> & Ho). intros (prog & Hok & Heq)%IH; [|done].
    exists (IOp o :: prog). split; [by constructor|]. by rewrite assemble_cons, <- Heq.
Qed.

(** C29: the deploy check accepts exactly the instruction streams the VM decodes:
    a body is well formed under the registry's opcode flags iff it is the encoding
    of a list of instructions, each a push with its whole immediate or an opcode
    that is active under the same flags. *)
Theorem qa_accepts_vm_instructions code nv bl :
  is_bytes code →
  check_well_formed code nv bl = Ok () ↔
  ∃ prog, Forall (instr_ok nv bl) prog ∧ code = assemble prog.
Proof.
  intros Hb. split; [by apply well_formed_assembles|].
  intros (prog & Hok & ->). by apply assemble_well_formed.
Qed.

Lemma valid_opcode_mono b nv bl nv' bl' :
  (nv = true → nv' = true) → (bl = true → bl' = true) →
  is_valid_opcode_with b nv bl = true → is_valid_opcode_with b nv' bl' = true.
Proof.
  intros Hn Hb. unfold is_valid_opcode_with. rewrite !orb_true_iff, !andb_true_iff. tauto.
Qed.

Lemma well_formed_mono fuel code nv bl nv' bl' :
  (nv = true → nv' = true) → (bl = true → bl' = true) →
  well_formed_from fuel code nv bl = Ok () → well_formed_from fuel code nv' bl' = Ok ().
Proof.
  intros Hn Hb. revert code. induction fuel as [|fuel IH]; intros [|op rest]; simpl; try done.
  destruct (is_valid_opcode_with op nv bl) eqn:E; [|done].
  rewrite (valid_opcode_mono op nv bl nv' bl') by done. simpl.
  destruct (push_immediate_size op) as [n|]; [|apply IH]. destruct (_ <? _)%nat; [done|apply IH].
Qed.

(** Activating opcodes never takes a deploy's verdict away: what the registry
    allows, or sends to review, with the native-value and [Blake3] opcodes off
    keeps its verdict when they are on. *)
Theorem activation_keeps_verdicts `{TextOps, Host} code purpose desc name sym reg nv bl nv' bl' :
  let check nv bl := check_contract_deploy_full_with_metadata code purpose desc name sym
                       (with_blake3_opcodes (with_native_value_opcodes reg nv) bl) in
  (nv = true → nv' = true) → (bl = true → bl' = true) →
  (∀ rule, check nv bl ≠ Reject rule) → check nv' bl' = check nv bl.
Proof.
  intros check Hn Hb. subst check. cbv beta. unfold check_contract_deploy_full_with_metadata.
  simpl. destruct (opt_any _ name); [intros Hr; by destruct (Hr METADATA_TOO_LONG)|].
  destruct (opt_any _ sym); [intros Hr; by destruct (Hr METADATA_TOO_LONG)|].
  set (base := λ nv bl, check_contract_deploy_with_blocklist code purpose (rr_max_bytecode_size reg)
    (blocklist reg) nv bl).
  fold (base nv bl). fold (base nv' bl').
  assert ((∃ rule, base nv bl = Reject rule) ∨ base nv' bl' = base nv bl) as [[rule ->]| ->]; [|
    intros Hr; by destruct (Hr rule)|done].
  unfold base, check_contract_deploy_with_blocklist. destruct (Nat.eqb _ _); [eauto|].
  destruct (_ && _); [eauto|]. destruct (_ <? _); [eauto|].
  destruct (check_well_formed _ nv bl) as [[]|[]] eqn:E; [|eauto..]. right.
  unfold check_well_formed in *. by rewrite (well_formed_mono _ _ _ _ _ _ Hn Hb E).
Qed.

(** ** Pool configuration *)

(** [f64]: the format with 53 bits of precision. *)
Notation f64 := spec_float (only parsing).
Definition f64_of_Z (n : Z) : f64 := binary_normalize 53 1024 n 0 false.
Definition f64_div : f64 → f64 → f64 := SFdiv 53 1024.
(** [a < b] and [a >= b]; both are false on a NaN. *)
Definition f64_ltb : f64 → f64 → bool := SFltb.
Definition f64_geb (a b : f64) : bool := SFleb b a.

Inductive QaPoolExpiryPolicy := ExpiryReject | ExpiryAllow.

Record QaPoolGovernanceConfig := mkPoolConfig {
  administrators : list string;
  max_pending_items : Z;
  max_pending_per_deployer : Z;
  review_window_secs : Z;
  review_window_blocks : Z;
  quorum_fraction : f64;
  allow_threshold_fraction : f64;
  reject_threshold_fraction : f64;
  default_on_expiry : QaPoolExpiryPolicy;
  dev_open_voting : bool;
  public_membership : bool;
  min_voter_stake : Z;
  min_quorum_votes : Z;
  reward_per_counted_vote : Z;
  pay_abstain : bool;
}.

Definition half : f64 := f64_div (f64_of_Z 1) (f64_of_Z 2).
Definition two_thirds : f64 := f64_div (f64_of_Z 2) (f64_of_Z 3).
Definition WEEK_SECS : Z := 7 * 24 * 60 * 60.
Definition CANONICAL_REVIEW_WINDOW_BLOCKS : Z := 300.

Definition production_default : QaPoolGovernanceConfig :=
  mkPoolConfig [] 32 2 WEEK_SECS 0 half two_thirds two_thirds ExpiryReject false true 1 3 1 false.

Definition development_default : QaPoolGovernanceConfig :=
  mkPoolConfig [] 256 16 WEEK_SECS 0 half two_thirds two_thirds ExpiryReject true false 0 1 0 false.

(** [QaPoolGovernanceConfig::validate]. *)
Definition frac_ok (v : f64) : bool :=
  match v with S754_zero _ | S754_finite _ _ _ => true | _ => false end
  && negb (SFleb v (f64_of_Z 0)) && negb (f64_ltb (f64_of_Z 1) v).

Definition MAX_REWARD_PER_COUNTED_VOTE : Z := 1000000.

Definition pool_config_validate (c : QaPoolGovernanceConfig) : bool :=
  frac_ok (quorum_fraction c) && frac_ok (allow_threshold_fraction c) && frac_ok (reject_threshold_fraction c)
  && negb ((review_window_secs c =? 0) && match default_on_expiry c with ExpiryAllow => true | _ => false end)
  && negb (public_membership c && (min_quorum_votes c =? 0))
  && (reward_per_counted_vote c <=? MAX_REWARD_PER_COUNTED_VOTE).

Definition canonical_default : QaPoolGovernanceConfig :=
  mkPoolConfig [] 32 2 WEEK_SECS CANONICAL_REVIEW_WINDOW_BLOCKS half two_thirds two_thirds ExpiryReject
    false true 0 2 0 false.

Inductive QaQuorumDecision := DecisionPending | DecisionAllow | DecisionReject.
Inductive QaVoterIneligible := NotMember | DeployerConflict | InsufficientStake.

Section PoolConfig.
Context `{TextOps}.

Definition parse_account_hex (s : string) : option AccountId :=
  let s := str_trim s in
  let s := match String.prefix "0x" s with
           | true => String.substring 2 (String.length s - 2) s
           | false => s
           end in
  bytes ← hex_decode s;
  if Nat.eqb (length bytes) 32 then Some bytes else None.

Definition administrator_accounts (c : QaPoolGovernanceConfig) : list AccountId :=
  omap parse_account_hex (administrators c).

Definition accepts_new_pending (c : QaPoolGovernanceConfig) : bool :=
  if max_pending_items c =? 0 then false
  else public_membership c || dev_open_voting c || negb (Nat.eqb (length (administrator_accounts c)) 0).

Definition voter_eligibility (c : QaPoolGovernanceConfig) (voter : AccountId)
    (deployer : option AccountId) (voter_stake : option Z) : result () QaVoterIneligible :=
  if bool_decide (deployer = Some voter) then Err DeployerConflict
  else if public_membership c then
    if (0 <? min_voter_stake c) && (default 0 voter_stake <? min_voter_stake c)
    then Err InsufficientStake else Ok ()
  else
    let admins := administrator_accounts c in
    if dev_open_voting c && Nat.eqb (length admins) 0 then Ok ()
    else if bool_decide (voter ∈ admins) then Ok ()
    else Err NotMember.

Definition effective_electorate_size (c : QaPoolGovernanceConfig) : Z :=
  if public_membership c then Z.max (min_quorum_votes c) 1
  else
    let admins := administrator_accounts c in
    if dev_open_voting c && Nat.eqb (length admins) 0 then 1 else Z.max (Z.of_nat (length admins)) 1.

Definition quorum_decision (c : QaPoolGovernanceConfig) (allow reject : Z) : QaQuorumDecision :=
  let total := sat_add u64_max allow reject in
  if total =? 0 then DecisionPending
  else if public_membership c && (total <? min_quorum_votes c) then DecisionPending
  else
    let electorate := Z.max (effective_electorate_size c) 1 in
    if f64_ltb (f64_div (f64_of_Z total) (f64_of_Z electorate)) (quorum_fraction c) then DecisionPending
    else if f64_geb (f64_div (f64_of_Z allow) (f64_of_Z total)) (allow_threshold_fraction c)
    then DecisionAllow
    else if f64_geb (f64_div (f64_of_Z reject) (f64_of_Z total)) (reject_threshold_fraction c)
    then DecisionReject
    else DecisionPending.

End PoolConfig.

(** ** The pending queue of a node *)

Inductive QaPoolVote := VoteAllow | VoteReject | VoteAbstain.

Inductive PoolResolution := ResPending | ResAllow (signed_tx : bytes) | ResReject.

Inductive PoolError :=
| PoolDuplicate | NotAdministrator | PoolDisabled | PoolFull | DeployerCapExceeded | PoolNotFound | PoolInvalidSignature
| PoolSerialization | PoolDeserialization.

(** [entered_at] and the clock of a call are in nanoseconds. *)
Record PendingQaItem := mkPendingItem {
  pi_tx_hash : Hash;
  pi_bytecode_hash : bytes;
  pi_deployer : AccountId;
  pi_entered_at : Z;
  pi_votes : gmap AccountId QaPoolVote;
  pi_signed_tx : bytes;
}.

Record PendingQaQueue := mkQueue {
  q_items : gmap Hash PendingQaItem;
  q_governance : QaPoolGovernanceConfig;
}.

Module QaPool.
Section Pool.
Context `{TextOps}.

Definition is_allow (v : QaPoolVote) : bool := match v with VoteAllow => true | _ => false end.
Definition is_reject (v : QaPoolVote) : bool := match v with VoteReject => true | _ => false end.

Definition count_votes (f : QaPoolVote → bool) (item : PendingQaItem) : Z :=
  Z.of_nat (length (filter (λ e, f e.2 = true) (map_to_list (pi_votes item)))).

Definition vote_counts (item : PendingQaItem) : Z * Z :=
  (count_votes is_allow item, count_votes is_reject item).

Definition is_expired (now : Z) (window_secs : Z) (item : PendingQaItem) : bool :=
  window_secs * 1000000000 <=? sat_sub now (pi_entered_at item).

Definition deployer_pending_count (q : PendingQaQueue) (deployer : AccountId) : nat :=
  length (filter (λ e, pi_deployer e.2 = deployer) (map_to_list (q_items q))).

Definition set_items (q : PendingQaQueue) (m : gmap Hash PendingQaItem) : PendingQaQueue :=
  mkQueue m (q_governance q).

Definition add (item : PendingQaItem) : ST PendingQaQueue PoolError () :=
  q ← st_get;
  let cfg := q_governance q in
  if negb (accepts_new_pending cfg) then st_fail PoolDisabled
  else if bool_decide (is_Some (q_items q !! pi_tx_hash item)) then st_fail PoolDuplicate
  else if max_pending_items cfg <=? Z.of_nat (size (q_items q)) then st_fail PoolFull
  else if (0 <? max_pending_per_deployer cfg)
          && (max_pending_per_deployer cfg <=? Z.of_nat (deployer_pending_count q (pi_deployer item)))
  then st_fail DeployerCapExceeded
  else st_put (set_items q (<[pi_tx_hash item := item]> (q_items q))).

Definition vote (tx_hash : Hash) (voter : AccountId) (v : QaPoolVote) (voter_stake : option Z)
    : ST PendingQaQueue PoolError () :=
  q ← st_get;
  item ← st_some (q_items q !! tx_hash) PoolNotFound;
  match voter_eligibility (q_governance q) voter (Some (pi_deployer item)) voter_stake with
  | Err _ => st_fail NotAdministrator
  | Ok _ =>
      st_put (set_items q (<[tx_hash := mkPendingItem (pi_tx_hash item) (pi_bytecode_hash item)
        (pi_deployer item) (pi_entered_at item) (<[voter := v]> (pi_votes item)) (pi_signed_tx item)]>
        (q_items q)))
  end.

Definition expiry_resolution (cfg : QaPoolGovernanceConfig) (item : PendingQaItem) : PoolResolution :=
  match default_on_expiry cfg with
  | ExpiryReject => ResReject
  | ExpiryAllow => ResAllow (pi_signed_tx item)
  end.

Definition resolve (now : Z) (tx_hash : Hash) (q : PendingQaQueue) : PoolResolution * PendingQaQueue :=
  let cfg := q_governance q in
  match q_items q !! tx_hash with
  | None => (ResPending, q)
  | Some item =>
      let removed := set_items q (delete tx_hash (q_items q)) in
      if is_expired now (review_window_secs cfg) item then (expiry_resolution cfg item, removed)
      else
        let '(allow, reject) := vote_counts item in
        match quorum_decision cfg allow reject with
        | DecisionPending => (ResPending, q)
        | DecisionAllow => (ResAllow (pi_signed_tx item), removed)
        | DecisionReject => (ResReject, removed)
        end
  end.

Definition prune_expired (now : Z) (q : PendingQaQueue) : list (Hash * PoolResolution) * PendingQaQueue :=
  let cfg := q_governance q in
  let expired := filter (λ e, is_expired now (review_window_secs cfg) e.2 = true) (map_to_list (q_items q)) in
  ((λ e, (e.1, expiry_resolution cfg e.2)) <$> expired,
   set_items q (filter (λ e, is_expired now (review_window_secs cfg) e.2 = false) (q_items q))).

(** ** The queue is bounded *)

Inductive PoolOp :=
| PoAdd (item : PendingQaItem)
| PoVote (tx_hash : Hash) (voter : AccountId) (v : QaPoolVote) (voter_stake : option Z)
| PoResolve (now : Z) (tx_hash : Hash)
| PoPrune (now : Z).

Definition apply_pool_op (q : PendingQaQueue) (op : PoolOp) : PendingQaQueue :=
  match op with
  | PoAdd item => (add item q).2
  | PoVote h v k s => (vote h v k s q).2
  | PoResolve now h => (resolve now h q).2
  | PoPrune now => (prune_expired now q).2
  end.

Record queue_ok (c : QaPoolGovernanceConfig) (q : PendingQaQueue) : Prop := {
  qk_config : q_governance q = c;
  qk_size : Z.of_nat (size (q_items q)) ≤ max_pending_items c;
  qk_deployer : ∀ d, 0 < max_pending_per_deployer c →
    map_sum (λ i, if decide (pi_deployer i = d) then 1 else 0) (q_items q) ≤ max_pending_per_deployer c;
  qk_items : ∀ h item, q_items q !! h = Some item →
    pi_tx_hash item = h ∧ (∀ v, is_Some (pi_votes item !! v) → v ≠ pi_deployer item);
}.

Lemma count_map_sum (m : gmap Hash PendingQaItem) d :
  Z.of_nat (length (filter (λ e, pi_deployer e.2 = d) (map_to_list m))) =
  map_sum (λ i, if decide (pi_deployer i = d) then 1 else 0) m.
Proof.
  induction m as [|h i m Hh IH] using map_ind; [by rewrite map_to_list_empty|].
  rewrite map_to_list_insert, filter_cons, map_sum_fresh by done. simpl.
  case_decide; simpl; lia.
Qed.

Lemma queue_delete_ok c q h : queue_ok c q → queue_ok c (set_items q (delete h (q_items q))).
Proof.
  intros [Hc Hs Hd Hi]. constructor; simpl.
  - done.
  - etransitivity; [|exact Hs]. rewrite map_size_delete. destruct (_ !! _); simpl; lia.
  - intros d Hp. specialize (Hd d Hp). destruct (q_items q !! h) as [i|] eqn:E.
    + rewrite (map_sum_delete _ h i) in Hd by done. case_decide; lia.
    + by rewrite delete_id.
  - intros h' item [_ Hl]%lookup_delete_Some. by apply Hi.
Qed.

Lemma queue_filter_ok c q (P : Hash * PendingQaItem → Prop) `{∀ x, Decision (P x)} :
  queue_ok c q → queue_ok c (set_items q (filter P (q_items q))).
Proof.
  intros [Hc Hs Hd Hi]. constructor; simpl.
  - done.
  - etransitivity; [|exact Hs]. apply Nat2Z.inj_le, map_size_filter.
  - intros d Hp. etransitivity; [|apply (Hd d Hp)]. clear.
    induction (q_items q) as [|h i m Hh IH] using map_ind; [done|]. rewrite map_sum_fresh by done.
    rewrite map_filter_insert. case_decide as HP.
    + rewrite map_sum_fresh by (apply map_lookup_filter_None; by left). lia.
    + rewrite delete_id by done. case_decide; lia.
  - intros h' item [Hl _]%map_lookup_filter_Some. by apply Hi.
Qed.

Lemma apply_pool_op_ok c q op :
  (∀ item, op = PoAdd item → pi_votes item = ∅) → queue_ok c q → queue_ok c (apply_pool_op q op).
Proof.
  intros Hnew Hok. pose proof Hok as [Hc Hs Hd Hi]. destruct op as [item|h v k s|now h|now]; simpl.
  - unfold add. st_unfold. destruct (negb _); [done|]. case_bool_decide as Hn; [done|].
    destruct (_ <=? _) eqn:Em; [done|]. destruct (_ && _) eqn:Ed; [done|]. simpl.
    apply eq_None_not_Some in Hn. rewrite Hc in *. apply Z.leb_gt in Em. constructor; simpl.
    + done.
    + rewrite map_size_insert, Hn. simpl. lia.
    + intros d Hp. rewrite map_sum_fresh by done. specialize (Hd d Hp). case_decide as Hdd; [|lia].
      subst d. replace (0 <? max_pending_per_deployer c) with true in Ed by (symmetry; lia). simpl in Ed.
      apply Z.leb_gt in Ed. unfold deployer_pending_count in Ed. rewrite count_map_sum in Ed. lia.
    + intros h' item' [[<- <-]|[_ Hl]]%lookup_insert_Some; [|by apply Hi]. split; [done|].
      intros v. rewrite (Hnew item eq_refl), lookup_empty. by intros [? ?].
  - unfold vote. st_unfold. destruct (q_items q !! h) as [item|] eqn:Eh; [|done].
    destruct (voter_eligibility _ _ _ _) eqn:Ee; [|done]. simpl. constructor; simpl.
    + done.
    + rewrite map_size_insert, Eh. done.
    + intros d Hp. rewrite map_sum_insert, Eh. simpl. specialize (Hd d Hp). case_decide; lia.
    + intros h' item' [[<- <-]|[_ Hl]]%lookup_insert_Some; [|by apply Hi]. simpl.
      destruct (Hi h item Eh) as [Hh Hv]. split; [done|]. intros w. destruct (decide (w = v)) as [->|Hne].
      * intros _ ->. unfold voter_eligibility in Ee. by rewrite bool_decide_true in Ee.
      * rewrite lookup_insert_ne by done. apply Hv.
  - unfold resolve. destruct (q_items q !! h) as [item|]; [|done].
    destruct (is_expired _ _ _); [by apply queue_delete_ok|]. destruct (vote_counts item) as [a r].
    destruct (quorum_decision _ a r); simpl; try done; by apply queue_delete_ok.
  - by apply queue_filter_ok.
Qed.

(** A node's review queue is bounded and its votes are eligible. Under one
    configuration, after any history of submissions, votes, resolutions and
    expiries, the queue holds at most [max_pending_items] items, at most
    [max_pending_per_deployer] of any deployer (when that cap is on), and no
    deployer has a vote on its own item. *)
Theorem review_queue_bounded c ops :
  (∀ item, PoAdd item ∈ ops → pi_votes item = ∅) → 0 ≤ max_pending_items c →
  queue_ok c (foldl apply_pool_op (mkQueue ∅ c) ops).
Proof.
  intros Hnew Hmax. assert (queue_ok c (mkQueue ∅ c)) as Hok.
  { constructor; simpl; try done. intros d Hp. rewrite map_sum_empty. lia. }
  revert Hok. generalize (mkQueue ∅ c). induction ops as [|op ops IH]; intros q Hq; [done|]. simpl.
  apply IH.
  - intros item Hin. apply Hnew. by right.
  - apply apply_pool_op_ok; [|done]. intros item ->. apply Hnew. left.
Qed.

End Pool.
End QaPool.

Module SampleQa.
Import QaPool.

(** ASCII lower-case text, without surrounding space. *)
#[local] Instance plain_text : TextOps := {|
  str_trim s := s;
  str_to_lowercase s := s;
  hex_decode _ := None;
|}.

#[local] Instance sample : Host := sample_host.

(** [PUSH2 0x0102; BALANCE]. *)
Definition code : bytes := [0x61; 1; 2; 0x31].

Lemma qa_accepts_vm_instructions_witness :
  check_well_formed code true false = Ok () ∧ check_well_formed code false false = Err true ∧
  ∃ prog, Forall (instr_ok true false) prog ∧ code = assemble prog.
Proof.
  split; [vm_compute; reflexivity|]. split; [vm_compute; reflexivity|].
  apply (qa_accepts_vm_instructions code true false).
  - unfold code, is_bytes, is_byte. repeat constructor; discriminate.
  - vm_compute. reflexivity.
Defined.

Lemma activation_keeps_verdicts_witness :
  check_contract_deploy_full_with_metadata [0] (Some "other"%string) None None None
    (with_blake3_opcodes (with_native_value_opcodes new_rules true) true) = Unsure.
Proof.
  rewrite (activation_keeps_verdicts [0] (Some "other"%string) None None None new_rules false false true true);
    [vm_compute; reflexivity|discriminate|discriminate|].
  intros rule. vm_compute. discriminate.
Defined.

Definition item (n d : Z) : PendingQaItem :=
  mkPendingItem (replicate 32 n) ZERO (replicate 32 d) 0 ∅ [].

(** The third item of one deployer is refused. *)
Definition submissions : list PoolOp :=
  [PoAdd (item 1 7); PoAdd (item 2 7); PoAdd (item 3 7); PoVote (replicate 32 1) (replicate 32 7) VoteAllow None].

Lemma review_queue_bounded_witness :
  size (q_items (foldl apply_pool_op (mkQueue ∅ canonical_default) submissions)) = 2%nat ∧
  queue_ok canonical_default (foldl apply_pool_op (mkQueue ∅ canonical_default) submissions).
Proof.
  split; [vm_compute; reflexivity|].
  apply (review_queue_bounded canonical_default submissions); [|vm_compute; discriminate].
  intros i Hin. unfold submissions in Hin.
  repeat (apply elem_of_cons in Hin as [Hin|Hin]; [inversion Hin; reflexivity|]).
  by apply elem_of_nil in Hin.
Defined.

End SampleQa.
