(* ===== verification/Store.v ===== *)
(** * The state store

    Models [crates/boing-state/src/store.rs] (and the record of
    [qa_pending.rs]): accounts, contract code and storage, pending QA items and
    the singleton registries; the undo journal behind [checkpoint] / [revert];
    and the state root, which after the first call is refreshed from the writes
    since the last one.

    The struct's fields are grouped: [Contents] is what the root commits to,
    [RootCache] the Merkle trees and the dirty sets, [UndoLog] the journal. The
    head of [journal] is the newest record, so a journal position [p] is index
    [length - 1 - p]. [live] counts the checkpoint handles that share the store's
    token. The seven registries are other components: the store uses their default
    value, emptiness test and commitment (and, for open validators, the bonds)
    through the class [Registries]. Hash maps are iterated in an unspecified order, any permutation ([Iteration]). *)

From S2P Require Import Prelude Types Merkle.
From Stdlib Require Ascii String.

(** ** Data *)

(** A byte-string literal. *)
Definition ascii_bytes (s : string) : bytes :=
  (λ c, Z.of_N (Ascii.N_of_ascii c)) <$> String.list_ascii_of_string s.

Record QaPendingRecord := mkQaPending {
  qp_deployer : AccountId;
  qp_deploy_nonce : Z;
  qp_tx : Transaction;
  qp_votes : gmap AccountId QaPoolVoteKind;
  qp_rewarded : gset AccountId;
  qp_entered_height : Z;
}.

(** [QaPendingRecord::new]. *)
Definition new_qa_pending (tx : Transaction) (entered_height : Z) : QaPendingRecord :=
  mkQaPending (tx_sender tx) (tx_nonce tx) tx ∅ ∅ entered_height.

Inductive RegId :=
| OpenValidators | Names | SampleOffers | SampleServe | SlashAppeals | Governance | QaPolicy.

#[global] Instance RegId_eq_dec : EqDecision RegId.
Proof. solve_decision. Defined.

Definition all_regs : list RegId :=
  [OpenValidators; Names; SampleOffers; SampleServe; SlashAppeals; Governance; QaPolicy].

(** The domain string each registry's [smt_key] digests. *)
Definition reg_domain (r : RegId) : bytes :=
  match r with
  | OpenValidators => ascii_bytes "BOING_OPEN_VALIDATOR_REGISTRY_V1"%string
  | Names => ascii_bytes "BOING_NAME_REGISTRY_V1"%string
  | SampleOffers => ascii_bytes "BOING_BLOB_SAMPLE_MARKET_V1"%string
  | SampleServe => ascii_bytes "BOING_BLOB_SERVE_CHALLENGE_V1"%string
  | SlashAppeals => ascii_bytes "BOING_SLASH_APPEAL_REGISTRY_V5"%string
  | Governance => ascii_bytes "BOING_GOVERNANCE_REGISTRY_V1"%string
  | QaPolicy => ascii_bytes "BOING_QA_POLICY_V1"%string
  end.

(** What the store uses of the registries, whose contents are a [V], and of
    [bincode] for a pending QA item. *)
Class Registries (V : Type) := {
  reg_default : RegId → V;
  reg_is_empty : RegId → V → bool;
  reg_commitment : RegId → V → Hash;
  bincode_qa : QaPendingRecord → bytes;
  ov_any_bond : V → bool;
  ov_scale_bonds : Z → V → V;
}.

(** The order in which a hash map or set is iterated. *)
Class Iteration := {
  iter : ∀ {A : Type}, list A → list A;
  iter_perm : ∀ {A : Type} (l : list A), iter l ≡ₚ l;
}.

Record Contents (V : Type) := mkContents {
  accounts : gmap AccountId AccountState;
  contract_code : gmap AccountId bytes;
  contract_storage : gmap (AccountId * bytes) bytes;
  qa_pending : gmap Hash QaPendingRecord;
  registries : RegId → V;
}.
Arguments mkContents {V}.
Arguments accounts {V}.
Arguments contract_code {V}.
Arguments contract_storage {V}.
Arguments qa_pending {V}.
Arguments registries {V}.

Record RootCache := mkCache {
  account_tree : SparseMerkleTree;
  storage_trees : gmap AccountId SparseMerkleTree;
  storage_tree_deep : bool;
  account_tree_deep : bool;
  root_synced : bool;
  dirty_accounts : gset AccountId;
  dirty_slots : gset (AccountId * bytes);
  dirty_qa : gset Hash;
}.

Inductive Undo (V : Type) :=
| UndoAccount (id : AccountId) (prev : option AccountState)
| UndoCode (id : AccountId) (prev : option bytes)
| UndoStorage (k : AccountId * bytes) (prev : option bytes)
| UndoQaPending (k : Hash) (prev : option QaPendingRecord)
| UndoRegistry (r : RegId) (prev : V).
Arguments UndoAccount {V}.
Arguments UndoCode {V}.
Arguments UndoStorage {V}.
Arguments UndoQaPending {V}.
Arguments UndoRegistry {V}.

Record UndoLog (V : Type) := mkLog {
  journal : list (Undo V);
  live : nat;
  last_cp_pos : nat;
  snap_pos : RegId → option nat;
}.
Arguments mkLog {V}.
Arguments journal {V}.
Arguments live {V}.
Arguments last_cp_pos {V}.
Arguments snap_pos {V}.

Record StateStore (V : Type) := mkStore {
  contents : Contents V;
  cache : RootCache;
  undo_log : UndoLog V;
  storage_tree_v2_from : option Z;
  account_tree_v3_from : option Z;
}.
Arguments mkStore {V}.
Arguments contents {V}.
Arguments cache {V}.
Arguments undo_log {V}.
Arguments storage_tree_v2_from {V}.
Arguments account_tree_v3_from {V}.

(** [StateCheckpoint]: a journal position; its token is the store's. *)
Record StateCheckpoint := mkCheckpoint {
  cp_pos : nat;
}.

Section Store.
Context `{Host} {V : Type} `{Registries V} `{Iteration}.

Notation Store := (StateStore V).

Definition set_accounts (c : Contents V) (m : gmap AccountId AccountState) : Contents V :=
  mkContents m (contract_code c) (contract_storage c) (qa_pending c) (registries c).
Definition set_code (c : Contents V) (m : gmap AccountId bytes) : Contents V :=
  mkContents (accounts c) m (contract_storage c) (qa_pending c) (registries c).
Definition set_storage (c : Contents V) (m : gmap (AccountId * bytes) bytes) : Contents V :=
  mkContents (accounts c) (contract_code c) m (qa_pending c) (registries c).
Definition set_qa (c : Contents V) (m : gmap Hash QaPendingRecord) : Contents V :=
  mkContents (accounts c) (contract_code c) (contract_storage c) m (registries c).
Definition set_registry (c : Contents V) (r : RegId) (v : V) : Contents V :=
  mkContents (accounts c) (contract_code c) (contract_storage c) (qa_pending c)
    (λ r', if decide (r' = r) then v else registries c r').

Definition set_contents (st : Store) (c : Contents V) : Store :=
  mkStore c (cache st) (undo_log st) (storage_tree_v2_from st) (account_tree_v3_from st).
Definition set_cache (st : Store) (c : RootCache) : Store :=
  mkStore (contents st) c (undo_log st) (storage_tree_v2_from st) (account_tree_v3_from st).
Definition set_log (st : Store) (l : UndoLog V) : Store :=
  mkStore (contents st) (cache st) l (storage_tree_v2_from st) (account_tree_v3_from st).

Definition set_trees (c : RootCache) (t : SparseMerkleTree) (ts : gmap AccountId SparseMerkleTree)
    : RootCache :=
  mkCache t ts (storage_tree_deep c) (account_tree_deep c) (root_synced c) (dirty_accounts c)
    (dirty_slots c) (dirty_qa c).
Definition set_dirty (c : RootCache) (da : gset AccountId) (ds : gset (AccountId * bytes))
    (dq : gset Hash) : RootCache :=
  mkCache (account_tree c) (storage_trees c) (storage_tree_deep c) (account_tree_deep c) (root_synced c)
    da ds dq.
Definition set_synced (c : RootCache) (b : bool) : RootCache :=
  mkCache (account_tree c) (storage_trees c) (storage_tree_deep c) (account_tree_deep c) b
    (dirty_accounts c) (dirty_slots c) (dirty_qa c).
Definition set_deep (c : RootCache) (sd ad : bool) : RootCache :=
  mkCache (account_tree c) (storage_trees c) sd ad (root_synced c) (dirty_accounts c) (dirty_slots c)
    (dirty_qa c).

Definition push_undo (st : Store) (u : Undo V) : Store :=
  let l := undo_log st in
  set_log st (mkLog (u :: journal l) (live l) (last_cp_pos l) (snap_pos l)).

(** [StateStore::default]; the derived default of the tree has depth 64. *)
Definition new_store : Store :=
  mkStore (mkContents ∅ ∅ ∅ ∅ reg_default)
    (mkCache (with_max_depth LEGACY_MAX_DEPTH) ∅ false false false ∅ ∅ ∅)
    (mkLog [] 0 0 (λ _, None)) None None.

(** ** Reads *)

Definition get (st : Store) (id : AccountId) : option AccountState := accounts (contents st) !! id.

Definition get_contract_code (st : Store) (id : AccountId) : option bytes :=
  contract_code (contents st) !! id.

Definition get_contract_storage (st : Store) (contract : AccountId) (key : bytes) : bytes :=
  default ZERO (contract_storage (contents st) !! (contract, key)).

(** ** Journaling and dirty marks *)

Definition journaling (st : Store) : Store * bool :=
  let l := undo_log st in
  if (0 <? live l)%nat then (st, true)
  else (set_log st (mkLog [] (live l) 0 (λ _, None)), false).

Definition mark_account (id : AccountId) (c : RootCache) : RootCache :=
  if root_synced c
  then set_dirty c ({[id]} ∪ dirty_accounts c) (dirty_slots c) (dirty_qa c) else c.

Definition mark_slot (contract : AccountId) (key : bytes) (c : RootCache) : RootCache :=
  if root_synced c
  then set_dirty c ({[contract]} ∪ dirty_accounts c) ({[(contract, key)]} ∪ dirty_slots c)
         (dirty_qa c)
  else c.

Definition mark_qa (subject : Hash) (c : RootCache) : RootCache :=
  if root_synced c
  then set_dirty c (dirty_accounts c) (dirty_slots c) ({[subject]} ∪ dirty_qa c) else c.

Definition record_account (id : AccountId) (st : Store) : Store :=
  let '(st, on) := journaling (set_cache st (mark_account id (cache st))) in
  if on then push_undo st (UndoAccount id (accounts (contents st) !! id)) else st.

Definition record_storage (contract : AccountId) (key : bytes) (st : Store) : Store :=
  let '(st, on) := journaling (set_cache st (mark_slot contract key (cache st))) in
  if on
  then push_undo st (UndoStorage (contract, key) (contract_storage (contents st) !! (contract, key)))
  else st.

Definition record_qa (subject : Hash) (st : Store) : Store :=
  let '(st, on) := journaling (set_cache st (mark_qa subject (cache st))) in
  if on then push_undo st (UndoQaPending subject (qa_pending (contents st) !! subject)) else st.

Definition snapshot_needed (l : UndoLog V) (snap : option nat) : bool :=
  negb (match snap with
        | Some p => (last_cp_pos l <=? p)%nat && (p <? length (journal l))%nat
        | None => false
        end).

(** ** Writes *)

Definition write_accounts (st : Store) (m : gmap AccountId AccountState) : Store :=
  set_contents st (set_accounts (contents st) m).

(** [get_mut], followed by the write [f] through the borrow it returns. *)
Definition get_mut (id : AccountId) (f : AccountState → AccountState) (st : Store) : Store :=
  let st := if decide (is_Some (get st id)) then record_account id st else st in
  write_accounts st (alter f id (accounts (contents st))).

Definition insert_account (id : AccountId) (a : AccountState) (st : Store) : Store :=
  let st := record_account id st in
  write_accounts st (<[id := a]> (accounts (contents st))).

(** [merge_account] has the body of [insert]. *)
Definition merge_account : AccountId → AccountState → Store → Store := insert_account.

Definition set_contract_code (id : AccountId) (bytecode : bytes) (st : Store) : Store :=
  let '(st, on) := journaling (set_cache st (mark_account id (cache st))) in
  let st := if on then push_undo st (UndoCode id (contract_code (contents st) !! id)) else st in
  set_contents st (set_code (contents st) (<[id := bytecode]> (contract_code (contents st)))).

Definition merge_contract_storage (contract : AccountId) (key value : bytes) (st : Store) : Store :=
  let st := record_storage contract key st in
  set_contents st (set_storage (contents st)
    (<[(contract, key) := value]> (contract_storage (contents st)))).

Definition write_qa (st : Store) (m : gmap Hash QaPendingRecord) : Store :=
  set_contents st (set_qa (contents st) m).

(** [qa_pending_mut], followed by the write [f]. *)
Definition qa_pending_mut (s : Hash) (f : QaPendingRecord → QaPendingRecord) (st : Store) : Store :=
  let st := if decide (is_Some (qa_pending (contents st) !! s)) then record_qa s st else st in
  write_qa st (alter f s (qa_pending (contents st))).

Definition insert_qa_pending (s : Hash) (r : QaPendingRecord) (st : Store) : Store :=
  let st := record_qa s st in
  write_qa st (<[s := r]> (qa_pending (contents st))).

Definition remove_qa_pending (s : Hash) (st : Store) : Store :=
  let st := if decide (is_Some (qa_pending (contents st) !! s)) then record_qa s st else st in
  write_qa st (delete s (qa_pending (contents st))).

Definition load_qa_pending (items : list (Hash * QaPendingRecord)) (st : Store) : Store :=
  let '(st, on) := journaling st in
  let subjects := iter (map_to_list (qa_pending (contents st))).*1 ++ items.*1 in
  let st := if on then foldl (λ st s, record_qa s st) st subjects else st in
  let st := write_qa st (foldl (λ m e, <[e.1 := e.2]> m) ∅ items) in
  set_cache st (set_synced (cache st) false).

(** [*_mut()] of a registry, followed by the write [f]. *)
Definition registry_mut (r : RegId) (f : V → V) (st : Store) : Store :=
  let '(st, on) := journaling st in
  let l := undo_log st in
  let st :=
    if on && snapshot_needed l (snap_pos l r)
    then set_log st (mkLog (UndoRegistry r (registries (contents st) r) :: journal l) (live l)
           (last_cp_pos l)
           (λ r', if decide (r' = r) then Some (length (journal l)) else snap_pos l r'))
    else st in
  set_contents st (set_registry (contents st) r (f (registries (contents st) r))).

(** ** Checkpoints *)

Definition checkpoint (st : Store) : StateCheckpoint * Store :=
  let '(st, _) := journaling st in
  let l := undo_log st in
  let pos := length (journal l) in
  (mkCheckpoint pos, set_log st (mkLog (journal l) (S (live l)) pos (snap_pos l))).

(** A handle going out of scope. *)
Definition drop_checkpoint (st : Store) : Store :=
  let l := undo_log st in
  set_log st (mkLog (journal l) (pred (live l)) (last_cp_pos l) (snap_pos l)).

Definition restore {K A} `{Countable K} (k : K) (prev : option A) (m : gmap K A) : gmap K A :=
  partial_alter (λ _, prev) k m.

(** One arm of the loop of [revert]. *)
Definition undo_contents (u : Undo V) (c : Contents V) : Contents V :=
  match u with
  | UndoAccount id prev => set_accounts c (restore id prev (accounts c))
  | UndoCode id prev => set_code c (restore id prev (contract_code c))
  | UndoStorage k prev => set_storage c (restore k prev (contract_storage c))
  | UndoQaPending k prev => set_qa c (restore k prev (qa_pending c))
  | UndoRegistry r prev => set_registry c r prev
  end.

Definition undo_marks (u : Undo V) (c : RootCache) : RootCache :=
  match u with
  | UndoAccount id _ | UndoCode id _ => mark_account id c
  | UndoStorage k _ => mark_slot k.1 k.2 c
  | UndoQaPending k _ => mark_qa k c
  | UndoRegistry _ _ => c
  end.

(** [while self.journal.len() > cp.pos]. *)
Fixpoint undo_until (pos : nat) (j : list (Undo V)) (c : Contents V) (k : RootCache)
    : list (Undo V) * Contents V * RootCache :=
  match j with
  | [] => ([], c, k)
  | u :: rest =>
      if (pos <? length j)%nat then undo_until pos rest (undo_contents u c) (undo_marks u k)
      else (j, c, k)
  end.

(** [revert] consumes its handle. *)
Definition revert (cp : StateCheckpoint) (st : Store) : Store :=
  let l := undo_log st in
  let '(j, c, k) := undo_until (cp_pos cp) (journal l) (contents st) (cache st) in
  mkStore c k
    (mkLog j (pred (live l)) (last_cp_pos l `min` cp_pos cp)
       (λ r, match snap_pos l r with
             | Some p => if (cp_pos cp <=? p)%nat then None else Some p
             | None => None
             end))
    (storage_tree_v2_from st) (account_tree_v3_from st).

(** ** The state root *)

Definition storage_depth (k : RootCache) : nat :=
  if storage_tree_deep k then DEEP_MAX_DEPTH else LEGACY_MAX_DEPTH.

Definition account_depth (k : RootCache) : nat :=
  if account_tree_deep k then DEEP_MAX_DEPTH else LEGACY_MAX_DEPTH.

Definition reg_key (r : RegId) : bytes := blake3 (reg_domain r).

(** [QaPendingRecord::smt_key] and [commitment_hash]. *)
Definition qa_smt_key (subject : Hash) : bytes :=
  blake3 (ascii_bytes "boing.qa_pending.key.v1"%string ++ subject).

Definition qa_commitment_hash (rec : QaPendingRecord) : Hash :=
  blake3 (ascii_bytes "boing.qa_pending.v1"%string ++ bincode_qa rec).

Definition code_hash_of (c : Contents V) (id : AccountId) : Hash :=
  match contract_code c !! id with
  | Some code => hash_contract_code code
  | None => ZERO
  end.

Definition account_leaf (c : Contents V) (id : AccountId) (storage_root : Hash) : Hash :=
  hash_account_leaf (default AccountState_default (accounts c !! id)) (code_hash_of c id) storage_root.

Definition registry_leaves (c : Contents V) : list (bytes * option Hash) :=
  (λ r, (reg_key r, if reg_is_empty r (registries c r) then None
                    else Some (reg_commitment r (registries c r)))) <$> all_regs.

(** [storage_root_of]: the storage tree of one contract, built from scratch. *)
Definition slots_of (c : Contents V) (contract : AccountId) : list (AccountId * bytes * bytes) :=
  filter (λ e, e.1.1 = contract) (iter (map_to_list (contract_storage c))).

Definition storage_root_of (st : Store) (contract : AccountId) : option Hash :=
  let slots := slots_of (contents st) contract in
  t ← mfold (λ t e, insert_storage_slot t e.1.2 e.2) (with_max_depth (storage_depth (cache st))) slots;
  match slots with
  | [] => Some ZERO
  | _ => snd <$> smt_root t
  end.

(** [entry(c).or_insert_with(..).insert_storage_slot(key, value)]. *)
Definition storage_put (depth : nat) (ts : gmap AccountId SparseMerkleTree) (c : AccountId)
    (key value : bytes) : option (gmap AccountId SparseMerkleTree) :=
  t ← insert_storage_slot (default (with_max_depth depth) (ts !! c)) key value;
  Some (<[c := t]> ts).

(** [self.storage_trees.get_mut(&id).map(|t| t.root())]: a root refreshes the
    hashes cached in the tree. *)
Definition storage_root_mut (ts : gmap AccountId SparseMerkleTree) (id : AccountId)
    : option (gmap AccountId SparseMerkleTree * option Hash) :=
  match ts !! id with
  | None => Some (ts, None)
  | Some t => p ← smt_root t; Some (<[id := p.1]> ts, Some p.2)
  end.

Definition put_leaf (t : SparseMerkleTree) (key : bytes) (leaf : option Hash)
    : option SparseMerkleTree :=
  match leaf with Some h => insert_leaf_hash t key h | None => delete_raw t key end.

Definition build_full (c : Contents V) (k : RootCache)
    : option (SparseMerkleTree * gmap AccountId SparseMerkleTree) :=
  storage_trees ← mfold (λ ts e, storage_put (storage_depth k) ts e.1.1 e.1.2 e.2) ∅
                    (iter (map_to_list (contract_storage c)));
  let ids := dom (accounts c) ∪ dom (contract_code c) ∪ dom storage_trees in
  '(tree, storage_trees) ←
    mfold (λ p id, r ← storage_root_mut p.2 id;
                   t ← insert_leaf_hash p.1 id (account_leaf c id (default ZERO r.2));
                   Some (t, r.1))
      (with_max_depth (account_depth k), storage_trees) (iter (elements ids));
  tree ← mfold (λ t e, insert_leaf_hash t (qa_smt_key e.1) (qa_commitment_hash e.2)) tree
           (iter (map_to_list (qa_pending c)));
  tree ← mfold (λ t e, match e.2 with Some h => insert_leaf_hash t e.1 h | None => Some t end) tree
           (registry_leaves c);
  Some (tree, storage_trees).

Definition state_root_full_rebuild (st : Store) : option Hash :=
  '(tree, storage_trees) ← build_full (contents st) (cache st);
  tree ← mfold (λ t e, insert_leaf_hash t e.1 (account_leaf (contents st) e.1 (reference_root e.2)))
           tree (iter (map_to_list storage_trees));
  Some (reference_root tree).

(** The three incremental loops of [state_root]. *)
Definition refresh_slot (c : Contents V) (depth : nat) (ts : gmap AccountId SparseMerkleTree)
    (slot : AccountId * bytes) : option (gmap AccountId SparseMerkleTree) :=
  match contract_storage c !! slot with
  | Some v => storage_put depth ts slot.1 slot.2 v
  | None =>
      match ts !! slot.1 with
      | Some t =>
          t ← delete_raw t slot.2;
          Some (if smt_is_empty t then delete slot.1 ts else <[slot.1 := t]> ts)
      | None => Some ts
      end
  end.

Definition refresh_account (c : Contents V) (p : SparseMerkleTree * gmap AccountId SparseMerkleTree)
    (id : AccountId) : option (SparseMerkleTree * gmap AccountId SparseMerkleTree) :=
  r ← storage_root_mut p.2 id;
  let exists_ := bool_decide (is_Some (accounts c !! id))
                 || bool_decide (is_Some (contract_code c !! id))
                 || bool_decide (is_Some r.2) in
  t ← (if exists_ then insert_leaf_hash p.1 id (account_leaf c id (default ZERO r.2))
       else delete_raw p.1 id);
  Some (t, r.1).

Definition refresh_qa (c : Contents V) (t : SparseMerkleTree) (subject : Hash)
    : option SparseMerkleTree :=
  put_leaf t (qa_smt_key subject) (qa_commitment_hash <$> qa_pending c !! subject).

Definition state_root (st : Store) : option (Store * Hash) :=
  let c := contents st in
  let k := cache st in
  k ← (if root_synced k then
         ts ← mfold (refresh_slot c (storage_depth k)) (storage_trees k)
                (iter (elements (dirty_slots k)));
         '(t, ts) ← mfold (refresh_account c) (account_tree k, ts)
                      (iter (elements (dirty_accounts k)));
         t ← mfold (refresh_qa c) t (iter (elements (dirty_qa k)));
         t ← mfold (λ t e, put_leaf t e.1 e.2) t (registry_leaves c);
         Some (set_dirty (set_trees k t ts) ∅ ∅ ∅)
       else
         '(t, ts) ← build_full c k;
         Some (set_dirty (set_synced (set_trees k t ts) true) ∅ ∅ ∅));
  p ← smt_root (account_tree k);
  Some (set_cache st (set_trees k p.1 (storage_trees k)), p.2).

Definition switch_depth (want_storage want_account : bool) (k : RootCache) : RootCache :=
  let k := if Bool.eqb want_storage (storage_tree_deep k) then k
           else set_synced (set_deep k want_storage (account_tree_deep k)) false in
  if Bool.eqb want_account (account_tree_deep k) then k
  else set_synced (set_deep k (storage_tree_deep k) want_account) false.

Definition active_at (from : option Z) (height : Z) : bool :=
  match from with Some f => f <=? height | None => false end.

Definition state_root_at_height (height : Z) (st : Store) : option (Store * Hash) :=
  state_root (set_cache st (switch_depth (active_at (storage_tree_v2_from st) height)
                              (active_at (account_tree_v3_from st) height) (cache st))).

Definition set_storage_tree_v2_activation (from : option Z) (st : Store) : Store :=
  mkStore (contents st) (cache st) (undo_log st) from (account_tree_v3_from st).

Definition set_account_tree_v3_activation (from : option Z) (st : Store) : Store :=
  mkStore (contents st) (cache st) (undo_log st) (storage_tree_v2_from st) from.

(** [snapshot]: the caches are carried over, the journal is not. *)
Definition snapshot (st : Store) : Store := set_log st (mkLog [] 0 0 (λ _, None)).

(** ** Proofs *)

Definition prove_account (id : AccountId) (st : Store) : option (Store * option MerkleProof) :=
  p ← state_root st;
  q ← prove (account_tree (cache p.1)) id;
  Some (set_cache p.1 (set_trees (cache p.1) q.1 (storage_trees (cache p.1))), q.2).

Definition prove_storage (contract : AccountId) (slot : bytes) (st : Store)
    : option (option MerkleProof) :=
  let fresh := t ← mfold (λ t e, insert_storage_slot t e.1.2 e.2)
                     (with_max_depth (storage_depth (cache st))) (slots_of (contents st) contract);
               snd <$> prove t slot in
  match contract_storage (contents st) !! (contract, slot) with
  | None => Some None
  | Some _ =>
      if root_synced (cache st) && bool_decide (dirty_slots (cache st) = ∅) then
        match storage_trees (cache st) !! contract with
        | Some t => snd <$> prove t slot
        | None => fresh
        end
      else fresh
  end.

(** ** Bulk operations and queries *)

(** [redenominate]: the accounts in id order, then the bonds. *)
Definition scale_account (factor : Z) (a : AccountState) : AccountState :=
  mkAccountState (sat_mul u128_max (balance a) factor) (nonce a) (sat_mul u128_max (stake a) factor)
    (sat_mul u128_max (pending_unbond a) factor) (unbond_unlock_height a).

Definition redenominate (factor : Z) (st : Store) : Store * nat :=
  let ids := merge_sort (λ a b, Is_true (bytes_leb a b)) (map_to_list (accounts (contents st))).*1 in
  let st := foldl (λ st id, get_mut id (scale_account factor) st) st ids in
  (if ov_any_bond (registries (contents st) OpenValidators)
   then registry_mut OpenValidators (ov_scale_bonds factor) st else st, length ids).

(** [top_stakers]: the accounts by stake, descending, then id, ascending; the
    partial selection before the sort keeps the first [n]. *)
Definition staker_le (a b : AccountId * AccountState) : Prop :=
  stake b.2 < stake a.2 ∨ (stake a.2 = stake b.2 ∧ Is_true (bytes_leb a.1 b.1)).

#[global] Instance staker_le_dec : RelDecision staker_le.
Proof. intros a b. unfold staker_le. apply _. Defined.

Definition top_stakers (n : nat) (st : Store) : list AccountId :=
  (take n (merge_sort staker_le (iter (map_to_list (accounts (contents st)))))).*1.

Record ChainNativeAggregates := mkAggregates {
  account_count : Z;
  total_balance : Z;
  total_stake : Z;
  total_native_held : Z;
}.

Definition compute_native_aggregates (st : Store) : ChainNativeAggregates :=
  let '(n, b, s) :=
    foldl (λ acc a, (sat_add u64_max acc.1.1 1, sat_add u128_max acc.1.2 (balance a),
                     sat_add u128_max acc.2 (stake a)))
      (0, 0, 0) (iter (map_to_list (accounts (contents st)))).*2 in
  mkAggregates n b s (sat_add u128_max b s).

Definition qa_pending_expired (height window : Z) (st : Store) : list Hash :=
  merge_sort (λ a b, Is_true (bytes_leb a b))
    (filter (λ e, sat_add u64_max (qp_entered_height e.2) window <= height)
       (iter (map_to_list (qa_pending (contents st))))).*1.

Definition qa_pending_counts (deployer : AccountId) (st : Store) : nat * nat :=
  (size (qa_pending (contents st)),
   length (filter (λ r, qp_deployer r = deployer) (map_to_list (qa_pending (contents st))).*2)).

(** ** Persistence *)

Record PersistenceBundle := mkBundle {
  pb_accounts : list (AccountId * AccountState);
  pb_contract_code : list (AccountId * bytes);
  pb_contract_storage : list (AccountId * bytes * bytes);
  pb_qa_pending : list (Hash * QaPendingRecord);
  pb_open_validators : V;
  pb_names : V;
}.

Definition export_persistence_bundle (st : Store) : PersistenceBundle :=
  let c := contents st in
  mkBundle (iter (map_to_list (accounts c))) (iter (map_to_list (contract_code c)))
    (iter (map_to_list (contract_storage c))) (iter (map_to_list (qa_pending c)))
    (registries c OpenValidators) (registries c Names).

Definition load_from_persistence (accs : list (AccountId * AccountState))
    (codes : list (AccountId * bytes)) (slots : list (AccountId * bytes * bytes)) : Store :=
  let st := foldl (λ st e, insert_account e.1 e.2 st) new_store accs in
  let st := foldl (λ st e, set_contract_code e.1 e.2 st) st codes in
  foldl (λ st e, merge_contract_storage e.1.1 e.1.2 e.2 st) st slots.

Definition load_persistence_bundle (b : PersistenceBundle) : Store :=
  let st := load_from_persistence (pb_accounts b) (pb_contract_code b) (pb_contract_storage b) in
  let st := load_qa_pending (pb_qa_pending b) st in
  let st := registry_mut OpenValidators (λ _, pb_open_validators b) st in
  registry_mut Names (λ _, pb_names b) st.

(** ** Histories *)

(** One call of the store's interface, with what is written through a borrow. *)
Inductive StoreOp :=
| OpInsert (id : AccountId) (a : AccountState)
| OpGetMut (id : AccountId) (f : AccountState → AccountState)
| OpSetCode (id : AccountId) (bytecode : bytes)
| OpStorage (contract : AccountId) (key value : bytes)
| OpQaMut (s : Hash) (f : QaPendingRecord → QaPendingRecord)
| OpQaInsert (s : Hash) (r : QaPendingRecord)
| OpQaRemove (s : Hash)
| OpLoadQa (items : list (Hash * QaPendingRecord))
| OpRegistry (r : RegId) (f : V → V)
| OpCheckpoint
| OpDrop
| OpRevert (cp : StateCheckpoint)
| OpRoot (height : Z)
| OpProve (id : AccountId)
| OpActivation (v2 v3 : option Z)
| OpSnapshot.

Definition apply_store_op (st : Store) (op : StoreOp) : option Store :=
  match op with
  | OpInsert id a => Some (insert_account id a st)
  | OpGetMut id f => Some (get_mut id f st)
  | OpSetCode id c => Some (set_contract_code id c st)
  | OpStorage c k v => Some (merge_contract_storage c k v st)
  | OpQaMut s f => Some (qa_pending_mut s f st)
  | OpQaInsert s r => Some (insert_qa_pending s r st)
  | OpQaRemove s => Some (remove_qa_pending s st)
  | OpLoadQa items => Some (load_qa_pending items st)
  | OpRegistry r f => Some (registry_mut r f st)
  | OpCheckpoint => Some (checkpoint st).2
  | OpDrop => Some (drop_checkpoint st)
  | OpRevert cp => Some (revert cp st)
  | OpRoot h => fst <$> state_root_at_height h st
  | OpProve id => fst <$> prove_account id st
  | OpActivation v2 v3 =>
      Some (set_account_tree_v3_activation v3 (set_storage_tree_v2_activation v2 st))
  | OpSnapshot => Some (snapshot st)
  end.

Definition run_store : Store → list StoreOp → option Store := mfold apply_store_op.

End Store.

(** ** A small store *)

(** Registries that are always empty, and hash maps iterated in key order: enough
    to run the store on concrete inputs. *)
Module SampleStore.

Definition no_registries : Registries () := {|
  reg_default _ := ();
  reg_is_empty _ _ := true;
  reg_commitment _ _ := ZERO;
  bincode_qa _ := [];
  ov_any_bond _ := false;
  ov_scale_bonds _ v := v;
|}.

Definition in_order : Iteration := {|
  iter _ l := l;
  iter_perm _ l := reflexivity l;
|}.

Definition account (n : Z) : AccountId := replicate 31 0 ++ [n].

End SampleStore.
