(* ===== verification/Tokenomics.v ===== *)
(** * Fees, emission and slashing

    Models [crates/boing-tokenomics/src/lib.rs] and [fee_policy.rs], and
    [boing-primitives/src/denomination.rs]: the fee of a transaction and its
    distribution, priority tips, rewards of QA voters, block emission, and the
    escrows of slashed stake. Amounts are [u128].

    [supply] is the native BOING held by accounts. The laws show that every
    operation here only moves it: what one account loses others gain, with no
    saturation as long as the supply is below [u128::MAX]. *)

From S2P Require Import Prelude Types Merkle Store.

(** ** Units *)

Inductive Denomination := WholeBoing | BaseUnits.

Definition BASE_UNITS_PER_BOING : Z := 10 ^ 18.

Definition denom_unit (d : Denomination) : Z :=
  match d with WholeBoing => 1 | BaseUnits => BASE_UNITS_PER_BOING end.

Definition denom_scale (d : Denomination) (whole_boing : Z) : Z :=
  sat_mul u128_max whole_boing (denom_unit d).

(** ** Parameters *)

Definition INITIAL_SUPPLY : Z := 1000000000.
Definition BLOCK_TIME_SECS : Z := 2.
Definition BLOCK_EMISSION_PROPOSER_BPS : Z := 7000.
Definition GAS_PRICE : Z := 1.
Definition GAS_PRICE_BASE_UNITS : Z := 1000000000000.
Definition GAS_UNITS_PER_BOING : Z := 21000.
Definition EMISSION_YEAR_1_BPS : Z := 800.
Definition EMISSION_FLOOR_BPS : Z := 100.
Definition EMISSION_DECAY_BPS : Z := 8500.
Definition UNBONDING_DELAY_BLOCKS : Z := 100.
Definition EQUIVOCATION_SLASH_BPS : Z := 5000.
Definition EQUIVOCATION_APPEAL_WINDOW_BLOCKS : Z := 1000.
Definition LIVENESS_SLASH_BPS : Z := 1000.
Definition BLOCKS_PER_YEAR : Z := (365 * 24 * 3600) `div` BLOCK_TIME_SECS.

(** ["TREASURY"], ["BURN"] and ["SLASH"] prefixes with a final 1. *)
Definition PROTOCOL_TREASURY : AccountId :=
  [0x54; 0x52; 0x45; 0x41; 0x53; 0x55; 0x52; 0x59] ++ replicate 23 0 ++ [1].
Definition FEE_BURN_SINK : AccountId := [66; 85; 82; 78] ++ replicate 27 0 ++ [1].
Definition slash_escrow_account (slash_id : Z) : AccountId :=
  [83; 76; 65; 83; 72] ++ replicate 3 0 ++ le_bytes 8 slash_id ++ replicate 15 0 ++ [1].

(** ** The fee policy *)

Record NetworkFeePolicy := mkFeePolicy {
  fee_validators_bps : Z;
  fee_treasury_bps : Z;
  fee_burn_bps : Z;
  extra_fixed_fee : Z;
  transfer_amount_bps : Z;
  blob_base_fee_per_kib : Z;
  blob_forever_pin_fee_per_kib : Z;
  blob_pin_renew_fee_per_kib_block : Z;
  blob_sample_fee_per_chunk : Z;
  execution_gas_fee_bps : Z;
  free_tx_min_balance : Z;
  tip_proposer_bps : Z;
  tip_treasury_bps : Z;
  tip_burn_bps : Z;
}.

Definition treasury_default : NetworkFeePolicy :=
  mkFeePolicy 0 10000 0 0 0 0 0 0 0 10000 0 10000 0 0.

Definition MICRO_FEE_EXECUTION_GAS_BPS : Z := 100.

Definition set_execution_gas_fee_bps (p : NetworkFeePolicy) (bps : Z) : NetworkFeePolicy :=
  mkFeePolicy (fee_validators_bps p) (fee_treasury_bps p) (fee_burn_bps p) (extra_fixed_fee p)
    (transfer_amount_bps p) (blob_base_fee_per_kib p) (blob_forever_pin_fee_per_kib p)
    (blob_pin_renew_fee_per_kib_block p) (blob_sample_fee_per_chunk p) bps
    (free_tx_min_balance p) (tip_proposer_bps p) (tip_treasury_bps p) (tip_burn_bps p).

Definition micro_fee_default : NetworkFeePolicy :=
  set_execution_gas_fee_bps treasury_default MICRO_FEE_EXECUTION_GAS_BPS.

Definition legacy_proposer_split : NetworkFeePolicy :=
  mkFeePolicy 7000 2000 1000 0 0 0 0 0 0 10000 0 10000 0 0.

(** [saturating_add] at [u16]. *)
Definition u16_max : Z := 65535.

Definition fee_policy_validate (p : NetworkFeePolicy) : bool :=
  let sum := sat_add u16_max (sat_add u16_max (fee_validators_bps p) (fee_treasury_bps p))
               (fee_burn_bps p) in
  let tip_sum := sat_add u16_max (sat_add u16_max (tip_proposer_bps p) (tip_treasury_bps p))
                   (tip_burn_bps p) in
  (sum =? 10000) && (tip_sum =? 10000) && (transfer_amount_bps p <=? 10000)
    && (execution_gas_fee_bps p <=? 10000).

(** A policy whose fields are in the range of their types. *)
Definition fee_policy_typed (p : NetworkFeePolicy) : Prop :=
  Forall (λ b, 0 ≤ b ≤ u16_max)
    [fee_validators_bps p; fee_treasury_bps p; fee_burn_bps p; transfer_amount_bps p;
     execution_gas_fee_bps p; tip_proposer_bps p; tip_treasury_bps p; tip_burn_bps p] ∧
  Forall in_u128
    [extra_fixed_fee p; blob_base_fee_per_kib p; blob_forever_pin_fee_per_kib p;
     blob_pin_renew_fee_per_kib_block p; blob_sample_fee_per_chunk p].

(** ** Fees *)

(** [amount.saturating_mul(bps) / 10_000]. *)
Definition share (amount bps : Z) : Z := sat_mul u128_max amount bps `div` 10000.

Inductive FeeRemainder := RemTreasury | RemValidators.

(** The shares of proposer, treasury and burn. *)
Definition split_fee_with_remainder (fee : Z) (p : NetworkFeePolicy) (remainder : FeeRemainder)
    : Z * Z * Z :=
  let validators := share fee (fee_validators_bps p) in
  let treasury := share fee (fee_treasury_bps p) in
  let burn := share fee (fee_burn_bps p) in
  let allocated := sat_add u128_max (sat_add u128_max validators treasury) burn in
  if fee <? allocated then (0, fee, 0)
  else
    let rest := fee - allocated in
    match remainder with
    | RemTreasury => (validators, sat_add u128_max treasury rest, burn)
    | RemValidators => (sat_add u128_max validators rest, treasury, burn)
    end.

Definition split_tip (tip : Z) (p : NetworkFeePolicy) : Z * Z * Z :=
  let to_proposer := share tip (tip_proposer_bps p) in
  let to_treasury := share tip (tip_treasury_bps p) in
  let to_burn := share tip (tip_burn_bps p) in
  let allocated := sat_add u128_max (sat_add u128_max to_proposer to_treasury) to_burn in
  if tip <? allocated then (tip, 0, 0)
  else (sat_add u128_max to_proposer (tip - allocated), to_treasury, to_burn).

Definition fee_for_gas (gas_used : Z) : Z :=
  if gas_used =? 0 then 0
  else
    let num := sat_mul u128_max gas_used GAS_PRICE in
    sat_add u128_max num (sat_sub GAS_UNITS_PER_BOING 1) `div` GAS_UNITS_PER_BOING.

Definition fee_for_gas_in (gas_used : Z) (d : Denomination) : Z :=
  match d with
  | WholeBoing => fee_for_gas gas_used
  | BaseUnits => sat_mul u128_max gas_used GAS_PRICE_BASE_UNITS
  end.

Definition execution_gas_fee_in (gas_used : Z) (p : NetworkFeePolicy) (d : Denomination) : Z :=
  let full := fee_for_gas_in gas_used d in
  if execution_gas_fee_bps p =? 0 then 0
  else if 10000 <=? execution_gas_fee_bps p then full
  else share full (execution_gas_fee_bps p).

Definition blob_size_fee (size : Z) (r : BlobRetention) (p : NetworkFeePolicy) : Z :=
  let kib := Z.max 1 (div_ceil size 1024) in
  let fee := if 0 <? blob_base_fee_per_kib p
             then sat_add u128_max 0 (sat_mul u128_max kib (blob_base_fee_per_kib p)) else 0 in
  if is_forever r && (0 <? blob_forever_pin_fee_per_kib p)
  then sat_add u128_max fee (sat_mul u128_max kib (blob_forever_pin_fee_per_kib p)) else fee.

Definition blob_data_fee (payload : TransactionPayload) (p : NetworkFeePolicy) : Z :=
  match payload with
  | PutBlob r _ data => blob_size_fee (Z.of_nat (length data)) r p
  | BlobAnnounce _ size r _ => blob_size_fee size r p
  | RenewMediaBlobPin _ size extend_blocks =>
      if blob_pin_renew_fee_per_kib_block p =? 0 then 0
      else
        let kib := Z.max 1 (div_ceil size 1024) in
        sat_mul u128_max (sat_mul u128_max kib extend_blocks) (blob_pin_renew_fee_per_kib_block p)
  | PayBlobSample _ _ _ | SettleBlobSampleMatch _ _ _ _ => blob_sample_fee_per_chunk p
  | _ => 0
  end.

Definition network_fee_amount_in (gas_used : Z) (payload : TransactionPayload)
    (p : NetworkFeePolicy) (d : Denomination) : Z :=
  let gas_fee := execution_gas_fee_in gas_used p d in
  let bps_fee :=
    match payload with
    | Transfer _ _ | ContractCallWithValue _ _ _ | Batch _ =>
        if 0 <? transfer_amount_bps p
        then share (native_transfer_total payload) (transfer_amount_bps p) else 0
    | _ => 0
    end in
  sat_add u128_max
    (sat_add u128_max (sat_add u128_max gas_fee (extra_fixed_fee p)) bps_fee)
    (blob_data_fee payload p).

(** ** Emission *)

(** The loop over the elapsed years, left when the floor is reached. *)
Fixpoint decay_years (year : nat) (floor emission : Z) : Z :=
  match year with
  | O => emission
  | S year =>
      let emission := (emission * EMISSION_DECAY_BPS) `div` 10000 in
      if emission <=? floor then emission else decay_years year floor emission
  end.

Definition emission_floor : Z :=
  ((INITIAL_SUPPLY * BASE_UNITS_PER_BOING * EMISSION_FLOOR_BPS) `div` 10000) `div` BLOCKS_PER_YEAR.

Definition emission_year_1 : Z :=
  ((INITIAL_SUPPLY * BASE_UNITS_PER_BOING * EMISSION_YEAR_1_BPS) `div` 10000) `div` BLOCKS_PER_YEAR.

Definition block_emission_validators_base_units (block_height : Z) : Z :=
  if block_height =? 0 then 0
  else
    let year := (block_height - 1) `div` BLOCKS_PER_YEAR in
    let emission := decay_years (Z.to_nat year) emission_floor emission_year_1 in
    (Z.max emission emission_floor * BLOCK_EMISSION_PROPOSER_BPS) `div` 10000.

Definition block_emission_validators_in (block_height : Z) (d : Denomination) : Z :=
  let base := block_emission_validators_base_units block_height in
  match d with BaseUnits => base | WholeBoing => base `div` BASE_UNITS_PER_BOING end.

(** ** Accounts *)

Definition set_balance (a : AccountState) (b : Z) : AccountState :=
  mkAccountState b (nonce a) (stake a) (pending_unbond a) (unbond_unlock_height a).
Definition set_nonce (a : AccountState) (n : Z) : AccountState :=
  mkAccountState (balance a) n (stake a) (pending_unbond a) (unbond_unlock_height a).
Definition set_stake (a : AccountState) (s : Z) : AccountState :=
  mkAccountState (balance a) (nonce a) s (pending_unbond a) (unbond_unlock_height a).
Definition set_pending (a : AccountState) (p h : Z) : AccountState :=
  mkAccountState (balance a) (nonce a) (stake a) p h.

(** An account created by a credit. *)
Definition with_balance (amount : Z) : AccountState := mkAccountState amount 0 0 0 0.

Section Operations.
Context {V : Type}.

Notation Store := (StateStore V).

(** [state.get_mut(id).ok_or(missing)?] and the statements on the borrow: they
    keep their writes when they fail. *)
Definition with_account {E A} (id : AccountId) (missing : E) (m : ST AccountState E A)
    : ST Store E A := λ st,
  match get st id with
  | None => (Err missing, st)
  | Some a => let '(r, a') := m a in (r, get_mut id (λ _, a') st)
  end.

(** [state.get(id).map(|s| s.balance).unwrap_or(0)]; the stake likewise. *)
Definition balance_of (st : Store) (id : AccountId) : Z := from_option balance 0 (get st id).
Definition stake_in (st : Store) (id : AccountId) : Z := from_option stake 0 (get st id).

Definition credit_account (id : AccountId) (amount : Z) (st : Store) : Store :=
  if amount =? 0 then st
  else match get st id with
  | Some _ => get_mut id (λ s, set_balance s (sat_add u128_max (balance s) amount)) st
  | None => insert_account id (with_balance amount) st
  end.

(** ** Charging *)

Inductive FeeError := SenderMissing | FeeInsufficientBalance (have need : Z).

(** The debit that both charges start with. *)
Definition debit_fee (sender : AccountId) (fee : Z) : ST Store FeeError () :=
  with_account sender SenderMissing
    (a ← st_get;
     _ ← st_require (fee <=? balance a) (FeeInsufficientBalance (balance a) fee);
     st_put (set_balance a (balance a - fee))).

(** The credits of proposer, treasury and burn. *)
Definition distribute (recipient : AccountId) (s : Z * Z * Z) (st : Store) : Store :=
  credit_account FEE_BURN_SINK s.2
    (credit_account PROTOCOL_TREASURY s.1.2 (credit_account recipient s.1.1 st)).

Definition charge_and_distribute_fee_with_remainder (sender : AccountId) (fee : Z)
    (fee_recipient : AccountId) (p : NetworkFeePolicy) (remainder : FeeRemainder)
    : ST Store FeeError () :=
  if fee =? 0 then mret ()
  else
    _ ← debit_fee sender fee;
    st_modify (distribute fee_recipient (split_fee_with_remainder fee p remainder)).

Definition charge_priority_tip (sender : AccountId) (tip : Z) (fee_recipient : AccountId)
    (p : NetworkFeePolicy) : ST Store FeeError () :=
  if tip =? 0 then mret ()
  else
    _ ← debit_fee sender tip;
    st_modify (distribute fee_recipient (split_tip tip p)).

(** What each voter gets, out of a treasury of [available]. *)
Definition reward_share (voters : Z) (reward_each available : Z) : Z :=
  if sat_mul u128_max reward_each voters <=? available then reward_each else available `div` voters.

Definition reward_total (voters : Z) (reward_each available : Z) : Z :=
  let want := sat_mul u128_max reward_each voters in
  if want <=? available then want else sat_mul u128_max (available `div` voters) voters.

Definition pay_qa_counted_voters (voters : list AccountId) (reward_each : Z) (st : Store)
    : Z * Store :=
  let n := Z.of_nat (length voters) in
  let available := balance_of st PROTOCOL_TREASURY in
  if (n =? 0) || (reward_each =? 0) || (available =? 0) then (0, st)
  else
    let per := reward_share n reward_each available in
    let total := reward_total n reward_each available in
    if per =? 0 then (0, st)
    else
      let st := get_mut PROTOCOL_TREASURY (λ t, set_balance t (sat_sub (balance t) total)) st in
      (total, foldl (λ st v, credit_account v per st) st voters).

(** ** Slashing *)

Definition slashable_stake (a : AccountState) : Z := sat_add u128_max (stake a) (pending_unbond a).

Definition debit_slashable (amount : Z) (a : AccountState) : AccountState :=
  let from_stake := Z.min amount (stake a) in
  let a := set_stake a (sat_sub (stake a) from_stake) in
  set_pending a (sat_sub (pending_unbond a) (sat_sub amount from_stake)) (unbond_unlock_height a).

(** The amount to slash of a positive [slashable]. *)
Definition slash_amount (slashable bps : Z) : Z :=
  let amount := share slashable bps in
  if amount =? 0 then Z.min 1 slashable else amount.

(** The body shared by the two slashes. *)
Definition slash_stake (bps : Z) (validator : AccountId) (slash_id : Z) (st : Store) : Z * Store :=
  match get st validator with
  | None => (0, st)
  | Some a =>
      let slashable := slashable_stake a in
      if slashable =? 0 then (0, get_mut validator id st)
      else
        let amount := slash_amount slashable bps in
        (amount, credit_account (slash_escrow_account slash_id) amount
                   (get_mut validator (debit_slashable amount) st))
  end.

Definition slash_equivocation_stake : AccountId → Z → Store → Z * Store :=
  slash_stake EQUIVOCATION_SLASH_BPS.

Definition slash_liveness_stake : AccountId → Z → Store → Z * Store :=
  slash_stake LIVENESS_SLASH_BPS.

Inductive SlashRestoreError := InsufficientEscrow (slash_id needed available : Z).

Definition debit_balance (amount : Z) (a : AccountState) : AccountState :=
  set_balance a (sat_sub (balance a) amount).

Definition debit_slash_restore_source (slash_id amount : Z) : ST Store SlashRestoreError () := λ st,
  if amount =? 0 then (Ok (), st)
  else
    let escrow := slash_escrow_account slash_id in
    let escrow_bal := balance_of st escrow in
    if amount <=? escrow_bal then (Ok (), get_mut escrow (debit_balance amount) st)
    else if 0 <? escrow_bal then (Err (InsufficientEscrow slash_id amount escrow_bal), st)
    else
      let sink_bal := balance_of st FEE_BURN_SINK in
      if sink_bal <? amount then (Err (InsufficientEscrow slash_id amount sink_bal), st)
      else (Ok (), get_mut FEE_BURN_SINK (debit_balance amount) st).

Definition restore_equivocation_slash (validator : AccountId) (slash_id amount : Z)
    : ST Store SlashRestoreError Z :=
  _ ← debit_slash_restore_source slash_id amount;
  if amount =? 0 then mret 0
  else
    _ ← st_modify (λ st,
      match get st validator with
      | Some _ => get_mut validator (λ a, set_stake a (sat_add u128_max (stake a) amount)) st
      | None => insert_account validator (mkAccountState 0 0 amount 0 0) st
      end);
    mret amount.

Definition restore_failed_serve_penalty (provider : AccountId) (slash_id amount : Z)
    : ST Store SlashRestoreError Z :=
  _ ← debit_slash_restore_source slash_id amount;
  if amount =? 0 then mret 0
  else
    _ ← st_modify (λ st,
      match get st provider with
      | Some _ => get_mut provider (λ a, set_balance a (sat_add u128_max (balance a) amount)) st
      | None => insert_account provider (with_balance amount) st
      end);
    mret amount.

End Operations.

(** ** Where the native BOING is *)

Definition native (a : AccountState) : Z := balance a + stake a + pending_unbond a.

(** No negative amounts. *)
Definition funds (a : AccountState) : Prop := 0 ≤ balance a ∧ 0 ≤ stake a ∧ 0 ≤ pending_unbond a.

#[export] Instance funds_dec a : Decision (funds a).
Proof. unfold funds. apply _. Defined.

Module MoneyLaws.

Section Laws.
Context {V : Type}.

Notation Store := (StateStore V).
Implicit Types st : Store.

Definition supply st : Z := map_sum native (accounts (contents st)).

Definition funds_ok st : Prop := map_Forall (λ _ a, funds a) (accounts (contents st)).

Lemma contents_record_account id st : contents (record_account id st) = contents st.
Proof. unfold record_account, journaling. simpl. by destruct (0 <? live (undo_log st))%nat. Qed.

Lemma accounts_get_mut id f st :
  accounts (contents (get_mut id f st)) = alter f id (accounts (contents st)).
Proof. unfold get_mut. simpl. case_decide; by rewrite ?contents_record_account. Qed.

Lemma accounts_insert id a st :
  accounts (contents (insert_account id a st)) = <[id := a]> (accounts (contents st)).
Proof. unfold insert_account. simpl. by rewrite contents_record_account. Qed.

Lemma get_get_mut id f st j :
  get (get_mut id f st) j = if decide (j = id) then f <$> get st id else get st j.
Proof.
  unfold get. rewrite accounts_get_mut. case_decide as Hj.
  - subst. apply lookup_alter_eq.
  - by apply lookup_alter_ne.
Qed.

Lemma get_insert id a st j :
  get (insert_account id a st) j = if decide (j = id) then Some a else get st j.
Proof.
  unfold get. rewrite accounts_insert. case_decide as Hj.
  - subst. apply lookup_insert_eq.
  - by apply lookup_insert_ne.
Qed.

Lemma native_nonneg a : funds a → 0 ≤ native a.
Proof. unfold funds, native. lia. Qed.

Lemma native_le_supply st id a : funds_ok st → get st id = Some a → 0 ≤ native a ≤ supply st.
Proof.
  intros Hf Ha. split; [apply native_nonneg; by apply (Hf id)|]. eapply map_sum_le; [|done].
  intros i x Hx. apply native_nonneg. by apply (Hf i).
Qed.

Lemma supply_get_mut id f st a :
  get st id = Some a → supply (get_mut id f st) = supply st - native a + native (f a).
Proof. intros Ha. unfold supply, get in *. rewrite accounts_get_mut, map_sum_alter, Ha. done. Qed.

Lemma supply_insert id a st : get st id = None → supply (insert_account id a st) = supply st + native a.
Proof. intros Ha. unfold supply, get in *. rewrite accounts_insert, map_sum_fresh by done. lia. Qed.

Lemma funds_get_mut id f st :
  funds_ok st → (∀ a, get st id = Some a → funds a → funds (f a)) → funds_ok (get_mut id f st).
Proof.
  intros Hst Hf j a. fold (get (get_mut id f st) j). rewrite get_get_mut. case_decide as Hj.
  - subst. intros [b [Hb ->]]%fmap_Some. apply Hf; [done|by apply (Hst id)].
  - apply Hst.
Qed.

Lemma funds_insert id a st : funds_ok st → funds a → funds_ok (insert_account id a st).
Proof.
  intros Hst Ha j b. fold (get (insert_account id a st) j). rewrite get_insert. case_decide.
  - by intros [= <-].
  - apply Hst.
Qed.

(** ** What a transfer of funds leaves alone *)

Definition nonce_at st (id : AccountId) : Z := from_option nonce 0 (get st id).

(** Nonces, code, storage, pending items and registries are kept. *)
Record only_funds (st st' : Store) : Prop := {
  of_nonce : ∀ id, nonce_at st' id = nonce_at st id;
  of_code : contract_code (contents st') = contract_code (contents st);
  of_storage : contract_storage (contents st') = contract_storage (contents st);
  of_qa : qa_pending (contents st') = qa_pending (contents st);
  of_registries : registries (contents st') = registries (contents st);
}.

#[global] Instance only_funds_preorder : PreOrder only_funds.
Proof. split; [by constructor|]. intros s1 s2 s3 [] []. constructor; congruence. Qed.

Lemma only_funds_get_mut id f st :
  (∀ a, get st id = Some a → nonce (f a) = nonce a) → only_funds st (get_mut id f st).
Proof.
  intros Hf. unfold get_mut. constructor; try by (case_decide; simpl; rewrite ?contents_record_account).
  intros j. unfold nonce_at. fold (get_mut id f st). rewrite get_get_mut. case_decide; [|done]. subst.
  destruct (get st id) eqn:E; simpl; auto.
Qed.

Lemma only_funds_insert id a st : get st id = None → nonce a = 0 → only_funds st (insert_account id a st).
Proof.
  intros Hid Ha. unfold insert_account. constructor; try by (simpl; rewrite ?contents_record_account).
  intros j. unfold nonce_at. fold (insert_account id a st). rewrite get_insert. case_decide; [|done].
  subst. by rewrite Hid.
Qed.

Lemma only_funds_credit id amount st : only_funds st (credit_account id amount st).
Proof.
  unfold credit_account. case_match; [done|]. case_match; [|by apply only_funds_insert].
  by apply only_funds_get_mut.
Qed.

(** ** Credits *)

Lemma credit_supply id amount st :
  funds_ok st → 0 ≤ amount → supply st + amount ≤ u128_max →
  funds_ok (credit_account id amount st) ∧ supply (credit_account id amount st) = supply st + amount.
Proof.
  intros Hst Ha Hcap. unfold credit_account. destruct (Z.eqb_spec amount 0) as [->|Hne]; [split; [done|lia]|].
  destruct (get st id) as [a|] eqn:E.
  - pose proof (native_le_supply st id a Hst E). specialize (Hst id a E) as Hfa. simpl in Hfa.
    assert (sat_add u128_max (balance a) amount = balance a + amount) as Hs.
    { unfold funds, native in *. unfold_sat. lia. }
    split.
    + apply funds_get_mut; [done|]. intros b Hb [??]. unfold funds in *. simpl. unfold_sat. lia.
    + rewrite (supply_get_mut _ _ _ _ E). unfold native. simpl. rewrite Hs. lia.
  - split; [apply funds_insert; [done|unfold funds; simpl; lia]|].
    rewrite supply_insert by done. unfold native. simpl. lia.
Qed.

Lemma credit_other id amount st j : j ≠ id → get (credit_account id amount st) j = get st j.
Proof.
  intros Hj. unfold credit_account. case_match; [done|].
  case_match; rewrite ?get_get_mut, ?get_insert; by rewrite decide_False.
Qed.

Lemma credit_balance id amount st j :
  funds_ok st → 0 ≤ amount → supply st + amount ≤ u128_max →
  balance_of (credit_account id amount st) j = balance_of st j + if decide (j = id) then amount else 0.
Proof.
  intros Hst Ha Hcap. unfold balance_of, credit_account.
  destruct (Z.eqb_spec amount 0) as [->|Hne]; [case_decide; lia|].
  destruct (get st id) as [a|] eqn:E.
  - pose proof (native_le_supply st id a Hst E). specialize (Hst id a E) as Hfa. simpl in Hfa.
    rewrite get_get_mut. case_decide; [|lia]. subst. rewrite E. simpl.
    unfold funds, native in *. unfold_sat. lia.
  - rewrite get_insert. case_decide; [|lia]. subst. by rewrite E.
Qed.

Lemma distribute_supply r s st :
  funds_ok st → 0 ≤ s.1.1 → 0 ≤ s.1.2 → 0 ≤ s.2 → supply st + (s.1.1 + s.1.2 + s.2) ≤ u128_max →
  funds_ok (distribute r s st) ∧ supply (distribute r s st) = supply st + (s.1.1 + s.1.2 + s.2).
Proof.
  intros Hst H1 H2 H3 Hcap. unfold distribute.
  destruct (credit_supply r s.1.1 st) as [Hf1 Hs1]; [done..|lia|].
  destruct (credit_supply PROTOCOL_TREASURY s.1.2 (credit_account r s.1.1 st)) as [Hf2 Hs2]; [done..|lia|].
  destruct (credit_supply FEE_BURN_SINK s.2
    (credit_account PROTOCOL_TREASURY s.1.2 (credit_account r s.1.1 st))) as [Hf3 Hs3]; [done..|lia|].
  split; [done|lia].
Qed.

Lemma only_funds_distribute r s st : only_funds st (distribute r s st).
Proof. unfold distribute. do 2 (etrans; [|apply only_funds_credit]). apply only_funds_credit. Qed.

(** ** Splits *)

(** A share never exceeds a ten-thousandth of [u128::MAX]: sums of shares do not saturate. *)
Lemma share_bounds amount bps : 0 ≤ amount → 0 ≤ bps → 0 ≤ share amount bps ≤ 34028236692093846346337460743176821.
Proof.
  intros. unfold share, sat_mul. split; [apply Z.div_pos; [|lia]; unfold u128_max; nia|].
  change 34028236692093846346337460743176821 with (u128_max `div` 10000). apply Z.div_le_mono; lia.
Qed.

Lemma share_le amount bps : 0 ≤ amount → 0 ≤ bps ≤ 10000 → share amount bps ≤ amount.
Proof.
  intros. unfold share, sat_mul. apply Z.div_le_upper_bound; [lia|]. nia.
Qed.

Lemma split_fee_exact fee p rem :
  fee_policy_typed p → in_u128 fee →
  let s := split_fee_with_remainder fee p rem in
  0 ≤ s.1.1 ∧ 0 ≤ s.1.2 ∧ 0 ≤ s.2 ∧ s.1.1 + s.1.2 + s.2 = fee.
Proof.
  intros [Hb _] Hfee. repeat (apply Forall_cons in Hb as [? Hb]).
  pose proof (share_bounds fee (fee_validators_bps p)). pose proof (share_bounds fee (fee_treasury_bps p)).
  pose proof (share_bounds fee (fee_burn_bps p)). unfold split_fee_with_remainder. unfold in_u128 in Hfee.
  case_match; [simpl; lia|]. bool_to_prop. unfold_sat. unfold u128_max in *. destruct rem; simpl; lia.
Qed.

Lemma split_tip_exact tip p :
  fee_policy_typed p → in_u128 tip →
  let s := split_tip tip p in 0 ≤ s.1.1 ∧ 0 ≤ s.1.2 ∧ 0 ≤ s.2 ∧ s.1.1 + s.1.2 + s.2 = tip.
Proof.
  intros [Hb _] Htip. repeat (apply Forall_cons in Hb as [? Hb]).
  pose proof (share_bounds tip (tip_proposer_bps p)). pose proof (share_bounds tip (tip_treasury_bps p)).
  pose proof (share_bounds tip (tip_burn_bps p)). unfold split_tip. unfold in_u128 in Htip.
  case_match; [simpl; lia|]. bool_to_prop. unfold_sat. unfold u128_max in *. simpl. lia.
Qed.

(** ** Charging fees and tips *)

Lemma debit_fee_ok sender fee st st' :
  debit_fee sender fee st = (Ok (), st') →
  ∃ a, get st sender = Some a ∧ fee ≤ balance a ∧
    st' = get_mut sender (λ _, set_balance a (balance a - fee)) st.
Proof.
  unfold debit_fee, with_account. destruct (get st sender) as [a|]; [|done]. st_unfold.
  destruct (Z.leb_spec fee (balance a)); intros [= <-]. eauto.
Qed.

Lemma debit_fee_err sender fee st e st' :
  debit_fee sender fee st = (Err e, st') →
  accounts (contents st') = accounts (contents st) ∧ only_funds st st' ∧
  (get st sender = None ∨ balance_of st sender < fee).
Proof.
  unfold debit_fee, with_account, balance_of. destruct (get st sender) as [a|] eqn:E; st_unfold.
  - destruct (Z.leb_spec fee (balance a)); [done|]. intros [= <- <-]. split_and!; [| |by right].
    + rewrite accounts_get_mut. apply map_eq. intros j. destruct (decide (j = sender)) as [->|].
      * unfold get in E. by rewrite lookup_alter_eq, E.
      * by rewrite lookup_alter_ne.
    + apply only_funds_get_mut. by intros b [= <-]%(λ H, eq_trans (eq_sym E) H).
  - intros [= <- <-]. split_and!; [done|done|by left].
Qed.

Lemma debit_fee_effect sender fee st st' :
  funds_ok st → 0 ≤ fee → debit_fee sender fee st = (Ok (), st') →
  funds_ok st' ∧ supply st' = supply st - fee ∧ only_funds st st' ∧ 0 ≤ supply st' ∧
  ∀ id, balance_of st' id = balance_of st id - if decide (id = sender) then fee else 0.
Proof.
  intros Hst Hfee (a & Ha & Hle & ->)%debit_fee_ok. pose proof (Hst sender a Ha) as Hfa. simpl in Hfa.
  pose proof (native_le_supply st sender a Hst Ha) as Hn.
  rewrite (supply_get_mut _ _ _ _ Ha). unfold funds, native in *. simpl in *.
  split_and!; [|lia| |lia|].
  - apply funds_get_mut; [done|]. intros b _ _. unfold funds. simpl. lia.
  - apply only_funds_get_mut. rewrite Ha. by intros b [= ->].
  - intros j. unfold balance_of. rewrite get_get_mut. case_decide; [|lia]. subst. by rewrite Ha.
Qed.

(** The debit of [amount] and the credits of shares that sum up to it. *)
Lemma debit_distribute sender amount r s st st1 :
  funds_ok st → supply st ≤ u128_max → 0 ≤ amount →
  0 ≤ s.1.1 → 0 ≤ s.1.2 → 0 ≤ s.2 → s.1.1 + s.1.2 + s.2 = amount →
  debit_fee sender amount st = (Ok (), st1) →
  let st' := distribute r s st1 in
  funds_ok st' ∧ supply st' = supply st ∧ only_funds st st' ∧
  ∀ id, balance_of st' id = balance_of st id - (if decide (id = sender) then amount else 0)
    + (if decide (id = r) then s.1.1 else 0) + (if decide (id = PROTOCOL_TREASURY) then s.1.2 else 0)
    + (if decide (id = FEE_BURN_SINK) then s.2 else 0).
Proof.
  intros Hst Hcap Ha H1 H2 H3 Hsum Hd st'.
  destruct (debit_fee_effect _ _ _ _ Hst Ha Hd) as (Hf1 & Hs1 & Ho1 & _ & Hb1).
  destruct (distribute_supply r s st1) as [Hf2 Hs2]; [done..|lia|].
  split_and!; [done|unfold st'; lia|etrans; [done|apply only_funds_distribute]|].
  destruct (credit_supply r s.1.1 st1) as [Hfa Hsa]; [done..|lia|].
  destruct (credit_supply PROTOCOL_TREASURY s.1.2 (credit_account r s.1.1 st1)) as [Hfb Hsb]; [done..|lia|].
  intros id. unfold st', distribute. rewrite !credit_balance, Hb1 by (try done; lia). lia.
Qed.

(** C26: a fee is exactly what the sender loses. For any policy (typed, the split
    need not be valid) and any recipient, charging moves [fee] from the sender to
    proposer, treasury and burn sink in shares that sum up to it; the supply, the
    nonces, code, storage and registries are kept. It fails only when the sender is
    missing or cannot pay, and then no account changes. *)
Theorem fee_charge_exact sender fee r p rem st res st' :
  fee_policy_typed p → in_u128 fee → funds_ok st → supply st ≤ u128_max →
  charge_and_distribute_fee_with_remainder sender fee r p rem st = (res, st') →
  let s := split_fee_with_remainder fee p rem in
  only_funds st st' ∧
  match res with
  | Ok _ =>
      supply st' = supply st ∧ funds_ok st' ∧
      ∀ id, balance_of st' id = balance_of st id - (if decide (id = sender) then fee else 0)
        + (if decide (id = r) then s.1.1 else 0) + (if decide (id = PROTOCOL_TREASURY) then s.1.2 else 0)
        + (if decide (id = FEE_BURN_SINK) then s.2 else 0)
  | Err _ =>
      accounts (contents st') = accounts (contents st) ∧ fee ≠ 0 ∧
      (get st sender = None ∨ balance_of st sender < fee)
  end.
Proof.
  intros Hp Hfee Hst Hcap Hc s. destruct (split_fee_exact fee p rem Hp Hfee) as (H1 & H2 & H3 & Hsum).
  unfold charge_and_distribute_fee_with_remainder in Hc. destruct (Z.eqb_spec fee 0) as [->|Hne].
  - injection Hc as <- <-. subst s. split_and!; try done. intros id. unfold balance_of.
    set (s := split_fee_with_remainder 0 p rem) in *. repeat case_decide; lia.
  - unfold mbind, st_bind in Hc. destruct (debit_fee sender fee st) as [[[]|e] st1] eqn:Hd.
    + injection Hc as <- <-. destruct Hfee.
      destruct (debit_distribute sender fee r s st st1) as (? & ? & ? & ?); try done.
    + injection Hc as <- <-. apply debit_fee_err in Hd as (? & ? & ?). done.
Qed.

Lemma charge_fee_ok sender fee r p rem st st' :
  fee_policy_typed p → in_u128 fee → funds_ok st → supply st ≤ u128_max →
  charge_and_distribute_fee_with_remainder sender fee r p rem st = (Ok (), st') →
  only_funds st st' ∧ supply st' = supply st ∧ funds_ok st'.
Proof.
  intros Hp Hfee Hst Hcap Hc. destruct (split_fee_exact fee p rem Hp Hfee) as (H1 & H2 & H3 & Hsum).
  unfold charge_and_distribute_fee_with_remainder in Hc. destruct (Z.eqb_spec fee 0) as [->|Hne].
  { by injection Hc as <-. }
  unfold mbind, st_bind in Hc. destruct (debit_fee sender fee st) as [[[]|e] st1] eqn:Hd; [|done].
  injection Hc as <-. destruct Hfee. by destruct (debit_distribute sender fee r _ st st1 Hst Hcap
    ltac:(done) H1 H2 H3 Hsum Hd) as (? & ? & ? & _).
Qed.

Lemma charge_tip_ok sender tip r p st st' :
  fee_policy_typed p → in_u128 tip → funds_ok st → supply st ≤ u128_max →
  charge_priority_tip sender tip r p st = (Ok (), st') →
  only_funds st st' ∧ supply st' = supply st ∧ funds_ok st'.
Proof.
  intros Hp Htip Hst Hcap Hc. destruct (split_tip_exact tip p Hp Htip) as (H1 & H2 & H3 & Hsum).
  unfold charge_priority_tip in Hc. destruct (Z.eqb_spec tip 0) as [->|Hne]; [by injection Hc as <-|].
  unfold mbind, st_bind in Hc. destruct (debit_fee sender tip st) as [[[]|e] st1] eqn:Hd; [|done].
  injection Hc as <-. destruct Htip. by destruct (debit_distribute sender tip r _ st st1 Hst Hcap
    ltac:(done) H1 H2 H3 Hsum Hd) as (? & ? & ? & _).
Qed.

(** ** Rewards *)

Lemma credits_supply voters per st :
  funds_ok st → 0 ≤ per → supply st + Z.of_nat (length voters) * per ≤ u128_max →
  let st' := foldl (λ st v, credit_account v per st) st voters in
  funds_ok st' ∧ supply st' = supply st + Z.of_nat (length voters) * per ∧ only_funds st st'.
Proof.
  revert st. induction voters as [|v voters IH]; intros st Hst Hper Hcap; cbn [foldl length] in *.
  { split_and!; [done|lia|done]. }
  destruct (credit_supply v per st) as [Hf Hs]; [done..|nia|].
  destruct (IH (credit_account v per st)) as (? & ? & ?); [done..|nia|].
  split_and!; [done|lia|]. etrans; [apply only_funds_credit|done].
Qed.

Lemma reward_bounds n reward_each available :
  0 < n → 0 ≤ reward_each → 0 ≤ available < u128_max →
  let per := reward_share n reward_each available in
  0 ≤ per ≤ reward_each ∧ reward_total n reward_each available = per * n ∧ per * n ≤ available.
Proof.
  intros Hn Hr Ha. unfold reward_share, reward_total, sat_mul.
  destruct (Z.leb_spec (Z.min u128_max (reward_each * n)) available) as [Hle|Hgt].
  - split_and!; lia.
  - pose proof (Z.mul_div_le available n Hn). assert (0 ≤ available `div` n) by (apply Z.div_pos; lia).
    assert (available `div` n ≤ reward_each); [|split_and!; lia].
    apply Z.div_le_upper_bound; [done|]. lia.
Qed.

(** Rewards of QA voters come out of the treasury. Each counted voter gets
    the same share, at most the configured reward, and what the treasury loses is
    exactly what they get together (it is paid in full when the treasury can); the
    supply and everything but the balances is kept. *)
Lemma qa_rewards_from_treasury voters reward_each st paid st' :
  funds_ok st → supply st < u128_max → 0 ≤ reward_each →
  pay_qa_counted_voters voters reward_each st = (paid, st') →
  let n := Z.of_nat (length voters) in
  funds_ok st' ∧ supply st' = supply st ∧ only_funds st st' ∧
  0 ≤ paid ≤ balance_of st PROTOCOL_TREASURY ∧
  (∃ per, paid = per * n ∧ 0 ≤ per ≤ reward_each) ∧
  (reward_each * n ≤ balance_of st PROTOCOL_TREASURY → paid = reward_each * n).
Proof.
  intros Hst Hcap Hr Hp n. unfold pay_qa_counted_voters in Hp. fold n in Hp.
  set (avail := balance_of st PROTOCOL_TREASURY) in *.
  assert (0 ≤ avail < u128_max ∧ (avail ≠ 0 → ∃ a, get st PROTOCOL_TREASURY = Some a ∧ balance a = avail))
    as [Ha Hex].
  { unfold avail, balance_of. destruct (get st PROTOCOL_TREASURY) as [a|] eqn:E; simpl;
      [|split; [unfold u128_max; lia|done]].
    pose proof (native_le_supply st _ a Hst E). specialize (Hst _ _ E) as Hfa. simpl in Hfa.
    unfold funds, native in *. split; [lia|]. intros _. by exists a. }
  destruct ((n =? 0) || (reward_each =? 0) || (avail =? 0)) eqn:Hz.
  { injection Hp as <- <-. apply orb_true_iff in Hz as [[Hz|Hz]%orb_true_iff|Hz]; apply Z.eqb_eq in Hz;
      split_and!; try done; try lia; try (exists 0; lia); rewrite ?Hz in *; nia. }
  bool_to_prop. assert (0 < n) by lia. pose proof (reward_bounds n reward_each avail) as Hb.
  destruct Hb as (Hper & Htot & Hle); [done..|]. destruct Hex as (a & Hget & Hbal); [done|].
  destruct (reward_share n reward_each avail =? 0) eqn:Hp0; bool_to_prop; injection Hp as <- <-.
  { split_and!; try done; [lia|exists 0; lia|]. intros Hfull.
    revert Hp0. unfold reward_share, sat_mul.
    destruct (Z.leb_spec (Z.min u128_max (reward_each * n)) avail); lia. }
  set (per := reward_share n reward_each avail) in *. rewrite Htot.
  set (st1 := get_mut PROTOCOL_TREASURY _ st).
  assert (funds_ok st1 ∧ supply st1 = supply st - per * n ∧ only_funds st st1) as (Hf1 & Hs1 & Ho1).
  { pose proof (Hst _ _ Hget) as Hfa. simpl in Hfa. unfold st1. rewrite (supply_get_mut _ _ _ _ Hget).
    unfold funds, native in *. split_and!.
    - apply funds_get_mut; [done|]. intros b _ [? ?]. unfold funds. simpl. unfold_sat. lia.
    - simpl. unfold_sat. lia.
    - by apply only_funds_get_mut. }
  destruct (credits_supply voters per st1) as (Hf2 & Hs2 & Ho2); [done|lia|lia|].
  split_and!; [done|lia|by etrans|lia|lia|exists per; lia|].
  intros Hfull. unfold per, reward_share, sat_mul.
  destruct (Z.leb_spec (Z.min u128_max (reward_each * n)) avail); lia.
Qed.

(** ** Slashing *)

Definition bonded (a : AccountState) : Z := stake a + pending_unbond a.

Lemma debit_slashable_spec amount a :
  funds a → 0 ≤ amount ≤ bonded a →
  funds (debit_slashable amount a) ∧ native (debit_slashable amount a) = native a - amount ∧
  bonded (debit_slashable amount a) = bonded a - amount.
Proof.
  unfold funds, native, bonded, debit_slashable. intros (H1 & H2 & H3) Ha. simpl. unfold_sat. lia.
Qed.

Lemma slash_amount_bounds slashable bps :
  0 < slashable → 0 ≤ bps ≤ 10000 → 0 < slash_amount slashable bps ≤ slashable.
Proof.
  intros Hs Hb. unfold slash_amount. pose proof (share_bounds slashable bps).
  pose proof (share_le slashable bps). destruct (Z.eqb_spec (share slashable bps) 0); lia.
Qed.

Lemma slashable_bonded st id a :
  funds_ok st → supply st ≤ u128_max → get st id = Some a → slashable_stake a = bonded a ∧ funds a.
Proof.
  intros Hst Hcap Ha. pose proof (native_le_supply st id a Hst Ha). specialize (Hst id a Ha) as Hf.
  simpl in Hf. unfold slashable_stake, bonded, funds, native in *. unfold_sat. lia.
Qed.

Lemma slash_supply bps validator slash_id st amount st' :
  funds_ok st → supply st ≤ u128_max → 0 ≤ bps ≤ 10000 →
  slash_stake bps validator slash_id st = (amount, st') →
  funds_ok st' ∧ supply st' = supply st ∧ only_funds st st' ∧ 0 ≤ amount ≤ u128_max.
Proof.
  intros Hst Hcap Hb Hs. unfold slash_stake in Hs.
  destruct (get st validator) as [a|] eqn:Ha; [|injection Hs as <- <-; split_and!; try done; unfold u128_max; lia].
  destruct (slashable_bonded st validator a Hst Hcap Ha) as [Hsl Hf].
  rewrite Hsl in Hs. pose proof (native_le_supply st validator a Hst Ha) as Hn.
  destruct (Z.eqb_spec (bonded a) 0) as [H0|H0]; injection Hs as <- <-.
  { rewrite (supply_get_mut _ _ _ _ Ha). unfold id. split_and!; [|lia| |lia|unfold u128_max; lia].
    - by apply funds_get_mut.
    - by apply only_funds_get_mut. }
  assert (0 < slash_amount (bonded a) bps ≤ bonded a) as Hamt.
  { apply slash_amount_bounds; [|done]. unfold bonded, funds in *. lia. }
  destruct (debit_slashable_spec (slash_amount (bonded a) bps) a) as (Hf1 & Hn1 & _); [done|lia|].
  set (st1 := get_mut validator _ st).
  assert (funds_ok st1) as Hst1. { apply funds_get_mut; [done|]. intros b Hb'. by simplify_eq. }
  assert (supply st1 = supply st - slash_amount (bonded a) bps) as Hs1.
  { unfold st1. rewrite (supply_get_mut _ _ _ _ Ha), Hn1. lia. }
  destruct (credit_supply (slash_escrow_account slash_id) (slash_amount (bonded a) bps) st1)
    as [Hf2 Hs2]; [done|lia|lia|].
  split_and!; [done|lia| |lia|unfold bonded, native, funds in *; lia].
  transitivity st1; [by apply only_funds_get_mut|apply only_funds_credit].
Qed.

(** ** Restoring a slash *)

Lemma debit_restore_supply slash_id amount st st' :
  funds_ok st → 0 ≤ amount → debit_slash_restore_source slash_id amount st = (Ok (), st') →
  funds_ok st' ∧ supply st' = supply st - amount ∧ only_funds st st'.
Proof.
  intros Hst Ha. unfold debit_slash_restore_source.
  assert (∀ id, amount ≠ 0 → amount ≤ balance_of st id →
    let st' := get_mut id (debit_balance amount) st in
    funds_ok st' ∧ supply st' = supply st - amount ∧ only_funds st st') as Hdebit.
  { intros id Hne Hle st1. unfold st1. unfold balance_of in Hle. destruct (get st id) as [a|] eqn:E; simpl in Hle; [|lia].
    specialize (Hst id a E) as Hf. simpl in Hf. unfold funds in Hf. rewrite (supply_get_mut _ _ _ _ E).
    unfold native, debit_balance. simpl. split_and!.
    - apply funds_get_mut; [done|]. intros b _ (? & ? & ?). unfold funds. simpl. unfold_sat. lia.
    - unfold_sat. lia.
    - by apply only_funds_get_mut. }
  destruct (Z.eqb_spec amount 0) as [->|Hne].
  { intros [= <-]. split_and!; [done|lia|done]. }
  destruct (Z.leb_spec amount (balance_of st (slash_escrow_account slash_id))).
  { intros [= <-]. by apply Hdebit. }
  case_match; [done|]. destruct (Z.ltb_spec (balance_of st FEE_BURN_SINK) amount); [done|].
  intros [= <-]. by apply Hdebit.
Qed.

(** Crediting [amount] to one field of an account, or creating it. *)
Lemma put_back_supply id amount (f : AccountState → AccountState) a0 st :
  funds_ok st → 0 ≤ amount → supply st + amount ≤ u128_max →
  (∀ a, funds a → native a + amount ≤ u128_max →
    funds (f a) ∧ native (f a) = native a + amount ∧ nonce (f a) = nonce a) →
  funds a0 → native a0 = amount → nonce a0 = 0 →
  let st' := match get st id with Some _ => get_mut id f st | None => insert_account id a0 st end in
  funds_ok st' ∧ supply st' = supply st + amount ∧ only_funds st st'.
Proof.
  intros Hst Ha Hcap Hf Hf0 Hn0 Hz st'. unfold st'. destruct (get st id) as [a|] eqn:E.
  - pose proof (native_le_supply st id a Hst E). destruct (Hf a) as (Hfa & Hna & Hno).
    { by apply (Hst id). } { lia. }
    rewrite (supply_get_mut _ _ _ _ E), Hna. split_and!; [|lia|].
    + apply funds_get_mut; [done|]. intros b Hb. by simplify_eq.
    + apply only_funds_get_mut. intros b Hb. by simplify_eq.
  - rewrite supply_insert, Hn0 by done. split_and!; [by apply funds_insert|done|by apply only_funds_insert].
Qed.

Lemma restore_equivocation_supply v slash_id amount st r st' :
  funds_ok st → supply st ≤ u128_max → 0 ≤ amount →
  restore_equivocation_slash v slash_id amount st = (Ok r, st') →
  funds_ok st' ∧ supply st' = supply st ∧ only_funds st st'.
Proof.
  intros Hst Hcap Ha. unfold restore_equivocation_slash, mbind, st_bind.
  destruct (debit_slash_restore_source slash_id amount st) as [[[]|e] st1] eqn:Hd; [|done].
  apply debit_restore_supply in Hd as (Hf1 & Hs1 & Ho1); [|done..].
  destruct (Z.eqb_spec amount 0) as [->|Hne]; intros [= <- <-]; [split_and!; [done|lia|done]|].
  destruct (put_back_supply v amount (λ a, set_stake a (sat_add u128_max (stake a) amount))
    (mkAccountState 0 0 amount 0 0) st1) as (? & ? & ?);
    try done; try (unfold funds, native; simpl; lia).
  - unfold funds, native. intros a (? & ? & ?) ?. simpl. unfold_sat. lia.
  - split_and!; [done|lia|by etrans].
Qed.

Lemma restore_failed_serve_supply v slash_id amount st r st' :
  funds_ok st → supply st ≤ u128_max → 0 ≤ amount →
  restore_failed_serve_penalty v slash_id amount st = (Ok r, st') →
  funds_ok st' ∧ supply st' = supply st ∧ only_funds st st'.
Proof.
  intros Hst Hcap Ha. unfold restore_failed_serve_penalty, mbind, st_bind.
  destruct (debit_slash_restore_source slash_id amount st) as [[[]|e] st1] eqn:Hd; [|done].
  apply debit_restore_supply in Hd as (Hf1 & Hs1 & Ho1); [|done..].
  destruct (Z.eqb_spec amount 0) as [->|Hne]; intros [= <- <-]; [split_and!; [done|lia|done]|].
  destruct (put_back_supply v amount (λ a, set_balance a (sat_add u128_max (balance a) amount))
    (with_balance amount) st1) as (? & ? & ?);
    try done; try (unfold funds, native; simpl; lia).
  - unfold funds, native. intros a (? & ? & ?) ?. simpl. unfold_sat. lia.
  - split_and!; [done|lia|by etrans].
Qed.

(** An approved appeal undoes the slash. Slashing takes a positive part of a
    validator's bonded stake (active or unbonding) into the escrow of that slash;
    restoring the recorded amount then succeeds, and gives back exactly the bonded
    stake, leaves the liquid balance and returns the escrow to what it held. *)
Theorem slash_restore_roundtrip v slash_id st amount st1 a :
  funds_ok st → supply st ≤ u128_max → get st v = Some a → v ≠ slash_escrow_account slash_id →
  slash_equivocation_stake v slash_id st = (amount, st1) →
  (0 < bonded a → 0 < amount ≤ bonded a) ∧
  ∃ st2 a', restore_equivocation_slash v slash_id amount st1 = (Ok amount, st2) ∧
    get st2 v = Some a' ∧ bonded a' = bonded a ∧ balance a' = balance a ∧
    balance_of st2 (slash_escrow_account slash_id) = balance_of st (slash_escrow_account slash_id).
Proof.
  intros Hst Hcap Ha Hne Hs. unfold slash_equivocation_stake, slash_stake in Hs. rewrite Ha in Hs.
  destruct (slashable_bonded st v a Hst Hcap Ha) as [Hsl Hf]. rewrite Hsl in Hs.
  pose proof (native_le_supply st v a Hst Ha) as Hn.
  destruct (Z.eqb_spec (bonded a) 0) as [H0|H0]; injection Hs as <- <-.
  { split; [lia|]. exists (get_mut v id st), a. unfold restore_equivocation_slash.
    split_and!; try done; unfold balance_of; rewrite get_get_mut; [by rewrite decide_True, Ha|].
    by rewrite decide_False. }
  assert (0 < slash_amount (bonded a) EQUIVOCATION_SLASH_BPS ≤ bonded a) as Hamt.
  { apply slash_amount_bounds; [unfold bonded, funds in *; lia|unfold EQUIVOCATION_SLASH_BPS; lia]. }
  set (amt := slash_amount (bonded a) EQUIVOCATION_SLASH_BPS) in *.
  destruct (debit_slashable_spec amt a) as (Hf1 & Hn1 & Hb1); [done|lia|].
  set (s1 := get_mut v _ st). set (escrow := slash_escrow_account slash_id) in *.
  assert (get s1 v = Some (debit_slashable amt a)) as Hv1.
  { unfold s1. by rewrite get_get_mut, decide_True, Ha. }
  assert (funds_ok s1) as Hst1. { apply funds_get_mut; [done|]. intros b Hb'. by simplify_eq. }
  assert (supply s1 = supply st - amt) as Hs1.
  { unfold s1. rewrite (supply_get_mut _ _ _ _ Ha), Hn1. lia. }
  assert (balance_of s1 escrow = balance_of st escrow) as He.
  { unfold balance_of, s1. by rewrite get_get_mut, decide_False. }
  pose proof (credit_balance escrow amt s1 escrow Hst1 ltac:(lia) ltac:(lia)) as Hce.
  rewrite decide_True in Hce by done.
  assert (0 ≤ balance_of st escrow) as Hpos.
  { unfold balance_of. destruct (get st escrow) as [b|] eqn:E; simpl; [|lia]. apply (Hst _ _ E). }
  assert (get (credit_account escrow amt s1) v = Some (debit_slashable amt a)) as Hv2.
  { by rewrite credit_other. }
  split; [done|]. unfold restore_equivocation_slash, debit_slash_restore_source, mbind, st_bind.
  fold escrow. destruct (Z.eqb_spec amt 0); [lia|]. rewrite Hce, He.
  destruct (Z.leb_spec amt (balance_of st escrow + amt)); [|lia].
  eexists _, _. split; [done|]. rewrite get_get_mut, decide_False, Hv2 by done.
  split_and!; [by rewrite get_get_mut, decide_True, get_get_mut, decide_False, Hv2| | |].
  - unfold bonded, native, funds in *. simpl in *. unfold_sat. lia.
  - done.
  - rewrite He in Hce. unfold balance_of at 1. rewrite get_get_mut, decide_False, get_get_mut, decide_True by done.
    unfold balance_of at 1 in Hce. destruct (get (credit_account escrow amt s1) escrow) as [b|]; simpl in *; [|lia].
    unfold_sat. lia.
Qed.

End Laws.

(** ** Emission *)

Lemma decay_step e : 0 ≤ e → 0 ≤ (e * EMISSION_DECAY_BPS) `div` 10000 ≤ e.
Proof.
  intros. unfold EMISSION_DECAY_BPS. split; [apply Z.div_pos; lia|]. apply Z.div_le_upper_bound; lia.
Qed.

Lemma decay_antitone n floor e :
  0 ≤ e → Z.max (decay_years (S n) floor e) floor ≤ Z.max (decay_years n floor e) floor.
Proof.
  revert e. induction n as [|n IH]; intros e He; pose proof (decay_step e He).
  - cbn [decay_years]. case_match; lia.
  - change (decay_years (S (S n)) floor e) with
      (let e' := (e * EMISSION_DECAY_BPS) `div` 10000 in
       if e' <=? floor then e' else decay_years (S n) floor e').
    change (decay_years (S n) floor e) with
      (let e' := (e * EMISSION_DECAY_BPS) `div` 10000 in if e' <=? floor then e' else decay_years n floor e').
    cbv zeta. case_match; [lia|]. apply IH. lia.
Qed.

Lemma decay_antitone_le n m floor e :
  0 ≤ e → (n ≤ m)%nat → Z.max (decay_years m floor e) floor ≤ Z.max (decay_years n floor e) floor.
Proof.
  intros He. induction 1 as [|m Hm IH]; [lia|]. pose proof (decay_antitone m floor e He). lia.
Qed.

(** C40: the emission schedule. From height 1 on the proposer's emission never
    rises, starts at 70% of the first year's rate and never falls below 70% of the
    floor rate (hence is never 0 in base units); the products of the schedule stay
    below [u128::MAX], so its unchecked arithmetic is exact. *)
Theorem emission_schedule h h' :
  1 ≤ h ≤ h' →
  block_emission_validators_in h' BaseUnits ≤ block_emission_validators_in h BaseUnits ∧
  block_emission_validators_in h BaseUnits ≤ block_emission_validators_in 1 BaseUnits ∧
  block_emission_validators_in 1 BaseUnits = (emission_year_1 * 7000) `div` 10000 ∧
  0 < (emission_floor * 7000) `div` 10000 ≤ block_emission_validators_in h BaseUnits ∧
  INITIAL_SUPPLY * BASE_UNITS_PER_BOING * 10000 ≤ u128_max.
Proof.
  intros Hh. assert (∀ x y, 1 ≤ x ≤ y →
    block_emission_validators_in y BaseUnits ≤ block_emission_validators_in x BaseUnits) as Hanti.
  { intros x y Hxy. unfold block_emission_validators_in, block_emission_validators_base_units.
    destruct (Z.eqb_spec x 0), (Z.eqb_spec y 0); try lia.
    apply Z.div_le_mono; [lia|]. apply Z.mul_le_mono_nonneg_r; [done|].
    apply decay_antitone_le; [by vm_compute|]. apply Z2Nat.inj_le; [apply Z.div_pos; [lia|done]..|].
    apply Z.div_le_mono; [done|lia]. }
  split_and!; [by apply Hanti|apply Hanti; lia|vm_compute; reflexivity|vm_compute; reflexivity| |].
  - unfold block_emission_validators_in, block_emission_validators_base_units.
    destruct (Z.eqb_spec h 0); [lia|]. unfold BLOCK_EMISSION_PROPOSER_BPS.
    apply Z.div_le_mono; [lia|]. lia.
  - vm_compute. discriminate.
Qed.

End MoneyLaws.

(** ** A small ledger *)

Module SampleMoney.

Import MoneyLaws.
Import SampleStore.
#[local] Existing Instances no_registries in_order.
#[local] Instance sample : Host := sample_host.

Definition ledger : StateStore () :=
  insert_account (account 1) (mkAccountState 1000 0 60 40 0)
    (insert_account PROTOCOL_TREASURY (mkAccountState 500 0 0 0 0) new_store).

Lemma ledger_funds : funds_ok ledger ∧ supply ledger = 1600.
Proof.
  split; [|by vm_compute]. apply (bool_decide_unpack (map_Forall (λ _, funds) (accounts (contents ledger)))).
  by vm_compute.
Qed.

Lemma legacy_split_typed : fee_policy_typed legacy_proposer_split.
Proof. split; repeat apply Forall_cons_2; try apply Forall_nil_2; split; vm_compute; discriminate. Qed.

Lemma fee_charge_exact_witness :
  ∃ st', charge_and_distribute_fee_with_remainder (account 1) 7 (account 2) legacy_proposer_split
           RemTreasury ledger = (Ok (), st') ∧
    supply st' = 1600 ∧ balance_of st' (account 1) = 993 ∧ balance_of st' (account 2) = 4.
Proof.
  destruct ledger_funds as [Hf Hs].
  destruct (charge_and_distribute_fee_with_remainder (account 1) 7 (account 2) legacy_proposer_split
    RemTreasury ledger) as [[[]|e] st'] eqn:E; [|vm_compute in E; discriminate E].
  exists st'. split; [reflexivity|].
  assert (in_u128 7) as H7 by (split; vm_compute; discriminate).
  assert (supply ledger ≤ u128_max) as Hcap by (rewrite Hs; vm_compute; discriminate).
  pose proof (fee_charge_exact (account 1) 7 (account 2) legacy_proposer_split RemTreasury ledger (Ok ()) st'
    legacy_split_typed H7 Hf Hcap E) as H.
  cbv zeta in H. destruct H as (_ & Hsup & _ & Hb).
  rewrite Hsup, !Hb. split; [exact Hs|]. split; vm_compute; reflexivity.
Defined.

Lemma slash_restore_roundtrip_witness :
  ∃ st1 st2 a', slash_equivocation_stake (account 1) 3 ledger = (50, st1) ∧
    restore_equivocation_slash (account 1) 3 50 st1 = (Ok 50, st2) ∧
    get st2 (account 1) = Some a' ∧ bonded a' = 100.
Proof.
  destruct ledger_funds as [Hf Hs].
  destruct (slash_equivocation_stake (account 1) 3 ledger) as [n st1] eqn:E.
  assert (n = 50) as ->.
  { change n with (n, st1).1. rewrite <- E. vm_compute. reflexivity. }
  destruct (slash_restore_roundtrip (account 1) 3 ledger 50 st1 (mkAccountState 1000 0 60 40 0))
    as (_ & st2 & a' & Hr & Ha & Hb & _);
    [exact Hf|rewrite Hs; vm_compute; discriminate|vm_compute; reflexivity|vm_compute; discriminate|exact E|].
  exists st1, st2, a'. split; [reflexivity|]. split; [exact Hr|]. split; [exact Ha|]. rewrite Hb. reflexivity.
Defined.

Lemma emission_schedule_witness :
  block_emission_validators_in 100 BaseUnits ≤ block_emission_validators_in 1 BaseUnits.
Proof. apply (emission_schedule 100 100). lia. Defined.

End SampleMoney.
