(* ===== verification/StoreLaws.v ===== *)
(** * The state root of the store

    About the state root of [Store.v]: [state_root], incremental or not, is the
    root of the leaves the contents commit to ([committed_leaves]), after any
    history of writes, checkpoints, reverts and earlier roots, and so equals
    [state_root_full_rebuild]; the iteration order of the hash maps does not
    matter. The condition this needs: no account lives at the tree key of a
    registry or of a pending QA item; [Collision] shows that it is needed. *)

From S2P Require Import Prelude Types Merkle Store.

(** A loop that sets the entry at [key x] to [spec x] for each element. *)
Lemma mfold_update {A B K W} `{EqDecision K} (f : B → A → option B) (inv : B → Prop)
    (look : B → K → option W) (key : A → K) (spec : A → option W) b l :
  (∀ b a, a ∈ l → inv b → ∃ b', f b a = Some b' ∧ inv b' ∧
     ∀ k, look b' k = if decide (k = key a) then spec a else look b k) →
  (∀ x y, x ∈ l → y ∈ l → key x = key y → spec x = spec y) →
  inv b →
  ∃ b', mfold f b l = Some b' ∧ inv b' ∧ (∀ x, x ∈ l → look b' (key x) = spec x) ∧
    (∀ k, k ∉ key <$> l → look b' k = look b k).
Proof.
  intros Hf Hkey Hinv.
  destruct (mfold_ind f (λ done b', inv b' ∧ (∀ x, x ∈ done → look b' (key x) = spec x) ∧
    (∀ k, k ∉ key <$> done → look b' k = look b k)) b l) as (b' & ? & ? & ? & ?); [|idtac|by eauto].
  { split_and!; [done|by intros x ?%elem_of_nil|done]. }
  intros done a b0 [rest Hpre] (Hi & Hd & Ho).
  assert (∀ x, x ∈ done ++ [a] → x ∈ l) as Hin by (intros x Hx; rewrite Hpre; set_solver).
  destruct (Hf b0 a) as (b1 & -> & Hi1 & Hlook); [set_solver|done|].
  exists b1. split_and!; [done|done| |].
  - intros x Hx. rewrite Hlook. case_decide as Hk; [symmetry; apply Hkey; set_solver|].
    apply elem_of_app in Hx as [Hx|Hx]; [by apply Hd|]. set_solver.
  - intros k Hk. rewrite fmap_app in Hk. rewrite Hlook. case_decide; [set_solver|].
    apply Ho. set_solver.
Qed.

(** ** The shape of a journaled write *)

Section Record.
Context {V : Type} `{Iteration}.

(** [record_account], [record_storage], [record_qa] and the prologue of
    [set_contract_code]: mark, then journal the undo record when a checkpoint is
    alive. *)
Definition record (u : Undo V) (st : StateStore V) : StateStore V :=
  let '(st', on) := journaling (set_cache st (undo_marks u (cache st))) in
  if on then push_undo st' u else st'.

Lemma record_account_eq id st :
  record_account id st = record (UndoAccount id (accounts (contents st) !! id)) st.
Proof. unfold record_account, record, journaling. simpl. by destruct (0 <? _)%nat. Qed.

Lemma record_storage_eq a key st :
  record_storage a key st = record (UndoStorage (a, key) (contract_storage (contents st) !! (a, key))) st.
Proof. unfold record_storage, record, journaling. simpl. by destruct (0 <? _)%nat. Qed.

Lemma record_qa_eq s st :
  record_qa s st = record (UndoQaPending s (qa_pending (contents st) !! s)) st.
Proof. unfold record_qa, record, journaling. simpl. by destruct (0 <? _)%nat. Qed.

Lemma set_contract_code_eq id code st :
  set_contract_code id code st =
  set_contents (record (UndoCode id (contract_code (contents st) !! id)) st)
    (set_code (contents st) (<[id := code]> (contract_code (contents st)))).
Proof. unfold set_contract_code, record, journaling. simpl. by destruct (0 <? _)%nat. Qed.

Lemma record_contents u st : contents (record u st) = contents st.
Proof. unfold record, journaling. simpl. by destruct (0 <? _)%nat. Qed.

Lemma record_cache u st : cache (record u st) = undo_marks u (cache st).
Proof. unfold record, journaling. simpl. by destruct (0 <? _)%nat. Qed.

(** The log after a record: the record is pushed while a checkpoint is alive. *)
Lemma record_log u st :
  undo_log (record u st) =
  let l := undo_log st in
  if (0 <? live l)%nat then mkLog (u :: journal l) (live l) (last_cp_pos l) (snap_pos l)
  else mkLog [] (live l) 0 (λ _, None).
Proof. unfold record, journaling. simpl. by destruct (0 <? _)%nat. Qed.

End Record.

Section RootSpec.
Context `{Host} {V : Type} `{Registries V}.

(** ** The committed leaves *)

(** The leaves of one contract's storage tree. *)
Definition slot_leaves (c : Contents V) (a : AccountId) : gmap bytes Hash :=
  set_to_map (λ e : AccountId * bytes,
      (e.2, hash_storage_value (default [] (contract_storage c !! e))))
    (filter (λ e : AccountId * bytes, e.1 = a) (dom (contract_storage c))).

Definition storage_root_spec (c : Contents V) (sd : nat) (a : AccountId) : option Hash :=
  if decide (slot_leaves c a = ∅) then None else Some (spec_root sd (slot_leaves c a)).

Definition account_exists (c : Contents V) (a : AccountId) : Prop :=
  is_Some (accounts c !! a) ∨ is_Some (contract_code c !! a) ∨ slot_leaves c a ≠ ∅.

#[global] Instance account_exists_dec c a : Decision (account_exists c a).
Proof. unfold account_exists. apply _. Defined.

Definition account_spec (c : Contents V) (sd : nat) (a : AccountId) : option Hash :=
  if decide (account_exists c a)
  then Some (account_leaf c a (default ZERO (storage_root_spec c sd a))) else None.

Definition qa_spec (c : Contents V) (s : Hash) : option Hash :=
  qa_commitment_hash <$> qa_pending c !! s.

Definition reg_spec (c : Contents V) (r : RegId) : option Hash :=
  if reg_is_empty r (registries c r) then None
  else Some (reg_commitment r (registries c r)).

(** The leaves in the account tree, for stores whose accounts are among [ids]
    and whose pending items are among [subs]. *)
Definition committed_leaves (c : Contents V) (sd : nat) (ids : gset AccountId) (subs : gset Hash)
    : gmap bytes Hash :=
  list_to_map (omap (λ r, pair (reg_key r) <$> reg_spec c r) all_regs)
  ∪ list_to_map (omap (λ s, pair (qa_smt_key s) <$> qa_spec c s) (elements subs))
  ∪ list_to_map (omap (λ a, pair a <$> account_spec c sd a) (elements ids)).

(** The keys of the account tree do not collide. *)
Definition keys_separate (ids : gset AccountId) (subs : gset Hash) : Prop :=
  NoDup (elements ids ++ (qa_smt_key <$> elements subs) ++ (reg_key <$> all_regs)).

#[global] Instance keys_separate_dec ids subs : Decision (keys_separate ids subs).
Proof. unfold keys_separate. apply _. Defined.

(** ** Lookups *)

Lemma lookup_slot_leaves c a k :
  slot_leaves c a !! k = hash_storage_value <$> contract_storage c !! (a, k).
Proof.
  apply option_eq. intros v. unfold slot_leaves. rewrite lookup_set_to_map.
  2:{ intros [a1 k1] [a2 k2]. rewrite !elem_of_filter. simpl. intros [-> _] [-> _] ->. done. }
  split.
  - intros ([a' k'] & [Ha' Hd]%elem_of_filter & Heq). simpl in *. simplify_eq.
    apply elem_of_dom in Hd as [w Hw]. rewrite Hw. done.
  - intros (w & Hw & ->)%fmap_Some. exists (a, k). split; [|by rewrite Hw].
    apply elem_of_filter. split; [done|]. apply elem_of_dom. eauto.
Qed.

Lemma lookup_omap_keys {A} `{EqDecision A} (l : list A) (key : A → bytes) (f : A → option Hash) a :
  NoDup (key <$> l) → a ∈ l →
  (list_to_map (omap (λ x, pair (key x) <$> f x) l) : gmap bytes Hash) !! key a = f a.
Proof.
  intros Hnd Ha. induction l as [|x l IH]; [by apply elem_of_nil in Ha|].
  apply NoDup_cons in Hnd as [Hx Hnd]. simpl. apply elem_of_cons in Ha as [<-|Ha].
  - destruct (f a) as [h|] eqn:E; simpl; [by rewrite lookup_insert_eq|].
    apply not_elem_of_list_to_map_1. intros ([k v] & Hk & Hin)%list_elem_of_fmap. simpl in Hk.
    apply list_elem_of_omap in Hin as (y & Hy & Heq). apply fmap_Some in Heq as (h & _ & Heq).
    destruct Hx. rewrite Hk. injection Heq as -> _. by apply list_elem_of_fmap_2.
  - destruct (f x) as [h|] eqn:E; simpl; [|by apply IH].
    rewrite lookup_insert_ne; [by apply IH|]. intros Heq. destruct Hx. rewrite Heq.
    by apply list_elem_of_fmap_2.
Qed.

Lemma lookup_omap_none {A} (l : list A) (key : A → bytes) (f : A → option Hash) k :
  k ∉ key <$> l → (list_to_map (omap (λ x, pair (key x) <$> f x) l) : gmap bytes Hash) !! k = None.
Proof.
  intros Hk. apply not_elem_of_list_to_map_1.
  intros ([k' v] & -> & Hin)%list_elem_of_fmap. simpl in *.
  apply list_elem_of_omap in Hin as (y & Hy & Heq). apply fmap_Some in Heq as (h & _ & Heq).
  simplify_eq/=. destruct Hk. by apply list_elem_of_fmap_2.
Qed.

Lemma lookup_omap_self (ids : gset AccountId) (f : AccountId → option Hash) k :
  (list_to_map (omap (λ a, pair a <$> f a) (elements ids)) : gmap bytes Hash) !! k =
  if decide (k ∈ ids) then f k else None.
Proof.
  case_decide as Hk.
  - apply (lookup_omap_keys (elements ids) (λ a, a)); [|by apply elem_of_elements].
    rewrite list_fmap_id. apply NoDup_elements.
  - apply (lookup_omap_none (elements ids) (λ a, a)). rewrite list_fmap_id.
    by rewrite elem_of_elements.
Qed.

Lemma all_regs_elem r : r ∈ all_regs.
Proof. unfold all_regs. destruct r; set_solver. Qed.

Lemma NoDup_fmap_inj_on {A} (f : A → bytes) (l : list A) x y :
  NoDup (f <$> l) → x ∈ l → y ∈ l → f x = f y → x = y.
Proof.
  intros Hnd Hx Hy Heq. apply list_elem_of_lookup in Hx as [i Hi], Hy as [j Hj].
  assert (i = j) as ->; [|by simplify_eq].
  eapply (NoDup_lookup (f <$> l)); [done| |]; rewrite list_lookup_fmap; [by rewrite Hi|].
  by rewrite Hj, Heq.
Qed.

Section Separate.
Context (ids : gset AccountId) (subs : gset Hash) (Hsep : keys_separate ids subs).

Lemma sep_id_qa a s : a ∈ ids → s ∈ subs → a ≠ qa_smt_key s.
Proof.
  intros Ha Hs ->. apply NoDup_app in Hsep as (_ & Hd & _).
  apply (Hd (qa_smt_key s)); [by apply elem_of_elements|]. apply elem_of_app. left.
  apply list_elem_of_fmap_2. by apply elem_of_elements.
Qed.

Lemma sep_id_reg a r : a ∈ ids → a ≠ reg_key r.
Proof.
  intros Ha ->. apply NoDup_app in Hsep as (_ & Hd & _).
  apply (Hd (reg_key r)); [by apply elem_of_elements|]. apply elem_of_app. right.
  apply list_elem_of_fmap_2, all_regs_elem.
Qed.

Lemma sep_qa_reg s r : s ∈ subs → qa_smt_key s ≠ reg_key r.
Proof.
  intros Hs Heq. apply NoDup_app in Hsep as (_ & _ & Hn). apply NoDup_app in Hn as (_ & Hd & _).
  apply (Hd (qa_smt_key s)); [apply list_elem_of_fmap_2; by apply elem_of_elements|].
  rewrite Heq. apply list_elem_of_fmap_2, all_regs_elem.
Qed.

Lemma sep_qa_inj s s' : s ∈ subs → s' ∈ subs → qa_smt_key s = qa_smt_key s' → s = s'.
Proof.
  intros Hs Hs'. apply NoDup_app in Hsep as (_ & _ & Hn). apply NoDup_app in Hn as (Hq & _ & _).
  apply (NoDup_fmap_inj_on _ (elements subs)); [done|by apply elem_of_elements..].
Qed.

Lemma sep_reg_inj r r' : reg_key r = reg_key r' → r = r'.
Proof.
  apply NoDup_app in Hsep as (_ & _ & Hn). apply NoDup_app in Hn as (_ & _ & Hr).
  apply (NoDup_fmap_inj_on _ all_regs); [done|apply all_regs_elem..].
Qed.

(** A map with the specified leaf at every key is the committed one. *)
Lemma committed_leaves_unique c sd m :
  (∀ a, a ∈ ids → m !! a = account_spec c sd a) →
  (∀ s, s ∈ subs → m !! qa_smt_key s = qa_spec c s) →
  (∀ r, m !! reg_key r = reg_spec c r) →
  (∀ k, k ∉ ids → (∀ s, s ∈ subs → k ≠ qa_smt_key s) → (∀ r, k ≠ reg_key r) → m !! k = None) →
  m = committed_leaves c sd ids subs.
Proof.
  intros Ha Hs Hr Hk. apply map_eq. intros k. unfold committed_leaves.
  pose proof Hsep as Hn. apply NoDup_app in Hn as (_ & _ & Hn).
  apply NoDup_app in Hn as (Hnq & _ & Hnr). rewrite !lookup_union, lookup_omap_self.
  destruct (decide (k ∈ reg_key <$> all_regs)) as [(r & -> & _)%list_elem_of_fmap|Hkr].
  { rewrite (lookup_omap_keys all_regs reg_key), Hr by auto using all_regs_elem.
    rewrite (lookup_omap_none (elements subs) qa_smt_key).
    2:{ intros (s & Heq & Hin%elem_of_elements)%list_elem_of_fmap. by eapply sep_qa_reg. }
    rewrite decide_False by (intros Hin; by eapply sep_id_reg). by rewrite !(right_id_L None _). }
  rewrite (lookup_omap_none all_regs reg_key) by done. rewrite (left_id_L None _).
  destruct (decide (k ∈ qa_smt_key <$> elements subs))
    as [(s & -> & Hin%elem_of_elements)%list_elem_of_fmap|Hkq].
  { rewrite (lookup_omap_keys (elements subs) qa_smt_key), Hs by (done || by apply elem_of_elements).
    rewrite decide_False by (intros Hi; by eapply sep_id_qa). by rewrite (right_id_L None _). }
  rewrite (lookup_omap_none (elements subs) qa_smt_key) by done. rewrite (left_id_L None _).
  case_decide as Hki; [by apply Ha|]. apply Hk; [done| |].
  - intros s Hin ->. destruct Hkq. apply list_elem_of_fmap_2. by apply elem_of_elements.
  - intros r ->. destruct Hkr. apply list_elem_of_fmap_2, all_regs_elem.
Qed.

End Separate.
(** ** The cached trees *)

(** What the cached storage trees say about a slot. *)
Definition slot_of (ts : gmap AccountId SparseMerkleTree) (e : AccountId * bytes) : option Hash :=
  ts !! e.1 ≫= λ t, leaves t !! e.2.

Definition slot_spec (c : Contents V) (e : AccountId * bytes) : option Hash :=
  hash_storage_value <$> contract_storage c !! e.

(** Cached trees are well formed, of the depth in force, and not empty. *)
Definition trees_ok (sd : nat) (ts : gmap AccountId SparseMerkleTree) : Prop :=
  ∀ a t, ts !! a = Some t → smt_ok t ∧ smt_depth t = sd ∧ leaves t ≠ ∅.

Lemma storage_put_ok sd ts e v :
  trees_ok sd ts →
  ∃ ts', storage_put sd ts e.1 e.2 v = Some ts' ∧ trees_ok sd ts' ∧
    ∀ e', slot_of ts' e' = if decide (e' = e) then Some (hash_storage_value v) else slot_of ts e'.
Proof.
  intros Hts. destruct e as [a k]. unfold storage_put, insert_storage_slot. simpl.
  assert (smt_ok (default (with_max_depth sd) (ts !! a)) ∧
    smt_depth (default (with_max_depth sd) (ts !! a)) = sd) as [Hok Hsd].
  { destruct (ts !! a) as [t|] eqn:E; simpl; [by destruct (Hts a t E) as (? & ? & _)|].
    split; [apply with_max_depth_ok|done]. }
  destruct (insert_leaf_hash_ok _ k (hash_storage_value v) Hok) as (t' & -> & Hok' & Hl & Hd).
  eexists. split; [done|]. split.
  - intros a' t. destruct (decide (a' = a)) as [->|Hne].
    + rewrite lookup_insert_eq. intros [= <-]. split_and!; [done|by rewrite Hd|].
      rewrite Hl. apply insert_non_empty.
    + rewrite lookup_insert_ne by done. apply Hts.
  - intros [a' k']. unfold slot_of. simpl. destruct (decide (a' = a)) as [->|Hne].
    + rewrite lookup_insert_eq. simpl. rewrite Hl. destruct (decide (k' = k)) as [->|Hnk].
      * rewrite lookup_insert_eq. by rewrite decide_True.
      * rewrite lookup_insert_ne, decide_False by congruence. by destruct (ts !! a).
    + rewrite lookup_insert_ne, decide_False by congruence. done.
Qed.

Lemma refresh_slot_ok c sd ts e :
  trees_ok sd ts →
  ∃ ts', refresh_slot c sd ts e = Some ts' ∧ trees_ok sd ts' ∧
    ∀ e', slot_of ts' e' = if decide (e' = e) then slot_spec c e else slot_of ts e'.
Proof.
  intros Hts. unfold refresh_slot, slot_spec.
  destruct (contract_storage c !! e) as [v|] eqn:Ec; [by apply storage_put_ok|].
  destruct e as [a k]. simpl. destruct (ts !! a) as [t|] eqn:E.
  2:{ exists ts. split_and!; [done|done|]. intros [a' k']. case_decide; [|done].
      unfold slot_of. simplify_eq/=. by rewrite E. }
  destruct (Hts a t E) as (Hok & Hsd & _).
  destruct (delete_raw_ok t k Hok) as (t' & -> & Hok' & Hl & Hd). simpl.
  assert (∀ k', (if decide (k' = k) then None else leaves t !! k') = leaves t' !! k') as Hlook.
  { intros k'. rewrite Hl. case_decide; subst; [by rewrite lookup_delete_eq|].
    by rewrite lookup_delete_ne. }
  unfold smt_is_empty. case_bool_decide as Hemp; eexists; (split; [done|split]).
  - intros a' t1 [_ ?]%lookup_delete_Some. by eapply Hts.
  - intros [a' k']. unfold slot_of. simpl. destruct (decide (a' = a)) as [->|Hne].
    + rewrite lookup_delete_eq, E. simpl. specialize (Hlook k'). rewrite Hemp, lookup_empty in Hlook.
      destruct (decide (k' = k)); [by rewrite decide_True by congruence|].
      by rewrite decide_False by congruence.
    + by rewrite lookup_delete_ne, decide_False by congruence.
  - intros a' t1. destruct (decide (a' = a)) as [->|Hne].
    + rewrite lookup_insert_eq. intros [= <-]. split_and!; [done|by rewrite Hd|done].
    + rewrite lookup_insert_ne by done. apply Hts.
  - intros [a' k']. unfold slot_of. simpl. destruct (decide (a' = a)) as [->|Hne].
    + rewrite lookup_insert_eq, E. simpl. rewrite <- Hlook.
      destruct (decide (k' = k)); [by rewrite decide_True by congruence|].
      by rewrite decide_False by congruence.
    + by rewrite lookup_insert_ne, decide_False by congruence.
Qed.

(** A cached tree whose slots are right has the root the contents commit to. *)
Lemma storage_root_mut_ok c sd ts a :
  trees_ok sd ts → (∀ e, slot_of ts e = slot_spec c e) →
  ∃ ts', storage_root_mut ts a = Some (ts', storage_root_spec c sd a) ∧ trees_ok sd ts' ∧
    (∀ e, slot_of ts' e = slot_spec c e).
Proof.
  intros Hts Hslot. unfold storage_root_mut, storage_root_spec.
  assert (slot_leaves c a = default ∅ (leaves <$> ts !! a)) as ->.
  { apply map_eq. intros k. rewrite lookup_slot_leaves. fold (slot_spec c (a, k)).
    rewrite <- Hslot. unfold slot_of. simpl. destruct (ts !! a); simpl; [done|by rewrite lookup_empty]. }
  destruct (ts !! a) as [t|] eqn:E; simpl; [|by eauto].
  destruct (Hts a t E) as (Hok & Hsd & Hne).
  destruct (smt_root_ok t Hok) as (t' & -> & Hok' & Hl & Hd). simpl. rewrite decide_False by done.
  eexists. split; [|split].
  - unfold reference_root. rewrite Hsd. done.
  - intros a' t1. destruct (decide (a' = a)) as [->|Hna].
    + rewrite lookup_insert_eq. intros [= <-]. split_and!; [done|congruence|by rewrite Hl].
    + rewrite lookup_insert_ne by done. apply Hts.
  - intros [a' k']. rewrite <- Hslot. unfold slot_of. simpl. destruct (decide (a' = a)) as [->|Hna].
    + rewrite lookup_insert_eq, E. simpl. by rewrite Hl.
    + by rewrite lookup_insert_ne.
Qed.

Lemma account_exists_slots c sd a :
  account_exists c a ↔
  is_Some (accounts c !! a) ∨ is_Some (contract_code c !! a) ∨ is_Some (storage_root_spec c sd a).
Proof.
  unfold account_exists, storage_root_spec. case_decide; naive_solver eauto.
Qed.

(** ** The account tree *)

Definition tree_of_depth (n : nat) (t : SparseMerkleTree) : Prop := smt_ok t ∧ smt_depth t = n.

Lemma put_leaf_ok n t k l :
  tree_of_depth n t → ∃ t', put_leaf t k l = Some t' ∧ tree_of_depth n t' ∧
    ∀ k', leaves t' !! k' = if decide (k' = k) then l else leaves t !! k'.
Proof.
  intros [Hok Hn]. destruct l as [h|]; simpl.
  - destruct (insert_leaf_hash_ok t k h Hok) as (t' & -> & Hok' & Hl & Hd).
    exists t'. split_and!; [done|split; [done|congruence]|]. intros k'. rewrite Hl.
    case_decide; subst; [by rewrite lookup_insert_eq|by rewrite lookup_insert_ne].
  - destruct (delete_raw_ok t k Hok) as (t' & -> & Hok' & Hl & Hd).
    exists t'. split_and!; [done|split; [done|congruence]|]. intros k'. rewrite Hl.
    case_decide; subst; [by rewrite lookup_delete_eq|by rewrite lookup_delete_ne].
Qed.

(** The account tree with storage trees that say what the contents do. *)
Definition trees_inv (c : Contents V) (n sd : nat)
    (p : SparseMerkleTree * gmap AccountId SparseMerkleTree) : Prop :=
  tree_of_depth n p.1 ∧ trees_ok sd p.2 ∧ ∀ e, slot_of p.2 e = slot_spec c e.

Lemma refresh_account_ok c n sd p a :
  trees_inv c n sd p → ∃ p', refresh_account c p a = Some p' ∧ trees_inv c n sd p' ∧
    ∀ k, leaves p'.1 !! k = if decide (k = a) then account_spec c sd a else leaves p.1 !! k.
Proof.
  intros (Ht & Hts & Hslot). unfold refresh_account.
  destruct (storage_root_mut_ok c sd p.2 a Hts Hslot) as (ts' & -> & Hts' & Hslot'). simpl.
  destruct (put_leaf_ok n p.1 a (account_spec c sd a) Ht) as (t' & Hput & Ht' & Hl).
  assert ((if bool_decide (is_Some (accounts c !! a)) || bool_decide (is_Some (contract_code c !! a))
      || bool_decide (is_Some (storage_root_spec c sd a))
    then insert_leaf_hash p.1 a (account_leaf c a (default ZERO (storage_root_spec c sd a)))
    else delete_raw p.1 a) = Some t') as ->.
  { rewrite <- Hput. unfold put_leaf, account_spec. destruct (decide (account_exists c a)) as [He|He];
      rewrite (account_exists_slots c sd) in He; repeat case_bool_decide; naive_solver. }
  simpl. exists (t', ts'). split; [done|]. by split.
Qed.

(** The account step of a full build, for an account that exists. *)
Lemma build_account_ok c n sd p a :
  account_exists c a → trees_inv c n sd p →
  ∃ p', (r ← storage_root_mut p.2 a;
         t ← insert_leaf_hash p.1 a (account_leaf c a (default ZERO r.2));
         Some (t, r.1)) = Some p' ∧ trees_inv c n sd p' ∧
    ∀ k, leaves p'.1 !! k = if decide (k = a) then account_spec c sd a else leaves p.1 !! k.
Proof.
  intros He Hinv. destruct (refresh_account_ok c n sd p a Hinv) as (p' & Heq & Hp').
  exists p'. split; [|done]. rewrite <- Heq. unfold refresh_account.
  destruct Hinv as (Ht & Hts & Hslot).
  destruct (storage_root_mut_ok c sd p.2 a Hts Hslot) as (ts' & -> & _). simpl.
  rewrite (account_exists_slots c sd) in He. repeat case_bool_decide; naive_solver.
Qed.

Lemma registry_leaves_elem c e : e ∈ registry_leaves c ↔ ∃ r, e = (reg_key r, reg_spec c r).
Proof.
  unfold registry_leaves. rewrite list_elem_of_fmap. split.
  - intros (r & -> & _). by exists r.
  - intros (r & ->). exists r. split; [done|apply all_regs_elem].
Qed.

Section FullBuild.
Context `{Iteration} (ids : gset AccountId) (subs : gset Hash) (Hsep : keys_separate ids subs).

Definition scoped (c : Contents V) : Prop :=
  dom (accounts c) ⊆ ids ∧ dom (contract_code c) ⊆ ids ∧
  (∀ e, e ∈ dom (contract_storage c) → e.1 ∈ ids) ∧ dom (qa_pending c) ⊆ subs.

Lemma iter_elem {A} (l : list A) x : x ∈ iter l ↔ x ∈ l.
Proof. by rewrite (iter_perm l). Qed.

Lemma build_storage_ok c sd :
  ∃ ts, mfold (λ ts e, storage_put sd ts e.1.1 e.1.2 e.2) ∅ (iter (map_to_list (contract_storage c)))
      = Some ts ∧ trees_ok sd ts ∧ ∀ e, slot_of ts e = slot_spec c e.
Proof.
  destruct (mfold_update (λ ts e, storage_put sd ts e.1.1 e.1.2 e.2) (trees_ok sd) slot_of fst
    (λ e, Some (hash_storage_value e.2)) ∅ (iter (map_to_list (contract_storage c))))
    as (ts & -> & Hts & Hin & Hout).
  - intros ts e _ Hts. by apply storage_put_ok.
  - intros [e1 v1] [e2 v2]. rewrite !iter_elem, !elem_of_map_to_list. naive_solver.
  - intros a t. by rewrite lookup_empty.
  - exists ts. split_and!; [done|done|]. intros e. unfold slot_spec.
    destruct (contract_storage c !! e) as [v|] eqn:E; simpl.
    + apply (Hin (e, v)). by rewrite iter_elem, elem_of_map_to_list.
    + rewrite Hout; [unfold slot_of; by rewrite lookup_empty|].
      intros ([e' v] & -> & He)%list_elem_of_fmap. rewrite iter_elem, elem_of_map_to_list in He.
      naive_solver.
Qed.

(** An account of the contents exists, and an id that is not there has no leaf. *)
Lemma exists_elem c sd ts a :
  trees_ok sd ts → (∀ e, slot_of ts e = slot_spec c e) →
  a ∈ dom (accounts c) ∪ dom (contract_code c) ∪ dom ts ↔ account_exists c a.
Proof.
  intros Hts Hslot. rewrite !elem_of_union, !elem_of_dom. unfold account_exists.
  assert (is_Some (ts !! a) ↔ slot_leaves c a ≠ ∅) as ->; [|tauto].
  assert (slot_leaves c a = default ∅ (leaves <$> ts !! a)) as ->.
  { apply map_eq. intros k. rewrite lookup_slot_leaves. fold (slot_spec c (a, k)).
    rewrite <- Hslot. unfold slot_of. simpl. destruct (ts !! a); simpl; [done|by rewrite lookup_empty]. }
  destruct (ts !! a) as [t|] eqn:E; simpl; [|by split; [intros []|]].
  destruct (Hts a t E) as (_ & _ & Hne). split; [done|by eexists].
Qed.

Lemma account_exists_scoped c a : scoped c → account_exists c a → a ∈ ids.
Proof.
  intros (Ha & Hc & Hs & _) [[? ?]|[[? ?]|Hne]].
  - apply Ha. by eapply elem_of_dom_2.
  - apply Hc. by eapply elem_of_dom_2.
  - apply map_choose in Hne as (k & v & Hk). rewrite lookup_slot_leaves in Hk.
    apply fmap_Some in Hk as (w & Hw & _). apply elem_of_dom_2 in Hw. by apply (Hs (a, k)).
Qed.

(** What a tree of the account tree's shape says, key by key. *)
Record leaves_ok (c : Contents V) (sd : nat) (m : gmap bytes Hash) : Prop := {
  lo_account : ∀ a, a ∈ ids → m !! a = account_spec c sd a;
  lo_qa : ∀ s, s ∈ subs → m !! qa_smt_key s = qa_spec c s;
  lo_other : ∀ k, k ∉ ids → (∀ s, s ∈ subs → k ≠ qa_smt_key s) → (∀ r, k ≠ reg_key r) → m !! k = None;
}.

Lemma leaves_committed c sd m :
  leaves_ok c sd m → (∀ r, m !! reg_key r = reg_spec c r) → m = committed_leaves c sd ids subs.
Proof. intros [] ?. by apply committed_leaves_unique. Qed.

(** After the registry loop. *)
Lemma registry_finish (c : Contents V) (sd : nat) (m m' : gmap bytes Hash) :
  (∀ e, e ∈ registry_leaves c → m' !! e.1 = e.2) →
  (∀ k, k ∉ (registry_leaves c).*1 → m' !! k = m !! k) →
  leaves_ok c sd m → leaves_ok c sd m' ∧ (∀ r, m' !! reg_key r = reg_spec c r).
Proof.
  intros Hin Hout [Ha Hq Ho].
  assert (∀ k, (∀ r, k ≠ reg_key r) → m' !! k = m !! k) as Hkeep.
  { intros k Hk. apply Hout. intros (e & -> & (r & ->)%registry_leaves_elem)%list_elem_of_fmap.
    by apply (Hk r). }
  split.
  - constructor.
    + intros a Hin'. rewrite Hkeep; [by apply Ha|]. intros r. by eapply sep_id_reg.
    + intros s Hin'. rewrite Hkeep; [by apply Hq|]. intros r. by eapply sep_qa_reg.
    + intros k ???. rewrite Hkeep by done. by apply Ho.
  - intros r. apply (Hin (reg_key r, reg_spec c r)), registry_leaves_elem. by exists r.
Qed.

Lemma registry_keys_functional c x y :
  x ∈ registry_leaves c → y ∈ registry_leaves c → x.1 = y.1 → x.2 = y.2.
Proof.
  intros (r & ->)%registry_leaves_elem (r' & ->)%registry_leaves_elem. simpl.
  by intros ->%(sep_reg_inj ids subs Hsep).
Qed.

(** The loop of [state_root], which also deletes. *)
Lemma registry_put_ok c n sd t :
  tree_of_depth n t → leaves_ok c sd (leaves t) →
  ∃ t', mfold (λ t e, put_leaf t e.1 e.2) t (registry_leaves c) = Some t' ∧ tree_of_depth n t' ∧
    leaves_ok c sd (leaves t') ∧ (∀ r, leaves t' !! reg_key r = reg_spec c r).
Proof.
  intros Ht Hlo.
  destruct (mfold_update (λ t e, put_leaf t e.1 e.2) (tree_of_depth n) (λ t k, leaves t !! k) fst snd
    t (registry_leaves c)) as (t' & -> & Ht' & Hin & Hout); auto.
  - intros. by apply put_leaf_ok.
  - apply registry_keys_functional.
  - exists t'. split; [done|]. split; [done|]. by apply (registry_finish c sd (leaves t)).
Qed.

(** The loop of [build_full], which starts with no registry leaf. *)
Lemma registry_insert_ok c n sd t :
  tree_of_depth n t → leaves_ok c sd (leaves t) → (∀ r, leaves t !! reg_key r = None) →
  ∃ t', mfold (λ t e, match e.2 with Some h => insert_leaf_hash t e.1 h | None => Some t end) t
          (registry_leaves c) = Some t' ∧ tree_of_depth n t' ∧
    leaves_ok c sd (leaves t') ∧ (∀ r, leaves t' !! reg_key r = reg_spec c r).
Proof.
  intros Ht Hlo Hr0.
  destruct (mfold_update
    (λ t e, match e.2 with Some h => insert_leaf_hash t e.1 h | None => Some t end)
    (λ t, tree_of_depth n t ∧ ∀ r, reg_spec c r = None → leaves t !! reg_key r = None)
    (λ t k, leaves t !! k) fst snd t (registry_leaves c)) as (t' & -> & [Ht' _] & Hin & Hout); auto.
  - intros t1 e (r & ->)%registry_leaves_elem [Ht1 Hr1]. simpl.
    destruct (reg_spec c r) as [h|] eqn:Er.
    + destruct (put_leaf_ok n t1 (reg_key r) (Some h) Ht1) as (t2 & Hput & Ht2 & Hl).
      exists t2. split_and!; [done|done| |done]. intros r' Hr'. rewrite Hl.
      case_decide as Heq; [|by apply Hr1]. apply (sep_reg_inj ids subs Hsep) in Heq. congruence.
    + exists t1. split_and!; [done|done|done|]. intros k. case_decide; [|done].
      subst. by apply Hr1.
  - apply registry_keys_functional.
  - exists t'. split; [done|]. split; [done|]. by apply (registry_finish c sd (leaves t)).
Qed.

(** The trees say exactly what the contents do. *)
Record trees_current (c : Contents V) (k : RootCache) (t : SparseMerkleTree)
    (ts : gmap AccountId SparseMerkleTree) : Prop := {
  tc_depth : tree_of_depth (account_depth k) t;
  tc_trees : trees_ok (storage_depth k) ts;
  tc_slots : ∀ e, slot_of ts e = slot_spec c e;
  tc_leaves : leaves_ok c (storage_depth k) (leaves t);
  tc_regs : ∀ r, leaves t !! reg_key r = reg_spec c r;
}.

(** The accounts' loop of a full build. *)
Lemma build_accounts_ok c n sd ts :
  scoped c → trees_ok sd ts → (∀ e, slot_of ts e = slot_spec c e) →
  ∃ p, mfold (λ p id, r ← storage_root_mut p.2 id;
                   t ← insert_leaf_hash p.1 id (account_leaf c id (default ZERO r.2));
                   Some (t, r.1))
         (with_max_depth n, ts)
         (iter (elements (dom (accounts c) ∪ dom (contract_code c) ∪ dom ts))) = Some p ∧
    trees_inv c n sd p ∧ (∀ a, leaves p.1 !! a = account_spec c sd a).
Proof.
  intros Hsc Hts Hslot.
  edestruct (mfold_update (λ p id, r ← storage_root_mut p.2 id;
      t ← insert_leaf_hash p.1 id (account_leaf c id (default ZERO r.2)); Some (t, r.1))
    (trees_inv c n sd) (λ p k, leaves p.1 !! k) (λ a, a) (account_spec c sd)
    (with_max_depth n, ts) (iter (elements (dom (accounts c) ∪ dom (contract_code c) ∪ dom ts))))
    as (p & Hp & Hinv & Hin & Hout).
  - intros p a Ha Hinv. apply build_account_ok; [|done].
    by rewrite iter_elem, elem_of_elements, (exists_elem c sd) in Ha.
  - naive_solver.
  - split_and!; [split; [apply with_max_depth_ok|done]|done|done].
  - exists p. split; [done|]. split; [done|]. intros a.
    destruct (decide (account_exists c a)) as [He|He].
    + apply Hin. by rewrite iter_elem, elem_of_elements, (exists_elem c sd).
    + rewrite Hout; [simpl; rewrite lookup_empty; unfold account_spec; by rewrite decide_False|].
      by rewrite list_fmap_id, iter_elem, elem_of_elements, (exists_elem c sd).
Qed.

Lemma qa_loop_ok c n sd t :
  scoped c → tree_of_depth n t → (∀ a, leaves t !! a = account_spec c sd a) →
  ∃ t', mfold (λ t e, insert_leaf_hash t (qa_smt_key e.1) (qa_commitment_hash e.2)) t
          (iter (map_to_list (qa_pending c))) = Some t' ∧
    tree_of_depth n t' ∧ leaves_ok c sd (leaves t') ∧ (∀ r, leaves t' !! reg_key r = None).
Proof.
  intros Hsc Ht Hacc. pose proof Hsc as (_ & _ & _ & Hqa).
  assert (∀ e, e ∈ iter (map_to_list (qa_pending c)) →
    qa_pending c !! e.1 = Some e.2 ∧ e.1 ∈ subs) as Helem.
  { intros [s rec] He. rewrite iter_elem, elem_of_map_to_list in He. split; [done|].
    apply Hqa. by eapply elem_of_dom_2. }
  assert (∀ k, k ∉ ids → account_spec c sd k = None) as Hnone.
  { intros k Hk. unfold account_spec. rewrite decide_False; [done|].
    intros He. by apply Hk, (account_exists_scoped c). }
  destruct (mfold_update (λ t e, insert_leaf_hash t (qa_smt_key e.1) (qa_commitment_hash e.2))
    (tree_of_depth n) (λ t k, leaves t !! k) (λ e, qa_smt_key e.1)
    (λ e, Some (qa_commitment_hash e.2)) t (iter (map_to_list (qa_pending c))))
    as (t' & -> & Ht' & Hin & Hout).
  - intros t1 e _ Ht1. by apply (put_leaf_ok n t1 (qa_smt_key e.1) (Some (qa_commitment_hash e.2))).
  - intros e1 e2 [He1 Hs1]%Helem [He2 Hs2]%Helem Heq.
    apply (sep_qa_inj ids subs Hsep) in Heq; [|done..]. congruence.
  - done.
  - assert (∀ k, (∀ s, s ∈ subs → k ≠ qa_smt_key s) → leaves t' !! k = account_spec c sd k) as Hkeep.
    { intros k Hk. rewrite Hout; [done|]. intros (e & -> & [_ Hs]%Helem)%list_elem_of_fmap.
      by apply (Hk e.1). }
    exists t'. split_and!; [done|done| |].
    + constructor.
      * intros a Ha. apply Hkeep. intros s Hs. by eapply sep_id_qa.
      * intros s Hs. unfold qa_spec. destruct (qa_pending c !! s) as [rec|] eqn:E; simpl.
        { apply (Hin (s, rec)). by rewrite iter_elem, elem_of_map_to_list. }
        rewrite Hout; [rewrite Hacc; apply Hnone; intros Hk; by eapply sep_id_qa|].
        intros (e & Heq & [He Hse]%Helem)%list_elem_of_fmap.
        apply (sep_qa_inj ids subs Hsep) in Heq; [|done..]. subst. by rewrite E in He.
      * intros k Hk Hkq _. rewrite Hkeep by done. by apply Hnone.
    + intros r. rewrite Hkeep; [apply Hnone; intros Hk; by eapply sep_id_reg|].
      intros s Hs Heq. by eapply sep_qa_reg.
Qed.

Lemma build_full_ok c k :
  scoped c → ∃ t ts, build_full c k = Some (t, ts) ∧ trees_current c k t ts.
Proof.
  intros Hsc. unfold build_full.
  destruct (build_storage_ok c (storage_depth k)) as (ts & -> & Hts & Hslot).
  cbn [mbind option_bind fst snd].
  destruct (build_accounts_ok c (account_depth k) (storage_depth k) ts Hsc Hts Hslot)
    as ([t1 ts1] & -> & (Ht1 & Hts1 & Hslot1) & Hacc).
  cbn [mbind option_bind fst snd].
  destruct (qa_loop_ok c (account_depth k) (storage_depth k) t1 Hsc Ht1 Hacc)
    as (t2 & -> & Ht2 & Hlo2 & Hreg2).
  cbn [mbind option_bind fst snd].
  destruct (registry_insert_ok c (account_depth k) (storage_depth k) t2 Ht2 Hlo2 Hreg2)
    as (t3 & -> & Ht3 & Hlo3 & Hreg3).
  cbn [mbind option_bind]. eexists _, _. by split.
Qed.

(** A tree that says what the contents do has the specified root. *)
Definition root_spec (c : Contents V) (k : RootCache) : Hash :=
  spec_root (account_depth k) (committed_leaves c (storage_depth k) ids subs).

Lemma current_root c k t ts : trees_current c k t ts → reference_root t = root_spec c k.
Proof.
  intros [[_ Hd] _ _ Hlo Hr]. unfold reference_root, root_spec, spec_root.
  by rewrite Hd, (leaves_committed c (storage_depth k) (leaves t)).
Qed.

Lemma full_rebuild_ok st :
  scoped (contents st) →
  state_root_full_rebuild st = Some (root_spec (contents st) (cache st)).
Proof.
  intros Hsc. unfold state_root_full_rebuild. set (c := contents st). set (k := cache st).
  destruct (build_full_ok c k Hsc) as (t & ts & -> & Hcur). cbn [mbind option_bind].
  destruct (mfold_update (λ t e, insert_leaf_hash t e.1 (account_leaf c e.1 (reference_root e.2)))
    (tree_of_depth (account_depth k)) (λ t k, leaves t !! k) fst
    (λ e, account_spec c (storage_depth k) e.1) t (iter (map_to_list ts)))
    as (t' & -> & Ht' & Hin & Hout).
  - intros t1 [a ta] He Ht1. simpl. rewrite iter_elem, elem_of_map_to_list in He.
    destruct Hcur as [_ Hts Hslots _ _]. destruct (Hts a ta He) as (_ & Hsd & Hne).
    assert (slot_leaves c a = leaves ta) as Hsl.
    { apply map_eq. intros key. rewrite lookup_slot_leaves. fold (slot_spec c (a, key)).
      rewrite <- Hslots. unfold slot_of. simpl. by rewrite He. }
    assert (account_spec c (storage_depth k) a = Some (account_leaf c a (reference_root ta))) as ->.
    { unfold account_spec, storage_root_spec. rewrite Hsl, (decide_False (P := leaves ta = ∅)) by done.
      rewrite decide_True; [|right; right; by rewrite Hsl].
      simpl. unfold reference_root. by rewrite Hsd. }
    by apply (put_leaf_ok (account_depth k) t1 a (Some _)).
  - intros [a1 t1] [a2 t2]. rewrite !iter_elem, !elem_of_map_to_list. naive_solver.
  - apply Hcur.
  - cbn [mbind option_bind]. rewrite <- (current_root c k t ts Hcur). f_equal.
    destruct Ht' as [_ Hd']. destruct Hcur as [[_ Hd] Hts Hsl Hlo _]. unfold reference_root.
    assert (leaves t' = leaves t) as ->; [|by rewrite Hd, Hd'].
    apply map_eq. intros a. destruct (decide (a ∈ (iter (map_to_list ts)).*1)) as [Ha|Ha].
    + apply list_elem_of_fmap in Ha as (e & -> & He). rewrite (Hin e He).
      symmetry. apply (lo_account _ _ _ Hlo), (account_exists_scoped c); [done|].
      apply (exists_elem c (storage_depth k) ts); [done..|].
      rewrite iter_elem in He. destruct e as [a ta]. apply elem_of_map_to_list in He.
      apply elem_of_union_r. by eapply elem_of_dom_2.
    + by apply Hout.
Qed.


(** ** The incremental root *)

(** The cached trees say what the contents do, but for what is marked dirty. *)
Record cache_current (c : Contents V) (k : RootCache) : Prop := {
  cc_depth : tree_of_depth (account_depth k) (account_tree k);
  cc_trees : trees_ok (storage_depth k) (storage_trees k);
  cc_slots : ∀ e, e ∉ dirty_slots k → slot_of (storage_trees k) e = slot_spec c e;
  cc_account : ∀ a, a ∈ ids → a ∉ dirty_accounts k →
    leaves (account_tree k) !! a = account_spec c (storage_depth k) a;
  cc_qa : ∀ s, s ∈ subs → s ∉ dirty_qa k → leaves (account_tree k) !! qa_smt_key s = qa_spec c s;
  cc_other : ∀ key, key ∉ ids → (∀ s, s ∈ subs → key ≠ qa_smt_key s) → (∀ r, key ≠ reg_key r) →
    leaves (account_tree k) !! key = None;
}.

Record cache_ok (c : Contents V) (k : RootCache) : Prop := {
  co_accounts : dirty_accounts k ⊆ ids;
  co_qa : dirty_qa k ⊆ subs;
  co_current : root_synced k = true → cache_current c k;
}.

Lemma current_cache c k t ts :
  trees_current c k t ts → cache_ok c (set_dirty (set_synced (set_trees k t ts) true) ∅ ∅ ∅).
Proof.
  intros [Hd Hts Hsl Hlo Hr]. constructor; simpl; [set_solver..|]. intros _.
  destruct Hlo as [Ha Hq Ho]. constructor; try done; intros; [by apply Ha|by apply Hq].
Qed.

(** The storage loop makes every slot right. *)
Lemma refresh_slots_ok c k :
  cache_current c k →
  ∃ ts, mfold (refresh_slot c (storage_depth k)) (storage_trees k) (iter (elements (dirty_slots k)))
      = Some ts ∧ trees_ok (storage_depth k) ts ∧ ∀ e, slot_of ts e = slot_spec c e.
Proof.
  intros Hk.
  destruct (mfold_update (refresh_slot c (storage_depth k)) (trees_ok (storage_depth k)) slot_of
    (λ e, e) (slot_spec c) (storage_trees k) (iter (elements (dirty_slots k))))
    as (ts & -> & Hts & Hin & Hout).
  - intros ts e _ Hts. by apply refresh_slot_ok.
  - naive_solver.
  - apply Hk.
  - exists ts. split; [done|]. split; [done|]. intros e.
    destruct (decide (e ∈ dirty_slots k)) as [He|He].
    + apply Hin. by rewrite iter_elem, elem_of_elements.
    + rewrite Hout; [by apply Hk|]. by rewrite list_fmap_id, iter_elem, elem_of_elements.
Qed.

Lemma refresh_accounts_ok c k ts :
  cache_current c k → dirty_accounts k ⊆ ids →
  trees_ok (storage_depth k) ts → (∀ e, slot_of ts e = slot_spec c e) →
  ∃ p, mfold (refresh_account c) (account_tree k, ts) (iter (elements (dirty_accounts k))) = Some p ∧
    trees_inv c (account_depth k) (storage_depth k) p ∧
    (∀ a, a ∈ ids → leaves p.1 !! a = account_spec c (storage_depth k) a) ∧
    (∀ key, key ∉ ids → leaves p.1 !! key = leaves (account_tree k) !! key).
Proof.
  intros Hk Hda Hts Hsl.
  destruct (mfold_update (refresh_account c) (trees_inv c (account_depth k) (storage_depth k))
    (λ p key, leaves p.1 !! key) (λ a, a) (account_spec c (storage_depth k)) (account_tree k, ts)
    (iter (elements (dirty_accounts k)))) as (p & -> & Hp & Hin & Hout).
  - intros p a _ Hp. by apply refresh_account_ok.
  - naive_solver.
  - split; [apply Hk|by split].
  - exists p. split; [done|]. split; [done|].
    assert (∀ key, key ∉ dirty_accounts k → leaves p.1 !! key = leaves (account_tree k) !! key) as Hkeep.
    { intros key Hkey. apply Hout. by rewrite list_fmap_id, iter_elem, elem_of_elements. }
    split; [|intros key Hkey; apply Hkeep; set_solver]. intros a Ha.
    destruct (decide (a ∈ dirty_accounts k)) as [Hdirty|Hclean].
    + apply Hin. by rewrite iter_elem, elem_of_elements.
    + rewrite Hkeep by done. by apply Hk.
Qed.

Lemma refresh_qa_ok c k t :
  cache_current c k → dirty_qa k ⊆ subs → tree_of_depth (account_depth k) t →
  (∀ a, a ∈ ids → leaves t !! a = account_spec c (storage_depth k) a) →
  (∀ key, key ∉ ids → leaves t !! key = leaves (account_tree k) !! key) →
  ∃ t', mfold (refresh_qa c) t (iter (elements (dirty_qa k))) = Some t' ∧
    tree_of_depth (account_depth k) t' ∧ leaves_ok c (storage_depth k) (leaves t').
Proof.
  intros Hk Hdq Ht Hacc Hrest.
  destruct (mfold_update (refresh_qa c) (tree_of_depth (account_depth k)) (λ t key, leaves t !! key)
    qa_smt_key (qa_spec c) t (iter (elements (dirty_qa k)))) as (t' & -> & Ht' & Hin & Hout).
  - intros t1 s _ Ht1. by apply put_leaf_ok.
  - intros x y. rewrite !iter_elem, !elem_of_elements. intros Hx Hy Heq.
    apply (sep_qa_inj ids subs Hsep) in Heq; [by subst|set_solver..].
  - done.
  - assert (∀ key, (∀ s, s ∈ dirty_qa k → key ≠ qa_smt_key s) → leaves t' !! key = leaves t !! key)
      as Hkeep.
    { intros key Hkey. apply Hout.
      intros (s & -> & Hs)%list_elem_of_fmap. rewrite iter_elem, elem_of_elements in Hs.
      by apply (Hkey s). }
    exists t'. split; [done|]. split; [done|]. constructor.
    + intros a Ha. rewrite Hkeep; [by apply Hacc|]. intros s Hs. eapply sep_id_qa; set_solver.
    + intros s Hs. destruct (decide (s ∈ dirty_qa k)) as [Hd|Hd].
      * apply Hin. by rewrite iter_elem, elem_of_elements.
      * rewrite Hkeep, Hrest; [by apply Hk| |].
        { intros Hi. by eapply sep_id_qa. }
        intros s' Hs' Heq%(sep_qa_inj ids subs Hsep); [by subst|set_solver..].
    + intros key Hki Hkq Hkr. rewrite Hkeep, Hrest by set_solver. by apply (cc_other c k).
Qed.

(** [state_root] gives the specified root, leaves the contents and the journal
    alone, and the caches without dirt. *)
Lemma state_root_ok st :
  scoped (contents st) → cache_ok (contents st) (cache st) →
  ∃ st', state_root st = Some (st', root_spec (contents st) (cache st)) ∧
    contents st' = contents st ∧ undo_log st' = undo_log st ∧
    storage_tree_v2_from st' = storage_tree_v2_from st ∧
    account_tree_v3_from st' = account_tree_v3_from st ∧
    storage_tree_deep (cache st') = storage_tree_deep (cache st) ∧
    account_tree_deep (cache st') = account_tree_deep (cache st) ∧
    root_synced (cache st') = true ∧ cache_ok (contents st) (cache st').
Proof.
  intros Hsc Hok. unfold state_root. set (c := contents st) in *. set (k := cache st) in *.
  assert (∃ k1 t ts, (if root_synced k then
         ts ← mfold (refresh_slot c (storage_depth k)) (storage_trees k)
                (iter (elements (dirty_slots k)));
         '(t, ts) ← mfold (refresh_account c) (account_tree k, ts)
                      (iter (elements (dirty_accounts k)));
         t ← mfold (refresh_qa c) t (iter (elements (dirty_qa k)));
         t ← mfold (λ t e, put_leaf t e.1 e.2) t (registry_leaves c);
         Some (set_dirty (set_trees k t ts) ∅ ∅ ∅)
       else
         '(t, ts) ← build_full c k;
         Some (set_dirty (set_synced (set_trees k t ts) true) ∅ ∅ ∅)) = Some k1 ∧
    k1 = set_dirty (set_synced (set_trees k t ts) true) ∅ ∅ ∅ ∧ trees_current c k t ts)
    as (k1 & t & ts & -> & -> & Hcur).
  { destruct (root_synced k) eqn:Hs.
    - pose proof (co_current c k Hok Hs) as Hk.
      destruct (refresh_slots_ok c k Hk) as (ts & -> & Hts & Hsl). cbn [mbind option_bind].
      destruct (refresh_accounts_ok c k ts Hk (co_accounts c k Hok) Hts Hsl)
        as ([t1 ts1] & -> & (Ht1 & Hts1 & Hsl1) & Hacc & Hrest). cbn [mbind option_bind fst snd] in *.
      destruct (refresh_qa_ok c k t1 Hk (co_qa c k Hok) Ht1 Hacc Hrest) as (t2 & -> & Ht2 & Hlo).
      cbn [mbind option_bind].
      destruct (registry_put_ok c (account_depth k) (storage_depth k) t2 Ht2 Hlo)
        as (t3 & -> & Ht3 & Hlo3 & Hr3). cbn [mbind option_bind].
      eexists _, t3, ts1. split; [done|]. split; [|done].
      unfold set_dirty, set_synced, set_trees. simpl. by rewrite Hs.
    - destruct (build_full_ok c k Hsc) as (t & ts & -> & Hcur). simpl. eauto 6. }
  cbn [mbind option_bind]. pose proof (current_cache c k t ts Hcur) as Hck.
  destruct (smt_root_ok t) as (t' & Hroot & Hok' & Hl & Hd); [apply Hcur|].
  simpl. rewrite Hroot, (current_root c k t ts Hcur). simpl.
  eexists. split; [done|]. split_and!; try done.
  destruct Hck as [? ? Hcc]. constructor; [done..|]. intros _. destruct (Hcc eq_refl) as [[Hdk1 Hdk2]].
  simpl in *. constructor; simpl; try done; rewrite ?Hl; try done. split; [done|rewrite Hd; exact Hdk2].
Qed.

(** ** Writes keep the cache invariant *)

(** The key an undo record is about is in scope. *)
Definition undo_scoped (u : Undo V) : Prop :=
  match u with
  | UndoAccount id _ | UndoCode id _ => id ∈ ids
  | UndoStorage k _ => k.1 ∈ ids
  | UndoQaPending s _ => s ∈ subs
  | UndoRegistry _ _ => True
  end.

(** [c'] differs from [c] at most at the key of [u]. *)
Definition differs_at (u : Undo V) (c c' : Contents V) : Prop :=
  match u with
  | UndoAccount id _ =>
      (∀ a, a ≠ id → accounts c' !! a = accounts c !! a) ∧ contract_code c' = contract_code c ∧
      contract_storage c' = contract_storage c ∧ qa_pending c' = qa_pending c
  | UndoCode id _ =>
      accounts c' = accounts c ∧ (∀ a, a ≠ id → contract_code c' !! a = contract_code c !! a) ∧
      contract_storage c' = contract_storage c ∧ qa_pending c' = qa_pending c
  | UndoStorage k _ =>
      accounts c' = accounts c ∧ contract_code c' = contract_code c ∧
      (∀ e, e ≠ k → contract_storage c' !! e = contract_storage c !! e) ∧
      qa_pending c' = qa_pending c
  | UndoQaPending s _ =>
      accounts c' = accounts c ∧ contract_code c' = contract_code c ∧
      contract_storage c' = contract_storage c ∧
      (∀ s', s' ≠ s → qa_pending c' !! s' = qa_pending c !! s')
  | UndoRegistry _ _ =>
      accounts c' = accounts c ∧ contract_code c' = contract_code c ∧
      contract_storage c' = contract_storage c ∧ qa_pending c' = qa_pending c
  end.

Lemma slot_leaves_ext c c' a :
  (∀ key, contract_storage c' !! (a, key) = contract_storage c !! (a, key)) →
  slot_leaves c' a = slot_leaves c a.
Proof. intros Heq. apply map_eq. intros key. by rewrite !lookup_slot_leaves, Heq. Qed.

Lemma account_spec_ext c c' sd a :
  accounts c' !! a = accounts c !! a → contract_code c' !! a = contract_code c !! a →
  (∀ key, contract_storage c' !! (a, key) = contract_storage c !! (a, key)) →
  account_spec c' sd a = account_spec c sd a.
Proof.
  intros Ha Hc Hs. apply slot_leaves_ext in Hs.
  unfold account_spec, storage_root_spec, account_leaf, code_hash_of. rewrite Ha, Hc, Hs.
  assert (account_exists c' a ↔ account_exists c a) as Hiff.
  { unfold account_exists. by rewrite Ha, Hc, Hs. }
  repeat case_decide; tauto.
Qed.

Lemma dom_differs {K A} `{Countable K} (m m' : gmap K A) (k : K) (P : K → Prop) :
  (∀ j, j ≠ k → m' !! j = m !! j) → P k → (∀ j, j ∈ dom m → P j) → ∀ j, j ∈ dom m' → P j.
Proof.
  intros Heq Hk Hm j Hj. destruct (decide (j = k)) as [->|Hne]; [done|].
  apply Hm. rewrite elem_of_dom in Hj |- *. by rewrite <- Heq.
Qed.

Lemma scoped_differs u c c' : scoped c → undo_scoped u → differs_at u c c' → scoped c'.
Proof.
  intros (Ha & Hc & Hs & Hq) Hu Hd. unfold scoped.
  destruct u; simpl in *; destruct Hd as (E1 & E2 & E3 & E4); split_and!;
    rewrite ?E1, ?E2, ?E3, ?E4; try done.
  - intros x. by apply (dom_differs (accounts c) _ id (λ a, a ∈ ids)).
  - intros x. by apply (dom_differs (contract_code c) _ id (λ a, a ∈ ids)).
  - intros x. by apply (dom_differs (contract_storage c) _ k (λ e, e.1 ∈ ids)).
  - intros x. by apply (dom_differs (qa_pending c) _ k (λ s, s ∈ subs)).
Qed.

Lemma undo_marks_unsynced (u : Undo V) k : root_synced k = false → undo_marks u k = k.
Proof. intros E. destruct u; simpl; unfold mark_account, mark_slot, mark_qa; by rewrite ?E. Qed.

(** A change at a key that is marked dirty. *)
Lemma cache_ok_differs u c c' k :
  cache_ok c k → undo_scoped u → differs_at u c c' → cache_ok c' (undo_marks u k).
Proof.
  intros [Hda Hdq Hcur] Hu Hd. destruct (root_synced k) eqn:Hs.
  2:{ rewrite undo_marks_unsynced by done. constructor; [done..|]. by rewrite Hs. }
  specialize (Hcur eq_refl). destruct Hcur as [Hdep Hts Hsl Hacc Hqa Ho].
  destruct u as [id prev|id prev|e prev|s prev|r prev]; simpl in Hu, Hd |- *;
    unfold mark_account, mark_slot, mark_qa; rewrite ?Hs; destruct Hd as (E1 & E2 & E3 & E4);
    (constructor; simpl; [set_solver..|]); intros _; constructor; simpl; try done.
  - unfold slot_spec. by rewrite E3.
  - intros a Hi Hn. rewrite Hacc by set_solver. symmetry.
    apply account_spec_ext; [apply E1; set_solver|by rewrite E2|by rewrite E3].
  - unfold qa_spec. by rewrite E4.
  - unfold slot_spec. by rewrite E3.
  - intros a Hi Hn. rewrite Hacc by set_solver. symmetry.
    apply account_spec_ext; [by rewrite E1|apply E2; set_solver|by rewrite E3].
  - unfold qa_spec. by rewrite E4.
  - intros e' Hn. rewrite Hsl by (destruct e; set_solver). unfold slot_spec.
    rewrite E3; [done|]. destruct e; set_solver.
  - intros a Hi Hn. rewrite Hacc by set_solver. symmetry.
    apply account_spec_ext; [by rewrite E1|by rewrite E2|]. intros key. apply E3.
    intros <-. set_solver.
  - unfold qa_spec. by rewrite E4.
  - unfold slot_spec. by rewrite E3.
  - intros a Hi Hn. rewrite Hacc by done. symmetry.
    apply account_spec_ext; [by rewrite E1|by rewrite E2|by rewrite E3].
  - intros s' Hi Hn. rewrite Hqa by set_solver. unfold qa_spec. rewrite E4; [done|set_solver].
  - unfold slot_spec. by rewrite E3.
  - intros a Hi Hn. rewrite Hacc by done. symmetry.
    apply account_spec_ext; [by rewrite E1|by rewrite E2|by rewrite E3].
  - unfold qa_spec. by rewrite E4.
Qed.

Record store_inv (st : StateStore V) : Prop := {
  si_scoped : scoped (contents st);
  si_cache : cache_ok (contents st) (cache st);
  si_journal : Forall undo_scoped (journal (undo_log st));
}.

(** The write a record announces. *)
Lemma write_inv u st c' :
  store_inv st → undo_scoped u → differs_at u (contents st) c' →
  store_inv (set_contents (record u st) c').
Proof.
  intros [Hsc Hca Hj] Hu Hd. constructor; simpl.
  - by eapply scoped_differs.
  - rewrite record_cache. by eapply cache_ok_differs.
  - rewrite record_log. simpl. case_match; simpl; [by constructor|constructor].
Qed.

Lemma record_inv u st : store_inv st → undo_scoped u → store_inv (record u st).
Proof.
  intros Hst Hu. assert (record u st = set_contents (record u st) (contents st)) as ->.
  { rewrite <- (record_contents u st). by destruct (record u st). }
  apply write_inv; [done..|]. by destruct u.
Qed.

Lemma undo_until_inv pos j c k :
  Forall undo_scoped j → scoped c → cache_ok c k →
  let '(j', c', k') := undo_until pos j c k in
  Forall undo_scoped j' ∧ scoped c' ∧ cache_ok c' k'.
Proof.
  intros Hj. revert c k. induction Hj as [|u j Hu Hj IH]; intros c k Hsc Hca; simpl; [done|].
  destruct (pos <? _)%nat; [|by split_and!; [constructor|..]].
  assert (differs_at u c (undo_contents u c)) as Hd.
  { destruct u; simpl; split_and!; try done; intros; by apply lookup_partial_alter_ne. }
  apply IH; [by eapply scoped_differs|by eapply cache_ok_differs].
Qed.

Definition op_scoped (op : StoreOp (V := V)) : Prop :=
  match op with
  | OpInsert id _ | OpGetMut id _ | OpSetCode id _ => id ∈ ids
  | OpStorage a _ _ => a ∈ ids
  | OpQaMut s _ | OpQaInsert s _ | OpQaRemove s => s ∈ subs
  | OpLoadQa items => Forall (λ e, e.1 ∈ subs) items
  | _ => True
  end.

#[global] Instance op_scoped_dec op : Decision (op_scoped op).
Proof. destruct op; simpl; apply _. Defined.

Lemma get_mut_inv id f st : store_inv st → id ∈ ids → store_inv (get_mut id f st).
Proof.
  intros Hst Hid. unfold get_mut, write_accounts. case_decide as Hs.
  - rewrite record_account_eq. apply write_inv; [done..|]. rewrite record_contents. simpl.
    split_and!; try done. intros a Ha. by rewrite lookup_alter_ne.
  - assert (alter f id (accounts (contents st)) = accounts (contents st)) as ->.
    { apply map_eq. intros a. destruct (decide (a = id)) as [->|Hne]; [|by apply lookup_alter_ne].
      rewrite lookup_alter_eq. unfold get in Hs. apply eq_None_not_Some in Hs. by rewrite Hs. }
    by destruct st as [[] ? ? ? ?].
Qed.

Lemma qa_write_inv s st m' :
  store_inv st → s ∈ subs → (∀ s', s' ≠ s → m' !! s' = qa_pending (contents st) !! s') →
  store_inv (write_qa (record_qa s st) m').
Proof.
  intros Hst Hs Hm. rewrite record_qa_eq. unfold write_qa. apply write_inv; [done..|].
  rewrite record_contents. by simpl.
Qed.

Lemma write_qa_same (st : StateStore V) : write_qa st (qa_pending (contents st)) = st.
Proof. by destruct st as [[] ? ? ? ?]. Qed.

Lemma journaling_inv st : store_inv st → store_inv (journaling st).1.
Proof.
  intros [? ? ?]. unfold journaling. case_match; constructor; simpl; done || constructor.
Qed.

Lemma journaling_contents (st : StateStore V) : contents (journaling st).1 = contents st.
Proof. unfold journaling. by case_match. Qed.

Lemma record_qas_inv subjects st :
  store_inv st → Forall (λ s, s ∈ subs) subjects →
  store_inv (foldl (λ st s, record_qa s st) st subjects) ∧
  contents (foldl (λ st s, record_qa s st) st subjects) = contents st.
Proof.
  intros Hst Hs. revert st Hst. induction Hs as [|s l Hs Hl IH]; intros st Hst; simpl; [done|].
  destruct (IH (record_qa s st)) as [Hi Hc].
  - rewrite record_qa_eq. by apply record_inv.
  - split; [done|]. rewrite Hc, record_qa_eq. apply record_contents.
Qed.

Lemma load_map_dom (items : list (Hash * QaPendingRecord)) (m : gmap Hash QaPendingRecord) :
  Forall (λ e, e.1 ∈ subs) items → dom m ⊆ subs →
  dom (foldl (λ m e, <[e.1 := e.2]> m) m items) ⊆ subs.
Proof.
  intros Hit. revert m. induction Hit as [|[s r] l Hs Hl IH]; intros m Hm; simpl in *; [done|].
  apply IH. rewrite dom_insert_L. set_solver.
Qed.

Lemma load_qa_inv items st :
  store_inv st → Forall (λ e, e.1 ∈ subs) items → store_inv (load_qa_pending items st).
Proof.
  intros Hst Hit. unfold load_qa_pending.
  pose proof (journaling_inv st Hst) as Hst1. destruct (journaling st) as [st1 on]. simpl in Hst1.
  set (subjects := iter (map_to_list (qa_pending (contents st1))).*1 ++ items.*1).
  assert (Forall (λ s, s ∈ subs) subjects) as Hsub.
  { apply Forall_app. split.
    - rewrite iter_perm, Forall_fmap, Forall_forall. intros [s r] Hin%elem_of_map_to_list. simpl.
      apply (si_scoped st1 Hst1). by eapply elem_of_dom_2.
    - by rewrite Forall_fmap. }
  set (st2 := if on then _ else st1).
  assert (store_inv st2) as [(Ha & Hc & Hs & Hq) [Hda Hdq _] Hj].
  { unfold st2. destruct on; [|done]. by apply record_qas_inv. }
  constructor; simpl; [|by constructor|done]. split_and!; simpl; try done. by apply load_map_dom.
Qed.

Lemma registry_inv r f st : store_inv st → store_inv (registry_mut r f st).
Proof.
  intros Hst. unfold registry_mut. pose proof (journaling_inv st Hst) as Hst1.
  destruct (journaling st) as [st1 on]. simpl in Hst1.
  set (st2 := if on && _ then _ else st1).
  assert (store_inv st2) as [Hsc Hca Hj].
  { unfold st2. destruct (on && _); [|done]. destruct Hst1. constructor; simpl; try done.
    by constructor. }
  assert (∀ v, differs_at (UndoRegistry r v) (contents st2)
    (set_registry (contents st2) r (f (registries (contents st2) r)))) as Hd by done.
  constructor; simpl; [|by apply (cache_ok_differs (UndoRegistry r (reg_default r)) (contents st2))|done].
  by apply (scoped_differs (UndoRegistry r (reg_default r)) (contents st2)).
Qed.

Lemma revert_inv cp st : store_inv st → store_inv (revert cp st).
Proof.
  intros [Hsc Hca Hj]. unfold revert.
  pose proof (undo_until_inv (cp_pos cp) _ _ _ Hj Hsc Hca) as Hu.
  destruct (undo_until _ _ _ _) as [[j c] k]. destruct Hu as (? & ? & ?). by constructor.
Qed.

Lemma switch_ok c k ws wa : cache_ok c k → cache_ok c (switch_depth ws wa k).
Proof.
  intros [Hda Hdq Hcur]. unfold switch_depth.
  repeat case_match; constructor; simpl in *; done || congruence.
Qed.

Lemma state_root_inv st :
  store_inv st → ∃ st', state_root st = Some (st', root_spec (contents st) (cache st)) ∧
    store_inv st' ∧ contents st' = contents st ∧
    storage_depth (cache st') = storage_depth (cache st) ∧
    account_depth (cache st') = account_depth (cache st) ∧ root_synced (cache st') = true.
Proof.
  intros [Hsc Hca Hj]. destruct (state_root_ok st Hsc Hca)
    as (st' & -> & Hc & Hl & _ & _ & Hsd & Had & Hsy & Hca'). exists st'. split; [done|].
  unfold storage_depth, account_depth. rewrite Hsd, Had, Hc. split_and!; try done.
  constructor; [by rewrite Hc|by rewrite Hc|by rewrite Hl].
Qed.

(** The cache with the depths in force at a height. *)
Definition cache_at (h : Z) (st : StateStore V) : RootCache :=
  switch_depth (active_at (storage_tree_v2_from st) h) (active_at (account_tree_v3_from st) h) (cache st).

Lemma switch_inv h st : store_inv st → store_inv (set_cache st (cache_at h st)).
Proof. intros [? ? ?]. constructor; simpl; [done|by apply switch_ok|done]. Qed.

Lemma prove_account_inv id st :
  store_inv st → ∃ st' p, prove_account id st = Some (st', p) ∧ store_inv st'.
Proof.
  intros Hst. unfold prove_account.
  destruct (state_root_inv st Hst) as (st1 & -> & [Hsc [Hda Hdq Hcur] Hj] & _ & _ & _ & Hsy).
  destruct (Hcur Hsy) as [[Hok Hd] ? ? ? ? ?]. cbn [mbind option_bind fst].
  destruct (smt_apply_ok _ (SmtProve id) Hok) as (t' & Hp & Hok' & Hl & Hd'). simpl in Hp, Hl.
  destruct (prove (account_tree (cache st1)) id) as [[t p]|]; [|done]. simplify_eq/=.
  eexists _, p. split; [done|]. constructor; simpl; [done| |done].
  constructor; simpl; [done..|]. intros _. constructor; simpl; rewrite ?Hl; try done.
  split; [done|]. by rewrite Hd'.
Qed.


Lemma apply_store_op_inv st op :
  store_inv st → op_scoped op → ∃ st', apply_store_op st op = Some st' ∧ store_inv st'.
Proof.
  intros Hst Hop. destruct op as [id a|id f|id c|a key v|s f|s r|s|items|r f| | |cp|h|id|v2 v3|];
    simpl in *; try (eexists; split; [reflexivity|]).
  - unfold insert_account, write_accounts. rewrite record_account_eq. apply write_inv; [done..|].
    rewrite record_contents. simpl. split_and!; try done. intros b Hb. by rewrite lookup_insert_ne.
  - by apply get_mut_inv.
  - rewrite set_contract_code_eq. apply write_inv; [done..|]. simpl. split_and!; try done.
    intros b Hb. by rewrite lookup_insert_ne.
  - unfold merge_contract_storage. rewrite record_storage_eq. apply write_inv; [done..|].
    rewrite record_contents. simpl. split_and!; try done. intros e He. by rewrite lookup_insert_ne.
  - unfold qa_pending_mut. case_decide as Hs.
    + apply qa_write_inv; [done..|]. intros s' Hne. rewrite record_qa_eq, record_contents.
      by rewrite lookup_alter_ne.
    + rewrite alter_id; [by rewrite write_qa_same|]. intros x Hx. destruct Hs. by eexists.
  - apply qa_write_inv; [done..|]. intros s' Hne. rewrite record_qa_eq, record_contents.
    by rewrite lookup_insert_ne.
  - unfold remove_qa_pending. case_decide as Hs.
    + apply qa_write_inv; [done..|]. intros s' Hne. rewrite record_qa_eq, record_contents.
      by rewrite lookup_delete_ne.
    + rewrite delete_id; [by rewrite write_qa_same|]. by apply eq_None_not_Some.
  - by apply load_qa_inv.
  - by apply registry_inv.
  - unfold checkpoint. pose proof (journaling_inv st Hst) as Hst1.
    destruct (journaling st) as [st1 on]. by destruct Hst1.
  - by destruct Hst.
  - by apply revert_inv.
  - unfold state_root_at_height. fold (cache_at h st).
    destruct (state_root_inv _ (switch_inv h st Hst)) as (st' & -> & Hst' & _). by exists st'.
  - destruct (prove_account_inv id st Hst) as (st' & p & -> & Hst'). by exists st'.
  - by destruct Hst.
  - by destruct Hst.
Qed.

Lemma new_store_inv : store_inv new_store.
Proof.
  constructor; simpl; [|by constructor|constructor].
  split_and!; simpl; rewrite ?dom_empty_L; set_solver.
Qed.

Lemma run_store_inv ops st :
  store_inv st → Forall op_scoped ops → ∃ st', run_store st ops = Some st' ∧ store_inv st'.
Proof.
  intros Hst Hops. revert st Hst. unfold run_store.
  induction Hops as [|op ops Hop Hops IH]; intros st Hst; simpl; [by eauto|].
  destruct (apply_store_op_inv st op Hst Hop) as (st1 & -> & Hst1). by apply IH.
Qed.

Lemma cache_at_depths h st :
  storage_depth (cache_at h st) =
    (if active_at (storage_tree_v2_from st) h then DEEP_MAX_DEPTH else LEGACY_MAX_DEPTH) ∧
  account_depth (cache_at h st) =
    (if active_at (account_tree_v3_from st) h then DEEP_MAX_DEPTH else LEGACY_MAX_DEPTH).
Proof.
  unfold cache_at, switch_depth, storage_depth, account_depth.
  destruct (active_at (storage_tree_v2_from st) h), (active_at (account_tree_v3_from st) h),
    (storage_tree_deep (cache st)) eqn:E1, (account_tree_deep (cache st)) eqn:E2;
    simpl; rewrite ?E1, ?E2; simpl; rewrite ?E1, ?E2; done.
Qed.

End FullBuild.

(** C8: after any history of writes, checkpoints, reverts (to any position),
    dropped handles, activations, proofs and earlier roots, the incremental
    [state_root_at_height] ends and gives the root of the leaves the contents
    commit to at the depths in force, whatever the iteration order of the hash
    maps; a full rebuild gives the same. The accounts and pending items of the
    history are among [ids] and [subs], which must keep the tree's keys apart: no
    account id may be the key of a registry or of a pending item. *)
Theorem state_root_incremental `{Iteration} ids subs ops h :
  keys_separate ids subs → Forall (op_scoped ids subs) ops →
  ∃ st st' root, run_store new_store ops = Some st ∧
    state_root_at_height h st = Some (st', root) ∧
    contents st' = contents st ∧
    root = spec_root
      (if active_at (account_tree_v3_from st) h then DEEP_MAX_DEPTH else LEGACY_MAX_DEPTH)
      (committed_leaves (contents st)
         (if active_at (storage_tree_v2_from st) h then DEEP_MAX_DEPTH else LEGACY_MAX_DEPTH) ids subs) ∧
    state_root_full_rebuild st' = Some root.
Proof.
  intros Hsep Hops.
  destruct (run_store_inv ids subs Hsep ops new_store (new_store_inv ids subs Hsep) Hops)
    as (st & Hrun & Hst).
  destruct (state_root_inv ids subs Hsep _ (switch_inv ids subs h st Hst))
    as (st' & Hroot & Hst' & Hc & Hsd & Had & _).
  exists st, st', (root_spec ids subs (contents st) (cache_at h st)). split_and!; try done.
  - unfold root_spec. by destruct (cache_at_depths h st) as [-> ->].
  - rewrite (full_rebuild_ok ids subs Hsep); [|apply Hst']. unfold root_spec.
    by rewrite Had, Hsd, Hc.
Qed.

End RootSpec.

(** ** Why the keys must be apart *)

Module Collision.

Import SampleStore.
#[local] Existing Instances no_registries in_order.
#[local] Instance sample : Host := sample_host.

(** A transfer to the tree key of the (empty) name registry. *)
Definition collided : StateStore () :=
  insert_account (reg_key Names) (mkAccountState 5 0 0 0 0) new_store.

(** [state_root] is not a function of the state when an account has the
    tree key of an empty registry as its id, which a transfer to that address
    brings about: the first call commits the account's leaf, the second deletes
    it, so a running node and one that restarted (or
    [state_root_full_rebuild]) disagree about the root of the same contents. *)
Theorem registry_key_account_splits_root :
  ∃ r1 r2,
    snd <$> state_root collided = Some r1 ∧
    (p ← state_root collided; snd <$> state_root p.1) = Some r2 ∧
    (p ← state_root collided; state_root_full_rebuild p.1) = Some r1 ∧ r1 ≠ r2.
Proof.
  eexists _, _. split; [vm_compute; reflexivity|]. split; [vm_compute; reflexivity|].
  split; [vm_compute; reflexivity|]. done.
Qed.

(** An account, a root, a checkpoint, a write that is reverted, a slot. *)
Definition history : list (StoreOp (V := ())) :=
  [OpInsert (account 1) (mkAccountState 5 0 0 0 0); OpRoot 0; OpCheckpoint;
   OpInsert (account 2) (mkAccountState 7 0 0 0 0); OpRevert (mkCheckpoint 0);
   OpStorage (account 1) (account 9) (account 4)].

Lemma state_root_incremental_witness :
  keys_separate {[account 1; account 2]} ∅ ∧
  ∃ st st' root, run_store new_store history = Some st ∧ state_root_at_height 3 st = Some (st', root) ∧
    state_root_full_rebuild st' = Some root.
Proof.
  assert (bool_decide (keys_separate {[account 1; account 2]} ∅) = true) as Hs
    by (vm_compute; reflexivity).
  assert (bool_decide (Forall (op_scoped {[account 1; account 2]} ∅) history) = true) as Ho
    by (vm_compute; reflexivity).
  apply bool_decide_eq_true_1 in Hs, Ho. split; [exact Hs|].
  destruct (state_root_incremental {[account 1; account 2]} ∅ history 3 Hs Ho)
    as (st & st' & root & H1 & H2 & _ & _ & H3).
  exists st, st', root. split; [exact H1|]. split; [exact H2|exact H3].
Defined.

End Collision.
