(* ===== verification/StoreUndo.v ===== *)
(** * Checkpoints of the store

    About the undo journal of [Store.v]: [revert] restores every part of the
    contents at its checkpoint, after any writes, nested checkpoints, inner
    reverts and roots in between. Registries are restored although a registry is
    snapshotted at most once per checkpoint level. *)

From S2P Require Import Prelude Types Merkle Store StoreLaws.

Section Undo.
Context `{Host} {V : Type} `{Registries V} `{Iteration}.

(** Equal contents; registries pointwise. *)
Record same_contents (c c' : Contents V) : Prop := {
  sc_accounts : accounts c = accounts c';
  sc_code : contract_code c = contract_code c';
  sc_storage : contract_storage c = contract_storage c';
  sc_qa : qa_pending c = qa_pending c';
  sc_registries : ∀ r, registries c r = registries c' r;
}.

#[global] Instance same_contents_equiv : Equivalence same_contents.
Proof.
  split.
  - intros c. by constructor.
  - intros c c' []. by constructor.
  - intros c1 c2 c3 [] []. constructor; congruence.
Qed.

Definition undo_list (us : list (Undo V)) (c : Contents V) : Contents V :=
  foldl (λ c u, undo_contents u c) c us.

#[global] Instance undo_contents_proper u : Proper (same_contents ==> same_contents) (undo_contents u).
Proof.
  intros c c' [Ha Hc Hs Hq Hr]. destruct u; constructor; simpl; try congruence; try exact Hr.
  intros r'. case_decide; [done|apply Hr].
Qed.

#[global] Instance undo_list_proper us : Proper (same_contents ==> same_contents) (undo_list us).
Proof.
  induction us as [|u us IH]; intros c c' Hc; simpl; [done|]. by apply IH, undo_contents_proper.
Qed.

(** A loop of [revert] undoes the newest records down to the position. *)
Lemma undo_until_list pos j c k :
  ∃ k', undo_until pos j c k =
    (drop (length j - pos) j, undo_list (take (length j - pos) j) c, k').
Proof.
  revert c k. induction j as [|u j IH]; intros c k; simpl; [by eexists|].
  destruct (Nat.ltb_spec pos (S (length j))) as [Hlt|Hge].
  - destruct (IH (undo_contents u c) (undo_marks u k)) as (k' & ->).
    replace (S (length j) - pos)%nat with (S (length j - pos)) by lia. by exists k'.
  - replace (S (length j) - pos)%nat with 0%nat by lia. by exists k.
Qed.

(** ** Invariants of the journal *)

(** A registry's snapshot position is that of one of its undo records. *)
Definition snaps_ok (l : UndoLog V) : Prop :=
  ∀ r p, snap_pos l r = Some p →
    (p < length (journal l))%nat ∧
    ∃ v, journal l !! (length (journal l) - 1 - p)%nat = Some (UndoRegistry r v).

(** Undoing the journal down to [base] gives [c0]; [n] handles are alive. *)
Record undoes_to (base n : nat) (c0 : Contents V) (st : StateStore V) : Prop := {
  ut_live : (n ≤ live (undo_log st))%nat;
  ut_base : (base ≤ length (journal (undo_log st)))%nat;
  ut_last : (base ≤ last_cp_pos (undo_log st))%nat;
  ut_undo : same_contents
    (undo_list (take (length (journal (undo_log st)) - base) (journal (undo_log st))) (contents st)) c0;
}.

Lemma restore_eq {K A} `{Countable K} (k : K) (m m' : gmap K A) :
  (∀ j, j ≠ k → m' !! j = m !! j) → restore k (m !! k) m' = m.
Proof.
  intros Hm. apply map_eq. intros j. unfold restore. destruct (decide (j = k)) as [->|Hne].
  - by rewrite lookup_partial_alter_eq.
  - by rewrite lookup_partial_alter_ne, Hm.
Qed.

Lemma snaps_push l u :
  snaps_ok l → snaps_ok (mkLog (u :: journal l) (live l) (last_cp_pos l) (snap_pos l)).
Proof.
  intros Hl r p Hp. destruct (Hl r p Hp) as (Hlt & v & Hv). simpl in *. split; [lia|].
  exists v. by replace (length (journal l) - 0 - p)%nat with (S (length (journal l) - 1 - p)) by lia.
Qed.

Lemma snaps_none (j : list (Undo V)) n p : snaps_ok (mkLog j n p (λ _, None)).
Proof. by intros r q. Qed.

Lemma record_snaps u st : snaps_ok (undo_log st) → snaps_ok (undo_log (record u st)).
Proof.
  intros Hl. rewrite record_log. simpl. case_match; [by apply snaps_push|apply snaps_none].
Qed.

(** A journaled write whose undo record restores the contents before it. *)
Lemma write_undoes base n c0 st u c' :
  undoes_to base n c0 st → (0 < n)%nat → same_contents (undo_contents u c') (contents st) →
  undoes_to base n c0 (set_contents (record u st) c').
Proof.
  intros [Hl Hb Hlast Hu] Hn Hc. constructor; simpl; rewrite record_log; simpl;
    destruct (Nat.ltb_spec 0 (live (undo_log st))); try lia; simpl; try lia.
  replace (S (length (journal (undo_log st))) - base)%nat
    with (S (length (journal (undo_log st)) - base)) by lia.
  simpl. by rewrite Hc.
Qed.

Lemma account_write_undoes base n c0 st id m' :
  undoes_to base n c0 st → (0 < n)%nat →
  (∀ a, a ≠ id → m' !! a = accounts (contents st) !! a) →
  undoes_to base n c0 (write_accounts (record_account id st) m').
Proof.
  intros Hst Hn Hm. rewrite record_account_eq. unfold write_accounts. rewrite record_contents.
  apply write_undoes; [done..|]. constructor; try done. simpl. by apply restore_eq.
Qed.

Lemma qa_write_undoes base n c0 st s m' :
  undoes_to base n c0 st → (0 < n)%nat →
  (∀ a, a ≠ s → m' !! a = qa_pending (contents st) !! a) →
  undoes_to base n c0 (write_qa (record_qa s st) m').
Proof.
  intros Hst Hn Hm. rewrite record_qa_eq. unfold write_qa. rewrite record_contents.
  apply write_undoes; [done..|]. constructor; try done. simpl. by apply restore_eq.
Qed.

(** Contents that agree but for one registry. *)
Record same_but (r : RegId) (c c' : Contents V) : Prop := {
  sb_accounts : accounts c = accounts c';
  sb_code : contract_code c = contract_code c';
  sb_storage : contract_storage c = contract_storage c';
  sb_qa : qa_pending c = qa_pending c';
  sb_registries : ∀ r', r' ≠ r → registries c r' = registries c' r';
}.

(** A snapshot in the undone part makes the registry's later writes irrelevant. *)
Lemma undo_list_registry us c c' r v :
  UndoRegistry r v ∈ us → same_but r c c' → same_contents (undo_list us c) (undo_list us c').
Proof.
  revert c c'. induction us as [|u us IH]; intros c c' Hin [Ha Hc Hs Hq Hr];
    [by apply elem_of_nil in Hin|].
  apply elem_of_cons in Hin as [<-|Hin]; simpl.
  - apply undo_list_proper. constructor; try done. intros r'. simpl.
    case_decide; [done|by apply Hr].
  - apply IH; [done|]. destruct u; constructor; simpl; try congruence; try exact Hr.
    intros r' Hne. case_decide; [done|by apply Hr].
Qed.

Lemma journaling_live (st : StateStore V) : (0 < live (undo_log st))%nat → journaling st = (st, true).
Proof. intros Hl. unfold journaling. by rewrite (proj2 (Nat.ltb_lt _ _) Hl). Qed.

Lemma registry_undoes base n c0 st r f :
  undoes_to base n c0 st → (0 < n)%nat → snaps_ok (undo_log st) →
  undoes_to base n c0 (registry_mut r f st).
Proof.
  intros [Hl Hb Hlast Hu] Hn Hsn. unfold registry_mut. rewrite journaling_live by lia. simpl.
  destruct (snapshot_needed _ _) eqn:Hneed; constructor; simpl; try lia.
  - replace (S (length (journal (undo_log st))) - base)%nat
      with (S (length (journal (undo_log st)) - base)) by lia.
    simpl. rewrite <- Hu. apply undo_list_proper. constructor; try done. intros r'. simpl.
    by repeat case_decide; subst.
  - rewrite <- Hu. unfold snapshot_needed in Hneed.
    destruct (snap_pos (undo_log st) r) as [p|] eqn:Hp; [|done].
    apply negb_false_iff, andb_prop in Hneed as [Hge%Nat.leb_le Hlt%Nat.ltb_lt].
    destruct (Hsn r p Hp) as (_ & v & Hv). apply (undo_list_registry _ _ _ r v).
    + apply list_elem_of_lookup. exists (length (journal (undo_log st)) - 1 - p)%nat.
      rewrite lookup_take_lt by lia. done.
    + constructor; try done. intros r' Hne. simpl. by case_decide.
Qed.

Lemma registry_snaps r f st : snaps_ok (undo_log st) → snaps_ok (undo_log (registry_mut r f st)).
Proof.
  intros Hl. unfold registry_mut, journaling. destruct (0 <? live (undo_log st))%nat; simpl.
  2:{ apply snaps_none. }
  destruct (snapshot_needed _ _); simpl; [|done]. intros r' p Hp. simpl in *.
  case_decide as Hr.
  - simplify_eq. split; [lia|]. exists (registries (contents st) r).
    by replace (length (journal (undo_log st)) - 0 - length (journal (undo_log st)))%nat with 0%nat by lia.
  - by apply (snaps_push (undo_log st) (UndoRegistry r (registries (contents st) r)) Hl).
Qed.

(** Records of current values, newest first, undo a replacement of the pending
    items whose keys they cover. *)
Lemma undo_qas (us : list (Undo V)) (l : list Hash) (c : Contents V) (m : gmap Hash QaPendingRecord) :
  us = (λ s, UndoQaPending s (m !! s)) <$> l →
  accounts (undo_list us c) = accounts c ∧ contract_code (undo_list us c) = contract_code c ∧
  contract_storage (undo_list us c) = contract_storage c ∧
  registries (undo_list us c) = registries c ∧
  ∀ s, qa_pending (undo_list us c) !! s = if decide (s ∈ l) then m !! s else qa_pending c !! s.
Proof.
  intros ->. revert c. induction l as [|s l IH]; intros c; [split_and!; done|].
  destruct (IH (undo_contents (UndoQaPending s (m !! s)) c)) as (E1 & E2 & E3 & E4 & Hq).
  split_and!; [done..|]. intros s'. etrans; [apply Hq|]. simpl. unfold restore.
  destruct (decide (s' ∈ l)).
  - by rewrite decide_True by set_solver.
  - destruct (decide (s' = s)) as [->|Hne].
    + rewrite lookup_partial_alter_eq. by rewrite decide_True by set_solver.
    + rewrite lookup_partial_alter_ne by done. by rewrite decide_False by set_solver.
Qed.

(** The journal after recording each of [l] while a checkpoint is alive. *)
Lemma record_qas_log l (st : StateStore V) :
  (0 < live (undo_log st))%nat →
  let st' := foldl (λ st s, record_qa s st) st l in
  contents st' = contents st ∧
  undo_log st' = mkLog (rev ((λ s, UndoQaPending s (qa_pending (contents st) !! s)) <$> l)
                          ++ journal (undo_log st))
                   (live (undo_log st)) (last_cp_pos (undo_log st)) (snap_pos (undo_log st)).
Proof.
  revert st. induction l as [|s l IH]; intros st Hlive; simpl.
  { by destruct st as [? ? [] ? ?]. }
  assert (contents (record_qa s st) = contents st) as Hc.
  { rewrite record_qa_eq. apply record_contents. }
  assert (undo_log (record_qa s st) = mkLog (UndoQaPending s (qa_pending (contents st) !! s)
    :: journal (undo_log st)) (live (undo_log st)) (last_cp_pos (undo_log st))
    (snap_pos (undo_log st))) as Hl.
  { rewrite record_qa_eq, record_log. simpl. by rewrite (proj2 (Nat.ltb_lt _ _) Hlive). }
  destruct (IH (record_qa s st)) as [-> ->]; [by rewrite Hl|].
  rewrite Hc, Hl. simpl. split; [done|]. f_equal. by rewrite <- app_assoc.
Qed.

Lemma load_map_other (items : list (Hash * QaPendingRecord)) (m : gmap Hash QaPendingRecord) s :
  s ∉ items.*1 → foldl (λ m e, <[e.1 := e.2]> m) m items !! s = m !! s.
Proof.
  revert m. induction items as [|[s' r] items IH]; intros m Hs; simpl in *; [done|].
  rewrite IH by set_solver. rewrite lookup_insert_ne; [done|set_solver].
Qed.

Lemma load_qa_undoes base n c0 st items :
  undoes_to base n c0 st → (0 < n)%nat → undoes_to base n c0 (load_qa_pending items st).
Proof.
  intros [Hl Hb Hlast Hu] Hn. unfold load_qa_pending. rewrite journaling_live by lia.
  set (subjects := iter (map_to_list (qa_pending (contents st))).*1 ++ items.*1).
  destruct (record_qas_log subjects st ltac:(lia)) as [Hc Hlog].
  set (st1 := foldl (λ st s, record_qa s st) st subjects) in *.
  set (us := rev ((λ s, UndoQaPending s (qa_pending (contents st) !! s)) <$> subjects)) in *.
  constructor; simpl; rewrite Hlog; simpl; [lia|rewrite length_app; lia|lia|].
  replace (length (us ++ journal (undo_log st)) - base)%nat
    with (length us + (length (journal (undo_log st)) - base))%nat by (rewrite length_app; lia).
  rewrite take_app_add. unfold undo_list. rewrite foldl_app. rewrite <- Hu. apply undo_list_proper.
  change (same_contents (undo_list us (set_qa (contents st1)
    (foldl (λ m e, <[e.1 := e.2]> m) ∅ items))) (contents st)). rewrite Hc.
  edestruct (undo_qas us (rev subjects)) as (E1 & E2 & E3 & E4 & Hq).
  { unfold us. symmetry. apply (map_rev (λ s, UndoQaPending s (qa_pending (contents st) !! s))). }
  constructor; rewrite ?E1, ?E2, ?E3, ?E4; try done. apply map_eq. intros s. rewrite Hq. simpl.
  case_decide as Hs; [done|].
  assert (s ∉ subjects) as Hs'.
  { intros Hin. apply Hs. apply list_elem_of_In. rewrite <- in_rev. by apply list_elem_of_In. }
  unfold subjects in Hs'. rewrite elem_of_app in Hs'.
  rewrite load_map_other, lookup_empty by tauto. symmetry. apply eq_None_not_Some. intros [r Hr].
  apply Hs'. left. rewrite iter_perm, list_elem_of_fmap. exists (s, r). split; [done|].
  by apply elem_of_map_to_list.
Qed.


(** A root or a proof touches the caches only. *)
Lemma state_root_frame st st' (root : Hash) :
  state_root st = Some (st', root) → contents st' = contents st ∧ undo_log st' = undo_log st.
Proof.
  unfold state_root. intros (k & _ & (p & _ & Heq)%bind_Some)%bind_Some. by simplify_eq/=.
Qed.

Lemma op_frame st op st' :
  apply_store_op st op = Some st' →
  match op with
  | OpRoot _ | OpProve _ | OpActivation _ _ =>
      contents st' = contents st ∧ undo_log st' = undo_log st
  | _ => True
  end.
Proof.
  destruct op; simpl; try done; intros Heq.
  - apply fmap_Some in Heq as ([st1 root] & Hr & ->). by apply state_root_frame in Hr.
  - apply fmap_Some in Heq as ([st1 pr] & Hr & ->). unfold prove_account in Hr.
    apply bind_Some in Hr as ([st2 root] & Hr & (q & _ & Heq)%bind_Some). simplify_eq/=.
    by apply state_root_frame in Hr.
  - by simplify_eq/=.
Qed.

Lemma revert_eq cp (st : StateStore V) :
  let l := undo_log st in
  let n := (length (journal l) - cp_pos cp)%nat in
  ∃ k, revert cp st = mkStore (undo_list (take n (journal l)) (contents st)) k
    (mkLog (drop n (journal l)) (pred (live l)) (last_cp_pos l `min` cp_pos cp)
       (λ r, match snap_pos l r with
             | Some p => if (cp_pos cp <=? p)%nat then None else Some p
             | None => None
             end))
    (storage_tree_v2_from st) (account_tree_v3_from st).
Proof.
  unfold revert.
  destruct (undo_until_list (cp_pos cp) (journal (undo_log st)) (contents st) (cache st)) as (k & ->).
  by exists k.
Qed.

Lemma revert_snaps cp st : snaps_ok (undo_log st) → snaps_ok (undo_log (revert cp st)).
Proof.
  intros Hl. destruct (revert_eq cp st) as (k & ->). simpl. intros r p Hp. simpl in *.
  destruct (snap_pos (undo_log st) r) as [q|] eqn:Hq; [|done].
  destruct (Nat.leb_spec (cp_pos cp) q); [done|]. simplify_eq.
  destruct (Hl r p Hq) as (Hlt & v & Hv). rewrite length_drop. split; [lia|]. exists v.
  rewrite lookup_drop, <- Hv. f_equal. lia.
Qed.

Lemma drop_snaps st : snaps_ok (undo_log st) → snaps_ok (undo_log (drop_checkpoint (V := V) st)).
Proof. done. Qed.

Lemma checkpoint_snaps st : snaps_ok (undo_log st) → snaps_ok (undo_log (checkpoint (V := V) st).2).
Proof.
  intros Hl. unfold checkpoint, journaling. destruct (0 <? live (undo_log st))%nat; simpl; [done|].
  apply snaps_none.
Qed.

Lemma load_qa_snaps items st :
  snaps_ok (undo_log st) → snaps_ok (undo_log (load_qa_pending (V := V) items st)).
Proof.
  intros Hl. unfold load_qa_pending, journaling.
  destruct (0 <? live (undo_log st))%nat; simpl; [|apply snaps_none].
  generalize (iter (map_to_list (qa_pending (contents st))).*1 ++ items.*1). intros l.
  revert st Hl. induction l as [|s l IH]; intros st Hl; simpl; [done|].
  apply IH. rewrite record_qa_eq. by apply record_snaps.
Qed.

Lemma op_snaps st op st' :
  snaps_ok (undo_log st) → apply_store_op st op = Some st' → snaps_ok (undo_log st').
Proof.
  intros Hl Hop. pose proof (op_frame st op st' Hop) as Hf.
  destruct op; simpl in Hop; try (destruct Hf as [_ ->]; done); simplify_eq/=;
    unfold get_mut, qa_pending_mut, remove_qa_pending; repeat case_decide; simpl;
    rewrite ?record_account_eq, ?record_storage_eq, ?record_qa_eq, ?set_contract_code_eq; simpl;
    auto using record_snaps, registry_snaps, revert_snaps, drop_snaps, checkpoint_snaps, load_qa_snaps.
  apply snaps_none.
Qed.

(** ** Nested scopes *)

(** The inner handles alive after one call: a handle is dropped or reverted to
    at most once, and its position is not below the outer checkpoint's. *)
Definition nest (base d : nat) (op : StoreOp (V := V)) : option nat :=
  match op with
  | OpCheckpoint => Some (S d)
  | OpDrop => if (0 <? d)%nat then Some (pred d) else None
  | OpRevert cp => if (0 <? d)%nat && (base <=? cp_pos cp)%nat then Some (pred d) else None
  | OpSnapshot => None
  | _ => Some d
  end.

Definition nested (base : nat) (ops : list (StoreOp (V := V))) : bool :=
  bool_decide (is_Some (mfold (nest base) 0%nat ops)).

Lemma revert_undoes base d c0 cp st :
  undoes_to base (S d) c0 st → (0 < d)%nat → (base ≤ cp_pos cp)%nat →
  undoes_to base (S (pred d)) c0 (revert cp st).
Proof.
  intros [Hl Hb Hlast Hu] Hd Hpos. destruct (revert_eq cp st) as (k & ->).
  set (j := journal (undo_log st)) in *. set (n := (length j - cp_pos cp)%nat).
  constructor; simpl; fold j; fold n; [lia|rewrite length_drop; lia|lia|].
  rewrite <- Hu. unfold undo_list. rewrite <- foldl_app, length_drop, take_take_drop.
  by replace (n + (length j - n - base))%nat with (length j - base)%nat by lia.
Qed.

Lemma checkpoint_undoes base n c0 st :
  undoes_to base n c0 st → (0 < n)%nat → undoes_to base (S n) c0 (checkpoint st).2.
Proof.
  intros [Hl Hb Hlast Hu] Hn. unfold checkpoint. rewrite journaling_live by lia.
  constructor; simpl; try done; lia.
Qed.

Lemma undoes_frame base n c0 st st' :
  undoes_to base n c0 st → contents st' = contents st → undo_log st' = undo_log st →
  undoes_to base n c0 st'.
Proof. intros [] Hc Hl. constructor; by rewrite ?Hl, ?Hc. Qed.

Lemma op_undoes base d d' c0 st op st' :
  undoes_to base (S d) c0 st → snaps_ok (undo_log st) → nest base d op = Some d' →
  apply_store_op st op = Some st' → undoes_to base (S d') c0 st'.
Proof.
  intros Hst Hsn Hnest Hop. pose proof (op_frame st op st' Hop) as Hf.
  destruct op as [id a|id f|id c|a key v|s f|s r|s|items|r f| | |cp|h|id|v2 v3|]; simpl in Hnest, Hop;
    try (simplify_eq; destruct Hf; by eapply undoes_frame); simplify_eq.
  - apply account_write_undoes; [done|lia|]. intros b Hb. rewrite record_account_eq, record_contents.
    by apply lookup_insert_ne.
  - unfold get_mut. case_decide as Hs.
    + apply account_write_undoes; [done|lia|]. intros b Hb.
      rewrite record_account_eq, record_contents. by apply lookup_alter_ne.
    + eapply undoes_frame; [done| |done]. simpl. rewrite alter_id; [by destruct (contents st)|].
      intros x Hx. destruct Hs. by exists x.
  - rewrite set_contract_code_eq. apply write_undoes; [done|lia|]. constructor; try done. simpl.
    apply restore_eq. intros b Hb. by apply lookup_insert_ne.
  - unfold merge_contract_storage. rewrite record_storage_eq, record_contents.
    apply write_undoes; [done|lia|]. constructor; try done. simpl.
    apply restore_eq. intros b Hb. by apply lookup_insert_ne.
  - unfold qa_pending_mut. case_decide as Hs.
    + apply qa_write_undoes; [done|lia|]. intros b Hb. rewrite record_qa_eq, record_contents.
      by apply lookup_alter_ne.
    + eapply undoes_frame; [done| |done]. simpl. rewrite alter_id; [by destruct (contents st)|].
      intros x Hx. destruct Hs. by exists x.
  - apply qa_write_undoes; [done|lia|]. intros b Hb. rewrite record_qa_eq, record_contents.
    by apply lookup_insert_ne.
  - unfold remove_qa_pending. case_decide as Hs.
    + apply qa_write_undoes; [done|lia|]. intros b Hb. rewrite record_qa_eq, record_contents.
      by apply lookup_delete_ne.
    + eapply undoes_frame; [done| |done]. simpl. rewrite delete_id; [by destruct (contents st)|].
      by apply eq_None_not_Some.
  - apply load_qa_undoes; [done|lia].
  - apply registry_undoes; [done|lia|done].
  - apply checkpoint_undoes; [done|lia].
  - destruct (Nat.ltb_spec 0 d); [|done]. simplify_eq. destruct Hst. constructor; simpl; try done. lia.
  - destruct (Nat.ltb_spec 0 d), (Nat.leb_spec base (cp_pos cp)); simplify_eq/=.
    by apply revert_undoes.
Qed.

Lemma run_undoes base ops d d' c0 st st' :
  undoes_to base (S d) c0 st → snaps_ok (undo_log st) → mfold (nest base) d ops = Some d' →
  run_store st ops = Some st' → undoes_to base (S d') c0 st'.
Proof.
  unfold run_store. revert d st. induction ops as [|op ops IH]; intros d st Hst Hsn Hn Hr; simpl in *; [by simplify_eq|].
  apply bind_Some in Hn as (d1 & Hd1 & Hn). apply bind_Some in Hr as (st1 & Hst1 & Hr).
  eapply IH; [by eapply op_undoes|by eapply op_snaps|done|done].
Qed.

Lemma run_snaps ops st st' :
  snaps_ok (undo_log st) → run_store st ops = Some st' → snaps_ok (undo_log st').
Proof.
  unfold run_store. revert st. induction ops as [|op ops IH]; intros st Hsn Hr; simpl in *; [by simplify_eq|].
  apply bind_Some in Hr as (st1 & Hst1 & Hr). eapply IH; [by eapply op_snaps|done].
Qed.

Lemma checkpoint_start st :
  undoes_to (cp_pos (checkpoint st).1) 1 (contents st) (checkpoint st).2 ∧
  (snaps_ok (undo_log st) → snaps_ok (undo_log (checkpoint st).2)).
Proof.
  split; [|apply checkpoint_snaps]. unfold checkpoint, journaling.
  destruct (0 <? live (undo_log st))%nat eqn:E; constructor; simpl; try lia;
    rewrite ?Nat.sub_diag; reflexivity.
Qed.

(** C17: [revert] restores a checkpoint. In a store with any history, after a
    checkpoint and any calls nested in it (account, code, storage, QA and registry
    writes, bulk QA loads, inner checkpoints dropped or reverted to, roots and
    proofs), reverting to the checkpoint gives back exactly the accounts, code,
    storage, pending items and registries it was taken at. *)
Theorem revert_restores ops0 st0 ops st :
  run_store new_store ops0 = Some st0 →
  nested (cp_pos (checkpoint st0).1) ops = true →
  run_store (checkpoint st0).2 ops = Some st →
  same_contents (contents (revert (checkpoint st0).1 st)) (contents st0).
Proof.
  intros Hrun0 Hn Hr. apply bool_decide_eq_true in Hn as [d' Hn].
  assert (snaps_ok (undo_log st0)) as Hsn by (apply (run_snaps ops0 new_store); [apply snaps_none|done]).
  destruct (checkpoint_start st0) as [Hstart Hsn1].
  pose proof (run_undoes _ ops 0 d' _ _ st Hstart (Hsn1 Hsn) Hn Hr) as [_ _ _ Hu].
  destruct (revert_eq (checkpoint st0).1 st) as (k & ->). apply Hu.
Qed.

End Undo.

Module SampleUndo.

Import SampleStore.
#[local] Existing Instances no_registries in_order.
#[local] Instance sample : Host := sample_host.

Definition before : list (StoreOp (V := ())) := [OpInsert (account 1) (mkAccountState 5 0 0 0 0)].

Definition inside : list (StoreOp (V := ())) :=
  [OpGetMut (account 1) (λ a, mkAccountState 1 1 0 0 0); OpCheckpoint;
   OpSetCode (account 2) [0]; OpRevert (mkCheckpoint 1); OpStorage (account 1) (account 9) (account 4)].

Lemma revert_restores_witness :
  ∃ st0 st, run_store new_store before = Some st0 ∧
    run_store (checkpoint st0).2 inside = Some st ∧
    same_contents (contents (revert (checkpoint st0).1 st)) (contents st0).
Proof.
  eexists _, _. split; [reflexivity|]. split; [vm_compute; reflexivity|].
  eapply (revert_restores before _ inside); vm_compute; reflexivity.
Defined.

End SampleUndo.
