(* ===== verification/StoreQueries.v ===== *)
(** * Queries, bulk updates and persistence of the store

    [top_stakers] and [compute_native_aggregates] of [Store.v] do not depend on
    the iteration order of the account table; [redenominate] scales every
    account; what a persistence bundle restores. *)

From S2P Require Import Prelude Types Merkle Store StoreLaws.

(** ** Ranking *)

#[global] Instance staker_le_total : Total staker_le.
Proof.
  intros [a sa] [b sb]. unfold staker_le. simpl.
  destruct (bytes_leb_total a b) as [Hab|Hab]; rewrite Hab; simpl;
    destruct (Z.lt_trichotomy (stake sa) (stake sb)) as [|[|]]; naive_solver.
Qed.

#[global] Instance staker_le_reflexive : Reflexive staker_le.
Proof. intros x. destruct (total staker_le x x); done. Qed.

#[global] Instance staker_le_transitive : Transitive staker_le.
Proof.
  intros [a sa] [b sb] [c sc]. unfold staker_le. simpl. rewrite !Is_true_true.
  intros [?|[? Hab]] [?|[? Hbc]]; [left; lia..|].
  right. split; [lia|by eapply bytes_leb_trans].
Qed.

Lemma staker_le_antisym (l : list (AccountId * AccountState)) :
  NoDup l.*1 → ∀ x y, x ∈ l → y ∈ l → staker_le x y → staker_le y x → x = y.
Proof.
  intros Hnd [a sa] [b sb] Hx Hy [?|[? Hab]] [?|[? Hba]]; simpl in *; try lia.
  rewrite Is_true_true in Hab, Hba. pose proof (bytes_leb_antisym a b Hab Hba). subst.
  apply list_elem_of_lookup in Hx as [i Hi], Hy as [j Hj].
  assert (i = j) as ->; [|congruence].
  eapply (NoDup_lookup l.*1); [done| |]; rewrite list_lookup_fmap; [by rewrite Hi|by rewrite Hj].
Qed.

(** Two sorted arrangements of the same accounts are the same. *)
Lemma sorted_unique_on (l1 l2 : list (AccountId * AccountState)) :
  NoDup l1.*1 → l1 ≡ₚ l2 → StronglySorted staker_le l1 → StronglySorted staker_le l2 → l1 = l2.
Proof.
  revert l2. induction l1 as [|x l1 IH]; intros l2 Hnd Hp Hs1 Hs2.
  { by apply Permutation_nil_l in Hp. }
  destruct l2 as [|y l2]; [by apply Permutation_nil_r in Hp|].
  assert (x = y) as ->.
  { apply (staker_le_antisym (x :: l1) Hnd); [by left|rewrite Hp; by left| |].
    - assert (y ∈ x :: l1) as [->|Hy]%elem_of_cons by (rewrite Hp; by left); [reflexivity|].
      apply StronglySorted_inv in Hs1 as [_ Hf]. by eapply Forall_forall in Hf.
    - assert (x ∈ y :: l2) as [->|Hx]%elem_of_cons by (rewrite <- Hp; by left); [reflexivity|].
      apply StronglySorted_inv in Hs2 as [_ Hf]. by eapply Forall_forall in Hf. }
  f_equal. apply Permutation_cons_inv in Hp. apply NoDup_cons in Hnd as [_ Hnd].
  apply StronglySorted_inv in Hs1 as [? _], Hs2 as [? _]. by apply IH.
Qed.

Section Queries.
Context {V : Type}.

(** The accounts, best first. *)
Definition ranking `{Iteration} (st : StateStore V) : list (AccountId * AccountState) :=
  merge_sort staker_le (iter (map_to_list (accounts (contents st)))).

Lemma ranking_perm `{Iteration} st : ranking st ≡ₚ map_to_list (accounts (contents st)).
Proof. unfold ranking. by rewrite merge_sort_Permutation, iter_perm. Qed.

Lemma ranking_sorted `{Iteration} st : StronglySorted staker_le (ranking st).
Proof. apply (StronglySorted_merge_sort staker_le). Qed.

Lemma ranking_NoDup `{Iteration} st : NoDup (ranking st).*1.
Proof. rewrite (ranking_perm st). apply NoDup_fst_map_to_list. Qed.

Lemma ranking_order (i1 i2 : Iteration) st : ranking (H := i1) st = ranking (H := i2) st.
Proof.
  apply sorted_unique_on; [apply ranking_NoDup| |apply ranking_sorted..].
  by rewrite !ranking_perm.
Qed.

(** [top_stakers n] lists [n] accounts (all of them when there are fewer),
    each once; every account it leaves out has a smaller stake, or the same stake
    and a larger id, than every account it lists; and the list is the same for
    every iteration order of the account table. *)
Theorem top_stakers_best (i1 i2 : Iteration) n (st : StateStore V) :
  let l := @top_stakers V i1 n st in
  l = @top_stakers V i2 n st ∧
  NoDup l ∧ length l = (n `min` size (accounts (contents st)))%nat ∧
  (∀ a, a ∈ l → is_Some (accounts (contents st) !! a)) ∧
  (∀ a sa b sb, a ∈ l → b ∉ l → accounts (contents st) !! a = Some sa →
     accounts (contents st) !! b = Some sb →
     stake sb < stake sa ∨ (stake sa = stake sb ∧ bytes_leb a b = true)).
Proof.
  simpl. unfold top_stakers. fold (ranking (H := i1) st) (ranking (H := i2) st).
  rewrite (ranking_order i2 i1). set (rk := ranking (H := i1) st).
  assert (∀ a s, (a, s) ∈ rk ↔ accounts (contents st) !! a = Some s) as Hrk.
  { intros a s. unfold rk. by rewrite ranking_perm, elem_of_map_to_list. }
  pose proof (ranking_NoDup (H := i1) st) as Hnd. fold rk in Hnd.
  split; [done|]. split_and!.
  - rewrite <- (take_drop n rk), fmap_app in Hnd. by apply NoDup_app in Hnd as (? & _).
  - rewrite length_fmap, length_take. unfold rk. by rewrite ranking_perm, length_map_to_list.
  - intros a ([a' s] & -> & Hin)%list_elem_of_fmap. exists s. apply Hrk.
    rewrite <- (take_drop n rk). apply elem_of_app. by left.
  - intros a sa b sb Ha Hb Hsa Hsb. apply Hrk in Hsb. rewrite <- (take_drop n rk) in Hsb.
    apply elem_of_app in Hsb as [Hsb|Hsb].
    { destruct Hb. apply list_elem_of_fmap. by exists (b, sb). }
    apply list_elem_of_fmap in Ha as ([a' sa'] & -> & Hin). simpl in *.
    assert (sa' = sa) as ->.
    { assert ((a', sa') ∈ rk) as Hin' by (rewrite <- (take_drop n rk); apply elem_of_app; by left).
      apply Hrk in Hin'. congruence. }
    pose proof (ranking_sorted (H := i1) st) as Hs. fold rk in Hs. rewrite <- (take_drop n rk) in Hs.
    destruct (StronglySorted_app_1_elem_of _ _ _ _ _ Hs Hin Hsb) as [?|[? Hle]]; [by left|].
    right. by rewrite <- Is_true_true.
Qed.

(** ** Totals *)

Definition sum_of (f : AccountState → Z) (l : list AccountState) : Z := foldr (λ a n, f a + n) 0 l.

Lemma sum_of_perm f l l' : l ≡ₚ l' → sum_of f l = sum_of f l'.
Proof. induction 1; unfold sum_of in *; simpl; lia. Qed.

Lemma sum_of_nonneg f l : Forall (λ a, 0 ≤ f a) l → 0 ≤ sum_of f l.
Proof. induction 1; unfold sum_of in *; simpl in *; lia. Qed.

Lemma aggregates_fold l n b s :
  0 ≤ n ≤ u64_max → 0 ≤ b ≤ u128_max → 0 ≤ s ≤ u128_max →
  Forall (λ a, 0 ≤ balance a) l → Forall (λ a, 0 ≤ stake a) l →
  foldl (λ acc a, (sat_add u64_max acc.1.1 1, sat_add u128_max acc.1.2 (balance a),
                   sat_add u128_max acc.2 (stake a))) (n, b, s) l =
  (Z.min u64_max (n + Z.of_nat (length l)), Z.min u128_max (b + sum_of balance l),
   Z.min u128_max (s + sum_of stake l)).
Proof.
  intros Hn Hb Hs Hbal. revert n b s Hn Hb Hs.
  induction Hbal as [|a l Ha Hl IH]; intros n b s Hn Hb Hs Hst; simpl.
  { unfold sum_of; simpl. f_equal; [f_equal|]; lia. }
  apply Forall_cons in Hst as [Hsa Hst].
  pose proof (sum_of_nonneg balance l Hl). pose proof (sum_of_nonneg stake l Hst).
  rewrite IH; [|unfold sat_add; lia..|done]. unfold sat_add, sum_of in *. simpl.
  f_equal; [f_equal|]; lia.
Qed.

(** The chain-wide totals are the exact sums over the account table, capped
    at the width of the counter, for every iteration order; [total_native_held]
    is the sum of all balances and stakes, capped. *)
Theorem native_aggregates_exact `{Iteration} (st : StateStore V) :
  map_Forall (λ _ a, 0 ≤ balance a ∧ 0 ≤ stake a) (accounts (contents st)) →
  let all := (map_to_list (accounts (contents st))).*2 in
  compute_native_aggregates st =
  mkAggregates (Z.min u64_max (Z.of_nat (size (accounts (contents st)))))
    (Z.min u128_max (sum_of balance all)) (Z.min u128_max (sum_of stake all))
    (Z.min u128_max (sum_of balance all + sum_of stake all)).
Proof.
  intros Hpos all. unfold compute_native_aggregates.
  assert ((iter (map_to_list (accounts (contents st)))).*2 ≡ₚ all) as Hp by by rewrite iter_perm.
  assert (Forall (λ a, 0 ≤ balance a ∧ 0 ≤ stake a) all) as Hall.
  { unfold all. rewrite Forall_fmap, Forall_forall. intros [id a] Hin%elem_of_map_to_list.
    by apply (Hpos id a). }
  rewrite <- Hp in Hall. apply Forall_and in Hall as [Hb Hs].
  rewrite aggregates_fold; [|unfold u64_max, u128_max; lia..|done|done].
  pose proof (sum_of_nonneg _ _ Hb). pose proof (sum_of_nonneg _ _ Hs).
  rewrite (sum_of_perm balance _ _ Hp), (sum_of_perm stake _ _ Hp) in *. simpl.
  rewrite Hp. unfold all in *. rewrite length_fmap, length_map_to_list.
  unfold sat_add, u64_max, u128_max in *. f_equal; lia.
Qed.

(** ** Redenomination *)

Lemma get_mut_contents id f (st : StateStore V) :
  contents (get_mut id f st) = set_accounts (contents st) (alter f id (accounts (contents st))).
Proof.
  unfold get_mut, write_accounts. simpl. case_decide; [|done].
  by rewrite record_account_eq, record_contents.
Qed.

Lemma fold_get_mut_lookup f ids (st : StateStore V) a :
  NoDup ids →
  accounts (contents (foldl (λ st id, get_mut id f st) st ids)) !! a =
  if decide (a ∈ ids) then f <$> accounts (contents st) !! a else accounts (contents st) !! a.
Proof.
  intros Hnd. revert st. induction Hnd as [|id ids Hid Hnd IH]; intros st; simpl; [done|].
  rewrite IH, get_mut_contents. simpl. destruct (decide (a = id)) as [->|Hne].
  - by rewrite decide_False, lookup_alter_eq, decide_True by set_solver.
  - rewrite lookup_alter_ne by done. by repeat case_decide; set_solver.
Qed.

Lemma fold_get_mut_rest f ids (st : StateStore V) :
  let c := contents (foldl (λ st id, get_mut id f st) st ids) in
  contract_code c = contract_code (contents st) ∧ contract_storage c = contract_storage (contents st) ∧
  qa_pending c = qa_pending (contents st) ∧ registries c = registries (contents st).
Proof.
  revert st. induction ids as [|id ids IH]; intros st; simpl; [done|].
  destruct (IH (get_mut id f st)) as (-> & -> & -> & ->). by rewrite get_mut_contents.
Qed.

Lemma registry_mut_contents r f (st : StateStore V) :
  contents (registry_mut r f st) = set_registry (contents st) r (f (registries (contents st) r)).
Proof.
  unfold registry_mut, journaling. destruct (0 <? live (undo_log st))%nat; simpl; [|done].
  by destruct (snapshot_needed _ _).
Qed.

(** Redenomination multiplies the balance, stake and pending unbond of every
    account (saturating), once each, leaves nonces, code, storage and pending
    items alone, and touches no registry but the open validators' bonds. *)
Theorem redenominate_scales_all `{Registries V} factor (st : StateStore V) :
  let '(st', n) := redenominate factor st in
  accounts (contents st') = scale_account factor <$> accounts (contents st) ∧
  n = size (accounts (contents st)) ∧
  contract_code (contents st') = contract_code (contents st) ∧
  contract_storage (contents st') = contract_storage (contents st) ∧
  qa_pending (contents st') = qa_pending (contents st) ∧
  ∀ r, r ≠ OpenValidators → registries (contents st') r = registries (contents st) r.
Proof.
  unfold redenominate.
  set (ids := merge_sort (λ a b, Is_true (bytes_leb a b)) (map_to_list (accounts (contents st))).*1).
  assert (ids ≡ₚ (map_to_list (accounts (contents st))).*1) as Hp by apply merge_sort_Permutation.
  set (st1 := foldl (λ st id, get_mut id (scale_account factor) st) st ids).
  assert (accounts (contents st1) = scale_account factor <$> accounts (contents st)) as Hacc.
  { apply map_eq. intros a. unfold st1. rewrite fold_get_mut_lookup, lookup_fmap.
    2:{ rewrite Hp. apply NoDup_fst_map_to_list. }
    case_decide as Ha; [done|]. destruct (accounts (contents st) !! a) as [x|] eqn:E; [|done].
    destruct Ha. rewrite Hp. apply list_elem_of_fmap. exists (a, x).
    by rewrite elem_of_map_to_list. }
  destruct (fold_get_mut_rest (scale_account factor) ids st) as (Hc & Hs & Hq & Hr). fold st1 in Hc, Hs, Hq, Hr.
  assert (length ids = size (accounts (contents st))) as Hn.
  { by rewrite Hp, length_fmap, length_map_to_list. }
  destruct (ov_any_bond _); rewrite ?registry_mut_contents; simpl; split_and!; try done;
    intros r Hne; rewrite Hr; [by case_decide|done].
Qed.

(** ** Persistence *)

Lemma insert_account_contents id a (st : StateStore V) :
  contents (insert_account id a st) = set_accounts (contents st) (<[id := a]> (accounts (contents st))).
Proof.
  unfold insert_account, write_accounts. simpl. by rewrite record_account_eq, record_contents.
Qed.

Lemma set_contract_code_contents id c (st : StateStore V) :
  contents (set_contract_code id c st) = set_code (contents st) (<[id := c]> (contract_code (contents st))).
Proof. by rewrite set_contract_code_eq. Qed.

Lemma merge_storage_contents a k v (st : StateStore V) :
  contents (merge_contract_storage a k v st) =
  set_storage (contents st) (<[(a, k) := v]> (contract_storage (contents st))).
Proof. unfold merge_contract_storage. simpl. by rewrite record_storage_eq, record_contents. Qed.

(** Inserting the entries of a table, in any order, rebuilds it. *)
Lemma foldl_insert_table {K A} `{Countable K} (m0 m : gmap K A) l :
  l ≡ₚ map_to_list m → m0 = ∅ → foldl (λ m e, <[e.1 := e.2]> m) m0 l = m.
Proof.
  intros Hl ->. rewrite <- (list_to_map_to_list m).
  assert (NoDup l.*1) as Hnd by (rewrite Hl; apply NoDup_fst_map_to_list).
  rewrite <- (list_to_map_proper l (map_to_list m)) by done. clear Hl m.
  assert (∀ m : gmap K A, (∀ k, k ∈ l.*1 → m !! k = None) →
    foldl (λ m e, <[e.1 := e.2]> m) m l = list_to_map l ∪ m) as Hgen.
  { induction l as [|[k v] l IH]; intros m Hm; simpl in *; [by rewrite (left_id_L ∅ _)|].
    apply NoDup_cons in Hnd as [Hk Hnd]. rewrite IH; [|done|].
    - rewrite <- insert_union_l, insert_union_r; [done|]. by apply not_elem_of_list_to_map_1.
    - intros k' Hk'. rewrite lookup_insert_ne by set_solver. apply Hm. set_solver. }
  rewrite Hgen; [by rewrite (right_id_L ∅ _)|]. intros. apply lookup_empty.
Qed.

Lemma load_accounts l (st : StateStore V) :
  contents (foldl (λ st e, insert_account e.1 e.2 st) st l) =
  set_accounts (contents st) (foldl (λ m e, <[e.1 := e.2]> m) (accounts (contents st)) l).
Proof.
  revert st. induction l as [|e l IH]; intros st; simpl; [by destruct (contents st)|].
  by rewrite IH, insert_account_contents.
Qed.

Lemma load_codes l (st : StateStore V) :
  contents (foldl (λ st e, set_contract_code e.1 e.2 st) st l) =
  set_code (contents st) (foldl (λ m e, <[e.1 := e.2]> m) (contract_code (contents st)) l).
Proof.
  revert st. induction l as [|e l IH]; intros st; simpl; [by destruct (contents st)|].
  by rewrite IH, set_contract_code_contents.
Qed.

Lemma load_slots l (st : StateStore V) :
  contents (foldl (λ st e, merge_contract_storage e.1.1 e.1.2 e.2 st) st l) =
  set_storage (contents st) (foldl (λ m e, <[e.1 := e.2]> m) (contract_storage (contents st)) l).
Proof.
  revert st. induction l as [|[[a k] v] l IH]; intros st; simpl; [by destruct (contents st)|].
  by rewrite IH, merge_storage_contents.
Qed.

(** With no checkpoint alive, a bulk load just replaces the items. *)
Lemma load_qa_contents `{Iteration} items (st : StateStore V) :
  live (undo_log st) = 0%nat →
  contents (load_qa_pending items st) =
  set_qa (contents st) (foldl (λ m e, <[e.1 := e.2]> m) ∅ items).
Proof. intros Hl. unfold load_qa_pending, journaling. by rewrite Hl. Qed.

Lemma fold_live {E} (f : E → StateStore V → StateStore V) l st :
  (∀ e st, live (undo_log (f e st)) = live (undo_log st)) →
  live (undo_log (foldl (λ st e, f e st) st l)) = live (undo_log st).
Proof. intros Hf. revert st. induction l as [|e l IH]; intros st; simpl; [done|]. by rewrite IH. Qed.

Lemma record_live u (st : StateStore V) : live (undo_log (record u st)) = live (undo_log st).
Proof. rewrite record_log. simpl. by case_match. Qed.

Lemma load_live `{Registries V} accs codes slots :
  live (undo_log (load_from_persistence (V := V) accs codes slots)) = 0%nat.
Proof.
  unfold load_from_persistence.
  rewrite (fold_live (λ e st, merge_contract_storage e.1.1 e.1.2 e.2 st)).
  2:{ intros. unfold merge_contract_storage. simpl. by rewrite record_storage_eq, record_live. }
  rewrite (fold_live (λ e st, set_contract_code e.1 e.2 st)).
  2:{ intros. rewrite set_contract_code_eq. apply record_live. }
  rewrite (fold_live (λ e st, insert_account e.1 e.2 st)); [done|].
  intros. unfold insert_account. simpl. by rewrite record_account_eq, record_live.
Qed.

(** What a persistence bundle restores. Loading an exported bundle, whatever
    the order of its entries, gives back the accounts, code, storage, pending QA
    items, the open validators and the names; the five other registries, which
    the state root also commits to, come back empty. *)
Theorem persistence_round_trip `{Registries V} `{Iteration} (st : StateStore V) :
  let c := contents (load_persistence_bundle (export_persistence_bundle st)) in
  accounts c = accounts (contents st) ∧ contract_code c = contract_code (contents st) ∧
  contract_storage c = contract_storage (contents st) ∧ qa_pending c = qa_pending (contents st) ∧
  ∀ r, registries c r =
    match r with
    | OpenValidators | Names => registries (contents st) r
    | _ => reg_default r
    end.
Proof.
  unfold load_persistence_bundle. simpl. rewrite !registry_mut_contents, load_qa_contents by apply load_live.
  unfold load_from_persistence. rewrite load_slots, load_codes, load_accounts. simpl.
  rewrite !(foldl_insert_table _ _ _ (iter_perm _)) by done. split_and!; try done. by intros [].
Qed.

End Queries.

Module SampleQueries.

Import SampleStore.
#[local] Existing Instances no_registries in_order.

Definition two_accounts : StateStore () :=
  insert_account (account 2) (mkAccountState u128_max 0 9 0 0)
    (insert_account (account 1) (mkAccountState 5 0 3 0 0) new_store).

Lemma native_aggregates_exact_witness :
  compute_native_aggregates two_accounts = mkAggregates 2 u128_max 12 u128_max.
Proof.
  rewrite (native_aggregates_exact two_accounts); [vm_compute; reflexivity|].
  apply map_Forall_insert_2; [vm_compute; split; discriminate|].
  apply map_Forall_insert_2; [vm_compute; split; discriminate|]. apply map_Forall_empty.
Defined.

End SampleQueries.
