(* ===== verification/Interp.v ===== *)
(** * The interpreter

    Models [crates/boing-execution/src/interpreter.rs]: one frame of the stack
    machine ([Interpreter]), its instructions with gas metering, nested calls and
    in-contract creation, and the interface to the contract store
    ([StorageAccess]).

    The frame and the store are the state of the monad [ST]; an early return is
    an error that keeps both. A slice out of range would panic in the code: it is
    the fault [Panic]. The loop and the nested runs take fuel, whose exhaustion is
    the fault [OutOfFuel]; both faults are proved unreachable. The head of the
    list [stack] is the top of the stack. *)

From S2P Require Import Prelude Types Words Bytecode Qa.

(** ** Errors *)

(** [VmError]; string arguments that only carry a message are dropped. *)
Inductive VmError :=
| AccountNotFound
| InsufficientBalance
| NativeAmountExceedsU128
| UnbondNotMature (unlock_height current_height : Z)
| NonceOverflow
| InvalidNonce (expected got : Z)
| NotImplemented
| OutOfGas
| StackUnderflow
| InvalidBytecode
| InvalidJump
| InvalidLog
| DeploymentAddressInUse
| DivisionByZero
| CallDepthExceeded
| CallBufferTooLarge
| StackOverflow
| MemoryLimitExceeded
| QaRejected
| QaVoterIneligible
| QaPendingNotFound
| QaPendingAlreadyRegistered
| Create2NotSupported
| Create2InitCodeEmpty
| InvalidBatch
| BatchStepFailed (index : nat) (reason : VmError)
| OpenValidatorErr
| NameErr
| NativeValueNotActive
| NativeValueNotSupported
| MediaBlobsNotActive
| MediaBlob.

Inductive Fault :=
| Vm (e : VmError)
| Panic
| OutOfFuel.

(** ** State *)

Definition MAX_CALL_DEPTH : Z := 64.
Definition MAX_STACK_DEPTH : nat := 1024.
Definition MAX_VM_MEMORY_BYTES : Z := 8 * 1024 * 1024.
Definition MAX_RECEIPT_RETURN_DATA_BYTES : Z := 24 * 1024.
Definition MAX_EXECUTION_LOG_TOPICS : nat := 4.
Definition MAX_EXECUTION_LOG_DATA_BYTES : Z := 1024.
Definition MAX_EXECUTION_LOGS_PER_TX : nat := 24.
Definition BLAKE3_MAX_INPUT_BYTES : Z := 4096.

Record VmExecutionContext := mkCtx {
  block_height : Z;
  block_timestamp : Z;
  native_value : bool;
  vm_hardening : bool;
  blake3_opcode : bool;
  jump_strict : bool;
  qa_canonical : bool;
}.

Definition default_ctx : VmExecutionContext := mkCtx 0 0 false false false false false.

Record Interpreter := mkInterpreter {
  code : bytes;
  pc : Z;
  stack : list bytes;
  memory : bytes;
  gas_used : Z;
  gas_limit : Z;
  return_data : option bytes;
  logs : list ExecutionLog;
  caller_id : AccountId;
  contract_id : AccountId;
  exec_ctx : VmExecutionContext;
  call_value : Z;
}.

Definition new_interpreter (c : bytes) (limit : Z) : Interpreter :=
  mkInterpreter c 0 [] [] 0 limit None [] ZERO ZERO default_ctx 0.

Definition set_pc (i : Interpreter) (p : Z) : Interpreter :=
  mkInterpreter (code i) p (stack i) (memory i) (gas_used i) (gas_limit i) (return_data i)
    (logs i) (caller_id i) (contract_id i) (exec_ctx i) (call_value i).
Definition set_stack (i : Interpreter) (s : list bytes) : Interpreter :=
  mkInterpreter (code i) (pc i) s (memory i) (gas_used i) (gas_limit i) (return_data i)
    (logs i) (caller_id i) (contract_id i) (exec_ctx i) (call_value i).
Definition set_memory (i : Interpreter) (m : bytes) : Interpreter :=
  mkInterpreter (code i) (pc i) (stack i) m (gas_used i) (gas_limit i) (return_data i)
    (logs i) (caller_id i) (contract_id i) (exec_ctx i) (call_value i).
Definition set_gas_used (i : Interpreter) (g : Z) : Interpreter :=
  mkInterpreter (code i) (pc i) (stack i) (memory i) g (gas_limit i) (return_data i)
    (logs i) (caller_id i) (contract_id i) (exec_ctx i) (call_value i).
Definition set_return_data (i : Interpreter) (r : option bytes) : Interpreter :=
  mkInterpreter (code i) (pc i) (stack i) (memory i) (gas_used i) (gas_limit i) r
    (logs i) (caller_id i) (contract_id i) (exec_ctx i) (call_value i).
Definition set_logs (i : Interpreter) (l : list ExecutionLog) : Interpreter :=
  mkInterpreter (code i) (pc i) (stack i) (memory i) (gas_used i) (gas_limit i) (return_data i)
    l (caller_id i) (contract_id i) (exec_ctx i) (call_value i).
Definition set_call_value (i : Interpreter) (v : Z) : Interpreter :=
  mkInterpreter (code i) (pc i) (stack i) (memory i) (gas_used i) (gas_limit i) (return_data i)
    (logs i) (caller_id i) (contract_id i) (exec_ctx i) v.

(** The assignments at the start of [run_nested]. *)
Definition enter_frame (i : Interpreter) (caller contract : AccountId)
    (ctx : VmExecutionContext) : Interpreter :=
  mkInterpreter (code i) (pc i) (stack i) (memory i) (gas_used i) (gas_limit i) (return_data i)
    [] caller contract ctx (call_value i).

(** ** The store interface *)

(** Running a frame: caller, contract, calldata, call depth and context. *)
Definition Runner (S : Type) : Type :=
  Interpreter → AccountId → AccountId → bytes → Z → VmExecutionContext → S →
  result Z Fault * (Interpreter * S).

(** [StorageAccess] and the QA registry [R] a run passes on. [create2_deploy]
    runs init code itself, so it takes the runner; it returns the address, the
    gas of the init code and the parent's extended logs. *)
Class StorageAccess (S R : Type) := {
  sload : S → AccountId → bytes → bytes;
  sstore : S → AccountId → bytes → bytes → S;
  get_contract_code : S → AccountId → option bytes;
  native_balance : S → AccountId → Z;
  native_transfer : S → AccountId → AccountId → Z → result () VmError * S;
  create2_deploy : Runner S → R → AccountId → bytes → bytes → Z → list ExecutionLog → Z →
    VmExecutionContext → S → result (AccountId * Z) Fault * (list ExecutionLog * S);
  max_bytecode_size : R → Z;
}.

(** What an instruction does with the loop. *)
Inductive Flow := Continue | Halt.

Section Machine.
Context `{Host} {S R : Type} `{StorageAccess S R}.

Notation M := (ST (Interpreter * S) Fault).

Definition frame : M Interpreter := λ s, (Ok s.1, s).
Definition upd (f : Interpreter → Interpreter) : M () := λ s, (Ok (), (f s.1, s.2)).
Definition look {A} (f : Interpreter → S → A) : M A := λ s, (Ok (f s.1 s.2), s).
Definition vm_fail {A} (e : VmError) : M A := st_fail (Vm e).

(** ** Frame operations *)

Definition spend_gas (amount : Z) : M () := λ s,
  let i := set_gas_used s.1 (sat_add u64_max (gas_used s.1) amount) in
  if gas_limit i <? gas_used i then (Err (Vm OutOfGas), (i, s.2)) else (Ok (), (i, s.2)).

Definition pop : M bytes := λ s,
  match stack s.1 with
  | [] => (Err (Vm StackUnderflow), s)
  | w :: r => (Ok w, (set_stack s.1 r, s.2))
  end.

Definition push (w : bytes) : M () := upd (λ i, set_stack i (w :: stack i)).

Definition pop_usize : M Z := w ← pop; mret (u256_to_usize w).

Definition mem_len (i : Interpreter) : Z := Z.of_nat (length (memory i)).

Definition ensure_memory (offset size : Z) : M () :=
  if u64_max <? offset + size then vm_fail MemoryLimitExceeded
  else
    let e := offset + size in
    i ← frame;
    if mem_len i <? e then
      if MAX_VM_MEMORY_BYTES <? e then vm_fail MemoryLimitExceeded
      else
        _ ← (if vm_hardening (exec_ctx i) then
               let old_words := div_ceil (mem_len i) 32 in
               let new_words := div_ceil e 32 in
               spend_gas (sat_sub (memory_gas_cost new_words) (memory_gas_cost old_words))
             else mret ());
        upd (λ i, set_memory i (memory i ++ replicate (Z.to_nat (e - mem_len i)) 0))
    else mret ().

(** [self.memory[offset..offset + size]]. *)
Definition mem_read (offset size : Z) : M bytes := λ s,
  if offset + size <=? mem_len s.1
  then (Ok (take (Z.to_nat size) (drop (Z.to_nat offset) (memory s.1))), s)
  else (Err Panic, s).

(** [self.memory[offset..offset + data.len()].copy_from_slice(data)]. *)
Definition mem_write (offset : Z) (data : bytes) : M () := λ s,
  if offset + Z.of_nat (length data) <=? mem_len s.1
  then (Ok (), (set_memory s.1 (take (Z.to_nat offset) (memory s.1) ++ data
                 ++ drop (Z.to_nat offset + length data) (memory s.1)), s.2))
  else (Err Panic, s).

(** ** Logs *)

Definition append_log (topics : list bytes) (data : bytes) : M () :=
  if (MAX_EXECUTION_LOG_TOPICS <? length topics)%nat then vm_fail InvalidLog
  else if MAX_EXECUTION_LOG_DATA_BYTES <? Z.of_nat (length data) then vm_fail InvalidLog
  else
    i ← frame;
    if (MAX_EXECUTION_LOGS_PER_TX <=? length (logs i))%nat then vm_fail InvalidLog
    else
      _ ← spend_gas (sat_add u64_max
             (sat_add u64_max gas.LOG_BASE
                (sat_mul u64_max gas.LOG_PER_TOPIC (Z.of_nat (length topics))))
             (sat_mul u64_max gas.LOG_PER_DATA_BYTE (Z.of_nat (length data))));
      upd (λ i, set_logs i (logs i ++ [mkExecutionLog topics data])).

Fixpoint pop_topics (n : nat) : M (list bytes) :=
  match n with
  | O => mret []
  | Datatypes.S n' => t ← pop; rest ← pop_topics n'; mret (t :: rest)
  end.

Definition log_with_topics (n : nat) : M () :=
  offset ← pop_usize;
  size ← pop_usize;
  topics ← pop_topics n;
  _ ← ensure_memory offset size;
  data ← mem_read offset (Z.min (u64_max - offset) size);
  append_log (rev topics) data.

(** [merge_child_logs]: the parent's logs after a child frame. *)
Definition merge_child_logs (parent child : list ExecutionLog) : result (list ExecutionLog) VmError :=
  if (MAX_EXECUTION_LOGS_PER_TX <? length parent + length child)%nat then Err InvalidLog
  else if forallb (λ l, (length (log_topics l) <=? MAX_EXECUTION_LOG_TOPICS)%nat
                        && (Z.of_nat (length (log_data l)) <=? MAX_EXECUTION_LOG_DATA_BYTES)) child
  then Ok (parent ++ child)
  else Err InvalidLog.

(** ** Instructions *)

Definition binop (cost : Z) (f : bytes → bytes → bytes) : M Flow :=
  _ ← spend_gas cost;
  b ← pop;
  a ← pop;
  _ ← push (f a b);
  mret Continue.

Definition push_op (cost : Z) (w : Interpreter → S → bytes) : M Flow :=
  _ ← spend_gas cost;
  v ← look w;
  _ ← push v;
  mret Continue.

Definition div_op (cost : Z) (sel : bytes * bytes → bytes) : M Flow :=
  _ ← spend_gas cost;
  b ← pop;
  a ← pop;
  match div_mod_u256_be a b with
  | None => vm_fail DivisionByZero
  | Some qr => _ ← push (sel qr); mret Continue
  end.

Definition mod3_op (cost : Z) (f : bytes → bytes → bytes → bytes) : M Flow :=
  _ ← spend_gas cost;
  n ← pop;
  b ← pop;
  a ← pop;
  _ ← push (f a b n);
  mret Continue.

Definition unop (cost : Z) (f : bytes → bytes) : M Flow :=
  _ ← spend_gas cost;
  a ← pop;
  _ ← push (f a);
  mret Continue.

(** [Shl], [Shr], [Sar]: the shift word is on top. *)
Definition shift_op (f : bytes → bytes → bytes) : M Flow :=
  _ ← spend_gas gas.SHIFT;
  shift_w ← pop;
  value ← pop;
  _ ← push (f shift_w value);
  mret Continue.

Definition op_mload : M Flow :=
  _ ← spend_gas gas.MLOAD;
  offset ← pop_usize;
  _ ← ensure_memory offset 32;
  v ← mem_read offset 32;
  _ ← push v;
  mret Continue.

Definition op_mstore : M Flow :=
  _ ← spend_gas gas.MSTORE;
  offset ← pop_usize;
  value ← pop;
  _ ← ensure_memory offset 32;
  _ ← mem_write offset value;
  mret Continue.

Definition op_dup1 : M Flow :=
  _ ← spend_gas gas.DUP1;
  i ← frame;
  match stack i with
  | [] => vm_fail StackUnderflow
  | w :: _ => _ ← push w; mret Continue
  end.

Definition op_sload (contract : AccountId) : M Flow :=
  _ ← spend_gas gas.SLOAD;
  key ← pop;
  value ← look (λ _ st, sload st contract key);
  _ ← push value;
  mret Continue.

Definition op_sstore (contract : AccountId) : M Flow :=
  _ ← spend_gas gas.SSTORE;
  key ← pop;
  value ← pop;
  _ ← st_modify (λ s, (s.1, sstore s.2 contract key value));
  mret Continue.

Definition op_jump : M Flow :=
  _ ← spend_gas gas.JUMP;
  dest ← pop_usize;
  i ← frame;
  if Z.of_nat (length (code i)) <=? dest then vm_fail InvalidJump
  else _ ← upd (λ i, set_pc i dest); mret Continue.

Definition op_jumpi : M Flow :=
  _ ← spend_gas gas.JUMPI;
  dest ← pop_usize;
  cond ← pop;
  i ← frame;
  if bool_decide (cond = ZERO) then mret Continue
  else if dest <? Z.of_nat (length (code i)) then _ ← upd (λ i, set_pc i dest); mret Continue
  else if jump_strict (exec_ctx i) then vm_fail InvalidJump
  else mret Continue.

Definition op_return : M Flow :=
  _ ← spend_gas gas.RETURN;
  offset ← pop_usize;
  size ← pop_usize;
  _ ← ensure_memory offset size;
  data ← mem_read offset size;
  _ ← upd (λ i, set_return_data i (Some data));
  mret Halt.

Definition op_blake3 (ctx : VmExecutionContext) : M Flow :=
  if negb (blake3_opcode ctx) then vm_fail InvalidBytecode
  else
    _ ← spend_gas gas.BLAKE3;
    offset ← pop_usize;
    size ← pop_usize;
    if BLAKE3_MAX_INPUT_BYTES <? size then vm_fail InvalidBytecode
    else
      let words := sat_add u64_max size 31 `div` 32 in
      _ ← spend_gas (sat_mul u64_max gas.BLAKE3_PER_WORD words);
      _ ← ensure_memory offset size;
      data ← mem_read offset size;
      _ ← push (blake3 data);
      mret Continue.

Definition op_balance : M Flow :=
  _ ← spend_gas gas.BALANCE;
  who ← pop;
  balance ← look (λ _ st, native_balance st who);
  _ ← push (word_u128 balance);
  mret Continue.

Definition move_native_op (from to : AccountId) (amount : Z) : M () := λ s,
  match native_transfer s.2 from to amount with
  | (Ok _, st) => (Ok (), (s.1, st))
  | (Err e, st) => (Err (Vm e), (s.1, st))
  end.

Definition op_native_transfer (contract : AccountId) : M Flow :=
  _ ← spend_gas gas.NATIVE_TRANSFER;
  to ← pop;
  amount_w ← pop;
  i ← frame;
  if existsb (λ b, negb (b =? 0)) (take 16 amount_w)
  then vm_fail (if jump_strict (exec_ctx i) then NativeAmountExceedsU128 else InsufficientBalance)
  else
    _ ← move_native_op contract to (be_val (drop 16 amount_w));
    mret Continue.

(** [&ret[..n]] padded with zeros to [ret_size]. *)
Definition fit_return (ret : bytes) (ret_size : Z) : bytes :=
  let n := Nat.min (length ret) (Z.to_nat ret_size) in
  take n ret ++ replicate (Z.to_nat ret_size - n) 0.

(** Runs the child frame and restores the caller's. *)
Definition run_child (run : Runner S) (child : Interpreter) (caller target : AccountId)
    (calldata : bytes) (depth : Z) (ctx : VmExecutionContext) : M Interpreter := λ s,
  match run child caller target calldata depth ctx s.2 with
  | (Ok _, (child', st)) => (Ok child', (s.1, st))
  | (Err e, (_, st)) => (Err e, (s.1, st))
  end.

Definition op_call (run : Runner S) (call_depth : Z) (ctx : VmExecutionContext) : M Flow :=
  if MAX_CALL_DEPTH <=? call_depth then vm_fail CallDepthExceeded
  else
    _ ← spend_gas gas.CALL;
    ret_size ← pop_usize;
    ret_offset ← pop_usize;
    args_size ← pop_usize;
    args_offset ← pop_usize;
    target ← pop;
    if (MAX_RECEIPT_RETURN_DATA_BYTES <? args_size) || (MAX_RECEIPT_RETURN_DATA_BYTES <? ret_size)
    then vm_fail CallBufferTooLarge
    else
      _ ← ensure_memory args_offset args_size;
      _ ← ensure_memory ret_offset ret_size;
      calldata ← mem_read args_offset args_size;
      child_code ← look (λ _ st, get_contract_code st target);
      match child_code with
      | None | Some [] =>
          _ ← mem_write ret_offset (replicate (Z.to_nat ret_size) 0);
          _ ← push word_one;
          mret Continue
      | Some c =>
          i ← frame;
          let remaining := sat_sub (gas_limit i) (gas_used i) in
          if remaining =? 0 then vm_fail OutOfGas
          else
            child ← run_child run (new_interpreter c remaining) (contract_id i) target calldata
                      (sat_add u8_max call_depth 1) ctx;
            _ ← upd (λ i, set_gas_used i (sat_add u64_max (gas_used i) (gas_used child)));
            i' ← frame;
            match merge_child_logs (logs i') (logs child) with
            | Err e => vm_fail e
            | Ok merged =>
                _ ← upd (λ i, set_logs i merged);
                _ ← mem_write ret_offset (fit_return (default [] (return_data child)) ret_size);
                _ ← push word_one;
                mret Continue
            end
      end.

(** Deploys through the store, which extends the frame's logs. *)
Definition deploy_child (run : Runner S) (reg : R) (deployer : AccountId) (salt bytecode : bytes)
    (remaining call_depth : Z) (ctx : VmExecutionContext) : M (AccountId * Z) := λ s,
  match create2_deploy run reg deployer salt bytecode remaining (logs s.1) call_depth ctx s.2 with
  | (r, (ls, st)) => (r, (set_logs s.1 ls, st))
  end.

Definition op_create2 (run : Runner S) (reg : R) (call_depth : Z) (ctx : VmExecutionContext)
    : M Flow :=
  if MAX_CALL_DEPTH <=? sat_add u8_max call_depth 1 then vm_fail CallDepthExceeded
  else
    salt ← pop;
    size ← pop_usize;
    offset ← pop_usize;
    if size =? 0 then vm_fail Create2InitCodeEmpty
    else
      i ← frame;
      let max_init := if qa_canonical (exec_ctx i) then max_bytecode_size reg
                      else DEFAULT_MAX_BYTECODE_SIZE in
      if max_init <? size then vm_fail CallBufferTooLarge
      else
        _ ← spend_gas (sat_add u64_max gas.CREATE2 (sat_mul u64_max gas.CREATE2_PER_INIT_BYTE size));
        _ ← ensure_memory offset size;
        bytecode ← mem_read offset size;
        i ← frame;
        let remaining := sat_sub (gas_limit i) (gas_used i) in
        r ← deploy_child run reg (contract_id i) salt bytecode remaining call_depth ctx;
        _ ← upd (λ i, set_gas_used i (sat_add u64_max (gas_used i) r.2));
        _ ← push r.1;
        mret Continue.

(** The guard on the native-value instructions. *)
Definition native_guard (ctx : VmExecutionContext) (op : M Flow) : M Flow :=
  if native_value ctx then op else vm_fail InvalidBytecode.

(** The [match opcode] of the loop; a push is handled before it. *)
Definition exec_op (run : Runner S) (reg : R) (contract : AccountId) (call_depth : Z)
    (ctx : VmExecutionContext) (o : Opcode) : M Flow :=
  match o with
  | Stop => _ ← spend_gas gas.STOP; mret Halt
  | Add => binop gas.ADD add_u256
  | Sub => binop gas.SUB sub_u256
  | Mul => binop gas.MUL mul_u256
  | Div => div_op gas.DIV fst
  | Mod => div_op gas.MOD snd
  | AddMod => mod3_op gas.ADDMOD addmod_u256
  | MulMod => mod3_op gas.MULMOD mulmod_u256
  | OpLt => binop gas.CMP (λ a b, bool_word (bytes_ltb a b))
  | OpGt => binop gas.CMP (λ a b, bool_word (bytes_ltb b a))
  | OpEq => binop gas.CMP (λ a b, bool_word (bool_decide (a = b)))
  | IsZero => unop gas.ISZERO (λ a, bool_word (bool_decide (a = ZERO)))
  | And => binop gas.BITWISE and_u256
  | Or => binop gas.BITWISE or_u256
  | Xor => binop gas.BITWISE xor_u256
  | Not => unop gas.BITWISE not_u256
  | Blake3 => op_blake3 ctx
  | Shl => shift_op shl_u256
  | Shr => shift_op shr_u256
  | Sar => shift_op sar_u256
  | Dup1 => op_dup1
  | Address => push_op gas.ADDRESS (λ i _, contract_id i)
  | BlockHeight => push_op gas.BLOCKCTX (λ i _, word_u64_env (block_height (exec_ctx i)))
  | Timestamp => push_op gas.BLOCKCTX (λ i _, word_u64_env (block_timestamp (exec_ctx i)))
  | Caller => push_op gas.CALLER (λ i _, caller_id i)
  | Log0 => _ ← log_with_topics 0; mret Continue
  | Log1 => _ ← log_with_topics 1; mret Continue
  | Log2 => _ ← log_with_topics 2; mret Continue
  | Log3 => _ ← log_with_topics 3; mret Continue
  | Log4 => _ ← log_with_topics 4; mret Continue
  | MLoad => op_mload
  | MStore => op_mstore
  | SLoad => op_sload contract
  | SStore => op_sstore contract
  | Push1 | Push32 => st_fail Panic
  | Jump => op_jump
  | JumpI => op_jumpi
  | OpReturn => op_return
  | Call => op_call run call_depth ctx
  | Create2 => op_create2 run reg call_depth ctx
  | Balance => native_guard ctx op_balance
  | CallValue => native_guard ctx (push_op gas.CALLVALUE (λ i _, word_u128 (call_value i)))
  | SelfBalance =>
      native_guard ctx (push_op gas.SELFBALANCE (λ _ st, word_u128 (native_balance st contract)))
  | NativeTransfer => native_guard ctx (op_native_transfer contract)
  end.

(** A push: [len] bytes of code, right-aligned in the word. *)
Definition op_push (len : Z) : M Flow :=
  _ ← spend_gas gas.PUSH;
  i ← frame;
  if Z.of_nat (length (code i)) <? pc i + len then vm_fail InvalidBytecode
  else
    let imm := take (Z.to_nat len) (drop (Z.to_nat (pc i)) (code i)) in
    _ ← push (replicate (32 - Z.to_nat len) 0 ++ imm);
    _ ← upd (λ i, set_pc i (pc i + len));
    mret Continue.

(** One iteration of the loop, for a frame whose [pc] is inside the code. *)
Definition step (run : Runner S) (reg : R) (contract : AccountId) (call_depth : Z)
    (ctx : VmExecutionContext) : M Flow :=
  i ← frame;
  if vm_hardening (exec_ctx i) && (MAX_STACK_DEPTH <? length (stack i))%nat
  then vm_fail StackOverflow
  else
    match code i !! Z.to_nat (pc i) with
    | None => st_fail Panic
    | Some op =>
        _ ← upd (λ i, set_pc i (pc i + 1));
        match push_size op with
        | Some len => op_push len
        | None =>
            match from_byte op with
            | None => vm_fail InvalidBytecode
            | Some o => exec_op run reg contract call_depth ctx o
            end
        end
    end.

(** [run_nested] up to its loop, for the loop [loop target depth ctx]. *)
Definition run_frame (loop : AccountId → Z → VmExecutionContext → M ()) : Runner S :=
  λ child caller target calldata depth ctx st,
    (_ ← upd (λ i, enter_frame i caller target ctx);
     _ ← ensure_memory 0 (Z.of_nat (length calldata));
     _ ← mem_write 0 calldata;
     _ ← loop target depth ctx;
     i ← frame;
     mret (gas_used i)) (child, st).

(** The [while] loop; a nested run uses the fuel that is left. *)
Fixpoint run_loop (fuel : nat) (reg : R) (contract : AccountId) (call_depth : Z)
    (ctx : VmExecutionContext) : M () := λ s,
  match fuel with
  | O => (Err OutOfFuel, s)
  | Datatypes.S fuel =>
      if pc s.1 <? Z.of_nat (length (code s.1)) then
        match step (run_frame (run_loop fuel reg)) reg contract call_depth ctx s with
        | (Ok Continue, s') => run_loop fuel reg contract call_depth ctx s'
        | (Ok Halt, s') => (Ok (), s')
        | (Err e, s') => (Err e, s')
        end
      else (Ok (), s)
  end.

Definition run_nested (fuel : nat) (reg : R) : Runner S := run_frame (run_loop fuel reg).

(** The fuel of a run: one unit per unit of gas, and one for the loop's exit. *)
Definition gas_fuel (i : Interpreter) : nat := Z.to_nat (gas_limit i - gas_used i) + 2.

(** [run_with_qa]. *)
Definition run_with_qa (i : Interpreter) (caller contract : AccountId) (calldata : bytes)
    (st : S) (reg : R) (ctx : VmExecutionContext) : result Z Fault * (Interpreter * S) :=
  run_nested (gas_fuel i) reg i caller contract calldata 0 ctx st.

End Machine.
