(* ===== verification/InterpLaws.v ===== *)
(** * What the interpreter guarantees

    Facts about [run_nested] and the runs it nests, proved against the store
    interface of [Interp.v]:
    - safety: from a well-formed frame and store every run ends, within one unit
      of fuel per unit of gas, in a value or a [VmError] and never in a slice
      panic, and leaves a well-formed frame and store;
    - bounds: gas never exceeds the limit, memory 8 MiB, the operand stack
      (hardened) 1025 words, logs 24 entries. *)

From S2P Require Import Prelude Types Words Bytecode Interp.

(** ** Well-formed frames *)

Definition ctx_ok (c : VmExecutionContext) : Prop :=
  in_u64 (block_height c) ∧ in_u64 (block_timestamp c).

Definition log_ok (l : ExecutionLog) : Prop :=
  (length (log_topics l) ≤ MAX_EXECUTION_LOG_TOPICS)%nat ∧ Forall is_word (log_topics l) ∧
  Z.of_nat (length (log_data l)) ≤ MAX_EXECUTION_LOG_DATA_BYTES ∧ is_bytes (log_data l).

Definition logs_ok (ls : list ExecutionLog) : Prop :=
  (length ls ≤ MAX_EXECUTION_LOGS_PER_TX)%nat ∧ Forall log_ok ls.

Definition memory_ok (m : bytes) : Prop :=
  Z.of_nat (length m) ≤ MAX_VM_MEMORY_BYTES ∧ is_bytes m.

(** The gas limit is below [u64::MAX]: there a saturated counter is above it. *)
Definition gas_ok (i : Interpreter) : Prop :=
  0 ≤ gas_used i ≤ gas_limit i ∧ gas_limit i < u64_max.

Record frame_ok (i : Interpreter) : Prop := {
  fo_code : is_bytes (code i);
  fo_pc : 0 ≤ pc i;
  fo_stack : Forall is_word (stack i);
  fo_memory : memory_ok (memory i);
  fo_gas : gas_ok i;
  fo_return : is_bytes (default [] (return_data i));
  fo_logs : logs_ok (logs i);
  fo_caller : is_word (caller_id i);
  fo_contract : is_word (contract_id i);
  fo_ctx : ctx_ok (exec_ctx i);
}.

(** ** Words *)

Lemma is_word_app a b : (length a + length b = 32)%nat → is_bytes a → is_bytes b → is_word (a ++ b).
Proof. intros Hl Ha Hb. split; [by rewrite length_app|by apply Forall_app]. Qed.

Lemma is_bytes_replicate n b : is_byte b → is_bytes (replicate n b).
Proof. intros. by apply Forall_replicate. Qed.

Lemma is_byte_0 : is_byte 0.
Proof. unfold is_byte. lia. Qed.

Lemma is_word_one : is_word word_one.
Proof. by apply word_ok_spec. Qed.

Lemma is_word_bool b : is_word (bool_word b).
Proof. destruct b; [apply is_word_one|apply is_word_ZERO]. Qed.

Lemma is_word_u64 n : is_word (word_u64_env n).
Proof.
  apply is_word_app; [by rewrite length_replicate, length_be_bytes| |apply is_bytes_be_bytes].
  apply is_bytes_replicate, is_byte_0.
Qed.

Lemma is_word_u128 n : is_word (word_u128 n).
Proof.
  apply is_word_app; [by rewrite length_replicate, length_be_bytes| |apply is_bytes_be_bytes].
  apply is_bytes_replicate, is_byte_0.
Qed.

Lemma is_word_low v : 0 ≤ v → is_word (biguint_low_u256_be v).
Proof. intros. rewrite biguint_low_spec by done. apply is_word_be_bytes. Qed.

Lemma is_word_rem v : 0 ≤ v → is_word (biguint_rem_to_u256_be v).
Proof. rewrite biguint_rem_low. apply is_word_low. Qed.

Lemma is_word_zip (f : Z → Z → Z) a b :
  (∀ x y, is_byte x → is_byte y → is_byte (f x y)) →
  is_word a → is_word b → is_word (zip_with f a b).
Proof.
  intros Hf [La Ha] [Lb Hb]. split; [by rewrite length_zip_with_l_eq by congruence|].
  clear La Lb. revert b Hb. induction Ha as [|x a Hx Ha IH]; intros [|y b] Hb; try by constructor.
  apply Forall_cons in Hb as [Hy Hb]. constructor; [by apply Hf|by apply IH].
Qed.

Lemma is_word_and a b : is_word a → is_word b → is_word (and_u256 a b).
Proof.
  apply is_word_zip. intros. apply (is_byte_bitop Z.land andb); try done; [apply Z.land_spec|].
  intros. apply Z.land_nonneg. by left.
Qed.

Lemma is_word_or a b : is_word a → is_word b → is_word (or_u256 a b).
Proof.
  apply is_word_zip. intros. apply (is_byte_bitop Z.lor orb); try done; [apply Z.lor_spec|].
  intros. by apply Z.lor_nonneg.
Qed.

Lemma is_word_xor a b : is_word a → is_word b → is_word (xor_u256 a b).
Proof.
  apply is_word_zip. intros. apply (is_byte_bitop Z.lxor xorb); try done; [apply Z.lxor_spec|].
  intros. apply Z.lxor_nonneg. lia.
Qed.

Lemma is_word_not a : is_word a → is_word (not_u256 a).
Proof.
  intros [La Ha]. split; [by unfold not_u256; rewrite length_fmap|]. by apply be_val_not.
Qed.

Lemma is_word_add a b : is_word a → is_word b → is_word (add_u256 a b).
Proof. intros. by apply add_u256_spec. Qed.

Lemma is_word_sub a b : is_word a → is_word b → is_word (sub_u256 a b).
Proof. intros. by apply sub_u256_spec. Qed.

Lemma is_word_mul a b : is_word a → is_word b → is_word (mul_u256 a b).
Proof.
  intros Ha Hb. pose proof (word_bound a Ha). pose proof (word_bound b Hb).
  apply is_word_low. nia.
Qed.

Lemma is_word_addmod a b n : is_word a → is_word b → is_word n → is_word (addmod_u256 a b n).
Proof.
  intros Ha Hb Hn. unfold addmod_u256. case_bool_decide as Hz; [apply is_word_ZERO|].
  rewrite (word_zero n Hn) in Hz. pose proof (word_bound n Hn).
  apply is_word_rem, Z.mod_pos_bound. lia.
Qed.

Lemma is_word_mulmod a b n : is_word a → is_word b → is_word n → is_word (mulmod_u256 a b n).
Proof.
  intros Ha Hb Hn. unfold mulmod_u256. case_bool_decide as Hz; [apply is_word_ZERO|].
  rewrite (word_zero n Hn) in Hz. pose proof (word_bound n Hn).
  apply is_word_rem, Z.mod_pos_bound. lia.
Qed.

Lemma is_word_shl s v : is_word s → is_word v → is_word (shl_u256 s v).
Proof. intros. apply is_word_rem, Z.mod_pos_bound. done. Qed.

Lemma is_word_shr s v : is_word s → is_word v → is_word (shr_u256 s v).
Proof.
  intros Hs Hv. pose proof (word_bound v Hv). apply is_word_rem, Z.shiftr_nonneg. lia.
Qed.

Lemma is_word_sar s v : is_word s → is_word v → is_word (sar_u256 s v).
Proof.
  intros Hs Hv. pose proof (shift_count_bound s Hs). unfold sar_u256.
  rewrite from_signed_spec by done. rewrite signed_word_spec; [apply is_word_be_bytes|].
  apply shiftr_bound; [lia|]. by apply signed_val_bound.
Qed.

Lemma div_mod_words a b q r :
  is_word a → is_word b → div_mod_u256_be a b = Some (q, r) → is_word q ∧ is_word r.
Proof.
  intros Ha Hb Hd. assert (be_val b ≠ 0) as Hnz.
  { intros Hz. unfold div_mod_u256_be in Hd. rewrite bool_decide_eq_true_2 in Hd; [done|].
    by apply word_zero. }
  pose proof (word_bound b Hb).
  destruct (div_mod_u256_spec a b Ha Hb ltac:(lia)) as (q' & r' & Heq & Hq & Hr & _).
  rewrite Heq in Hd. by simplify_eq.
Qed.

Lemma usize_bound w : is_word w → 0 ≤ u256_to_usize w ≤ u64_max.
Proof.
  intros [Hl Hb]. unfold u256_to_usize. rewrite <- be_val_rev.
  assert (is_bytes (rev (take 8 (rev w)))) as Hr by (apply Forall_rev, Forall_take, Forall_rev, Hb).
  apply be_val_bound in Hr. rewrite length_rev, length_take, length_rev, Hl in Hr.
  change (256 ^ Z.of_nat (8 `min` 32)) with (u64_max + 1) in Hr. lia.
Qed.

Lemma is_word_bytes w : is_word w → is_bytes w.
Proof. by intros [_ ?]. Qed.

Create HintDb vm.
#[export] Hint Resolve is_word_ZERO is_word_one is_word_bool is_word_u64 is_word_u128 is_word_and
  is_word_or is_word_xor is_word_not is_word_add is_word_sub is_word_mul is_word_addmod
  is_word_mulmod is_word_shl is_word_shr is_word_sar is_word_bytes usize_bound : vm.

(** ** The fields of a well-formed frame *)

Lemma fo_set_pc i p : frame_ok i → 0 ≤ p → frame_ok (set_pc i p).
Proof. intros [] ?. by constructor. Qed.

Lemma fo_set_stack i s : frame_ok i → Forall is_word s → frame_ok (set_stack i s).
Proof. intros [] ?. by constructor. Qed.

Lemma fo_set_memory i m : frame_ok i → memory_ok m → frame_ok (set_memory i m).
Proof. intros [] ?. by constructor. Qed.

Lemma fo_set_gas i g : frame_ok i → 0 ≤ g ≤ gas_limit i → frame_ok (set_gas_used i g).
Proof. intros [] ?. constructor; try done. unfold gas_ok in *; simpl. lia. Qed.

Lemma fo_set_return i r : frame_ok i → is_bytes (default [] r) → frame_ok (set_return_data i r).
Proof. intros [] ?. by constructor. Qed.

Lemma fo_set_logs i l : frame_ok i → logs_ok l → frame_ok (set_logs i l).
Proof. intros [] ?. by constructor. Qed.

Lemma fo_enter i caller contract ctx :
  frame_ok i → is_word caller → is_word contract → ctx_ok ctx →
  frame_ok (enter_frame i caller contract ctx).
Proof.
  intros [] ???. constructor; simpl; try done. split; [simpl; lia|constructor].
Qed.

Lemma memory_ok_nil : memory_ok [].
Proof. split; [done|constructor]. Qed.

Lemma logs_ok_nil : logs_ok [].
Proof. split; [simpl; lia|constructor]. Qed.

Lemma fo_new c limit : is_bytes c → 0 ≤ limit < u64_max → frame_ok (new_interpreter c limit).
Proof.
  intros Hc Hl. constructor; simpl; auto using memory_ok_nil, logs_ok_nil with vm; try done;
    try by constructor.
  unfold gas_ok; simpl. lia.
Qed.

#[export] Hint Resolve fo_set_pc fo_set_stack fo_set_memory fo_set_gas fo_set_return
  fo_set_logs fo_enter fo_new fo_stack fo_caller fo_contract fo_code : vm.

(** ** The store's promises *)

Definition vm_fault (e : Fault) : Prop := ∃ v, e = Vm v.

(** The store's well-formedness. *)
Class StoreInv (S : Type) := store_ok : S → Prop.

(** A runner that is safe for frames with less than [n] gas left: calls are at
    most [MAX_CALL_DEPTH] deep, and a successful run gives its gas. *)
Definition runner_ok {S} `{StoreInv S} (n : Z) (run : Runner S) : Prop :=
  ∀ child caller target calldata depth ctx st,
    frame_ok child → store_ok st → is_word caller → is_word target → is_bytes calldata →
    0 ≤ depth ≤ MAX_CALL_DEPTH → ctx_ok ctx → gas_limit child - gas_used child < n →
    match run child caller target calldata depth ctx st with
    | (Ok g, (child', st')) =>
        frame_ok child' ∧ store_ok st' ∧ g = gas_used child' ∧
        gas_limit child' = gas_limit child ∧ gas_used child ≤ gas_used child'
    | (Err e, (_, st')) => vm_fault e ∧ store_ok st'
    end.

(** What the interpreter relies on of a store: it keeps its invariant, yields
    words and byte strings, and deploys within the gas it is given when the
    runner it is handed is safe. *)
Class StoreLaws (S R : Type) `{StorageAccess S R, StoreInv S} := {
  sload_word : ∀ st c k, store_ok st → is_word c → is_word k → is_word (sload st c k);
  sstore_ok : ∀ st c k v, store_ok st → is_word c → is_word k → is_word v →
    store_ok (sstore st c k v);
  code_bytes : ∀ st a c, store_ok st → get_contract_code st a = Some c → is_bytes c;
  native_transfer_ok : ∀ st from to amount, store_ok st → is_word from → is_word to →
    in_u128 amount → store_ok (native_transfer st from to amount).2;
  create2_safe : ∀ n run reg deployer salt bytecode limit ls depth ctx st,
    runner_ok n run → store_ok st → is_word deployer → is_word salt → is_bytes bytecode →
    0 ≤ limit < u64_max → limit < n → logs_ok ls → 0 ≤ depth → depth + 1 < MAX_CALL_DEPTH →
    ctx_ok ctx →
    match create2_deploy run reg deployer salt bytecode limit ls depth ctx st with
    | (Ok (addr, g), (ls', st')) => is_word addr ∧ 0 ≤ g ≤ limit ∧ logs_ok ls' ∧ store_ok st'
    | (Err e, (_, st')) => vm_fault e ∧ store_ok st'
    end;
}.

(** ** Safety *)

Section Safety.
Context `{Hh : Host} `{!HostDigest Hh} {S R : Type} `{StoreLaws S R}.

Notation M := (ST (Interpreter * S) Fault).

(** From [s], [m] ends in a value and state satisfying [Q], or in a [VmError]. *)
Definition wp {A} (m : M A) (Q : A → Interpreter * S → Prop) (s : Interpreter * S) : Prop :=
  match m s with
  | (Ok a, s') => Q a s'
  | (Err e, s') => vm_fault e ∧ store_ok s'.2
  end.

Lemma wp_bind {A B} (m : M A) (k : A → M B) Q s :
  wp m (λ a, wp (k a) Q) s → wp (mbind k m) Q s.
Proof. unfold wp, mbind, st_bind. by destruct (m s) as [[]]. Qed.

Lemma wp_ret {A} (a : A) Q s : Q a s → wp (mret a) Q s.
Proof. done. Qed.

Lemma wp_mono {A} (m : M A) (Q Q' : A → Interpreter * S → Prop) s :
  wp m Q s → (∀ a s', Q a s' → Q' a s') → wp m Q' s.
Proof. unfold wp. destruct (m s) as [[]]; auto. Qed.

Lemma wp_fail {A} e (Q : A → _) i st : store_ok st → wp (vm_fail e) Q (i, st).
Proof. intros. split; [by eexists|done]. Qed.

Lemma wp_frame (Q : Interpreter → _) i st : Q i (i, st) → wp frame Q (i, st).
Proof. done. Qed.

Lemma wp_upd f Q i st : Q () (f i, st) → wp (upd f) Q (i, st).
Proof. done. Qed.

Lemma wp_look {A} f (Q : A → _) i st : Q (f i st) (i, st) → wp (look f) Q (i, st).
Proof. done. Qed.

Lemma wp_push w Q i st : Q () (set_stack i (w :: stack i), st) → wp (push w) Q (i, st).
Proof. done. Qed.

Lemma wp_spend c Q i st :
  frame_ok i → store_ok st → 0 ≤ c →
  (gas_used i + c ≤ gas_limit i → Q () (set_gas_used i (gas_used i + c), st)) →
  wp (spend_gas c) Q (i, st).
Proof.
  intros [? ? ? ? [Hg Hl] ? ? ? ? ?] Hst Hc HQ. unfold wp, spend_gas, sat_add; simpl.
  destruct (Z.ltb_spec (gas_limit i) (Z.min u64_max (gas_used i + c))) as [Hlt|Hle].
  - split; [by eexists|done].
  - rewrite Z.min_r in * by lia. by apply HQ.
Qed.

Lemma wp_pop Q i st :
  frame_ok i → store_ok st →
  (∀ w r, stack i = w :: r → is_word w → Forall is_word r → Q w (set_stack i r, st)) →
  wp pop Q (i, st).
Proof.
  intros Hi Hst HQ. unfold wp, pop; simpl. pose proof (fo_stack i Hi) as Hs.
  destruct (stack i) as [|w r] eqn:E; [split; [by eexists|done]|].
  apply Forall_cons in Hs as [Hw Hr]. by apply HQ.
Qed.

Lemma wp_pop_usize Q i st :
  frame_ok i → store_ok st →
  (∀ n w r, stack i = w :: r → 0 ≤ n ≤ u64_max → Forall is_word r → Q n (set_stack i r, st)) →
  wp pop_usize Q (i, st).
Proof.
  intros Hi Hst HQ. apply wp_bind, wp_pop; [done..|]. intros w r E Hw Hr.
  apply wp_ret. eapply HQ; eauto with vm.
Qed.

Lemma memory_ok_grow m e :
  memory_ok m → Z.of_nat (length m) ≤ e ≤ MAX_VM_MEMORY_BYTES →
  memory_ok (m ++ replicate (Z.to_nat (e - Z.of_nat (length m))) 0).
Proof.
  intros [Hl Hb] He. split.
  - rewrite length_app, length_replicate. lia.
  - apply Forall_app. split; [done|]. apply is_bytes_replicate, is_byte_0.
Qed.

Lemma wp_ensure_memory offset size Q i st :
  frame_ok i → store_ok st → 0 ≤ offset → 0 ≤ size →
  (∀ m g, memory_ok m → offset + size ≤ Z.of_nat (length m) → mem_len i ≤ Z.of_nat (length m) →
     gas_used i ≤ g ≤ gas_limit i → Q () (set_memory (set_gas_used i g) m, st)) →
  wp (ensure_memory offset size) Q (i, st).
Proof.
  intros Hi Hst Ho Hs HQ. pose proof (fo_gas i Hi) as [Hg _]. pose proof (fo_memory i Hi) as Hm.
  assert (set_memory (set_gas_used i (gas_used i)) (memory i) = i) as Hid by by destruct i.
  unfold ensure_memory. destruct (Z.ltb_spec u64_max (offset + size)); [by apply wp_fail|].
  apply wp_bind, wp_frame. destruct (Z.ltb_spec (mem_len i) (offset + size)) as [Hlt|Hge].
  2:{ apply wp_ret. rewrite <- Hid. apply HQ; try done; unfold mem_len in *; lia. }
  destruct (Z.ltb_spec MAX_VM_MEMORY_BYTES (offset + size)); [by apply wp_fail|].
  pose proof (memory_ok_grow (memory i) (offset + size) Hm ltac:(unfold mem_len in *; lia)) as Hgrow.
  assert (offset + size = Z.of_nat (length (memory i ++
    replicate (Z.to_nat (offset + size - mem_len i)) 0))) as Hlen.
  { rewrite length_app, length_replicate. unfold mem_len in *. lia. }
  apply wp_bind. destruct (vm_hardening (exec_ctx i)).
  - apply wp_spend; [done..|unfold sat_sub; lia|]. intros Hcost.
    apply wp_upd. unfold mem_len in *; simpl. apply HQ; [done|lia..|].
    split; [|done]. unfold sat_sub. lia.
  - apply wp_ret, wp_upd. destruct i; simpl in *. apply HQ; try done; unfold mem_len in *; simpl in *; lia.
Qed.

Lemma wp_mem_read offset size Q i st :
  frame_ok i → 0 ≤ offset → 0 ≤ size → offset + size ≤ mem_len i →
  (∀ d, is_bytes d → length d = Z.to_nat size → Q d (i, st)) →
  wp (mem_read offset size) Q (i, st).
Proof.
  intros Hi Ho Hs Hle HQ. unfold wp, mem_read; simpl.
  destruct (Z.leb_spec (offset + size) (mem_len i)); [|lia].
  apply HQ.
  - apply Forall_take, Forall_drop, Hi.
  - rewrite length_take, length_drop. unfold mem_len in *. lia.
Qed.

Lemma wp_mem_write offset d Q i st :
  frame_ok i → 0 ≤ offset → is_bytes d → offset + Z.of_nat (length d) ≤ mem_len i →
  (∀ m, memory_ok m → length m = length (memory i) → Q () (set_memory i m, st)) →
  wp (mem_write offset d) Q (i, st).
Proof.
  intros Hi Ho Hd Hle HQ. unfold wp, mem_write; simpl.
  destruct (Z.leb_spec (offset + Z.of_nat (length d)) (mem_len i)); [|lia].
  destruct (fo_memory i Hi) as [Hlen Hb]. unfold mem_len in *.
  assert (length (take (Z.to_nat offset) (memory i) ++ d
    ++ drop (Z.to_nat offset + length d) (memory i)) = length (memory i)) as Hsame.
  { rewrite !length_app, length_take, length_drop. lia. }
  apply HQ; [|done]. split; [by rewrite Hsame|].
  apply Forall_app; split; [by apply Forall_take|].
  apply Forall_app; split; [done|by apply Forall_drop].
Qed.

Lemma logs_ok_snoc ls l :
  logs_ok ls → log_ok l → (length ls < MAX_EXECUTION_LOGS_PER_TX)%nat → logs_ok (ls ++ [l]).
Proof.
  intros [Hn Hl] Hok Hlt. split; [rewrite length_app; simpl; lia|].
  apply Forall_app. split; [done|by constructor].
Qed.

Lemma wp_append_log topics d Q i st :
  frame_ok i → store_ok st → Forall is_word topics → is_bytes d →
  (∀ ls g, logs_ok ls → gas_used i + gas.LOG_BASE ≤ g ≤ gas_limit i →
     Q () (set_logs (set_gas_used i g) ls, st)) →
  wp (append_log topics d) Q (i, st).
Proof.
  intros Hi Hst Ht Hd HQ. unfold append_log.
  destruct (Nat.ltb_spec MAX_EXECUTION_LOG_TOPICS (length topics)) as [|Htop]; [by apply wp_fail|].
  destruct (Z.ltb_spec MAX_EXECUTION_LOG_DATA_BYTES (Z.of_nat (length d))); [by apply wp_fail|].
  apply wp_bind, wp_frame.
  destruct (Nat.leb_spec MAX_EXECUTION_LOGS_PER_TX (length (logs i))); [by apply wp_fail|].
  pose proof (fo_gas i Hi) as [_ Hmax].
  apply wp_bind, wp_spend; [done..|unfold_sat; unfold gas.LOG_BASE, gas.LOG_PER_TOPIC,
    gas.LOG_PER_DATA_BYTE, u64_max in *; lia|].
  intros Hle. apply wp_upd. simpl. apply HQ.
  - apply logs_ok_snoc; [apply Hi|by split_and!|done].
  - unfold_sat. unfold gas.LOG_BASE, gas.LOG_PER_TOPIC, gas.LOG_PER_DATA_BYTE, u64_max in *. lia.
Qed.

Lemma wp_pop_topics n Q i st :
  frame_ok i → store_ok st →
  (∀ ts r, Forall is_word ts → Forall is_word r → (length r ≤ length (stack i))%nat →
     Q ts (set_stack i r, st)) →
  wp (pop_topics n) Q (i, st).
Proof.
  revert Q i. induction n as [|n IH]; intros Q i Hi Hst HQ; simpl.
  - apply wp_ret. assert (set_stack i (stack i) = i) as <- by by destruct i.
    apply HQ; [constructor|apply Hi|done].
  - apply wp_bind, wp_pop; [done..|]. intros w r E Hw Hr.
    apply wp_bind, IH; [auto with vm|done|]. intros ts r' Hts Hr' Hlen. apply wp_ret.
    apply HQ; [by constructor|done|]. rewrite E. simpl in *. lia.
Qed.

(** What one instruction does to the frame [i]. *)
Record step_post (i : Interpreter) (fl : Flow) (s' : Interpreter * S) : Prop := {
  sp_frame : frame_ok s'.1;
  sp_store : store_ok s'.2;
  sp_limit : gas_limit s'.1 = gas_limit i;
  sp_ctx : exec_ctx s'.1 = exec_ctx i;
  sp_gas : gas_used i ≤ gas_used s'.1;
  sp_progress : fl = Continue → gas_used i < gas_used s'.1;
  sp_stack : (length (stack s'.1) ≤ Datatypes.S (length (stack i)))%nat;
}.

Ltac unfold_gas :=
  unfold gas.STOP, gas.ADD, gas.SUB, gas.MUL, gas.DIV, gas.MOD, gas.ADDMOD, gas.MULMOD, gas.CMP,
    gas.ISZERO, gas.BITWISE, gas.SHIFT, gas.MLOAD, gas.MSTORE, gas.SLOAD, gas.SSTORE, gas.PUSH,
    gas.JUMP, gas.JUMPI, gas.RETURN, gas.CALL, gas.CREATE2, gas.CREATE2_PER_INIT_BYTE, gas.DUP1,
    gas.ADDRESS, gas.BLOCKCTX, gas.CALLER, gas.LOG_BASE, gas.LOG_PER_TOPIC,
    gas.LOG_PER_DATA_BYTE, gas.CALLVALUE, gas.SELFBALANCE, gas.BALANCE, gas.NATIVE_TRANSFER,
    gas.BLAKE3, gas.BLAKE3_PER_WORD in *.

Ltac vm_simpl := unfold mem_len in *; unfold_gas; simpl in *; simplify_eq/=.

Ltac vm_good :=
  repeat match goal with
  | H : ?G |- ?G => exact H
  | |- frame_ok (set_pc _ _) => apply fo_set_pc
  | |- frame_ok (set_stack _ _) => apply fo_set_stack
  | |- frame_ok (set_memory _ _) => apply fo_set_memory
  | |- frame_ok (set_gas_used _ _) => apply fo_set_gas
  | |- frame_ok (set_return_data _ _) => apply fo_set_return
  | |- frame_ok (set_logs _ _) => apply fo_set_logs
  | |- Forall is_word (_ :: _) => apply Forall_cons_2
  end; simpl; first [assumption | lia | solve [auto with vm]].

(** One step of a symbolic run; the new facts get fresh names. *)
Ltac vm_step :=
  match goal with
  | |- wp (mbind _ _) _ _ => apply wp_bind
  | |- wp (mret _) _ _ => apply wp_ret
  | |- wp (vm_fail _) _ _ => apply wp_fail; assumption
  | |- wp frame _ _ => apply wp_frame
  | |- wp (upd _) _ _ => apply wp_upd
  | |- wp (look _) _ _ => apply wp_look
  | |- wp (push _) _ _ => apply wp_push
  | |- wp (spend_gas _) _ _ => apply wp_spend; [vm_good|assumption|by vm_compute|intros ?]
  | |- wp pop_usize _ _ => apply wp_pop_usize; [vm_good|assumption|intros ? ? ? ? ? ?]
  | |- wp pop _ _ => apply wp_pop; [vm_good|assumption|intros ? ? ? ? ?]
  | |- wp (ensure_memory _ _) _ _ =>
      apply wp_ensure_memory; [vm_good|assumption|lia|lia|intros ? ? ? ? ? ?]
  | |- wp (mem_read _ _) _ _ => apply wp_mem_read; [vm_good|lia|lia|vm_simpl; lia|intros ? ? ?]
  end.

Ltac vm_run := repeat (vm_step; vm_simpl).

Ltac vm_done :=
  constructor; simpl; intros; try assumption; try reflexivity; try discriminate;
  try vm_good; try lia;
  repeat match goal with E : stack _ = _ |- _ => rewrite E in *; clear E end; simpl in *; lia.

(** Starts a symbolic run from the well-formed frame [i]. *)
Ltac vm_start :=
  match goal with
  | Hi : frame_ok ?i |- wp _ (step_post ?i) (?i, _) => pose proof (fo_gas i Hi) as [? ?]
  end.

Lemma binop_ok cost f i st :
  frame_ok i → store_ok st → 0 < cost →
  (∀ a b, is_word a → is_word b → is_word (f a b)) →
  wp (binop cost f) (step_post i) (i, st).
Proof.
  intros Hi Hst Hc Hf. vm_start. unfold binop.
  apply wp_bind, wp_spend; [done|done|lia|]. intros Hgas. vm_run. vm_done.
Qed.

Lemma unop_ok cost f i st :
  frame_ok i → store_ok st → 0 < cost → (∀ a, is_word a → is_word (f a)) →
  wp (unop cost f) (step_post i) (i, st).
Proof.
  intros Hi Hst Hc Hf. vm_start. unfold unop.
  apply wp_bind, wp_spend; [done|done|lia|]. intros Hgas. vm_run. vm_done.
Qed.

Lemma mod3_ok cost f i st :
  frame_ok i → store_ok st → 0 < cost →
  (∀ a b n, is_word a → is_word b → is_word n → is_word (f a b n)) →
  wp (mod3_op cost f) (step_post i) (i, st).
Proof.
  intros Hi Hst Hc Hf. vm_start. unfold mod3_op.
  apply wp_bind, wp_spend; [done|done|lia|]. intros Hgas. vm_run. vm_done.
Qed.

Lemma div_ok cost sel i st :
  frame_ok i → store_ok st → 0 < cost →
  (∀ q r, is_word q → is_word r → is_word (sel (q, r))) →
  wp (div_op cost sel) (step_post i) (i, st).
Proof.
  intros Hi Hst Hc Hf. vm_start. unfold div_op.
  apply wp_bind, wp_spend; [done|done|lia|]. intros Hgas.
  do 2 (vm_step; vm_step; vm_simpl).
  destruct (div_mod_u256_be _ _) as [[q r]|] eqn:Hd; [|vm_step].
  apply div_mod_words in Hd as [Hq Hr]; [|done..]. vm_run. vm_done.
Qed.

Lemma shift_ok f i st :
  frame_ok i → store_ok st → (∀ s v, is_word s → is_word v → is_word (f s v)) →
  wp (shift_op f) (step_post i) (i, st).
Proof.
  intros Hi Hst Hf. vm_start. unfold shift_op. vm_run.
  vm_done.
Qed.

Lemma push_op_ok cost w i st :
  frame_ok i → store_ok st → 0 < cost → (∀ g, is_word (w (set_gas_used i g) st)) →
  wp (push_op cost w) (step_post i) (i, st).
Proof.
  intros Hi Hst Hc Hw. vm_start. unfold push_op.
  apply wp_bind, wp_spend; [done|done|lia|]. intros Hgas. vm_run. vm_done.
Qed.

Lemma mload_ok i st : frame_ok i → store_ok st → wp op_mload (step_post i) (i, st).
Proof.
  intros Hi Hst. vm_start. unfold op_mload. vm_run.
  assert (is_word d) by by split. vm_done.
Qed.

Lemma mstore_ok i st : frame_ok i → store_ok st → wp op_mstore (step_post i) (i, st).
Proof.
  intros Hi Hst. vm_start. unfold op_mstore. vm_run.
  match goal with Hw : is_word ?w |- wp (mem_write _ ?w) _ _ =>
    pose proof Hw as [Hl Hb]; apply wp_mem_write; [vm_good|lia|done|vm_simpl; lia|] end.
  intros m' Hm' Hlen. vm_run. vm_done.
Qed.

Lemma dup1_ok i st : frame_ok i → store_ok st → wp op_dup1 (step_post i) (i, st).
Proof.
  intros Hi Hst. vm_start. unfold op_dup1. vm_run. pose proof (fo_stack i Hi) as Hs.
  destruct (stack i) as [|w r] eqn:E; [vm_step|].
  pose proof (Forall_inv Hs). vm_run. vm_done.
Qed.

Lemma sload_op_ok c i st :
  frame_ok i → store_ok st → is_word c → wp (op_sload c) (step_post i) (i, st).
Proof.
  intros Hi Hst Hc. vm_start. unfold op_sload. vm_run.
  match goal with |- context [sload st c ?k] => assert (is_word (sload st c k)) by by apply sload_word end.
  vm_done.
Qed.

Lemma sstore_op_ok c i st :
  frame_ok i → store_ok st → is_word c → wp (op_sstore c) (step_post i) (i, st).
Proof.
  intros Hi Hst Hc. vm_start. unfold op_sstore. vm_run.
  unfold wp, st_modify; simpl. match goal with |- context [sstore st c ?k ?v] =>
    assert (store_ok (sstore st c k v)) by by apply sstore_ok end.
  vm_done.
Qed.

Lemma jump_ok i st : frame_ok i → store_ok st → wp op_jump (step_post i) (i, st).
Proof.
  intros Hi Hst. vm_start. unfold op_jump. vm_run. case_match; vm_run; vm_done.
Qed.

Lemma jumpi_ok i st : frame_ok i → store_ok st → wp op_jumpi (step_post i) (i, st).
Proof.
  intros Hi Hst. vm_start. unfold op_jumpi. vm_run. repeat case_match; vm_run; vm_done.
Qed.

Lemma return_ok i st : frame_ok i → store_ok st → wp op_return (step_post i) (i, st).
Proof.
  intros Hi Hst. vm_start. unfold op_return. vm_run.
  vm_done.
Qed.

Lemma blake3_cost_pos n :
  0 ≤ n → 0 ≤ sat_mul u64_max gas.BLAKE3_PER_WORD (sat_add u64_max n 31 `div` 32).
Proof.
  intros Hn. unfold_sat. unfold_gas. apply Z.min_glb; [done|].
  apply Z.mul_nonneg_nonneg; [done|]. apply Z.div_pos; [|done]. unfold u64_max. lia.
Qed.

Lemma blake3_ok ctx i st : frame_ok i → store_ok st → wp (op_blake3 ctx) (step_post i) (i, st).
Proof.
  intros Hi Hst. vm_start. unfold op_blake3. case_match; [vm_step|]. vm_run.
  case_match; [vm_step|]. pose proof (blake3_cost_pos n0 ltac:(lia)) as Hpos.
  apply wp_bind, wp_spend; [vm_good|done..|]. intros Hcost. vm_run.
  match goal with |- context [blake3 ?d] => pose proof (blake3_word d) end.
  vm_done.
Qed.

Lemma balance_ok i st : frame_ok i → store_ok st → wp op_balance (step_post i) (i, st).
Proof. intros Hi Hst. vm_start. unfold op_balance. vm_run. vm_done. Qed.

Lemma amount_u128 w : is_word w → in_u128 (be_val (drop 16 w)).
Proof.
  intros [Hl Hb]. pose proof (be_val_bound (drop 16 w) (Forall_drop _ _ _ Hb)) as Hv.
  rewrite length_drop, Hl in Hv. change (256 ^ Z.of_nat (32 - 16)) with (u128_max + 1) in Hv.
  unfold in_u128. lia.
Qed.

Lemma native_transfer_op_ok c i st :
  frame_ok i → store_ok st → is_word c → wp (op_native_transfer c) (step_post i) (i, st).
Proof.
  intros Hi Hst Hc. vm_start. unfold op_native_transfer. vm_run.
  case_match; [case_match; vm_step|]. apply wp_bind. unfold wp at 1, move_native_op; simpl.
  match goal with |- context [native_transfer st c ?t ?a] =>
    assert (store_ok (native_transfer st c t a).2) as Hst'
      by (apply native_transfer_ok; auto using amount_u128);
    destruct (native_transfer st c t a) as [[[]|e] st'] end; simpl in *.
  - vm_run. vm_done.
  - split; [by eexists|done].
Qed.

Lemma log_op_ok n i st :
  frame_ok i → store_ok st →
  wp (log_with_topics n ≫= λ _, mret Continue) (step_post i) (i, st).
Proof.
  intros Hi Hst. vm_start. apply wp_bind. unfold log_with_topics.
  do 2 (vm_step; vm_step; vm_simpl).
  apply wp_bind, wp_pop_topics; [vm_good|done|]. intros ts r' Hts Hr' Hlen. simpl in Hlen.
  vm_run. apply wp_append_log; [vm_good|done|by apply Forall_rev|done|].
  intros ls g' Hls Hg'. vm_run. vm_done.
Qed.

Lemma merge_logs_ok parent child :
  logs_ok parent → logs_ok child →
  match merge_child_logs parent child with Ok ls => logs_ok ls | Err _ => True end.
Proof.
  intros [Hp Hpf] [Hc Hcf]. unfold merge_child_logs.
  destruct (Nat.ltb_spec MAX_EXECUTION_LOGS_PER_TX (length parent + length child)); [done|].
  destruct (forallb _ _); [|done]. split; [by rewrite length_app|by apply Forall_app].
Qed.

Lemma fit_return_length ret size : 0 ≤ size → Z.of_nat (length (fit_return ret size)) = size.
Proof. intros. unfold fit_return. rewrite length_app, length_take, length_replicate. lia. Qed.

Lemma fit_return_bytes ret size : is_bytes ret → is_bytes (fit_return ret size).
Proof.
  intros. apply Forall_app. split; [by apply Forall_take|apply is_bytes_replicate, is_byte_0].
Qed.

(** A child frame gets less gas than the runner is safe for. *)
Lemma wp_run_child n run c limit caller target calldata depth ctx Q i st :
  runner_ok n run → frame_ok i → store_ok st → is_bytes c → 0 ≤ limit < u64_max → limit < n →
  is_word caller → is_word target → is_bytes calldata → 0 ≤ depth ≤ MAX_CALL_DEPTH → ctx_ok ctx →
  (∀ child st', frame_ok child → store_ok st' → 0 ≤ gas_used child ≤ limit → Q child (i, st')) →
  wp (run_child run (new_interpreter c limit) caller target calldata depth ctx) Q (i, st).
Proof.
  intros Hrun Hi Hst Hc Hl Hn ????? HQ. unfold wp, run_child; simpl.
  pose proof (Hrun (new_interpreter c limit) caller target calldata depth ctx st) as Hr.
  destruct (run _ caller target calldata depth ctx st) as [[g|e] [child st']].
  - destruct Hr as (Hf & Hs & _ & Hlim & Hge); auto with vm; [simpl; lia|].
    apply HQ; [done..|]. pose proof (fo_gas child Hf) as [? ?]. simpl in *. lia.
  - apply Hr; auto with vm. simpl; lia.
Qed.

(** Writing the callee's output and the flag after a call. *)
Lemma call_finish i0 i st off d :
  frame_ok i → store_ok st → 0 ≤ off → is_bytes d → off + Z.of_nat (length d) ≤ mem_len i →
  gas_limit i = gas_limit i0 → exec_ctx i = exec_ctx i0 → gas_used i0 < gas_used i →
  (length (stack i) ≤ length (stack i0))%nat →
  wp (_ ← mem_write off d; _ ← push word_one; mret Continue) (step_post i0) (i, st).
Proof.
  intros Hi Hst Ho Hd Hle Hlim Hctx Hg Hlen. pose proof (fo_gas i Hi) as [? ?].
  apply wp_bind, wp_mem_write; [done..|]. intros m Hm Hml. vm_run. vm_done.
Qed.

Lemma call_ok n run depth ctx i st :
  frame_ok i → store_ok st → runner_ok n run → gas_limit i - gas_used i ≤ n →
  0 ≤ depth ≤ MAX_CALL_DEPTH → ctx_ok ctx →
  wp (op_call run depth ctx) (step_post i) (i, st).
Proof.
  intros Hi Hst Hrun Hn Hd Hctx. vm_start. unfold op_call.
  destruct (Z.leb_spec MAX_CALL_DEPTH depth); [vm_step|]. vm_run. case_match; [vm_step|]. vm_run.
  match goal with |- context [get_contract_code st ?t] =>
    destruct (get_contract_code st t) as [[|b c]|] eqn:Hcode end.
  1,3: apply call_finish; [vm_good|done|lia|apply is_bytes_replicate, is_byte_0
    |rewrite length_replicate; vm_simpl; lia|done|done|simpl; lia|].
  1,2: repeat match goal with E : stack _ = _ |- _ => rewrite E; clear E end; simpl; lia.
  apply code_bytes in Hcode; [|done]. vm_run.
  case_match; [vm_step|]. bool_to_prop. apply wp_bind.
  eapply wp_run_child; [done|vm_good|done|done|unfold sat_sub in *; lia..|auto with vm|done|done| |done|].
  { unfold_sat. unfold u8_max, MAX_CALL_DEPTH in *. lia. }
  intros child st' Hchild Hst' Hcg. pose proof (fo_return child Hchild) as Hret. vm_run.
  pose proof (merge_logs_ok (logs i) (logs child) (fo_logs i Hi) (fo_logs child Hchild)) as Hml.
  destruct (merge_child_logs (logs i) (logs child)) as [merged|]; [|vm_step].
  apply wp_bind, wp_upd. simpl. unfold sat_sub in *.
  assert (sat_add u64_max g0 (gas_used child) = g0 + gas_used child) as -> by (unfold_sat; lia).
  apply call_finish; [vm_good|done|lia|by apply fit_return_bytes| |done|done|simpl; lia|].
  - rewrite fit_return_length by lia. vm_simpl. lia.
  - match goal with E : stack _ = _ |- _ => rewrite E end. simpl. lia.
Qed.

(** [CREATE2]: the deployment gets less gas than the runner is safe for. *)
Lemma wp_deploy_child n run reg deployer salt bytecode limit depth ctx Q i st :
  runner_ok n run → frame_ok i → store_ok st → is_word deployer → is_word salt →
  is_bytes bytecode →
  0 ≤ limit < u64_max → limit < n → 0 ≤ depth → depth + 1 < MAX_CALL_DEPTH → ctx_ok ctx →
  (∀ addr g ls st', is_word addr → 0 ≤ g ≤ limit → logs_ok ls → store_ok st' →
     Q (addr, g) (set_logs i ls, st')) →
  wp (deploy_child run reg deployer salt bytecode limit depth ctx) Q (i, st).
Proof.
  intros Hrun Hi Hst Hdep Hs Hb Hl Hn Hd Hd' Hctx HQ. unfold wp, deploy_child; simpl.
  pose proof (create2_safe n run reg deployer salt bytecode limit (logs i) depth ctx st) as Hc.
  destruct (create2_deploy _ _ _ _ _ _ _ _ _ _) as [[[addr g]|e] [ls st']].
  - destruct Hc as (? & ? & ? & ?); auto with vm; apply Hi || by apply HQ.
  - apply Hc; auto with vm; apply Hi.
Qed.

Lemma create2_cost_pos size :
  0 ≤ size → 0 < sat_add u64_max gas.CREATE2 (sat_mul u64_max gas.CREATE2_PER_INIT_BYTE size).
Proof. intros. unfold_sat. unfold_gas. unfold u64_max. lia. Qed.

Lemma create2_ok n run reg depth ctx i st :
  frame_ok i → store_ok st → runner_ok n run → gas_limit i - gas_used i ≤ n →
  0 ≤ depth ≤ MAX_CALL_DEPTH → ctx_ok ctx →
  wp (op_create2 run reg depth ctx) (step_post i) (i, st).
Proof.
  intros Hi Hst Hrun Hn Hd Hctx. vm_start. unfold op_create2.
  destruct (Z.leb_spec MAX_CALL_DEPTH (sat_add u8_max depth 1)) as [|Hdep]; [vm_step|].
  assert (depth + 1 < MAX_CALL_DEPTH).
  { unfold_sat. unfold u8_max, MAX_CALL_DEPTH in *. lia. }
  vm_run. case_match; [vm_step|]. vm_run. case_match; [vm_step|].
  match goal with Hs : 0 <= ?z <= u64_max |- context [sat_mul _ _ ?z] =>
    pose proof (create2_cost_pos z ltac:(lia)) as Hpos end. unfold_gas.
  apply wp_bind, wp_spend; [vm_good|done|lia|]. intros Hcost. vm_run.
  eapply wp_deploy_child; [done|vm_good|done|auto with vm|done|done|unfold sat_sub; lia..|lia|lia|done|].
  intros addr gi ls st' Ha Hg Hls Hst'. unfold sat_sub in *. vm_run.
  match goal with |- context [sat_add u64_max ?g gi] =>
    assert (sat_add u64_max g gi = g + gi) as -> by (unfold sat_add; lia) end.
  vm_done.
Qed.

(** ** A whole instruction *)

Lemma native_guard_ok ctx op i st :
  store_ok st → wp op (step_post i) (i, st) → wp (native_guard ctx op) (step_post i) (i, st).
Proof. intros. unfold native_guard. case_match; [done|vm_step]. Qed.

Lemma exec_op_ok n run reg c depth ctx o i st :
  frame_ok i → store_ok st → runner_ok n run → gas_limit i - gas_used i ≤ n → is_word c →
  0 ≤ depth ≤ MAX_CALL_DEPTH → ctx_ok ctx → o ≠ Push1 → o ≠ Push32 →
  wp (exec_op run reg c depth ctx o) (step_post i) (i, st).
Proof.
  intros Hi Hst Hrun Hn Hc Hd Hctx ??. vm_start.
  destruct o; try done; simpl;
    first [ apply binop_ok | apply unop_ok | apply mod3_ok | apply div_ok | apply shift_ok
          | apply push_op_ok | apply mload_ok | apply mstore_ok | apply dup1_ok
          | apply sload_op_ok | apply sstore_op_ok | apply jump_ok | apply jumpi_ok
          | apply return_ok | apply blake3_ok | apply log_op_ok | eapply call_ok
          | eapply create2_ok | apply native_guard_ok | idtac ];
    try done; auto with vm.
  - vm_run. vm_done.
  - intros g. simpl. auto with vm.
  - intros g. simpl. auto with vm.
  - by apply balance_ok.
  - apply push_op_ok; auto with vm. done.
  - apply push_op_ok; auto with vm. done.
  - by apply native_transfer_op_ok.
Qed.

Lemma op_push_ok len i st :
  frame_ok i → store_ok st → 0 < len ≤ 32 → wp (op_push len) (step_post i) (i, st).
Proof.
  intros Hi Hst Hlen. vm_start. unfold op_push. vm_run. case_match; [vm_step|]. bool_to_prop.
  pose proof (fo_pc i Hi). pose proof (fo_code i Hi) as Hcode.
  match goal with |- context [replicate ?k 0 ++ ?imm] =>
    assert (is_word (replicate k 0 ++ imm)) end.
  { apply is_word_app; [|apply is_bytes_replicate, is_byte_0|by apply Forall_take, Forall_drop].
    rewrite length_replicate, length_take, length_drop. lia. }
  vm_run. vm_done.
Qed.

Lemma push_size_bound op len : push_size op = Some len → 0 < len ≤ 32.
Proof. unfold push_size. intros. case_match; [|done]. bool_to_prop. simplify_eq. lia. Qed.

Lemma from_byte_not_push op o :
  push_size op = None → from_byte op = Some o → o ≠ Push1 ∧ o ≠ Push32.
Proof.
  intros Hp Ho. apply to_from_byte in Ho. split; intros ->; by rewrite <- Ho in Hp.
Qed.

(** The iteration charges gas before it goes on, and under hardening leaves at
    most [MAX_STACK_DEPTH + 1] words. *)
Lemma step_ok n run reg c depth ctx i st :
  frame_ok i → store_ok st → runner_ok n run → gas_limit i - gas_used i ≤ n → is_word c →
  0 ≤ depth ≤ MAX_CALL_DEPTH → ctx_ok ctx → pc i < Z.of_nat (length (code i)) →
  wp (step run reg c depth ctx)
     (λ fl s', step_post i fl s' ∧
        (vm_hardening (exec_ctx i) = true →
         (length (stack s'.1) ≤ Datatypes.S MAX_STACK_DEPTH)%nat)) (i, st).
Proof.
  intros Hi Hst Hrun Hn Hc Hd Hctx Hpc. pose proof (fo_pc i Hi). unfold step.
  apply wp_bind, wp_frame. destruct (vm_hardening (exec_ctx i) && _) eqn:Hov; [vm_step|].
  destruct (lookup_lt_is_Some_2 (code i) (Z.to_nat (pc i)) ltac:(lia)) as [op Hop]. rewrite Hop.
  apply wp_bind, wp_upd. set (i1 := set_pc i (pc i + 1)).
  assert (frame_ok i1) as Hi1 by (apply fo_set_pc; [done|lia]).
  assert (∀ fl s', step_post i1 fl s' → step_post i fl s' ∧
    (vm_hardening (exec_ctx i) = true →
     (length (stack s'.1) ≤ Datatypes.S MAX_STACK_DEPTH)%nat)) as Hpost.
  { intros fl s' [? ? ? ? ? ? Hs]. split; [by constructor|]. intros Hh'. rewrite Hh' in Hov.
    apply Nat.ltb_ge in Hov. simpl in Hs. lia. }
  destruct (push_size op) as [len|] eqn:Hps.
  { eapply wp_mono; [apply op_push_ok; eauto using push_size_bound|done]. }
  destruct (from_byte op) as [o|] eqn:Ho; [|by apply wp_fail].
  destruct (from_byte_not_push op o Hps Ho).
  eapply wp_mono; [by eapply exec_op_ok|done].
Qed.

(** ** The loop and nested runs *)

Record loop_post (i : Interpreter) (s' : Interpreter * S) : Prop := {
  lp_frame : frame_ok s'.1;
  lp_store : store_ok s'.2;
  lp_limit : gas_limit s'.1 = gas_limit i;
  lp_gas : gas_used i ≤ gas_used s'.1;
  lp_stack : vm_hardening (exec_ctx i) = true →
    (length (stack i) ≤ Datatypes.S MAX_STACK_DEPTH)%nat →
    (length (stack s'.1) ≤ Datatypes.S MAX_STACK_DEPTH)%nat;
}.

Definition loop_ok (n : Z) (loop : AccountId → Z → VmExecutionContext → M ()) : Prop :=
  ∀ i st c depth ctx,
    frame_ok i → store_ok st → is_word c → 0 ≤ depth ≤ MAX_CALL_DEPTH → ctx_ok ctx →
    gas_limit i - gas_used i < n → wp (loop c depth ctx) (λ _, loop_post i) (i, st).

(** Copying the calldata in and running the loop. *)
Lemma run_frame_ok n loop child caller target calldata depth ctx st :
  loop_ok n loop →
  frame_ok child → store_ok st → is_word caller → is_word target → is_bytes calldata →
  0 ≤ depth ≤ MAX_CALL_DEPTH → ctx_ok ctx → gas_limit child - gas_used child < n →
  match run_frame loop child caller target calldata depth ctx st with
  | (Ok g, s') => g = gas_used s'.1 ∧ loop_post (enter_frame child caller target ctx) s'
  | (Err e, s') => vm_fault e ∧ store_ok s'.2
  end.
Proof.
  intros Hloop Hi Hst Hca Hta Hcd Hd Hctx Hn. unfold run_frame.
  match goal with |- context [?m (child, st)] =>
    assert (wp m (λ g s', g = gas_used s'.1 ∧ loop_post (enter_frame child caller target ctx) s')
              (child, st)) as Hwp end.
  2:{ unfold wp in Hwp. by repeat case_match. }
  apply wp_bind, wp_upd. pose proof (fo_enter child caller target ctx Hi Hca Hta Hctx) as Hi0.
  assert (gas_limit (enter_frame child caller target ctx)
    - gas_used (enter_frame child caller target ctx) < n) as Hn0 by done.
  generalize dependent (enter_frame child caller target ctx). intros i0 Hi0 Hn0.
  pose proof (fo_gas i0 Hi0) as [Hg Hl]. apply wp_bind, wp_ensure_memory; [done|done|lia|lia|].
  intros m g Hm Hle Hlm Hg'. apply wp_bind, wp_mem_write; [vm_good|done|done|vm_simpl; lia|].
  intros m' Hm' Hlen. apply wp_bind. eapply wp_mono.
  { apply Hloop; try done; [vm_good|simpl in *; lia]. }
  intros _ [i' st'] [Hf Hs Hlim Hgas Hstk]. apply wp_bind, wp_frame, wp_ret. split; [done|].
  constructor; try done. simpl in *. lia.
Qed.

Lemma runner_of_loop n loop : loop_ok n loop → runner_ok n (run_frame loop).
Proof.
  intros Hloop child caller target calldata depth ctx st Hi Hst Hca Hta Hcd Hd Hctx Hn.
  pose proof (run_frame_ok n loop child caller target calldata depth ctx st Hloop Hi Hst Hca Hta
    Hcd Hd Hctx Hn) as Hr.
  destruct (run_frame loop _ _ _ _ _ _ _) as [[g|e] [i' st']]; [|done].
  destruct Hr as [-> []]. by split_and!.
Qed.

(** One unit of fuel per unit of gas is enough, for the loop and for every run
    nested in it. *)
Lemma run_loop_ok fuel reg : loop_ok (Z.of_nat fuel) (run_loop fuel reg).
Proof.
  induction fuel as [|fuel IH]; intros i st c depth ctx Hi Hst Hc Hd Hctx Hn.
  { destruct (fo_gas i Hi). lia. }
  unfold wp. simpl.
  destruct (Z.ltb_spec (pc i) (Z.of_nat (length (code i)))) as [Hpc|]; [|by constructor].
  pose proof (step_ok (Z.of_nat fuel) (run_frame (run_loop fuel reg)) reg c depth ctx i st Hi Hst
    (runner_of_loop _ _ IH) ltac:(lia) Hc Hd Hctx Hpc) as Hstep.
  unfold wp in Hstep. destruct (step _ reg c depth ctx (i, st)) as [[[]|e] [i' st']]; [| |done].
  - destruct Hstep as [[Hf Hs Hlim Hctx' Hg Hprog Hst'] Hstk]. simpl in *.
    specialize (Hprog eq_refl).
    pose proof (IH i' st' c depth ctx Hf Hs Hc Hd Hctx ltac:(lia)) as Hrest. unfold wp in Hrest.
    destruct (run_loop fuel reg c depth ctx (i', st')) as [[[]|e] [i'' st'']]; [|done].
    destruct Hrest as [Hf' Hs' Hlim' Hg' Hstk']. constructor; try done; simpl in *; [congruence|lia|].
    intros Hh' _. apply Hstk'; [congruence|auto].
  - destruct Hstep as [[Hf Hs Hlim Hctx' Hg Hprog Hst'] Hstk]. constructor; try done. auto.
Qed.

(** C16: a top-level run from a well-formed frame and store always ends, within
    the fuel [gas_fuel] gives it, in a value or a [VmError]: no slice of memory
    or code is out of range, at any call depth. On success the gas reported is
    the frame's, at most the limit; the frame's memory is at most 8 MiB, its logs
    at most 24, every stack entry is a 32-byte word, and under hardening there are
    at most 1025 of them. The store keeps its invariant on either path. *)
Theorem run_with_qa_safe i caller contract calldata st reg ctx :
  frame_ok i → store_ok st → is_word caller → is_word contract → is_bytes calldata →
  ctx_ok ctx → stack i = [] →
  match run_with_qa i caller contract calldata st reg ctx with
  | (Ok g, (i', st')) =>
      g = gas_used i' ∧ gas_used i ≤ g ≤ gas_limit i ∧ frame_ok i' ∧ store_ok st' ∧
      (vm_hardening ctx = true → (length (stack i') ≤ 1025)%nat)
  | (Err e, (_, st')) => vm_fault e ∧ store_ok st'
  end.
Proof.
  intros Hi Hst Hca Hco Hcd Hctx Hstk. unfold run_with_qa, run_nested.
  pose proof (fo_gas i Hi) as [Hg _].
  pose proof (run_frame_ok _ _ i caller contract calldata 0 ctx st (run_loop_ok (gas_fuel i) reg)
    Hi Hst Hca Hco Hcd ltac:(unfold MAX_CALL_DEPTH; lia) Hctx
    ltac:(unfold gas_fuel; lia)) as Hr.
  destruct (run_frame _ _ _ _ _ _ _ _) as [[g|e] [i' st']]; [|done].
  destruct Hr as [-> [Hf Hs Hlim Hge Hbound]]. simpl in *. destruct (fo_gas i' Hf) as [? ?].
  split_and!; try done; [lia|]. intros Hh'. rewrite Hstk in Hbound. apply Hbound; simpl; [done|lia].
Qed.

End Safety.
