(* ===== verification/InterpGas.v ===== *)
(** * Independence of the gas limit

    No instruction of [Interp.v] observes the gas that is left: a run that does
    not end in [OutOfGas] gives the same result, error, logs, return data, gas and
    store for every larger gas limit and for more fuel. The proof is a relational
    weakest precondition over two runs that differ only in the limit. *)

From S2P Require Import Prelude Types Words Bytecode Interp InterpLaws.

Definition set_gas_limit (i : Interpreter) (l : Z) : Interpreter :=
  mkInterpreter (code i) (pc i) (stack i) (memory i) (gas_used i) l (return_data i)
    (logs i) (caller_id i) (contract_id i) (exec_ctx i) (call_value i).

(** The frame with [d] more gas. *)
Definition raise (d : Z) (i : Interpreter) : Interpreter := set_gas_limit i (gas_limit i + d).

(** The faults a larger limit or more fuel may change. *)
Definition undecided (d : Z) (e : Fault) : Prop := e = OutOfFuel ∨ (d ≠ 0 ∧ e = Vm OutOfGas).

Definition in_limit (i : Interpreter) : Prop := gas_used i ≤ gas_limit i.

(** [run2] with [d] more gas does what [run1] does, unless that is undecided. *)
Definition runner_sim {S} (d : Z) (run1 run2 : Runner S) : Prop :=
  ∀ child caller target calldata depth ctx st, in_limit child →
    match run1 child caller target calldata depth ctx st with
    | (Ok g, (child', st')) =>
        run2 (raise d child) caller target calldata depth ctx st = (Ok g, (raise d child', st')) ∧
        in_limit child' ∧ gas_limit child' = gas_limit child ∧ g = gas_used child'
    | (Err e, (child', st')) => undecided d e ∨
        run2 (raise d child) caller target calldata depth ctx st = (Err e, (raise d child', st'))
    end.

(** The store hands on what gas it is given to the runner and observes nothing
    else of it. *)
Class StoreGasLaws (S R : Type) `{StorageAccess S R} := {
  create2_sim : ∀ d run1 run2 reg deployer salt bytecode limit ls depth ctx st,
    0 ≤ d → 0 ≤ limit → runner_sim d run1 run2 →
    match create2_deploy run1 reg deployer salt bytecode limit ls depth ctx st with
    | (Ok r, z) =>
        create2_deploy run2 reg deployer salt bytecode (limit + d) ls depth ctx st = (Ok r, z) ∧
        r.2 ≤ limit
    | (Err e, z) => undecided d e ∨
        create2_deploy run2 reg deployer salt bytecode (limit + d) ls depth ctx st = (Err e, z)
    end;
}.

Section GasIndependence.
Context `{Hh : Host} {S R : Type} `{StoreGasLaws S R} (d : Z) (Hd : 0 ≤ d).

Notation M := (ST (Interpreter * S) Fault).

(** Relational weakest precondition: [m2], with the raised limit, follows [m1]. *)
Definition rwp {A} (m1 m2 : M A) (Q : A → A → Interpreter * S → Prop) (s : Interpreter * S) : Prop :=
  match m1 s with
  | (Ok a, (i', st')) => ∃ a', m2 (raise d s.1, s.2) = (Ok a', (raise d i', st')) ∧ Q a a' (i', st')
  | (Err e, (i', st')) => undecided d e ∨ m2 (raise d s.1, s.2) = (Err e, (raise d i', st'))
  end.

Definition same_limit {A} (i : Interpreter) (a a' : A) (s' : Interpreter * S) : Prop :=
  a = a' ∧ in_limit s'.1 ∧ gas_limit s'.1 = gas_limit i.

Definition sim {A} (m1 m2 : M A) : Prop :=
  ∀ i st, in_limit i → rwp m1 m2 (same_limit i) (i, st).

Lemma rwp_bind {A B} (m1 m2 : M A) (k1 k2 : A → M B) Q s :
  rwp m1 m2 (λ a a', rwp (k1 a) (k2 a') Q) s → rwp (mbind k1 m1) (mbind k2 m2) Q s.
Proof.
  unfold rwp, mbind, st_bind. destruct (m1 s) as [[a|e] [i' st']].
  - intros (a' & -> & Hk). done.
  - intros [Hu | ->]; [by left|by right].
Qed.

Lemma rwp_mono {A} (m1 m2 : M A) (Q Q' : A → A → Interpreter * S → Prop) s :
  rwp m1 m2 Q s → (∀ a a' s', Q a a' s' → Q' a a' s') → rwp m1 m2 Q' s.
Proof.
  unfold rwp. destruct (m1 s) as [[a|e] [i' st']]; [|done].
  intros (a' & ? & ?) HQ. eauto.
Qed.

Lemma sim_bind {A B} (m1 m2 : M A) (k1 k2 : A → M B) :
  sim m1 m2 → (∀ a, sim (k1 a) (k2 a)) → sim (mbind k1 m1) (mbind k2 m2).
Proof.
  intros Hm Hk i st Hi. apply rwp_bind. eapply rwp_mono; [by apply Hm|].
  intros a a' [i' st'] (<- & Hi' & Hl). eapply rwp_mono; [by apply Hk|].
  intros b b' s'' (Hb & Hin & Hl'). split; [done|]. split; [done|]. by rewrite Hl'.
Qed.

Lemma sim_ret {A} (a : A) : sim (mret a) (mret a).
Proof. intros i st Hi. by exists a. Qed.

Lemma sim_fail {A} e : sim (A:=A) (st_fail e) (st_fail e).
Proof. intros i st Hi. by right. Qed.

(** A read of the frame that the limit does not show in. *)
Lemma sim_frame {A} (k1 k2 : Interpreter → M A) :
  (∀ i, sim (k1 i) (k2 (raise d i))) → sim (frame ≫= k1) (frame ≫= k2).
Proof. intros Hk i st Hi. by apply Hk. Qed.

Lemma sim_upd f :
  (∀ i, f (raise d i) = raise d (f i)) →
  (∀ i, gas_used (f i) = gas_used i) → (∀ i, gas_limit (f i) = gas_limit i) →
  sim (upd f) (upd f).
Proof.
  intros Hf Hg Hl i st Hi. exists (). unfold upd; simpl. rewrite Hf. split; [done|]. split; [done|].
  split; [|apply Hl]. unfold in_limit; simpl. by rewrite Hg, Hl.
Qed.

Lemma sim_look {A} (f : Interpreter → S → A) :
  (∀ i st, f (raise d i) st = f i st) → sim (look f) (look f).
Proof. intros Hf i st Hi. exists (f i st). unfold look. simpl. by rewrite Hf. Qed.

Lemma sim_push w : sim (push w) (push w).
Proof. by apply sim_upd. Qed.

Lemma sim_pop : sim pop pop.
Proof.
  intros i st Hi. unfold rwp, pop. simpl. destruct (stack i) as [|w r]; [by right|].
  by exists w.
Qed.

Lemma sim_spend c : sim (spend_gas c) (spend_gas c).
Proof.
  intros i st Hi. unfold rwp, spend_gas. simpl.
  destruct (Z.ltb_spec (gas_limit i) (sat_add u64_max (gas_used i) c)) as [Hlt|Hle].
  - destruct (Z.eq_dec d 0) as [Hz|Hz]; [|by left; right].
    right. destruct (Z.ltb_spec (gas_limit i + d) (sat_add u64_max (gas_used i) c)); [done|lia].
  - exists (). destruct (Z.ltb_spec (gas_limit i + d) (sat_add u64_max (gas_used i) c)); [lia|done].
Qed.

Lemma sim_mem_read o n : sim (mem_read o n) (mem_read o n).
Proof.
  intros i st Hi. unfold rwp, mem_read. simpl. unfold mem_len. simpl.
  destruct (_ <=? _); [by eexists|by right].
Qed.

Lemma sim_mem_write o w : sim (mem_write o w) (mem_write o w).
Proof.
  intros i st Hi. unfold rwp, mem_write. simpl. unfold mem_len. simpl.
  destruct (_ <=? _); [by eexists|by right].
Qed.

Lemma sim_if {A} (b : bool) (m1 m2 n1 n2 : M A) :
  sim m1 m2 → sim n1 n2 → sim (if b then m1 else n1) (if b then m2 else n2).
Proof. by destruct b. Qed.

Create HintDb sim.
#[local] Hint Resolve sim_ret sim_fail sim_push sim_pop sim_spend sim_mem_read sim_mem_write
  sim_look : sim.

(** Walks both runs in step. *)
Ltac sim_auto :=
  repeat match goal with
  | |- sim (frame ≫= ?k) (frame ≫= ?k) => apply sim_frame; intros ?; simpl
  | |- sim (frame ≫= _) _ => fail 1
  | |- sim (mbind _ _) (mbind _ _) => apply sim_bind; [|intros ?]
  | |- sim (upd _) (upd _) => apply sim_upd; done
  | |- sim (vm_fail _) (vm_fail _) => apply sim_fail
  | |- sim (if _ then _ else _) (if _ then _ else _) => apply sim_if
  | |- sim (match ?x with _ => _ end) _ => destruct x
  end; try solve [auto with sim].

Lemma sim_pop_usize : sim pop_usize pop_usize.
Proof. unfold pop_usize. sim_auto. Qed.

Lemma sim_ensure_memory o n : sim (ensure_memory o n) (ensure_memory o n).
Proof. unfold ensure_memory. sim_auto. Qed.

Lemma sim_pop_topics n : sim (pop_topics n) (pop_topics n).
Proof. induction n; simpl; sim_auto. Qed.

Lemma sim_append_log ts w : sim (append_log ts w) (append_log ts w).
Proof. unfold append_log. sim_auto. Qed.

#[local] Hint Resolve sim_pop_usize sim_ensure_memory sim_pop_topics sim_append_log : sim.

Lemma sim_log n : sim (log_with_topics n) (log_with_topics n).
Proof. unfold log_with_topics. sim_auto. Qed.

Lemma sim_move_native f t a : sim (move_native_op f t a) (move_native_op f t a).
Proof.
  intros i st Hi. unfold rwp, move_native_op. simpl.
  destruct (native_transfer st f t a) as [[[]|e] st']; [by exists ()|by right].
Qed.

Lemma sim_sstore c k v :
  sim (st_modify (λ s, (s.1, sstore s.2 c k v))) (st_modify (λ s, (s.1, sstore s.2 c k v))).
Proof. intros i st Hi. by exists (). Qed.

#[local] Hint Resolve sim_log sim_move_native sim_sstore : sim.

(** The gas left in a raised frame. *)
Lemma remaining_raise i :
  in_limit i → sat_sub (gas_limit (raise d i)) (gas_used (raise d i)) =
    sat_sub (gas_limit i) (gas_used i) + d.
Proof. unfold in_limit, sat_sub. simpl. lia. Qed.

Lemma raise_new c l : raise d (new_interpreter c l) = new_interpreter c (l + d).
Proof. done. Qed.

Lemma rwp_run_child run1 run2 c limit caller target calldata depth ctx Q i st :
  0 ≤ limit → runner_sim d run1 run2 →
  (∀ child st', gas_used child ≤ limit → Q child (raise d child) (i, st')) →
  rwp (run_child run1 (new_interpreter c limit) caller target calldata depth ctx)
      (run_child run2 (new_interpreter c (limit + d)) caller target calldata depth ctx) Q (i, st).
Proof.
  intros Hl Hrun HQ. unfold rwp, run_child; simpl.
  pose proof (Hrun (new_interpreter c limit) caller target calldata depth ctx st Hl) as Hr.
  rewrite raise_new in Hr.
  destruct (run1 _ caller target calldata depth ctx st) as [[g|e] [child st']].
  - destruct Hr as (-> & Hin & Hlim & _). exists (raise d child). split; [done|].
    apply HQ. unfold in_limit in Hin. simpl in *. lia.
  - destruct Hr as [Hu | ->]; [by left|by right].
Qed.

(** Taking a child's gas and going on. *)
Lemma rwp_add_gas {A} (m1 m2 : M A) g i0 i st :
  gas_limit i = gas_limit i0 → gas_used i + g ≤ gas_limit i → sim m1 m2 →
  rwp (_ ← upd (λ i, set_gas_used i (sat_add u64_max (gas_used i) g)); m1)
      (_ ← upd (λ i, set_gas_used i (sat_add u64_max (gas_used i) g)); m2)
      (same_limit i0) (i, st).
Proof.
  intros Hlim Hle Hm. apply rwp_bind. exists (). split; [done|]. unfold same_limit.
  rewrite <- Hlim. apply (Hm (set_gas_used i _)). unfold in_limit, sat_add. simpl. lia.
Qed.

(** The frame is read to compute the gas that is left. *)
Lemma rwp_remaining {A} (k1 k2 : Interpreter → M A) Q i st :
  rwp (k1 i) (k2 (raise d i)) Q (i, st) → rwp (frame ≫= k1) (frame ≫= k2) Q (i, st).
Proof. intros. apply rwp_bind. by exists (raise d i). Qed.

Lemma sim_call run1 run2 depth ctx :
  runner_sim d run1 run2 → sim (op_call run1 depth ctx) (op_call run2 depth ctx).
Proof.
  intros Hrun. unfold op_call. sim_auto. intros i st Hi. apply rwp_remaining.
  cbv beta zeta. rewrite remaining_raise by done. simpl. unfold in_limit in Hi.
  set (rem := sat_sub (gas_limit i) (gas_used i)).
  assert (0 ≤ rem ∧ rem = gas_limit i - gas_used i) as [Hrem Heq] by (unfold rem, sat_sub; lia).
  destruct (Z.eqb_spec rem 0) as [Hz|Hz].
  { destruct (Z.eq_dec d 0) as [->|Hd0]; [|by left; right].
    rewrite Hz. simpl. by right. }
  destruct (Z.eqb_spec (rem + d) 0); [lia|].
  apply rwp_bind, rwp_run_child; [done..|]. intros child st' Hg.
  apply rwp_add_gas; [done|simpl; lia|]. simpl. sim_auto.
Qed.

Lemma rwp_deploy_child run1 run2 reg deployer salt bytecode limit depth ctx Q i st :
  0 ≤ limit → runner_sim d run1 run2 →
  (∀ r ls st', r.2 ≤ limit → Q r r (set_logs i ls, st')) →
  rwp (deploy_child run1 reg deployer salt bytecode limit depth ctx)
      (deploy_child run2 reg deployer salt bytecode (limit + d) depth ctx) Q (i, st).
Proof.
  intros Hl Hrun HQ. unfold rwp, deploy_child; simpl.
  pose proof (create2_sim d run1 run2 reg deployer salt bytecode limit (logs i) depth ctx st
    Hd Hl Hrun) as Hc.
  destruct (create2_deploy run1 _ _ _ _ _ _ _ _ _) as [[r|e] [ls st']].
  - destruct Hc as [-> Hr]. exists r. split; [done|by apply HQ].
  - destruct Hc as [Hu | ->]; [by left|by right].
Qed.

Lemma sim_create2 run1 run2 reg depth ctx :
  runner_sim d run1 run2 → sim (op_create2 run1 reg depth ctx) (op_create2 run2 reg depth ctx).
Proof.
  intros Hrun. unfold op_create2. sim_auto. apply sim_frame. intros i0. simpl. sim_auto.
  intros i st Hi. apply rwp_remaining. cbv beta zeta. rewrite remaining_raise by done. simpl. unfold in_limit in Hi.
  apply rwp_bind, rwp_deploy_child; [unfold sat_sub; lia|done|]. intros [addr g] ls st' Hg.
  simpl in Hg. apply rwp_add_gas; [done|simpl; unfold sat_sub in Hg; lia|]. sim_auto.
Qed.

(** ** Instructions, the loop, and whole runs *)

Lemma sim_exec_op run1 run2 reg c depth ctx o :
  runner_sim d run1 run2 →
  sim (exec_op run1 reg c depth ctx o) (exec_op run2 reg c depth ctx o).
Proof.
  intros Hrun. destruct o; simpl;
    unfold binop, unop, mod3_op, div_op, shift_op, push_op, op_mload, op_mstore, op_dup1, op_sload,
      op_sstore, op_jump, op_jumpi, op_return, op_blake3, native_guard, op_balance,
      op_native_transfer; try (by sim_auto).
  - by apply sim_call.
  - by apply sim_create2.
Qed.

Lemma sim_step run1 run2 reg c depth ctx :
  runner_sim d run1 run2 → sim (step run1 reg c depth ctx) (step run2 reg c depth ctx).
Proof.
  intros Hrun. unfold step, op_push. apply sim_frame. intros i. simpl. sim_auto.
  by apply sim_exec_op.
Qed.

Definition loop_sim (loop1 loop2 : AccountId → Z → VmExecutionContext → M ()) : Prop :=
  ∀ c depth ctx, sim (loop1 c depth ctx) (loop2 c depth ctx).

Lemma run_frame_gas (loop : AccountId → Z → VmExecutionContext → M ()) child caller target calldata depth ctx st g s' :
  run_frame loop child caller target calldata depth ctx st = (Ok g, s') → g = gas_used s'.1.
Proof.
  intros Hr. unfold run_frame in Hr. st_inv.
  match goal with Hf : frame _ = _, Hm : mret _ _ = _ |- _ =>
    unfold frame in Hf; unfold mret, st_ret in Hm; by simplify_eq end.
Qed.

Lemma runner_sim_frame loop1 loop2 :
  loop_sim loop1 loop2 → runner_sim d (run_frame loop1) (run_frame loop2).
Proof.
  intros Hloop child caller target calldata depth ctx st Hin.
  set (i0 := enter_frame child caller target ctx).
  set (body (loop : AccountId → Z → VmExecutionContext → M ()) := (_ ← ensure_memory 0 (Z.of_nat (length calldata)); _ ← mem_write 0 calldata;
    _ ← loop target depth ctx; i ← frame; mret (gas_used i)) : M Z).
  assert (sim (body loop1) (body loop2)) as Hsim.
  { unfold body. apply sim_bind; [auto with sim|intros []]. apply sim_bind; [auto with sim|intros []].
    apply sim_bind; [apply Hloop|intros []]. sim_auto. }
  specialize (Hsim i0 st Hin). unfold rwp in Hsim. cbn [fst snd] in Hsim.
  change (run_frame loop1 child caller target calldata depth ctx st) with (body loop1 (i0, st)).
  change (run_frame loop2 (raise d child) caller target calldata depth ctx st)
    with (body loop2 (raise d i0, st)).
  pose proof (run_frame_gas loop1 child caller target calldata depth ctx st) as Hgas.
  change (run_frame loop1 child caller target calldata depth ctx st) with (body loop1 (i0, st)) in Hgas.
  destruct (body loop1 (i0, st)) as [[g|e] [child' st']]; [|done].
  destruct Hsim as (g' & -> & -> & Hin' & Hlim). split_and!; try done. by apply (Hgas g' (child', st')).
Qed.

(** More fuel and more gas do not change a decided run. *)
Lemma run_loop_sim fuel1 fuel2 reg :
  (fuel1 ≤ fuel2)%nat → loop_sim (run_loop fuel1 reg) (run_loop fuel2 reg).
Proof.
  revert fuel2. induction fuel1 as [|fuel1 IH]; intros fuel2 Hle c depth ctx i st Hi.
  { by left; left. }
  destruct fuel2 as [|fuel2]; [lia|]. unfold rwp. simpl.
  destruct (pc i <? Z.of_nat (length (code i))); [|by exists ()].
  pose proof (sim_step _ _ reg c depth ctx (runner_sim_frame _ _ (IH fuel2 ltac:(lia))) i st Hi)
    as Hstep. unfold rwp in Hstep. cbn [fst snd] in Hstep.
  destruct (step _ reg c depth ctx (i, st)) as [[[]|e] [i' st']].
  - destruct Hstep as (a' & Heq & <- & Hin & Hlim). simpl in *. rewrite Heq.
    pose proof (IH fuel2 ltac:(lia) c depth ctx i' st' Hin) as Hrest.
    unfold rwp in Hrest. cbn [fst snd] in Hrest.
    destruct (run_loop fuel1 reg c depth ctx (i', st')) as [[[]|e] [i'' st'']]; [|done].
    destruct Hrest as ([] & -> & _ & Hin' & Hlim'). exists (). split; [done|].
    split; [done|]. split; [done|]. by rewrite Hlim'.
  - destruct Hstep as (a' & Heq & <- & Hin & Hlim). simpl in *. rewrite Heq. by exists ().
  - destruct Hstep as [Hu | ->]; [by left|by right].
Qed.

Lemma run_nested_sim fuel1 fuel2 reg :
  (fuel1 ≤ fuel2)%nat → runner_sim d (run_nested fuel1 reg) (run_nested fuel2 reg).
Proof. intros. by apply runner_sim_frame, run_loop_sim. Qed.

End GasIndependence.

(** C27: a run does not depend on the gas limit. From a well-formed frame and
    store, whatever a top-level run ends in other than [OutOfGas] (a value, or any
    error), it ends in with [d] more gas too, with the same gas used, logs, return
    data, memory and store; and the fuel given to the model beyond [gas_fuel] is
    irrelevant ([d = 0] is the same limit, where [OutOfGas] is kept as well). *)
Theorem run_independent_of_limit `{Hh : Host} `{!HostDigest Hh} {S R : Type} `{StoreLaws S R}
    `{!StoreGasLaws S R} d fuel i caller contract calldata st reg ctx r i' st' :
  0 ≤ d → frame_ok i → store_ok st → is_word caller → is_word contract → is_bytes calldata →
  ctx_ok ctx → (gas_fuel i ≤ fuel)%nat →
  run_with_qa i caller contract calldata st reg ctx = (r, (i', st')) →
  (r = Err (Vm OutOfGas) → d = 0) →
  run_nested fuel reg (raise d i) caller contract calldata 0 ctx st = (r, (raise d i', st')).
Proof.
  intros Hd Hi Hst Hca Hco Hcd Hctx Hfuel Hrun Hr. unfold run_with_qa in Hrun.
  pose proof (fo_gas i Hi) as [[_ Hin] _].
  pose proof (runner_of_loop _ _ (run_loop_ok (gas_fuel i) reg) i caller contract calldata 0 ctx st
    Hi Hst Hca Hco Hcd ltac:(unfold MAX_CALL_DEPTH; lia) Hctx ltac:(unfold gas_fuel; lia)) as Hsafe.
  pose proof (run_nested_sim d Hd (gas_fuel i) fuel reg Hfuel i caller contract calldata 0 ctx st
    Hin) as Hsim.
  unfold run_nested in *. rewrite Hrun in Hsim, Hsafe. destruct r as [g|e]; [by destruct Hsim|].
  destruct Hsafe as [[v ->] _]. destruct Hsim as [[|[Hd0 Hv]]|]; [done| |done].
  by destruct Hd0; apply Hr; f_equal.
Qed.
