(* ===== verification/InterpFrame.v ===== *)
(** * What a run does to the store

    The interpreter of [Interp.v] changes the store only through its storage
    interface: a relation that holds across [sstore], [native_transfer] and
    [create2_deploy] holds across every run, whatever the code, the frame and the
    fuel, and whether or not the run fails. *)

From S2P Require Import Prelude Types Words Bytecode Interp.

(** Every run of [run] relates the store before to the store after. *)
Definition runner_kept {S} (rel : relation S) (run : Runner S) : Prop :=
  ∀ child caller target calldata depth ctx st,
    rel st (run child caller target calldata depth ctx st).2.2.

(** The store's own operations relate the store before to the store after. *)
Class StoreKept {S R : Type} `{StorageAccess S R} (rel : relation S) : Prop := {
  sstore_kept : ∀ st c k v, rel st (sstore st c k v);
  native_transfer_kept : ∀ st from to amount, rel st (native_transfer st from to amount).2;
  create2_kept : ∀ run reg deployer salt bytecode limit ls depth ctx st,
    runner_kept rel run →
    rel st (create2_deploy run reg deployer salt bytecode limit ls depth ctx st).2.2;
}.

Section Frame.
Context `{Host} {S R : Type} `{HSA : StorageAccess S R} (rel : relation S) `{!PreOrder rel, !StoreKept rel}.

Notation M := (ST (Interpreter * S) Fault).

Definition kept {A} (m : M A) : Prop := ∀ s, rel s.2 (m s).2.2.

Lemma kept_bind {A B} (m : M A) (k : A → M B) : kept m → (∀ a, kept (k a)) → kept (m ≫= k).
Proof.
  intros Hm Hk s. unfold mbind, st_bind. pose proof (Hm s) as Hs.
  destruct (m s) as [[a|e] s']; [|done]. etrans; [done|apply Hk].
Qed.

(** A computation that leaves the store alone. *)
Lemma kept_same {A} (m : M A) : (∀ s, (m s).2.2 = s.2) → kept m.
Proof. intros Hm s. by rewrite Hm. Qed.

Lemma kept_ret {A} (a : A) : kept (mret a).
Proof. by apply kept_same. Qed.

Lemma kept_fail {A} e : kept (A:=A) (st_fail e).
Proof. by apply kept_same. Qed.

Lemma kept_frame : kept frame.
Proof. by apply kept_same. Qed.

Lemma kept_upd f : kept (upd f).
Proof. by apply kept_same. Qed.

Lemma kept_look {A} (f : Interpreter → S → A) : kept (look f).
Proof. by apply kept_same. Qed.

Lemma kept_spend g : kept (spend_gas g).
Proof. apply kept_same. intros s. unfold spend_gas. by case_match. Qed.

Lemma kept_pop : kept pop.
Proof. apply kept_same. intros s. unfold pop. by case_match. Qed.

Lemma kept_mem_read o n : kept (mem_read o n).
Proof. apply kept_same. intros s. unfold mem_read. by case_match. Qed.

Lemma kept_mem_write o d : kept (mem_write o d).
Proof. apply kept_same. intros s. unfold mem_write. by case_match. Qed.

Lemma kept_sstore c k v : kept (st_modify (λ s, (s.1, sstore s.2 c k v))).
Proof. intros s. apply sstore_kept. Qed.

Lemma kept_transfer from to amount : kept (move_native_op from to amount).
Proof.
  intros s. unfold move_native_op. pose proof (native_transfer_kept s.2 from to amount) as Ht.
  by destruct (native_transfer _ _ _ _) as [[] ?].
Qed.

Lemma kept_run_child run child caller target calldata depth ctx :
  runner_kept rel run → kept (run_child run child caller target calldata depth ctx).
Proof.
  intros Hrun s. unfold run_child. pose proof (Hrun child caller target calldata depth ctx s.2) as Hr.
  by destruct (run _ _ _ _ _ _ _) as [[] [? ?]].
Qed.

Lemma kept_deploy_child run reg deployer salt bytecode remaining depth ctx :
  runner_kept rel run → kept (deploy_child run reg deployer salt bytecode remaining depth ctx).
Proof.
  intros Hrun s. unfold deploy_child.
  pose proof (create2_kept run reg deployer salt bytecode remaining (logs s.1) depth ctx s.2 Hrun) as Hc.
  by destruct (create2_deploy _ _ _ _ _ _ _ _ _ _) as [? [? ?]].
Qed.

End Frame.

Create HintDb kept discriminated.
#[export] Hint Resolve kept_ret kept_fail kept_frame kept_upd kept_look kept_spend kept_pop kept_mem_read
  kept_mem_write kept_sstore kept_transfer kept_run_child kept_deploy_child : kept.

(** Follows the computation's binds and branches. *)
Ltac keep :=
  repeat (match goal with
          | |- kept _ (mbind _ _) => apply kept_bind; [done| |intros ?]
          | |- kept _ (match ?x with _ => _ end) => destruct x
          | |- kept _ (let '_ := ?x in _) => destruct x
          | |- kept _ (vm_fail _) => apply kept_fail
          end || (progress cbv zeta)
          || (solve [auto with kept])).

Section Runs.
Context `{Host} {S R : Type} `{HSA : StorageAccess S R} (rel : relation S) `{!PreOrder rel, !StoreKept rel}.

Lemma kept_pop_usize : kept rel pop_usize.
Proof. unfold pop_usize. keep. Qed.

Lemma kept_push w : kept rel (push w).
Proof. unfold push. keep. Qed.

Lemma kept_ensure_memory o n : kept rel (ensure_memory o n).
Proof. unfold ensure_memory. keep. Qed.

Lemma kept_pop_topics n : kept rel (pop_topics n).
Proof. induction n; simpl; keep; auto. Qed.

Lemma kept_log n : kept rel (log_with_topics n).
Proof.
  unfold log_with_topics, append_log. keep; auto using kept_pop_usize, kept_pop_topics, kept_ensure_memory.
Qed.

Hint Resolve kept_pop_usize kept_push kept_ensure_memory kept_log : kept.

Lemma op_call_kept run depth ctx : runner_kept rel run → kept rel (op_call run depth ctx).
Proof. intros Hrun. unfold op_call. keep. Qed.

Lemma op_create2_kept run reg depth ctx : runner_kept rel run → kept rel (op_create2 run reg depth ctx).
Proof. intros Hrun. unfold op_create2. keep. Qed.

Hint Resolve op_call_kept op_create2_kept : kept.

Lemma exec_op_kept run reg contract depth ctx o :
  runner_kept rel run → kept rel (exec_op run reg contract depth ctx o).
Proof.
  intros Hrun. destruct o; simpl;
    unfold binop, push_op, div_op, mod3_op, unop, shift_op, op_mload, op_mstore, op_dup1, op_sload,
      op_sstore, op_jump, op_jumpi, op_return, op_blake3, op_balance, op_native_transfer, native_guard;
    keep.
Qed.

Lemma step_kept run reg contract depth ctx :
  runner_kept rel run → kept rel (step run reg contract depth ctx).
Proof.
  intros Hrun. unfold step, op_push. keep. by apply exec_op_kept.
Qed.

Lemma run_frame_kept loop : (∀ c d ctx, kept rel (loop c d ctx)) → runner_kept rel (run_frame loop).
Proof.
  intros Hloop child caller target calldata depth ctx st. unfold run_frame.
  match goal with |- rel _ (?m _).2.2 => assert (kept rel m) as Hm by keep end.
  apply (Hm (child, st)).
Qed.

Lemma run_loop_kept fuel reg contract depth ctx : kept rel (run_loop fuel reg contract depth ctx).
Proof.
  revert contract depth ctx. induction fuel as [|fuel IH]; intros contract depth ctx s; simpl; [done|].
  destruct (pc s.1 <? _); [|done].
  pose proof (step_kept _ reg contract depth ctx (run_frame_kept _ IH) s) as Hs.
  destruct (step _ reg contract depth ctx s) as [[[]|e] s']; [|done..]. simpl in Hs.
  etrans; [exact Hs|apply IH].
Qed.

Lemma run_kept i caller contract calldata st reg ctx :
  rel st (run_with_qa i caller contract calldata st reg ctx).2.2.
Proof. apply run_frame_kept. intros. apply run_loop_kept. Qed.

End Runs.
