(* ===== verification/Vm.v ===== *)
(** * The virtual machine: executing one transaction

    Models [crates/boing-execution/src/vm.rs] and the interpreter's store
    [impl StorageAccess for StateStore] of [interpreter.rs]: one definition per
    handler, composed by [execute_with_context] over the state store with all its
    registries.

    A handler is a computation of [ST] over the store: writes made before an
    error are kept, as in the code, where the block executor reverts them. Errors
    are [Fault]: a [VmError], or one of the interpreter's two model faults. The
    host pins three settings in the store that no transaction changes; they are
    the record [HostPins]. JSON parsing, [hex] and the other serialisation
    libraries are parameters. *)

From S2P Require Import Prelude Types Names Governance Blobs SampleMarket SlashAppeals Signatures OpenValidators Words Bytecode Qa Merkle Store Tokenomics Interp.

(** ** The registries of the store *)

(** The contents of one registry slot. Slot [r] of the store uses the component
    of registry [r] only; the others keep their default. *)
Record AllRegs := mkAllRegs {
  ar_validators : OpenValidatorRegistry;
  ar_names : NameRegistry;
  ar_offers : SampleOfferRegistry;
  ar_serve : SampleServeChallengeRegistry;
  ar_appeals : SlashAppealRegistry;
  ar_governance : Governance.Governance;
  ar_qa_policy : CommittedQaPolicy;
}.

Definition default_regs : AllRegs :=
  mkAllRegs empty_open_validators empty_names empty_offers empty_serve empty_appeals
    Gov.default_gov empty_qa_policy.

Definition set_validators (v : AllRegs) (r : OpenValidatorRegistry) : AllRegs :=
  mkAllRegs r (ar_names v) (ar_offers v) (ar_serve v) (ar_appeals v) (ar_governance v) (ar_qa_policy v).
Definition set_ar_names (v : AllRegs) (r : NameRegistry) : AllRegs :=
  mkAllRegs (ar_validators v) r (ar_offers v) (ar_serve v) (ar_appeals v) (ar_governance v) (ar_qa_policy v).
Definition set_ar_offers (v : AllRegs) (r : SampleOfferRegistry) : AllRegs :=
  mkAllRegs (ar_validators v) (ar_names v) r (ar_serve v) (ar_appeals v) (ar_governance v) (ar_qa_policy v).
Definition set_ar_serve (v : AllRegs) (r : SampleServeChallengeRegistry) : AllRegs :=
  mkAllRegs (ar_validators v) (ar_names v) (ar_offers v) r (ar_appeals v) (ar_governance v) (ar_qa_policy v).
Definition set_ar_appeals (v : AllRegs) (r : SlashAppealRegistry) : AllRegs :=
  mkAllRegs (ar_validators v) (ar_names v) (ar_offers v) (ar_serve v) r (ar_governance v) (ar_qa_policy v).
Definition set_ar_governance (v : AllRegs) (r : Governance.Governance) : AllRegs :=
  mkAllRegs (ar_validators v) (ar_names v) (ar_offers v) (ar_serve v) (ar_appeals v) r (ar_qa_policy v).
Definition set_ar_qa_policy (v : AllRegs) (r : CommittedQaPolicy) : AllRegs :=
  mkAllRegs (ar_validators v) (ar_names v) (ar_offers v) (ar_serve v) (ar_appeals v) (ar_governance v) r.

(** [bincode] of the registries and of a pending item. *)
Class RegistryCodec := {
  bincode_registry : RegId → AllRegs → bytes;
  bincode_pending : QaPendingRecord → bytes;
}.

Definition regs_is_empty (r : RegId) (v : AllRegs) : bool :=
  match r with
  | Store.OpenValidators => OpenReg.ov_is_empty (ar_validators v)
  | Store.Names => NameReg.is_empty (ar_names v)
  | Store.SampleOffers => Offers.is_empty (ar_offers v)
  | Store.SampleServe => Serve.is_empty (ar_serve v)
  | Store.SlashAppeals => Book.is_empty (ar_appeals v)
  | Store.Governance => Gov.is_empty (ar_governance v)
  | Store.QaPolicy => qa_policy_is_empty (ar_qa_policy v)
  end.

Definition scale_bond (factor : Z) (rec : ValidatorRecord) : ValidatorRecord :=
  mkValidatorRecord (vr_owner rec) (sat_mul u128_max (vr_bond rec) factor) (vr_registered_at rec)
    (vr_status rec) (vr_jail_count rec).

#[export] Instance all_registries `{Host} `{RegistryCodec} : Registries AllRegs := {|
  reg_default _ := default_regs;
  reg_is_empty := regs_is_empty;
  reg_commitment r v := blake3 (reg_domain r ++ bincode_registry r v);
  bincode_qa := bincode_pending;
  ov_any_bond v := existsb (λ e, 0 <? vr_bond e.2) (map_to_list (records (ar_validators v)));
  ov_scale_bonds f v :=
    set_validators v (set_records (ar_validators v) (scale_bond f <$> records (ar_validators v)));
|}.

Notation VmStore := (StateStore AllRegs).

(** [open_validators()] and its siblings. *)
Definition open_validators (st : VmStore) : OpenValidatorRegistry :=
  ar_validators (registries (contents st) Store.OpenValidators).
Definition the_names (st : VmStore) : NameRegistry := ar_names (registries (contents st) Store.Names).
Definition sample_offers (st : VmStore) : SampleOfferRegistry :=
  ar_offers (registries (contents st) Store.SampleOffers).
Definition sample_serve (st : VmStore) : SampleServeChallengeRegistry :=
  ar_serve (registries (contents st) Store.SampleServe).
Definition slash_appeals (st : VmStore) : SlashAppealRegistry :=
  ar_appeals (registries (contents st) Store.SlashAppeals).
Definition governance (st : VmStore) : Governance.Governance :=
  ar_governance (registries (contents st) Store.Governance).
Definition qa_policy (st : VmStore) : CommittedQaPolicy :=
  ar_qa_policy (registries (contents st) Store.QaPolicy).

(** The settings the host pins in the store. *)
Record HostPins := mkHostPins {
  open_validator_params : option OpenValidatorParams;
  name_registry_params : option NameRegistryParams;
  slash_appeal_resolvers : option (list AccountId);
}.

(** ** Computations *)

Notation M := (ST VmStore Fault).

(** [result.map_err(f)?]. *)
Definition lift_result {S E A} (f : E → Fault) (r : result A E) : ST S Fault A :=
  match r with Ok a => mret a | Err e => st_fail (f e) end.

Definition map_err {S E F A} (f : E → F) (m : ST S E A) : ST S F A := λ s,
  match m s with (Ok a, s') => (Ok a, s') | (Err e, s') => (Err (f e), s') end.

(** A mutating call on registry [r]: its writes are kept when it fails. *)
Definition on_registry {S E A} (r : RegId) (prj : AllRegs → S) (put : AllRegs → S → AllRegs)
    (f : E → Fault) (m : ST S E A) : M A := λ st,
  let '(res, s') := m (prj (registries (contents st) r)) in
  (match res with Ok a => Ok a | Err e => Err (f e) end, registry_mut r (λ v, put v s') st).

(** The errors a handler reports as text. *)
Definition media {E} (_ : E) : Fault := Vm MediaBlob.

Definition on_validators {A} : ST OpenValidatorRegistry OpenValidatorError A → M A :=
  on_registry Store.OpenValidators ar_validators set_validators (λ _, Vm OpenValidatorErr).
Definition on_names {A} : ST NameRegistry NameRegistryError A → M A :=
  on_registry Store.Names ar_names set_ar_names (λ _, Vm NameErr).
Definition on_offers {A} : ST SampleOfferRegistry SampleOfferRegistryError A → M A :=
  on_registry Store.SampleOffers ar_offers set_ar_offers media.
Definition on_serve {A} : ST SampleServeChallengeRegistry SampleServeChallengeError A → M A :=
  on_registry Store.SampleServe ar_serve set_ar_serve media.
Definition on_appeals {A} : ST SlashAppealRegistry SlashAppealError A → M A :=
  on_registry Store.SlashAppeals ar_appeals set_ar_appeals media.
Definition on_governance {A} : ST Governance.Governance GovernanceError A → M A :=
  on_registry Store.Governance ar_governance set_ar_governance media.

(** A call that cannot fail. *)
Definition pure_st {S E A} (f : S → A * S) : ST S E A := λ s, let '(a, s') := f s in (Ok a, s').

(** Reading the store. *)
Definition look {A} (f : VmStore → A) : M A := λ st, (Ok (f st), st).

Definition vm_error {S A} (e : VmError) : ST S Fault A := st_fail (Vm e).

(** ** Accounts *)

Definition bump_nonce : ST AccountState Fault () :=
  a ← st_get;
  n ← st_some (checked_add u64_max (nonce a) 1) (Vm NonceOverflow);
  st_put (set_nonce a n).

Definition debit (amount : Z) : ST AccountState Fault () :=
  a ← st_get;
  _ ← st_require (amount <=? balance a) (Vm InsufficientBalance);
  st_put (set_balance a (balance a - amount)).

(** [state.get_mut(&tx.sender).ok_or(VmError::AccountNotFound)?]. *)
Definition with_sender {A} (tx : Transaction) (m : ST AccountState Fault A) : M A :=
  with_account (tx_sender tx) (Vm AccountNotFound) m.

Definition bump_sender_nonce (tx : Transaction) : M () := with_sender tx bump_nonce.

(** The recipient's side of a transfer. *)
Definition credit_or_create (to : AccountId) (amount : Z) (st : VmStore) : VmStore :=
  match get st to with
  | Some _ => get_mut to (λ s, set_balance s (sat_add u128_max (balance s) amount)) st
  | None => insert_account to (with_balance amount) st
  end.

Definition move_native (from to : AccountId) (amount : Z) : ST VmStore VmError () := λ st,
  if balance_of st from <? amount then (Err InsufficientBalance, st)
  else if (amount =? 0) || bool_decide (from = to) then (Ok (), st)
  else match checked_add u128_max (balance_of st to) amount with
  | None => (Err InsufficientBalance, st)
  | Some credited =>
      match get st from with
      | None => (Err AccountNotFound, st)
      | Some _ =>
          let st := get_mut from (λ f, set_balance f (balance f - amount)) st in
          (Ok (), match get st to with
                  | Some _ => get_mut to (λ t, set_balance t credited) st
                  | None => insert_account to (with_balance amount) st
                  end)
      end
  end.

Definition pay (from to : AccountId) (amount : Z) : M () := map_err Vm (move_native from to amount).

(** [if amount > 0 { move_native(..)? }]. *)
Definition pay_if (from to : AccountId) (amount : Z) : M () :=
  if 0 <? amount then pay from to amount else mret ().

(** ** The interpreter's store *)

Section StoreAccess.
Context `{Host} `{TextOps}.

Definition qa_check_init_runtime (runtime : bytes) (purpose : option string) (desc_hash : option bytes)
    (asset_name asset_symbol : option string) (registry : RuleRegistry) : result () Fault :=
  if contract_deploy_uses_init_code runtime then Err (Vm QaRejected)
  else match check_contract_deploy_full_with_metadata runtime purpose desc_hash asset_name asset_symbol
               registry with
  | Reject _ => Err (Vm QaRejected)
  | Allow | Unsure => Ok ()
  end.

(** The address already has an account or code. *)
Definition address_in_use (st : VmStore) (addr : AccountId) : bool :=
  bool_decide (is_Some (get st addr)) || bool_decide (is_Some (Store.get_contract_code st addr)).

Definition apply_in_tx_create2 (run : Runner VmStore) (reg : RuleRegistry) (deployer : AccountId)
    (salt bytecode : bytes) (init_gas_limit : Z) (parent_logs : list ExecutionLog)
    (parent_call_depth : Z) (ctx : VmExecutionContext) (st : VmStore)
    : result (AccountId * Z) Fault * (list ExecutionLog * VmStore) :=
  let fail e := (Err e, (parent_logs, st)) in
  if bool_decide (bytecode = []) then fail (Vm Create2InitCodeEmpty)
  else match check_contract_deploy_full bytecode (Some "dapp"%string) None reg with
  | Reject _ | Unsure => fail (Vm QaRejected)
  | Allow =>
      let addr := create2_contract_address deployer salt bytecode in
      if address_in_use st addr then fail (Vm DeploymentAddressInUse)
      else
        let st := insert_account addr AccountState_default st in
        if contract_deploy_uses_init_code bytecode then
          let init_depth := sat_add u8_max parent_call_depth 1 in
          if MAX_CALL_DEPTH <=? init_depth then (Err (Vm CallDepthExceeded), (parent_logs, st))
          else
            match run (new_interpreter (contract_deploy_init_body bytecode) init_gas_limit) deployer addr []
                    init_depth ctx st with
            | (Err e, (_, st)) => (Err e, (parent_logs, st))
            | (Ok g, (child, st)) =>
                match merge_child_logs parent_logs (logs child) with
                | Err e => (Err (Vm e), (parent_logs, st))
                | Ok merged =>
                    let runtime := default [] (return_data child) in
                    match (if vm_hardening ctx
                           then qa_check_init_runtime runtime (Some "dapp"%string) None None None reg
                           else Ok ()) with
                    | Err e => (Err e, (merged, st))
                    | Ok _ => (Ok (addr, g), (merged, set_contract_code addr runtime st))
                    end
                end
            end
        else (Ok (addr, 0), (parent_logs, set_contract_code addr bytecode st))
  end.

#[export] Instance store_access : StorageAccess VmStore RuleRegistry := {|
  sload st c k := get_contract_storage st c k;
  sstore st c k v := merge_contract_storage c k v st;
  get_contract_code := Store.get_contract_code;
  native_balance := balance_of;
  native_transfer st from to amount := move_native from to amount st;
  create2_deploy := apply_in_tx_create2;
  max_bytecode_size := rr_max_bytecode_size;
|}.

End StoreAccess.

(** ** Configuration *)

(** [gas::base]. *)
Module base_gas.
Definition BOND : Z := 21000.
Definition UNBOND : Z := 21000.
Definition CLAIM_UNBOND : Z := 21000.
Definition QA_POOL_VOTE : Z := 21000.
Definition NAME : Z := 21000.
End base_gas.

Definition GAS_PER_TRANSFER : Z := 21000.
Definition GAS_PER_CONTRACT_CALL : Z := 40000000.
Definition GAS_PER_CONTRACT_DEPLOY_INIT : Z := 5000000.
Definition GAS_PER_CONTRACT_DEPLOY : Z := 200000.
Definition GAS_PER_QA_POOL_VOTE : Z := base_gas.QA_POOL_VOTE.
Definition GAS_BATCH_BASE : Z := GAS_PER_TRANSFER.
Definition GAS_PER_BATCH_TRANSFER : Z := 7000.
Definition GAS_PER_BATCH_CONTRACT_CALL_STEP : Z := 7000.
Definition GAS_BATCH_CONTRACT_BUDGET : Z := GAS_PER_CONTRACT_CALL.

Record VmExecutionResult := mkVmResult {
  res_gas_used : Z;
  res_return_data : bytes;
  res_logs : list ExecutionLog;
}.

(** A result that only reports gas. *)
Definition gas_only (g : Z) : VmExecutionResult := mkVmResult g [] [].

Record VmConfig := mkVm {
  qa_registry : RuleRegistry;
  qa_registry_native : RuleRegistry;
  native_value_from : Z;
  vm_hardening_from : Z;
  equivocation_slash_from : Z;
  vm_jump_strict_from : Z;
  qa_canonical_from : option Z;
  qa_pool_config : QaPoolGovernanceConfig;
  registration_chain_id : option Z;
  registration_v2_from : Z;
  security_v4_from : Z;
  base_units_from : Z;
  media_blobs_from : option Z;
  blobs_root_header_from : option Z;
  media_blobs_phase7_cap_from : option Z;
  bls_committee_flip_from : option Z;
  governance_consensus_from : option Z;
  blake3_from : option Z;
}.

(** [Vm::with_qa_policies]. *)
Definition with_qa_policies (registry : RuleRegistry) (pool : QaPoolGovernanceConfig) : VmConfig :=
  mkVm (with_native_value_opcodes registry false) (with_native_value_opcodes registry true) 0 0 0 0 None
    pool None 0 0 0 None None None None None None.

Definition new_vm : VmConfig := with_qa_policies new_rules development_default.

(** [Vm::set_qa_policies]. *)
Definition set_qa_policies (vm : VmConfig) (registry : RuleRegistry) (pool : QaPoolGovernanceConfig)
    : VmConfig :=
  mkVm (with_native_value_opcodes registry false) (with_native_value_opcodes registry true)
    (native_value_from vm) (vm_hardening_from vm) (equivocation_slash_from vm) (vm_jump_strict_from vm)
    (qa_canonical_from vm) pool (registration_chain_id vm) (registration_v2_from vm)
    (security_v4_from vm) (base_units_from vm) (media_blobs_from vm) (blobs_root_header_from vm)
    (media_blobs_phase7_cap_from vm) (bls_committee_flip_from vm) (governance_consensus_from vm)
    (blake3_from vm).

(** [opt.is_some_and(|h| height >= h)]. *)
Definition from_height (from : option Z) (height : Z) : bool :=
  match from with Some h => h <=? height | None => false end.

Definition native_value_active (vm : VmConfig) (height : Z) : bool := native_value_from vm <=? height.
Definition vm_hardening_active (vm : VmConfig) (height : Z) : bool := vm_hardening_from vm <=? height.
Definition equivocation_slash_active (vm : VmConfig) (height : Z) : bool :=
  equivocation_slash_from vm <=? height.
Definition vm_jump_strict_active (vm : VmConfig) (height : Z) : bool := vm_jump_strict_from vm <=? height.
Definition qa_canonical_active (vm : VmConfig) (height : Z) : bool :=
  from_height (qa_canonical_from vm) height.
Definition media_blobs_active (vm : VmConfig) (height : Z) : bool :=
  from_height (media_blobs_from vm) height.
Definition blake3_active (vm : VmConfig) (height : Z) : bool := from_height (blake3_from vm) height.
Definition governance_consensus_active (vm : VmConfig) (height : Z) : bool :=
  consensus_txs_active (governance_consensus_from vm) height.
Definition media_blob_max_bytes (vm : VmConfig) (height : Z) : Z :=
  media_blob_max_bytes_at height (media_blobs_phase7_cap_from vm).

Definition ctx_at (vm : VmConfig) (c : VmExecutionContext) : VmExecutionContext :=
  mkCtx (block_height c) (block_timestamp c) (native_value_active vm (block_height c))
    (vm_hardening_active vm (block_height c)) (blake3_active vm (block_height c))
    (vm_jump_strict_active vm (block_height c)) (qa_canonical_active vm (block_height c)).

Definition qa_at (vm : VmConfig) (c : VmExecutionContext) : RuleRegistry :=
  with_blake3_opcodes (if native_value c then qa_registry_native vm else qa_registry vm) (blake3_opcode c).

Definition denomination_at (vm : VmConfig) (height : Z) : Denomination :=
  if base_units_from vm <=? height then BaseUnits else WholeBoing.

Section Registration.
Context `{Host} `{Crypto}.

Definition registration_proof_ok (vm : VmConfig) (height : Z) (owner node_id : AccountId) (sig : bytes)
    : bool :=
  let v2 := match registration_chain_id vm with
            | Some c => verify_validator_registration_v2 owner node_id sig c
            | None => false
            end in
  match registration_chain_id vm with
  | Some _ => if registration_v2_from vm <=? height then v2
              else v2 || verify_validator_registration owner node_id sig
  | None => v2 || verify_validator_registration owner node_id sig
  end.

End Registration.

(** ** Transfers on any account table *)

(** [TransferState], implemented by the store and by the views of the parallel
    executor. A write through [get_mut]'s borrow is [ts_set]. *)
Class TransferState (S : Type) := {
  ts_get : S → AccountId → option AccountState;
  ts_set : AccountId → AccountState → S → S;
  ts_insert : AccountId → AccountState → S → S;
}.

#[export] Instance store_transfers : TransferState VmStore := {|
  ts_get := get;
  ts_set id a := get_mut id (λ _, a);
  ts_insert := insert_account;
|}.

Definition execute_transfer {S} `{TransferState S} (tx : Transaction) : ST S Fault VmExecutionResult :=
  λ s,
  match ts_get s (tx_sender tx) with
  | None => (Err (Vm AccountNotFound), s)
  | Some a =>
      if negb (nonce a =? tx_nonce tx) then (Err (Vm (InvalidNonce (nonce a) (tx_nonce tx))), s)
      else match tx_payload tx with
      | Transfer to amount =>
          match (_ ← debit amount; bump_nonce) a with
          | (Err e, a') => (Err e, ts_set (tx_sender tx) a' s)
          | (Ok _, a') =>
              let s := ts_set (tx_sender tx) a' s in
              let s := match ts_get s to with
                       | Some r => ts_set to (set_balance r (sat_add u128_max (balance r) amount)) s
                       | None => ts_insert to (with_balance amount) s
                       end in
              (Ok (gas_only GAS_PER_TRANSFER), s)
          end
      | _ => (Err (Vm NotImplemented), s)
      end
  end.

(** ** Native amounts of a transaction *)

Definition NAME_SUFFIX : string := ".boing".

(** [to_ascii_lowercase]. *)
Definition ascii_lower (c : Ascii.ascii) : Ascii.ascii :=
  let n := Ascii.nat_of_ascii c in
  if ((65 <=? n) && (n <=? 90))%nat then Ascii.ascii_of_nat (n + 32) else c.

Definition to_ascii_lowercase (s : string) : string :=
  String.string_of_list_ascii (ascii_lower <$> String.list_ascii_of_string s).

(** [s.strip_suffix(suffix)], or [s]. *)
Definition strip_suffix (suffix s : string) : string :=
  let n := (String.length s - String.length suffix)%nat in
  if bool_decide (String.substring n (String.length suffix) s = suffix)
     && (String.length suffix <=? String.length s)%nat
  then String.substring 0 n s else s.

Section Names.
Context `{Host} `{TextOps}.

Definition normalize_name (input : string) : result string NameError :=
  let s := strip_suffix NAME_SUFFIX (to_ascii_lowercase (str_trim input)) in
  match validate_label s with Ok _ => Ok s | Err e => Err e end.

Definition name_label (raw : string) : M string :=
  lift_result (λ _ : NameError, Vm NameErr) (normalize_name raw).

Definition name_params_at (pins : HostPins) (height : Z) : M NameRegistryParams :=
  p ← st_some (name_registry_params pins) (Vm NameErr);
  _ ← st_require (np_activation_height p <=? height) (Vm NameErr);
  mret p.

(** The registry call of a name transaction: the rent it owes. *)
Definition name_call (p : NameRegistryParams) (height : Z) (me : AccountId) (sender_keyed : bool)
    (unit : Z) (payload : TransactionPayload) : M Z :=
  bal ← look (λ st, balance_of st me);
  match payload with
  | NameCommit commitment =>
      _ ← on_names (NameReg.commit_keyed p height me commitment sender_keyed);
      mret 0
  | NameRegister name salt target years =>
      l ← name_label name;
      reg ← look the_names;
      '(rent, _) ← lift_result (λ _ : NameRegistryError, Vm NameErr)
        (NameReg.check_register_keyed reg p height me l salt years sender_keyed);
      _ ← st_require (sat_mul u128_max rent unit <=? bal) (Vm NameErr);
      rent ← on_names (NameReg.register_keyed p height me l salt target years sender_keyed);
      mret (sat_mul u128_max rent unit)
  | NameRenew name years =>
      l ← name_label name;
      rent ← on_names (NameReg.renew p height me l years);
      _ ← st_require (sat_mul u128_max rent unit <=? bal) (Vm NameErr);
      mret (sat_mul u128_max rent unit)
  | NameTransfer name new_owner =>
      l ← name_label name;
      _ ← on_names (NameReg.transfer p height me l new_owner);
      mret 0
  | NameSetTarget name target =>
      l ← name_label name;
      _ ← on_names (NameReg.set_target p height me l target);
      mret 0
  | NameSetPrimary name =>
      l ← match name with
          | Some n => l ← name_label n; mret (Some l)
          | None => mret None
          end;
      _ ← on_names (NameReg.set_primary p height me l);
      mret 0
  | NameRelease name =>
      l ← name_label name;
      _ ← on_names (NameReg.release p height me l);
      mret 0
  | _ => st_fail Panic
  end.

Definition execute_name_tx (pins : HostPins) (tx : Transaction) (height : Z) (sender_keyed : bool)
    (unit : Z) : M Z :=
  p ← name_params_at pins height;
  rent ← name_call p height (tx_sender tx) sender_keyed unit (tx_payload tx);
  _ ← with_sender tx (_ ← debit rent; bump_nonce);
  mret base_gas.NAME.

End Names.

Definition open_validator_params_at (pins : HostPins) (height : Z) : M OpenValidatorParams :=
  p ← st_some (open_validator_params pins) (Vm OpenValidatorErr);
  _ ← st_require (ov_activation_height p <=? height) (Vm OpenValidatorErr);
  mret p.

(** ** Votes on a pending deploy *)

Definition counted_vote (pay_abstain : bool) (k : QaPoolVoteKind) : bool :=
  match k with QaAllow | QaReject => true | QaAbstain => pay_abstain end.

Definition unpaid_counted_voters (r : QaPendingRecord) (pay_abstain : bool) : list AccountId :=
  merge_sort word_le
    (filter (λ e, e.1 ∉ qp_rewarded r ∧ counted_vote pay_abstain e.2 = true)
       (map_to_list (qp_votes r))).*1.

Definition add_qa_vote (voter : AccountId) (vote : QaPoolVoteKind) (r : QaPendingRecord)
    : QaPendingRecord :=
  mkQaPending (qp_deployer r) (qp_deploy_nonce r) (qp_tx r) (<[voter := vote]> (qp_votes r))
    (qp_rewarded r) (qp_entered_height r).

Definition mark_rewarded (ids : list AccountId) (r : QaPendingRecord) : QaPendingRecord :=
  mkQaPending (qp_deployer r) (qp_deploy_nonce r) (qp_tx r) (qp_votes r)
    (list_to_set ids ∪ qp_rewarded r) (qp_entered_height r).

Definition vote_kind_eqb (a b : QaPoolVoteKind) : bool :=
  match a, b with
  | QaAllow, QaAllow | QaReject, QaReject | QaAbstain, QaAbstain => true
  | _, _ => false
  end.

Definition count_kind (k : QaPoolVoteKind) (r : QaPendingRecord) : Z :=
  Z.of_nat (length (filter (λ e, vote_kind_eqb e.2 k = true) (map_to_list (qp_votes r)))).

(** ** Escrow accounts and block housekeeping *)

Definition PHASE9_ASK_ESCROW_DOMAIN : bytes := str_bytes "BOING_BLOB_SAMPLE_ASK_ESCROW_V1".
Definition PHASE11_SERVE_CHALLENGE_BOND_ESCROW_DOMAIN : bytes :=
  str_bytes "BOING_BLOB_SERVE_CHALLENGE_BOND_V1".
Definition PHASE11_SERVE_CHALLENGE_BOND : Z := BASE_UNITS_PER_BOING.
Definition PHASE11_FAILED_SERVE_PENALTY : Z := BASE_UNITS_PER_BOING.
Definition PHASE14_FAILED_SERVE_APPEAL_WINDOW_BLOCKS : Z := 1000.

Section Housekeeping.
Context `{Host} `{HexText}.

Definition blob_sample_ask_escrow_account : AccountId := blake3 PHASE9_ASK_ESCROW_DOMAIN.
Definition blob_sample_serve_challenge_bond_escrow_account : AccountId :=
  blake3 PHASE11_SERVE_CHALLENGE_BOND_ESCROW_DOMAIN.

(** Settling one failed challenge. *)
Definition settle_failed_challenge (height : Z) (c : BlobSampleServeChallenge) : M () :=
  if ch_bond_settled c then mret ()
  else
    let escrow := blob_sample_serve_challenge_bond_escrow_account in
    _ ← pay_if escrow (ch_challenger c) (ch_bond_amount c);
    slash_id ← look (λ st, Book.peek_next_slash_id (slash_appeals st));
    _ ← pay_if escrow (slash_escrow_account slash_id) (ch_provider_penalty c);
    _ ← on_serve (st_modify (Serve.mark_bond_settled (ch_blob_id c) (ch_chunk_index c) (ch_provider c)
                               (ch_challenger c)));
    _ ← on_appeals (st_modify (Book.record_slash_with_id slash_id (ch_provider c)
                                 (ch_provider_penalty c) SrBlobFailedServe height
                                 PHASE14_FAILED_SERVE_APPEAL_WINDOW_BLOCKS));
    _ ← on_serve (st_modify (Serve.set_failed_serve_slash_id (ch_blob_id c) (ch_chunk_index c)
                               (ch_provider c) (ch_challenger c) slash_id));
    on_offers (st_modify (Offers.remove_settle_receipt (ch_blob_id c) (ch_chunk_index c) (ch_provider c)
                            (ch_challenger c))).

Fixpoint settle_failed_challenges (height : Z) (l : list BlobSampleServeChallenge) : M () :=
  match l with
  | [] => mret ()
  | c :: rest => _ ← settle_failed_challenge height c; settle_failed_challenges height rest
  end.

Definition settle_expired_serve_challenges (height : Z) : M () :=
  failed ← on_serve (pure_st (Serve.take_newly_failed height));
  settle_failed_challenges height failed.

Definition apply_media_blob_block_housekeeping (height : Z) : M () :=
  _ ← settle_expired_serve_challenges height;
  _ ← on_offers (st_modify (Offers.prune_settle_receipts height));
  _ ← on_appeals (st_modify (Book.expire_pending_appeals height));
  _ ← on_appeals (st_modify (Book.prune_expired_appeals height));
  _ ← on_appeals (st_modify (Book.prune_resolved_appeals height));
  on_serve (st_modify (Serve.prune_terminal_challenges height)).

Fixpoint refund_offers (l : list EscrowedSampleOffer) : M () :=
  match l with
  | [] => mret ()
  | o :: rest =>
      _ ← pay_if blob_sample_ask_escrow_account (eo_provider o) (eo_ask_fee o);
      refund_offers rest
  end.

Definition refund_expired_sample_offers (height : Z) : M () :=
  expired ← on_offers (pure_st (Offers.take_expired height));
  refund_offers expired.

End Housekeeping.

(** ** Handlers *)

Section Handlers.
Context `{Host} `{Crypto} `{TextOps} `{HexText}.
Context (pins : HostPins) (vm : VmConfig) (signing_chain_id : option Z).

(** Runs contract code; the frame is read afterwards. *)
Definition run_contract (i : Interpreter) (caller contract : AccountId) (calldata : bytes)
    (ctx : VmExecutionContext) : M (Z * Interpreter) := λ st,
  match run_with_qa i caller contract calldata st (qa_at vm ctx) ctx with
  | (Ok g, (i', st')) => (Ok (g, i'), st')
  | (Err e, (_, st')) => (Err e, st')
  end.

Definition execute_contract_call (tx : Transaction) (contract : AccountId) (calldata : bytes) (value : Z)
    (ctx : VmExecutionContext) : M VmExecutionResult :=
  _ ← bump_sender_nonce tx;
  c ← look (λ st, Store.get_contract_code st contract);
  c ← st_some c (Vm AccountNotFound);
  _ ← pay_if (tx_sender tx) contract value;
  '(g, i) ← run_contract (set_call_value (new_interpreter c GAS_PER_CONTRACT_CALL) value)
              (tx_sender tx) contract calldata ctx;
  mret (mkVmResult g (default [] (return_data i)) (logs i)).

(** The address a deploy creates. *)
Definition deploy_address (tx : Transaction) (bytecode : bytes) : AccountId :=
  match deploy_create2_salt (tx_payload tx) with
  | Some salt => create2_contract_address (tx_sender tx) salt bytecode
  | None => nonce_derived_contract_address (tx_sender tx) (tx_nonce tx)
  end.

(** Runs init code and checks the runtime it returns. *)
Definition run_init (tx : Transaction) (addr : AccountId)
    (d : bytes * option string * option bytes * option string * option string)
    (ctx : VmExecutionContext) : M (bytes * Z * list ExecutionLog) :=
  let '(bytecode, purpose, desc_hash, asset_name, asset_symbol) := d in
  '(g, i) ← run_contract (new_interpreter (contract_deploy_init_body bytecode) GAS_PER_CONTRACT_DEPLOY_INIT)
              (tx_sender tx) addr [] ctx;
  let runtime := default [] (return_data i) in
  _ ← (if vm_hardening ctx
       then lift_result id (qa_check_init_runtime runtime purpose desc_hash asset_name asset_symbol
                              (qa_at vm ctx))
       else mret ());
  mret (runtime, g, logs i).

Definition register_unsure_deploy (tx : Transaction) (height : Z) : M VmExecutionResult :=
  let subject := tx_id tx in
  pending ← look (λ st, qa_pending (contents st) !! subject);
  _ ← st_require (bool_decide (pending = None)) (Vm QaPendingAlreadyRegistered);
  '(total, mine) ← look (qa_pending_counts (tx_sender tx));
  let cfg := qa_pool_config vm in
  let full := (max_pending_items cfg =? 0) || (max_pending_items cfg <=? Z.of_nat total) in
  let deployer_full :=
    (0 <? max_pending_per_deployer cfg) && (max_pending_per_deployer cfg <=? Z.of_nat mine) in
  _ ← st_require (negb (qa_canonical_active vm height && (full || deployer_full))) (Vm QaRejected);
  _ ← bump_sender_nonce tx;
  _ ← st_modify (insert_qa_pending subject (new_qa_pending tx height));
  mret (mkVmResult GAS_PER_CONTRACT_DEPLOY (str_bytes "qa_pending") []).

(** The installation shared by a deploy and an allowed review: the code of the
    new account, then the account and its code. *)
Definition store_code (tx : Transaction) (addr : AccountId)
    (d : bytes * option string * option bytes * option string * option string)
    (ctx : VmExecutionContext) : M (Z * list ExecutionLog) :=
  let bytecode := d.1.1.1.1 in
  '(stored, g, ls) ← (if contract_deploy_uses_init_code bytecode then run_init tx addr d ctx
                      else mret (bytecode, 0, []));
  _ ← st_modify (set_contract_code addr stored);
  mret (g, ls).

Definition install_code (tx : Transaction) (addr : AccountId)
    (d : bytes * option string * option bytes * option string * option string)
    (ctx : VmExecutionContext) : M (Z * list ExecutionLog) :=
  _ ← st_modify (insert_account addr AccountState_default);
  store_code tx addr d ctx.

Definition execute_contract_deploy (tx : Transaction) (ctx : VmExecutionContext) : M VmExecutionResult :=
  match as_contract_deploy (tx_payload tx) with
  | None => vm_error NotImplemented
  | Some d =>
      let '(bytecode, purpose, desc_hash, asset_name, asset_symbol) := d in
      let proceed :=
        let addr := deploy_address tx bytecode in
        used ← look (λ st, address_in_use st addr);
        _ ← st_require (negb used) (Vm DeploymentAddressInUse);
        _ ← bump_sender_nonce tx;
        '(g, ls) ← install_code tx addr d ctx;
        mret (mkVmResult (if contract_deploy_uses_init_code bytecode
                          then sat_add u64_max GAS_PER_CONTRACT_DEPLOY g
                          else GAS_PER_CONTRACT_DEPLOY) [] ls) in
      match check_contract_deploy_full_with_metadata bytecode purpose desc_hash asset_name asset_symbol
              (qa_at vm ctx) with
      | Allow => proceed
      | Reject _ => vm_error QaRejected
      | Unsure =>
          if public_membership (qa_pool_config vm) then register_unsure_deploy tx (block_height ctx)
          else if qa_canonical_active vm (block_height ctx) then vm_error QaRejected
          else proceed
      end
  end.

Definition install_contract_from_deploy_tx (tx : Transaction) (ctx : VmExecutionContext) : M Z :=
  match as_contract_deploy (tx_payload tx) with
  | None => vm_error NotImplemented
  | Some d =>
      let addr := deploy_address tx d.1.1.1.1 in
      used ← look (λ st, address_in_use st addr);
      _ ← st_require (negb used) (Vm DeploymentAddressInUse);
      '(g, _) ← install_code tx addr d ctx;
      mret g
  end.

(** The end of a vote that decided. *)
Definition finish_qa_vote (subject : Hash) (rec : QaPendingRecord) (decision : QaQuorumDecision)
    (ctx : VmExecutionContext) : M VmExecutionResult :=
  match decision with
  | DecisionAllow =>
      _ ← st_modify (remove_qa_pending subject);
      init_gas ← install_contract_from_deploy_tx (qp_tx rec) ctx;
      mret (mkVmResult (sat_add u64_max GAS_PER_QA_POOL_VOTE init_gas) (str_bytes "qa_vote_allow") [])
  | DecisionReject =>
      _ ← st_modify (remove_qa_pending subject);
      mret (mkVmResult GAS_PER_QA_POOL_VOTE (str_bytes "qa_vote_reject") [])
  | DecisionPending => st_fail Panic
  end.

Definition execute_qa_pool_vote (tx : Transaction) (subject : Hash) (vote : QaPoolVoteKind)
    (ctx : VmExecutionContext) : M VmExecutionResult :=
  let voter := tx_sender tx in
  rec ← look (λ st, qa_pending (contents st) !! subject);
  rec ← st_some rec (Vm QaPendingNotFound);
  let unit := denom_unit (denomination_at vm (block_height ctx)) in
  voter_stake ← look (λ st, stake_in st voter `div` unit);
  _ ← lift_result (λ _ : Qa.QaVoterIneligible, Vm QaVoterIneligible)
        (voter_eligibility (qa_pool_config vm) voter (Some (qp_deployer rec)) (Some voter_stake));
  _ ← bump_sender_nonce tx;
  let cfg := qa_pool_config vm in
  let reward_each := sat_mul u128_max (reward_per_counted_vote cfg) unit in
  let rec := add_qa_vote voter vote rec in
  _ ← st_modify (qa_pending_mut subject (add_qa_vote voter vote));
  match quorum_decision cfg (count_kind QaAllow rec) (count_kind QaReject rec) with
  | DecisionPending => mret (mkVmResult GAS_PER_QA_POOL_VOTE (str_bytes "qa_vote_pending") [])
  | decision =>
      let unpaid := unpaid_counted_voters rec (pay_abstain cfg) in
      _ ← st_modify (qa_pending_mut subject (mark_rewarded unpaid));
      _ ← st_modify (λ st, (pay_qa_counted_voters unpaid reward_each st).2);
      finish_qa_vote subject rec decision ctx
  end.

(** ** Batches *)

Definition step_err (index : nat) (e : Fault) : Fault :=
  match e with Vm e => Vm (BatchStepFailed index e) | _ => e end.

Record BatchAcc := mkBatchAcc {
  ba_gas_used : Z;
  ba_vm_budget : Z;
  ba_logs : list ExecutionLog;
  ba_return_data : bytes;
}.

(** A contract-call step, with [value] moved before it. *)
Definition batch_contract_call (tx : Transaction) (ctx : VmExecutionContext) (index : nat)
    (contract : AccountId) (calldata : bytes) (value : option Z) (acc : BatchAcc) : M BatchAcc :=
  c ← look (λ st, Store.get_contract_code st contract);
  c ← st_some c (step_err index (Vm AccountNotFound));
  _ ← match value with
      | Some v => map_err (step_err index) (pay (tx_sender tx) contract v)
      | None => mret ()
      end;
  '(g, i) ← map_err (step_err index)
              (run_contract (set_call_value (new_interpreter c (ba_vm_budget acc)) (default 0 value))
                 (tx_sender tx) contract calldata ctx);
  mret (mkBatchAcc
    (sat_add u64_max (sat_add u64_max (ba_gas_used acc) GAS_PER_BATCH_CONTRACT_CALL_STEP) g)
    (sat_sub (ba_vm_budget acc) g) (ba_logs acc ++ logs i) (default [] (return_data i))).

Definition batch_step (tx : Transaction) (ctx : VmExecutionContext) (index : nat) (call : BatchCall)
    (acc : BatchAcc) : M BatchAcc :=
  match call with
  | BatchTransfer to amount =>
      _ ← with_sender tx (map_err (step_err index) (debit amount));
      _ ← st_modify (credit_or_create to amount);
      mret (mkBatchAcc (sat_add u64_max (ba_gas_used acc) GAS_PER_BATCH_TRANSFER) (ba_vm_budget acc)
              (ba_logs acc) (ba_return_data acc))
  | BatchContractCall contract calldata =>
      batch_contract_call tx ctx index contract calldata None acc
  | BatchContractCallWithValue contract calldata value =>
      _ ← st_require (native_value ctx) (step_err index (Vm NativeValueNotActive));
      batch_contract_call tx ctx index contract calldata (Some value) acc
  end.

Fixpoint batch_steps (tx : Transaction) (ctx : VmExecutionContext) (index : nat) (calls : list BatchCall)
    (acc : BatchAcc) : M BatchAcc :=
  match calls with
  | [] => mret acc
  | call :: rest => acc ← batch_step tx ctx index call acc; batch_steps tx ctx (S index) rest acc
  end.

Definition execute_batch (tx : Transaction) (calls : list BatchCall) (ctx : VmExecutionContext)
    : M VmExecutionResult :=
  _ ← lift_result (λ _ : BatchValidationError, Vm InvalidBatch) (validate_batch_calls calls);
  _ ← bump_sender_nonce tx;
  acc ← batch_steps tx ctx 0 calls (mkBatchAcc GAS_BATCH_BASE GAS_BATCH_CONTRACT_BUDGET [] []);
  mret (mkVmResult (ba_gas_used acc) (ba_return_data acc) (ba_logs acc)).

(** ** Staking and the open validator set *)

Definition execute_bond (tx : Transaction) (amount : Z) : M Z :=
  _ ← with_sender tx (
        _ ← debit amount;
        _ ← st_modify (λ a, set_stake a (sat_add u128_max (stake a) amount));
        bump_nonce);
  mret base_gas.BOND.

Definition execute_unbond (tx : Transaction) (amount height : Z) : M Z :=
  _ ← with_sender tx (
        a ← st_get;
        _ ← st_require (amount <=? stake a) (Vm InsufficientBalance);
        _ ← st_put (set_pending (set_stake a (stake a - amount))
                      (sat_add u128_max (pending_unbond a) amount)
                      (sat_add u64_max height UNBONDING_DELAY_BLOCKS));
        bump_nonce);
  mret base_gas.UNBOND.

Definition execute_claim_unbond (tx : Transaction) (height : Z) : M Z :=
  _ ← with_sender tx (
        a ← st_get;
        _ ← st_require (negb (pending_unbond a =? 0)) (Vm InsufficientBalance);
        _ ← st_require (unbond_unlock_height a <=? height)
              (Vm (UnbondNotMature (unbond_unlock_height a) height));
        _ ← st_put (set_balance (set_pending a 0 0)
                      (sat_add u128_max (balance a) (pending_unbond a)));
        bump_nonce);
  mret base_gas.CLAIM_UNBOND.

(** The [Transfer] arm of [execute_with_context]. *)
Definition transfer_arm (tx : Transaction) (to : AccountId) (amount : Z) : M Z :=
  _ ← with_sender tx (_ ← debit amount; bump_nonce);
  _ ← st_modify (credit_or_create to amount);
  mret GAS_PER_TRANSFER.

Definition execute_validator_register (tx : Transaction) (node_id : AccountId) (sig : bytes) (height : Z)
    : M Z :=
  p ← open_validator_params_at pins height;
  let p := OpenLaws.with_bond p (denom_scale (denomination_at vm height) (ov_bond p)) in
  _ ← st_require (registration_proof_ok vm height (tx_sender tx) node_id sig) (Vm OpenValidatorErr);
  bal ← look (λ st, balance_of st (tx_sender tx));
  _ ← st_require (ov_bond p <=? bal) (Vm InsufficientBalance);
  _ ← on_validators (OpenReg.register_with_cap p height (tx_sender tx) node_id
                       (security_v4_from vm <=? height));
  _ ← with_sender tx (_ ← debit (ov_bond p); bump_nonce);
  mret base_gas.BOND.

Definition execute_validator_deregister (tx : Transaction) (node_id : AccountId) (height : Z) : M Z :=
  p ← open_validator_params_at pins height;
  refund ← on_validators (OpenReg.deregister_at (tx_sender tx) node_id height
                            (security_v4_from vm <=? height));
  _ ← with_sender tx (
        _ ← (if 0 <? refund
             then st_modify (λ a, set_pending a (sat_add u128_max (pending_unbond a) refund)
                                    (Z.max (unbond_unlock_height a)
                                       (sat_add u64_max height (deregister_delay p))))
             else mret ());
        bump_nonce);
  mret base_gas.UNBOND.

Definition execute_validator_unjail (tx : Transaction) (node_id : AccountId) (height : Z) : M Z :=
  _ ← open_validator_params_at pins height;
  _ ← on_validators (OpenReg.unjail (tx_sender tx) node_id height);
  _ ← bump_sender_nonce tx;
  mret base_gas.UNBOND.

(** ** Media blobs *)

Definition require_blobs (height : Z) : M () :=
  st_require (media_blobs_active vm height) (Vm MediaBlobsNotActive).

Definition blob_check {A} (r : result A BlobError) : M A := lift_result media r.

Definition execute_put_blob (tx : Transaction) (r : BlobRetention) (content_type : string) (data : bytes)
    (height : Z) : M VmExecutionResult :=
  _ ← require_blobs height;
  blob_id ← blob_check (validate_put_blob_with_cap r content_type data (media_blob_max_bytes vm height));
  _ ← bump_sender_nonce tx;
  mret (mkVmResult (media_blob_gas (Z.of_nat (length data)) r) blob_id []).

Definition execute_blob_announce (tx : Transaction) (blob_id : BlobId) (size : Z) (r : BlobRetention)
    (content_type : string) (height : Z) : M VmExecutionResult :=
  _ ← require_blobs height;
  _ ← blob_check (validate_blob_announce_with_cap blob_id size r content_type
                    (media_blob_max_bytes vm height));
  _ ← bump_sender_nonce tx;
  mret (mkVmResult (media_blob_gas size r) blob_id []).

(** The result of the metadata transactions. *)
Definition meta_result (data : bytes) : VmExecutionResult := mkVmResult media_blob_meta_tx_gas data [].

Definition execute_blob_download_acl_tx (tx : Transaction) (blob_id : BlobId) (height : Z)
    : M VmExecutionResult :=
  _ ← require_blobs height;
  _ ← bump_sender_nonce tx;
  mret (meta_result blob_id).

Definition execute_renew_media_blob_pin (tx : Transaction) (blob_id : BlobId) (size extend_blocks : Z)
    (height : Z) : M VmExecutionResult :=
  _ ← require_blobs height;
  _ ← blob_check (validate_renew_media_blob_pin size extend_blocks);
  _ ← bump_sender_nonce tx;
  mret (meta_result blob_id).

Definition execute_pay_blob_sample (tx : Transaction) (blob_id : BlobId) (chunk_index chunk_count : Z)
    (height : Z) : M VmExecutionResult :=
  _ ← require_blobs height;
  _ ← blob_check (validate_pay_blob_sample chunk_index chunk_count);
  _ ← bump_sender_nonce tx;
  mret (meta_result blob_id).

Definition check_chunk (height chunk_index chunk_count : Z) : M () :=
  blob_check (validate_pay_blob_sample_with_max_chunks chunk_index chunk_count
                (media_blob_max_das_chunks_at height (media_blobs_phase7_cap_from vm))).

Definition execute_register_blob_sample_offer (tx : Transaction) (blob_id : BlobId)
    (chunk_index chunk_count ask_fee expires_at_height height : Z) : M VmExecutionResult :=
  _ ← require_blobs height;
  _ ← check_chunk height chunk_index chunk_count;
  _ ← blob_check (validate_register_blob_sample_offer chunk_index chunk_count);
  _ ← refund_expired_sample_offers height;
  let escrow := blob_sample_ask_escrow_account in
  prev ← on_offers (Offers.register (mkOffer blob_id chunk_index chunk_count (tx_sender tx) ask_fee
                                       expires_at_height height));
  _ ← match prev with
      | Some old => pay_if escrow (eo_provider old) (eo_ask_fee old)
      | None => mret ()
      end;
  _ ← pay_if (tx_sender tx) escrow ask_fee;
  _ ← bump_sender_nonce tx;
  mret (meta_result blob_id).

Definition execute_settle_blob_sample_match (tx : Transaction) (blob_id : BlobId)
    (chunk_index chunk_count : Z) (provider : AccountId) (height : Z) : M VmExecutionResult :=
  _ ← require_blobs height;
  _ ← check_chunk height chunk_index chunk_count;
  _ ← refund_expired_sample_offers height;
  offer ← on_offers (Offers.settle blob_id chunk_index provider height);
  _ ← st_require (eo_chunk_count offer =? chunk_count) (Vm MediaBlob);
  _ ← blob_check (Offers.validate_settle_blob_sample_match offer height provider);
  _ ← pay_if blob_sample_ask_escrow_account provider (eo_ask_fee offer);
  _ ← on_offers (st_modify (Offers.record_settle_receipt
        (mkSettledMatch blob_id chunk_index (eo_chunk_count offer) provider (tx_sender tx) height)));
  _ ← bump_sender_nonce tx;
  mret (meta_result blob_id).

Definition execute_cancel_blob_sample_offer (tx : Transaction) (blob_id : BlobId) (chunk_index height : Z)
    : M VmExecutionResult :=
  _ ← require_blobs height;
  _ ← refund_expired_sample_offers height;
  offer ← on_offers (Offers.cancel blob_id chunk_index (tx_sender tx));
  _ ← pay_if blob_sample_ask_escrow_account (tx_sender tx) (eo_ask_fee offer);
  _ ← bump_sender_nonce tx;
  mret (meta_result blob_id).

Definition execute_challenge_blob_sample_serve (tx : Transaction) (blob_id : BlobId)
    (chunk_index chunk_count : Z) (provider : AccountId) (height : Z) : M VmExecutionResult :=
  _ ← require_blobs height;
  _ ← check_chunk height chunk_index chunk_count;
  _ ← apply_media_blob_block_housekeeping height;
  has_receipt ← look (λ st, Offers.has_settle_receipt (sample_offers st) blob_id chunk_index provider
                              (tx_sender tx));
  _ ← st_require has_receipt (Vm MediaBlob);
  challenger_bal ← look (λ st, balance_of st (tx_sender tx));
  _ ← st_require (PHASE11_SERVE_CHALLENGE_BOND <=? challenger_bal) (Vm InsufficientBalance);
  provider_bal ← look (λ st, balance_of st provider);
  _ ← st_require (PHASE11_FAILED_SERVE_PENALTY <=? provider_bal) (Vm MediaBlob);
  _ ← on_serve (Serve.challenge blob_id chunk_index chunk_count provider (tx_sender tx) height
                  PHASE11_SERVE_CHALLENGE_BOND PHASE11_FAILED_SERVE_PENALTY);
  let escrow := blob_sample_serve_challenge_bond_escrow_account in
  _ ← pay_if (tx_sender tx) escrow PHASE11_SERVE_CHALLENGE_BOND;
  _ ← pay_if provider escrow PHASE11_FAILED_SERVE_PENALTY;
  _ ← bump_sender_nonce tx;
  mret (meta_result blob_id).

Definition execute_respond_blob_sample_serve (tx : Transaction) (blob_id : BlobId)
    (chunk_index chunk_count : Z) (challenger : AccountId) (chunk_hash chunks_root : bytes)
    (siblings : list bytes) (height : Z) : M VmExecutionResult :=
  _ ← require_blobs height;
  _ ← apply_media_blob_block_housekeeping height;
  c ← on_serve (Serve.respond blob_id chunk_index (tx_sender tx) challenger height
                  (mkDasSample blob_id chunk_index chunk_count chunk_hash chunks_root siblings));
  _ ← (if ch_bond_settled c then mret ()
       else
         let escrow := blob_sample_serve_challenge_bond_escrow_account in
         _ ← pay_if escrow (tx_sender tx) (ch_bond_amount c);
         _ ← pay_if escrow (tx_sender tx) (ch_provider_penalty c);
         on_serve (st_modify (Serve.mark_bond_settled blob_id chunk_index (tx_sender tx) challenger)));
  _ ← on_offers (st_modify (Offers.remove_settle_receipt blob_id chunk_index (tx_sender tx) challenger));
  _ ← bump_sender_nonce tx;
  mret (meta_result blob_id).

(** ** Equivocation *)

Definition execute_report_equivocation (tx : Transaction) (e : EquivocationEvidence) (height : Z)
    : M VmExecutionResult :=
  _ ← st_require (equivocation_slash_active vm height) (Vm MediaBlob);
  _ ← lift_result media (evidence_verify e);
  let offender := evidence_validator e in
  let round := evidence_round e in
  existing ← look (λ st, Book.find_equivocation_at_round (slash_appeals st) offender round);
  match existing with
  | Some s =>
      _ ← bump_sender_nonce tx;
      mret (mkVmResult GAS_PER_TRANSFER (le_bytes 8 (sr_id s)) [])
  | None =>
      slash_id ← look (λ st, Book.peek_next_slash_id (slash_appeals st));
      burned ← pure_st (slash_equivocation_stake offender slash_id);
      _ ← on_appeals (st_modify (Book.record_slash_with_id slash_id offender burned SrEquivocation round
                                   EQUIVOCATION_APPEAL_WINDOW_BLOCKS));
      _ ← bump_sender_nonce tx;
      mret (mkVmResult GAS_PER_TRANSFER (le_bytes 8 slash_id) [])
  end.

(** ** Governance *)

Definition require_governance_consensus_active (height : Z) : M () :=
  st_require (governance_consensus_active vm height) (Vm MediaBlob).

(** A call on the engine, after [set_strict_quorum(true)]. *)
Definition on_engine {A} (m : ST Governance.Governance GovernanceError A) : M A :=
  on_governance (_ ← st_modify (Gov.set_strict_quorum true); m).

Definition execute_governance_propose (tx : Transaction) (key : string) (value : bytes)
    (height timestamp : Z) : M VmExecutionResult :=
  _ ← require_governance_consensus_active height;
  _ ← lift_result media (validate_planned_propose key value);
  id ← on_engine (Gov.propose_at key value timestamp);
  _ ← bump_sender_nonce tx;
  mret (mkVmResult GAS_PER_TRANSFER (le_bytes 8 id) []).

Definition execute_governance_vote (tx : Transaction) (proposal_id : Z) (approve : bool) (height : Z)
    : M VmExecutionResult :=
  _ ← require_governance_consensus_active height;
  weight ← look (λ st, stake_in st (tx_sender tx));
  _ ← on_engine (Gov.cast_vote proposal_id (tx_sender tx) approve weight);
  _ ← bump_sender_nonce tx;
  mret (gas_only GAS_PER_TRANSFER).

Definition execute_governance_advance_cooling (tx : Transaction) (proposal_id height timestamp : Z)
    : M VmExecutionResult :=
  _ ← require_governance_consensus_active height;
  _ ← on_engine (Gov.advance_to_cooling proposal_id timestamp);
  _ ← bump_sender_nonce tx;
  mret (gas_only GAS_PER_TRANSFER).

(** ** Slash appeals *)

(** The pinned resolvers; an absent and an empty pin are treated alike. *)
Definition pinned : list AccountId := default [] (slash_appeal_resolvers pins).

Definition sender_may_resolve_slash_appeal (st : VmStore) (sender : AccountId) : bool :=
  match slash_appeal_resolvers pins with
  | Some set => bool_decide (sender ∈ set)
  | None =>
      match records (open_validators st) !! sender with
      | Some rec => match vr_status rec with VActive | VPending => true | _ => 0 <? stake_in st sender end
      | None => 0 <? stake_in st sender
      end
  end.

Definition registration_or_signing_chain : Z :=
  default 0 (match registration_chain_id vm with Some c => Some c | None => signing_chain_id end).

Definition pinned_stake (st : VmStore) : Z :=
  foldl (λ w id, sat_add u128_max w (stake_in st id)) 0 pinned.

Definition execute_submit_slash_appeal (tx : Transaction) (slash_id : Z) (evidence : bytes) (height : Z)
    : M VmExecutionResult :=
  stakes ← look (λ st, stake_in st <$> pinned);
  _ ← on_appeals (Book.submit_appeal slash_id evidence height PHASE14_MAX_APPEAL_EVIDENCE_BYTES
                    (phase20_snapshot_electorate_w stakes) (phase20_pin_set_commitment pinned));
  _ ← bump_sender_nonce tx;
  mret (meta_result (le_bytes 8 slash_id)).

(** The appeal, when it is still pending. *)
Definition pending_appeal (appeal_id : Z) : M ConsensusSlashAppeal :=
  a ← look (λ st, appeals (slash_appeals st) !! appeal_id);
  match a with
  | Some a => if bool_decide (ap_status a = ApPending) then mret a else vm_error MediaBlob
  | None => vm_error MediaBlob
  end.

Definition restore_slash (slash_id : Z) : M () :=
  slash ← look (λ st, slashes (slash_appeals st) !! slash_id);
  slash ← st_some slash (Vm MediaBlob);
  _ ← map_err media
        (match sr_reason slash with
         | SrBlobFailedServe => restore_failed_serve_penalty (sr_account slash) slash_id (sr_amount slash)
         | _ => restore_equivocation_slash (sr_account slash) slash_id (sr_amount slash)
         end);
  mret ().

(** The ballot an attested resolve stores. *)
Definition check_ballot (tx : Transaction) (appeal_id : Z) (approved : bool) (sig : option bytes)
    (height : Z) : M (option bytes) :=
  match sig with
  | Some sig =>
      a ← pending_appeal appeal_id;
      _ ← lift_result media
            (verify_slash_appeal_resolve_ballot_dual registration_or_signing_chain appeal_id
               (ap_slash_id a) approved (tx_sender tx) (pin_set_commitment a) sig);
      mret (Some sig)
  | None =>
      _ ← st_require (negb (phase32_committee_requires_attested (length pinned) height
                              (bls_committee_flip_from vm))) (Vm MediaBlob);
      mret None
  end.

(** The weight of the sender's vote and the electorate it counts against. *)
Definition resolve_weights (tx : Transaction) (a : ConsensusSlashAppeal) : M (Z * Z) :=
  voter_w ← look (λ st, stake_in st (tx_sender tx));
  live_w ← look pinned_stake;
  let empty := bool_decide (pinned = []) in
  if phase20_is_legacy_electorate_snapshot (electorate_w_snapshot a) (pin_set_commitment a)
  then mret (if empty then (1, 1) else (voter_w, live_w))
  else
    _ ← st_require (bool_decide (phase20_pin_set_commitment pinned = pin_set_commitment a))
          (Vm MediaBlob);
    mret (if empty then 1 else voter_w, electorate_w_snapshot a).

Definition execute_resolve_slash_appeal (tx : Transaction) (appeal_id : Z) (approved : bool)
    (ballot_signature : option bytes) (height : Z) : M VmExecutionResult :=
  may ← look (λ st, sender_may_resolve_slash_appeal st (tx_sender tx));
  _ ← st_require may (Vm MediaBlob);
  _ ← on_appeals (Book.gate_resolve_window appeal_id height);
  _ ← st_require (negb (phase32_committee_requires_bls_aggregate (length pinned) height
                          (bls_committee_flip_from vm))) (Vm MediaBlob);
  ballot ← check_ballot tx appeal_id approved ballot_signature height;
  a ← look (λ st, appeals (slash_appeals st) !! appeal_id);
  a ← st_some a (Vm MediaBlob);
  '(voter_weight, electorate_w) ← resolve_weights tx a;
  outcome ← on_appeals (Book.cast_resolve_vote appeal_id (tx_sender tx) approved voter_weight
                          electorate_w ballot);
  _ ← match outcome with
      | OcFinalized true =>
          a ← look (λ st, appeals (slash_appeals st) !! appeal_id);
          a ← st_some a (Vm MediaBlob);
          restore_slash (ap_slash_id a)
      | _ => mret ()
      end;
  _ ← bump_sender_nonce tx;
  mret (meta_result (le_bytes 8 appeal_id)).

Definition execute_resolve_slash_appeal_bls_aggregate (tx : Transaction) (appeal_id : Z) (approved : bool)
    (signer_bitset aggregate_signature : bytes) (signer_bls_pubkeys : list bytes) (height : Z)
    : M VmExecutionResult :=
  _ ← on_appeals (Book.gate_resolve_window appeal_id height);
  a ← pending_appeal appeal_id;
  _ ← st_require (negb (bool_decide (pinned = []))) (Vm MediaBlob);
  let legacy := phase20_is_legacy_electorate_snapshot (electorate_w_snapshot a) (pin_set_commitment a) in
  _ ← st_require (legacy || bool_decide (phase20_pin_set_commitment pinned = pin_set_commitment a))
        (Vm MediaBlob);
  _ ← st_require (phase30_verify_aggregate_resolve_self_contained registration_or_signing_chain
                    (ap_slash_id a) (pin_set_commitment a) pinned appeal_id approved signer_bitset
                    aggregate_signature signer_bls_pubkeys) (Vm MediaBlob);
  signers ← st_some (phase29_decode_signer_bitset pinned signer_bitset) (Vm MediaBlob);
  live_w ← look pinned_stake;
  batch ← look (λ st, (λ voter, (voter, approved, stake_in st voter, None)) <$> signers);
  outcome ← on_appeals (Book.cast_resolve_votes_batch appeal_id batch
                          (if legacy then live_w else electorate_w_snapshot a));
  _ ← match outcome with OcFinalized true => restore_slash (ap_slash_id a) | _ => mret () end;
  _ ← bump_sender_nonce tx;
  mret (meta_result (le_bytes 8 appeal_id)).

(** ** One transaction *)

Definition fixed_gas (m : M Z) : M VmExecutionResult := g ← m; mret (gas_only g).

Definition execute_payload (tx : Transaction) (ctx : VmExecutionContext) : M VmExecutionResult :=
  let height := block_height ctx in
  match tx_payload tx with
  | Bond amount => fixed_gas (execute_bond tx amount)
  | Unbond amount => fixed_gas (execute_unbond tx amount height)
  | ClaimUnbond => fixed_gas (execute_claim_unbond tx height)
  | Transfer to amount => fixed_gas (transfer_arm tx to amount)
  | ContractCall contract calldata => execute_contract_call tx contract calldata 0 ctx
  | ContractCallWithValue contract calldata value =>
      _ ← st_require (native_value ctx) (Vm NativeValueNotActive);
      execute_contract_call tx contract calldata value ctx
  | ContractDeploy _ _ | ContractDeployWithPurpose _ _ _ _
  | ContractDeployWithPurposeAndMetadata _ _ _ _ _ _ => execute_contract_deploy tx ctx
  | Types.QaPoolVote subject vote => execute_qa_pool_vote tx subject vote ctx
  | Batch calls => execute_batch tx calls ctx
  | ValidatorRegister node_id sig => fixed_gas (execute_validator_register tx node_id sig height)
  | ValidatorDeregister node_id => fixed_gas (execute_validator_deregister tx node_id height)
  | ValidatorUnjail node_id => fixed_gas (execute_validator_unjail tx node_id height)
  | NameCommit _ | NameRegister _ _ _ _ | NameRenew _ _ | NameTransfer _ _ | NameSetTarget _ _
  | NameSetPrimary _ | NameRelease _ =>
      fixed_gas (execute_name_tx pins tx height (security_v4_from vm <=? height)
                   (denom_unit (denomination_at vm height)))
  | PutBlob r content_type data => execute_put_blob tx r content_type data height
  | BlobAnnounce blob_id size r content_type => execute_blob_announce tx blob_id size r content_type height
  | RenewMediaBlobPin blob_id size extend_blocks =>
      execute_renew_media_blob_pin tx blob_id size extend_blocks height
  | PayBlobSample blob_id i n => execute_pay_blob_sample tx blob_id i n height
  | RegisterBlobSampleOffer blob_id i n ask_fee expires =>
      execute_register_blob_sample_offer tx blob_id i n ask_fee expires height
  | SettleBlobSampleMatch blob_id i n provider =>
      execute_settle_blob_sample_match tx blob_id i n provider height
  | CancelBlobSampleOffer blob_id i => execute_cancel_blob_sample_offer tx blob_id i height
  | ChallengeBlobSampleServe blob_id i n provider =>
      execute_challenge_blob_sample_serve tx blob_id i n provider height
  | RespondBlobSampleServe blob_id i n challenger chunk_hash chunks_root siblings =>
      execute_respond_blob_sample_serve tx blob_id i n challenger chunk_hash chunks_root siblings height
  | SubmitSlashAppeal slash_id evidence => execute_submit_slash_appeal tx slash_id evidence height
  | ResolveSlashAppeal appeal_id approved => execute_resolve_slash_appeal tx appeal_id approved None height
  | ResolveSlashAppealAttested appeal_id approved sig =>
      execute_resolve_slash_appeal tx appeal_id approved (Some sig) height
  | ResolveSlashAppealBlsAggregate appeal_id approved bitset sig pubkeys =>
      execute_resolve_slash_appeal_bls_aggregate tx appeal_id approved bitset sig pubkeys height
  | GrantBlobDownload blob_id _ | RevokeBlobDownload blob_id _ =>
      execute_blob_download_acl_tx tx blob_id height
  | ReportEquivocation e => execute_report_equivocation tx e height
  | GovernancePropose key value => execute_governance_propose tx key value height (block_timestamp ctx)
  | GovernanceVote proposal_id approve => execute_governance_vote tx proposal_id approve height
  | GovernanceAdvanceCooling proposal_id =>
      execute_governance_advance_cooling tx proposal_id height (block_timestamp ctx)
  end.

Definition execute_with_context (tx : Transaction) (ctx : VmExecutionContext) : M VmExecutionResult :=
  let ctx := ctx_at vm ctx in
  sender ← look (λ st, get st (tx_sender tx));
  sender ← st_some sender (Vm AccountNotFound);
  _ ← st_require (nonce sender =? tx_nonce tx) (Vm (InvalidNonce (nonce sender) (tx_nonce tx)));
  execute_payload tx ctx.

End Handlers.

(** ** The committed review policy *)

(** [serde_json] of the two policies. *)
Class PolicyJson := {
  rule_registry_from_json : bytes → option RuleRegistry;
  qa_pool_config_from_json : bytes → option QaPoolGovernanceConfig;
}.

Section Policy.
Context `{PolicyJson}.

Definition canonical_qa_policy (st : VmStore) : RuleRegistry * QaPoolGovernanceConfig :=
  let p := qa_policy st in
  (default new_rules (b ← registry_json p; rule_registry_from_json b),
   default canonical_default (b ← pool_config_json p; qa_pool_config_from_json b)).

Definition due_qa (now : Z) (p : Proposal) : bool :=
  (bool_decide (target_key p = "qa_registry") || bool_decide (target_key p = "qa_pool_config"))
  && match phase p with
     | PhCooling => match cooling_ends_at p with Some t => t <=? now | None => false end
     | PhExecution => match execution_ends_at p with Some t => now <=? t | None => false end
     | PhProposal => false
     end.

(** The engine's part of one due proposal. *)
Definition execute_due (id now : Z) : ST Governance.Governance GovernanceError (string * bytes) :=
  g ← st_get;
  _ ← (if bool_decide (phase <$> proposals g !! id = Some PhCooling)
       then Gov.advance_to_execution id now else mret ());
  Gov.execute id now.

Definition commit_qa_value (key : string) (value : bytes) (st : VmStore) : VmStore :=
  if bool_decide (key = "qa_registry") then
    match rule_registry_from_json value with
    | Some _ => registry_mut Store.QaPolicy (λ v, set_ar_qa_policy v
                  (mkQaPolicy (Some value) (pool_config_json (ar_qa_policy v)))) st
    | None => st
    end
  else
    match qa_pool_config_from_json value with
    | Some _ => registry_mut Store.QaPolicy (λ v, set_ar_qa_policy v
                  (mkQaPolicy (registry_json (ar_qa_policy v)) (Some value))) st
    | None => st
    end.

Definition apply_one_due (now : Z) (st : VmStore) (id : Z) : VmStore :=
  match on_governance (execute_due id now) st with
  | (Ok (key, value), st) => commit_qa_value key value st
  | (Err _, st) => st
  end.

Definition apply_due_qa_governance (block_timestamp : Z) (st : VmStore) : VmStore :=
  foldl (apply_one_due block_timestamp) st
    (p_id <$> filter (λ p, due_qa block_timestamp p = true) (Gov.list_proposals (governance st))).

Definition with_canonical_qa (vm : VmConfig) (st : VmStore) : VmConfig :=
  let '(registry, pool) := canonical_qa_policy st in set_qa_policies vm registry pool.

End Policy.

Definition expire_qa_pending `{Iteration} (vm : VmConfig) (height : Z) (st : VmStore) : VmStore :=
  let window := review_window_blocks (qa_pool_config vm) in
  if (window =? 0) || negb (qa_canonical_active vm height) then st
  else foldl (λ st s, remove_qa_pending s st) st (qa_pending_expired height window st).

(** ** A small ledger *)

(** Concrete parameters, used only to run the machine on examples. *)
Module SampleVm.

Definition codec : RegistryCodec := {|
  bincode_registry _ _ := [0];
  bincode_pending _ := [0];
|}.

Definition hex : HexText := {| hex_str := hex_encode |}.

Definition pins : HostPins :=
  mkHostPins (Some (mkOvParams 0 [] 100 150 10 8 100 5000 10 50)) None None.

(** Every rule active from genesis, amounts in base units. *)
Definition machine : VmConfig := new_vm.

Definition alice : AccountId := replicate 32 1.
Definition bob : AccountId := replicate 32 2.

(** Alice's first transaction. *)
Definition from_alice (payload : TransactionPayload) : Transaction :=
  mkTransaction 0 alice payload (mkAccessList [] []).

Definition at_height (h : Z) : VmExecutionContext := mkCtx h (2 * h) false false false false false.

Definition opening : list (StoreOp (V := AllRegs)) :=
  [OpInsert alice (mkAccountState 1000 0 60 0 0); OpInsert PROTOCOL_TREASURY (mkAccountState 500 0 0 0 0)].

Definition ledger : VmStore :=
  foldl (λ st op, match op with OpInsert id a => insert_account id a st | _ => st end)
    (mkStore (mkContents ∅ ∅ ∅ ∅ (λ _, default_regs))
       (mkCache (with_max_depth LEGACY_MAX_DEPTH) ∅ false false false ∅ ∅ ∅)
       (mkLog [] 0 0 (λ _, None)) None None) opening.

End SampleVm.
