(* ===== verification/VmWrites.v ===== *)
(** * What a transaction writes

    Every handler of [Vm.v] changes the store only through journaled writes of the
    store's interface, so reverting the executor's checkpoint removes every trace
    of a failed transaction. A successful transaction raises the sender's nonce by
    one and leaves every other nonce alone, so it cannot be replayed. *)

From S2P Require Import Prelude Types Names Governance Blobs SampleMarket SlashAppeals Signatures OpenValidators Words Bytecode Qa Merkle Store Tokenomics StoreLaws StoreUndo Interp InterpFrame Vm.
Import MoneyLaws.

(** ** The contents after a write *)

Section Contents.
Context `{Host} {V : Type} `{Registries V} `{Iteration}.
Implicit Types st : StateStore V.

Lemma contents_get_mut i f st :
  contents (get_mut i f st) = set_accounts (contents st) (alter f i (accounts (contents st))).
Proof. unfold get_mut, write_accounts. simpl. case_decide; by rewrite ?contents_record_account. Qed.

Lemma contents_insert i a st :
  contents (insert_account i a st) = set_accounts (contents st) (<[i := a]> (accounts (contents st))).
Proof. unfold insert_account, write_accounts. simpl. by rewrite contents_record_account. Qed.

Lemma contents_code i c st :
  contents (set_contract_code i c st) = set_code (contents st) (<[i := c]> (contract_code (contents st))).
Proof. by rewrite set_contract_code_eq. Qed.

Lemma contents_storage c k v st :
  contents (merge_contract_storage c k v st) =
    set_storage (contents st) (<[(c, k) := v]> (contract_storage (contents st))).
Proof. unfold merge_contract_storage. simpl. by rewrite record_storage_eq, record_contents. Qed.

Lemma contents_qa_mut s f st :
  contents (qa_pending_mut s f st) = set_qa (contents st) (alter f s (qa_pending (contents st))).
Proof. unfold qa_pending_mut, write_qa. case_decide; [|done]. simpl. by rewrite record_qa_eq, record_contents. Qed.

Lemma contents_qa_insert s r st :
  contents (insert_qa_pending s r st) = set_qa (contents st) (<[s := r]> (qa_pending (contents st))).
Proof. unfold insert_qa_pending, write_qa. simpl. by rewrite record_qa_eq, record_contents. Qed.

Lemma contents_qa_remove s st :
  contents (remove_qa_pending s st) = set_qa (contents st) (delete s (qa_pending (contents st))).
Proof. unfold remove_qa_pending, write_qa. case_decide; [|done]. simpl. by rewrite record_qa_eq, record_contents. Qed.

Lemma contents_registry r f st :
  contents (registry_mut r f st) = set_registry (contents st) r (f (registries (contents st) r)).
Proof. unfold registry_mut, journaling. by repeat (case_match; simpl in *; simplify_eq). Qed.

End Contents.

(** ** Journaled writes *)

Section Writes.
Context `{Host} `{RegistryCodec} `{Iteration}.

Definition write_op (op : StoreOp (V := AllRegs)) : bool :=
  match op with
  | OpInsert _ _ | OpGetMut _ _ | OpSetCode _ _ | OpStorage _ _ _ | OpQaMut _ _ | OpQaInsert _ _
  | OpQaRemove _ | OpRegistry _ _ => true
  | _ => false
  end.

(** [st'] is [st] after a series of journaled writes. *)
Definition writes (st st' : VmStore) : Prop :=
  ∃ ops, Forall (λ op, write_op op = true) ops ∧ run_store st ops = Some st'.

Lemma run_store_app (st : VmStore) ops ops' :
  run_store st (ops ++ ops') = run_store st ops ≫= λ st', run_store st' ops'.
Proof.
  unfold run_store. revert st. induction ops as [|op ops IH]; intros st; simpl; [done|].
  destruct (apply_store_op st op); simpl; auto.
Qed.

#[export] Instance writes_preorder : PreOrder writes.
Proof.
  split.
  - intros st. by exists [].
  - intros s1 s2 s3 (ops & Hops & Hr) (ops' & Hops' & Hr'). exists (ops ++ ops').
    split; [by apply Forall_app|]. rewrite run_store_app, Hr. done.
Qed.

Lemma writes_one op st st' : write_op op = true → apply_store_op st op = Some st' → writes st st'.
Proof.
  intros Hop Hr. exists [op]. split; [by repeat constructor|]. unfold run_store. simpl. by rewrite Hr.
Qed.

Lemma writes_nest base d (ops : list (StoreOp (V := AllRegs))) :
  Forall (λ op, write_op op = true) ops → mfold (nest base) d ops = Some d.
Proof. induction 1 as [|op ops Hop _ IH]; simpl; [done|]. by destruct op. Qed.

(** Reverting to a checkpoint undoes the writes made since. *)
Lemma writes_reverted st st' :
  snaps_ok (undo_log st) → writes (checkpoint st).2 st' →
  same_contents (contents (revert (checkpoint st).1 st')) (contents st).
Proof.
  intros Hsn (ops & Hops & Hr). destruct (checkpoint_start st) as [Hstart Hsn1].
  pose proof (run_undoes _ ops 0 0 _ _ st' Hstart (Hsn1 Hsn) (writes_nest _ _ _ Hops) Hr) as [_ _ _ Hu].
  destruct (revert_eq (checkpoint st).1 st') as (k & ->). apply Hu.
Qed.

(** Writes that keep every nonce. *)
Definition quiet (st st' : VmStore) : Prop :=
  writes st st' ∧ ∀ id, nonce_at st' id = nonce_at st id.

#[export] Instance quiet_preorder : PreOrder quiet.
Proof.
  split; [by split|]. intros s1 s2 s3 [Hw Hn] [Hw' Hn']. split; [by etrans|]. intros id. by rewrite Hn'.
Qed.

Lemma quiet_get_mut id f st :
  (∀ a, get st id = Some a → nonce (f a) = nonce a) → quiet st (get_mut id f st).
Proof.
  intros Hf. split; [by apply (writes_one (OpGetMut id f))|]. by apply only_funds_get_mut.
Qed.

Lemma quiet_insert id a st : get st id = None → nonce a = 0 → quiet st (insert_account id a st).
Proof.
  intros Hid Ha. split; [by apply (writes_one (OpInsert id a))|]. by apply only_funds_insert.
Qed.

(** Writes that touch no account. *)
Lemma quiet_other op st st' :
  write_op op = true → apply_store_op st op = Some st' → (∀ id, get st' id = get st id) → quiet st st'.
Proof.
  intros Hop Hr Hg. split; [by eapply writes_one|]. intros id. unfold nonce_at. by rewrite Hg.
Qed.

Lemma quiet_code id c st : quiet st (set_contract_code id c st).
Proof. apply (quiet_other (OpSetCode id c)); [done..|]. intros j. unfold get. by rewrite contents_code. Qed.

Lemma quiet_storage c k v st : quiet st (merge_contract_storage c k v st).
Proof. apply (quiet_other (OpStorage c k v)); [done..|]. intros j. unfold get. by rewrite contents_storage. Qed.

Lemma quiet_qa_mut s f st : quiet st (qa_pending_mut s f st).
Proof. apply (quiet_other (OpQaMut s f)); [done..|]. intros j. unfold get. by rewrite contents_qa_mut. Qed.

Lemma quiet_qa_insert s r st : quiet st (insert_qa_pending s r st).
Proof. apply (quiet_other (OpQaInsert s r)); [done..|]. intros j. unfold get. by rewrite contents_qa_insert. Qed.

Lemma quiet_qa_remove s st : quiet st (remove_qa_pending s st).
Proof. apply (quiet_other (OpQaRemove s)); [done..|]. intros j. unfold get. by rewrite contents_qa_remove. Qed.

Lemma quiet_registry r f st : quiet st (registry_mut r f st).
Proof. apply (quiet_other (OpRegistry r f)); [done..|]. intros j. unfold get. by rewrite contents_registry. Qed.

Hint Resolve quiet_get_mut quiet_insert : core.

Lemma quiet_credit id amount st : quiet st (credit_account id amount st).
Proof. unfold credit_account. case_match; [done|]. case_match; auto. Qed.

Lemma quiet_credits l per st : quiet st (foldl (λ st v, credit_account v per st) st l).
Proof.
  revert st. induction l as [|v l IH]; intros st; simpl; [done|]. etrans; [apply quiet_credit|apply IH].
Qed.

Lemma quiet_rewards voters each st : quiet st (pay_qa_counted_voters voters each st).2.
Proof.
  unfold pay_qa_counted_voters. case_match; [done|]. case_match; [done|]. simpl.
  etrans; [|apply quiet_credits]. by apply quiet_get_mut.
Qed.

Lemma quiet_slash v slash_id st : quiet st (slash_equivocation_stake v slash_id st).2.
Proof.
  unfold slash_equivocation_stake, slash_stake. case_match; [|done]. case_match; simpl; [auto|].
  etrans; [|apply quiet_credit]. apply quiet_get_mut. intros b _. by unfold debit_slashable.
Qed.

Lemma quiet_credit_or_create to amount st : quiet st (credit_or_create to amount st).
Proof. unfold credit_or_create. case_match; auto. Qed.

Lemma quiet_move from to amount st : quiet st (move_native from to amount st).2.
Proof.
  unfold move_native. repeat (case_match; [done|]). case_match; [|done]. case_match; [|done]. simpl.
  match goal with |- quiet _ (match get ?s1 _ with _ => _ end) => transitivity s1 end;
    [by apply quiet_get_mut|]. case_match; auto.
Qed.

Lemma quiet_restore_source slash_id amount st :
  quiet st (debit_slash_restore_source slash_id amount st).2.
Proof. unfold debit_slash_restore_source. repeat case_match; simpl; auto; done. Qed.

End Writes.

(** ** The interpreter's writes *)

Section InterpWrites.
Context `{Host} `{TextOps} `{RegistryCodec} `{Iteration}.

Lemma address_free st addr : address_in_use st addr = false → get st addr = None.
Proof.
  unfold address_in_use. intros [Ha _]%orb_false_iff. apply bool_decide_eq_false in Ha.
  by apply eq_None_not_Some.
Qed.

Lemma quiet_create2 run reg deployer salt bytecode limit ls depth ctx st :
  runner_kept quiet run →
  quiet st (apply_in_tx_create2 run reg deployer salt bytecode limit ls depth ctx st).2.2.
Proof.
  intros Hrun. unfold apply_in_tx_create2. case_bool_decide; [done|]. case_match; [|done..].
  set (addr := create2_contract_address _ _ _). destruct (address_in_use st addr) eqn:Hu; [done|].
  set (st1 := insert_account addr _ st). assert (quiet st st1) as Hins.
  { apply quiet_insert; [by apply address_free|done]. }
  transitivity st1; [done|]. case_match; [|apply quiet_code]. case_match; [done|].
  match goal with |- context [run ?i ?c ?t ?d ?n ?x st1] => pose proof (Hrun i c t d n x st1) as Hr end.
  destruct (run _ _ _ _ _ _ st1) as [[g|e] [child st2]]; simpl in *; [|done].
  transitivity st2; [done|]. repeat (case_match; simpl; try done); apply quiet_code.
Qed.

#[export] Instance quiet_store_kept : StoreKept (H := store_access) quiet.
Proof.
  split; simpl; intros; [apply quiet_storage|apply quiet_move|by apply quiet_create2].
Qed.

Lemma quiet_run vm i caller contract calldata ctx st :
  quiet st (run_contract vm i caller contract calldata ctx st).2.
Proof.
  unfold run_contract. pose proof (run_kept quiet i caller contract calldata st (qa_at vm ctx) ctx) as Hr.
  by destruct (run_with_qa _ _ _ _ _ _ _) as [[] [? ?]].
Qed.

End InterpWrites.

(** ** Nonces *)

(** The writes of [m] are journaled; when it succeeds, [me]'s nonce has grown by
    [n] and every other nonce is as before. *)
Definition bumps `{Host} `{RegistryCodec} `{Iteration} (me : AccountId) (n : Z) {A} (m : ST VmStore Fault A)
    : Prop :=
  ∀ st, writes st (m st).2 ∧
    ∀ a, (m st).1 = Ok a → ∀ id, nonce_at (m st).2 id = nonce_at st id + if decide (id = me) then n else 0.

Section Bumps.
Context `{Host} `{RegistryCodec} `{Iteration} (me : AccountId).

Notation bumps := (bumps me).

Lemma bumps_quiet {A} (m : ST VmStore Fault A) : (∀ st, quiet st (m st).2) → bumps 0 m.
Proof.
  intros Hm st. destruct (Hm st) as [Hw Hn]. split; [done|]. intros a _ id. rewrite Hn. case_decide; lia.
Qed.

Lemma bumps_bind n1 n2 {A B} (m : ST VmStore Fault A) (k : A → ST VmStore Fault B) :
  bumps n1 m → (∀ a, bumps n2 (k a)) → bumps (n1 + n2) (m ≫= k).
Proof.
  intros Hm Hk st. unfold mbind, st_bind. destruct (Hm st) as [Hw Hn].
  destruct (m st) as [[a|e] st1]; simpl in *; [|done]. destruct (Hk a st1) as [Hw' Hn'].
  split; [by etrans|]. intros b Hb id. rewrite (Hn' b Hb), (Hn a eq_refl). case_decide; lia.
Qed.

Lemma bumps_bind0 n {A B} (m : ST VmStore Fault A) (k : A → ST VmStore Fault B) :
  bumps 0 m → (∀ a, bumps n (k a)) → bumps n (m ≫= k).
Proof. intros Hm Hk. apply (bumps_bind 0 n); done. Qed.

Lemma bumps_bind1 {A B} (m : ST VmStore Fault A) (k : A → ST VmStore Fault B) :
  bumps 1 m → (∀ a, bumps 0 (k a)) → bumps 1 (m ≫= k).
Proof. intros Hm Hk. apply (bumps_bind 1 0); done. Qed.

Lemma bumps_ret {A} (a : A) : bumps 0 (mret a).
Proof. by apply bumps_quiet. Qed.

Lemma bumps_fail n {A} e : bumps n (A:=A) (st_fail e).
Proof. intros st. by split. Qed.

Lemma bumps_look {A} (f : VmStore → A) : bumps 0 (look f).
Proof. by apply bumps_quiet. Qed.

Lemma bumps_require c e : bumps 0 (st_require c e).
Proof. unfold st_require. case_match; [apply bumps_ret|apply bumps_fail]. Qed.

Lemma bumps_some {A} (o : option A) e : bumps 0 (st_some o e).
Proof. unfold st_some. case_match; [apply bumps_ret|apply bumps_fail]. Qed.

Lemma bumps_lift {E A} (f : E → Fault) (r : result A E) : bumps 0 (lift_result f r).
Proof. unfold lift_result. case_match; [apply bumps_ret|apply bumps_fail]. Qed.

Lemma bumps_modify f : (∀ st, quiet st (f st)) → bumps 0 (st_modify f).
Proof. intros Hf. by apply bumps_quiet. Qed.

Lemma bumps_pure {A} (f : VmStore → A * VmStore) : (∀ st, quiet st (f st).2) → bumps 0 (pure_st f).
Proof. intros Hf. apply bumps_quiet. intros st. unfold pure_st. specialize (Hf st). by destruct (f st). Qed.

Lemma bumps_map_err {E A} (f : E → Fault) (m : ST VmStore E A) :
  (∀ st, quiet st (m st).2) → bumps 0 (map_err f m).
Proof.
  intros Hm. apply bumps_quiet. intros st. unfold map_err. specialize (Hm st). by destruct (m st) as [[] ?].
Qed.

Lemma bumps_registry {S E A} r (prj : AllRegs → S) put (f : E → Fault) (m : ST S E A) :
  bumps 0 (on_registry r prj put f m).
Proof.
  apply bumps_quiet. intros st. unfold on_registry. destruct (m _) as [res s']. simpl. apply quiet_registry.
Qed.

Lemma quiet_pay from to amount st : quiet st (pay from to amount st).2.
Proof.
  unfold pay, map_err. pose proof (quiet_move from to amount st) as Hm.
  by destruct (move_native from to amount st) as [[] ?].
Qed.

Lemma bumps_pay from to amount : bumps 0 (pay from to amount).
Proof. apply bumps_quiet. intros st. apply quiet_pay. Qed.

Lemma bumps_pay_err f from to amount : bumps 0 (map_err f (pay from to amount)).
Proof. apply bumps_map_err. intros st. apply quiet_pay. Qed.

Lemma bumps_pay_if from to amount : bumps 0 (pay_if from to amount).
Proof. unfold pay_if. case_match; [apply bumps_pay|apply bumps_ret]. Qed.

(** The statements on the sender's account. *)
Lemma bumps_account n {A} e (m : ST AccountState Fault A) :
  (∀ a x, (m a).1 = Ok x → nonce (m a).2 = nonce a + n) → bumps n (with_account me e m).
Proof.
  intros Hok st. unfold with_account. destruct (get st me) as [a|] eqn:Ha; [|by split].
  specialize (Hok a). destruct (m a) as [r a']. simpl in *. split; [by apply (writes_one (OpGetMut me (λ _, a')))|].
  intros x -> id. unfold nonce_at. rewrite get_get_mut. case_decide as Hid; [|lia].
  subst. rewrite Ha. simpl. by rewrite (Hok x).
Qed.

End Bumps.

Create HintDb bumps.
#[export] Hint Resolve bumps_ret bumps_fail bumps_look bumps_require bumps_some bumps_lift bumps_pay
  bumps_pay_err bumps_pay_if : bumps.
#[export] Hint Extern 1 (bumps _ _ (on_registry _ _ _ _ _)) => apply bumps_registry : bumps.
#[export] Hint Extern 1 (bumps _ _ (on_validators _)) => apply bumps_registry : bumps.
#[export] Hint Extern 1 (bumps _ _ (on_names _)) => apply bumps_registry : bumps.
#[export] Hint Extern 1 (bumps _ _ (on_offers _)) => apply bumps_registry : bumps.
#[export] Hint Extern 1 (bumps _ _ (on_serve _)) => apply bumps_registry : bumps.
#[export] Hint Extern 1 (bumps _ _ (on_appeals _)) => apply bumps_registry : bumps.
#[export] Hint Extern 1 (bumps _ _ (on_governance _)) => apply bumps_registry : bumps.
#[export] Hint Extern 1 (bumps _ _ (on_engine _)) => apply bumps_registry : bumps.
#[export] Hint Extern 1 (bumps _ _ (blob_check _)) => apply bumps_lift : bumps.
#[export] Hint Extern 1 (bumps _ _ (st_modify _)) => apply bumps_modify : bumps.
#[export] Hint Extern 1 (bumps _ _ (pure_st _)) => apply bumps_pure : bumps.
#[export] Hint Extern 1 (bumps _ _ (vm_error _)) => apply bumps_fail : bumps.

(** Follows a handler's binds and branches; the step that raises the nonce is
    found by trying it last. *)
Ltac bumping :=
  lazymatch goal with
  | |- bumps _ _ (mbind _ _) =>
      first [apply bumps_bind0; [solve [bumping]|intros ?; bumping]
            |apply bumps_bind1; [bumping|intros ?; solve [bumping]]]
  | |- bumps _ _ (match ?x with _ => _ end) => destruct x; bumping
  | _ => first [solve [auto with bumps]|progress cbv beta zeta; bumping|idtac]
  end.

Section Handlers.
Context `{Host} `{Crypto} `{TextOps} `{HexText} `{RegistryCodec} `{Iteration}.
Context (pins : HostPins) (vm : VmConfig) (signing_chain_id : option Z) (tx : Transaction).

Notation bumps := (bumps (tx_sender tx)).

(** ** Steps on the sender's account *)

Lemma nonce_bumped a x : (bump_nonce a).1 = Ok x → nonce (bump_nonce a).2 = nonce a + 1.
Proof.
  unfold bump_nonce. st_unfold. destruct (checked_add _ _ _) as [n|] eqn:Hn; simpl; [|done].
  intros _. unfold checked_add in Hn. by case_match; simplify_eq.
Qed.

Lemma bumps_sender n {A} (m : ST AccountState Fault A) :
  (∀ a x, (m a).1 = Ok x → nonce (m a).2 = nonce a + n) → bumps n (with_sender tx m).
Proof. apply bumps_account. Qed.

Lemma bumps_then_nonce {A} (m : ST AccountState Fault A) :
  (∀ a, nonce (m a).2 = nonce a) → bumps 1 (with_sender tx (_ ← m; bump_nonce)).
Proof.
  intros Hm. apply bumps_sender. intros a x. unfold mbind, st_bind. specialize (Hm a).
  destruct (m a) as [[y|e] a']; simpl in *; [|done]. rewrite <- Hm. apply nonce_bumped.
Qed.

Lemma bumps_sender_nonce : bumps 1 (bump_sender_nonce tx).
Proof. apply bumps_sender, nonce_bumped. Qed.

Lemma debit_nonce amount a : nonce (debit amount a).2 = nonce a.
Proof. unfold debit. st_unfold. by destruct (amount <=? _). Qed.

Lemma bumps_debit_nonce amount : bumps 1 (with_sender tx (_ ← debit amount; bump_nonce)).
Proof. apply bumps_then_nonce, debit_nonce. Qed.

Hint Resolve bumps_sender_nonce bumps_debit_nonce : bumps.
Hint Resolve quiet_credit_or_create quiet_code quiet_qa_mut quiet_qa_insert quiet_qa_remove quiet_rewards
  quiet_slash : bumps.

(** ** Staking *)

Lemma bumps_bond amount : bumps 1 (execute_bond tx amount).
Proof.
  unfold execute_bond. bumping. apply bumps_sender. intros a x. unfold debit. st_unfold.
  destruct (amount <=? balance a); simpl; [|done]. apply (nonce_bumped (set_stake (set_balance a _) _)).
Qed.

Lemma bumps_unbond amount height : bumps 1 (execute_unbond tx amount height).
Proof.
  unfold execute_unbond. bumping. apply bumps_sender. intros a x. st_unfold.
  destruct (amount <=? stake a); simpl; [|done]. apply (nonce_bumped (set_pending (set_stake a _) _ _)).
Qed.

Lemma bumps_claim_unbond height : bumps 1 (execute_claim_unbond tx height).
Proof.
  unfold execute_claim_unbond. bumping. apply bumps_sender. intros a x. st_unfold.
  destruct (pending_unbond a =? 0); simpl; [done|]. destruct (_ <=? height); simpl; [|done].
  apply (nonce_bumped (set_balance (set_pending a _ _) _)).
Qed.

Lemma bumps_transfer to amount : bumps 1 (transfer_arm tx to amount).
Proof. unfold transfer_arm. bumping. Qed.

Lemma bumps_validator_register node_id sig height :
  bumps 1 (execute_validator_register pins vm tx node_id sig height).
Proof. unfold execute_validator_register, open_validator_params_at. bumping. Qed.

Lemma bumps_validator_deregister node_id height :
  bumps 1 (execute_validator_deregister pins vm tx node_id height).
Proof.
  unfold execute_validator_deregister, open_validator_params_at. bumping. apply bumps_then_nonce.
  intros b. by case_match.
Qed.

Lemma bumps_validator_unjail node_id height : bumps 1 (execute_validator_unjail pins tx node_id height).
Proof. unfold execute_validator_unjail, open_validator_params_at. bumping. Qed.

Lemma bumps_name_tx height keyed unit : bumps 1 (execute_name_tx pins tx height keyed unit).
Proof. unfold execute_name_tx, name_params_at, name_call, name_label. bumping. Qed.

(** ** Contracts *)

Lemma bumps_run i caller contract calldata ctx : bumps 0 (run_contract vm i caller contract calldata ctx).
Proof. apply bumps_quiet. intros st. apply quiet_run. Qed.

Lemma bumps_run_err f i caller contract calldata ctx :
  bumps 0 (map_err f (run_contract vm i caller contract calldata ctx)).
Proof. apply bumps_map_err. intros st. apply quiet_run. Qed.

Hint Resolve bumps_run bumps_run_err : bumps.

Lemma bumps_contract_call contract calldata value ctx :
  bumps 1 (execute_contract_call vm tx contract calldata value ctx).
Proof. unfold execute_contract_call. bumping. Qed.

(** What runs once the new account exists. *)
Lemma bumps_store_code dtx addr d ctx : bumps 0 (store_code vm dtx addr d ctx).
Proof. unfold store_code, run_init. bumping. Qed.

Lemma install_quiet dtx addr d ctx st :
  get st addr = None →
  writes st (install_code vm dtx addr d ctx st).2 ∧
  ∀ r, (install_code vm dtx addr d ctx st).1 = Ok r → ∀ id,
    nonce_at (install_code vm dtx addr d ctx st).2 id = nonce_at st id.
Proof.
  intros Hfree. unfold install_code. set (st1 := insert_account addr AccountState_default st).
  assert (quiet st st1) as [Hw Hn] by by apply quiet_insert.
  destruct (bumps_store_code dtx addr d ctx st1) as [Hw' Hn'].
  split; [by transitivity st1|]. intros r Hr id. rewrite <- Hn.
  etrans; [by apply (Hn' r)|]. case_decide; lia.
Qed.

Lemma bumps_register_unsure height : bumps 1 (register_unsure_deploy vm tx height).
Proof. unfold register_unsure_deploy. bumping. Qed.

Lemma bumps_install_deploy dtx ctx : bumps 0 (install_contract_from_deploy_tx vm dtx ctx).
Proof.
  unfold install_contract_from_deploy_tx. destruct (as_contract_deploy _) as [d|]; [|bumping].
  intros st. st_unfold. unfold look. set (addr := deploy_address _ _).
  destruct (address_in_use st addr) eqn:Hu; simpl; [done|].
  destruct (install_quiet dtx addr d ctx st (address_free _ _ Hu)) as [Hw Hn].
  destruct (install_code _ _ _ _ _ _) as [[[g ls]|e] st1]; simpl in *; [|done].
  split; [done|]. intros r _ id. rewrite (Hn _ eq_refl). case_decide; lia.
Qed.

(** The sender's account exists, so it is not at the new address. *)
Lemma bump_keeps_free addr st st1 x :
  get st addr = None → bump_sender_nonce tx st = (Ok x, st1) → get st1 addr = None.
Proof.
  intros Hfree. unfold bump_sender_nonce, with_sender, with_account.
  destruct (get st (tx_sender tx)) as [a|] eqn:Ha; [|done]. destruct (bump_nonce a) as [r a'].
  intros [= _ <-]. rewrite get_get_mut. case_decide; [congruence|done].
Qed.

Lemma bump_keeps_use addr st x st1 :
  address_in_use st addr = false → bump_sender_nonce tx st = (Ok x, st1) → address_in_use st1 addr = false.
Proof.
  intros Hu Hb. pose proof (bump_keeps_free _ _ _ _ (address_free _ _ Hu) Hb) as Hfree.
  unfold address_in_use in *. rewrite Hfree. apply orb_false_iff in Hu as [_ Hc]. simpl.
  revert Hb. unfold bump_sender_nonce, with_sender, with_account. case_match; [|done].
  destruct (bump_nonce _) as [r a']. intros [= _ <-]. unfold Store.get_contract_code in *.
  by rewrite contents_get_mut.
Qed.

Lemma bumps_install_new (fee : Z → Z) addr d ctx :
  bumps 1 (used ← look (λ st, address_in_use st addr);
           _ ← st_require (negb used) (Vm DeploymentAddressInUse);
           _ ← bump_sender_nonce tx;
           '(g, ls) ← install_code vm tx addr d ctx;
           mret (mkVmResult (fee g) [] ls)).
Proof.
  intros st. destruct (bumps_sender_nonce st) as [Hw Hn].
  unfold look. unfold mbind, st_bind. destruct (address_in_use st addr) eqn:Hu; simpl; [done|].
  destruct (bump_sender_nonce tx st) as [[x|e] st1] eqn:Hb; simpl in *; [|done].
  pose proof (bump_keeps_free _ _ _ _ (address_free _ _ Hu) Hb) as Hfree.
  destruct (install_quiet tx addr d ctx st1 Hfree) as [Hw' Hn'].
  destruct (install_code _ _ _ _ _ _) as [[[g ls]|e] st2]; simpl in *.
  - split; [by transitivity st1|]. intros r _ id. rewrite (Hn' _ eq_refl). by apply (Hn x).
  - split; [by transitivity st1|done].
Qed.

Lemma bumps_contract_deploy ctx : bumps 1 (execute_contract_deploy vm tx ctx).
Proof.
  unfold execute_contract_deploy.
  destruct (as_contract_deploy _) as [[[[[bytecode ?] ?] ?] ?]|]; [|bumping].
  pose proof (λ d, bumps_install_new (λ g, if contract_deploy_uses_init_code bytecode
    then sat_add u64_max GAS_PER_CONTRACT_DEPLOY g else GAS_PER_CONTRACT_DEPLOY)
    (deploy_address tx bytecode) d ctx) as Hi.
  pose proof bumps_register_unsure. cbv zeta. repeat case_match; auto with bumps.
Qed.

Lemma bumps_qa_pool_vote subject vote ctx : bumps 1 (execute_qa_pool_vote vm tx subject vote ctx).
Proof.
  pose proof bumps_install_deploy. unfold execute_qa_pool_vote, finish_qa_vote. bumping.
  all: apply bumps_modify; intros; apply quiet_rewards.
Qed.

(** ** Batches *)

Lemma bumps_batch_call ctx index contract calldata value acc :
  bumps 0 (batch_contract_call vm tx ctx index contract calldata value acc).
Proof. unfold batch_contract_call. bumping. Qed.

Lemma bumps_batch_step ctx index call acc : bumps 0 (batch_step vm tx ctx index call acc).
Proof.
  pose proof bumps_batch_call. unfold batch_step. destruct call; try solve [bumping].
  apply bumps_bind0; [|intros; bumping]. apply bumps_sender. intros a x _. unfold map_err.
  pose proof (debit_nonce amount a) as Hn. destruct (debit amount a) as [[] ?]; simpl in *; lia.
Qed.

Lemma bumps_batch_steps ctx calls index acc : bumps 0 (batch_steps vm tx ctx index calls acc).
Proof.
  pose proof bumps_batch_step. revert index acc. induction calls as [|c calls IH]; intros index acc; simpl;
    bumping.
Qed.

Lemma bumps_batch calls ctx : bumps 1 (execute_batch vm tx calls ctx).
Proof. pose proof bumps_batch_steps. unfold execute_batch. bumping. Qed.

(** ** Media blobs *)

Lemma bumps_settle_failed height l : bumps 0 (settle_failed_challenges height l).
Proof. induction l; simpl; unfold settle_failed_challenge; bumping. Qed.

Lemma bumps_housekeeping height : bumps 0 (apply_media_blob_block_housekeeping height).
Proof.
  pose proof bumps_settle_failed. unfold apply_media_blob_block_housekeeping, settle_expired_serve_challenges.
  bumping.
Qed.

Lemma bumps_refund_offers l : bumps 0 (refund_offers l).
Proof. induction l; simpl; bumping. Qed.

Lemma bumps_refund_expired height : bumps 0 (refund_expired_sample_offers height).
Proof. pose proof bumps_refund_offers. unfold refund_expired_sample_offers. bumping. Qed.

Hint Resolve bumps_housekeeping bumps_refund_expired : bumps.
Hint Extern 1 (bumps _ (require_blobs _ _)) => apply bumps_require : bumps.
Hint Extern 1 (bumps _ (check_chunk _ _ _ _)) => apply bumps_lift : bumps.

Lemma bumps_put_blob r ct data height : bumps 1 (execute_put_blob vm tx r ct data height).
Proof. unfold execute_put_blob. bumping. Qed.

Lemma bumps_announce b size r ct height : bumps 1 (execute_blob_announce vm tx b size r ct height).
Proof. unfold execute_blob_announce. bumping. Qed.

Lemma bumps_acl b height : bumps 1 (execute_blob_download_acl_tx vm tx b height).
Proof. unfold execute_blob_download_acl_tx. bumping. Qed.

Lemma bumps_renew_pin b size n height : bumps 1 (execute_renew_media_blob_pin vm tx b size n height).
Proof. unfold execute_renew_media_blob_pin. bumping. Qed.

Lemma bumps_pay_sample b i n height : bumps 1 (execute_pay_blob_sample vm tx b i n height).
Proof. unfold execute_pay_blob_sample. bumping. Qed.

Lemma bumps_register_offer b i n ask e height :
  bumps 1 (execute_register_blob_sample_offer vm tx b i n ask e height).
Proof. unfold execute_register_blob_sample_offer. bumping. Qed.

Lemma bumps_settle_match b i n p height : bumps 1 (execute_settle_blob_sample_match vm tx b i n p height).
Proof. unfold execute_settle_blob_sample_match. bumping. Qed.

Lemma bumps_cancel_offer b i height : bumps 1 (execute_cancel_blob_sample_offer vm tx b i height).
Proof. unfold execute_cancel_blob_sample_offer. bumping. Qed.

Lemma bumps_challenge b i n p height : bumps 1 (execute_challenge_blob_sample_serve vm tx b i n p height).
Proof. unfold execute_challenge_blob_sample_serve. bumping. Qed.

Lemma bumps_respond b i n c ch root sib height :
  bumps 1 (execute_respond_blob_sample_serve vm tx b i n c ch root sib height).
Proof. unfold execute_respond_blob_sample_serve. bumping. Qed.

(** ** Equivocation, governance and appeals *)

Lemma bumps_equivocation e height : bumps 1 (execute_report_equivocation vm tx e height).
Proof. unfold execute_report_equivocation. bumping. Qed.

Lemma bumps_propose key value height now : bumps 1 (execute_governance_propose vm tx key value height now).
Proof. unfold execute_governance_propose, require_governance_consensus_active. bumping. Qed.

Lemma bumps_vote p approve height : bumps 1 (execute_governance_vote vm tx p approve height).
Proof. unfold execute_governance_vote, require_governance_consensus_active. bumping. Qed.

Lemma bumps_advance p height now : bumps 1 (execute_governance_advance_cooling vm tx p height now).
Proof. unfold execute_governance_advance_cooling, require_governance_consensus_active. bumping. Qed.

Lemma bumps_submit_appeal slash_id evidence height :
  bumps 1 (execute_submit_slash_appeal pins tx slash_id evidence height).
Proof. unfold execute_submit_slash_appeal. bumping. Qed.

Lemma quiet_restore_equivocation v slash_id amount (st : VmStore) :
  quiet st (restore_equivocation_slash v slash_id amount st).2.
Proof.
  unfold restore_equivocation_slash. st_unfold. pose proof (quiet_restore_source slash_id amount st) as Hq.
  destruct (debit_slash_restore_source _ _ _) as [[] st1]; simpl in *; [|done].
  case_match; simpl; [done|]. transitivity st1; [done|].
  case_match; [by apply quiet_get_mut|by apply quiet_insert].
Qed.

Lemma quiet_restore_failed_serve v slash_id amount (st : VmStore) :
  quiet st (restore_failed_serve_penalty v slash_id amount st).2.
Proof.
  unfold restore_failed_serve_penalty. st_unfold. pose proof (quiet_restore_source slash_id amount st) as Hq.
  destruct (debit_slash_restore_source _ _ _) as [[] st1]; simpl in *; [|done].
  case_match; simpl; [done|]. transitivity st1; [done|].
  case_match; [by apply quiet_get_mut|by apply quiet_insert].
Qed.

Lemma bumps_restore_slash slash_id : bumps 0 (restore_slash slash_id).
Proof.
  unfold restore_slash. repeat (apply bumps_bind0; [auto with bumps|intros ?]);
    [apply bumps_map_err; intros st|apply bumps_ret].
  case_match; first [apply quiet_restore_equivocation|apply quiet_restore_failed_serve].
Qed.

Hint Resolve bumps_restore_slash : bumps.

Lemma bumps_resolve a ok sig height :
  bumps 1 (execute_resolve_slash_appeal pins vm signing_chain_id tx a ok sig height).
Proof.
  unfold execute_resolve_slash_appeal, check_ballot, pending_appeal, resolve_weights. bumping.
Qed.

Lemma bumps_resolve_bls a ok bitset sig keys height :
  bumps 1 (execute_resolve_slash_appeal_bls_aggregate pins vm signing_chain_id tx a ok bitset sig keys height).
Proof. unfold execute_resolve_slash_appeal_bls_aggregate, pending_appeal. bumping. Qed.

(** ** Any transaction *)

Hint Resolve bumps_bond bumps_unbond bumps_claim_unbond bumps_transfer bumps_validator_register
  bumps_validator_deregister bumps_validator_unjail bumps_name_tx bumps_contract_call
  bumps_contract_deploy bumps_qa_pool_vote bumps_batch bumps_put_blob bumps_announce bumps_acl
  bumps_renew_pin bumps_pay_sample bumps_register_offer bumps_settle_match bumps_cancel_offer
  bumps_challenge bumps_respond bumps_equivocation bumps_propose bumps_vote bumps_advance
  bumps_submit_appeal bumps_resolve bumps_resolve_bls : bumps.

Lemma bumps_payload ctx : bumps 1 (execute_payload pins vm signing_chain_id tx ctx).
Proof. unfold execute_payload, fixed_gas. cbv zeta. destruct (tx_payload tx); bumping. Qed.

Lemma bumps_execute ctx : bumps 1 (execute_with_context pins vm signing_chain_id tx ctx).
Proof. pose proof bumps_payload. unfold execute_with_context. bumping. Qed.

(** A transaction that succeeds carried its sender's nonce. *)
Lemma execute_nonce ctx st r st' :
  execute_with_context pins vm signing_chain_id tx ctx st = (Ok r, st') →
  nonce_at st (tx_sender tx) = tx_nonce tx.
Proof.
  unfold execute_with_context. intros Hr. st_inv. unfold look in *. simplify_eq/=.
  unfold nonce_at. destruct (get _ (tx_sender tx)); unfold st_some in *; simpl in *; [|done].
  st_unfold. simplify_eq. lia.
Qed.

End Handlers.

(** ** Atomicity and replay *)

Module VmWriteLaws.
Section Laws.
Context `{Host} `{Crypto} `{TextOps} `{HexText} `{RegistryCodec} `{Iteration}.
Context (pins : HostPins) (vm : VmConfig) (signing_chain_id : option Z).

Notation execute := (execute_with_context pins vm signing_chain_id).

(** C14: transactions are atomic. In a store with any history, after a checkpoint
    and the execution of any transaction of any kind (contract code with nested
    calls and deploys included), reverting to the checkpoint gives back exactly
    the accounts, code, storage, pending items and registries of before: no
    handler writes around the undo journal. *)
Theorem failed_tx_leaves_no_trace ops st tx ctx :
  run_store new_store ops = Some st →
  same_contents (contents (revert (checkpoint st).1 (execute tx ctx (checkpoint st).2).2)) (contents st).
Proof.
  intros Hrun. apply writes_reverted; [|apply bumps_execute].
  apply (run_snaps ops new_store); [apply snaps_none|done].
Qed.

(** C15: a successful transaction of any kind carried its sender's current nonce,
    raises it by exactly one and changes no other account's nonce, contracts it
    calls or creates included; executing it again then fails with the nonce
    error. *)
Theorem tx_consumes_nonce tx ctx ctx' st r st' :
  0 ≤ tx_nonce tx → execute tx ctx st = (Ok r, st') →
  nonce_at st (tx_sender tx) = tx_nonce tx ∧
  nonce_at st' (tx_sender tx) = tx_nonce tx + 1 ∧
  (∀ id, id ≠ tx_sender tx → nonce_at st' id = nonce_at st id) ∧
  execute tx ctx' st' = (Err (Vm (InvalidNonce (tx_nonce tx + 1) (tx_nonce tx))), st').
Proof.
  intros Hpos Hr. pose proof (execute_nonce pins vm signing_chain_id tx ctx st r st' Hr) as Hn.
  destruct (bumps_execute pins vm signing_chain_id tx ctx st) as [_ Hb]. rewrite Hr in Hb. simpl in Hb.
  specialize (Hb r eq_refl). pose proof (Hb (tx_sender tx)) as Hme. rewrite decide_True, Hn in Hme by done.
  split_and!; [done..| |].
  - intros id Hid. rewrite Hb, decide_False by done. lia.
  - unfold execute_with_context, nonce_at in *. st_unfold. unfold look.
    destruct (get st' (tx_sender tx)) as [a|]; simpl in *; [|lia]. rewrite Hme.
    rewrite (proj2 (Z.eqb_neq _ _)) by lia. done.
Qed.

End Laws.
End VmWriteLaws.

Module SampleWrites.
Import VmWriteLaws SampleVm.

#[local] Existing Instances sample_host codec hex.
#[local] Existing Instances SampleQa.plain_text SampleSigs.open_crypto SampleStore.in_order.

(** A transfer that succeeds, then one the sender cannot pay. *)
Definition failing : Transaction := from_alice (Batch [BatchTransfer bob 700; BatchTransfer bob 700]).

Lemma failed_tx_leaves_no_trace_witness :
  ∃ st, run_store new_store opening = Some st ∧
    (execute_with_context pins machine None failing (at_height 5) (checkpoint st).2).1
    = Err (Vm (BatchStepFailed 1 InsufficientBalance)) ∧
    same_contents
      (contents (revert (checkpoint st).1
        (execute_with_context pins machine None failing (at_height 5) (checkpoint st).2).2)) (contents st).
Proof.
  eexists. split; [reflexivity|]. split; [vm_compute; reflexivity|].
  by apply (failed_tx_leaves_no_trace pins machine None opening).
Defined.

Lemma tx_consumes_nonce_witness :
  ∃ r st', execute_with_context pins machine None (from_alice (Transfer bob 70)) (at_height 5) ledger
           = (Ok r, st') ∧ nonce_at st' alice = 1 ∧ nonce_at st' bob = nonce_at ledger bob.
Proof.
  eexists _, _. split; [vm_compute; reflexivity|].
  edestruct (tx_consumes_nonce pins machine None (from_alice (Transfer bob 70)) (at_height 5) (at_height 5) ledger)
    as (_ & Hn & Ho & _); [done|vm_compute; reflexivity|]. split; [exact Hn|by apply Ho].
Defined.

End SampleWrites.
