(* ===== verification/VmMoney.v ===== *)
(** * Conservation of the ledger

    Executing a transaction neither creates nor destroys native funds: the sum of
    all balances, stakes, unbonding amounts and validator bonds is kept, except
    for the rent of a name, which is burned. The same proof shows that execution
    of a well-formed transaction on a well-formed store never panics or runs out of
    the interpreter's fuel. The store is an instance of the interface the
    interpreter's laws are proved against. *)

From S2P Require Import Prelude Types Names Governance Blobs SampleMarket SlashAppeals Signatures OpenValidators Words Bytecode Qa Merkle Store Tokenomics StoreLaws Interp InterpLaws InterpGas Vm VmWrites.
Import MoneyLaws.

(** ** Well-formed transactions *)

(** Fields are in the range of their types. *)
Definition batch_call_ok (c : BatchCall) : Prop :=
  match c with
  | BatchTransfer _ amount => 0 ≤ amount
  | BatchContractCall contract calldata => is_word contract ∧ is_bytes calldata
  | BatchContractCallWithValue contract calldata value =>
      is_word contract ∧ is_bytes calldata ∧ in_u128 value
  end.

Definition payload_ok (p : TransactionPayload) : Prop :=
  match p with
  | Transfer _ amount | Bond amount | Unbond amount => 0 ≤ amount
  | ContractCall contract calldata => is_word contract ∧ is_bytes calldata
  | ContractCallWithValue contract calldata value =>
      is_word contract ∧ is_bytes calldata ∧ in_u128 value
  | ContractDeploy bytecode _ | ContractDeployWithPurpose bytecode _ _ _
  | ContractDeployWithPurposeAndMetadata bytecode _ _ _ _ _ => is_bytes bytecode
  | Batch calls => Forall batch_call_ok calls
  | RenewMediaBlobPin _ _ extend_blocks => 0 ≤ extend_blocks
  | NameRegister _ _ _ years | NameRenew _ years => 0 ≤ years
  | _ => True
  end.

Definition tx_ok (tx : Transaction) : Prop := is_word (tx_sender tx) ∧ payload_ok (tx_payload tx).

(** The configured bond and the configured reward are amounts. *)
Definition config_ok (pins : HostPins) (vm : VmConfig) : Prop :=
  (∀ p, open_validator_params pins = Some p → 0 ≤ ov_bond p) ∧
  0 ≤ reward_per_counted_vote (qa_pool_config vm).

(** ** The ledger *)

Definition bonds (r : OpenValidatorRegistry) : Z := map_sum vr_bond (records r).

(** All native funds. *)
Definition total (st : VmStore) : Z := supply st + bonds (open_validators st).

(** A well-formed store whose funds add up to [T]. *)
Record ledger_at (T : Z) (st : VmStore) : Prop := {
  lg_funds : funds_ok st;
  lg_code : map_Forall (λ _ c, is_bytes c) (contract_code (contents st));
  lg_storage : map_Forall (λ _ w, is_word w) (contract_storage (contents st));
  lg_pending : map_Forall (λ _ r, tx_ok (qp_tx r)) (qa_pending (contents st));
  lg_bonds : map_Forall (λ _ r, 0 ≤ vr_bond r) (records (open_validators st));
  lg_slashes : map_Forall (λ _ s, 0 ≤ sr_amount s) (slashes (slash_appeals st));
  lg_penalties : map_Forall (λ _ c, 0 ≤ ch_provider_penalty c) (challenges (sample_serve st));
  lg_total : total st = T;
}.

Definition well_formed (st : VmStore) : Prop := ledger_at (total st) st.

Section Ledger.
Context `{Host} `{RegistryCodec} `{Iteration}.

Lemma bonds_nonneg T st : ledger_at T st → 0 ≤ bonds (open_validators st).
Proof. intros Hl. apply map_sum_nonneg, Hl. Qed.

Lemma supply_le T st : ledger_at T st → 0 ≤ supply st ≤ T.
Proof.
  intros Hl. pose proof (bonds_nonneg T st Hl). destruct Hl as [Hf _ _ _ _ _ _ Ht]. unfold total in Ht.
  split; [|lia]. apply map_sum_nonneg. intros i a Ha. apply native_nonneg. by apply (Hf i).
Qed.

Lemma native_le T st id a : ledger_at T st → get st id = Some a → funds a ∧ 0 ≤ native a ≤ T.
Proof.
  intros Hl Ha. pose proof (supply_le T st Hl). pose proof (lg_funds T st Hl) as Hf.
  pose proof (native_le_supply st id a Hf Ha). split; [by apply (Hf id)|lia].
Qed.

Lemma balance_range T st id : ledger_at T st → 0 ≤ balance_of st id ≤ T.
Proof.
  intros Hl. unfold balance_of. destruct (get st id) as [a|] eqn:Ha; simpl.
  - destruct (native_le T st id a Hl Ha) as [[? [? ?]] ?]. unfold native in *. lia.
  - pose proof (supply_le T st Hl). lia.
Qed.

(** A change of the accounts by [d]. *)
Lemma ledger_accounts T d m st st' :
  ledger_at T st → contents st' = set_accounts (contents st) m →
  funds_ok st' → supply st' = supply st + d → ledger_at (T + d) st'.
Proof.
  intros [Hf Hc Hs Hq Hb Hsl Hpn Ht] Heq Hf' Hsup.
  constructor; unfold total, open_validators, slash_appeals, sample_serve in *; try rewrite Heq; try done.
  simpl. lia.
Qed.

Lemma ledger_get_mut T id f a st :
  ledger_at T st → get st id = Some a → funds (f a) →
  ledger_at (T + (native (f a) - native a)) (get_mut id f st).
Proof.
  intros Hl Ha Hfa. eapply ledger_accounts; [done|apply contents_get_mut| |].
  - apply funds_get_mut; [apply Hl|]. intros b Hb'. by simplify_eq.
  - rewrite (supply_get_mut _ _ _ _ Ha). lia.
Qed.

Lemma ledger_insert T id a st :
  ledger_at T st → get st id = None → funds a → ledger_at (T + native a) (insert_account id a st).
Proof.
  intros Hl Hid Ha. eapply ledger_accounts; [done|apply contents_insert| |].
  - apply funds_insert; [apply Hl|done].
  - by rewrite supply_insert.
Qed.

(** A change of funds only. *)
Lemma ledger_only_funds T d st st' :
  ledger_at T st → only_funds st st' → funds_ok st' → supply st' = supply st + d → ledger_at (T + d) st'.
Proof.
  intros [Hf Hc Hs Hq Hb Hsl Hpn Ht] [_ Ec Es Eq Er] Hf' Hsup.
  constructor; unfold total, open_validators, slash_appeals, sample_serve in *; rewrite ?Ec, ?Es, ?Eq, ?Er; try done. lia.
Qed.

Lemma ledger_code T id c st : ledger_at T st → is_bytes c → ledger_at T (set_contract_code id c st).
Proof.
  intros [Hf Hc Hs Hq Hb Hsl Hpn Ht] Hbytes.
  constructor; unfold total, supply, funds_ok, open_validators, slash_appeals, sample_serve in *;
    rewrite contents_code; try done.
  by apply map_Forall_insert_2.
Qed.

Lemma ledger_storage T c k v st : ledger_at T st → is_word v → ledger_at T (merge_contract_storage c k v st).
Proof.
  intros [Hf Hc Hs Hq Hb Hsl Hpn Ht] Hw.
  constructor; unfold total, supply, funds_ok, open_validators, slash_appeals, sample_serve in *;
    rewrite contents_storage; try done.
  by apply map_Forall_insert_2.
Qed.

(** A change of the pending items that keeps their transactions well-formed. *)
Lemma ledger_qa T m st st' :
  ledger_at T st → contents st' = set_qa (contents st) m → map_Forall (λ _ r, tx_ok (qp_tx r)) m →
  ledger_at T st'.
Proof.
  intros [Hf Hc Hs Hq Hb Hsl Hpn Ht] Heq Hm.
  constructor; unfold total, supply, funds_ok, open_validators, slash_appeals, sample_serve in *; by rewrite Heq.
Qed.

(** A change of a registry that holds no amounts of concern. *)
Lemma ledger_registry T r f st :
  r ≠ Store.OpenValidators → r ≠ Store.SlashAppeals → r ≠ Store.SampleServe →
  ledger_at T st → ledger_at T (registry_mut r f st).
Proof.
  intros Hr1 Hr2 Hr3 [Hf Hc Hs Hq Hb Hsl Hpn Ht].
  constructor; unfold total, supply, funds_ok, open_validators, slash_appeals, sample_serve in *;
    rewrite contents_registry; simpl; rewrite ?decide_False by done; done.
Qed.

Lemma ledger_appeals T f st :
  ledger_at T st →
  map_Forall (λ _ s, 0 ≤ sr_amount s)
    (slashes (ar_appeals (f (registries (contents st) Store.SlashAppeals)))) →
  ledger_at T (registry_mut Store.SlashAppeals f st).
Proof.
  intros [Hf Hc Hs Hq Hb Hsl Hpn Ht] Hsl'.
  constructor; unfold total, supply, funds_ok, open_validators, slash_appeals, sample_serve in *;
    rewrite contents_registry; done.
Qed.

Lemma ledger_serve T f st :
  ledger_at T st →
  map_Forall (λ _ c, 0 ≤ ch_provider_penalty c)
    (challenges (ar_serve (f (registries (contents st) Store.SampleServe)))) →
  ledger_at T (registry_mut Store.SampleServe f st).
Proof.
  intros [Hf Hc Hs Hq Hb Hsl Hpn Ht] Hpn'.
  constructor; unfold total, supply, funds_ok, open_validators, slash_appeals, sample_serve in *;
    rewrite contents_registry; done.
Qed.

Lemma ledger_validators T f st :
  ledger_at T st →
  let r' := ar_validators (f (registries (contents st) Store.OpenValidators)) in
  map_Forall (λ _ r, 0 ≤ vr_bond r) (records r') →
  ledger_at (T + (bonds r' - bonds (open_validators st))) (registry_mut Store.OpenValidators f st).
Proof.
  intros [Hf Hc Hs Hq Hb Hsl Hpn Ht] r' Hb'.
  constructor; unfold total, supply, funds_ok, open_validators, slash_appeals, sample_serve in *;
    rewrite contents_registry; simpl; try done. fold r'. lia.
Qed.

End Ledger.

(** ** Payments *)

Section Payments.
Context `{Host} `{RegistryCodec} `{Iteration} (T : Z).

Lemma ledger_eq T1 T2 st : ledger_at T1 st → T1 = T2 → ledger_at T2 st.
Proof. by intros ? <-. Qed.

Lemma move_ledger from to amount st :
  ledger_at T st → 0 ≤ amount → ledger_at T (move_native from to amount st).2.
Proof.
  intros Hl Ha. unfold move_native. destruct (Z.ltb_spec (balance_of st from) amount) as [|Hle]; [done|].
  destruct (_ || _) eqn:Hz; [done|]. apply orb_false_iff in Hz as [Hne Hft]. apply bool_decide_eq_false in Hft.
  destruct (checked_add _ _ _) as [credited|] eqn:Hc; [|done].
  destruct (get st from) as [f|] eqn:Hf; [|done]. simpl.
  unfold balance_of in Hle. rewrite Hf in Hle. simpl in Hle.
  destruct (native_le T st from f Hl Hf) as [[Hf1 [Hf2 Hf3]] _].
  set (st1 := get_mut from _ st).
  assert (ledger_at (T - amount) st1) as Hl1.
  { eapply ledger_eq; [eapply ledger_get_mut; [done|done|]|]; unfold funds, native; simpl; lia. }
  assert (get st1 to = get st to) as Hto. { unfold st1. by rewrite get_get_mut, decide_False. }
  unfold balance_of in Hc. rewrite Hto. destruct (get st to) as [t0|] eqn:Ht; simpl in Hc.
  - destruct (native_le T st to t0 Hl Ht) as [[? [? ?]] _].
    unfold checked_add in Hc. case_match; simplify_eq.
    eapply ledger_eq; [eapply ledger_get_mut; [done|by rewrite Hto|]|]; unfold funds, native; simpl; lia.
  - eapply ledger_eq; [eapply ledger_insert; [done|by rewrite Hto|]|]; unfold funds, native; simpl; lia.
Qed.

End Payments.

(** ** The store as the interpreter sees it *)

(** The interpreter's invariant: a well-formed ledger of [T]. *)
Definition ledger_inv (T : Z) : StoreInv VmStore := ledger_at T.

Section Instance.
Context `{Hh : Host} `{!HostDigest Hh} `{TextOps} `{RegistryCodec} `{Iteration} (T : Z).
#[local] Existing Instance ledger_inv.
#[local] Instance inv : StoreInv VmStore := ledger_inv T.

Lemma new_account_ledger addr st :
  ledger_at T st → address_in_use st addr = false → ledger_at T (insert_account addr AccountState_default st).
Proof.
  intros Hl Hu. eapply ledger_eq; [eapply ledger_insert; [done|by apply address_free|]|];
    unfold funds, native; simpl; lia.
Qed.

Lemma init_check_fault runtime p dh an asym reg e :
  qa_check_init_runtime runtime p dh an asym reg = Err e → vm_fault e.
Proof. unfold qa_check_init_runtime. repeat case_match; intros; simplify_eq; by eexists. Qed.

Lemma create2_ledger n run reg deployer salt bytecode limit ls depth ctx st :
  runner_ok n run → ledger_at T st → is_word deployer → is_bytes bytecode →
  0 ≤ limit < u64_max → limit < n → logs_ok ls → 0 ≤ depth → depth + 1 < MAX_CALL_DEPTH → ctx_ok ctx →
  match apply_in_tx_create2 run reg deployer salt bytecode limit ls depth ctx st with
  | (Ok (addr, g), (ls', st')) => is_word addr ∧ 0 ≤ g ≤ limit ∧ logs_ok ls' ∧ ledger_at T st'
  | (Err e, (_, st')) => vm_fault e ∧ ledger_at T st'
  end.
Proof.
  intros Hrun Hl Hd Hb Hlim Hn Hls Hdep Hdep' Hctx. unfold apply_in_tx_create2.
  case_bool_decide; [split; [by eexists|done]|].
  destruct (check_contract_deploy_full _ _ _ _); [|split; [by eexists|done]..].
  set (addr := create2_contract_address _ _ _). assert (is_word addr) as Haddr by apply blake3_word.
  destruct (address_in_use st addr) eqn:Hu; [split; [by eexists|done]|].
  pose proof (new_account_ledger addr st Hl Hu) as Hl1. set (st1 := insert_account addr _ st) in *.
  destruct (contract_deploy_uses_init_code bytecode).
  2:{ split_and!; [done|lia|lia|done|by apply ledger_code]. }
  destruct (MAX_CALL_DEPTH <=? _); [split; [by eexists|done]|].
  assert (is_bytes (contract_deploy_init_body bytecode)) as Hbody.
  { unfold contract_deploy_init_body. case_match; [by apply Forall_drop|done]. }
  pose proof (fo_new _ limit Hbody Hlim) as Hnew.
  pose proof (Hrun (new_interpreter (contract_deploy_init_body bytecode) limit) deployer addr []
    (sat_add u8_max depth 1) ctx st1 Hnew Hl1 Hd Haddr (Forall_nil_2 _)
    ltac:(unfold MAX_CALL_DEPTH, sat_add, u8_max in *; lia) Hctx ltac:(simpl; lia)) as Hr.
  destruct (run _ _ _ _ _ _ st1) as [[g|e] [child st2]]; [|done].
  destruct Hr as (Hf & Hl2 & -> & Hgl & Hgu).
  destruct (merge_child_logs ls (logs child)) as [merged|e] eqn:Hm; [|split; [by eexists|done]].
  destruct (if vm_hardening ctx then _ else _) as [[]|e] eqn:Hq.
  - destruct (fo_gas _ Hf). simpl in *. split_and!; [done|lia|lia| |apply ledger_code; [done|apply Hf]].
    pose proof (merge_logs_ok ls (logs child) Hls (fo_logs _ Hf)) as Hok. by rewrite Hm in Hok.
  - split; [|done]. case_match; [by eapply init_check_fault|done].
Qed.

#[export] Instance store_laws : StoreLaws VmStore RuleRegistry.
Proof.
  split; simpl.
  - intros st c k Hl _ _. unfold get_contract_storage.
    destruct (contract_storage (contents st) !! (c, k)) as [w|] eqn:E; simpl; [|apply is_word_ZERO].
    apply (lg_storage T st Hl _ _ E).
  - intros. by apply ledger_storage.
  - intros st a c Hl Hc. apply (lg_code T st Hl _ _ Hc).
  - intros st from to amount Hl _ _ [? _]. by apply move_ledger.
  - intros. by eapply create2_ledger.
Qed.

End Instance.

#[export] Instance store_gas_laws `{Host} `{TextOps} : StoreGasLaws VmStore RuleRegistry.
Proof.
  split. intros d run1 run2 reg deployer salt bytecode limit ls depth ctx st Hd Hlim Hsim.
  simpl. unfold apply_in_tx_create2. case_bool_decide; [by right|].
  destruct (check_contract_deploy_full _ _ _ _); [|by right..].
  destruct (address_in_use _ _); [by right|]. set (st1 := insert_account _ _ st).
  destruct (contract_deploy_uses_init_code bytecode); [|by split].
  destruct (MAX_CALL_DEPTH <=? _); [by right|].
  set (body := contract_deploy_init_body bytecode). set (addr := create2_contract_address _ _ _) in *.
  pose proof (Hsim (new_interpreter body limit) deployer addr [] (sat_add u8_max depth 1) ctx st1 Hlim) as Hs.
  change (raise d (new_interpreter body limit)) with (new_interpreter body (limit + d)) in Hs.
  destruct (run1 _ _ _ _ _ _ st1) as [[g|e] [child st2]].
  - destruct Hs as (-> & Hin & Hgl & ->). simpl.
    destruct (merge_child_logs _ _); [|by right]. destruct (if vm_hardening ctx then _ else _); [|by right].
    split; [done|]. unfold in_limit in Hin. simpl in *. lia.
  - destruct Hs as [Hu | ->]; [by left|by right].
Qed.

(** ** Computations on a ledger *)

(** From a ledger of [T], [m] ends in a value satisfying [P] and a ledger of [T']
    of that value, or in a [VmError]. *)
Definition takes {A} (T : Z) (m : ST VmStore Fault A) (P : A → Prop) (T' : A → Z) : Prop :=
  ∀ st, ledger_at T st →
    match m st with (Ok a, st') => P a ∧ ledger_at (T' a) st' | (Err e, _) => vm_fault e end.

(** It keeps the funds. *)
Definition keeps {A} (T : Z) (m : ST VmStore Fault A) : Prop := takes T m (λ _, True) (λ _, T).

(** Its result, if any, has [Q], whatever the store. *)
Definition yields {A} (Q : A → Prop) (m : ST VmStore Fault A) : Prop :=
  ∀ st, match m st with (Ok a, _) => Q a | (Err _, _) => True end.

(** The gas of a result is not negative. *)
Definition gas_ok (r : VmExecutionResult) : Prop := 0 ≤ res_gas_used r.

Lemma yields_bind {A B} Q (m : ST VmStore Fault A) (k : A → ST VmStore Fault B) :
  (∀ a, yields Q (k a)) → yields Q (m ≫= k).
Proof. intros Hk st. unfold mbind, st_bind. destruct (m st) as [[a|e] st']; [apply Hk|done]. Qed.

Lemma yields_ret {A} (Q : A → Prop) a : Q a → yields Q (mret a).
Proof. by intros Ha st. Qed.

Lemma yields_fail {A} (Q : A → Prop) e : yields Q (st_fail e).
Proof. by intros st. Qed.

Lemma takes_yields {A} T (m : ST VmStore Fault A) Q T' :
  takes T m (λ _, True) T' → yields Q m → takes T m Q T'.
Proof.
  intros Hm Hq st Hl. specialize (Hm st Hl). specialize (Hq st).
  destruct (m st) as [[a|e] st']; [|done]. split; [done|apply Hm].
Qed.

(** Follows the code to the results it returns. *)
Ltac yielding :=
  repeat first
    [apply yields_ret; first [done|unfold gas_ok; done]
    |apply yields_fail
    |apply yields_bind; intros
    |match goal with |- yields _ (match ?x with _ => _ end) => destruct x end].

Lemma vm_fault_vm e : vm_fault (Vm e).
Proof. by eexists. Qed.

(** Statements on one account holding at most [B] that change its funds by [d]. *)
Definition moves {A} (B d : Z) (m : ST AccountState Fault A) : Prop :=
  ∀ a, funds a → native a ≤ B →
    match m a with
    | (Ok _, a') => funds a' ∧ native a' = native a + d
    | (Err e, _) => vm_fault e
    end.

Lemma moves_bind {A A'} B d1 d2 (m : ST AccountState Fault A) (k : A → ST AccountState Fault A') :
  moves B d1 m → (∀ x, moves (B + d1) d2 (k x)) → moves B (d1 + d2) (m ≫= k).
Proof.
  intros Hm Hk a Hf Hn. unfold mbind, st_bind. specialize (Hm a Hf Hn).
  destruct (m a) as [[x|e] a1]; [|done]. destruct Hm as [Hf1 Hn1].
  specialize (Hk x a1 Hf1 ltac:(lia)). destruct (k x a1) as [[y|e] a2]; [|done].
  destruct Hk as [? ?]. split; [done|lia].
Qed.

(** The last statement of most handlers. *)
Lemma nonce_after a N :
  funds a → native a = N →
  match bump_nonce a with (Ok _, b) => funds b ∧ native b = N | (Err e, _) => vm_fault e end.
Proof.
  intros Hf <-. unfold bump_nonce. st_unfold. by destruct (checked_add _ _ _); simpl; [|apply vm_fault_vm].
Qed.

Lemma moves_nonce B : moves B 0 bump_nonce.
Proof. intros a Hf Hn. rewrite Z.add_0_r. by apply nonce_after. Qed.

Lemma moves_debit B amount : 0 ≤ amount → moves B (- amount) (debit amount).
Proof.
  intros Ha a (? & ? & ?) Hn. unfold debit. st_unfold.
  destruct (Z.leb_spec amount (balance a)); simpl; [|apply vm_fault_vm]. unfold funds, native in *. simpl. lia.
Qed.

Lemma moves_debit_nonce B amount : 0 ≤ amount → moves B (- amount) (_ ← debit amount; bump_nonce).
Proof.
  intros Ha. rewrite <- (Z.add_0_r (- amount)).
  apply moves_bind; [by apply moves_debit|intros; apply moves_nonce].
Qed.

Section Takes.
Context `{Host} `{RegistryCodec} `{Iteration} (T : Z).

Lemma takes_bind {A B} (m : ST VmStore Fault A) (k : A → ST VmStore Fault B) P T1 P' T2 :
  takes T m P T1 → (∀ a, P a → takes (T1 a) (k a) P' T2) → takes T (m ≫= k) P' T2.
Proof.
  intros Hm Hk st Hl. unfold mbind, st_bind. specialize (Hm st Hl).
  destruct (m st) as [[a|e] st1]; [|done]. destruct Hm as [HP Hl1]. by apply Hk.
Qed.

Lemma takes_keep {A B} (m : ST VmStore Fault A) (k : A → ST VmStore Fault B) P' T2 :
  keeps T m → (∀ a, takes T (k a) P' T2) → takes T (m ≫= k) P' T2.
Proof. intros Hm Hk. eapply takes_bind; [exact Hm|]. intros a _. apply Hk. Qed.

Lemma takes_ret {A} (a : A) (P : A → Prop) T' : P a → T' a = T → takes T (mret a) P T'.
Proof. intros HP HT st Hl. split; [done|]. by rewrite HT. Qed.

Lemma takes_fail {A} e P T' : vm_fault e → takes (A := A) T (st_fail e) P T'.
Proof. by intros ? st _. Qed.

Lemma takes_look {A} (f : VmStore → A) (P : A → Prop) :
  (∀ st, ledger_at T st → P (f st)) → takes T (look f) P (λ _, T).
Proof. intros HP st Hl. split; [by apply HP|done]. Qed.

Lemma takes_require c e : vm_fault e → takes T (st_require c e) (λ _, c = true) (λ _, T).
Proof. intros He st Hl. unfold st_require. destruct c; [by split|done]. Qed.

Lemma takes_some {A} (o : option A) e : vm_fault e → takes T (st_some o e) (λ a, o = Some a) (λ _, T).
Proof. intros He st Hl. unfold st_some. destruct o; [by split|done]. Qed.

Lemma takes_lift {E A} (f : E → Fault) (r : result A E) :
  (∀ e, vm_fault (f e)) → takes T (lift_result f r) (λ a, r = Ok a) (λ _, T).
Proof. intros He st Hl. unfold lift_result. destruct r; [by split|apply He]. Qed.

Lemma keeps_mono {A} (m : ST VmStore Fault A) P : takes T m P (λ _, T) → keeps T m.
Proof.
  intros Hm st Hl. specialize (Hm st Hl). destruct (m st) as [[a|e] st1]; [|done]. split; [done|apply Hm].
Qed.

Lemma keeps_ret {A} (a : A) : keeps T (mret a).
Proof. by apply takes_ret. Qed.

Lemma keeps_look {A} (f : VmStore → A) : keeps T (look f).
Proof. by apply takes_look. Qed.

Lemma keeps_require c e : vm_fault e → keeps T (st_require c e).
Proof. intros. by eapply keeps_mono, takes_require. Qed.

Lemma keeps_some {A} (o : option A) e : vm_fault e → keeps T (st_some o e).
Proof. intros. by eapply keeps_mono, takes_some. Qed.

Lemma keeps_lift {E A} (f : E → Fault) (r : result A E) : (∀ e, vm_fault (f e)) → keeps T (lift_result f r).
Proof. intros. by eapply keeps_mono, takes_lift. Qed.

Lemma keeps_modify f : (∀ st, ledger_at T st → ledger_at T (f st)) → keeps T (st_modify f).
Proof. intros Hf st Hl. split; [done|by apply Hf]. Qed.

Lemma keeps_map_err {A} (f : Fault → Fault) (m : ST VmStore Fault A) P T' :
  (∀ e, vm_fault e → vm_fault (f e)) → takes T m P T' → takes T (map_err f m) P T'.
Proof.
  intros Hf Hm st Hl. unfold map_err. specialize (Hm st Hl). destruct (m st) as [[a|e] st1]; [done|by apply Hf].
Qed.

Lemma keeps_registry {S E A} r (prj : AllRegs → S) put (f : E → Fault) (m : ST S E A) :
  r ≠ Store.OpenValidators → r ≠ Store.SlashAppeals → r ≠ Store.SampleServe → (∀ e, vm_fault (f e)) →
  keeps T (on_registry r prj put f m).
Proof.
  intros Hr1 Hr2 Hr3 Hf st Hl. unfold on_registry. destruct (m _) as [[a|e] s']; [|apply Hf].
  split; [done|by apply ledger_registry].
Qed.

Lemma keeps_pay from to amount : 0 ≤ amount → keeps T (pay from to amount).
Proof.
  intros Ha st Hl. unfold pay, map_err. pose proof (move_ledger T from to amount st Hl Ha) as Hm.
  destruct (move_native from to amount st) as [[] st1]; [done|apply vm_fault_vm].
Qed.

Lemma keeps_pay_if from to amount : keeps T (pay_if from to amount).
Proof. unfold pay_if. destruct (Z.ltb_spec 0 amount); [apply keeps_pay; lia|apply keeps_ret]. Qed.

Lemma takes_account {A} d id e (m : ST AccountState Fault A) :
  vm_fault e → moves T d m → takes T (with_account id e m) (λ _, True) (λ _, T + d).
Proof.
  intros He Hm st Hl. unfold with_account. destruct (get st id) as [a|] eqn:Ha; [|done].
  destruct (native_le T st id a Hl Ha) as [Hf Hn]. specialize (Hm a Hf ltac:(lia)).
  destruct (m a) as [[x|e'] a']; [|done]. split; [done|]. destruct Hm as [Hf' Hn'].
  eapply ledger_eq; [by apply (ledger_get_mut T id (λ _, a') a)|]. simpl. lia.
Qed.

End Takes.

(** ** Registries that hold amounts *)

Section Registries.
Context `{Host} `{RegistryCodec} `{Iteration} `{HexText} (T : Z).

(** Bonds: an operation on the validators that changes them by [d]. *)
Lemma takes_validators {A} (m : ST OpenValidatorRegistry OpenValidatorError A) (P : A → Prop) d :
  (∀ r, map_Forall (λ _ v, 0 ≤ vr_bond v) (records r) →
     match m r with
     | (Ok a, r') => P a ∧ map_Forall (λ _ v, 0 ≤ vr_bond v) (records r') ∧ bonds r' = bonds r + d a
     | (Err _, _) => True
     end) →
  takes T (on_validators m) P (λ a, T + d a).
Proof.
  intros Hm st Hl. unfold on_validators, on_registry. specialize (Hm (open_validators st) (lg_bonds T st Hl)).
  unfold open_validators in Hm. destruct (m _) as [[a|e] r']; [|apply vm_fault_vm].
  destruct Hm as (HP & Hb & Hsum). split; [done|].
  eapply ledger_eq; [by apply ledger_validators|]. unfold open_validators. simpl. lia.
Qed.

Lemma takes_register p height owner node_id cap :
  0 ≤ ov_bond p →
  takes T (on_validators (OpenReg.register_with_cap p height owner node_id cap)) (λ _, True)
    (λ _, T + ov_bond p).
Proof.
  intros Hp. apply (takes_validators _ _ (λ _, ov_bond p)). intros r Hr. unfold OpenReg.register_with_cap.
  destruct (height <? _); [done|]. destruct (is_anchor_param _ _); [done|]. st_unfold.
  case_bool_decide as Hnone; [done|]. apply eq_None_not_Some in Hnone.
  destruct (existsb _ _); [done|]. destruct (_ && _); [done|].
  split; [done|]. unfold bonds. simpl. rewrite map_sum_fresh by done. split; [by apply map_Forall_insert_2|simpl; lia].
Qed.

Lemma takes_deregister owner node_id height lock :
  takes T (on_validators (OpenReg.deregister_at owner node_id height lock)) (λ b, 0 ≤ b) (λ b, T - b).
Proof.
  apply (takes_validators _ _ (λ b, - b)). intros r Hr. unfold OpenReg.deregister_at. st_unfold.
  destruct (records r !! node_id) as [rec|] eqn:Hrec; [|done]. destruct (negb _); [done|].
  pose proof (Hr _ _ Hrec) as Hb. simpl in Hb.
  assert (map_Forall (λ _ v, 0 ≤ vr_bond v) (records (set_records r (delete node_id (records r)))) ∧
    bonds (set_records r (delete node_id (records r))) = bonds r + - vr_bond rec) as [Hdel Hsum].
  { unfold bonds. simpl. rewrite (map_sum_delete vr_bond node_id rec (records r) Hrec).
    split; [by apply map_Forall_delete|lia]. }
  destruct (vr_status rec); try done; [|by destruct (_ && _)].
  split; [done|]. unfold bonds. simpl. rewrite map_sum_insert, Hrec. simpl.
  split; [by apply map_Forall_insert_2|lia].
Qed.

Lemma keeps_unjail owner node_id height : keeps T (on_validators (OpenReg.unjail owner node_id height)).
Proof.
  assert (takes T (on_validators (OpenReg.unjail owner node_id height)) (λ _, True) (λ _, T + 0)) as Ht;
    [|by rewrite Z.add_0_r in Ht].
  apply (takes_validators _ _ (λ _, 0)). intros r Hr. unfold OpenReg.unjail. st_unfold.
  destruct (records r !! node_id) as [rec|] eqn:Hrec; [|done]. destruct (negb _); [done|].
  destruct (vr_status rec); try done. destruct (_ <=? height); [|done].
  pose proof (Hr _ _ Hrec) as Hb. simpl in Hb.
  split; [done|]. unfold bonds. simpl. rewrite map_sum_insert, Hrec. simpl.
  split; [by apply map_Forall_insert_2|lia].
Qed.

(** Slashes. *)
Definition amounts_ok (r : SlashAppealRegistry) : Prop := map_Forall (λ _ s, 0 ≤ sr_amount s) (slashes r).

Lemma keeps_appeals {A} (m : ST SlashAppealRegistry SlashAppealError A) :
  (∀ r, amounts_ok r → amounts_ok (m r).2) → keeps T (on_appeals m).
Proof.
  intros Hm st Hl. unfold on_appeals, on_registry. specialize (Hm (slash_appeals st) (lg_slashes T st Hl)).
  unfold slash_appeals in Hm. destruct (m _) as [[a|e] r']; [|apply vm_fault_vm].
  split; [done|by apply ledger_appeals].
Qed.

Lemma keeps_record id account amount reason height window :
  0 ≤ amount →
  keeps T (on_appeals (st_modify (Book.record_slash_with_id id account amount reason height window))).
Proof.
  intros Ha. apply keeps_appeals. intros r Hr. simpl. unfold Book.record_slash_with_id, amounts_ok in *.
  destruct (slashes r !! id) eqn:E; repeat case_match; simpl; try done; by apply map_Forall_insert_2.
Qed.

(** The operations that leave the slashes alone. *)
Lemma keeps_appeals_same {A} (m : ST SlashAppealRegistry SlashAppealError A) :
  (∀ r, slashes (m r).2 = slashes r) → keeps T (on_appeals m).
Proof. intros Hm. apply keeps_appeals. intros r Hr. unfold amounts_ok. by rewrite Hm. Qed.

Lemma keeps_submit slash_id evidence tip mx w pin :
  keeps T (on_appeals (Book.submit_appeal slash_id evidence tip mx w pin)).
Proof.
  apply keeps_appeals_same. intros r. unfold Book.submit_appeal. case_match; [done|]. st_unfold.
  destruct (slashes r !! slash_id); [|done]. by repeat (case_match; try done).
Qed.

Lemma keeps_gate appeal_id tip : keeps T (on_appeals (Book.gate_resolve_window appeal_id tip)).
Proof.
  apply keeps_appeals_same. intros r. unfold Book.gate_resolve_window. st_unfold.
  destruct (appeals r !! appeal_id); [|done]. by repeat (case_match; try done).
Qed.

Lemma finalize_amounts appeal_id slash_id approved r :
  amounts_ok r → amounts_ok (Book.finalize_appeal appeal_id slash_id approved r).2.
Proof.
  intros Hr. unfold Book.finalize_appeal. st_unfold. destruct (appeals r !! appeal_id); [|done]. simpl.
  destruct (slashes r !! slash_id) as [s|] eqn:Hs; [|done]. destruct approved; [|done].
  destruct (sr_reversed s); [done|]. apply map_Forall_insert_2; [|done]. apply (Hr _ _ Hs).
Qed.

Lemma keeps_cast appeal_id votes w : keeps T (on_appeals (Book.cast_resolve_votes_batch appeal_id votes w)).
Proof.
  apply keeps_appeals. intros r Hr. unfold Book.cast_resolve_votes_batch. st_unfold.
  destruct (appeals r !! appeal_id) as [a|]; [|done]. case_match; [done|].
  destruct (Book.insert_votes _ _) as [fresh m]. destruct fresh; simpl; [|done].
  set (r1 := set_appeals r _). assert (amounts_ok r1) as Hr1 by done.
  destruct (Book.weight_tallies _ _) as [[y n]|]; [|done].
  pose proof (finalize_amounts appeal_id (ap_slash_id a)) as Hf.
  repeat case_match; simplify_eq/=; try done;
    match goal with E : Book.finalize_appeal _ _ ?b _ = _ |- _ =>
      specialize (Hf b r1 Hr1); by rewrite E in Hf end.
Qed.

(** Challenges. *)
Definition penalties_ok (r : SampleServeChallengeRegistry) : Prop :=
  map_Forall (λ _ c, 0 ≤ ch_provider_penalty c) (challenges r).

Lemma takes_serve {A} (m : ST SampleServeChallengeRegistry SampleServeChallengeError A) (P : A → Prop) :
  (∀ r, penalties_ok r → match m r with (Ok a, r') => P a ∧ penalties_ok r' | (Err _, _) => True end) →
  takes T (on_serve m) P (λ _, T).
Proof.
  intros Hm st Hl. unfold on_serve, on_registry. specialize (Hm (sample_serve st) (lg_penalties T st Hl)).
  unfold sample_serve in Hm. destruct (m _) as [[a|e] r']; [|apply vm_fault_vm].
  split; [apply Hm|]. apply ledger_serve; [done|apply Hm].
Qed.

Lemma keeps_serve_modify f : (∀ r, penalties_ok r → penalties_ok (f r)) → keeps T (on_serve (st_modify f)).
Proof. intros Hf. apply takes_serve. intros r Hr. split; [done|by apply Hf]. Qed.

Lemma penalty_expired h c : ch_provider_penalty (Serve.expire_challenge h c) = ch_provider_penalty c.
Proof. unfold Serve.expire_challenge. by case_match. Qed.

Lemma penalties_expire h r : penalties_ok r → penalties_ok (Serve.take_newly_failed h r).2.
Proof.
  intros Hr k c Hc. simpl in Hc. apply lookup_fmap_Some in Hc as (c0 & <- & Hc0).
  rewrite penalty_expired. apply (Hr _ _ Hc0).
Qed.

Lemma takes_newly_failed h :
  takes T (on_serve (pure_st (Serve.take_newly_failed h))) (Forall (λ c, 0 ≤ ch_provider_penalty c)) (λ _, T).
Proof.
  apply takes_serve. intros r Hr. unfold pure_st. pose proof (penalties_expire h r Hr) as Hr'.
  destruct (Serve.take_newly_failed h r) as [l r'] eqn:E. split; [|done].
  unfold Serve.take_newly_failed in E. injection E as <- <-. apply Forall_forall. intros c Hc.
  apply list_elem_of_filter in Hc as [_ Hc]. apply list_elem_of_fmap in Hc as ([k c'] & -> & Hc).
  rewrite MarketLaws.btree_list_perm in Hc. apply elem_of_map_to_list in Hc. apply (Hr' _ _ Hc).
Qed.

Lemma keeps_challenge b i n p q h bond pen :
  0 ≤ pen → keeps T (on_serve (Serve.challenge b i n p q h bond pen)).
Proof.
  intros Hpen. apply takes_serve. intros r Hr. unfold Serve.challenge. st_unfold.
  pose proof (penalties_expire h r Hr) as Hr'. set (r1 := (Serve.take_newly_failed h r).2) in *.
  unfold Serve.open_serve_challenge_with_bond.
  destruct (Serve.validate_challenge_blob_sample_serve _ _ _ _); [|done]. set (c := mkChallenge _ _ _ _ _ _ _ _ _ _ _ _).
  assert (penalties_ok (Serve.set_challenges r1 (<[challenge_market_key c := c]> (challenges r1)))) as Hins.
  { by apply map_Forall_insert_2. }
  destruct (challenges r1 !! _); [destruct (bool_decide _)|destruct (_ <=? _)]; done.
Qed.

Lemma keeps_respond b i p q h s : keeps T (on_serve (Serve.respond b i p q h s)).
Proof.
  apply takes_serve. intros r Hr. unfold Serve.respond. st_unfold.
  pose proof (penalties_expire h r Hr) as Hr'. set (r1 := (Serve.take_newly_failed h r).2) in *.
  destruct (challenges r1 !! _) as [c|] eqn:Hc; [|done].
  destruct (Serve.validate_respond_blob_sample_serve _ _ _); [|done].
  split; [done|]. apply map_Forall_insert_2; [|done]. apply (Hr' _ _ Hc).
Qed.

Lemma keeps_mark_settled b i p q : keeps T (on_serve (st_modify (Serve.mark_bond_settled b i p q))).
Proof.
  apply keeps_serve_modify. intros r Hr k c. simpl. rewrite lookup_alter. case_decide.
  - intros (c0 & Hc0 & ->)%fmap_Some. apply (Hr _ _ Hc0).
  - apply Hr.
Qed.

Lemma keeps_set_slash_id b i p q id :
  keeps T (on_serve (st_modify (Serve.set_failed_serve_slash_id b i p q id))).
Proof.
  apply keeps_serve_modify. intros r Hr. unfold Serve.set_failed_serve_slash_id.
  destruct (challenges r !! _) as [c|] eqn:Hc; [|done]. destruct (ch_slash_id c); [done|].
  apply map_Forall_insert_2; [|done]. apply (Hr _ _ Hc).
Qed.

Lemma keeps_prune h : keeps T (on_serve (st_modify (Serve.prune_terminal_challenges h))).
Proof.
  apply keeps_serve_modify. intros r Hr k c Hc. simpl in Hc. apply map_lookup_filter_Some in Hc as [Hc _].
  apply (Hr _ _ Hc).
Qed.

End Registries.

(** The rent a transaction burns. *)
Definition rent_of `{TextOps} (unit : Z) (p : TransactionPayload) : Z :=
  match p with
  | NameRegister name _ _ years | NameRenew name years =>
      match normalize_name name with
      | Ok label => sat_mul u128_max (name_rent label years) unit
      | Err _ => 0
      end
  | _ => 0
  end.

Definition is_name_tx (p : TransactionPayload) : bool :=
  match p with
  | NameCommit _ | NameRegister _ _ _ _ | NameRenew _ _ | NameTransfer _ _ | NameSetTarget _ _
  | NameSetPrimary _ | NameRelease _ => true
  | _ => false
  end.

Create HintDb keeps.
#[export] Hint Resolve vm_fault_vm keeps_ret keeps_look keeps_require keeps_some keeps_lift keeps_pay_if
  keeps_unjail keeps_submit keeps_gate keeps_cast keeps_challenge keeps_respond keeps_mark_settled
  keeps_set_slash_id keeps_prune keeps_record : keeps.
#[export] Hint Extern 1 (keeps _ (st_fail _)) => apply takes_fail : keeps.
#[export] Hint Extern 1 (takes _ (st_fail _) _ _) => apply takes_fail : keeps.
#[export] Hint Extern 1 (keeps _ (vm_error _)) => apply takes_fail : keeps.
#[export] Hint Extern 1 (keeps _ (on_names _)) => apply keeps_registry : keeps.
#[export] Hint Extern 1 (keeps _ (on_offers _)) => apply keeps_registry : keeps.
#[export] Hint Extern 1 (keeps _ (on_governance _)) => apply keeps_registry : keeps.
#[export] Hint Extern 1 (keeps _ (on_engine _)) => apply keeps_registry : keeps.
#[export] Hint Extern 1 (keeps _ (blob_check _)) => apply keeps_lift : keeps.
#[export] Hint Extern 1 (keeps _ (require_blobs _ _)) => apply keeps_require : keeps.
#[export] Hint Extern 1 (keeps _ (check_chunk _ _ _ _)) => apply keeps_lift : keeps.
#[export] Hint Extern 1 (vm_fault (media _)) => apply vm_fault_vm : keeps.
#[export] Hint Extern 1 (keeps _ (on_appeals (Book.cast_resolve_vote _ _ _ _ _ _))) => apply keeps_cast : keeps.
#[export] Hint Extern 1 (_ ≠ _ :> RegId) => discriminate : keeps.

(** Follows a computation's binds and branches. *)
Ltac keeping :=
  lazymatch goal with
  | |- takes ?T ?m (λ _, True) (λ _, ?T) => change (keeps T m); keeping
  | |- keeps _ (mbind _ _) => apply takes_keep; [keeping|intros ?; keeping]
  | |- keeps _ (match ?x with _ => _ end) => destruct x; keeping
  | _ => first [solve [auto with keeps]|progress cbv beta zeta; keeping|idtac]
  end.

Section Handlers.
Context `{Hh : Host} `{!HostDigest Hh} `{Crypto} `{TextOps} `{HexText} `{RegistryCodec} `{Iteration}.
Context (pins : HostPins) (vm : VmConfig) (signing_chain_id : option Z) (tx : Transaction).
Context (Hcfg : config_ok pins vm) (Htx : tx_ok tx) (T : Z) (HT : T < u128_max).

(** ** Accounts *)

Lemma takes_sender {A} d (m : ST AccountState Fault A) :
  moves T d m → takes T (with_sender tx m) (λ _, True) (λ _, T + d).
Proof. apply takes_account. apply vm_fault_vm. Qed.

Lemma keeps_sender {A} (m : ST AccountState Fault A) : moves T 0 m → keeps T (with_sender tx m).
Proof. intros Hm. apply takes_sender in Hm. by rewrite Z.add_0_r in Hm. Qed.

Lemma keeps_nonce : keeps T (bump_sender_nonce tx).
Proof. apply keeps_sender, moves_nonce. Qed.

Hint Resolve keeps_nonce : keeps.

Lemma credit_or_create_ledger T' amount to st :
  ledger_at T' st → 0 ≤ amount → T' + amount = T → ledger_at T (credit_or_create to amount st).
Proof.
  intros Hl Ha HT'. unfold credit_or_create. destruct (get st to) as [a|] eqn:E.
  - destruct (native_le T' st to a Hl E) as [(? & ? & ?) ?]. unfold native in *.
    eapply ledger_eq; [eapply ledger_get_mut; [done|done|]|]; unfold funds, native; simpl; unfold_sat; lia.
  - eapply ledger_eq; [by eapply ledger_insert; [done|done|unfold funds; simpl; lia]|].
    unfold native. simpl. lia.
Qed.

(** A debit, then the matching credit. *)
Lemma keeps_debit_credit {A B} (m : ST AccountState Fault A) amount to (k : ST VmStore Fault B) :
  0 ≤ amount → moves T (- amount) m → keeps T k →
  keeps T (_ ← with_sender tx m; _ ← st_modify (credit_or_create to amount); k).
Proof.
  intros Ha Hm Hk. eapply takes_bind; [by apply takes_sender|]. intros x _. simpl.
  eapply (takes_bind _ _ _ (λ _, True) (λ _, T)); [|intros y _; exact Hk].
  intros st Hl. split; [done|]. eapply credit_or_create_ledger; [exact Hl|done|lia].
Qed.

(** ** Staking *)

Lemma unit_pos d : 0 < denom_unit d.
Proof. by destruct d. Qed.

Lemma scaled_nonneg d z : 0 ≤ z → 0 ≤ sat_mul u128_max z (denom_unit d).
Proof. intros Hz. pose proof (unit_pos d). unfold sat_mul. apply Z.min_glb; [done|nia]. Qed.

Lemma keeps_bond amount : 0 ≤ amount → keeps T (execute_bond tx amount).
Proof.
  intros Ha. unfold execute_bond. keeping. apply keeps_sender. intros a (? & ? & ?) Hn. unfold debit. st_unfold.
  destruct (Z.leb_spec amount (balance a)); simpl; [|apply vm_fault_vm].
  apply nonce_after; unfold native, funds in *; simpl; unfold_sat; lia.
Qed.

Lemma keeps_unbond amount height : 0 ≤ amount → keeps T (execute_unbond tx amount height).
Proof.
  intros Ha. unfold execute_unbond. keeping. apply keeps_sender. intros a (? & ? & ?) Hn. st_unfold.
  destruct (Z.leb_spec amount (stake a)); simpl; [|apply vm_fault_vm].
  apply nonce_after; unfold native, funds in *; simpl; unfold_sat; lia.
Qed.

Lemma keeps_claim_unbond height : keeps T (execute_claim_unbond tx height).
Proof.
  unfold execute_claim_unbond. keeping. apply keeps_sender. intros a (? & ? & ?) Hn. st_unfold.
  destruct (pending_unbond a =? 0); simpl; [apply vm_fault_vm|].
  destruct (_ <=? height); simpl; [|apply vm_fault_vm].
  apply nonce_after; unfold native, funds in *; simpl; unfold_sat; lia.
Qed.

Lemma keeps_transfer to amount : 0 ≤ amount → keeps T (transfer_arm tx to amount).
Proof.
  intros Ha. unfold transfer_arm. apply keeps_debit_credit; [done|by apply moves_debit_nonce|apply keeps_ret].
Qed.

Lemma takes_params height :
  takes T (open_validator_params_at pins height) (λ p, 0 ≤ ov_bond p) (λ _, T).
Proof.
  unfold open_validator_params_at. eapply takes_bind; [apply takes_some, vm_fault_vm|]. intros p Hp.
  apply takes_keep; [auto with keeps|]. intros _. apply takes_ret; [|done]. by apply Hcfg.
Qed.

Lemma keeps_validator_register node_id sig height :
  keeps T (execute_validator_register pins vm tx node_id sig height).
Proof.
  unfold execute_validator_register. eapply takes_bind; [apply takes_params|]. intros p Hp. simpl.
  set (p' := OpenLaws.with_bond p _). assert (0 ≤ ov_bond p') as Hp'.
  { simpl. unfold denom_scale. by apply scaled_nonneg. }
  apply takes_keep; [auto with keeps|]. intros _. apply takes_keep; [auto with keeps|]. intros bal.
  apply takes_keep; [auto with keeps|]. intros _.
  eapply takes_bind; [by apply takes_register|]. intros x _. simpl.
  eapply takes_bind; [apply takes_account; [apply vm_fault_vm|by apply moves_debit_nonce]|].
  intros y _. apply takes_ret; [done|lia].
Qed.

Lemma keeps_validator_deregister node_id height :
  keeps T (execute_validator_deregister pins vm tx node_id height).
Proof.
  unfold execute_validator_deregister. eapply takes_bind; [apply takes_params|]. intros p _. simpl.
  eapply takes_bind; [apply takes_deregister|]. intros refund Hr. simpl.
  eapply takes_bind; [apply takes_account with (d := refund); [apply vm_fault_vm|]|intros x _; apply takes_ret; [done|lia]].
  intros a (? & ? & ?) Hn. st_unfold. destruct (Z.ltb_spec 0 refund); simpl;
    apply nonce_after; unfold native, funds in *; simpl; unfold_sat; lia.
Qed.

Lemma keeps_validator_unjail node_id height : keeps T (execute_validator_unjail pins tx node_id height).
Proof.
  unfold execute_validator_unjail. eapply takes_bind; [apply takes_params|]. intros p _. keeping.
Qed.

(** ** Names *)

Lemma name_rent_nonneg l years : 1 ≤ years → 0 ≤ name_rent l years.
Proof.
  intros Hy. unfold name_rent. assert (0 ≤ name_rent_per_year l); [|nia].
  unfold name_rent_per_year. repeat case_match; lia.
Qed.

Lemma rent_nonneg l years unit : 0 < unit → 1 ≤ years → 0 ≤ sat_mul u128_max (name_rent l years) unit.
Proof.
  intros Hu Hy. pose proof (name_rent_nonneg l years Hy). unfold sat_mul. apply Z.min_glb; [done|nia].
Qed.

Lemma takes_label name : takes T (name_label name) (λ l, normalize_name name = Ok l) (λ _, T).
Proof. apply takes_lift. intros e. apply vm_fault_vm. Qed.

Lemma keeps_label name : keeps T (name_label name).
Proof. eapply keeps_mono, takes_label. Qed.

(** The calls that owe no rent. *)
Lemma takes_free {A B} (m : ST VmStore Fault A) (k : A → ST VmStore Fault B) :
  keeps T m → (∀ a, keeps T (k a)) →
  takes T (a ← m; _ ← k a; mret 0) (λ r, r = 0 ∧ 0 ≤ r) (λ _, T).
Proof.
  intros Hm Hk. apply takes_keep; [done|]. intros a. apply takes_keep; [done|]. intros _. by apply takes_ret.
Qed.

(** A call of the name registry. *)
Lemma takes_names {A} (m : ST NameRegistry NameRegistryError A) (P : A → Prop) :
  (∀ r a r', m r = (Ok a, r') → P a) → takes T (on_names m) P (λ _, T).
Proof.
  intros Hm st Hl. unfold on_names, on_registry. destruct (m _) as [[a|e] r'] eqn:E; [|apply vm_fault_vm].
  split; [by eapply Hm|by apply ledger_registry].
Qed.

Lemma takes_register_rent p height me l salt target years keyed :
  takes T (on_names (NameReg.register_keyed p height me l salt target years keyed))
    (λ r, r = name_rent l years ∧ 1 ≤ years) (λ _, T).
Proof.
  apply takes_names. intros r a r' Hr. unfold NameReg.register_keyed in Hr. st_unfold.
  destruct (NameReg.check_register_keyed _ _ _ _ _ _ _ _) as [[rent key]|e] eqn:Ec; [|done].
  apply NameLaws.check_register_cases in Ec as (_ & Hy & -> & _). simplify_eq/=. split; [done|lia].
Qed.

Lemma takes_renew_rent p height me l years :
  takes T (on_names (NameReg.renew p height me l years))
    (λ r, r = name_rent l years ∧ 1 ≤ years) (λ _, T).
Proof.
  apply takes_names. intros r a r' Hr. unfold NameReg.renew in Hr.
  destruct (NameReg.years_ok years) eqn:Hy; [|done]. simpl in Hr.
  apply andb_prop in Hy as [Hy%Z.leb_le _]. unfold mbind, st_bind in Hr.
  destruct (NameReg.owned_mut _ _ _ _ _ _) as [[rec|e] r1]; [|done].
  destruct (_ <? _); [done|]. by injection Hr as <- _.
Qed.

Lemma takes_name_call p height keyed unit payload :
  0 < unit → is_name_tx payload = true →
  takes T (name_call p height (tx_sender tx) keyed unit payload)
    (λ r, r = rent_of unit payload ∧ 0 ≤ r) (λ _, T).
Proof.
  intros Hu Hp. unfold name_call. apply takes_keep; [auto with keeps|]. intros bal.
  destruct payload; try discriminate Hp; simpl.
  - apply takes_keep; [auto with keeps|]. intros _. by apply takes_ret.
  - eapply takes_bind; [apply takes_label|]. intros l ->. apply takes_keep; [auto with keeps|]. intros reg.
    apply takes_keep; [auto with keeps|]. intros [rent key]. apply takes_keep; [auto with keeps|]. intros _.
    eapply takes_bind; [apply takes_register_rent|]. intros r [-> Hy]. apply takes_ret; [|done].
    split; [done|]. by apply rent_nonneg.
  - eapply takes_bind; [apply takes_label|]. intros l ->.
    eapply takes_bind; [apply takes_renew_rent|]. intros r [-> Hy]. apply takes_keep; [auto with keeps|].
    intros _. apply takes_ret; [|done]. split; [done|]. by apply rent_nonneg.
  - apply takes_free; [apply keeps_label|intros; auto with keeps].
  - apply takes_free; [apply keeps_label|intros; auto with keeps].
  - apply takes_free; [|intros; auto with keeps]. pose proof keeps_label. keeping.
  - apply takes_free; [apply keeps_label|intros; auto with keeps].
Qed.

Lemma takes_name_tx height keyed unit :
  0 < unit → is_name_tx (tx_payload tx) = true →
  takes T (execute_name_tx pins tx height keyed unit) (λ _, True) (λ _, T - rent_of unit (tx_payload tx)).
Proof.
  intros Hu Hp. unfold execute_name_tx. apply takes_keep; [unfold name_params_at; keeping|]. intros p.
  eapply takes_bind; [by apply takes_name_call|]. intros rent [-> Hr]. simpl.
  eapply takes_bind; [by apply takes_sender, moves_debit_nonce|]. intros x _. apply takes_ret; [done|lia].
Qed.

(** ** Contracts *)

Lemma takes_run i caller contract calldata ctx :
  frame_ok i → is_word caller → is_word contract → is_bytes calldata → ctx_ok ctx →
  takes T (run_contract vm i caller contract calldata ctx) (λ gi, frame_ok gi.2 ∧ 0 ≤ gi.1) (λ _, T).
Proof.
  intros Hi Hca Hco Hcd Hctx st Hl. unfold run_contract, run_with_qa, run_nested.
  pose proof (fo_gas i Hi) as [Hg _].
  pose proof (run_frame_ok (H0 := ledger_inv T) _ _ i caller contract calldata 0 ctx st
    (run_loop_ok (H0 := ledger_inv T) (gas_fuel i) (qa_at vm ctx))
    Hi Hl Hca Hco Hcd ltac:(unfold MAX_CALL_DEPTH; lia) Hctx ltac:(unfold gas_fuel; lia)) as Hr.
  destruct (run_frame _ _ _ _ _ _ _ _) as [[g|e] [i' st']]; [|apply Hr].
  destruct Hr as [-> [Hf Hs _ _ _]]. split; [|done]. split; [done|]. apply (fo_gas _ Hf).
Qed.

Lemma takes_code contract :
  takes T (look (λ st, Store.get_contract_code st contract)) (λ o, ∀ c, o = Some c → is_bytes c) (λ _, T).
Proof. apply takes_look. intros st Hl c Hc. apply (lg_code T st Hl _ _ Hc). Qed.

Lemma call_frame_ok c limit value : is_bytes c → 0 ≤ limit < u64_max →
  frame_ok (set_call_value (new_interpreter c limit) value).
Proof. intros Hc Hl. by destruct (fo_new c limit Hc Hl). Qed.

Lemma keeps_contract_call contract calldata value ctx :
  is_word contract → is_bytes calldata → ctx_ok ctx →
  takes T (execute_contract_call vm tx contract calldata value ctx) gas_ok (λ _, T).
Proof.
  intros Hco Hcd Hctx. unfold execute_contract_call. apply takes_keep; [auto with keeps|]. intros _.
  eapply takes_bind; [apply takes_code|]. intros o Ho.
  eapply takes_bind; [apply takes_some, vm_fault_vm|]. intros c ->.
  apply takes_keep; [auto with keeps|]. intros _.
  eapply takes_bind; [apply takes_run; try done; [apply call_frame_ok; [by apply Ho|done]|apply Htx]|].
  intros [g i] [_ Hg]. by apply takes_ret.
Qed.

Definition deploy_ok (d : bytes * option string * option bytes * option string * option string) : Prop :=
  is_bytes d.1.1.1.1.

Lemma deploy_payload_ok p d : payload_ok p → as_contract_deploy p = Some d → deploy_ok d.
Proof. destruct p; simpl; intros Hp [= <-]; done. Qed.

Lemma takes_init dtx addr d ctx :
  deploy_ok d → is_word (tx_sender dtx) → is_word addr → ctx_ok ctx →
  takes T (run_init vm dtx addr d ctx) (λ r, is_bytes r.1.1 ∧ 0 ≤ r.1.2) (λ _, T).
Proof.
  destruct d as [[[[bytecode ?] ?] ?] ?]. intros Hd Hs Ha Hctx. unfold run_init.
  assert (is_bytes (contract_deploy_init_body bytecode)) as Hbody.
  { unfold contract_deploy_init_body. case_match; [by apply Forall_drop|done]. }
  eapply takes_bind; [apply takes_run; try done; [by apply fo_new|constructor]|]. intros [g i] [Hi Hg].
  apply takes_keep.
  - destruct (vm_hardening ctx); [|auto with keeps]. intros st Hl. unfold lift_result, id.
    destruct (qa_check_init_runtime _ _ _ _ _ _) as [[]|e] eqn:Hq; [done|by eapply init_check_fault].
  - intros _. apply takes_ret; [|done]. split; [apply Hi|done].
Qed.

Lemma keeps_store_code dtx addr d ctx :
  deploy_ok d → is_word (tx_sender dtx) → is_word addr → ctx_ok ctx →
  takes T (store_code vm dtx addr d ctx) (λ r, 0 ≤ r.1) (λ _, T).
Proof.
  intros Hd Hs Ha Hctx. eapply (takes_bind _ _ _ (λ r, is_bytes r.1.1 ∧ 0 ≤ r.1.2) (λ _, T)).
  - destruct (contract_deploy_uses_init_code _); [by apply takes_init|by apply takes_ret].
  - intros [[stored g] ls] [Hst Hg]. apply takes_keep; [|intros; by apply takes_ret]. apply keeps_modify.
    intros st' Hl. by apply ledger_code.
Qed.

(** The code is installed at an address that was free. *)
Lemma keeps_install dtx addr d ctx :
  deploy_ok d → is_word (tx_sender dtx) → is_word addr → ctx_ok ctx → ∀ st,
  ledger_at T st → address_in_use st addr = false →
  match install_code vm dtx addr d ctx st with
  | (Ok r, st') => 0 ≤ r.1 ∧ ledger_at T st'
  | (Err e, _) => vm_fault e
  end.
Proof.
  intros Hd Hs Ha Hctx st Hl Hu. unfold install_code.
  pose proof (keeps_store_code dtx addr d ctx Hd Hs Ha Hctx _ (new_account_ledger T addr st Hl Hu)) as Hk.
  change ((_ ← st_modify (insert_account addr AccountState_default); store_code vm dtx addr d ctx) st)
    with (store_code vm dtx addr d ctx (insert_account addr AccountState_default st)).
  destruct (store_code _ _ _ _ _ _) as [[a|e] st']; [apply Hk|done].
Qed.

Lemma deploy_address_word dtx bytecode : is_word (deploy_address dtx bytecode).
Proof. unfold deploy_address. case_match; apply blake3_word. Qed.

Lemma keeps_install_deploy dtx ctx :
  tx_ok dtx → ctx_ok ctx → takes T (install_contract_from_deploy_tx vm dtx ctx) (λ g, 0 ≤ g) (λ _, T).
Proof.
  intros [Hs Hp] Hctx. unfold install_contract_from_deploy_tx.
  destruct (as_contract_deploy _) as [d|] eqn:Hd; [|apply takes_fail, vm_fault_vm].
  intros st Hl. st_unfold. unfold look. set (addr := deploy_address _ _).
  destruct (address_in_use st addr) eqn:Hu; simpl; [apply vm_fault_vm|].
  pose proof (keeps_install dtx addr d ctx (deploy_payload_ok _ _ Hp Hd) Hs (deploy_address_word _ _) Hctx
    st Hl Hu) as Hi.
  by destruct (install_code _ _ _ _ _ _) as [[[g ls]|e] st1].
Qed.

Lemma keeps_register_unsure height : takes T (register_unsure_deploy vm tx height) gas_ok (λ _, T).
Proof.
  apply takes_yields; [|unfold register_unsure_deploy; yielding].
  unfold register_unsure_deploy. keeping. apply keeps_modify. intros st Hl.
  eapply ledger_qa; [done|apply contents_qa_insert|]. apply map_Forall_insert_2; [exact Htx|apply Hl].
Qed.

Lemma gas_added a g : 0 ≤ a → 0 ≤ g → 0 ≤ sat_add u64_max a g.
Proof. unfold sat_add, u64_max. lia. Qed.

Lemma keeps_install_new (fee : Z → Z) d ctx :
  deploy_ok d → ctx_ok ctx → (∀ g, 0 ≤ g → 0 ≤ fee g) →
  takes T (used ← look (λ st, address_in_use st (deploy_address tx d.1.1.1.1));
           _ ← st_require (negb used) (Vm DeploymentAddressInUse);
           _ ← bump_sender_nonce tx;
           '(g, ls) ← install_code vm tx (deploy_address tx d.1.1.1.1) d ctx;
           mret (mkVmResult (fee g) [] ls)) gas_ok (λ _, T).
Proof.
  intros Hd Hctx Hfee st Hl. pose proof (keeps_nonce st Hl) as Hb.
  pose proof (bump_keeps_use tx (deploy_address tx d.1.1.1.1) st) as Hfree.
  set (addr := deploy_address _ _) in *. unfold look. unfold mbind, st_bind.
  destruct (address_in_use st addr) eqn:Hu; simpl; [apply vm_fault_vm|].
  destruct (bump_sender_nonce tx st) as [[x|e] st1]; simpl in *; [|done]. destruct Hb as [_ Hl1].
  pose proof (keeps_install tx addr d ctx Hd (proj1 Htx) (deploy_address_word _ _) Hctx st1 Hl1
    (Hfree x st1 eq_refl eq_refl)) as Hi.
  destruct (install_code _ _ _ _ _ _) as [[[g ls]|e] st2]; [|done]. split; [|apply Hi]. apply Hfee, Hi.
Qed.

Lemma keeps_contract_deploy ctx : ctx_ok ctx → takes T (execute_contract_deploy vm tx ctx) gas_ok (λ _, T).
Proof.
  intros Hctx. unfold execute_contract_deploy. destruct Htx as [_ Hp].
  destruct (as_contract_deploy _) as [d|] eqn:Hd; [|apply takes_fail, vm_fault_vm].
  pose proof (keeps_install_new (λ g, if contract_deploy_uses_init_code d.1.1.1.1
    then sat_add u64_max GAS_PER_CONTRACT_DEPLOY g else GAS_PER_CONTRACT_DEPLOY) d ctx
    (deploy_payload_ok _ _ Hp Hd) Hctx ltac:(intros g Hg; case_match; [by apply gas_added|done])) as Hi.
  pose proof keeps_register_unsure. destruct d as [[[[bytecode ?] ?] ?] ?]. cbv zeta.
  destruct (check_contract_deploy_full_with_metadata _ _ _ _ _ _); [done|apply takes_fail, vm_fault_vm|].
  destruct (public_membership _); [done|].
  destruct (qa_canonical_active _ _); [apply takes_fail, vm_fault_vm|done].
Qed.

(** ** Votes on a pending deploy *)

Lemma rewards_ledger voters each st :
  ledger_at T st → 0 ≤ each → ledger_at T (pay_qa_counted_voters voters each st).2.
Proof.
  intros Hl He. pose proof (supply_le T st Hl).
  destruct (pay_qa_counted_voters voters each st) as [paid st'] eqn:Hp. simpl.
  destruct (qa_rewards_from_treasury voters each st paid st') as (Hf & Hs & Ho & _);
    [apply Hl|lia|done|done|].
  eapply ledger_eq; [eapply ledger_only_funds; [done..|]|]; [by rewrite Hs, Z.add_0_r|lia].
Qed.

Lemma keeps_qa_mut s f : (∀ r, qp_tx (f r) = qp_tx r) → keeps T (st_modify (qa_pending_mut s f)).
Proof.
  intros Hf. apply keeps_modify. intros st Hl. eapply ledger_qa; [done|apply contents_qa_mut|].
  intros k r. rewrite lookup_alter. case_decide; [|apply Hl].
  intros (r0 & Hr0 & ->)%fmap_Some. rewrite Hf. apply (lg_pending T st Hl _ _ Hr0).
Qed.

Lemma keeps_qa_remove s : keeps T (st_modify (remove_qa_pending s)).
Proof.
  apply keeps_modify. intros st Hl. eapply ledger_qa; [done|apply contents_qa_remove|].
  apply map_Forall_delete, Hl.
Qed.

Lemma keeps_qa_pool_vote subject vote ctx : ctx_ok ctx → takes T (execute_qa_pool_vote vm tx subject vote ctx) gas_ok (λ _, T).
Proof.
  intros Hctx. unfold execute_qa_pool_vote.
  eapply (takes_bind _ _ _ (λ o, ∀ r, o = Some r → tx_ok (qp_tx r)) (λ _, T)).
  { apply takes_look. intros st Hl r Hr. apply (lg_pending T st Hl _ _ Hr). }
  intros o Ho. eapply takes_bind; [apply takes_some, vm_fault_vm|]. intros rec ->.
  specialize (Ho rec eq_refl). cbv zeta. apply takes_keep; [auto with keeps|]. intros voter_stake.
  apply takes_keep; [auto with keeps|]. intros _. apply takes_keep; [auto with keeps|]. intros _.
  apply takes_keep; [by apply keeps_qa_mut|]. intros _.
  pose proof (keeps_install_deploy (qp_tx rec) ctx Ho Hctx) as Hinst. pose proof keeps_qa_remove.
  assert (∀ l, keeps T (st_modify (qa_pending_mut subject (mark_rewarded l)))).
  { intros l. by apply keeps_qa_mut. }
  assert (∀ l, keeps T (st_modify (λ st, (pay_qa_counted_voters l (sat_mul u128_max
    (reward_per_counted_vote (qa_pool_config vm)) (denom_unit (denomination_at vm (block_height ctx)))) st).2))).
  { intros l. apply keeps_modify. intros st Hl. apply rewards_ledger; [done|]. apply scaled_nonneg, Hcfg. }
  change (qp_tx (add_qa_vote (tx_sender tx) vote rec)) with (qp_tx rec).
  unfold finish_qa_vote. destruct (quorum_decision _ _ _); [by apply takes_ret|..];
    do 3 (apply takes_keep; [auto with keeps|intros _]); [|by apply takes_ret].
  eapply takes_bind; [exact Hinst|]. intros g Hg. apply takes_ret; [|done]. by apply gas_added.
Qed.

(** ** Batches *)

Lemma step_err_fault index e : vm_fault e → vm_fault (step_err index e).
Proof. intros [v ->]. apply vm_fault_vm. Qed.

Hint Resolve step_err_fault : keeps.

(** The budget left for the contract calls of a batch. *)
Definition budget_ok (acc : BatchAcc) : Prop := 0 ≤ ba_vm_budget acc < u64_max ∧ 0 ≤ ba_gas_used acc.

Lemma takes_batch_call ctx index contract calldata value acc :
  is_word contract → is_bytes calldata → (∀ v, value = Some v → in_u128 v) → ctx_ok ctx → budget_ok acc →
  takes T (batch_contract_call vm tx ctx index contract calldata value acc) budget_ok (λ _, T).
Proof.
  intros Hco Hcd Hv Hctx Hacc. unfold batch_contract_call.
  eapply takes_bind; [apply takes_code|]. intros o Ho.
  eapply takes_bind; [apply takes_some; auto with keeps|]. intros c ->.
  apply takes_keep.
  { destruct value as [v|]; [|auto with keeps]. apply keeps_map_err; [auto with keeps|].
    apply keeps_pay. by apply Hv. }
  intros _. eapply takes_bind.
  { apply keeps_map_err; [auto with keeps|]. apply takes_run; try done; [apply call_frame_ok; [by apply Ho|apply Hacc]|apply Htx]. }
  intros [g i] [_ Hg]. apply takes_ret; [|done]. unfold budget_ok in *. simpl in *. destruct Hacc.
  split; [unfold_sat; lia|]. by repeat apply gas_added.
Qed.

Lemma takes_batch_step ctx index call acc :
  batch_call_ok call → ctx_ok ctx → budget_ok acc →
  takes T (batch_step vm tx ctx index call acc) budget_ok (λ _, T).
Proof.
  intros Hcall Hctx Hacc. destruct call as [to amount|contract calldata|contract calldata value]; simpl in *.
  - destruct Hacc as [Hacc Hg]. eapply takes_bind; [apply (takes_sender (- amount))|].
    + intros a Ha Hn. pose proof (moves_debit T amount Hcall a Ha Hn) as Hm. unfold map_err.
      destruct (debit amount a) as [[x|e] a']; [done|by apply step_err_fault].
    + intros x _. eapply (takes_bind _ _ _ (λ _, True) (λ _, T)); [|intros y _; apply takes_ret; [split; [done|by apply gas_added]|done]].
      intros st Hl. split; [done|]. eapply credit_or_create_ledger; [exact Hl|done|lia].
  - apply takes_batch_call; try done; apply Hcall.
  - apply takes_keep; [auto with keeps|]. intros _. destruct Hcall as (? & ? & Hv).
    apply takes_batch_call; try done. by intros v [= <-].
Qed.

Lemma takes_batch_steps ctx calls index acc :
  Forall batch_call_ok calls → ctx_ok ctx → budget_ok acc →
  takes T (batch_steps vm tx ctx index calls acc) budget_ok (λ _, T).
Proof.
  intros Hcalls Hctx. revert index acc. induction Hcalls as [|c calls Hc _ IH]; intros index acc Hacc; simpl.
  - by apply takes_ret.
  - eapply takes_bind; [by apply takes_batch_step|]. intros acc' Hacc'. by apply IH.
Qed.

Lemma keeps_batch calls ctx : Forall batch_call_ok calls → ctx_ok ctx →
  takes T (execute_batch vm tx calls ctx) gas_ok (λ _, T).
Proof.
  intros Hcalls Hctx. unfold execute_batch. apply takes_keep; [auto with keeps|]. intros _.
  apply takes_keep; [auto with keeps|]. intros _. eapply takes_bind; [by apply takes_batch_steps|].
  intros acc [_ Hg]. by apply takes_ret.
Qed.

(** ** Media blobs *)

Lemma keeps_settle_failed height l :
  Forall (λ c, 0 ≤ ch_provider_penalty c) l → keeps T (settle_failed_challenges height l).
Proof.
  induction 1 as [|c l Hc _ IH]; simpl; [auto with keeps|]. unfold settle_failed_challenge. keeping.
Qed.

Lemma keeps_appeals_modify f : (∀ r, slashes (f r) = slashes r) → keeps T (on_appeals (st_modify f)).
Proof. intros Hf. by apply keeps_appeals_same. Qed.

Hint Extern 2 (keeps _ (on_appeals (st_modify _))) => apply keeps_appeals_modify; done : keeps.

Lemma keeps_settle_expired height : keeps T (settle_expired_serve_challenges height).
Proof. eapply takes_bind; [apply takes_newly_failed|]. intros l Hl. by apply keeps_settle_failed. Qed.

Lemma keeps_housekeeping height : keeps T (apply_media_blob_block_housekeeping height).
Proof. pose proof keeps_settle_expired. unfold apply_media_blob_block_housekeeping. keeping. Qed.

Lemma keeps_refund_offers l : keeps T (refund_offers l).
Proof. induction l; simpl; keeping. Qed.

Lemma keeps_refund_expired height : keeps T (refund_expired_sample_offers height).
Proof. pose proof keeps_refund_offers. unfold refund_expired_sample_offers. keeping. Qed.

Hint Resolve keeps_housekeeping keeps_refund_expired : keeps.

Lemma keeps_put_blob r ct data height : keeps T (execute_put_blob vm tx r ct data height).
Proof. unfold execute_put_blob. keeping. Qed.

Lemma keeps_announce b size r ct height : keeps T (execute_blob_announce vm tx b size r ct height).
Proof. unfold execute_blob_announce. keeping. Qed.

Lemma keeps_acl b height : keeps T (execute_blob_download_acl_tx vm tx b height).
Proof. unfold execute_blob_download_acl_tx. keeping. Qed.

Lemma keeps_renew_pin b size n height : keeps T (execute_renew_media_blob_pin vm tx b size n height).
Proof. unfold execute_renew_media_blob_pin. keeping. Qed.

Lemma keeps_pay_sample b i n height : keeps T (execute_pay_blob_sample vm tx b i n height).
Proof. unfold execute_pay_blob_sample. keeping. Qed.

Lemma keeps_register_offer b i n ask e height : keeps T (execute_register_blob_sample_offer vm tx b i n ask e height).
Proof. unfold execute_register_blob_sample_offer. keeping. Qed.

Lemma keeps_settle_match b i n p height : keeps T (execute_settle_blob_sample_match vm tx b i n p height).
Proof. unfold execute_settle_blob_sample_match. keeping. Qed.

Lemma keeps_cancel_offer b i height : keeps T (execute_cancel_blob_sample_offer vm tx b i height).
Proof. unfold execute_cancel_blob_sample_offer. keeping. Qed.

Lemma keeps_respond_serve b i n c ch root sib height : keeps T (execute_respond_blob_sample_serve vm tx b i n c ch root sib height).
Proof. unfold execute_respond_blob_sample_serve. keeping. Qed.

Lemma keeps_challenge_serve b i n p height : keeps T (execute_challenge_blob_sample_serve vm tx b i n p height).
Proof. unfold execute_challenge_blob_sample_serve. keeping. by apply keeps_challenge. Qed.

(** ** Equivocation, governance and appeals *)

Lemma takes_slash v slash_id :
  takes T (pure_st (slash_equivocation_stake v slash_id)) (λ amount, 0 ≤ amount) (λ _, T).
Proof.
  intros st Hl. pose proof (supply_le T st Hl). unfold pure_st, slash_equivocation_stake.
  destruct (slash_stake _ v slash_id st) as [amount st'] eqn:Hs.
  apply slash_supply in Hs as (Hf & Hs & Ho & Ha); [|apply Hl|lia|unfold EQUIVOCATION_SLASH_BPS; lia].
  split; [lia|]. eapply ledger_eq; [eapply ledger_only_funds; [done..|]|]; [by rewrite Hs, Z.add_0_r|lia].
Qed.

Lemma keeps_equivocation e height : keeps T (execute_report_equivocation vm tx e height).
Proof.
  unfold execute_report_equivocation. do 3 (apply takes_keep; [auto with keeps|intros ?]).
  destruct a1 as [s|]; [keeping|]. apply takes_keep; [auto with keeps|]. intros slash_id.
  eapply takes_bind; [apply takes_slash|]. intros burned Hb. keeping.
Qed.

Lemma keeps_propose key value height now : keeps T (execute_governance_propose vm tx key value height now).
Proof. unfold execute_governance_propose, require_governance_consensus_active. keeping. Qed.

Lemma keeps_vote p approve height : keeps T (execute_governance_vote vm tx p approve height).
Proof. unfold execute_governance_vote, require_governance_consensus_active. keeping. Qed.

Lemma keeps_advance p height now : keeps T (execute_governance_advance_cooling vm tx p height now).
Proof. unfold execute_governance_advance_cooling, require_governance_consensus_active. keeping. Qed.

Lemma keeps_submit_appeal slash_id evidence height :
  keeps T (execute_submit_slash_appeal pins tx slash_id evidence height).
Proof. unfold execute_submit_slash_appeal. keeping. Qed.

Lemma keeps_restore_slash slash_id : keeps T (restore_slash slash_id).
Proof.
  unfold restore_slash. eapply (takes_bind _ _ _ (λ o, ∀ s, o = Some s → 0 ≤ sr_amount s) (λ _, T)).
  { apply takes_look. intros st Hl s Hs. apply (lg_slashes T st Hl _ _ Hs). }
  intros o Ho. eapply takes_bind; [apply takes_some, vm_fault_vm|]. intros s ->. specialize (Ho s eq_refl).
  apply takes_keep; [|intros; apply keeps_ret]. intros st Hl. pose proof (supply_le T st Hl).
  assert (∀ (m : ST VmStore SlashRestoreError Z), (∀ r st', m st = (Ok r, st') →
    funds_ok st' ∧ supply st' = supply st ∧ only_funds st st') →
    match map_err media m st with (Ok a, st') => True ∧ ledger_at T st' | (Err e, _) => vm_fault e end) as Hm.
  { intros m Hm. unfold map_err. destruct (m st) as [[r|e] st'] eqn:E; [|apply vm_fault_vm].
    destruct (Hm r st' eq_refl) as (Hf & Hs & Hof). split; [done|].
    eapply ledger_eq; [eapply ledger_only_funds; [done..|]|]; [by rewrite Hs, Z.add_0_r|lia]. }
  apply Hm. intros r st'. pose proof (lg_funds T st Hl).
  destruct (sr_reason s); intros E;
    first [eapply restore_failed_serve_supply; [done|lia|done|exact E]
          |eapply restore_equivocation_supply; [done|lia|done|exact E]].
Qed.

Hint Resolve keeps_restore_slash : keeps.

Lemma keeps_pending a : keeps T (pending_appeal a).
Proof. unfold pending_appeal. keeping. Qed.

Hint Resolve keeps_pending : keeps.

Lemma keeps_resolve a ok sig height :
  keeps T (execute_resolve_slash_appeal pins vm signing_chain_id tx a ok sig height).
Proof. unfold execute_resolve_slash_appeal, check_ballot, resolve_weights. keeping. Qed.

Lemma keeps_resolve_bls a ok bitset sig keys height :
  keeps T (execute_resolve_slash_appeal_bls_aggregate pins vm signing_chain_id tx a ok bitset sig keys height).
Proof. unfold execute_resolve_slash_appeal_bls_aggregate. keeping. Qed.

(** ** Any transaction *)

Lemma takes_fixed_gas m T' : takes T m (λ _, True) (λ _, T') → yields (λ g, 0 ≤ g) m →
  takes T (fixed_gas m) gas_ok (λ _, T').
Proof.
  intros Hm Hy. eapply takes_bind; [by apply takes_yields|]. intros g Hg. by apply takes_ret.
Qed.

Lemma takes_gas m : keeps T m → yields gas_ok m → takes T m gas_ok (λ _, T).
Proof. apply takes_yields. Qed.

Lemma ctx_at_ok ctx : ctx_ok ctx → ctx_ok (ctx_at vm ctx).
Proof. done. Qed.

Lemma blob_gas_nonneg size r : 0 ≤ media_blob_gas size r.
Proof.
  unfold media_blob_gas, media_blob_gas_raw. assert (0 ≤ gas_multiplier r) by (by destruct r).
  unfold sat_mul, sat_add, MEDIA_BLOB_GAS_BASE, MEDIA_BLOB_GAS_PER_WORD, u64_max. nia.
Qed.

Ltac head_of t := match t with ?f _ => head_of f | _ => t end.
Ltac yield_handler :=
  match goal with |- yields _ ?m => let h := head_of m in unfold h end; cbv zeta; yielding;
  try (apply yields_ret, blob_gas_nonneg).

Lemma takes_payload ctx :
  ctx_ok ctx →
  takes T (execute_payload pins vm signing_chain_id tx ctx) gas_ok
    (λ _, T - rent_of (denom_unit (denomination_at vm (block_height ctx))) (tx_payload tx)).
Proof.
  intros Hctx. destruct Htx as [Hs Hp]. pose proof (unit_pos (denomination_at vm (block_height ctx))) as Hu.
  pose proof (takes_name_tx (block_height ctx) (security_v4_from vm <=? block_height ctx) _ Hu) as Hname.
  unfold execute_payload. cbv zeta.
  destruct (tx_payload tx) eqn:Epay; simpl in Hp; cbn [is_name_tx rent_of] in *; rewrite ?Z.sub_0_r in *;
    try (apply takes_fixed_gas; [by apply Hname|unfold execute_name_tx; yielding]).
  all: try (apply takes_fixed_gas; [|solve [yield_handler]]).
  all: try (apply takes_gas; [|solve [yield_handler]]).
  all: try match goal with |- takes T ?m (λ _, True) _ => change (keeps T m) end.
  all: auto using keeps_bond, keeps_unbond, keeps_claim_unbond, keeps_transfer, keeps_validator_register,
         keeps_validator_deregister, keeps_validator_unjail, keeps_contract_deploy, keeps_qa_pool_vote,
         keeps_batch, keeps_submit_appeal, keeps_resolve, keeps_resolve_bls, keeps_equivocation,
         keeps_put_blob, keeps_announce, keeps_acl, keeps_renew_pin, keeps_pay_sample, keeps_register_offer,
         keeps_settle_match, keeps_cancel_offer, keeps_respond_serve, keeps_challenge_serve, keeps_propose,
         keeps_vote, keeps_advance.
  - apply keeps_contract_call; [apply Hp..|done].
  - apply takes_keep; [auto with keeps|]. intros _. apply keeps_contract_call; [apply Hp..|done].
Qed.

End Handlers.

(** ** The laws *)

Module VmMoneyLaws.
Section Laws.
Context `{Hh : Host} `{!HostDigest Hh} `{Crypto} `{TextOps} `{HexText} `{RegistryCodec} `{Iteration}.
Context (pins : HostPins) (vm : VmConfig) (signing_chain_id : option Z).

Notation execute := (execute_with_context pins vm signing_chain_id).

Lemma execute_takes tx ctx T :
  config_ok pins vm → tx_ok tx → ctx_ok ctx → T < u128_max →
  takes T (execute tx ctx) gas_ok
    (λ _, T - rent_of (denom_unit (denomination_at vm (block_height ctx))) (tx_payload tx)).
Proof.
  intros Hcfg Htx Hctx HT. unfold execute_with_context. cbv zeta.
  do 3 (apply takes_keep; [auto with keeps|intros ?]).
  by apply (takes_payload pins vm signing_chain_id tx Hcfg Htx T HT (ctx_at vm ctx)).
Qed.

(** C1: executing a transaction of any kind conserves native funds. From a
    well-formed store whose funds fit in a u128, a well-formed transaction either
    fails with a [VmError] (no arithmetic, slice or fuel fault exists in any
    handler or in the contract code it runs), or succeeds, leaves a well-formed
    store, and the sum of all balances, stakes, unbonding amounts and validator
    bonds is what it was, less exactly the rent of a name registered or renewed. *)
Theorem tx_conserves_funds tx ctx st :
  config_ok pins vm → tx_ok tx → ctx_ok ctx → well_formed st → total st < u128_max →
  match execute tx ctx st with
  | (Ok _, st') =>
      well_formed st' ∧
      total st' = total st - rent_of (denom_unit (denomination_at vm (block_height ctx))) (tx_payload tx)
  | (Err e, _) => vm_fault e
  end.
Proof.
  intros Hcfg Htx Hctx Hst HT. pose proof (execute_takes tx ctx (total st) Hcfg Htx Hctx HT st Hst) as Hr.
  destruct (execute tx ctx st) as [[r|e] st']; [|done]. destruct Hr as [_ Hl].
  pose proof (lg_total _ _ Hl) as Ht. split; [|done]. unfold well_formed. by rewrite Ht.
Qed.

End Laws.
End VmMoneyLaws.

Module SampleFunds.
Import VmMoneyLaws SampleVm.

#[local] Existing Instances sample_host codec hex.
#[local] Existing Instances SampleQa.plain_text SampleSigs.open_crypto SampleStore.in_order.

Lemma ledger_ok : ledger_at 1560 ledger.
Proof.
  constructor; [| | | | | | |by vm_compute].
  - apply (bool_decide_unpack (map_Forall (λ _, funds) (accounts (contents ledger)))). by vm_compute.
  - apply map_Forall_empty.
  - apply map_Forall_empty.
  - apply map_Forall_empty.
  - apply map_Forall_empty.
  - apply map_Forall_empty.
  - apply map_Forall_empty.
Qed.

Lemma alice_word : is_word alice.
Proof. by apply word_ok_spec. Qed.

Lemma tx_conserves_funds_witness :
  ∃ r st', execute_with_context pins machine None (from_alice (Transfer bob 70)) (at_height 5) ledger
           = (Ok r, st') ∧ total st' = 1560.
Proof.
  pose proof (tx_conserves_funds pins machine None (from_alice (Transfer bob 70)) (at_height 5) ledger) as Hw.
  destruct (execute_with_context _ _ _ _ _ _) as [[r|e] st'] eqn:E; [|vm_compute in E; discriminate E].
  exists r, st'. split; [done|]. destruct Hw as [_ Ht].
  - split; [|done]. by intros p [= <-].
  - split; [apply alice_word|]. done.
  - split; done.
  - apply ledger_ok.
  - done.
  - rewrite Ht. apply ledger_ok.
Defined.

(** [PUSH1 1; PUSH1 2; ADD; STOP]. *)
Definition adder : bytes := [0x60; 1; 0x60; 2; 1; 0].

Lemma adder_frame : frame_ok (new_interpreter adder 100).
Proof.
  apply fo_new; [|done]. unfold adder, is_bytes, is_byte. repeat constructor; done.
Qed.

Lemma bob_word : is_word bob.
Proof. by apply word_ok_spec. Qed.

Lemma context_ok : ctx_ok (at_height 5).
Proof. by split. Qed.

Lemma no_calldata : is_bytes [].
Proof. constructor. Qed.

Lemma run_with_qa_safe_witness :
  ∃ g i' st', run_with_qa (new_interpreter adder 100) alice bob [] ledger new_rules (at_height 5)
              = (Ok g, (i', st')) ∧ g ≤ 100 ∧ ledger_at 1560 st'.
Proof.
  pose proof (run_with_qa_safe (H0 := ledger_inv 1560) (new_interpreter adder 100) alice bob [] ledger new_rules
    (at_height 5) adder_frame ledger_ok alice_word bob_word no_calldata context_ok eq_refl) as Hw.
  destruct (run_with_qa _ _ _ _ _ _ _) as [[g|e] [i' st']] eqn:E; [|vm_compute in E; discriminate E].
  exists g, i', st'. split; [reflexivity|]. destruct Hw as (_ & [_ Hg] & _ & Hs & _).
  split; [exact Hg|exact Hs].
Defined.

Lemma run_independent_of_limit_witness :
  ∃ g i' st', run_with_qa (new_interpreter adder 100) alice bob [] ledger new_rules (at_height 5)
              = (Ok g, (i', st')) ∧
    run_nested 200 new_rules (raise 50 (new_interpreter adder 100)) alice bob [] 0 (at_height 5) ledger
    = (Ok g, (raise 50 i', st')).
Proof.
  destruct (run_with_qa (new_interpreter adder 100) alice bob [] ledger new_rules (at_height 5))
    as [[g|e] [i' st']] eqn:E; [|vm_compute in E; discriminate E].
  exists g, i', st'. split; [reflexivity|].
  apply (run_independent_of_limit (H0 := ledger_inv 1560) 50 200 (new_interpreter adder 100) alice bob [] ledger
    new_rules (at_height 5) (Ok g) i' st' ltac:(lia) adder_frame ledger_ok alice_word bob_word no_calldata
    context_ok ltac:(unfold gas_fuel; simpl; lia) E). discriminate.
Defined.

End SampleFunds.
