(* ===== verification/VmBehaviours.v ===== *)
(** * Behaviours of single transactions

    What particular transactions of [Vm.v] do, in the cases where the effect is
    easy to get wrong: unbonding, late reports of equivocation, deploys to an
    address that was paid before, and committee votes by aggregate signature. *)

From S2P Require Import Prelude Types Names Governance Blobs SampleMarket SlashAppeals Signatures OpenValidators Words Bytecode Qa Merkle Store Tokenomics StoreLaws Interp Vm VmWrites.
Import MoneyLaws.

(** Stepping through a computation that succeeds. *)
Lemma bind_ok {S E A B} (m : ST S E A) (k : A → ST S E B) s a s' :
  m s = (Ok a, s') → (m ≫= k) s = k a s'.
Proof. intros Hm. unfold mbind, st_bind. by rewrite Hm. Qed.

Lemma require_ok {S E} c (e : E) (s : S) : c = true → st_require c e s = (Ok (), s).
Proof. by intros ->. Qed.

Lemma some_ok {S E A} (o : option A) (e : E) (s : S) a : o = Some a → st_some o e s = (Ok a, s).
Proof. by intros ->. Qed.

Lemma look_ok {A} (f : VmStore → A) st : look f st = (Ok (f st), st).
Proof. done. Qed.

Section Reads.
Context `{Host} `{RegistryCodec} `{Iteration}.
Implicit Types st : VmStore.

(** Reading back a registry after a call on it. *)
Lemma get_registry r f st id : get (registry_mut r f st) id = get st id.
Proof. unfold get. by rewrite contents_registry. Qed.

Lemma appeals_after_appeals v st :
  slash_appeals (registry_mut Store.SlashAppeals (λ w, set_ar_appeals w v) st) = v.
Proof. unfold slash_appeals. by rewrite contents_registry. Qed.

Lemma appeals_get_mut id f st : slash_appeals (get_mut id f st) = slash_appeals st.
Proof. unfold slash_appeals. by rewrite contents_get_mut. Qed.

Lemma credited_exists to amount st : is_Some (get (credit_or_create to amount st) to).
Proof.
  unfold credit_or_create. destruct (get st to) eqn:E; rewrite ?get_get_mut, ?get_insert, decide_True by done.
  - rewrite E. by eexists.
  - by eexists.
Qed.

(** A run of [on_appeals]. *)
Lemma on_appeals_ok {A} (m : ST SlashAppealRegistry SlashAppealError A) st a r' :
  m (slash_appeals st) = (Ok a, r') →
  on_appeals m st = (Ok a, registry_mut Store.SlashAppeals (λ w, set_ar_appeals w r') st).
Proof. intros Hm. unfold on_appeals, on_registry. unfold slash_appeals in Hm. by rewrite Hm. Qed.

End Reads.

(** ** The sender's own account *)

Section Sender.
Context `{Host} `{Crypto} `{TextOps} `{HexText} `{RegistryCodec} `{Iteration}.
Context (pins : HostPins) (vm : VmConfig) (signing_chain_id : option Z) (tx : Transaction).

Notation execute := (execute_with_context pins vm signing_chain_id).

(** Past the checks of the nonce. *)
Lemma execute_starts ctx st a :
  get st (tx_sender tx) = Some a → nonce a = tx_nonce tx →
  execute tx ctx st = execute_payload pins vm signing_chain_id tx (ctx_at vm ctx) st.
Proof.
  intros Ha Hn. unfold execute_with_context. st_unfold. unfold look. rewrite Ha. simpl.
  by rewrite Hn, Z.eqb_refl.
Qed.

Lemma bump_ok st a :
  get st (tx_sender tx) = Some a → nonce a < u64_max →
  bump_sender_nonce tx st = (Ok (), get_mut (tx_sender tx) (λ _, set_nonce a (nonce a + 1)) st).
Proof.
  intros Ha Hn. unfold bump_sender_nonce, with_sender, with_account, bump_nonce. rewrite Ha. st_unfold.
  unfold checked_add. by rewrite (proj2 (Z.leb_le _ _)) by lia.
Qed.

Lemma sender_ok {A} (m : ST AccountState Fault A) st a x a' :
  get st (tx_sender tx) = Some a → m a = (Ok x, a') →
  with_sender tx m st = (Ok x, get_mut (tx_sender tx) (λ _, a') st).
Proof. intros Ha Hm. unfold with_sender, with_account. by rewrite Ha, Hm. Qed.

Lemma unbond_ok st a amount height :
  get st (tx_sender tx) = Some a → amount ≤ stake a → nonce a < u64_max →
  execute_unbond tx amount height st =
    (Ok base_gas.UNBOND, get_mut (tx_sender tx) (λ _, mkAccountState (balance a) (nonce a + 1) (stake a - amount)
       (sat_add u128_max (pending_unbond a) amount) (sat_add u64_max height UNBONDING_DELAY_BLOCKS)) st).
Proof.
  intros Ha Hs Hn. unfold execute_unbond. erewrite bind_ok; [|eapply sender_ok; [done|]]; [done|].
  unfold bump_nonce, checked_add. st_unfold. rewrite (proj2 (Z.leb_le _ _)) by lia. simpl.
  by rewrite (proj2 (Z.leb_le _ _)) by lia.
Qed.

Lemma claim_ok st a height :
  get st (tx_sender tx) = Some a → pending_unbond a ≠ 0 → unbond_unlock_height a ≤ height → nonce a < u64_max →
  execute_claim_unbond tx height st =
    (Ok base_gas.CLAIM_UNBOND, get_mut (tx_sender tx) (λ _, mkAccountState
       (sat_add u128_max (balance a) (pending_unbond a)) (nonce a + 1) (stake a) 0 0) st).
Proof.
  intros Ha Hp Hh Hn. unfold execute_claim_unbond. erewrite bind_ok; [|eapply sender_ok; [done|]]; [done|].
  unfold bump_nonce, checked_add. st_unfold. rewrite (proj2 (Z.eqb_neq _ _)) by done. simpl.
  rewrite (proj2 (Z.leb_le _ _)) by lia. simpl. by rewrite (proj2 (Z.leb_le _ _)) by lia.
Qed.

End Sender.

(** ** Committee votes by aggregate signature *)

Section Aggregate.
Context `{Host} `{Crypto} `{TextOps} `{HexText} `{RegistryCodec} `{Iteration}.

(** The verification uses the keys of the payload and nothing of the accounts. *)
Lemma self_contained_accepts cid slash_id commitment pinned appeal_id approved bitset sig keys signers :
  phase29_decode_signer_bitset pinned bitset = Some signers → NoDup signers → length keys = length signers →
  bls_fast_aggregate_verify keys
    (phase26_bls_aggregate_ballot_preimage cid appeal_id slash_id approved commitment) sig = true →
  phase30_verify_aggregate_resolve_self_contained cid slash_id commitment pinned appeal_id approved bitset sig keys
  = true.
Proof.
  intros Hdec Hnd Hlen Hsig.
  assert (account_id <$> zip_with mkDualKey signers keys = signers) as Hids.
  { rewrite fmap_zip_with_l; [done|done|lia]. }
  assert (bls_pubkey <$> zip_with mkDualKey signers keys = keys) as Hkeys.
  { rewrite fmap_zip_with_r; [done|done|lia]. }
  assert (phase26_validate_dual_key_set (zip_with mkDualKey signers keys) = true) as Hval.
  { unfold phase26_validate_dual_key_set. rewrite Hids, (bool_decide_eq_true_2 (NoDup _)), andb_true_r by done.
    apply negb_true_iff, bool_decide_eq_false_2. intros Hnil. rewrite Hnil in Hids.
    unfold phase29_decode_signer_bitset in Hdec. repeat (case_match; [done|]).
    apply bind_Some in Hdec as (out & _ & Hdec). by case_bool_decide; simplify_eq. }
  unfold phase30_verify_aggregate_resolve_self_contained, phase30_identities_from_self_contained.
  rewrite Hdec. simpl. rewrite (proj2 (Nat.eqb_eq _ _)) by done. simpl. rewrite Hval.
  unfold phase29_verify_aggregate_resolve, phase27_verify_bls_aggregate.
  by rewrite Hdec, Hids, Hkeys, Hval, bool_decide_eq_true_2, Hsig.
Qed.

Lemma insert_votes_new l m :
  NoDup (BookLaws.voter_of <$> l) → Forall (λ b, m !! BookLaws.voter_of b = None) l →
  (Book.insert_votes l m).1 = true ∧
  ∀ v ap w sg, (v, ap, w, sg) ∈ l → (Book.insert_votes l m).2 !! v = Some (mkResolveVote ap w sg).
Proof.
  revert m. induction l as [|[[[v ap] w] sg] l IH]; intros m Hnd Hf; simpl; [split; [done|set_solver]|].
  apply NoDup_cons in Hnd as [Hv Hnd]. apply Forall_cons in Hf as [Hm Hf].
  rewrite bool_decide_eq_false_2 by (by apply eq_None_not_Some).
  destruct (IH (<[v := mkResolveVote ap w sg]> m)) as [Hok Hin]; [done| |].
  { apply Forall_forall. intros b Hb.
    rewrite lookup_insert_ne; [by apply (proj1 (Forall_forall _ _) Hf)|].
    intros ->. apply Hv. apply list_elem_of_fmap. by exists b. }
  split; [done|]. intros v' ap' w' sg' [Heq|Hl]%elem_of_cons; [|by apply Hin]. simplify_eq.
  destruct (Book.insert_votes l _) as [b m'] eqn:Hi. simpl in *. subst b.
  apply BookLaws.insert_votes_fresh in Hi as (_ & _ & Hsub). eapply lookup_weaken; [|exact Hsub].
  apply lookup_insert_eq.
Qed.

Lemma insert_votes_reject l m :
  Forall (λ b, b.1.1.2 = false) l → map_Forall (λ _ v, rv_approved v = false) m →
  map_Forall (λ _ v, rv_approved v = false) (Book.insert_votes l m).2.
Proof.
  intros Hl. revert m. induction Hl as [|[[[v ap] w] sg] l Hb _ IH]; intros m Hm; simpl in *; [done|].
  case_bool_decide; [done|]. apply IH. by apply map_Forall_insert_2.
Qed.

Lemma no_approval l n : Forall (λ v, rv_approved v = false) l → (foldl Book.count_vote (0, n) l).1 = 0.
Proof.
  revert n. induction l as [|v l IH]; intros n Hl; [done|]. apply Forall_cons in Hl as [Hv Hl]. simpl.
  unfold Book.count_vote at 2, tally_step. rewrite Hv. by apply IH.
Qed.

(** A batch of rejections of a fresh appeal is recorded; it cannot approve. *)
Lemma reject_cast i votes w r a s :
  appeals r !! i = Some a → ap_status a = ApPending → ap_votes a = ∅ → slashes r !! ap_slash_id a = Some s →
  0 ≤ w → NoDup (BookLaws.voter_of <$> votes) → Forall (λ b, b.1.1.2 = false) votes →
  ∃ outcome r', Book.cast_resolve_votes_batch i votes w r = (Ok outcome, r') ∧ outcome ≠ OcFinalized true ∧
    ∃ a', appeals r' !! i = Some a' ∧
      ∀ v ap x sg, (v, ap, x, sg) ∈ votes → ap_votes a' !! v = Some (mkResolveVote ap x sg).
Proof.
  intros Ha Hp Hemp Hs Hw Hnd Hrej. unfold Book.cast_resolve_votes_batch. st_unfold. rewrite Ha. simpl.
  rewrite bool_decide_eq_true_2 by done. simpl. rewrite Hemp.
  destruct (insert_votes_new votes ∅ Hnd) as [Hok Hin]; [by apply Forall_true|].
  pose proof (insert_votes_reject votes ∅ Hrej (map_Forall_empty _)) as Hall.
  destruct (Book.insert_votes votes ∅) as [fresh m]. simpl in *. subst fresh. simpl.
  set (r1 := set_appeals r _). unfold Book.weight_tallies. simpl. rewrite lookup_insert_eq. simpl.
  assert (Forall (λ v, rv_approved v = false) (map_to_list m).*2) as Hl.
  { apply Forall_fmap, Forall_forall. intros [k v] Hkv. by apply elem_of_map_to_list, Hall in Hkv. }
  pose proof (no_approval _ 0 Hl) as Hyes.
  destruct (foldl Book.count_vote (0, 0) (map_to_list m).*2) as [yes no]. simpl in Hyes. subst yes.
  assert (phase17_resolve_threshold_met 0 w = false) as ->.
  { unfold phase17_resolve_threshold_met. destruct (Z.eqb_spec w 0); [done|]. apply Z.leb_gt.
    unfold sat_mul, u128_max. lia. }
  destruct (phase17_resolve_threshold_met no w).
  - unfold Book.finalize_appeal. st_unfold. simpl. rewrite lookup_insert_eq. simpl. rewrite Hs. simpl.
    eexists _, _. split; [done|]. split; [done|]. simpl. rewrite lookup_insert_eq. by eexists.
  - eexists _, _. split; [done|]. split; [done|]. simpl. rewrite lookup_insert_eq. by eexists.
Qed.

End Aggregate.

(** ** Reports *)

Lemma slash_keeps_appeals v slash_id (st : VmStore) :
  slash_appeals (slash_equivocation_stake v slash_id st).2 = slash_appeals st.
Proof.
  unfold slash_equivocation_stake, slash_stake. destruct (get st v) as [a|]; [|done].
  destruct (slashable_stake a =? 0); simpl; [apply appeals_get_mut|].
  unfold slash_appeals. by rewrite (of_registries _ _ (only_funds_credit _ _ _)), contents_get_mut.
Qed.

(** The first report of an equivocation records a slash dated by the round. *)
Lemma report_records `{Host} `{Crypto} `{HexText} `{RegistryCodec} `{Iteration} vm tx e height (st : VmStore) r st' :
  execute_report_equivocation vm tx e height st = (Ok r, st') →
  Book.find_equivocation_at_round (slash_appeals st) (evidence_validator e) (evidence_round e) = None →
  ∃ burned, slash_appeals st' = Book.record_slash_with_id (Book.peek_next_slash_id (slash_appeals st))
    (evidence_validator e) burned SrEquivocation (evidence_round e) EQUIVOCATION_APPEAL_WINDOW_BLOCKS (slash_appeals st).
Proof.
  intros Hr Hfind. unfold execute_report_equivocation in Hr. st_inv.
  unfold lift_result in *. destruct (evidence_verify e) as [[]|]; unfold st_fail in *; [|simplify_eq].
  unfold look, mret, st_ret in *. simplify_eq/=. rewrite Hfind in Hk. st_inv. unfold look, pure_st in *. simplify_eq/=.
  pose proof (slash_keeps_appeals (evidence_validator e) (Book.peek_next_slash_id (slash_appeals s)) s) as Hap.
  destruct (slash_equivocation_stake _ _ s) as [burned st1]. simplify_eq/=. exists a1.
  erewrite (on_appeals_ok _ _ tt) in Hm1 by done. injection Hm1 as <- <-.
  unfold bump_sender_nonce, with_sender, with_account in Hm2.
  destruct (get _ (tx_sender tx)) as [acc|]; [|done]. destruct (bump_nonce acc) as [b acc']. simplify_eq/=.
  rewrite appeals_get_mut, appeals_after_appeals. by rewrite Hap.
Qed.

(** ** The behaviours *)

Module VmBehaviourLaws.
Section Laws.
Context `{Host} `{Crypto} `{TextOps} `{HexText} `{RegistryCodec} `{Iteration}.
Context (pins : HostPins) (vm : VmConfig) (signing_chain_id : option Z).

Notation execute := (execute_with_context pins vm signing_chain_id).

(** C36: anyone can cast the votes of the pinned committee by aggregate signature.
    The transaction is checked against public keys it carries itself: for any
    sender with any account, and any keys for which that sender can make an
    aggregate signature, it succeeds on a fresh pending appeal and records a
    rejection, with the full stake, in the name of every account of the pinned
    set it selects, though none of them signed anything. *)
Theorem aggregate_votes_unauthenticated tx ctx st acc appeal_id bitset sig keys a s signers :
  tx_payload tx = ResolveSlashAppealBlsAggregate appeal_id false bitset sig keys →
  get st (tx_sender tx) = Some acc → nonce acc = tx_nonce tx → nonce acc < u64_max →
  appeals (slash_appeals st) !! appeal_id = Some a → ap_status a = ApPending → ap_votes a = ∅ →
  block_height ctx ≤ resolve_deadline a → slashes (slash_appeals st) !! ap_slash_id a = Some s →
  0 < electorate_w_snapshot a → phase20_pin_set_commitment (pinned pins) = pin_set_commitment a →
  phase29_decode_signer_bitset (pinned pins) bitset = Some signers → NoDup signers →
  length keys = length signers →
  bls_fast_aggregate_verify keys
    (phase26_bls_aggregate_ballot_preimage (registration_or_signing_chain vm signing_chain_id) appeal_id
       (ap_slash_id a) false (pin_set_commitment a)) sig = true →
  ∃ r st' a', execute tx ctx st = (Ok r, st') ∧ appeals (slash_appeals st') !! appeal_id = Some a' ∧
    ∀ v, v ∈ signers → ap_votes a' !! v = Some (mkResolveVote false (stake_in st v) None).
Proof.
  intros Hpay Hacc Hn Hmax Ha Hp Hemp Hwin Hs Hw Hpin Hdec Hnd Hlen Hsig.
  rewrite (execute_starts _ _ _ _ _ _ acc) by done. unfold execute_payload. rewrite Hpay. cbv zeta.
  unfold execute_resolve_slash_appeal_bls_aggregate. simpl block_height.
  assert (Book.gate_resolve_window appeal_id (block_height ctx) (slash_appeals st) = (Ok (), slash_appeals st))
    as Hgate.
  { unfold Book.gate_resolve_window. st_unfold. rewrite Ha. simpl. rewrite bool_decide_eq_true_2 by done. simpl.
    unfold phase21_resolve_expired. by rewrite (proj2 (Z.ltb_ge _ _)). }
  rewrite (bind_ok _ _ _ _ _ (on_appeals_ok _ _ _ _ Hgate)).
  set (st1 := registry_mut _ _ st). assert (slash_appeals st1 = slash_appeals st) as Hst1.
  { apply appeals_after_appeals. }
  assert (pending_appeal appeal_id st1 = (Ok a, st1)) as Hpend.
  { unfold pending_appeal. st_unfold. unfold look. rewrite Hst1, Ha. by rewrite bool_decide_eq_true_2. }
  rewrite (bind_ok _ _ _ _ _ Hpend). clear Hpend.
  assert (pinned pins ≠ []) as Hne. { intros Hnil. unfold phase29_decode_signer_bitset in Hdec. by rewrite Hnil in Hdec. }
  rewrite (bind_ok _ _ _ _ _ (require_ok _ _ _ (proj2 (negb_true_iff _) (bool_decide_eq_false_2 _ Hne)))).
  assert (phase20_is_legacy_electorate_snapshot (electorate_w_snapshot a) (pin_set_commitment a) = false) as ->.
  { unfold phase20_is_legacy_electorate_snapshot. by rewrite (proj2 (Z.eqb_neq _ _)) by (unfold PHASE20_LEGACY_ELECTORATE_W_SENTINEL; lia). }
  rewrite orb_false_l, (bind_ok _ _ _ _ _ (require_ok _ _ _ (bool_decide_eq_true_2 _ Hpin))).
  rewrite (bind_ok _ _ _ _ _ (require_ok _ _ _ (self_contained_accepts _ _ _ _ _ _ _ _ _ _ Hdec Hnd Hlen Hsig))).
  rewrite (bind_ok _ _ _ _ _ (some_ok _ _ _ _ Hdec)), !(bind_ok _ _ _ _ _ (look_ok _ _)).
  set (batch := _ <$> signers).
  destruct (reject_cast appeal_id batch (electorate_w_snapshot a) (slash_appeals st1) a s) as
    (outcome & r' & Hcast & Hout & a' & Ha' & Hvotes).
  { by rewrite Hst1. } { done. } { done. } { by rewrite Hst1. } { lia. }
  { unfold batch. rewrite <- list_fmap_compose. by rewrite (list_fmap_ext _ id), list_fmap_id by done. }
  { unfold batch. by apply Forall_fmap, Forall_true. }
  rewrite (bind_ok _ _ _ _ _ (on_appeals_ok _ _ _ _ Hcast)). set (st2 := registry_mut _ _ st1).
  assert ((match outcome with OcFinalized true => restore_slash (ap_slash_id a) | _ => mret () end
             : ST VmStore Fault ()) st2 = (Ok (), st2)) as Hmid by (by destruct outcome as [| []]).
  rewrite (bind_ok _ _ _ _ _ Hmid).
  assert (get st2 (tx_sender tx) = Some acc) as Hacc2 by (unfold st2, st1; by rewrite !get_registry).
  rewrite (bind_ok _ _ _ _ _ (bump_ok tx st2 acc Hacc2 Hmax)).
  eexists _, _, a'. split; [done|]. split.
  { rewrite appeals_get_mut. unfold st2. by rewrite appeals_after_appeals. }
  intros v Hv. apply Hvotes. unfold batch. apply list_elem_of_fmap. exists v. split; [|done].
  unfold stake_in, st1. by rewrite get_registry.
Qed.

(** An unbonding lock lasts at most [UNBONDING_DELAY_BLOCKS] for a validator
    that wants out. Whatever the lock of the pending amount (a longer
    [deregister_delay] of the open validator set included), an [Unbond] of zero
    succeeds and sets it to 100 blocks from now; a [ClaimUnbond] then pays the
    whole pending amount. *)
Theorem unbond_zero_resets_lock sender access st acc ctx ctx' :
  let tx p n := mkTransaction n sender p access in
  get st sender = Some acc → 0 ≤ nonce acc < u64_max - 1 → 0 < pending_unbond acc → funds acc →
  native acc ≤ u128_max → 0 ≤ block_height ctx → block_height ctx + UNBONDING_DELAY_BLOCKS ≤ u64_max →
  block_height ctx + UNBONDING_DELAY_BLOCKS ≤ block_height ctx' →
  ∃ r1 st1 r2 st2, execute (tx (Unbond 0) (nonce acc)) ctx st = (Ok r1, st1) ∧
    execute (tx ClaimUnbond (nonce acc + 1)) ctx' st1 = (Ok r2, st2) ∧
    balance_of st2 sender = balance acc + pending_unbond acc.
Proof.
  intros tx Hacc Hn Hpend (? & ? & ?) Hnat Hh Hcap Hlater.
  set (a1 := mkAccountState (balance acc) (nonce acc + 1) (stake acc) (pending_unbond acc)
    (block_height ctx + UNBONDING_DELAY_BLOCKS)).
  pose proof (unbond_ok (tx (Unbond 0) (nonce acc)) st acc 0 (block_height ctx) Hacc ltac:(lia) ltac:(lia)) as Hub.
  rewrite Z.sub_0_r in Hub. unfold sat_add in Hub. rewrite Z.add_0_r, !Z.min_r in Hub by (unfold native in *; lia).
  set (st1 := get_mut sender (λ _, a1) st) in *.
  assert (get st1 sender = Some a1) as Ha1 by (unfold st1; by rewrite get_get_mut, decide_True, Hacc).
  pose proof (claim_ok (tx ClaimUnbond (nonce acc + 1)) st1 a1 (block_height ctx') Ha1 ltac:(simpl; lia)
    ltac:(simpl; lia) ltac:(simpl; lia)) as Hcl.
  eexists _, st1, _, (get_mut sender (λ _, mkAccountState (sat_add u128_max (balance a1) (pending_unbond a1))
    (nonce a1 + 1) (stake a1) 0 0) st1). split_and!.
  - rewrite (execute_starts pins vm signing_chain_id (tx (Unbond 0) (nonce acc)) ctx st acc Hacc eq_refl). unfold execute_payload, fixed_gas. simpl.
    by rewrite (bind_ok _ _ _ _ _ Hub).
  - rewrite (execute_starts pins vm signing_chain_id (tx ClaimUnbond (nonce acc + 1)) ctx' st1 a1 Ha1 eq_refl). unfold execute_payload, fixed_gas. simpl.
    by rewrite (bind_ok _ _ _ _ _ Hcl).
  - unfold balance_of. rewrite get_get_mut, decide_True, Ha1 by done. simpl. unfold native in *. unfold_sat. lia.
Qed.

(** A deploy can be blocked from outside. The address a deploy will create is
    known before it executes; once any account has sent it any amount, the deploy
    fails with [DeploymentAddressInUse], although its code was accepted. *)
Theorem prefunded_address_blocks_deploy payer ctx st r st' dtx d ctx' acc amount :
  tx_payload payer = Transfer (deploy_address dtx d.1.1.1.1) amount →
  execute payer ctx st = (Ok r, st') →
  as_contract_deploy (tx_payload dtx) = Some d →
  check_contract_deploy_full_with_metadata d.1.1.1.1 d.1.1.1.2 d.1.1.2 d.1.2 d.2 (qa_at vm (ctx_at vm ctx')) = Allow →
  get st' (tx_sender dtx) = Some acc → nonce acc = tx_nonce dtx →
  execute dtx ctx' st' = (Err (Vm DeploymentAddressInUse), st').
Proof.
  intros Hpay Hr Hd Hqa Hacc Hn. set (addr := deploy_address dtx d.1.1.1.1) in *.
  assert (address_in_use st' addr = true) as Huse.
  { unfold execute_with_context, execute_payload in Hr. rewrite Hpay in Hr. unfold fixed_gas, transfer_arm in Hr.
    st_inv. unfold st_modify in *. simplify_eq/=. injection Hk1 as <- <-. injection Hk0 as <- <-.
    apply orb_true_iff. left. apply bool_decide_eq_true_2, credited_exists. }
  rewrite (execute_starts _ _ _ _ _ _ acc Hacc Hn). unfold execute_payload.
  assert (execute_contract_deploy vm dtx (ctx_at vm ctx') st' = (Err (Vm DeploymentAddressInUse), st')) as Hdep.
  { unfold execute_contract_deploy. rewrite Hd. destruct d as [[[[bytecode ?] ?] ?] ?]. simpl in *. rewrite Hqa.
    st_unfold. unfold look. fold addr. by rewrite Huse. }
  destruct (tx_payload dtx); simpl in Hd; simplify_eq; exact Hdep.
Qed.

(** An equivocation reported late cannot be appealed. The appeal window of the
    slash is counted from the round of the votes, not from the report: when the
    report is included more than [EQUIVOCATION_APPEAL_WINDOW_BLOCKS] after the
    round, the stake is taken and every appeal is refused from the start. *)
Theorem late_report_cannot_be_appealed tx ctx st e r st' tip evidence max_evidence w pin :
  let id := Book.peek_next_slash_id (slash_appeals st) in
  tx_payload tx = ReportEquivocation e → execute tx ctx st = (Ok r, st') →
  Book.find_equivocation_at_round (slash_appeals st) (evidence_validator e) (evidence_round e) = None →
  slashes (slash_appeals st) !! id = None →
  evidence_round e + EQUIVOCATION_APPEAL_WINDOW_BLOCKS < block_height ctx → block_height ctx ≤ tip →
  Z.of_nat (length evidence) ≤ max_evidence →
  (Book.submit_appeal id evidence tip max_evidence w pin (slash_appeals st')).1 = Err SaAppealWindowClosed.
Proof.
  intros id Hpay Hr Hfind Hnone Hlate Htip Hev.
  unfold execute_with_context, execute_payload in Hr. rewrite Hpay in Hr. st_inv. unfold look in *. simplify_eq/=.
  unfold st_some in *. case_match; [|done]. unfold mret, st_ret in *. simplify_eq/=.
  apply report_records in Hk as (burned & Hap); [|done]. rewrite Hap. fold id.
  set (bk := Book.record_slash_with_id _ _ _ _ _ _ _).
  assert (∃ s, slashes bk !! id = Some s ∧ sr_appeal_deadline s < tip) as (s & Hs & Hdl).
  { unfold bk, Book.record_slash_with_id. rewrite Hnone. eexists. split.
    - case_match; simpl; apply lookup_insert_eq.
    - simpl. unfold sat_add. lia. }
  unfold Book.submit_appeal. rewrite (proj2 (Z.ltb_ge _ _)) by done. st_unfold. rewrite Hs. simpl.
  by rewrite (proj2 (Z.ltb_lt _ _)).
Qed.

End Laws.
End VmBehaviourLaws.

Module SampleBehaviours.
Import VmBehaviourLaws SampleVm.

#[local] Existing Instances sample_host codec hex.
#[local] Existing Instances SampleQa.plain_text SampleStore.in_order.

(** Alice's own two keys are the only ones that verify. *)
#[local] Instance alice_keys : Crypto := {|
  ed25519_key_ok _ := true;
  ed25519_verify _ _ _ := true;
  bls_fast_aggregate_verify keys _ _ := bool_decide (keys = [[7]; [8]]);
  bincode_payload _ := [0];
  bincode_access_list _ := [];
|}.

Definition carol : AccountId := replicate 32 3.
Definition dave : AccountId := replicate 32 4.
Definition committee : HostPins := mkHostPins None None (Some [carol; dave]).

(** Bob was slashed and has appealed. *)
Definition appealed : SlashAppealRegistry :=
  mkAppealBook {[1 := mkSlashRecord 1 bob 50 SrEquivocation 10 1010 false]}
    {[1 := mkAppeal 1 1 [] ApPending ∅ 100 (phase20_pin_set_commitment [carol; dave]) 1020]} 2 2.

Definition with_appeal : VmStore := registry_mut Store.SlashAppeals (λ v, set_ar_appeals v appealed) ledger.

Lemma aggregate_votes_unauthenticated_witness :
  ∃ r st' a', execute_with_context committee machine None
      (from_alice (ResolveSlashAppealBlsAggregate 1 false [3] [] [[7]; [8]])) (at_height 30) with_appeal = (Ok r, st') ∧
    appeals (slash_appeals st') !! 1 = Some a' ∧ ap_votes a' !! carol = Some (mkResolveVote false 0 None).
Proof.
  destruct (aggregate_votes_unauthenticated committee machine None
    (from_alice (ResolveSlashAppealBlsAggregate 1 false [3] [] [[7]; [8]])) (at_height 30) with_appeal
    (mkAccountState 1000 0 60 0 0) 1 [3] [] [[7]; [8]]
    (mkAppeal 1 1 [] ApPending ∅ 100 (phase20_pin_set_commitment [carol; dave]) 1020)
    (mkSlashRecord 1 bob 50 SrEquivocation 10 1010 false) [carol; dave]) as (r & st' & a' & Hr & Ha & Hv);
    try (vm_compute; reflexivity).
  - vm_compute. discriminate.
  - apply (bool_decide_unpack (NoDup [carol; dave])). vm_compute. exact I.
  - exists r, st', a'. split; [done|]. split; [done|]. rewrite (Hv carol) by left. by vm_compute.
Defined.

(** Alice left the open validator set; her bond is locked until height 10000. *)
Definition leaving : VmStore := insert_account alice (mkAccountState 1000 0 60 40 10000) ledger.

Lemma unbond_zero_resets_lock_witness :
  ∃ r1 st1 r2 st2,
    execute_with_context pins machine None (mkTransaction 0 alice (Unbond 0) (mkAccessList [] [])) (at_height 50)
      leaving = (Ok r1, st1) ∧
    execute_with_context pins machine None (mkTransaction (0 + 1) alice ClaimUnbond (mkAccessList [] []))
      (at_height 150) st1 = (Ok r2, st2) ∧
    balance_of st2 alice = 1040.
Proof.
  apply (unbond_zero_resets_lock pins machine None alice (mkAccessList [] []) leaving
    (mkAccountState 1000 0 60 40 10000) (at_height 50) (at_height 150)); [vm_compute; reflexivity|..];
    unfold funds, native; simpl; unfold UNBONDING_DELAY_BLOCKS, u64_max, u128_max; lia.
Defined.

(** Bob deploys [STOP]; Alice pays one unit to the address before him. *)
Definition bobs_deploy : Transaction := mkTransaction 0 bob (ContractDeploy [0] None) (mkAccessList [] []).
Definition with_bob : VmStore := insert_account bob (mkAccountState 10 0 0 0 0) ledger.

Lemma prefunded_address_blocks_deploy_witness :
  ∃ r st', execute_with_context pins machine None (from_alice (Transfer (deploy_address bobs_deploy [0]) 1))
             (at_height 5) with_bob = (Ok r, st') ∧
    execute_with_context pins machine None bobs_deploy (at_height 6) st' = (Err (Vm DeploymentAddressInUse), st') ∧
    (execute_with_context pins machine None bobs_deploy (at_height 6) with_bob).1 = Ok (gas_only 200000).
Proof.
  destruct (execute_with_context pins machine None (from_alice (Transfer (deploy_address bobs_deploy [0]) 1))
    (at_height 5) with_bob) as [[r|e] st'] eqn:E; [|vm_compute in E; discriminate E].
  exists r, st'. split; [done|]. split; [|by vm_compute].
  apply (prefunded_address_blocks_deploy pins machine None
    (from_alice (Transfer (deploy_address bobs_deploy [0]) 1)) (at_height 5) with_bob r st' bobs_deploy
    ([0], None, None, None, None) (at_height 6) (mkAccountState 10 0 0 0 0) 1);
    [reflexivity|exact E|reflexivity|vm_compute; reflexivity| |reflexivity].
  vm_compute in E. injection E as <- <-. vm_compute. reflexivity.
Defined.

(** Two votes of round 10, reported at height 2000. *)
Definition double_vote : EquivocationEvidence :=
  mkEquivocationEvidence (mkConsensusVote 10 (replicate 32 1) alice (replicate 64 1))
    (mkConsensusVote 10 (replicate 32 2) alice (replicate 64 1)).

Lemma late_report_cannot_be_appealed_witness :
  ∃ r st', execute_with_context pins machine None (from_alice (ReportEquivocation double_vote)) (at_height 2000)
             ledger = (Ok r, st') ∧ stake_in st' alice = 30 ∧
    (Book.submit_appeal 1 [] 2000 4096 1 [] (slash_appeals st')).1 = Err SaAppealWindowClosed.
Proof.
  destruct (execute_with_context pins machine None (from_alice (ReportEquivocation double_vote)) (at_height 2000)
    ledger) as [[r|e] st'] eqn:E; [|vm_compute in E; discriminate E].
  exists r, st'. split; [done|]. split.
  - vm_compute in E. injection E as <- <-. by vm_compute.
  - apply (late_report_cannot_be_appealed pins machine None (from_alice (ReportEquivocation double_vote))
      (at_height 2000) ledger double_vote r st' 2000 [] 4096 1 []);
      [reflexivity|exact E|vm_compute; reflexivity|vm_compute; reflexivity|reflexivity|simpl; lia|simpl; lia].
Defined.

End SampleBehaviours.
