(* ===== verification/InterpAgree.v ===== *)
(** * Runs on stores that cannot be told apart

    A relation between stores that the storage interface respects is respected by
    every run of the interpreter: the same frames, gas, logs, results and errors
    on both sides, and related stores after. It is used to show that the caches
    and the undo journal of the state store never show in an execution. *)

From S2P Require Import Prelude Types Words Bytecode Interp.

(** Two runs from related stores end alike. *)
Definition runner_agrees {S} (sim : relation S) (run : Runner S) : Prop :=
  ∀ child caller target calldata depth ctx st1 st2, sim st1 st2 →
    let r1 := run child caller target calldata depth ctx st1 in
    let r2 := run child caller target calldata depth ctx st2 in
    r1.1 = r2.1 ∧ r1.2.1 = r2.2.1 ∧ sim r1.2.2 r2.2.2.

(** The interface respects the relation. *)
Class StoreAgrees {S R : Type} `{StorageAccess S R} (sim : relation S) : Prop := {
  sload_agrees : ∀ st1 st2 c k, sim st1 st2 → sload st1 c k = sload st2 c k;
  code_agrees : ∀ st1 st2 c, sim st1 st2 → get_contract_code st1 c = get_contract_code st2 c;
  balance_agrees : ∀ st1 st2 c, sim st1 st2 → native_balance st1 c = native_balance st2 c;
  sstore_agrees : ∀ st1 st2 c k v, sim st1 st2 → sim (sstore st1 c k v) (sstore st2 c k v);
  native_transfer_agrees : ∀ st1 st2 from to amount, sim st1 st2 →
    (native_transfer st1 from to amount).1 = (native_transfer st2 from to amount).1 ∧
    sim (native_transfer st1 from to amount).2 (native_transfer st2 from to amount).2;
  create2_agrees : ∀ run reg deployer salt bytecode limit ls depth ctx st1 st2,
    runner_agrees sim run → sim st1 st2 →
    let r1 := create2_deploy run reg deployer salt bytecode limit ls depth ctx st1 in
    let r2 := create2_deploy run reg deployer salt bytecode limit ls depth ctx st2 in
    r1.1 = r2.1 ∧ r1.2.1 = r2.2.1 ∧ sim r1.2.2 r2.2.2;
}.

Section Agree.
Context `{Host} {S R : Type} `{HSA : StorageAccess S R} (sim : relation S) `{!StoreAgrees sim}.

Notation M := (ST (Interpreter * S) Fault).

Definition frames_agree {A} (m : M A) : Prop :=
  ∀ i st1 st2, sim st1 st2 →
    (m (i, st1)).1 = (m (i, st2)).1 ∧ (m (i, st1)).2.1 = (m (i, st2)).2.1 ∧
    sim (m (i, st1)).2.2 (m (i, st2)).2.2.

Lemma agree_bind {A B} (m : M A) (k : A → M B) :
  frames_agree m → (∀ a, frames_agree (k a)) → frames_agree (m ≫= k).
Proof.
  intros Hm Hk i st1 st2 Hs. unfold mbind, st_bind. destruct (Hm i st1 st2 Hs) as (H1 & H2 & H3).
  destruct (m (i, st1)) as [[a|e] [i1 s1]], (m (i, st2)) as [[a'|e'] [i2 s2]]; simplify_eq/=; [|done].
  by apply Hk.
Qed.

(** A computation that looks at the frame only. *)
Lemma agree_frame_only {A} (m : M A) :
  (∀ i st1 st2, (m (i, st1)).1 = (m (i, st2)).1 ∧ (m (i, st1)).2.1 = (m (i, st2)).2.1) →
  (∀ s, (m s).2.2 = s.2) → frames_agree m.
Proof.
  intros Hm Hs i st1 st2 Hst. destruct (Hm i st1 st2) as [H1 H2]. by rewrite !Hs.
Qed.

Lemma agree_ret {A} (a : A) : frames_agree (mret a).
Proof. by apply agree_frame_only. Qed.

Lemma agree_fail {A} e : frames_agree (A:=A) (st_fail e).
Proof. by apply agree_frame_only. Qed.

Lemma agree_frame : frames_agree frame.
Proof. by apply agree_frame_only. Qed.

Lemma agree_upd f : frames_agree (upd f).
Proof. by apply agree_frame_only. Qed.

Lemma agree_look {A} (f : Interpreter → S → A) :
  (∀ i st1 st2, sim st1 st2 → f i st1 = f i st2) → frames_agree (look f).
Proof. intros Hf i st1 st2 Hs. simpl. by rewrite (Hf i st1 st2). Qed.

Lemma agree_spend g : frames_agree (spend_gas g).
Proof. apply agree_frame_only; intros; unfold spend_gas; simpl; by case_match. Qed.

Lemma agree_pop : frames_agree pop.
Proof. apply agree_frame_only; intros; unfold pop; simpl; by case_match. Qed.

Lemma agree_mem_read o n : frames_agree (mem_read o n).
Proof. apply agree_frame_only; intros; unfold mem_read; simpl; by case_match. Qed.

Lemma agree_mem_write o d : frames_agree (mem_write o d).
Proof. apply agree_frame_only; intros; unfold mem_write; simpl; by case_match. Qed.

Lemma agree_sstore c k v : frames_agree (st_modify (λ s, (s.1, sstore s.2 c k v))).
Proof. intros i st1 st2 Hs. simpl. split_and!; [done..|]. by apply sstore_agrees. Qed.

Lemma agree_transfer from to amount : frames_agree (move_native_op from to amount).
Proof.
  intros i st1 st2 Hs. unfold move_native_op. simpl.
  destruct (native_transfer_agrees st1 st2 from to amount Hs) as [H1 H2].
  destruct (native_transfer st1 from to amount) as [[] ?], (native_transfer st2 from to amount) as [[] ?];
    by simplify_eq/=.
Qed.

Lemma agree_run_child run child caller target calldata depth ctx :
  runner_agrees sim run → frames_agree (run_child run child caller target calldata depth ctx).
Proof.
  intros Hrun i st1 st2 Hs. unfold run_child. simpl.
  destruct (Hrun child caller target calldata depth ctx st1 st2 Hs) as (H1 & H2 & H3).
  destruct (run _ _ _ _ _ _ st1) as [[] [? ?]], (run _ _ _ _ _ _ st2) as [[] [? ?]]; by simplify_eq/=.
Qed.

Lemma agree_deploy_child run reg deployer salt bytecode remaining depth ctx :
  runner_agrees sim run → frames_agree (deploy_child run reg deployer salt bytecode remaining depth ctx).
Proof.
  intros Hrun i st1 st2 Hs. unfold deploy_child. simpl.
  destruct (create2_agrees run reg deployer salt bytecode remaining (logs i) depth ctx st1 st2 Hrun Hs)
    as (H1 & H2 & H3).
  destruct (create2_deploy _ _ _ _ _ _ _ _ _ st1) as [? [? ?]], (create2_deploy _ _ _ _ _ _ _ _ _ st2) as [? [? ?]].
  by simplify_eq/=.
Qed.

End Agree.

Create HintDb agree discriminated.
#[export] Hint Resolve agree_ret agree_fail agree_frame agree_upd agree_spend agree_pop agree_mem_read
  agree_mem_write agree_sstore agree_transfer agree_run_child agree_deploy_child : agree.

(** Follows the computation's binds and branches. *)
Ltac agreeing :=
  repeat (match goal with
          | |- frames_agree _ (mbind _ _) => apply agree_bind; [|intros ?]
          | |- frames_agree _ (look _) =>
              apply agree_look; intros;
              first [done|by apply sload_agrees|by apply code_agrees|f_equal; by apply balance_agrees
                    |by apply balance_agrees]
          | |- frames_agree _ (match ?x with _ => _ end) => destruct x
          | |- frames_agree _ (let '_ := ?x in _) => destruct x
          | |- frames_agree _ (vm_fail _) => apply agree_fail
          end || (progress cbv zeta)
          || (solve [auto with agree])).

Section Runs.
Context `{Host} {S R : Type} `{HSA : StorageAccess S R} (sim : relation S) `{!StoreAgrees sim}.

Lemma agree_pop_usize : frames_agree sim pop_usize.
Proof. unfold pop_usize. agreeing. Qed.

Lemma agree_push w : frames_agree sim (push w).
Proof. unfold push. agreeing. Qed.

Lemma agree_ensure_memory o n : frames_agree sim (ensure_memory o n).
Proof. unfold ensure_memory. agreeing. Qed.

Lemma agree_pop_topics n : frames_agree sim (pop_topics n).
Proof. induction n; simpl; agreeing; auto. Qed.

Lemma agree_log n : frames_agree sim (log_with_topics n).
Proof.
  unfold log_with_topics, append_log. agreeing; auto using agree_pop_usize, agree_pop_topics, agree_ensure_memory.
Qed.

Hint Resolve agree_pop_usize agree_push agree_ensure_memory agree_log : agree.

Lemma op_call_agrees run depth ctx : runner_agrees sim run → frames_agree sim (op_call run depth ctx).
Proof. intros Hrun. unfold op_call. agreeing. Qed.

Lemma op_create2_agrees run reg depth ctx :
  runner_agrees sim run → frames_agree sim (op_create2 run reg depth ctx).
Proof. intros Hrun. unfold op_create2. agreeing. Qed.

Hint Resolve op_call_agrees op_create2_agrees : agree.

Lemma exec_op_agrees run reg contract depth ctx o :
  runner_agrees sim run → frames_agree sim (exec_op run reg contract depth ctx o).
Proof.
  intros Hrun. destruct o; simpl;
    unfold binop, push_op, div_op, mod3_op, unop, shift_op, op_mload, op_mstore, op_dup1, op_sload,
      op_sstore, op_jump, op_jumpi, op_return, op_blake3, op_balance, op_native_transfer, native_guard;
    agreeing.
Qed.

Lemma step_agrees run reg contract depth ctx :
  runner_agrees sim run → frames_agree sim (step run reg contract depth ctx).
Proof. intros Hrun. unfold step, op_push. agreeing. by apply exec_op_agrees. Qed.

Lemma run_frame_agrees loop :
  (∀ c d ctx, frames_agree sim (loop c d ctx)) → runner_agrees sim (run_frame loop).
Proof.
  intros Hloop child caller target calldata depth ctx st1 st2 Hs. unfold run_frame. cbv beta zeta.
  match goal with |- (?m (child, st1)).1 = _ ∧ _ => assert (frames_agree sim m) as Hm by agreeing end.
  apply (Hm child st1 st2 Hs).
Qed.

Lemma run_loop_agrees fuel reg contract depth ctx : frames_agree sim (run_loop fuel reg contract depth ctx).
Proof.
  revert contract depth ctx. induction fuel as [|fuel IH]; intros contract depth ctx i st1 st2 Hs; simpl; [done|].
  destruct (pc i <? _); [|done].
  destruct (step_agrees _ reg contract depth ctx (run_frame_agrees _ IH) i st1 st2 Hs) as (H1 & H2 & H3).
  destruct (step _ reg contract depth ctx (i, st1)) as [[[]|e] [i1 s1]],
    (step _ reg contract depth ctx (i, st2)) as [[[]|e'] [i2 s2]]; simplify_eq/=; try done.
  by apply IH.
Qed.

Lemma run_agrees i caller contract calldata reg ctx st1 st2 :
  sim st1 st2 →
  let r1 := run_with_qa i caller contract calldata st1 reg ctx in
  let r2 := run_with_qa i caller contract calldata st2 reg ctx in
  r1.1 = r2.1 ∧ r1.2.1 = r2.2.1 ∧ sim r1.2.2 r2.2.2.
Proof. intros Hs. apply run_frame_agrees; [|done]. intros. apply run_loop_agrees. Qed.

End Runs.
