(* ===== verification/VmAgree.v ===== *)
(** * Execution sees the contents only

    Two stores with the same accounts, code, storage, pending items and registries
    may differ in their Merkle caches and undo journals, as those of two nodes do.
    Every transaction ends alike on both: the same result or error, and again the
    same contents. *)

From S2P Require Import Prelude Types Names Governance Blobs SampleMarket SlashAppeals Signatures OpenValidators Words Bytecode Qa Merkle Store Tokenomics StoreLaws StoreUndo Interp InterpAgree Vm VmWrites.

Definition alike (s1 s2 : VmStore) : Prop := same_contents (contents s1) (contents s2).

#[export] Instance alike_equiv : Equivalence alike.
Proof.
  unfold alike. split.
  - by intros s.
  - by intros s1 s2 H.
  - intros s1 s2 s3 H12 H23. by etrans.
Qed.

Section Reads.
Lemma alike_get (s1 s2 : VmStore) id : alike s1 s2 → get s1 id = get s2 id.
Proof. intros [Ha _ _ _ _]. unfold get. by rewrite Ha. Qed.

Lemma alike_balance (s1 s2 : VmStore) id : alike s1 s2 → balance_of s1 id = balance_of s2 id.
Proof. intros Hs. unfold balance_of. by rewrite (alike_get s1 s2). Qed.

Lemma alike_stake (s1 s2 : VmStore) id : alike s1 s2 → stake_in s1 id = stake_in s2 id.
Proof. intros Hs. unfold stake_in. by rewrite (alike_get s1 s2). Qed.

Lemma alike_code (s1 s2 : VmStore) id : alike s1 s2 → Store.get_contract_code s1 id = Store.get_contract_code s2 id.
Proof. intros [_ Hc _ _ _]. unfold Store.get_contract_code. by rewrite Hc. Qed.

Lemma alike_storage (s1 s2 : VmStore) c k : alike s1 s2 → get_contract_storage s1 c k = get_contract_storage s2 c k.
Proof. intros [_ _ Hs _ _]. unfold get_contract_storage. by rewrite Hs. Qed.

Lemma alike_pending (s1 s2 : VmStore) : alike s1 s2 → qa_pending (contents s1) = qa_pending (contents s2).
Proof. by intros []. Qed.

Lemma alike_registry (s1 s2 : VmStore) r : alike s1 s2 → registries (contents s1) r = registries (contents s2) r.
Proof. by intros []. Qed.

End Reads.

(** A function of the store that gives the same on stores that are alike. *)
Definition seen {A} (f : VmStore → A) : Prop := ∀ s1 s2, alike s1 s2 → f s1 = f s2.

(** A change of the store that keeps stores alike. *)
Definition respects (f : VmStore → VmStore) : Prop := ∀ s1 s2, alike s1 s2 → alike (f s1) (f s2).

(** A computation that ends alike on stores that are alike. *)
Definition agrees {E A} (m : ST VmStore E A) : Prop :=
  ∀ s1 s2, alike s1 s2 → (m s1).1 = (m s2).1 ∧ alike (m s1).2 (m s2).2.

Section Writes.
Context `{Host} `{RegistryCodec}.

Lemma respects_get_mut id f : respects (get_mut id f).
Proof. intros s1 s2 [Ha Hc Hs Hq Hr]. unfold alike. rewrite !contents_get_mut. constructor; simpl; congruence. Qed.

Lemma respects_insert id a : respects (insert_account id a).
Proof. intros s1 s2 [Ha Hc Hs Hq Hr]. unfold alike. rewrite !contents_insert. constructor; simpl; congruence. Qed.

Lemma respects_code id c : respects (set_contract_code id c).
Proof. intros s1 s2 [Ha Hc Hs Hq Hr]. unfold alike. rewrite !contents_code. constructor; simpl; congruence. Qed.

Lemma respects_storage c k v : respects (merge_contract_storage c k v).
Proof. intros s1 s2 [Ha Hc Hs Hq Hr]. unfold alike. rewrite !contents_storage. constructor; simpl; congruence. Qed.

Lemma respects_qa_mut s f : respects (qa_pending_mut s f).
Proof. intros s1 s2 [Ha Hc Hs Hq Hr]. unfold alike. rewrite !contents_qa_mut. constructor; simpl; congruence. Qed.

Lemma respects_qa_insert s r : respects (insert_qa_pending s r).
Proof. intros s1 s2 [Ha Hc Hs Hq Hr]. unfold alike. rewrite !contents_qa_insert. constructor; simpl; congruence. Qed.

Lemma respects_qa_remove s : respects (remove_qa_pending s).
Proof. intros s1 s2 [Ha Hc Hs Hq Hr]. unfold alike. rewrite !contents_qa_remove. constructor; simpl; congruence. Qed.

Lemma respects_registry r f : respects (registry_mut r f).
Proof.
  intros s1 s2 [Ha Hc Hs Hq Hr]. unfold alike. rewrite !contents_registry.
  constructor; simpl; try congruence. intros r'. case_decide; congruence.
Qed.

Lemma respects_id : respects (λ st, st).
Proof. by intros s1 s2 Hs. Qed.

(** A branch on what is seen. *)
Lemma respects_match {A} (f : VmStore → A) (g : A → VmStore → VmStore) :
  seen f → (∀ a, respects (g a)) → respects (λ st, g (f st) st).
Proof. intros Hf Hg s1 s2 Hs. rewrite (Hf s1 s2 Hs). by apply Hg. Qed.

Lemma respects_comp f g : respects f → respects g → respects (λ st, g (f st)).
Proof. intros Hf Hg s1 s2 Hs. apply Hg, Hf, Hs. Qed.

Lemma respects_fold {A} (f : A → VmStore → VmStore) l :
  (∀ a, respects (f a)) → respects (λ st, foldl (λ st a, f a st) st l).
Proof. intros Hf. induction l as [|a l IH]; intros s1 s2 Hs; simpl; [done|]. by apply IH, Hf. Qed.

Lemma seen_get id : seen (λ st, get st id).
Proof. intros s1 s2. apply alike_get. Qed.

Lemma respects_credit id amount : respects (credit_account id amount).
Proof.
  unfold credit_account. intros s1 s2 Hs. rewrite (alike_get s1 s2 id Hs). destruct (amount =? 0); [done|].
  destruct (get s2 id); [by apply respects_get_mut|by apply respects_insert].
Qed.

Lemma respects_credit_or_create to amount : respects (credit_or_create to amount).
Proof.
  unfold credit_or_create. intros s1 s2 Hs. rewrite (alike_get s1 s2 to Hs).
  destruct (get s2 to); [by apply respects_get_mut|by apply respects_insert].
Qed.

Lemma respects_distribute r s : respects (distribute r s).
Proof. intros s1 s2 Hs. unfold distribute. by repeat apply respects_credit. Qed.

End Writes.

#[export] Hint Resolve respects_get_mut respects_insert respects_code respects_storage respects_qa_mut
  respects_qa_insert respects_qa_remove respects_registry respects_id respects_credit
  respects_credit_or_create respects_distribute : agree.

(** ** Computations *)

Section Agrees.
Context `{Host} `{RegistryCodec}.

Lemma agrees_bind {E A B} (m : ST VmStore E A) (k : A → ST VmStore E B) :
  agrees m → (∀ a, agrees (k a)) → agrees (m ≫= k).
Proof.
  intros Hm Hk s1 s2 Hs. unfold mbind, st_bind. destruct (Hm s1 s2 Hs) as [H1 H2].
  destruct (m s1) as [[a|e] s1'], (m s2) as [[a'|e'] s2']; simplify_eq/=; [|done]. by apply Hk.
Qed.

Lemma agrees_ret {E A} (a : A) : agrees (E:=E) (mret a).
Proof. by intros s1 s2 Hs. Qed.

Lemma agrees_fail {E A} (e : E) : agrees (A:=A) (st_fail e).
Proof. by intros s1 s2 Hs. Qed.

Lemma agrees_require {E} c (e : E) : agrees (st_require c e).
Proof. destruct c; by intros s1 s2 Hs. Qed.

Lemma agrees_some {E A} (o : option A) (e : E) : agrees (st_some o e).
Proof. destruct o; by intros s1 s2 Hs. Qed.

Lemma agrees_lift {E A} (f : E → Fault) (r : result A E) : agrees (lift_result f r).
Proof. destruct r; by intros s1 s2 Hs. Qed.

Lemma agrees_look {A} (f : VmStore → A) : seen f → agrees (look f).
Proof. intros Hf s1 s2 Hs. simpl. by rewrite (Hf s1 s2 Hs). Qed.

Lemma agrees_modify {E} f : respects f → agrees (E:=E) (st_modify f).
Proof. intros Hf s1 s2 Hs. split; [done|]. by apply Hf. Qed.

Lemma agrees_pure {E A} (f : VmStore → A * VmStore) :
  (∀ s1 s2, alike s1 s2 → (f s1).1 = (f s2).1 ∧ alike (f s1).2 (f s2).2) → agrees (E:=E) (pure_st f).
Proof.
  intros Hf s1 s2 Hs. unfold pure_st. destruct (Hf s1 s2 Hs) as [H1 H2].
  destruct (f s1), (f s2). by simplify_eq/=.
Qed.

Lemma agrees_map_err {E F A} (f : E → F) (m : ST VmStore E A) : agrees m → agrees (map_err f m).
Proof.
  intros Hm s1 s2 Hs. unfold map_err. destruct (Hm s1 s2 Hs) as [H1 H2].
  destruct (m s1) as [[] ?], (m s2) as [[] ?]; by simplify_eq/=.
Qed.

Lemma agrees_registry {S E A} r (prj : AllRegs → S) put (f : E → Fault) (m : ST S E A) :
  agrees (on_registry r prj put f m).
Proof.
  intros s1 s2 Hs. unfold on_registry. rewrite (alike_registry s1 s2 r Hs).
  destruct (m _) as [[] ?]; split; try done; by apply respects_registry.
Qed.

Lemma agrees_account {E A} id (missing : E) (m : ST AccountState E A) : agrees (with_account id missing m).
Proof.
  intros s1 s2 Hs. unfold with_account. rewrite (alike_get s1 s2 id Hs). destruct (get s2 id) as [a|]; [|done].
  destruct (m a). split; [done|]. by apply respects_get_mut.
Qed.

Lemma agrees_move from to amount : agrees (move_native from to amount).
Proof.
  intros s1 s2 Hs. unfold move_native.
  rewrite !(alike_balance s1 s2 _ Hs), (alike_get s1 s2 from Hs).
  destruct (_ <? _); [done|]. destruct (_ || _); [done|]. destruct (checked_add _ _ _) as [c|]; [|done].
  destruct (get s2 from); [|done]. split; [done|]. simpl.
  set (f := λ a, set_balance a (balance a - amount)).
  assert (alike (get_mut from f s1) (get_mut from f s2)) as Hs' by by apply respects_get_mut.
  rewrite (alike_get _ _ to Hs'). destruct (get _ to); [by apply respects_get_mut|by apply respects_insert].
Qed.

Lemma agrees_pay from to amount : agrees (pay from to amount).
Proof. apply agrees_map_err, agrees_move. Qed.

Lemma agrees_pay_if from to amount : agrees (pay_if from to amount).
Proof. unfold pay_if. destruct (0 <? amount); [apply agrees_pay|apply agrees_ret]. Qed.

Lemma agrees_sender {A} tx (m : ST AccountState Fault A) : agrees (with_sender tx m).
Proof. apply agrees_account. Qed.

Lemma agrees_bump tx : agrees (bump_sender_nonce tx).
Proof. apply agrees_sender. Qed.

End Agrees.

Section Money.
Context `{Host} `{RegistryCodec}.

(** The credit of an account that is created when it is missing. *)
Lemma respects_put id f a0 :
  respects (λ st, match get st id with Some _ => get_mut id f st | None => insert_account id a0 st end).
Proof.
  intros s1 s2 Hs. cbv beta. rewrite (alike_get s1 s2 id Hs).
  destruct (get s2 id); [by apply respects_get_mut|by apply respects_insert].
Qed.

Lemma respects_rewards voters each : respects (λ st, (pay_qa_counted_voters voters each st).2).
Proof.
  intros s1 s2 Hs. unfold pay_qa_counted_voters. rewrite (alike_balance s1 s2 _ Hs).
  destruct (_ || _); [done|]. destruct (_ =? 0); [done|]. simpl.
  apply (respects_fold (λ v, credit_account v _)); [auto with agree|]. by apply respects_get_mut.
Qed.

Lemma agrees_slash bps v slash_id : agrees (E:=Fault) (pure_st (slash_stake bps v slash_id)).
Proof.
  apply agrees_pure. intros s1 s2 Hs. unfold slash_stake. rewrite (alike_get s1 s2 v Hs).
  destruct (get s2 v) as [a|]; [|done]. destruct (_ =? 0); simpl; (split; [done|]).
  - by apply respects_get_mut.
  - by apply respects_credit, respects_get_mut.
Qed.

Lemma agrees_restore_source slash_id amount : agrees (debit_slash_restore_source slash_id amount).
Proof.
  intros s1 s2 Hs. unfold debit_slash_restore_source. rewrite !(alike_balance s1 s2 _ Hs).
  repeat case_match; split; try done; by apply respects_get_mut.
Qed.

Lemma agrees_restore_equivocation v slash_id amount : agrees (restore_equivocation_slash v slash_id amount).
Proof.
  apply agrees_bind; [apply agrees_restore_source|intros _]. destruct (amount =? 0); [apply agrees_ret|].
  apply agrees_bind; [apply agrees_modify, respects_put|intros _; apply agrees_ret].
Qed.

Lemma agrees_restore_failed_serve v slash_id amount : agrees (restore_failed_serve_penalty v slash_id amount).
Proof.
  apply agrees_bind; [apply agrees_restore_source|intros _]. destruct (amount =? 0); [apply agrees_ret|].
  apply agrees_bind; [apply agrees_modify, respects_put|intros _; apply agrees_ret].
Qed.

Lemma agrees_charge sender fee r p rem : agrees (charge_and_distribute_fee_with_remainder sender fee r p rem).
Proof.
  unfold charge_and_distribute_fee_with_remainder. destruct (fee =? 0); [apply agrees_ret|].
  apply agrees_bind; [apply agrees_account|intros _]. auto using agrees_modify with agree.
Qed.

Lemma agrees_tip sender tip r p : agrees (charge_priority_tip sender tip r p).
Proof.
  unfold charge_priority_tip. destruct (tip =? 0); [apply agrees_ret|].
  apply agrees_bind; [apply agrees_account|intros _]. auto using agrees_modify with agree.
Qed.

Lemma alike_in_use s1 s2 addr : alike s1 s2 → address_in_use s1 addr = address_in_use s2 addr.
Proof. intros Hs. unfold address_in_use. by rewrite (alike_get s1 s2), (alike_code s1 s2). Qed.

#[export] Instance store_agrees `{TextOps} : StoreAgrees alike.
Proof.
  split; simpl; intros.
  - by apply alike_storage.
  - by apply alike_code.
  - by apply alike_balance.
  - by apply respects_storage.
  - by apply agrees_move.
  - unfold apply_in_tx_create2. case_match; [done|]. case_match; try done.
    rewrite (alike_in_use st1 st2) by done. destruct (address_in_use _ _); [done|].
    match goal with |- context [insert_account ?a ?x st1] =>
      pose proof (respects_insert a x st1 st2 ltac:(done)) as Hs;
      generalize dependent (insert_account a x st1); intros u1 Hs;
      generalize dependent (insert_account a x st2); intros u2 Hs end.
    destruct (contract_deploy_uses_init_code bytecode).
    + destruct (MAX_CALL_DEPTH <=? _); [done|].
      match goal with Hr : runner_agrees _ run |- context [run ?i ?c ?t ?d ?n ?x u1] =>
        destruct (Hr i c t d n x u1 u2 Hs) as (Hr1 & Hr2 & Hr3);
        destruct (run i c t d n x u1) as [[] [? ?]], (run i c t d n x u2) as [[] [? ?]] end; simplify_eq/=; try done.
      destruct (merge_child_logs _ _); [|done].
      destruct (if vm_hardening ctx then _ else _); simpl; split_and!; try done. by apply respects_code.
    + simpl. split_and!; try done. by apply respects_code.
Qed.

Lemma agrees_run `{TextOps} vm i caller contract calldata ctx :
  agrees (run_contract vm i caller contract calldata ctx).
Proof.
  intros s1 s2 Hs. unfold run_contract.
  destruct (run_agrees alike i caller contract calldata (qa_at vm ctx) ctx s1 s2 Hs) as (Hr1 & Hr2 & Hr3).
  destruct (run_with_qa _ _ _ _ s1 _ _) as [[] [? ?]], (run_with_qa _ _ _ _ s2 _ _) as [[] [? ?]]; by simplify_eq/=.
Qed.

End Money.

Lemma seen_pending_at subject : seen (λ st, qa_pending (contents st) !! subject).
Proof. intros s1 s2 Hs. by rewrite (alike_pending s1 s2). Qed.

Lemma seen_pending_counts id : seen (qa_pending_counts id).
Proof. intros s1 s2 Hs. unfold qa_pending_counts. by rewrite (alike_pending s1 s2). Qed.

(** Reads of the registries, accounts and code. *)
Ltac seeing :=
  let Hs := fresh "Hs" in
  intros ? ? Hs; cbv beta;
  unfold open_validators, the_names, sample_offers, sample_serve, slash_appeals, governance, qa_policy in *;
  rewrite ?(alike_get _ _ _ Hs), ?(alike_balance _ _ _ Hs), ?(alike_stake _ _ _ Hs), ?(alike_code _ _ _ Hs),
    ?(alike_in_use _ _ _ Hs), ?(alike_pending _ _ Hs), ?(alike_registry _ _ _ Hs);
  reflexivity.

#[export] Hint Resolve agrees_ret agrees_fail agrees_require agrees_some agrees_lift agrees_registry
  agrees_account agrees_pay agrees_pay_if agrees_sender agrees_bump agrees_slash agrees_charge agrees_tip
  agrees_restore_equivocation agrees_restore_failed_serve agrees_run respects_rewards seen_pending_counts
  seen_pending_at : agree.
#[export] Hint Extern 1 (agrees (on_registry _ _ _ _ _)) => apply agrees_registry : agree.
#[export] Hint Extern 1 (agrees (on_validators _)) => apply agrees_registry : agree.
#[export] Hint Extern 1 (agrees (on_names _)) => apply agrees_registry : agree.
#[export] Hint Extern 1 (agrees (on_offers _)) => apply agrees_registry : agree.
#[export] Hint Extern 1 (agrees (on_serve _)) => apply agrees_registry : agree.
#[export] Hint Extern 1 (agrees (on_appeals _)) => apply agrees_registry : agree.
#[export] Hint Extern 1 (agrees (on_governance _)) => apply agrees_registry : agree.
#[export] Hint Extern 1 (agrees (on_engine _)) => apply agrees_registry : agree.
#[export] Hint Extern 1 (agrees (blob_check _)) => apply agrees_lift : agree.
#[export] Hint Extern 1 (agrees (vm_error _)) => apply agrees_fail : agree.
#[export] Hint Extern 1 (agrees (pure_st (slash_equivocation_stake _ _))) => apply agrees_slash : agree.

(** Follows a handler's binds and branches. *)
Ltac agree_steps :=
  lazymatch goal with
  | |- agrees (mbind _ _) => apply agrees_bind; [agree_steps|intros ?; agree_steps]
  | |- agrees (match ?x with _ => _ end) => destruct x; agree_steps
  | |- agrees (look _) => apply agrees_look; first [solve [auto with agree]|seeing|idtac]
  | |- agrees (st_modify _) => apply agrees_modify; auto with agree
  | |- agrees (map_err _ _) => apply agrees_map_err; agree_steps
  | _ => first [solve [auto with agree]|progress cbv beta zeta; agree_steps|idtac]
  end.

Section Handlers.
Context `{Host} `{Crypto} `{TextOps} `{HexText} `{RegistryCodec}.
Context (pins : HostPins) (vm : VmConfig) (signing_chain_id : option Z) (tx : Transaction).

Lemma agrees_contract_call contract calldata value ctx :
  agrees (execute_contract_call vm tx contract calldata value ctx).
Proof. unfold execute_contract_call. agree_steps. Qed.

Lemma agrees_store_code dtx addr d ctx : agrees (store_code vm dtx addr d ctx).
Proof. unfold store_code, run_init. agree_steps. Qed.

Lemma agrees_install_code dtx addr d ctx : agrees (install_code vm dtx addr d ctx).
Proof. unfold install_code. agree_steps. apply agrees_store_code. Qed.

Lemma agrees_register_unsure height : agrees (register_unsure_deploy vm tx height).
Proof. unfold register_unsure_deploy. agree_steps. Qed.

Hint Resolve agrees_install_code agrees_register_unsure : agree.

Lemma agrees_contract_deploy ctx : agrees (execute_contract_deploy vm tx ctx).
Proof. unfold execute_contract_deploy. agree_steps. Qed.

Lemma agrees_install_deploy dtx ctx : agrees (install_contract_from_deploy_tx vm dtx ctx).
Proof. unfold install_contract_from_deploy_tx. agree_steps. Qed.

Hint Resolve agrees_install_deploy : agree.

Lemma agrees_finish_vote subject rec decision ctx : agrees (finish_qa_vote vm subject rec decision ctx).
Proof. unfold finish_qa_vote. agree_steps. Qed.

Hint Resolve agrees_finish_vote : agree.

Lemma agrees_qa_pool_vote subject vote ctx : agrees (execute_qa_pool_vote vm tx subject vote ctx).
Proof. unfold execute_qa_pool_vote. agree_steps. Qed.

Lemma agrees_batch_call ctx index contract calldata value acc :
  agrees (batch_contract_call vm tx ctx index contract calldata value acc).
Proof. unfold batch_contract_call. agree_steps. Qed.

Lemma agrees_batch_step ctx index call acc : agrees (batch_step vm tx ctx index call acc).
Proof. unfold batch_step. agree_steps; apply agrees_batch_call. Qed.

Lemma agrees_batch_steps ctx calls index acc : agrees (batch_steps vm tx ctx index calls acc).
Proof.
  revert index acc. induction calls as [|call calls IH]; intros index acc; simpl; [apply agrees_ret|].
  apply agrees_bind; [apply agrees_batch_step|intros ?; apply IH].
Qed.

Hint Resolve agrees_batch_steps : agree.

Lemma agrees_batch calls ctx : agrees (execute_batch vm tx calls ctx).
Proof. unfold execute_batch. agree_steps. Qed.

Lemma agrees_name_tx height keyed unit : agrees (execute_name_tx pins tx height keyed unit).
Proof. unfold execute_name_tx, name_params_at, name_call, name_label. agree_steps. Qed.

Lemma agrees_settle_failed height l : agrees (settle_failed_challenges height l).
Proof.
  induction l as [|c l IH]; simpl; [apply agrees_ret|]. apply agrees_bind; [|intros ?; apply IH].
  unfold settle_failed_challenge. agree_steps.
Qed.

Hint Resolve agrees_settle_failed : agree.

Lemma agrees_housekeeping height : agrees (apply_media_blob_block_housekeeping height).
Proof. unfold apply_media_blob_block_housekeeping, settle_expired_serve_challenges. agree_steps. Qed.

Lemma agrees_refund_offers l : agrees (refund_offers l).
Proof. induction l as [|o l IH]; simpl; [apply agrees_ret|]. agree_steps. Qed.

Hint Resolve agrees_housekeeping agrees_refund_offers : agree.

Lemma agrees_refund_expired height : agrees (refund_expired_sample_offers height).
Proof. unfold refund_expired_sample_offers. agree_steps. Qed.

Lemma agrees_restore_slash slash_id : agrees (restore_slash slash_id).
Proof. unfold restore_slash. agree_steps. Qed.

Lemma agrees_pending_appeal id : agrees (pending_appeal id).
Proof. unfold pending_appeal. agree_steps. Qed.

Lemma seen_pinned_stake : seen (pinned_stake pins).
Proof.
  intros s1 s2 Hs. unfold pinned_stake. generalize 0 as w. induction (pinned pins) as [|id l IH]; intros w; simpl; [done|].
  rewrite (alike_stake s1 s2 id Hs). apply IH.
Qed.

Lemma seen_stakes {A} (g : AccountId → Z → A) (l : list AccountId) : seen (λ st, (λ id, g id (stake_in st id)) <$> l).
Proof.
  intros s1 s2 Hs. induction l as [|id l IH]; [done|]. rewrite !fmap_cons.
  by rewrite (alike_stake s1 s2 id Hs), IH.
Qed.

Hint Resolve agrees_refund_expired agrees_restore_slash agrees_pending_appeal seen_pinned_stake : agree.

Lemma agrees_resolve id ok sig height :
  agrees (execute_resolve_slash_appeal pins vm signing_chain_id tx id ok sig height).
Proof.
  unfold execute_resolve_slash_appeal, check_ballot, resolve_weights, sender_may_resolve_slash_appeal.
  agree_steps.
Qed.

Lemma agrees_resolve_bls id ok bitset sig keys height :
  agrees (execute_resolve_slash_appeal_bls_aggregate pins vm signing_chain_id tx id ok bitset sig keys height).
Proof.
  unfold execute_resolve_slash_appeal_bls_aggregate. agree_steps.
  apply (seen_stakes (λ voter w, (voter, ok, w, None))).
Qed.

Lemma agrees_submit slash_id evidence height :
  agrees (execute_submit_slash_appeal pins tx slash_id evidence height).
Proof. unfold execute_submit_slash_appeal. agree_steps. apply (seen_stakes (λ _ w, w)). Qed.

Hint Resolve agrees_contract_call agrees_contract_deploy agrees_qa_pool_vote agrees_batch agrees_name_tx
  agrees_resolve agrees_resolve_bls agrees_submit : agree.

Lemma agrees_payload ctx : agrees (execute_payload pins vm signing_chain_id tx ctx).
Proof.
  unfold execute_payload. cbv zeta. destruct (tx_payload tx); try (by auto with agree);
    unfold fixed_gas, execute_bond, execute_unbond, execute_claim_unbond, transfer_arm,
      execute_validator_register, execute_validator_deregister, execute_validator_unjail,
      open_validator_params_at, require_blobs, execute_put_blob, execute_blob_announce,
      execute_blob_download_acl_tx, execute_renew_media_blob_pin, execute_pay_blob_sample,
      execute_register_blob_sample_offer, execute_settle_blob_sample_match, execute_cancel_blob_sample_offer,
      execute_challenge_blob_sample_serve, execute_respond_blob_sample_serve, execute_report_equivocation,
      execute_governance_propose, execute_governance_vote, execute_governance_advance_cooling,
      require_governance_consensus_active, check_chunk, require_blobs; agree_steps.
Qed.

Lemma agrees_execute ctx : agrees (execute_with_context pins vm signing_chain_id tx ctx).
Proof. unfold execute_with_context. agree_steps. apply agrees_payload. Qed.

End Handlers.

(** ** The start of a block *)

Section Opening.
Context `{Host} `{RegistryCodec} `{PolicyJson}.

Lemma respects_commit key value : respects (commit_qa_value key value).
Proof. unfold commit_qa_value. repeat case_match; auto with agree. Qed.

Lemma respects_one_due now id : respects (λ st, apply_one_due now st id).
Proof.
  intros s1 s2 Hs. unfold apply_one_due.
  assert (agrees (on_governance (execute_due id now))) as Hg by auto with agree.
  destruct (Hg s1 s2 Hs) as [Hr1 Hr2].
  destruct (on_governance _ s1) as [[[key value]|e] u1], (on_governance _ s2) as [[[key' value']|e'] u2];
    simplify_eq/=; [|done]. by apply respects_commit.
Qed.

Lemma respects_due now : respects (apply_due_qa_governance now).
Proof.
  intros s1 s2 Hs. unfold apply_due_qa_governance, governance. rewrite (alike_registry _ _ _ Hs).
  by apply (respects_fold (λ id st, apply_one_due now st id)); [apply respects_one_due|].
Qed.

Lemma seen_canonical vm : seen (with_canonical_qa vm).
Proof.
  intros s1 s2 Hs. unfold with_canonical_qa, canonical_qa_policy, qa_policy. by rewrite (alike_registry _ _ _ Hs).
Qed.

End Opening.
