(* ===== verification/Executor.v ===== *)
(** * The block executor

    Models [crates/boing-execution/src/executor.rs], [history.rs], [parallel.rs]
    and the receipts of [crates/boing-primitives/src/types.rs]: the height-gated
    rules, the parallel attempt on a batch of transfers, the sequential path with
    its checkpoint per transaction, the failed-transaction fee, and a whole block.

    An error's text carries data the model's errors leave out, so the text of the
    error at each index of the block is an argument. A panic of the process is
    [ExecCrash]. *)

From S2P Require Import Prelude Types Names Governance Blobs SampleMarket SlashAppeals Signatures OpenValidators Words Bytecode Qa Merkle Store Tokenomics Scheduler Interp Vm.

(** ** Receipts *)

Definition MAX_RECEIPT_ERROR_STRING_BYTES : nat := 2048.

Record ExecutionReceipt := mkReceipt {
  rc_tx_id : Hash;
  rc_block_height : Z;
  rc_tx_index : Z;
  rc_success : bool;
  rc_gas_used : Z;
  rc_return_data : bytes;
  rc_logs : list ExecutionLog;
  rc_error : option bytes;
}.

(** [str::is_char_boundary] on UTF-8 text: not before a continuation byte. *)
Definition is_char_boundary (s : bytes) (i : nat) : bool :=
  match s !! i with
  | Some b => (b <? 128) || (192 <=? b)
  | None => (i =? length s)%nat
  end.

(** [String::truncate], which panics inside a character. *)
Definition str_truncate (n : nat) (s : bytes) : option bytes :=
  if (n <=? length s)%nat then if is_char_boundary s n then Some (take n s) else None else Some s.

Definition sanitize_log (l : ExecutionLog) : ExecutionLog :=
  mkExecutionLog (take MAX_EXECUTION_LOG_TOPICS (log_topics l))
    (take (Z.to_nat MAX_EXECUTION_LOG_DATA_BYTES) (log_data l)).

Definition sanitize_logs (ls : list ExecutionLog) : list ExecutionLog :=
  sanitize_log <$> take MAX_EXECUTION_LOGS_PER_TX ls.

Definition sanitize_error (s : bytes) : option (option bytes) :=
  s ← (if (MAX_RECEIPT_ERROR_STRING_BYTES <? length s)%nat
       then str_truncate MAX_RECEIPT_ERROR_STRING_BYTES s else Some s);
  Some (match s with [] => None | _ => Some s end).

(** [None] is a panic. *)
Definition from_tx_outcome `{Host} (tx : Transaction) (height : Z) (index : nat) (success : bool) (gas : Z)
    (data : bytes) (ls : list ExecutionLog) (error : option bytes) : option ExecutionReceipt :=
  err ← match error with Some s => sanitize_error s | None => Some None end;
  Some (mkReceipt (tx_id tx) height (Z.of_nat index mod 2 ^ 32) success gas
          (take (Z.to_nat MAX_RECEIPT_RETURN_DATA_BYTES) data) (sanitize_logs ls) err).

(** ** Height-gated rules *)

Record FeeEra := mkFeeEra {
  fe_from_height : Z;
  fe_policy : NetworkFeePolicy;
  fe_remainder : FeeRemainder;
}.

Record ExecutionHistory := mkHistory {
  h_chain_id : Z;
  h_fee_eras : list FeeEra;
  h_current_from : Z;
  h_failed_tx_fee_from : Z;
  h_tx_v2_from : Z;
  h_block_sigs_from : Z;
  h_registration_proof_v2_from : Z;
  h_security_v4_from : Z;
  h_base_units_from : Z;
  h_native_value_from : Z;
  h_micro_fees_from : Z;
  h_vm_hardening_from : Z;
  h_equivocation_slash_from : Z;
  h_vm_jump_strict_from : Z;
  h_qa_canonical_from : option Z;
}.

(** [iter().rev().find(..)] below [current_from]. *)
Definition fee_era_at (h : ExecutionHistory) (height : Z) : option FeeEra :=
  if h_current_from h <=? height then None
  else snd <$> list_find (λ e, fe_from_height e ≤ height) (rev (h_fee_eras h)).

(** ** The executor *)

Record BlockExecutor := mkExecutor {
  ex_vm : VmConfig;
  ex_fee_policy : NetworkFeePolicy;
  ex_history : option ExecutionHistory;
}.

Definition with_policies (registry : RuleRegistry) (pool : QaPoolGovernanceConfig) (p : NetworkFeePolicy)
    : BlockExecutor := mkExecutor (with_qa_policies registry pool) p None.

Definition new_executor : BlockExecutor := mkExecutor new_vm treasury_default None.

(** The heights [set_execution_history] passes to the machine. *)
Definition vm_with_history (vm : VmConfig) (h : option ExecutionHistory) : VmConfig :=
  match h with
  | Some h =>
      mkVm (qa_registry vm) (qa_registry_native vm) (h_native_value_from h) (h_vm_hardening_from h)
        (h_equivocation_slash_from h) (h_vm_jump_strict_from h) (h_qa_canonical_from h) (qa_pool_config vm)
        (if h_chain_id h =? 0 then None else Some (h_chain_id h)) (h_registration_proof_v2_from h)
        (h_security_v4_from h) (h_base_units_from h) (media_blobs_from vm) (blobs_root_header_from vm)
        (media_blobs_phase7_cap_from vm) (bls_committee_flip_from vm) (governance_consensus_from vm)
        (blake3_from vm)
  | None =>
      mkVm (qa_registry vm) (qa_registry_native vm) 0 0 0 0 None (qa_pool_config vm)
        (registration_chain_id vm) (registration_v2_from vm) (security_v4_from vm) 0 (media_blobs_from vm)
        (blobs_root_header_from vm) (media_blobs_phase7_cap_from vm) (bls_committee_flip_from vm)
        (governance_consensus_from vm) (blake3_from vm)
  end.

Definition set_execution_history (h : option ExecutionHistory) (ex : BlockExecutor) : BlockExecutor :=
  mkExecutor (vm_with_history (ex_vm ex) h) (ex_fee_policy ex) h.

(** [history.map(|h| height >= from(h)).unwrap_or(true)]. *)
Definition gated (ex : BlockExecutor) (from : ExecutionHistory → Z) (height : Z) : bool :=
  match ex_history ex with Some h => from h <=? height | None => true end.

Definition micro_fees_active (ex : BlockExecutor) (height : Z) : bool := gated ex h_micro_fees_from height.
Definition failed_tx_fee_active (ex : BlockExecutor) (height : Z) : bool :=
  gated ex h_failed_tx_fee_from height.
Definition security_v4_active (ex : BlockExecutor) (height : Z) : bool := gated ex h_security_v4_from height.

Definition ex_denomination_at (ex : BlockExecutor) (height : Z) : Denomination :=
  if gated ex h_base_units_from height then BaseUnits else WholeBoing.

Definition fee_rule_at (ex : BlockExecutor) (height : Z) : NetworkFeePolicy * FeeRemainder :=
  let '(policy, remainder) :=
    match h ← ex_history ex; fee_era_at h height with
    | Some era => (fe_policy era, fe_remainder era)
    | None => (ex_fee_policy ex, RemTreasury)
    end in
  (if negb (micro_fees_active ex height) && (execution_gas_fee_bps policy <? 10000)
   then set_execution_gas_fee_bps policy 10000 else policy, remainder).

Definition redenomination_height (ex : BlockExecutor) : option Z :=
  h ← ex_history ex; if 0 <? h_base_units_from h then Some (h_base_units_from h) else None.

Definition network_fee_at (ex : BlockExecutor) (gas : Z) (p : TransactionPayload) (height : Z) : Z :=
  network_fee_amount_in gas p (fee_rule_at ex height).1 (ex_denomination_at ex height).

Definition block_emission (ex : BlockExecutor) (height : Z) : Z :=
  block_emission_validators_in height (ex_denomination_at ex height).

Definition FAILED_TX_GAS : Z := GAS_PER_TRANSFER.

Definition failed_tx_fee_amount_in (p : NetworkFeePolicy) (d : Denomination) : Z :=
  sat_add u128_max (execution_gas_fee_in FAILED_TX_GAS p d) (extra_fixed_fee p).

Record FailedTxFee := mkFailedTxFee {
  ff_policy : NetworkFeePolicy;
  ff_remainder : FeeRemainder;
  ff_recipient : AccountId;
  ff_denom : Denomination;
}.

(** ** Views of the parallel path *)

Notation ExecutionView := (gmap AccountId AccountState).

#[export] Instance view_transfers : TransferState ExecutionView := {|
  ts_get v id := v !! id;
  ts_set id a v := alter (λ _, a) id v;
  ts_insert id a v := <[id := a]> v;
|}.

(** ** Errors *)

Inductive ExecutionError :=
| ExecVm (e : VmError)
| ConflictDetected
| ExecFee (e : FeeError).

Inductive ExecFault :=
| ExecErr (e : ExecutionError)
| ExecCrash.

Definition exec_fault (e : Fault) : ExecFault :=
  match e with Vm e => ExecErr (ExecVm e) | Panic | OutOfFuel => ExecCrash end.

(** ** Which batches may run in parallel *)

Definition is_transfer (p : TransactionPayload) : bool :=
  match p with Transfer _ _ => true | _ => false end.

(** [vec.contains(&id)]. *)
Definition contains_id (l : list AccountId) (id : AccountId) : bool := bool_decide (id ∈ l).

(** The body of the loop for one transaction: its accounts, or [None] to give up. *)
Definition declares_own (tx : Transaction) : bool :=
  match tx_payload tx with
  | Transfer to _ =>
      forallb (λ id, contains_id (al_read (tx_access_list tx)) id && contains_id (al_write (tx_access_list tx)) id)
        [tx_sender tx; to]
  | _ => false
  end.

Fixpoint safe_from (txs : list Transaction) (batch : list nat) (touched : gset AccountId) : bool :=
  match batch with
  | [] => true
  | i :: rest =>
      match txs !! i with
      | None => false
      | Some tx =>
          let own := list_to_set (al_all (tx_access_list tx)) in
          declares_own tx && bool_decide (own ## touched) && safe_from txs rest (own ∪ touched)
      end
  end.

Definition parallel_transfer_batch_is_safe (batch : list nat) (txs : list Transaction) : bool :=
  safe_from txs batch ∅.

Definition is_fee_account (recipient id : AccountId) : bool :=
  bool_decide (id = recipient) || bool_decide (id = PROTOCOL_TREASURY) || bool_decide (id = FEE_BURN_SINK).

Definition touches_fee_account (recipient : AccountId) (txs : list Transaction) (batch : list nat) : bool :=
  existsb (λ i, match txs !! i with
                | Some tx => existsb (is_fee_account recipient) (al_all (tx_access_list tx))
                | None => false
                end) batch.

(** ** A block *)

(** What one block execution fixes: the machine with its policy, the context and
    the fee rule. *)
Record BlockRun := mkBlockRun {
  br_vm : VmConfig;
  br_ctx : VmExecutionContext;
  br_policy : NetworkFeePolicy;
  br_remainder : FeeRemainder;
  br_recipient : AccountId;
  br_denom : Denomination;
  br_failed_fee : option FailedTxFee;
  br_exclude : bool;
  br_txs : list Transaction;
  br_tips : list Z;
}.

(** The receipts so far, by index. *)
Notation receipts := (list (option ExecutionReceipt)).

(** Gas so far and the receipts. *)
Notation progress := (Z * receipts)%type.

Section Block.
Context `{Host} `{RegistryCodec} `{Iteration} `{TextOps} `{Crypto} `{HexText} `{PolicyJson}.
Context (pins : HostPins) (signing_chain_id : option Z) (error_text : nat → ExecutionError → bytes).

Notation X := (ST VmStore ExecFault).

Definition prepare_state_for_height (ex : BlockExecutor) (height : Z) (st : VmStore) : VmStore :=
  if bool_decide (redenomination_height ex = Some height)
  then (redenominate BASE_UNITS_PER_BOING st).1 else st.

Definition record_receipt (idx : nat) (r : option ExecutionReceipt) (gas : Z) (p : progress) : X progress :=
  r ← st_some r ExecCrash;
  mret (sat_add u64_max p.1 gas, <[idx := Some r]> p.2).

Section Run.
Context (b : BlockRun).

Notation height := (block_height (br_ctx b)).

Definition tip_at (i : nat) : Z := default 0 (br_tips b !! i).

Definition charge_fees (tx : Transaction) (idx : nat) (gas : Z) : ST VmStore FeeError () :=
  _ ← charge_and_distribute_fee_with_remainder (tx_sender tx)
        (network_fee_amount_in gas (tx_payload tx) (br_policy b) (br_denom b)) (br_recipient b)
        (br_policy b) (br_remainder b);
  charge_priority_tip (tx_sender tx) (tip_at idx) (br_recipient b) (br_policy b).

(** The charge and the gas of a failed transaction whose sender is [a]. *)
Definition failed_charge (tx : Transaction) (a : option AccountState) : Z * Z :=
  match a, br_failed_fee b with
  | Some a, Some f =>
      if nonce a =? tx_nonce tx
      then (failed_tx_fee_amount_in (ff_policy f) (ff_denom f) `min` balance a, FAILED_TX_GAS) else (0, 0)
  | _, _ => (0, 0)
  end.

Definition consume_nonce (tx : Transaction) (a : AccountState) : AccountState :=
  if nonce a =? tx_nonce tx then set_nonce a (sat_add u64_max (nonce a) 1) else a.

Definition charge_failed (tx : Transaction) (charge : Z) (st : VmStore) : VmStore :=
  match br_failed_fee b with
  | Some f =>
      if 0 <? charge
      then (charge_and_distribute_fee_with_remainder (tx_sender tx) charge (ff_recipient f) (ff_policy f)
              (ff_remainder f) st).2
      else st
  | None => st
  end.

(** What follows the revert of a failed transaction. *)
Definition settle_failed (tx : Transaction) (idx : nat) (e : ExecutionError) (p : progress) : X progress :=
  a ← pure_st (λ st, (get st (tx_sender tx), st));
  let '(charge, gas) := failed_charge tx a in
  _ ← st_modify (get_mut (tx_sender tx) (consume_nonce tx));
  _ ← st_modify (charge_failed tx charge);
  record_receipt idx (from_tx_outcome tx height idx false gas [] [] (Some (error_text idx e))) gas p.

Definition apply_failed_tx_consuming_nonce (tx : Transaction) (cp : StateCheckpoint) (idx : nat)
    (e : ExecutionError) (p : progress) : X progress := λ st, settle_failed tx idx e p (revert cp st).

(** What follows the charges of a transaction that succeeded. *)
Definition settle_ok (tx : Transaction) (idx : nat) (out : VmExecutionResult) (p : progress) : X progress :=
  p ← record_receipt idx (from_tx_outcome tx height idx true (res_gas_used out) (res_return_data out)
                            (res_logs out) None) (res_gas_used out) p;
  _ ← st_modify drop_checkpoint;
  mret p.

(** One iteration of the sequential path. *)
Definition run_one (p : progress) (idx : nat) (tx : Transaction) : X progress := λ st,
  let '(cp, st) := checkpoint st in
  match execute_with_context pins (br_vm b) signing_chain_id tx (br_ctx b) st with
  | (Ok out, st) =>
      match charge_fees tx idx (res_gas_used out) st with
      | (Ok _, st) =>
          settle_ok tx idx out p st
      | (Err e, st) => apply_failed_tx_consuming_nonce tx cp idx (ExecFee e) p st
      end
  | (Err (Vm e), st) => apply_failed_tx_consuming_nonce tx cp idx (ExecVm e) p st
  | (Err _, st) => (Err ExecCrash, st)
  end.

Definition run_tx (p : progress) (idx : nat) : X progress :=
  tx ← st_some (br_txs b !! idx) ExecCrash;
  run_one p idx tx.

Fixpoint run_sequential (p : progress) (batch : list nat) : X progress :=
  match batch with
  | [] => mret p
  | idx :: rest => p ← run_tx p idx; run_sequential p rest
  end.

(** The part of the state a transaction declares. *)
Definition snapshot_of (st : VmStore) (tx : Transaction) : ExecutionView :=
  list_to_map (omap (λ id, pair id <$> get st id) (al_all (tx_access_list tx))).

(** One task of the parallel map. *)
Definition run_view (st : VmStore) (idx : nat) : result (nat * Transaction * ExecutionView * Z) ExecFault :=
  match br_txs b !! idx with
  | None => Err ExecCrash
  | Some tx =>
      match execute_transfer tx (snapshot_of st tx) with
      | (Ok out, view) => Ok (idx, tx, view, res_gas_used out)
      | (Err e, _) => Err (exec_fault e)
      end
  end.

Fixpoint run_views (st : VmStore) (batch : list nat)
    : result (list (nat * Transaction * ExecutionView * Z)) ExecFault :=
  match batch with
  | [] => Ok []
  | idx :: rest =>
      match run_view st idx, run_views st rest with
      | Ok r, Ok rs => Ok (r :: rs)
      | Err e, _ | _, Err e => Err e
      end
  end.

Fixpoint no_conflicts (views : list ExecutionView) (written : gset AccountId) : bool :=
  match views with
  | [] => true
  | v :: rest => bool_decide (dom v ## written) && no_conflicts rest (dom v ∪ written)
  end.

Definition merge_into (v : ExecutionView) (st : VmStore) : VmStore :=
  foldl (λ st e, merge_account e.1 e.2 st) st (iter (map_to_list v)).

Definition merge_one (p : progress) (r : nat * Transaction * ExecutionView * Z) : X progress :=
  let '(idx, tx, view, gas) := r in
  _ ← st_modify (merge_into view);
  _ ← map_err (λ e, ExecErr (ExecFee e)) (charge_fees tx idx gas);
  record_receipt idx (from_tx_outcome tx height idx true gas [] [] None) gas p.

Fixpoint merge_all (p : progress) (rs : list (nat * Transaction * ExecutionView * Z)) : X progress :=
  match rs with
  | [] => mret p
  | r :: rest => p ← merge_one p r; merge_all p rest
  end.

Definition read_views (batch : list nat) : X (list (nat * Transaction * ExecutionView * Z)) :=
  λ st, (run_views st batch, st).

Definition attempt_parallel (p : progress) (batch : list nat) : X progress :=
  rs ← read_views batch;
  _ ← st_require (no_conflicts ((λ r, r.1.2) <$> rs) ∅) (ExecErr ConflictDetected);
  p' ← merge_all (0, p.2) rs;
  mret (sat_add u64_max p.1 p'.1, p'.2).

Definition parallel_batch (batch : list nat) : bool :=
  forallb (λ i, match br_txs b !! i with Some tx => is_transfer (tx_payload tx) | None => false end) batch
  && (1 <? length batch)%nat
  && parallel_transfer_batch_is_safe batch (br_txs b)
  && negb (br_exclude b && touches_fee_account (br_recipient b) (br_txs b) batch).

(** A failed attempt is reverted and the batch runs sequentially. *)
Definition run_batch (p : progress) (batch : list nat) : X progress := λ st,
  if parallel_batch batch then
    let '(cp, st) := checkpoint st in
    match attempt_parallel p batch st with
    | (Ok p', st) => (Ok p', drop_checkpoint st)
    | (Err (ExecErr _), st) => run_sequential p batch (revert cp st)
    | (Err ExecCrash, st) => (Err ExecCrash, st)
    end
  else run_sequential p batch st.

Fixpoint run_batches (p : progress) (batches : list (list nat)) : X progress :=
  match batches with
  | [] => mret p
  | batch :: rest => p ← run_batch p batch; run_batches p rest
  end.

End Run.

(** The machine a block runs with, after the governance steps at its start. *)
Definition canonical_vm (ex : BlockExecutor) (height timestamp : Z) (st : VmStore) : VmConfig * VmStore :=
  if qa_canonical_active (ex_vm ex) height then
    let st := if governance_consensus_active (ex_vm ex) height
              then apply_due_qa_governance timestamp st else st in
    (with_canonical_qa (ex_vm ex) st, st)
  else (ex_vm ex, st).

Definition block_run (ex : BlockExecutor) (vm : VmConfig) (height timestamp : Z) (txs : list Transaction)
    (recipient : AccountId) (tips : list Z) : BlockRun :=
  let denom := ex_denomination_at ex height in
  let '(policy, remainder) := fee_rule_at ex height in
  mkBlockRun vm
    (mkCtx height timestamp (native_value_active (ex_vm ex) height) (vm_hardening_active (ex_vm ex) height)
       false (vm_jump_strict_active (ex_vm ex) height) (qa_canonical_active (ex_vm ex) height))
    policy remainder recipient denom
    (if failed_tx_fee_active ex height then Some (mkFailedTxFee policy remainder recipient denom) else None)
    (security_v4_active ex height) txs tips.

(** The state the transactions of a block start from. *)
Definition open_block (ex : BlockExecutor) (height timestamp : Z) (st : VmStore) : VmConfig * VmStore :=
  let '(vm, st) := canonical_vm ex height timestamp st in
  let st := expire_qa_pending vm height st in
  (vm, prepare_state_for_height ex height st).

Definition execute_block_with_tips (ex : BlockExecutor) (height timestamp : Z) (txs : list Transaction)
    (recipient : AccountId) (tips : list Z) : X (Z * list ExecutionReceipt) :=
  _ ← st_require (bool_decide (tips = []) || (length tips =? length txs)%nat) (ExecErr ConflictDetected);
  vm ← pure_st (open_block ex height timestamp);
  '(gas, rs) ← run_batches (block_run ex vm height timestamp txs recipient tips)
                 (0, replicate (length txs) None) (schedule txs);
  rs ← st_some (mapM id rs) ExecCrash;
  mret (gas, rs).

Definition execute_block (ex : BlockExecutor) (height timestamp : Z) (txs : list Transaction)
    (recipient : AccountId) : X (Z * list ExecutionReceipt) :=
  execute_block_with_tips ex height timestamp txs recipient [].

End Block.
