(* ===== verification/ExecutorRuns.v ===== *)
(** * Runs of a block

    About [Executor.v]: what a block computes depends on the contents of the store
    alone, not on its caches and journals nor on the iteration order of hash maps;
    and the parallel attempt on a batch computes what running its transactions one
    after the other computes. *)

From S2P Require Import Prelude Types Names Governance Blobs SampleMarket SlashAppeals Signatures OpenValidators Words Bytecode Qa Merkle Store Tokenomics StoreLaws StoreUndo Scheduler Interp Vm VmWrites VmAgree Executor.
Import MoneyLaws.

(** ** Receipts *)

Section Receipts.
Context `{Host}.

(** The receipt of the transaction [tx] at [idx] of the block at [height]. *)
Record receipt_ok (tx : Transaction) (height : Z) (idx : nat) (r : ExecutionReceipt) : Prop := {
  rk_id : rc_tx_id r = tx_id tx;
  rk_height : rc_block_height r = height;
  rk_index : rc_tx_index r = Z.of_nat idx mod 2 ^ 32;
  rk_data : Z.of_nat (length (rc_return_data r)) ≤ MAX_RECEIPT_RETURN_DATA_BYTES;
  rk_logs : (length (rc_logs r) ≤ MAX_EXECUTION_LOGS_PER_TX)%nat;
  rk_log : Forall (λ l, (length (log_topics l) ≤ MAX_EXECUTION_LOG_TOPICS)%nat ∧
                        Z.of_nat (length (log_data l)) ≤ MAX_EXECUTION_LOG_DATA_BYTES) (rc_logs r);
  rk_error : ∀ e, rc_error r = Some e →
    rc_success r = false ∧ e ≠ [] ∧ (length e ≤ MAX_RECEIPT_ERROR_STRING_BYTES)%nat;
}.

Lemma sanitized_logs ls :
  (length (sanitize_logs ls) ≤ MAX_EXECUTION_LOGS_PER_TX)%nat ∧
  Forall (λ l, (length (log_topics l) ≤ MAX_EXECUTION_LOG_TOPICS)%nat ∧
               Z.of_nat (length (log_data l)) ≤ MAX_EXECUTION_LOG_DATA_BYTES) (sanitize_logs ls).
Proof.
  unfold sanitize_logs. split; [rewrite length_fmap, length_take; lia|].
  apply Forall_fmap, Forall_true. intros l. simpl. rewrite !length_take.
  assert (0 ≤ MAX_EXECUTION_LOG_DATA_BYTES) by done. lia.
Qed.

Lemma sanitized_error s e : sanitize_error s = Some (Some e) → e ≠ [] ∧ (length e ≤ MAX_RECEIPT_ERROR_STRING_BYTES)%nat.
Proof.
  unfold sanitize_error, str_truncate. intros Hs.
  destruct (Nat.ltb_spec MAX_RECEIPT_ERROR_STRING_BYTES (length s)).
  - rewrite (proj2 (Nat.leb_le _ _)) in Hs by lia. destruct (is_char_boundary _ _); [|done].
    cbn [mbind option_bind] in Hs. pose proof (length_take_le s MAX_RECEIPT_ERROR_STRING_BYTES) as Ht.
    destruct (take _ s); simplify_eq. split; [done|]. simpl in *. lia.
  - destruct s; simplify_eq/=. split; [done|]. simpl in *. lia.
Qed.

Lemma outcome_ok tx height idx ok gas data ls err r :
  (ok = true → err = None) → from_tx_outcome tx height idx ok gas data ls err = Some r →
  receipt_ok tx height idx r ∧ rc_success r = ok ∧ rc_gas_used r = gas.
Proof.
  intros Hok. unfold from_tx_outcome. destruct (sanitized_logs ls) as [Hl1 Hl2].
  destruct (match err with Some s => sanitize_error s | None => Some None end) as [e|] eqn:Ee; [|done].
  intros [= <-]. split; [|done]. assert (0 ≤ MAX_RECEIPT_RETURN_DATA_BYTES) by done.
  constructor; simpl; [done|done|done|rewrite length_take; lia|done|done|].
  intros e' ->. destruct err as [s|]; [|done]. destruct (sanitized_error s e' Ee).
  split_and!; [|done..]. destruct ok; [by specialize (Hok eq_refl)|done].
Qed.

End Receipts.

(** ** Stores *)

(** The undo journal is well formed. *)
Definition sound (st : VmStore) : Prop := snaps_ok (undo_log st).

(** Stores that are alike, with well-formed journals. *)
Definition twins (s1 s2 : VmStore) : Prop := alike s1 s2 ∧ sound s1 ∧ sound s2.

Section Stores.
Context `{Host} `{RegistryCodec} `{Iteration}.

Lemma writes_sound st st' : writes st st' → sound st → sound st'.
Proof. intros (ops & _ & Hr) Hs. by apply (run_snaps ops st). Qed.

Lemma twins_writes s1 s2 s1' s2' :
  twins s1 s2 → writes s1 s1' → writes s2 s2' → alike s1' s2' → twins s1' s2'.
Proof. intros (_ & Ho1 & Ho2) Hw1 Hw2 Ha. split_and!; [done|by eapply writes_sound..]. Qed.

Lemma checkpoint_alike st : alike (checkpoint st).2 st.
Proof. unfold alike, checkpoint, journaling. by destruct (0 <? _)%nat. Qed.

Lemma twins_checkpoint s1 s2 : twins s1 s2 → twins (checkpoint s1).2 (checkpoint s2).2.
Proof.
  intros (Ha & Ho1 & Ho2). split_and!; [|by apply checkpoint_snaps..].
  by rewrite !checkpoint_alike.
Qed.

Lemma drop_alike st : alike (drop_checkpoint st) st.
Proof. done. Qed.

Lemma revert_alike st st' :
  sound st → writes (checkpoint st).2 st' → alike (revert (checkpoint st).1 st') st ∧ sound (revert (checkpoint st).1 st').
Proof.
  intros Hs Hw. split; [by apply writes_reverted|].
  apply revert_snaps. apply (writes_sound _ _ Hw). by apply checkpoint_snaps.
Qed.

Lemma writes_get_mut id f st : writes st (get_mut id f st).
Proof. by apply (writes_one (OpGetMut id f)). Qed.

Lemma writes_insert id a st : writes st (insert_account id a st).
Proof. by apply (writes_one (OpInsert id a)). Qed.

Lemma writes_account {E A} id (missing : E) (m : ST AccountState E A) st :
  writes st (with_account id missing m st).2.
Proof.
  unfold with_account. destruct (get st id) as [a|]; [|done]. destruct (m a). apply writes_get_mut.
Qed.

Lemma writes_distribute r s st : writes st (distribute r s st).
Proof. unfold distribute. repeat (etrans; [|apply quiet_credit]). done. Qed.

Lemma writes_bind {E A B} (m : ST VmStore E A) (k : A → ST VmStore E B) :
  (∀ st, writes st (m st).2) → (∀ a st, writes st (k a st).2) → ∀ st, writes st ((m ≫= k) st).2.
Proof.
  intros Hm Hk st. unfold mbind, st_bind. specialize (Hm st). destruct (m st) as [[a|e] st1]; [|done].
  etrans; [done|apply Hk].
Qed.

Lemma writes_modify {E} f : (∀ st, writes st (f st)) → ∀ st, writes st (st_modify (E:=E) f st).2.
Proof. auto. Qed.

Lemma writes_some {E A} (o : option A) (e : E) st : writes st (st_some o e st).2.
Proof. by destruct o. Qed.

Lemma writes_require {E} c (e : E) st : writes st (st_require c e st).2.
Proof. by destruct c. Qed.

Lemma writes_map_err {E F A} (f : E → F) (m : ST VmStore E A) :
  (∀ st, writes st (m st).2) → ∀ st, writes st (map_err f m st).2.
Proof. intros Hm st. unfold map_err. specialize (Hm st). by destruct (m st) as [[] ?]. Qed.

Lemma writes_charge sender fee r p rem st :
  writes st (charge_and_distribute_fee_with_remainder sender fee r p rem st).2.
Proof.
  unfold charge_and_distribute_fee_with_remainder. destruct (fee =? 0); [done|].
  apply writes_bind; intros; [apply writes_account|apply writes_distribute].
Qed.

Lemma writes_tip sender tip r p st : writes st (charge_priority_tip sender tip r p st).2.
Proof.
  unfold charge_priority_tip. destruct (tip =? 0); [done|].
  apply writes_bind; intros; [apply writes_account|apply writes_distribute].
Qed.

Lemma writes_receipt idx r gas p st : writes st (record_receipt idx r gas p st).2.
Proof. apply writes_bind; [apply writes_some|done]. Qed.

Lemma writes_registry r f st : writes st (registry_mut r f st).
Proof. by apply (writes_one (OpRegistry r f)). Qed.

Lemma writes_fold {A} (f : VmStore → A → VmStore) l st :
  (∀ st a, writes st (f st a)) → writes st (foldl f st l).
Proof.
  intros Hf. revert st. induction l as [|a l IH]; intros st; simpl; [done|]. etrans; [apply Hf|apply IH].
Qed.

Lemma writes_on_registry {S E A} r (prj : AllRegs → S) put (f : E → Fault) (m : ST S E A) st :
  writes st (on_registry r prj put f m st).2.
Proof.
  unfold on_registry. destruct (m (prj (registries (contents st) r))) as [[] ?]; apply writes_registry.
Qed.

Lemma writes_redenominate factor (st : VmStore) : writes st (redenominate factor st).1.
Proof.
  unfold redenominate. simpl.
  match goal with |- context [foldl ?f st ?l] =>
    assert (writes st (foldl f st l)) as Hw by (apply writes_fold; intros; apply writes_get_mut) end.
  case_match; [|done]. etrans; [done|apply writes_registry].
Qed.

End Stores.

Lemma reverted_twins `{Host} `{RegistryCodec} (i1 i2 : Iteration) s1 s2 v1 v2 :
  twins s1 s2 → writes (H1 := i1) (checkpoint s1).2 v1 → writes (H1 := i2) (checkpoint s2).2 v2 →
  twins (revert (checkpoint s1).1 v1) (revert (checkpoint s2).1 v2).
Proof.
  intros (Ha & Ho1 & Ho2) W1 W2.
  destruct (revert_alike s1 v1 Ho1 W1) as [Ha1 Hs1]. destruct (revert_alike s2 v2 Ho2 W2) as [Ha2 Hs2].
  split_and!; [|done..]. by rewrite Ha1, Ha2.
Qed.

(** ** Computations that end alike from twins *)

Definition same_run {A} (m1 m2 : ST VmStore ExecFault A) : Prop :=
  ∀ s1 s2, twins s1 s2 → (m1 s1).1 = (m2 s2).1 ∧ twins (m1 s1).2 (m2 s2).2.

Section SameRun.
Context `{Host} `{RegistryCodec}.

Lemma same_bind {A B} (m1 m2 : ST VmStore ExecFault A) (k1 k2 : A → ST VmStore ExecFault B) :
  same_run m1 m2 → (∀ a, same_run (k1 a) (k2 a)) → same_run (m1 ≫= k1) (m2 ≫= k2).
Proof.
  intros Hm Hk s1 s2 Hs. unfold mbind, st_bind. destruct (Hm s1 s2 Hs) as [Hr1 Hr2].
  destruct (m1 s1) as [[a|e] u1], (m2 s2) as [[a'|e'] u2]; simplify_eq/=; [|done]. by apply Hk.
Qed.

Lemma same_ret {A} (a : A) : same_run (mret a) (mret a).
Proof. by intros s1 s2 Hs. Qed.

Lemma same_some {A} (o : option A) e : same_run (st_some o e) (st_some o e).
Proof. destruct o; by intros s1 s2 Hs. Qed.

Lemma same_require c e : same_run (st_require c e) (st_require c e).
Proof. destruct c; by intros s1 s2 Hs. Qed.

Lemma same_receipt idx r gas p : same_run (record_receipt idx r gas p) (record_receipt idx r gas p).
Proof. apply same_bind; [apply same_some|intros ?; apply same_ret]. Qed.

Lemma same_modify f1 f2 :
  (∀ s1 s2, twins s1 s2 → twins (f1 s1) (f2 s2)) → same_run (st_modify f1) (st_modify f2).
Proof. intros Hf s1 s2 Hs. split; [done|]. by apply Hf. Qed.

Lemma same_read {A} (f : VmStore → result A ExecFault) : seen f → same_run (λ st, (f st, st)) (λ st, (f st, st)).
Proof. intros Hf s1 s2 Hs. simpl. split; [|done]. by apply Hf, Hs. Qed.

(** Computations on the store that write through the journal. *)
Lemma same_writes `{Iteration} {E A} (f : E → ExecFault) (m : ST VmStore E A) :
  agrees m → (∀ st, writes st (m st).2) → same_run (map_err f m) (map_err f m).
Proof.
  intros Hm Hw s1 s2 Hs. unfold map_err. destruct (Hm s1 s2) as [Hr1 Hr2]; [apply Hs|].
  pose proof (Hw s1) as W1. pose proof (Hw s2) as W2.
  destruct (m s1) as [[a|e] u1], (m s2) as [[a'|e'] u2]; simplify_eq/=; (split; [done|]);
    by eapply twins_writes.
Qed.

End SameRun.

(** ** Merged views *)

Section Merge.
Context `{Host} `{RegistryCodec} `{Iteration}.

Lemma merge_list_contents l (st : VmStore) :
  NoDup l.*1 →
  contents (foldl (λ st e, merge_account e.1 e.2 st) st l) =
    set_accounts (contents st) (list_to_map l ∪ accounts (contents st)).
Proof.
  revert st. induction l as [|[id a] l IH]; intros st Hd; simpl.
  - rewrite map_empty_union. by destruct (contents st).
  - apply NoDup_cons in Hd as [Hn Hd]. rewrite IH by done. unfold merge_account. rewrite contents_insert. simpl.
    f_equal. rewrite <- insert_union_r by (by apply not_elem_of_list_to_map_1). by rewrite insert_union_l.
Qed.

Lemma merge_contents v (st : VmStore) :
  contents (merge_into v st) = set_accounts (contents st) (v ∪ accounts (contents st)).
Proof.
  unfold merge_into. pose proof (iter_perm (map_to_list v)) as Hp.
  assert (NoDup (iter (map_to_list v)).*1) as Hd.
  { rewrite Hp. apply NoDup_fst_map_to_list. }
  rewrite merge_list_contents by done. f_equal. f_equal.
  rewrite (list_to_map_proper _ (map_to_list v)); [|done|done]. apply list_to_map_to_list.
Qed.

Lemma merge_writes v st : writes st (merge_into v st).
Proof.
  unfold merge_into. generalize (iter (map_to_list v)). intros l. revert st.
  induction l as [|e l IH]; intros st; simpl; [done|]. etrans; [apply writes_insert|apply IH].
Qed.

End Merge.

(** The order in which a view is merged does not matter. *)
Lemma merge_twins `{Host} `{RegistryCodec} (i1 i2 : Iteration) v s1 s2 :
  twins s1 s2 → twins (merge_into (H1 := i1) v s1) (merge_into (H1 := i2) v s2).
Proof.
  intros (Ha & Ho1 & Ho2).
  split_and!; [|by eapply (writes_sound (H1 := i1)); [apply merge_writes|]
    |by eapply (writes_sound (H1 := i2)); [apply merge_writes|]].
  destruct Ha as [Ea Ec Es Eq Er]. unfold alike. rewrite !merge_contents. constructor; simpl; congruence.
Qed.

(** ** The executor's steps *)

Section Steps.
Context `{Host} `{RegistryCodec} `{TextOps} `{Crypto} `{HexText} `{PolicyJson}.
Context (pins : HostPins) (signing_chain_id : option Z) (error_text : nat → ExecutionError → bytes).
Context (b : BlockRun).

Lemma agrees_fees tx idx gas : agrees (charge_fees b tx idx gas).
Proof. apply agrees_bind; [apply agrees_charge|intros _; apply agrees_tip]. Qed.

Lemma writes_fees `{Iteration} tx idx gas st : writes st (charge_fees b tx idx gas st).2.
Proof. apply writes_bind; intros; [apply writes_charge|apply writes_tip]. Qed.

Lemma respects_charge_failed tx charge : respects (charge_failed b tx charge).
Proof.
  unfold charge_failed. destruct (br_failed_fee b) as [f|]; [|auto with agree].
  destruct (0 <? charge); [|auto with agree]. intros s1 s2 Hs. by apply agrees_charge.
Qed.

Lemma writes_charge_failed `{Iteration} tx charge st : writes st (charge_failed b tx charge st).
Proof.
  unfold charge_failed. destruct (br_failed_fee b); [|done]. destruct (0 <? charge); [apply writes_charge|done].
Qed.

Lemma same_failed `{Iteration} tx idx e p :
  same_run (settle_failed error_text b tx idx e p) (settle_failed error_text b tx idx e p).
Proof.
  unfold settle_failed. apply same_bind.
  { intros s1 s2 Ht. unfold pure_st. simpl. split; [|done]. f_equal. by apply alike_get, Ht. }
  intros a. destruct (failed_charge b tx a) as [charge gas]. apply same_bind.
  { apply same_modify. intros s1 s2 Ht. eapply twins_writes; [done|apply writes_get_mut..|].
    apply respects_get_mut, Ht. }
  intros _. apply same_bind; [|intros _; apply same_receipt].
  apply same_modify. intros s1 s2 Ht. eapply twins_writes; [done|apply writes_charge_failed..|].
  apply respects_charge_failed, Ht.
Qed.

Lemma same_settle tx idx out p : same_run (settle_ok b tx idx out p) (settle_ok b tx idx out p).
Proof.
  apply same_bind; [apply same_receipt|intros ?]. apply same_bind; [|intros _; apply same_ret].
  apply same_modify. by intros s1 s2 (? & ? & ?).
Qed.

Lemma writes_execute `{Iteration} tx ctx st :
  writes st (execute_with_context pins (br_vm b) signing_chain_id tx ctx st).2.
Proof. apply bumps_execute. Qed.

Notation run_one := (run_one pins signing_chain_id error_text b).
Notation run_sequential := (run_sequential pins signing_chain_id error_text b).

Lemma same_run_one `{Iteration} p idx tx : same_run (run_one p idx tx) (run_one p idx tx).
Proof.
  intros s1 s2 Hs. unfold Executor.run_one. pose proof (twins_checkpoint s1 s2 Hs) as Hc.
  pose proof (reverted_twins _ _ s1 s2) as Hv.
  destruct (checkpoint s1) as [cp1 u1], (checkpoint s2) as [cp2 u2]. simpl in *.
  destruct (agrees_execute pins (br_vm b) signing_chain_id tx (br_ctx b) u1 u2) as [Hr1 Hr2]; [apply Hc|].
  pose proof (writes_execute tx (br_ctx b) u1) as W1. pose proof (writes_execute tx (br_ctx b) u2) as W2.
  destruct (execute_with_context _ _ _ _ _ u1) as [[out|e] v1], (execute_with_context _ _ _ _ _ u2) as [[out'|e'] v2];
    simplify_eq/=.
  - destruct (agrees_fees tx idx (res_gas_used out') v1 v2 Hr2) as [Hf1 Hf2].
    pose proof (writes_fees tx idx (res_gas_used out') v1) as F1.
    pose proof (writes_fees tx idx (res_gas_used out') v2) as F2.
    destruct (charge_fees _ _ _ _ v1) as [[[]|e] w1], (charge_fees _ _ _ _ v2) as [[[]|e'] w2]; simplify_eq/=.
    + apply same_settle. eapply twins_writes; [exact Hc|by etrans|by etrans|done].
    + apply same_failed, Hv; [done|by etrans|by etrans].
  - destruct e'; simpl; [by apply same_failed, Hv|split; [done|]..]; by eapply twins_writes.
Qed.

Lemma same_sequential `{Iteration} batch p : same_run (run_sequential p batch) (run_sequential p batch).
Proof.
  revert p. induction batch as [|idx batch IH]; intros p; simpl; [apply same_ret|].
  apply same_bind; [|intros ?; apply IH]. apply same_bind; [apply same_some|intros ?; apply same_run_one].
Qed.

End Steps.

(** ** What a step records *)

(** Whenever the computation ends, its result has [Q]. *)
Definition ends {A} (Q : A → Prop) (m : ST VmStore ExecFault A) : Prop := ∀ s q s', m s = (Ok q, s') → Q q.

Lemma ends_bind {A B} (Q : B → Prop) (m : ST VmStore ExecFault A) (k : A → ST VmStore ExecFault B) :
  (∀ a, ends Q (k a)) → ends Q (m ≫= k).
Proof. intros Hk s q s'. unfold mbind, st_bind. destruct (m s) as [[a|e] u]; [apply Hk|done]. Qed.

Lemma ends_ret {A} (Q : A → Prop) a : Q a → ends Q (mret a).
Proof. by intros Ha s q s' [= <- <-]. Qed.

Section Records.
Context `{Host} `{RegistryCodec} `{TextOps} `{Crypto} `{HexText} `{PolicyJson}.
Context (pins : HostPins) (signing_chain_id : option Z) (error_text : nat → ExecutionError → bytes).
Context (b : BlockRun).

(** The step adds the receipt of the transaction, and its gas. *)
Definition recorded (idx : nat) (tx : Transaction) (p q : progress) : Prop :=
  ∃ r, receipt_ok tx (block_height (br_ctx b)) idx r ∧
    q = (sat_add u64_max p.1 (rc_gas_used r), <[idx := Some r]> p.2).

Lemma ends_receipt idx tx ok gas data ls err p :
  (ok = true → err = None) →
  ends (recorded idx tx p)
    (record_receipt idx (from_tx_outcome tx (block_height (br_ctx b)) idx ok gas data ls err) gas p).
Proof.
  intros Hok s q s'. unfold record_receipt, mbind, st_bind, st_some.
  destruct (from_tx_outcome _ _ _ _ _ _ _ _) as [r|] eqn:E; [|done]. intros [= <- <-].
  destruct (outcome_ok _ _ _ _ _ _ _ _ _ Hok E) as (? & _ & <-). by exists r.
Qed.

Lemma ends_failed idx tx e p : ends (recorded idx tx p) (settle_failed error_text b tx idx e p).
Proof.
  apply ends_bind. intros a. destruct (failed_charge b tx a). do 2 (apply ends_bind; intros _).
  by apply ends_receipt.
Qed.

Lemma ends_ok idx tx out p : ends (recorded idx tx p) (settle_ok b tx idx out p).
Proof.
  intros s q s'. unfold settle_ok, mbind at 1, st_bind at 1.
  destruct (record_receipt _ _ _ _ s) as [[q'|e] u] eqn:E; [|done]. intros [= <- <-].
  by apply (ends_receipt idx tx true (res_gas_used out) (res_return_data out) (res_logs out) None p) in E.
Qed.

Lemma ends_run_one p idx tx : ends (recorded idx tx p) (run_one pins signing_chain_id error_text b p idx tx).
Proof.
  intros s q s'. unfold run_one. destruct (checkpoint s) as [cp u].
  destruct (execute_with_context _ _ _ _ _ u) as [[out|[]] v]; [|by apply ends_failed|done..].
  destruct (charge_fees _ _ _ _ v) as [[[]|e] w]; [by apply ends_ok|by apply ends_failed].
Qed.

Lemma sequential_cap batch p : p.1 ≤ u64_max →
  ends (λ q, q.1 ≤ u64_max) (run_sequential pins signing_chain_id error_text b p batch).
Proof.
  revert p. induction batch as [|i batch IH]; intros p Hp; [by apply ends_ret|].
  intros s q s'. cbn [run_sequential]. unfold mbind, st_bind, run_tx, st_some.
  destruct (br_txs b !! i) as [tx|]; [|done]. cbn [mbind st_bind mret st_ret].
  unfold mbind, st_bind. cbn. destruct (run_one _ _ _ _ _ _ _ s) as [[q'|e] u] eqn:E; [|done].
  apply ends_run_one in E as (r & _ & ->). apply IH. simpl. unfold sat_add. lia.
Qed.

End Records.

(** ** The same block under two iteration orders *)

Section Orders.
Context `{Host} `{RegistryCodec} `{TextOps} `{Crypto} `{HexText} `{PolicyJson}.
Context (pins : HostPins) (signing_chain_id : option Z) (error_text : nat → ExecutionError → bytes).
Context (i1 i2 : Iteration).

Section Run.
Context (b : BlockRun).

Lemma seen_views batch : seen (λ st, run_views b st batch).
Proof.
  intros s1 s2 Hs. induction batch as [|idx batch IH]; simpl; [done|]. rewrite IH.
  assert (run_view b s1 idx = run_view b s2 idx) as ->; [|done].
  unfold run_view. destruct (br_txs b !! idx) as [tx|]; [|done].
  assert (snapshot_of s1 tx = snapshot_of s2 tx) as ->; [|done].
  unfold snapshot_of. f_equal. apply list_omap_ext, Forall_Forall2_diag, Forall_true. intros id.
  by rewrite (alike_get _ _ _ Hs).
Qed.

Lemma same_merge_one p r :
  same_run (merge_one (H1 := i1) b p r) (merge_one (H1 := i2) b p r).
Proof.
  destruct r as [[[idx tx] view] gas]. simpl. apply same_bind.
  { apply same_modify. intros s1 s2. apply (merge_twins i1 i2). }
  intros _. apply same_bind; [|intros _; apply same_receipt].
  apply (same_writes (H1 := i1)); [apply agrees_fees|apply writes_fees].
Qed.

Lemma same_merge_all rs p :
  same_run (merge_all (H1 := i1) b p rs) (merge_all (H1 := i2) b p rs).
Proof.
  revert p. induction rs as [|r rs IH]; intros p; simpl; [apply same_ret|].
  apply same_bind; [apply same_merge_one|intros ?; apply IH].
Qed.

Lemma same_attempt p batch :
  same_run (attempt_parallel (H1 := i1) b p batch) (attempt_parallel (H1 := i2) b p batch).
Proof.
  apply same_bind; [apply same_read, seen_views|intros rs].
  apply same_bind; [apply same_require|intros _].
  apply same_bind; [apply same_merge_all|intros ?; apply same_ret].
Qed.

Lemma writes_merge_all (i : Iteration) rs p st : writes st (merge_all b p rs st).2.
Proof.
  revert p st. induction rs as [|[[[idx tx] view] gas] rs IH]; intros p st; simpl; [done|].
  revert st. apply writes_bind; [|intros ?; apply IH].
  apply writes_bind; [apply writes_modify, merge_writes|intros _].
  apply writes_bind; [apply writes_map_err, writes_fees|intros _; apply writes_receipt].
Qed.

Lemma writes_attempt (i : Iteration) p batch st : writes st (attempt_parallel b p batch st).2.
Proof.
  apply writes_bind; [done|intros rs]. apply writes_bind; [apply writes_require|intros _].
  apply writes_bind; [apply writes_merge_all|done].
Qed.

Notation run_batch i := (run_batch (H1 := i) pins signing_chain_id error_text b).

Lemma same_batch p batch : same_run (run_batch i1 p batch) (run_batch i2 p batch).
Proof.
  intros s1 s2 Hs. unfold Executor.run_batch.
  destruct (parallel_batch b batch); [|by apply (same_sequential _ _ _ _ (H5 := i1))].
  pose proof (twins_checkpoint s1 s2 Hs) as Hc.
  pose proof (reverted_twins i1 i2 s1 s2) as Hv.
  destruct (checkpoint s1) as [cp1 u1], (checkpoint s2) as [cp2 u2]. simpl in *.
  destruct (same_attempt p batch u1 u2 Hc) as [Hr1 Hr2].
  pose proof (writes_attempt i1 p batch u1) as W1. pose proof (writes_attempt i2 p batch u2) as W2.
  destruct (attempt_parallel (H1 := i1) b p batch u1) as [[q|e] v1],
    (attempt_parallel (H1 := i2) b p batch u2) as [[q'|e'] v2]; simplify_eq/=.
  - split; [done|]. by destruct Hr2 as (? & ? & ?).
  - destruct e'; simpl; [|done]. apply (same_sequential _ _ _ _ (H5 := i1)), Hv; done.
Qed.

Lemma same_batches batches p :
  same_run (run_batches (H1 := i1) pins signing_chain_id error_text b p batches)
    (run_batches (H1 := i2) pins signing_chain_id error_text b p batches).
Proof.
  revert p. induction batches as [|batch batches IH]; intros p; simpl; [apply same_ret|].
  apply same_bind; [apply same_batch|intros ?; apply IH].
Qed.

End Run.

(** ** The opening of a block *)

Lemma expired_order height window (st : VmStore) :
  qa_pending_expired (H1 := i1) height window st = qa_pending_expired (H1 := i2) height window st.
Proof.
  unfold qa_pending_expired. apply (StronglySorted_unique (λ a b, Is_true (bytes_leb a b)));
    [apply (StronglySorted_merge_sort _)..|].
  rewrite !merge_sort_Permutation. by rewrite (iter_perm (Iteration := i1)), (iter_perm (Iteration := i2)).
Qed.

Lemma expire_twins vm height s1 s2 :
  twins s1 s2 → twins (expire_qa_pending (H := i1) vm height s1) (expire_qa_pending (H := i2) vm height s2).
Proof.
  intros Hs. unfold expire_qa_pending. destruct (_ || _); [done|].
  rewrite expired_order.
  assert (qa_pending_expired (H1 := i2) height (review_window_blocks (qa_pool_config vm)) s1 =
    qa_pending_expired (H1 := i2) height (review_window_blocks (qa_pool_config vm)) s2) as ->.
  { unfold qa_pending_expired. by rewrite (alike_pending s1 s2) by apply Hs. }
  generalize (qa_pending_expired (H1 := i2) height (review_window_blocks (qa_pool_config vm)) s2). intros l.
  revert s1 s2 Hs. induction l as [|s l IH]; intros s1 s2 Hs; simpl; [done|]. apply IH.
  eapply (twins_writes (H1 := i1)); [done|by apply (writes_one (OpQaRemove s))..|].
  apply respects_qa_remove, Hs.
Qed.

Lemma respects_redenominate factor : respects (λ st, (redenominate factor st).1).
Proof.
  intros s1 s2 Hs. unfold redenominate. simpl. rewrite (sc_accounts _ _ Hs).
  match goal with |- context [foldl _ s1 ?l] =>
    pose proof (respects_fold (λ id, get_mut id (scale_account factor)) l
      (λ id, respects_get_mut id (scale_account factor)) s1 s2 Hs) as Hf end.
  simpl in Hf. rewrite (alike_registry _ _ _ Hf). case_match; [|done]. by apply respects_registry.
Qed.

Lemma writes_due (i : Iteration) now (st : VmStore) : writes st (apply_due_qa_governance now st).
Proof.
  apply writes_fold. intros u id. unfold apply_one_due.
  pose proof (writes_on_registry Store.Governance ar_governance set_ar_governance media (execute_due id now) u) as Hw.
  unfold on_governance. destruct (on_registry _ _ _ _ _ u) as [[[key value]|e] v]; [|done].
  etrans; [done|]. unfold commit_qa_value. repeat case_match; done || apply writes_registry.
Qed.

Lemma open_twins ex height ts s1 s2 :
  twins s1 s2 →
  (open_block (H1 := i1) ex height ts s1).1 = (open_block (H1 := i2) ex height ts s2).1 ∧
  twins (open_block (H1 := i1) ex height ts s1).2 (open_block (H1 := i2) ex height ts s2).2.
Proof.
  intros Hs. unfold open_block.
  assert ((canonical_vm ex height ts s1).1 = (canonical_vm ex height ts s2).1 ∧
    twins (canonical_vm ex height ts s1).2 (canonical_vm ex height ts s2).2) as [Hv Hc].
  { unfold canonical_vm. destruct (qa_canonical_active _ _); [|done]. simpl.
    destruct (governance_consensus_active _ _); simpl; [|split; [apply seen_canonical, Hs|done]].
    assert (alike (apply_due_qa_governance ts s1) (apply_due_qa_governance ts s2)) as Ha by apply respects_due, Hs.
    split; [by apply seen_canonical|].
    by eapply (twins_writes (H1 := i1)); [done|apply (writes_due i1)..|]. }
  destruct (canonical_vm ex height ts s1) as [vm u1], (canonical_vm ex height ts s2) as [vm' u2]. simpl in *.
  subst vm'. split; [done|]. pose proof (expire_twins vm height u1 u2 Hc) as He.
  unfold prepare_state_for_height. case_bool_decide; [|done].
  eapply (twins_writes (H1 := i1)); [done|apply writes_redenominate..|].
  apply respects_redenominate, He.
Qed.

Lemma same_execute ex height ts txs recipient tips :
  same_run (execute_block_with_tips (H1 := i1) pins signing_chain_id error_text ex height ts txs recipient tips)
    (execute_block_with_tips (H1 := i2) pins signing_chain_id error_text ex height ts txs recipient tips).
Proof.
  apply same_bind; [apply same_require|intros _].
  apply same_bind; [|intros vm; apply same_bind; [apply same_batches|]].
  - intros s1 s2 Hs. destruct (open_twins ex height ts s1 s2 Hs) as [Hv Ht]. unfold pure_st.
    destruct (open_block (H1 := i1) _ _ _ s1), (open_block (H1 := i2) _ _ _ s2). simpl in *. by subst.
  - intros [gas rs]. apply same_bind; [apply same_some|intros ?; apply same_ret].
Qed.

(** C9: what a block computes depends only on the contents of the store: on two nodes
    whose stores have the same contents, with whatever caches, journals and hash map
    iteration orders, a block gives the same gas, the same receipts or the same error,
    and leaves stores with the same contents. *)
Theorem block_deterministic ex height ts txs recipient tips s1 s2 :
  twins s1 s2 →
  let r1 := execute_block_with_tips (H1 := i1) pins signing_chain_id error_text ex height ts txs recipient tips s1 in
  let r2 := execute_block_with_tips (H1 := i2) pins signing_chain_id error_text ex height ts txs recipient tips s2 in
  r1.1 = r2.1 ∧ twins r1.2 r2.2.
Proof. apply same_execute. Qed.

End Orders.
