(* ===== verification/ExecutorParallel.v ===== *)
(** * The parallel path

    About [Executor.v]: a batch that is attempted in parallel ends as if its
    transactions had run one after the other, once batches that touch the accounts
    fees go to are left out (the V4 rule); so a block is its scheduled order, run
    sequentially. *)

From S2P Require Import Prelude Types Names Governance Blobs SampleMarket SlashAppeals Signatures OpenValidators Words Bytecode Qa Merkle Store Tokenomics StoreLaws StoreUndo Scheduler Interp Vm VmWrites VmAgree Executor ExecutorRuns.
Import MoneyLaws.

(** ** Transfers on a view and on the store *)

Section Views.
Context `{Host}.

Lemma snapshot_lookup (st : VmStore) tx id :
  snapshot_of st tx !! id = if bool_decide (id ∈ al_all (tx_access_list tx)) then get st id else None.
Proof.
  unfold snapshot_of. induction (al_all (tx_access_list tx)) as [|j l IH]; simpl; [done|].
  destruct (decide (id = j)) as [->|Hne].
  - rewrite bool_decide_true by set_solver. destruct (get st j) as [a|] eqn:Ej; simpl; [by rewrite lookup_insert_eq|].
    etrans; [apply IH|]. by case_bool_decide.
  - replace (bool_decide (id ∈ j :: l)) with (bool_decide (id ∈ l)) by (apply bool_decide_ext; set_solver).
    destruct (get st j) as [a|] eqn:Ej; simpl; rewrite ?lookup_insert_ne by done; apply IH.
Qed.

Lemma snapshot_subseteq (st st' : VmStore) tx :
  (∀ id, id ∈ al_all (tx_access_list tx) → get st' id = get st id) →
  snapshot_of st tx ⊆ accounts (contents st').
Proof.
  intros Hsame. apply map_subseteq_spec. intros id a. rewrite snapshot_lookup. case_bool_decide; [|done].
  by rewrite <- Hsame.
Qed.

Lemma alter_const {K A} `{Countable K} (m : gmap K A) i x y : m !! i = Some y → alter (λ _, x) i m = <[i := x]> m.
Proof.
  intros Hi. apply map_eq. intros j. rewrite lookup_insert. case_decide; simplify_eq;
    [by rewrite lookup_alter_eq, Hi|by rewrite lookup_alter_ne].
Qed.

(** The recipient's account after the credit. *)
Definition credited (amount : Z) (o : option AccountState) : AccountState :=
  match o with
  | Some r => set_balance r (sat_add u128_max (balance r) amount)
  | None => with_balance amount
  end.

Lemma credit_contents to amount (st : VmStore) :
  contents (credit_or_create to amount st) =
    set_accounts (contents st) (<[to := credited amount (get st to)]> (accounts (contents st))).
Proof.
  unfold credit_or_create, credited. destruct (get st to) as [r|] eqn:E; [|apply contents_insert].
  rewrite contents_get_mut. f_equal. apply map_eq. intros j. unfold get in E. rewrite lookup_insert.
  case_decide; simplify_eq; [by rewrite lookup_alter_eq, E|by rewrite lookup_alter_ne].
Qed.

(** A transfer on a part [V] of the accounts that has both ends does to the store what it
    does to the part. *)
Lemma transfer_on_view `{Crypto} `{TextOps} `{HexText} (pins : HostPins) (vm : VmConfig) (chain : option Z)
    (tx : Transaction) (ctx : VmExecutionContext) (to : AccountId) (amount : Z) (out : VmExecutionResult)
    (V V' : ExecutionView) (st : VmStore) :
  tx_payload tx = Transfer to amount → V ⊆ accounts (contents st) →
  V !! tx_sender tx = get st (tx_sender tx) → V !! to = get st to →
  execute_transfer tx V = (Ok out, V') →
  out = gas_only GAS_PER_TRANSFER ∧ dom V' ⊆ ({[tx_sender tx; to]} ∪ dom V : gset AccountId) ∧
  ∃ st', execute_with_context pins vm chain tx ctx st = (Ok out, st') ∧
    contents st' = set_accounts (contents st) (V' ∪ accounts (contents st)).
Proof.
  intros Hp Hsub Hs Ht. unfold execute_transfer, execute_with_context, execute_payload, fixed_gas, transfer_arm. rewrite Hp. simpl.
  unfold look, mbind, st_bind. simpl. rewrite Hs.
  destruct (get st (tx_sender tx)) as [a|] eqn:Ea; [simpl|done]. destruct (nonce a =? tx_nonce tx); simpl; [|done].
  unfold with_sender, with_account. rewrite Ea.
  destruct (match debit amount a with (r, s') => _ end) as [[[]|e] a']; intros [= <- <-]. simpl.
  rewrite (alter_const _ _ _ _ Hs). set (W := <[tx_sender tx := a']> V).
  assert (match W !! to with
          | Some r => alter (λ _, set_balance r (sat_add u128_max (balance r) amount)) to W
          | None => <[to := with_balance amount]> W
          end = <[to := credited amount (W !! to)]> W) as ->.
  { destruct (W !! to) as [r|] eqn:E; [|done]. by eapply alter_const. }
  split; [done|]. split; [subst W; set_solver|]. eexists. split; [done|].
  rewrite credit_contents, contents_get_mut, (alter_const _ _ _ _ Ea). simpl. f_equal.
  subst W. rewrite <- !insert_union_l. f_equal; [|f_equal; symmetry; by apply map_subseteq_union].
  f_equal. unfold get. rewrite contents_get_mut. simpl. rewrite (alter_const _ _ _ _ Ea), !lookup_insert.
  by case_decide.
Qed.

End Views.

(** ** One transaction of a batch *)

Section Batch.
Context `{Host} `{RegistryCodec} `{Iteration} `{TextOps} `{Crypto} `{HexText} `{PolicyJson}.
Context (pins : HostPins) (signing_chain_id : option Z) (error_text : nat → ExecutionError → bytes).
Context (b : BlockRun).

Notation run_one := (run_one pins signing_chain_id error_text b).
Notation run_sequential := (run_sequential pins signing_chain_id error_text b).
Notation run_batch := (run_batch pins signing_chain_id error_text b).

(** An account fees do not go to. *)
Definition off_fees (id : AccountId) : Prop := is_fee_account (br_recipient b) id = false.

Lemma off_fees_spec id :
  off_fees id → id ≠ br_recipient b ∧ id ≠ PROTOCOL_TREASURY ∧ id ≠ FEE_BURN_SINK.
Proof. unfold off_fees, is_fee_account. repeat case_bool_decide; naive_solver. Qed.

Lemma distribute_frame s id (st : VmStore) : off_fees id → get (distribute (br_recipient b) s st) id = get st id.
Proof. intros (? & ? & ?)%off_fees_spec. unfold distribute. by rewrite !credit_other by done. Qed.

Lemma debit_frame {E A} who (e : E) (m : ST AccountState E A) id (st : VmStore) :
  id ≠ who → get (with_account who e m st).2 id = get st id.
Proof.
  intros Hid. unfold with_account. destruct (get st who) as [a|]; [|done]. destruct (m a). simpl.
  unfold get. rewrite contents_get_mut. simpl. by rewrite lookup_alter_ne.
Qed.

Lemma charge_frame (m : ST VmStore FeeError ()) f id (st : VmStore) :
  get (m st).2 id = get st id → (∀ u, get (f u) id = get u id) → get ((_ ← m; st_modify f) st).2 id = get st id.
Proof.
  intros Hm Hf. unfold mbind, st_bind. destruct (m st) as [[[]|e] u]; simpl in *; [|done]. by rewrite Hf.
Qed.

Lemma fees_frame tx idx gas id (st : VmStore) :
  off_fees id → id ≠ tx_sender tx → get (charge_fees b tx idx gas st).2 id = get st id.
Proof.
  intros Ho Hid. unfold charge_fees, mbind at 1, st_bind at 1.
  match goal with |- context [charge_and_distribute_fee_with_remainder ?s ?f ?r ?p ?m st] =>
    assert (get (charge_and_distribute_fee_with_remainder s f r p m st).2 id = get st id) as Hc end.
  { unfold charge_and_distribute_fee_with_remainder. case_match; [done|].
    apply charge_frame; [by apply debit_frame|intros u; by apply distribute_frame]. }
  destruct (charge_and_distribute_fee_with_remainder _ _ _ _ _ st) as [[[]|e] u]; [simpl in *|done].
  rewrite <- Hc. unfold charge_priority_tip. case_match; [done|].
  apply charge_frame; [by apply debit_frame|intros v; by apply distribute_frame].
Qed.

Lemma own_accounts tx :
  declares_own tx = true → ∃ to amount, tx_payload tx = Transfer to amount ∧
    tx_sender tx ∈ al_all (tx_access_list tx) ∧ to ∈ al_all (tx_access_list tx).
Proof.
  unfold declares_own, contains_id, al_all. destruct (tx_payload tx) eqn:Ep; try done.
  simpl. intros Hd. eexists _, _. split; [done|]. rewrite !elem_of_app. repeat case_bool_decide; naive_solver.
Qed.

Lemma receipt_fits tx height idx gas :
  ∃ r, from_tx_outcome tx height idx true gas [] [] None = Some r.
Proof. by eexists. Qed.

(** The sequential path on a transfer whose view gives [V']. *)
Lemma transfer_run base tx out V' s1 s2 :
  declares_own tx = true → execute_transfer tx (snapshot_of base tx) = (Ok out, V') →
  (∀ id, id ∈ al_all (tx_access_list tx) → get s1 id = get base id) → twins s1 s2 →
  out = gas_only GAS_PER_TRANSFER ∧ dom V' ⊆ (list_to_set (al_all (tx_access_list tx)) : gset AccountId) ∧
  ∃ v2, execute_with_context pins (br_vm b) signing_chain_id tx (br_ctx b) (checkpoint s2).2 = (Ok out, v2) ∧
    twins (merge_into V' s1) v2.
Proof.
  intros Hd EV Hbase Hs. destruct (own_accounts tx Hd) as (to & amount & Hp & Hfrom & Hto).
  pose proof (twins_checkpoint s1 s2 Hs) as Hc. set (u2 := (checkpoint s2).2) in *.
  assert (alike s1 u2) as Ha by (rewrite <- (checkpoint_alike s1); apply Hc).
  assert (∀ id, id ∈ al_all (tx_access_list tx) → get u2 id = get base id) as Hu.
  { intros id Hid. rewrite <- (alike_get _ _ id Ha). by apply Hbase. }
  assert (∀ id, id ∈ al_all (tx_access_list tx) → snapshot_of base tx !! id = get u2 id) as Hv.
  { intros id Hid. rewrite snapshot_lookup, bool_decide_true by done. symmetry. by apply Hu. }
  edestruct (transfer_on_view pins (br_vm b) signing_chain_id tx (br_ctx b) to amount) as (-> & Hdom & v2 & Ev & Cv);
    [done|by apply (snapshot_subseteq base u2)|by apply Hv|by apply Hv|exact EV|].
  split; [done|]. split.
  { etrans; [exact Hdom|]. intros id. rewrite !elem_of_union, !elem_of_singleton, elem_of_list_to_set.
    intros [[->| ->]|Hin]; [done..|]. apply elem_of_dom in Hin as [a Hin]. rewrite snapshot_lookup in Hin.
    by case_bool_decide. }
  exists v2. split; [done|]. destruct Ha as [Ea Ec Es Eq Er].
  split_and!.
  - unfold alike. rewrite merge_contents, Cv. constructor; simpl; congruence.
  - eapply writes_sound; [apply merge_writes|apply Hs].
  - pose proof (writes_execute pins signing_chain_id b tx (br_ctx b) u2) as W. rewrite Ev in W.
    eapply writes_sound; [exact W|apply Hc].
Qed.

(** The transaction in the store after the merges before it, against its view of the
    store before the batch. *)
Lemma merge_step base idx tx r s1 s2 p g q s1' :
  br_txs b !! idx = Some tx → declares_own tx = true → run_view b base idx = Ok r →
  (∀ id, id ∈ al_all (tx_access_list tx) → get s1 id = get base id) → twins s1 s2 →
  merge_one b (g, p.2) r s1 = (Ok q, s1') →
  q.1 = sat_add u64_max g GAS_PER_TRANSFER ∧
  (∀ id, id ∉ al_all (tx_access_list tx) → off_fees id → get s1' id = get s1 id) ∧
  ∃ s2', run_one p idx tx s2 = (Ok (sat_add u64_max p.1 GAS_PER_TRANSFER, q.2), s2') ∧ twins s1' s2'.
Proof.
  intros Htx Hd Hr Hbase Hs. unfold run_view in Hr. rewrite Htx in Hr.
  destruct (execute_transfer tx (snapshot_of base tx)) as [[out|e] V'] eqn:EV; simplify_eq/=.
  destruct (transfer_run base tx out V' s1 s2 Hd EV Hbase Hs) as (-> & Hdom & v2 & Ev & Hm).
  unfold mbind, st_bind, st_modify, map_err. simpl.
  destruct (agrees_fees b tx idx GAS_PER_TRANSFER (merge_into V' s1) v2) as [Hr1 Hr2]; [apply Hm|].
  pose proof (writes_fees b tx idx GAS_PER_TRANSFER (merge_into V' s1)) as W1.
  pose proof (writes_fees b tx idx GAS_PER_TRANSFER v2) as W2.
  pose proof (λ id, fees_frame tx idx GAS_PER_TRANSFER id (merge_into V' s1)) as Hf.
  unfold Executor.run_one. destruct (checkpoint s2) as [cp u2]. simpl in *. rewrite Ev. simpl.
  destruct (charge_fees _ _ _ _ (merge_into V' s1)) as [[[]|e] w1], (charge_fees _ _ _ _ v2) as [[[]|e'] w2];
    simplify_eq/=; [|done]. intros [= <- <-]. simpl. split; [done|]. split.
  - intros id Hid Ho. destruct (own_accounts tx Hd) as (to & amount & Hp & Hfrom & Hto).
    rewrite Hf by set_solver. unfold get. rewrite merge_contents. simpl.
    rewrite lookup_union_r; [done|]. apply not_elem_of_dom. set_solver.
  - eexists. split; [done|]. by destruct (twins_writes _ _ _ _ Hm W1 W2 Hr2) as (? & ? & ?).
Qed.

(** ** A batch *)

Definition owned (batch : list nat) : gset AccountId :=
  ⋃ ((λ i, match br_txs b !! i with Some tx => list_to_set (al_all (tx_access_list tx)) | None => ∅ end) <$> batch).

Lemma safe_cons i rest touched :
  safe_from (br_txs b) (i :: rest) touched = true →
  ∃ tx, br_txs b !! i = Some tx ∧ declares_own tx = true ∧
    list_to_set (al_all (tx_access_list tx)) ## touched ∧
    safe_from (br_txs b) rest (list_to_set (al_all (tx_access_list tx)) ∪ touched) = true.
Proof.
  simpl. destruct (br_txs b !! i) as [tx|]; [|done]. rewrite !andb_true_iff, bool_decide_eq_true. naive_solver.
Qed.

Lemma owned_cons i rest tx :
  br_txs b !! i = Some tx → owned (i :: rest) = list_to_set (al_all (tx_access_list tx)) ∪ owned rest.
Proof. intros Hi. unfold owned. simpl. by rewrite Hi. Qed.

Lemma safe_disjoint batch touched : safe_from (br_txs b) batch touched = true → owned batch ## touched.
Proof.
  revert touched. induction batch as [|i batch IH]; intros touched Hs; [done|].
  apply safe_cons in Hs as (tx & Hi & _ & Hd & Hs). specialize (IH _ Hs). rewrite (owned_cons _ _ _ Hi).
  set_solver.
Qed.

(** The gas of a batch, added at once or one transaction at a time. *)
Lemma gas_regroup p g : 0 ≤ g → g + GAS_PER_TRANSFER ≤ u64_max →
  sat_add u64_max (sat_add u64_max p g) GAS_PER_TRANSFER = sat_add u64_max p (sat_add u64_max g GAS_PER_TRANSFER).
Proof. intros ??. assert (0 ≤ GAS_PER_TRANSFER) by done. unfold sat_add. lia. Qed.

Lemma sequential_step p i tx rest s q s' :
  br_txs b !! i = Some tx → run_one p i tx s = (Ok q, s') → run_sequential p (i :: rest) s = run_sequential q rest s'.
Proof.
  intros Hi Hr. cbn [Executor.run_sequential]. unfold mbind at 1, st_bind at 1.
  assert (run_tx pins signing_chain_id error_text b p i s = (Ok q, s')) as ->; [|done].
  unfold run_tx. rewrite Hi. exact Hr.
Qed.

Lemma sequential_fault p i tx rest s e s' :
  br_txs b !! i = Some tx → run_one p i tx s = (Err e, s') → run_sequential p (i :: rest) s = (Err e, s').
Proof.
  intros Hi Hr. cbn [Executor.run_sequential]. unfold mbind at 1, st_bind at 1.
  assert (run_tx pins signing_chain_id error_text b p i s = (Err e, s')) as ->; [|done].
  unfold run_tx. rewrite Hi. exact Hr.
Qed.

Lemma merge_is_sequential base batch rs touched s1 s2 p g rcs q s1' :
  run_views b base batch = Ok rs → safe_from (br_txs b) batch touched = true →
  (∀ id, id ∈ owned batch → off_fees id) → (∀ id, id ∈ owned batch → get s1 id = get base id) → twins s1 s2 →
  0 ≤ g → g + GAS_PER_TRANSFER * Z.of_nat (length batch) ≤ u64_max →
  merge_all b (g, rcs) rs s1 = (Ok q, s1') →
  ∃ s2', run_sequential (sat_add u64_max p g, rcs) batch s2 = (Ok (sat_add u64_max p q.1, q.2), s2') ∧ twins s1' s2'.
Proof.
  revert rs touched s1 s2 g rcs. induction batch as [|i batch IH]; intros rs touched s1 s2 g rcs.
  { intros [= <-] _ _ _ Hs _ _ [= <- <-]. by exists s2. }
  intros Hv (tx & Hi & Hd & Hdis & Hsafe)%safe_cons Hoff Hbase Hs Hg Hcap. simpl in Hv.
  destruct (run_view b base i) as [r|] eqn:Er; [|done].
  destruct (run_views b base batch) as [rs'|]; [|done]. injection Hv as <-.
  pose proof (safe_disjoint _ _ Hsafe) as Hdis'. rewrite (owned_cons _ _ _ Hi) in *.
  cbn [merge_all]. unfold mbind at 1, st_bind at 1. destruct (merge_one b (g, rcs) r s1) as [[q1|] u1] eqn:Em; [|done].
  destruct (merge_step base i tx r s1 s2 (sat_add u64_max p g, rcs) g q1 u1) as (Hq & Hframe & u2 & Eu & Hu);
    [done..|intros; apply Hbase; set_solver|done|done|].
  destruct q1 as [g1 rcs1]. cbn [fst snd length] in *. subst g1.
  assert (0 ≤ GAS_PER_TRANSFER) by done. rewrite (sequential_step _ _ _ _ _ _ _ Hi Eu), gas_regroup by nia.
  assert (sat_add u64_max g GAS_PER_TRANSFER = g + GAS_PER_TRANSFER) as -> by (unfold sat_add; nia).
  eapply (IH rs'); [done|done|set_solver| |done|lia|nia].
  intros id Hid. rewrite Hframe by set_solver. apply Hbase. set_solver.
Qed.

(** The attempt never panics. *)
Lemma transfer_error (tx : Transaction) (e : Fault) (V V' : ExecutionView) : execute_transfer tx V = (Err e, V') → ∃ v, e = Vm v.
Proof.
  unfold execute_transfer. simpl. destruct (V !! tx_sender tx) as [a|]; [|naive_solver].
  unfold debit, bump_nonce, mbind, st_bind, st_get, st_require, st_put, st_some, st_fail, mret, st_ret. simpl.
  repeat (case_match; simplify_eq/=; try naive_solver).
Qed.

Lemma views_no_crash base batch touched :
  safe_from (br_txs b) batch touched = true → run_views b base batch ≠ Err ExecCrash.
Proof.
  revert touched. induction batch as [|i batch IH]; intros touched; [done|].
  intros (tx & Hi & _ & _ & Hs)%safe_cons. specialize (IH _ Hs). simpl.
  assert (run_view b base i ≠ Err ExecCrash) as Hv.
  { unfold run_view. rewrite Hi. destruct (execute_transfer tx _) as [[out|e] V'] eqn:E; [done|].
    by apply transfer_error in E as [v ->]. }
  destruct (run_view b base i), (run_views b base batch); congruence.
Qed.

Lemma merge_no_crash rs p s : (merge_all b p rs s).1 ≠ Err ExecCrash.
Proof.
  revert p s. induction rs as [|[[[i tx] V] g] rs IH]; intros p s; [done|]. cbn [merge_all].
  unfold mbind at 1, st_bind at 1.
  assert ((merge_one b p (i, tx, V, g) s).1 ≠ Err ExecCrash) as Hm.
  { unfold merge_one, mbind, st_bind, st_modify, map_err. simpl.
    by destruct (charge_fees b tx i g _) as [[[]|e] u]. }
  destruct (merge_one b p (i, tx, V, g) s) as [[q|[]] u]; [apply IH|done..].
Qed.

Lemma attempt_no_crash p batch s :
  safe_from (br_txs b) batch ∅ = true → (attempt_parallel b p batch s).1 ≠ Err ExecCrash.
Proof.
  intros Hs. pose proof (views_no_crash s batch ∅ Hs) as Hv. unfold attempt_parallel, read_views, mbind, st_bind.
  destruct (run_views b s batch) as [rs|e]; [|naive_solver]. simpl. destruct (no_conflicts _ _); [simpl|done].
  pose proof (merge_no_crash rs (0, p.2) s) as Hm. destruct (merge_all b _ rs s) as [[q|e] u]; naive_solver.
Qed.

Lemma untouched_off_fees batch id :
  touches_fee_account (br_recipient b) (br_txs b) batch = false → id ∈ owned batch → off_fees id.
Proof.
  unfold touches_fee_account, owned. induction batch as [|i batch IH]; simpl; [set_solver|].
  rewrite orb_false_iff. intros [Hi Hr]. rewrite elem_of_union. intros [Hin|Hin]; [|by apply IH].
  destruct (br_txs b !! i) as [tx|]; [|set_solver]. apply elem_of_list_to_set in Hin.
  unfold off_fees. apply not_true_is_false. intros Hf. apply not_true_iff_false in Hi. apply Hi.
  apply existsb_exists. exists id. by rewrite <- list_elem_of_In.
Qed.

(** The attempt, when it succeeds, is the sequential run. *)
Lemma attempt_is_sequential p batch s1 s2 q s1' :
  br_exclude b = true → parallel_batch b batch = true →
  p.1 ≤ u64_max → GAS_PER_TRANSFER * Z.of_nat (length batch) ≤ u64_max → twins s1 s2 →
  attempt_parallel b p batch s1 = (Ok q, s1') →
  ∃ s2', run_sequential p batch s2 = (Ok q, s2') ∧ twins s1' s2'.
Proof.
  unfold parallel_batch, parallel_transfer_batch_is_safe.
  rewrite !andb_true_iff, negb_true_iff. intros Hx [[_ Hsafe] Hfee] Hp Hcap Hs. rewrite Hx in Hfee. simpl in Hfee.
  unfold attempt_parallel, read_views, mbind, st_bind.
  destruct (run_views b s1 batch) as [rs|] eqn:Ev; [simpl|done]. destruct (no_conflicts _ _); [simpl|done].
  destruct (merge_all b (0, p.2) rs s1) as [[q0|] u] eqn:Em; [|done]. intros [= <- <-].
  destruct (merge_is_sequential s1 batch rs ∅ s1 s2 p.1 0 p.2 q0 u) as (s2' & Hr & Ht);
    [done|done|intros id; by apply untouched_off_fees|done|done|done|lia|done|].
  exists s2'. split; [|done]. destruct p as [g rcs]. cbn [fst snd] in *.
  assert (sat_add u64_max g 0 = g) as Eg by (unfold sat_add; lia). by rewrite Eg in Hr.
Qed.

(** A batch ends as its transactions run one after the other, whatever the store's
    journals and caches. *)
Lemma batch_is_sequential p batch s1 s2 :
  br_exclude b = true → p.1 ≤ u64_max → GAS_PER_TRANSFER * Z.of_nat (length batch) ≤ u64_max → twins s1 s2 →
  (run_batch p batch s1).1 = (run_sequential p batch s2).1 ∧
  twins (run_batch p batch s1).2 (run_sequential p batch s2).2.
Proof.
  intros Hx Hp Hcap Hs. unfold Executor.run_batch.
  destruct (parallel_batch b batch) eqn:Hpar; [|by apply same_sequential].
  pose proof (twins_checkpoint s1 s1) as Hc. pose proof (revert_alike s1) as Hv.
  pose proof (checkpoint_alike s1) as Ha. pose proof (writes_attempt b _ p batch (checkpoint s1).2) as W.
  destruct (checkpoint s1) as [cp u1]. simpl in *.
  assert (twins u1 s2) as Hu.
  { split_and!; [rewrite Ha; apply Hs| |apply Hs]. destruct Hs as (? & ? & ?). by apply Hc. }
  destruct (attempt_parallel b p batch u1) as [[q|[e|]] v1] eqn:Ea.
  - destruct (attempt_is_sequential p batch u1 s2 q v1) as (s2' & -> & Ht); [done..|].
    split; [done|]. by destruct Ht as (? & ? & ?).
  - apply (same_sequential _ _ _ _ (H5 := H1)). assert (sound s1) as Ho by apply Hs. destruct (Hv v1 Ho W) as [Hr1 Hr2].
    split_and!; [rewrite Hr1; apply Hs|done|apply Hs].
  - exfalso. apply (attempt_no_crash p batch u1); [|by rewrite Ea].
    unfold parallel_batch in Hpar. rewrite !andb_true_iff in Hpar. by destruct Hpar as [[_ ?] _].
Qed.

End Batch.

(** ** A block *)

Section Blocks.
Context `{Host} `{RegistryCodec} `{Iteration} `{TextOps} `{Crypto} `{HexText} `{PolicyJson}.
Context (pins : HostPins) (signing_chain_id : option Z) (error_text : nat → ExecutionError → bytes).

Notation run_sequential := (run_sequential pins signing_chain_id error_text).
Notation run_batches := (run_batches pins signing_chain_id error_text).

(** The reference: the scheduled order, one transaction after the other. *)
Definition execute_in_order (ex : BlockExecutor) (height timestamp : Z) (txs : list Transaction)
    (recipient : AccountId) (tips : list Z) : ST VmStore ExecFault (Z * list ExecutionReceipt) :=
  _ ← st_require (bool_decide (tips = []) || (length tips =? length txs)%nat) (ExecErr ConflictDetected);
  vm ← pure_st (open_block ex height timestamp);
  '(gas, rs) ← run_sequential (block_run ex vm height timestamp txs recipient tips)
                 (0, replicate (length txs) None) (concat (schedule txs));
  rs ← st_some (mapM id rs) ExecCrash;
  mret (gas, rs).

Lemma sequential_app b l1 l2 p s :
  run_sequential b p (l1 ++ l2) s = (run_sequential b p l1 ≫= λ q, run_sequential b q l2) s.
Proof.
  revert p s. induction l1 as [|i l1 IH]; intros p s; [done|]. cbn [app Executor.run_sequential].
  unfold mbind, st_bind. destruct (run_tx _ _ _ _ _ _ s) as [[q|e] u]; [apply IH|done].
Qed.

Lemma batches_are_sequential b batches p s1 s2 :
  br_exclude b = true → p.1 ≤ u64_max →
  Forall (λ batch, GAS_PER_TRANSFER * Z.of_nat (length batch) ≤ u64_max) batches → twins s1 s2 →
  (run_batches b p batches s1).1 = (run_sequential b p (concat batches) s2).1 ∧
  twins (run_batches b p batches s1).2 (run_sequential b p (concat batches) s2).2.
Proof.
  intros Hx. revert p s1 s2. induction batches as [|batch batches IH]; intros p s1 s2 Hp Hcap Hs; [done|].
  apply Forall_cons in Hcap as [Hb Hcap]. cbn [concat]. rewrite sequential_app. cbn [Executor.run_batches].
  unfold mbind, st_bind.
  destruct (batch_is_sequential pins signing_chain_id error_text b p batch s1 s2 Hx Hp Hb Hs) as [Hr Ht].
  pose proof (sequential_cap pins signing_chain_id error_text b batch p Hp s2) as Hq.
  destruct (run_batch _ _ _ _ _ _ s1) as [[q|e] u1], (Executor.run_sequential _ _ _ _ _ _ s2) as [[q'|e'] u2];
    simplify_eq/=; [|done]. apply IH; [by eapply Hq|done..].
Qed.

Lemma batches_small txs :
  GAS_PER_TRANSFER * Z.of_nat (length txs) ≤ u64_max →
  Forall (λ batch, GAS_PER_TRANSFER * Z.of_nat (length batch) ≤ u64_max) (schedule txs).
Proof.
  intros Hcap. apply Forall_forall. intros batch Hin.
  assert (length batch ≤ length txs)%nat as Hle; [|assert (0 ≤ GAS_PER_TRANSFER) by done; nia].
  pose proof (schedule_perm txs) as Hp. apply Permutation_length in Hp. rewrite length_seq in Hp. rewrite <- Hp. clear -Hin.
  apply list_elem_of_split in Hin as (l1 & l2 & ->). rewrite concat_app, length_app. simpl. rewrite length_app. lia.
Qed.

Lemma same_in_order ex height ts txs recipient tips :
  security_v4_active ex height = true → GAS_PER_TRANSFER * Z.of_nat (length txs) ≤ u64_max →
  same_run (execute_block_with_tips pins signing_chain_id error_text ex height ts txs recipient tips)
    (execute_in_order ex height ts txs recipient tips).
Proof.
  intros Hv Hcap. unfold execute_block_with_tips, execute_in_order.
  apply same_bind; [apply same_require|intros _].
  apply same_bind; [|intros vm; apply same_bind].
  - intros s1 s2 Hs. destruct (open_twins _ _ ex height ts s1 s2 Hs) as [Hr Ht]. unfold pure_st.
    destruct (open_block _ _ _ s1), (open_block _ _ _ s2). simpl in *. by subst.
  - intros s1 s2 Hs. apply batches_are_sequential; [|done|by apply batches_small|done].
    unfold block_run. by destruct (fee_rule_at ex height).
  - intros [gas rs]. apply same_bind; [apply same_some|intros ?; apply same_ret].
Qed.

(** C5: from the height of the V4 rule on, a block whose batches are attempted in parallel
    is serializable: it returns the gas, the receipts or the error of running the
    scheduled transactions one after the other, and leaves the same contents. *)
Theorem block_serializable ex height ts txs recipient tips st :
  security_v4_active ex height = true → GAS_PER_TRANSFER * Z.of_nat (length txs) ≤ u64_max → sound st →
  let r1 := execute_block_with_tips pins signing_chain_id error_text ex height ts txs recipient tips st in
  let r2 := execute_in_order ex height ts txs recipient tips st in
  r1.1 = r2.1 ∧ twins r1.2 r2.2.
Proof. intros Hv Hcap Hst. by apply same_in_order. Qed.

End Blocks.
