(* ===== verification/ExecutorMoney.v ===== *)
(** * The ledger over a block

    About [Executor.v]: a block of well-formed transactions always executes to the
    end, with one receipt per transaction, and conserves native funds up to the rents
    its successful name transactions burn. The fees, the fee of a failed transaction
    and the tips only move funds. *)

From S2P Require Import Prelude Types Names Governance Blobs SampleMarket SlashAppeals Signatures OpenValidators Words Bytecode Qa Merkle Store Tokenomics StoreLaws StoreUndo Scheduler Interp InterpLaws Vm VmWrites VmMoney VmAgree Executor ExecutorRuns ExecutorParallel.
Import MoneyLaws VmMoneyLaws.

(** ** Fees are amounts *)

Lemma sat_add_typed a b : 0 ≤ a → 0 ≤ b → in_u128 (sat_add u128_max a b).
Proof. unfold in_u128, sat_add, u128_max. lia. Qed.

Lemma sat_mul_typed a b : 0 ≤ a → 0 ≤ b → in_u128 (sat_mul u128_max a b).
Proof. intros. unfold in_u128, sat_mul, u128_max. nia. Qed.

Lemma share_nonneg a bps : 0 ≤ a → 0 ≤ bps → 0 ≤ share a bps.
Proof. intros. apply Z.div_pos; [|done]. by apply sat_mul_typed. Qed.

Lemma gas_fee_nonneg gas p d : fee_policy_typed p → 0 ≤ gas → 0 ≤ execution_gas_fee_in gas p d.
Proof.
  intros [Hb _] Hg. repeat (apply Forall_cons in Hb as [? Hb]). unfold execution_gas_fee_in.
  assert (0 ≤ fee_for_gas_in gas d).
  { destruct d; simpl; [|by apply sat_mul_typed]. unfold fee_for_gas. case_match; [done|].
    apply Z.div_pos; [|done]. apply sat_add_typed; [by apply sat_mul_typed|done]. }
  repeat case_match; try done. apply share_nonneg; lia.
Qed.

Lemma transferred_nonneg p : payload_ok p → 0 ≤ native_transfer_total p.
Proof.
  destruct p; simpl; try done; [|by intros (_ & _ & [? _])]. intros Hc.
  assert (Forall (λ v, 0 ≤ v) (map batch_call_value calls)) as Hv.
  { induction Hc as [|c l Hc _ IH]; simpl; constructor; [|done]. destruct c; simpl in *; [done..|].
    apply Hc. }
  assert (0 ≤ 0) as H0 by done. revert H0. generalize 0 at 2 4 as acc.
  induction Hv as [|v l Hv _ IH]; intros acc Hacc; simpl; [done|]. apply IH. by apply sat_add_typed.
Qed.

Lemma blob_fee_nonneg p pol : fee_policy_typed pol → payload_ok p → 0 ≤ blob_data_fee p pol.
Proof.
  intros [_ Hb] Hp. repeat (apply Forall_cons in Hb as [[? _] Hb]).
  assert (∀ size r, 0 ≤ blob_size_fee size r pol) as Hs.
  { intros size r. unfold blob_size_fee. repeat case_match; try done;
      repeat first [apply sat_add_typed|apply sat_mul_typed|lia]. }
  destruct p; simpl in *; try done.
  case_match; [done|]. apply sat_mul_typed; [apply sat_mul_typed|]; lia.
Qed.

Lemma network_fee_typed gas p pol d :
  fee_policy_typed pol → payload_ok p → 0 ≤ gas → in_u128 (network_fee_amount_in gas p pol d).
Proof.
  intros Hpol Hp Hg. pose proof (gas_fee_nonneg gas pol d Hpol Hg). pose proof (blob_fee_nonneg p pol Hpol Hp).
  pose proof (transferred_nonneg p Hp). destruct Hpol as [Hb Hx].
  repeat (apply Forall_cons in Hb as [? Hb]). repeat (apply Forall_cons in Hx as [[? _] Hx]).
  apply sat_add_typed; [|done]. apply sat_add_typed; [by apply sat_add_typed|].
  repeat case_match; try done; apply share_nonneg; lia.
Qed.

Lemma rent_of_nonneg `{TextOps} unit p : payload_ok p → 0 < unit → 0 ≤ rent_of unit p.
Proof.
  intros Hp Hu.
  assert (∀ l years, 0 ≤ years → 0 ≤ sat_mul u128_max (name_rent l years) unit) as Hr.
  { intros l years Hy. apply sat_mul_typed; [|lia]. unfold name_rent. apply Z.mul_nonneg_nonneg; [|done].
    unfold name_rent_per_year. repeat case_match; lia. }
  destruct p; simpl in *; try done; (case_match; [by apply Hr|done]).
Qed.

(** ** Charges keep the ledger *)

Section Charges.
Context `{Host} `{RegistryCodec} `{Iteration} (T : Z).

Lemma ledger_alike (s1 s2 : VmStore) : alike s1 s2 → ledger_at T s1 → ledger_at T s2.
Proof.
  intros [Ea Ec Es Eq Er] [Hf Hc Hs Hq Hb Hsl Hpn Ht].
  constructor; unfold total, supply, funds_ok, open_validators, slash_appeals, sample_serve in *;
    rewrite <- ?Ea, <- ?Ec, <- ?Es, <- ?Eq, <- ?Er; done.
Qed.

Lemma ledger_kept (s1 s2 : VmStore) :
  ledger_at T s1 → only_funds s1 s2 → funds_ok s2 → supply s2 = supply s1 → ledger_at T s2.
Proof.
  intros Hl Ho Hf Hs. apply (ledger_eq (T + 0)); [|lia]. eapply ledger_only_funds; [done..|]. lia.
Qed.

Lemma debit_fee_failed sender fee (st st' : VmStore) e :
  debit_fee sender fee st = (Err e, st') → ledger_at T st → ledger_at T st'.
Proof.
  intros (Ea & Ho & _)%debit_fee_err Hl. apply (ledger_kept st); [done|done| |].
  - unfold funds_ok. rewrite Ea. apply Hl.
  - unfold supply. by rewrite Ea.
Qed.

Lemma charge_ledger sender fee r p rem (st : VmStore) :
  fee_policy_typed p → in_u128 fee → T ≤ u128_max → ledger_at T st →
  ledger_at T (charge_and_distribute_fee_with_remainder sender fee r p rem st).2.
Proof.
  intros Hp Hfee HT Hl. pose proof (supply_le T st Hl).
  destruct (charge_and_distribute_fee_with_remainder sender fee r p rem st) as [[[]|e] st'] eqn:Hc; simpl.
  - destruct (charge_fee_ok _ _ _ _ _ _ _ Hp Hfee (lg_funds _ _ Hl) ltac:(lia) Hc) as (? & ? & ?).
    by apply (ledger_kept st).
  - unfold charge_and_distribute_fee_with_remainder in Hc. case_match; [done|]. unfold mbind, st_bind in Hc.
    destruct (debit_fee sender fee st) as [[[]|e'] u] eqn:Hd; [done|]. injection Hc as <- <-.
    by eapply debit_fee_failed.
Qed.

Lemma tip_ledger sender tip r p (st : VmStore) :
  fee_policy_typed p → in_u128 tip → T ≤ u128_max → ledger_at T st →
  ledger_at T (charge_priority_tip sender tip r p st).2.
Proof.
  intros Hp Htip HT Hl. pose proof (supply_le T st Hl).
  destruct (charge_priority_tip sender tip r p st) as [[[]|e] st'] eqn:Hc; simpl.
  - destruct (charge_tip_ok _ _ _ _ _ _ Hp Htip (lg_funds _ _ Hl) ltac:(lia) Hc) as (? & ? & ?).
    by apply (ledger_kept st).
  - unfold charge_priority_tip in Hc. case_match; [done|]. unfold mbind, st_bind in Hc.
    destruct (debit_fee sender tip st) as [[[]|e'] u] eqn:Hd; [done|]. injection Hc as <- <-.
    by eapply debit_fee_failed.
Qed.

Lemma nonce_ledger tx (st : VmStore) :
  ledger_at T st → ledger_at T (get_mut (tx_sender tx) (consume_nonce tx) st).
Proof.
  intros Hl. destruct (get st (tx_sender tx)) as [a|] eqn:Ea.
  - destruct (native_le T st _ a Hl Ea) as [Hf _].
    assert (native (consume_nonce tx a) = native a ∧ funds (consume_nonce tx a)) as [Hn Hf'].
    { unfold consume_nonce, native, funds in *. by case_match. }
    eapply ledger_eq; [by eapply ledger_get_mut|]. lia.
  - eapply ledger_alike; [|done]. unfold alike. rewrite contents_get_mut. unfold get in Ea.
    assert (alter (consume_nonce tx) (tx_sender tx) (accounts (contents st)) = accounts (contents st)) as ->.
    { apply map_eq. intros j. destruct (decide (j = tx_sender tx)) as [->|];
        [by rewrite lookup_alter_eq, Ea|by rewrite lookup_alter_ne]. }
    by destruct (contents st).
Qed.

End Charges.

(** ** Rents burned *)

Section Burned.
Context `{TextOps} (unit : Z).

(** What the transaction with receipt [r] burned. *)
Definition burned_by (tx : Transaction) (r : ExecutionReceipt) : Z :=
  if rc_success r then rent_of unit (tx_payload tx) else 0.

(** The rents burned by the transactions with these receipts. *)
Fixpoint burned (txs : list Transaction) (rs : receipts) : Z :=
  match txs, rs with
  | tx :: txs, r :: rs => match r with Some r => burned_by tx r | None => 0 end + burned txs rs
  | _, _ => 0
  end.

Lemma burned_insert txs rs i tx r :
  txs !! i = Some tx → rs !! i = Some None → burned txs (<[i := Some r]> rs) = burned txs rs + burned_by tx r.
Proof.
  revert rs i. induction txs as [|tx' txs IH]; intros [|r' rs] [|i]; simpl; intros; simplify_eq/=; [lia|].
  rewrite IH by done. lia.
Qed.

Lemma burned_nonneg txs rs : 0 < unit → Forall tx_ok txs → 0 ≤ burned txs rs.
Proof.
  intros Hu Htxs. revert rs. induction Htxs as [|tx txs [_ Hp] _ IH]; intros [|r rs]; simpl; [done..|].
  assert (0 ≤ match r with Some r => burned_by tx r | None => 0 end); [|specialize (IH rs); lia].
  destruct r as [r|]; [|done]. unfold burned_by. case_match; [|done]. by apply rent_of_nonneg.
Qed.

End Burned.

(** ** One transaction *)

Section Step.
Context `{Hh : Host} `{!HostDigest Hh} `{RegistryCodec} `{Iteration} `{TextOps} `{Crypto} `{HexText} `{PolicyJson}.
Context (pins : HostPins) (signing_chain_id : option Z) (error_text : nat → ExecutionError → bytes).
Context (b : BlockRun).

(** What a block execution relies on: typed policies and tips, a well-formed
    configuration, and error texts a receipt can hold. *)
Record run_ok : Prop := {
  ro_config : config_ok pins (br_vm b);
  ro_ctx : ctx_ok (br_ctx b);
  ro_policy : fee_policy_typed (br_policy b);
  ro_failed : ∀ f, br_failed_fee b = Some f → fee_policy_typed (ff_policy f);
  ro_tips : Forall in_u128 (br_tips b);
  ro_texts : ∀ i e, is_Some (sanitize_error (error_text i e));
  ro_txs : Forall tx_ok (br_txs b);
}.

Context (Hok : run_ok).

Notation unit := (denom_unit (denomination_at (br_vm b) (block_height (br_ctx b)))).

Notation run_one := (run_one pins signing_chain_id error_text b).
Notation run_sequential := (run_sequential pins signing_chain_id error_text b).

Lemma fees_ledger T tx idx gas (st : VmStore) :
  tx_ok tx → 0 ≤ gas → T ≤ u128_max → ledger_at T st → ledger_at T (charge_fees b tx idx gas st).2.
Proof.
  intros [_ Hp] Hg HT Hl. unfold charge_fees, mbind, st_bind.
  match goal with |- context [charge_and_distribute_fee_with_remainder ?s ?f ?r ?p ?m st] =>
    pose proof (charge_ledger T s f r p m st (ro_policy Hok)
      (network_fee_typed _ _ _ _ (ro_policy Hok) Hp Hg) HT Hl) as Hc;
    destruct (charge_and_distribute_fee_with_remainder s f r p m st) as [[[]|e] st1] end; [|done].
  apply tip_ledger; [apply Hok| |done|done]. unfold tip_at. pose proof (ro_tips Hok) as Ht.
  destruct (br_tips b !! idx) as [t|] eqn:Et; [|done]. simpl. rewrite Forall_lookup in Ht. by eapply Ht.
Qed.

Lemma failed_charge_typed tx a T (st : VmStore) :
  ledger_at T st → T ≤ u128_max → get st (tx_sender tx) = a → in_u128 (failed_charge b tx a).1.
Proof.
  intros Hl HT Ha. unfold failed_charge. destruct a as [a|]; [|done].
  destruct (br_failed_fee b) as [f|] eqn:Ef; [|done]. case_match; [|done]. simpl.
  destruct (native_le T st _ a Hl Ha) as [[? [? ?]] Hn]. unfold native in Hn.
  assert (in_u128 (failed_tx_fee_amount_in (ff_policy f) (ff_denom f))) as Hf.
  { pose proof (ro_failed Hok f Ef) as Hp. apply sat_add_typed; [by apply gas_fee_nonneg|].
    destruct Hp as [_ Hx]. repeat (apply Forall_cons in Hx as [[? _] Hx]). done. }
  unfold in_u128 in *. lia.
Qed.

Lemma charge_failed_ledger T tx charge (st : VmStore) :
  in_u128 charge → T ≤ u128_max → ledger_at T st → ledger_at T (charge_failed b tx charge st).
Proof.
  intros Hc HT Hl. unfold charge_failed. destruct (br_failed_fee b) as [f|] eqn:Ef; [|done].
  case_match; [|done]. by apply charge_ledger; [by apply Hok|..].
Qed.

Lemma failed_ledger T p idx tx e (st : VmStore) :
  tx_ok tx → T ≤ u128_max → sound st → ledger_at T st →
  ∃ r st', settle_failed error_text b tx idx e p st
             = (Ok (sat_add u64_max p.1 (rc_gas_used r), <[idx := Some r]> p.2), st') ∧
    receipt_ok tx (block_height (br_ctx b)) idx r ∧ sound st' ∧ ledger_at (T - burned_by unit tx r) st'.
Proof.
  intros Htx HT Hs Hl. unfold settle_failed, pure_st. unfold mbind at 1, st_bind at 1.
  pose proof (failed_charge_typed tx _ T st Hl HT eq_refl) as Hc. cbn [fst snd].
  destruct (failed_charge b tx (get st (tx_sender tx))) as [charge gas] eqn:Ec.
  unfold record_receipt, mbind, st_bind, st_modify. cbn [fst snd] in *.
  destruct (ro_texts Hok idx e) as [err Herr].
  assert (∃ r, from_tx_outcome tx (block_height (br_ctx b)) idx false gas [] [] (Some (error_text idx e)) = Some r)
    as [r Hr].
  { unfold from_tx_outcome. rewrite Herr. by eexists. }
  rewrite Hr. simpl. apply outcome_ok in Hr as (Hrk & Hsuc & <-); [|done].
  eexists _, _. split; [done|]. split; [done|]. unfold burned_by. rewrite Hsuc, Z.sub_0_r. split.
  - eapply writes_sound; [apply writes_charge_failed|]. eapply writes_sound; [apply writes_get_mut|done].
  - apply charge_failed_ledger; [done..|]. by apply nonce_ledger.
Qed.

Lemma run_one_ledger T p idx tx (st : VmStore) :
  tx_ok tx → T < u128_max → sound st → ledger_at T st →
  ∃ r st', run_one p idx tx st
             = (Ok (sat_add u64_max p.1 (rc_gas_used r), <[idx := Some r]> p.2), st') ∧
    receipt_ok tx (block_height (br_ctx b)) idx r ∧ sound st' ∧ ledger_at (T - burned_by unit tx r) st'.
Proof.
  intros Htx HT Hs Hl. unfold Executor.run_one, apply_failed_tx_consuming_nonce.
  pose proof (checkpoint_snaps st Hs) as Hsu. pose proof (checkpoint_alike st) as Ha.
  pose proof (revert_alike st) as Hv.
  destruct (checkpoint st) as [cp u]. simpl in *.
  assert (∀ v e, writes u v → ∃ r st', settle_failed error_text b tx idx e p (revert cp v)
      = (Ok (sat_add u64_max p.1 (rc_gas_used r), <[idx := Some r]> p.2), st') ∧
      receipt_ok tx (block_height (br_ctx b)) idx r ∧ sound st' ∧ ledger_at (T - burned_by unit tx r) st') as Hfail.
  { intros v e Hw. destruct (Hv v Hs Hw) as [Hav Hsv]. apply failed_ledger; [done|lia|done|].
    by apply (ledger_alike T st). }
  pose proof (execute_takes pins (br_vm b) signing_chain_id tx (br_ctx b) T (ro_config Hok) Htx (ro_ctx Hok) HT u
    ltac:(by apply (ledger_alike T st))) as Hx.
  pose proof (writes_execute pins signing_chain_id b tx (br_ctx b) u) as W1.
  destruct (execute_with_context _ _ _ _ _ u) as [[out|e] v]; simpl in *.
  2: { destruct Hx as [e' ->]. by apply Hfail. }
  destruct Hx as [Hg Hlv].
  match type of Hlv with ledger_at (T - rent_of ?unit ?p) _ =>
    assert (T - rent_of unit p ≤ u128_max) as Hcap
      by (pose proof (rent_of_nonneg unit p (proj2 Htx) (unit_pos _)); lia) end.
  pose proof (fees_ledger _ tx idx (res_gas_used out) v Htx Hg Hcap Hlv) as Hlw.
  pose proof (writes_fees b tx idx (res_gas_used out) v) as W2.
  destruct (charge_fees _ _ _ _ v) as [[[]|e] w]; simpl in *; [|apply Hfail; by etrans].
  unfold settle_ok, record_receipt, mbind, st_bind, st_modify. simpl.
  eexists (mkReceipt _ _ _ _ _ _ _ _), _. split; [done|]. split; [|split].
  - by eapply outcome_ok.
  - change (sound w). eapply (writes_sound u); [by etrans|done].
  - by eapply ledger_alike; [symmetry; apply drop_alike|].
Qed.

(** ** A sequence of transactions *)

(** Each receipt is that of its transaction. *)
Definition receipts_ok (rs : receipts) : Prop :=
  length rs = length (br_txs b) ∧
  ∀ i r, rs !! i = Some (Some r) → ∃ tx, br_txs b !! i = Some tx ∧ receipt_ok tx (block_height (br_ctx b)) i r.

Lemma receipts_insert rs i tx r :
  receipts_ok rs → br_txs b !! i = Some tx → receipt_ok tx (block_height (br_ctx b)) i r →
  receipts_ok (<[i := Some r]> rs).
Proof.
  intros [Hl Hrs] Hi Hr. split; [by rewrite length_insert|]. intros j r' Hj.
  apply list_lookup_insert_Some in Hj as [(<- & [= <-] & _)|[_ Hj]]; eauto.
Qed.

Lemma sequential_ledger T batch p (st : VmStore) :
  NoDup batch → (∀ i, i ∈ batch → p.2 !! i = Some None) → receipts_ok p.2 →
  T < u128_max → sound st → ledger_at (T - burned unit (br_txs b) p.2) st →
  ∃ q st', run_sequential p batch st = (Ok q, st') ∧ receipts_ok q.2 ∧
    (∀ i, q.2 !! i = Some None → p.2 !! i = Some None ∧ i ∉ batch) ∧
    sound st' ∧ ledger_at (T - burned unit (br_txs b) q.2) st'.
Proof.
  intros Hnd. revert p st. induction Hnd as [|i batch Hi Hnd IH]; intros p st Hfree Hrs HT Hs Hl.
  { exists p, st. split_and!; try done. intros i Hi. split; [done|]. by apply not_elem_of_nil. }
  assert (p.2 !! i = Some None) as Hpi by (apply Hfree; by left).
  destruct (lookup_lt_is_Some_2 (br_txs b) i) as [tx Htx].
  { destruct Hrs as [<- _]. by eapply lookup_lt_Some. }
  assert (tx_ok tx) as Hok' by (eapply (Forall_lookup_1 tx_ok); [apply Hok|done]).
  destruct (run_one_ledger (T - burned unit (br_txs b) p.2) p i tx st) as (r & st1 & Hr & Hrk & Hs1 & Hl1); [done| |done..|].
  { pose proof (burned_nonneg unit (br_txs b) p.2 (unit_pos _) (ro_txs Hok)). lia. }
  rewrite (sequential_step _ _ _ _ _ _ _ _ _ _ _ Htx Hr).
  edestruct (IH (sat_add u64_max p.1 (rc_gas_used r), <[i := Some r]> p.2) st1) as (q & st' & Hq & Hrq & Hfq & Hsq & Hlq).
  - intros j Hj. simpl. rewrite list_lookup_insert_ne by set_solver. apply Hfree. by right.
  - by eapply receipts_insert.
  - done.
  - done.
  - simpl. rewrite (burned_insert _ _ _ _ tx) by done. eapply ledger_eq; [done|lia].
  - exists q, st'. split_and!; try done. intros j Hj. destruct (Hfq j Hj) as [Hj1 Hj2]. simpl in Hj1.
    destruct (decide (i = j)) as [->|Hne].
    + rewrite list_lookup_insert_eq in Hj1; [done|]. by eapply lookup_lt_Some.
    + rewrite list_lookup_insert_ne in Hj1 by done. set_solver.
Qed.

End Step.

(** ** A block *)

Section Funds.
Context `{Hh : Host} `{!HostDigest Hh} `{RegistryCodec} `{Iteration} `{TextOps} `{Crypto} `{HexText} `{PolicyJson}.
Context (pins : HostPins) (signing_chain_id : option Z) (error_text : nat → ExecutionError → bytes).

(** The reward of a decoded pool configuration is an unsigned number. *)
Context (Hjson : ∀ bs c, qa_pool_config_from_json bs = Some c → 0 ≤ reward_per_counted_vote c).

(** The block and the executor it runs on are well formed. *)
Record block_ok (ex : BlockExecutor) (height ts : Z) (txs : list Transaction) (tips : list Z) : Prop := {
  bk_config : config_ok pins (ex_vm ex);
  bk_policy : fee_policy_typed (ex_fee_policy ex);
  bk_eras : ∀ h, ex_history ex = Some h → Forall (λ e, fee_policy_typed (fe_policy e)) (h_fee_eras h);
  bk_height : in_u64 height;
  bk_ts : in_u64 ts;
  bk_tips : Forall in_u128 tips;
  bk_tip_count : tips = [] ∨ length tips = length txs;
  bk_txs : Forall tx_ok txs;
  bk_texts : ∀ i e, is_Some (sanitize_error (error_text i e));
}.

Lemma due_ledger T now (st : VmStore) : ledger_at T st → ledger_at T (apply_due_qa_governance now st).
Proof.
  intros Hl. unfold apply_due_qa_governance. generalize (p_id <$> filter (λ p, due_qa now p = true) (Gov.list_proposals (governance st))).
  intros l. revert st Hl. induction l as [|id l IH]; intros st Hl; simpl; [done|]. apply IH.
  unfold apply_one_due, on_governance, on_registry.
  destruct (execute_due id now _) as [[[key value]|e] g]; [|by apply ledger_registry].
  unfold commit_qa_value. repeat case_match; repeat apply ledger_registry; done.
Qed.

Lemma expire_ledger T vm height (st : VmStore) : ledger_at T st → ledger_at T (expire_qa_pending vm height st).
Proof.
  intros Hl. unfold expire_qa_pending. case_match; [done|]. generalize (qa_pending_expired height (review_window_blocks (qa_pool_config vm)) st).
  intros l. revert st Hl. induction l as [|s l IH]; intros st Hl; simpl; [done|]. apply IH.
  eapply ledger_qa; [done|apply contents_qa_remove|]. apply map_Forall_delete, Hl.
Qed.

Lemma canonical_config vm (st : VmStore) : config_ok pins vm → config_ok pins (with_canonical_qa vm st).
Proof.
  intros [Hb Hr]. split; [done|]. unfold with_canonical_qa, canonical_qa_policy. simpl.
  destruct (pool_config_json (qa_policy st)) as [bs|]; simpl; [|done].
  destruct (qa_pool_config_from_json bs) as [c|] eqn:E; simpl; [by eapply Hjson|done].
Qed.

Lemma opened T ex height ts (st : VmStore) :
  config_ok pins (ex_vm ex) → redenomination_height ex ≠ Some height → sound st → ledger_at T st →
  config_ok pins (open_block ex height ts st).1 ∧
  denomination_at (open_block ex height ts st).1 height = denomination_at (ex_vm ex) height ∧
  sound (open_block ex height ts st).2 ∧ ledger_at T (open_block ex height ts st).2.
Proof.
  intros Hc Hr Hs Hl. destruct (open_twins _ _ ex height ts st st) as [_ (_ & Ho & _)]; [done|].
  unfold open_block, canonical_vm, prepare_state_for_height in *. rewrite bool_decide_false in * by done.
  destruct (qa_canonical_active _ _); simpl in *; [|by split_and!; [..|apply expire_ledger]].
  split_and!; [by apply canonical_config|done|done|]. apply expire_ledger.
  destruct (governance_consensus_active _ _); [by apply due_ledger|done].
Qed.

Lemma rule_typed ex height :
  fee_policy_typed (ex_fee_policy ex) →
  (∀ h, ex_history ex = Some h → Forall (λ e, fee_policy_typed (fe_policy e)) (h_fee_eras h)) →
  fee_policy_typed (fee_rule_at ex height).1.
Proof.
  intros Hp He. unfold fee_rule_at.
  assert (∀ p, fee_policy_typed p → fee_policy_typed (set_execution_gas_fee_bps p 10000)) as Hset.
  { intros p [Hb Hx]. split; [|done]. do 8 (apply Forall_cons in Hb as [? Hb]).
    do 8 (apply Forall_cons; split; [done|]). constructor. }
  assert (fee_policy_typed (match h ← ex_history ex; fee_era_at h height with
    | Some era => (fe_policy era, fe_remainder era) | None => (ex_fee_policy ex, RemTreasury) end).1) as Hr.
  { destruct (ex_history ex) as [h|] eqn:Eh; simpl; [|done]. destruct (fee_era_at h height) as [era|] eqn:Ee; [|done].
    simpl. specialize (He h eq_refl). rewrite Forall_forall in He. apply He. unfold fee_era_at in Ee.
    case_match; [done|]. apply fmap_Some in Ee as ([i e] & Hf & ->). apply list_find_Some in Hf as (Hf & _).
    apply list_elem_of_lookup_2 in Hf. apply list_elem_of_In, in_rev. by apply list_elem_of_In. }
  destruct (match h ← ex_history ex; fee_era_at h height with Some era => _ | None => _ end) as [p rem].
  simpl in *. case_match; auto.
Qed.

Lemma block_run_ok ex vm height ts txs recipient tips :
  block_ok ex height ts txs tips → config_ok pins vm →
  run_ok pins error_text (block_run ex vm height ts txs recipient tips).
Proof.
  intros [Hc Hp He Hh1 Ht Htips _ Htxs Htexts] Hvm. pose proof (rule_typed ex height Hp He) as Hr.
  unfold block_run. destruct (fee_rule_at ex height) as [pol rem]. simpl in Hr. constructor; simpl; try done.
  intros f. case_match; [|done]. by intros [= <-].
Qed.

Lemma fresh_receipts n i : replicate n (@None ExecutionReceipt) !! i = Some None ↔ (i < n)%nat.
Proof.
  split; [intros Hi; apply lookup_lt_Some in Hi; by rewrite length_replicate in Hi|].
  intros Hi. by apply lookup_replicate_2.
Qed.

Lemma burned_fresh unit txs n : burned unit txs (replicate n None) = 0.
Proof. revert n. induction txs as [|tx txs IH]; intros [|n]; simpl; [done..|]. by rewrite IH. Qed.

Lemma in_order_ledger ex height ts txs recipient tips T (st : VmStore) :
  block_ok ex height ts txs tips → redenomination_height ex ≠ Some height →
  sound st → ledger_at T st → T < u128_max →
  ∃ gas rs st', execute_in_order pins signing_chain_id error_text ex height ts txs recipient tips st
                  = (Ok (gas, rs), st') ∧
    length rs = length txs ∧ (∀ i tx r, txs !! i = Some tx → rs !! i = Some r → receipt_ok tx height i r) ∧
    ledger_at (T - burned (denom_unit (denomination_at (ex_vm ex) height)) txs (Some <$> rs)) st'.
Proof.
  intros Hok Hred Hs Hl HT. unfold execute_in_order, mbind at 1, st_bind at 1.
  assert (bool_decide (tips = []) || (length tips =? length txs)%nat = true) as ->.
  { apply orb_true_iff. rewrite bool_decide_eq_true, Nat.eqb_eq. apply Hok. }
  simpl. unfold mbind at 1, st_bind at 1, pure_st.
  destruct (opened T ex height ts st (bk_config _ _ _ _ _ Hok) Hred Hs Hl) as (Hc & Hd & Hso & Hlo).
  destruct (open_block ex height ts st) as [vm u]. simpl in *.
  pose proof (block_run_ok ex vm height ts txs recipient tips Hok Hc) as Hrun.
  set (b := block_run ex vm height ts txs recipient tips) in *.
  assert (br_txs b = txs ∧ br_vm b = vm ∧ block_height (br_ctx b) = height) as (Etx & Evm & Eh).
  { subst b. unfold block_run. by destruct (fee_rule_at ex height). }
  edestruct (sequential_ledger pins signing_chain_id error_text b Hrun T (concat (schedule txs))
    (0, replicate (length txs) None) u) as (q & st' & Hq & Hrq & Hfull & _ & Hlq); simpl.
  - rewrite schedule_perm. apply NoDup_seq.
  - intros i. rewrite schedule_perm, elem_of_seq, fresh_receipts. lia.
  - split; [by rewrite length_replicate, Etx|]. intros i r [? ?]%lookup_replicate. done.
  - done.
  - done.
  - rewrite burned_fresh, Z.sub_0_r. exact Hlo.
  - unfold mbind, st_bind. rewrite Hq. destruct q as [gas rs]. simpl in *.
    destruct Hrq as [Hlen Hrk]. rewrite Etx, Eh in *.
    assert (is_Some (mapM id rs)) as [rs' Hrs'].
    { apply mapM_is_Some_2, Forall_lookup. intros i [r|] Hi; [by eexists|]. exfalso.
      destruct (Hfull i Hi) as [Hi1%fresh_receipts Hi2]. apply Hi2. rewrite schedule_perm, elem_of_seq. lia. }
    rewrite Hrs'. apply mapM_Some in Hrs'. 
    assert (rs = Some <$> rs') as ->.
    { clear -Hrs'. induction Hrs' as [|x y l k Hx _ IH]; [done|]. unfold id in Hx. subst. simpl. by f_equal. }
    simpl. eexists gas, rs', st'. split; [done|]. rewrite length_fmap in Hlen.
    split; [done|]. split; [|by rewrite Evm, Hd in Hlq].
    intros i tx r Htx Hi. destruct (Hrk i r) as (tx' & ? & ?); [by rewrite list_lookup_fmap, Hi|]. by simplify_eq.
Qed.

(** C4: a block executes to the end and conserves native funds. On a well-formed store
    whose funds fit in a u128, a block of well-formed transactions under the V4 rule (with
    error texts a receipt can hold, and not the block that changes the denomination) gives
    one receipt per transaction, in order and within the size limits, and the sum of all
    balances, stakes, unbonding amounts and bonds is what it was, less exactly the rents of
    the names the successful transactions registered or renewed: fees, tips and the fees
    of failed transactions only move funds. *)
Theorem block_conserves_funds ex height ts txs recipient tips (st : VmStore) :
  block_ok ex height ts txs tips → security_v4_active ex height = true → redenomination_height ex ≠ Some height →
  GAS_PER_TRANSFER * Z.of_nat (length txs) ≤ u64_max → sound st → well_formed st → total st < u128_max →
  ∃ gas rs st', execute_block_with_tips pins signing_chain_id error_text ex height ts txs recipient tips st
                  = (Ok (gas, rs), st') ∧
    length rs = length txs ∧ (∀ i tx r, txs !! i = Some tx → rs !! i = Some r → receipt_ok tx height i r) ∧
    well_formed st' ∧
    total st' = total st - burned (denom_unit (denomination_at (ex_vm ex) height)) txs (Some <$> rs).
Proof.
  intros Hok Hv Hred Hcap Hs Hl HT.
  destruct (in_order_ledger ex height ts txs recipient tips (total st) st Hok Hred Hs Hl HT)
    as (gas & rs & st2 & Hr & Hlen & Hrk & Hl2).
  destruct (same_in_order pins signing_chain_id error_text ex height ts txs recipient tips Hv Hcap st st)
    as [He (Ha & _ & _)]; [done|].
  rewrite Hr in He, Ha. simpl in *. destruct (execute_block_with_tips _ _ _ _ _ _ _ _ _ st) as [r st1]. simpl in *.
  subst r. exists gas, rs, st1. split_and!; [done|done|done|..].
  - symmetry in Ha. apply (ledger_alike _ _ _ Ha) in Hl2. unfold well_formed. by rewrite (lg_total _ _ Hl2).
  - symmetry in Ha. apply (ledger_alike _ _ _ Ha) in Hl2. apply Hl2.
Qed.

End Funds.
