(* ===== verification/ExecutorNonces.v ===== *)
(** * Nonces over blocks

    About [Executor.v]: no transaction takes effect twice. In a block, two
    transactions of one sender with the same nonce do not both succeed; and nonces
    never go down, so neither does one that succeeded in an earlier block of the chain. *)

From S2P Require Import Prelude Types Names Governance Blobs SampleMarket SlashAppeals Signatures OpenValidators Words Bytecode Qa Merkle Store Tokenomics StoreLaws StoreUndo Scheduler Interp Vm VmWrites VmAgree Executor ExecutorRuns ExecutorParallel.
Import MoneyLaws.

(** No nonce went down. *)
Definition grows (st st' : VmStore) : Prop := ∀ id, nonce_at st id ≤ nonce_at st' id.

#[export] Instance grows_preorder : PreOrder grows.
Proof. split; [intros st id; lia|]. intros s1 s2 s3 Hr1 Hr2 id. specialize (Hr1 id). specialize (Hr2 id). lia. Qed.

Lemma alike_nonce s1 s2 id : alike s1 s2 → nonce_at s1 id = nonce_at s2 id.
Proof. intros Hs. unfold nonce_at. by rewrite (alike_get _ _ _ Hs). Qed.

Lemma alike_grows s1 s2 : alike s1 s2 → grows s1 s2.
Proof. intros Hs id. rewrite (alike_nonce _ _ id Hs). lia. Qed.

Lemma quiet_grows `{Host} `{RegistryCodec} `{Iteration} s1 s2 : quiet s1 s2 → grows s1 s2.
Proof. intros [_ Hn] id. rewrite Hn. lia. Qed.

(** ** Charges *)

Section Charges.
Context `{Host} `{RegistryCodec} `{Iteration}.

Lemma quiet_bind {E A B} (m : ST VmStore E A) (k : A → ST VmStore E B) :
  (∀ st, quiet st (m st).2) → (∀ a st, quiet st (k a st).2) → ∀ st, quiet st ((m ≫= k) st).2.
Proof.
  intros Hm Hk st. unfold mbind, st_bind. specialize (Hm st). destruct (m st) as [[a|e] st1]; [|done].
  etrans; [done|apply Hk].
Qed.

Lemma quiet_debit_fee sender fee st : quiet st (debit_fee sender fee st).2.
Proof.
  unfold debit_fee, with_account. destruct (get st sender) as [a|] eqn:Ea; [|done]. st_unfold.
  destruct (fee <=? balance a); simpl; apply quiet_get_mut; intros a' Ha'; by simplify_eq.
Qed.

Lemma quiet_distribute r s st : quiet st (distribute r s st).
Proof. unfold distribute. repeat (etrans; [|apply quiet_credit]). done. Qed.

Lemma quiet_charge sender fee r p rem st :
  quiet st (charge_and_distribute_fee_with_remainder sender fee r p rem st).2.
Proof.
  unfold charge_and_distribute_fee_with_remainder. destruct (fee =? 0); [done|].
  apply quiet_bind; intros; [apply quiet_debit_fee|apply quiet_distribute].
Qed.

Lemma quiet_tip sender tip r p st : quiet st (charge_priority_tip sender tip r p st).2.
Proof.
  unfold charge_priority_tip. destruct (tip =? 0); [done|].
  apply quiet_bind; intros; [apply quiet_debit_fee|apply quiet_distribute].
Qed.

Lemma quiet_fees b tx idx gas st : quiet st (charge_fees b tx idx gas st).2.
Proof. apply quiet_bind; intros; [apply quiet_charge|apply quiet_tip]. Qed.

Lemma quiet_charge_failed b tx charge st : quiet st (charge_failed b tx charge st).
Proof.
  unfold charge_failed. destruct (br_failed_fee b); [|done]. destruct (0 <? charge); [apply quiet_charge|done].
Qed.

Lemma consumed_grows tx (st : VmStore) :
  tx_nonce tx ≤ u64_max → grows st (get_mut (tx_sender tx) (consume_nonce tx) st).
Proof.
  intros Hm id. unfold nonce_at. rewrite get_get_mut. case_decide; [subst|lia].
  destruct (get st (tx_sender tx)) as [a|]; simpl; [|lia]. unfold consume_nonce.
  destruct (Z.eqb_spec (nonce a) (tx_nonce tx)); simpl; [unfold sat_add; lia|lia].
Qed.

End Charges.

(** ** One transaction *)

Section Step.
Context `{Host} `{RegistryCodec} `{Iteration} `{TextOps} `{Crypto} `{HexText} `{PolicyJson}.
Context (pins : HostPins) (signing_chain_id : option Z) (error_text : nat → ExecutionError → bytes).
Context (b : BlockRun).

Notation run_one := (run_one pins signing_chain_id error_text b).
Notation run_sequential := (run_sequential pins signing_chain_id error_text b).

(** The step from [st] to [st'] that recorded a receipt for [tx]: nonces grow, and a
    success used the nonce of the transaction up. *)
Definition used (tx : Transaction) (st st' : VmStore) (r : ExecutionReceipt) : Prop :=
  rc_success r = true → nonce_at st (tx_sender tx) = tx_nonce tx ∧ tx_nonce tx < nonce_at st' (tx_sender tx).

Lemma failed_nonces p idx tx e st q st' :
  tx_nonce tx ≤ u64_max → settle_failed error_text b tx idx e p st = (Ok q, st') →
  writes st st' ∧ grows st st' ∧ ∃ r, q.2 = <[idx := Some r]> p.2 ∧ rc_success r = false.
Proof.
  intros Hm. unfold settle_failed, pure_st. unfold mbind at 1, st_bind at 1. cbn [fst snd].
  destruct (failed_charge b tx (get st (tx_sender tx))) as [charge gas].
  unfold record_receipt, mbind, st_bind, st_modify, st_some.
  destruct (from_tx_outcome _ _ _ _ _ _ _ _) as [r|] eqn:Er; [|done]. intros [= <- <-].
  split; [etrans; [apply writes_get_mut|apply writes_charge_failed]|]. split.
  - etrans; [by apply (consumed_grows tx)|]. apply quiet_grows, quiet_charge_failed.
  - exists r. split; [done|]. by apply outcome_ok in Er as (_ & ? & _).
Qed.

Lemma run_one_nonces p idx tx st q st' :
  tx_nonce tx ≤ u64_max → sound st → run_one p idx tx st = (Ok q, st') →
  sound st' ∧ grows st st' ∧ ∃ r, q.2 = <[idx := Some r]> p.2 ∧ used tx st st' r.
Proof.
  intros Hm Hs. unfold Executor.run_one, apply_failed_tx_consuming_nonce.
  pose proof (checkpoint_snaps st Hs) as Hsu. pose proof (checkpoint_alike st) as Ha.
  pose proof (revert_alike st) as Hv. destruct (checkpoint st) as [cp u]. simpl in *.
  assert (∀ v e, writes u v → settle_failed error_text b tx idx e p (revert cp v) = (Ok q, st') →
    sound st' ∧ grows st st' ∧ ∃ r, q.2 = <[idx := Some r]> p.2 ∧ used tx st st' r) as Hfail.
  { intros v e Hw Hf. destruct (Hv v Hs Hw) as [Hav Hsv].
    apply failed_nonces in Hf as (Hw' & Hg & r & Hq & Hr); [|done]. split; [by eapply writes_sound|]. split.
    - etrans; [|done]. by apply alike_grows.
    - exists r. split; [done|]. intros Hr'. congruence. }
  pose proof (bumps_execute pins (br_vm b) signing_chain_id tx (br_ctx b) u) as [W1 Hb].
  pose proof (execute_nonce pins (br_vm b) signing_chain_id tx (br_ctx b) u) as Hn.
  destruct (execute_with_context _ _ _ _ _ u) as [[out|[]] v]; simpl in *; [|by apply Hfail|done..].
  specialize (Hb out eq_refl). specialize (Hn out v eq_refl).
  pose proof (quiet_fees b tx idx (res_gas_used out) v) as [W2 Hq2].
  destruct (charge_fees _ _ _ _ v) as [[[]|e] w]; simpl in *; [|apply Hfail; by etrans].
  intros [= <- <-]. split; [change (sound w); eapply (writes_sound u); [by etrans|done]|].
  assert (∀ id, nonce_at (drop_checkpoint w) id = nonce_at st id + if decide (id = tx_sender tx) then 1 else 0) as Hnon.
  { intros id. change (nonce_at (drop_checkpoint w) id) with (nonce_at w id).
    by rewrite Hq2, Hb, (alike_nonce u st id Ha). }
  split; [intros id; rewrite Hnon; case_decide; lia|]. eexists. split; [done|]. intros _.
  rewrite <- (alike_nonce u st) by done. rewrite Hnon, decide_True, <- (alike_nonce u st) by done. lia.
Qed.

(** The receipt at [i] is of a success of [tx]. *)
Definition succeeded_at (txs : list Transaction) (rs : receipts) (i : nat) (tx : Transaction) : Prop :=
  txs !! i = Some tx ∧ ∃ r, rs !! i = Some (Some r) ∧ rc_success r = true.

(** The transactions in [batch] that succeeded used their nonces up between [st] and
    [st'], each its own. *)
Record consumed (txs : list Transaction) (rs : receipts) (batch : list nat) (st st' : VmStore) : Prop := {
  cn_grows : grows st st';
  cn_used : ∀ i tx, i ∈ batch → succeeded_at txs rs i tx →
    nonce_at st (tx_sender tx) ≤ tx_nonce tx < nonce_at st' (tx_sender tx);
  cn_once : ∀ i j tx tx', i ∈ batch → j ∈ batch → succeeded_at txs rs i tx → succeeded_at txs rs j tx' →
    tx_sender tx = tx_sender tx' → tx_nonce tx = tx_nonce tx' → i = j;
}.

Lemma consumed_cons txs rs i batch tx r st st1 st' :
  txs !! i = Some tx → rs !! i = Some (Some r) → used tx st st1 r → grows st st1 →
  consumed txs rs batch st1 st' → consumed txs rs (i :: batch) st st'.
Proof.
  intros Hi Hr Hu Hg [Hg' Hus Hon].
  assert (∀ tx', succeeded_at txs rs i tx' →
    nonce_at st (tx_sender tx') = tx_nonce tx' ∧ tx_nonce tx' < nonce_at st1 (tx_sender tx')) as Hhead.
  { intros tx' (Ht & r' & Hr' & Hs). simplify_eq. by apply Hu. }
  assert (∀ j tx1 tx2, j ∈ batch → succeeded_at txs rs i tx1 → succeeded_at txs rs j tx2 →
    tx_sender tx1 = tx_sender tx2 → tx_nonce tx1 < tx_nonce tx2) as Hlt.
  { intros j tx1 tx2 Hj Hs1 Hs2 He. apply Hhead in Hs1 as [_ Hs1]. apply (Hus _ _ Hj) in Hs2. rewrite He in Hs1. lia. }
  split; [by etrans|..].
  - intros j tx' [->|Hj]%elem_of_cons Hs.
    + apply Hhead in Hs as [? ?]. specialize (Hg' (tx_sender tx')). lia.
    + apply (Hus _ _ Hj) in Hs. specialize (Hg (tx_sender tx')). lia.
  - intros j k tx1 tx2 [->|Hj]%elem_of_cons [->|Hk]%elem_of_cons Hs1 Hs2 He Hn; [done|..|by eapply Hon].
    + specialize (Hlt k tx1 tx2 Hk Hs1 Hs2 He). lia.
    + specialize (Hlt j tx2 tx1 Hj Hs2 Hs1 (eq_sym He)). lia.
Qed.

Lemma sequential_nonces batch p st q st' :
  NoDup batch → (∀ i, i ∈ batch → (i < length p.2)%nat) → Forall (λ tx, tx_nonce tx ≤ u64_max) (br_txs b) →
  sound st → run_sequential p batch st = (Ok q, st') →
  sound st' ∧ (∀ i, i ∉ batch → q.2 !! i = p.2 !! i) ∧ consumed (br_txs b) q.2 batch st st'.
Proof.
  intros Hnd Hin Hmax. revert p st Hin.
  induction Hnd as [|i batch Hi Hnd IH]; intros p st Hin Hs.
  { intros [= <- <-]. split_and!; [done..|]. split; [done|..]; intros; set_solver. }
  cbn [Executor.run_sequential]. unfold mbind at 1, st_bind at 1, run_tx.
  destruct (br_txs b !! i) as [tx|] eqn:Htx; [|done].
  change ((st_some (Some tx) ExecCrash ≫= λ tx, run_one p i tx) st) with (run_one p i tx st).
  destruct (run_one p i tx st) as [[p1|e] st1] eqn:Er; [|done]. intros Hq.
  apply run_one_nonces in Er as (Hs1 & Hg & r & Hp1 & Hu); [|by eapply Forall_lookup_1 in Hmax|done].
  assert (i < length p.2)%nat as Hlt by (apply Hin; by left).
  destruct (IH p1 st1) as (Hs' & Hkeep & Hc); [|done|done|].
  { intros j Hj. rewrite Hp1, length_insert. apply Hin. by right. }
  split; [done|]. split.
  - intros j Hj. rewrite Hkeep, Hp1 by set_solver. apply list_lookup_insert_ne. set_solver.
  - apply (consumed_cons _ _ _ _ tx r st st1); [done| |done..].
    rewrite Hkeep, Hp1 by done. by apply list_lookup_insert_eq.
Qed.

End Step.

(** ** Blocks and chains of blocks *)

Section Chain.
Context `{Host} `{RegistryCodec} `{Iteration} `{TextOps} `{Crypto} `{HexText} `{PolicyJson}.
Context (pins : HostPins) (signing_chain_id : option Z) (error_text : nat → ExecutionError → bytes).

Lemma quiet_fold {A} (f : VmStore → A → VmStore) l st :
  (∀ st a, quiet st (f st a)) → quiet st (foldl f st l).
Proof.
  intros Hf. revert st. induction l as [|a l IH]; intros st; simpl; [done|]. etrans; [apply Hf|apply IH].
Qed.

Lemma quiet_due now st : quiet st (apply_due_qa_governance now st).
Proof.
  apply quiet_fold. intros u id. unfold apply_one_due, on_governance, on_registry.
  destruct (execute_due id now _) as [[[key value]|e] g]; [|apply quiet_registry].
  etrans; [apply quiet_registry|]. unfold commit_qa_value. repeat case_match; done || apply quiet_registry.
Qed.

Lemma quiet_redenominate factor st : quiet st (redenominate factor st).1.
Proof.
  unfold redenominate. simpl.
  match goal with |- context [foldl ?f st ?l] =>
    assert (quiet st (foldl f st l)) as Hw by (apply quiet_fold; intros; by apply quiet_get_mut) end.
  case_match; [|done]. etrans; [done|apply quiet_registry].
Qed.

Lemma quiet_open ex height ts st : quiet st (open_block ex height ts st).2.
Proof.
  unfold open_block, canonical_vm.
  assert (∀ vm u, quiet u (prepare_state_for_height ex height (expire_qa_pending vm height u))) as Hp.
  { intros vm u. etrans; [|unfold prepare_state_for_height; case_match; [apply quiet_redenominate|done]].
    unfold expire_qa_pending. case_match; [done|]. apply quiet_fold. intros. apply quiet_qa_remove. }
  destruct (qa_canonical_active _ _); simpl; [|apply Hp]. etrans; [|apply Hp].
  destruct (governance_consensus_active _ _); [apply quiet_due|done].
Qed.

Lemma consumed_later txs rs batch st st1 st' :
  grows st st1 → consumed txs rs batch st1 st' → consumed txs rs batch st st'.
Proof.
  intros Hg [Hg' Hu Ho]. split; [by etrans| |done]. intros i tx Hi Hs. specialize (Hu i tx Hi Hs).
  specialize (Hg (tx_sender tx)). lia.
Qed.

Lemma in_order_nonces ex height ts txs recipient tips st gas rs st' :
  Forall (λ tx, tx_nonce tx ≤ u64_max) txs → sound st →
  execute_in_order pins signing_chain_id error_text ex height ts txs recipient tips st = (Ok (gas, rs), st') →
  consumed txs (Some <$> rs) (seq 0 (length txs)) st st'.
Proof.
  intros Hmax Hs. unfold execute_in_order, mbind at 1, st_bind at 1. destruct (_ || _); [simpl|done].
  unfold mbind at 1, st_bind at 1, pure_st. destruct (quiet_open ex height ts st) as [Hw Hn].
  destruct (open_block ex height ts st) as [vm u]. simpl in *.
  set (b := block_run ex vm height ts txs recipient tips).
  assert (br_txs b = txs) as Eb by (subst b; unfold block_run; by destruct (fee_rule_at ex height)).
  unfold mbind, st_bind. destruct (run_sequential _ _ _ b _ _ u) as [[[g rs0]|e] u'] eqn:Er; [|done].
  unfold st_some. destruct (mapM id rs0) as [rs'|] eqn:Em; [|done]. intros [= <- <- <-].
  apply sequential_nonces in Er as (_ & _ & Hc).
  - apply (consumed_later _ _ _ _ u); [intros id; rewrite Hn; lia|]. rewrite Eb in Hc. simpl in Hc.
    assert (rs0 = Some <$> rs') as ->.
    { apply mapM_Some in Em. clear -Em. induction Em as [|x y l k Hx _ IH]; [done|]. unfold id in Hx. subst. simpl.
      by f_equal. }
    destruct Hc as [Hg Hu Ho]. split; [done|..]; setoid_rewrite <- schedule_perm; done.
  - rewrite schedule_perm. apply NoDup_seq.
  - intros i. rewrite schedule_perm, elem_of_seq. simpl. rewrite length_replicate. lia.
  - by rewrite Eb.
  - by eapply writes_sound.
Qed.

(** The state the next block starts from: what the node does in between moves no nonce
    down. *)
Inductive chain : VmStore → list (list Transaction * list ExecutionReceipt) → VmStore → Prop :=
| chain_start st : chain st [] st
| chain_block ex height ts txs recipient tips st gas rs st1 st2 log st3 :
    security_v4_active ex height = true → GAS_PER_TRANSFER * Z.of_nat (length txs) ≤ u64_max →
    Forall (λ tx, tx_nonce tx ≤ u64_max) txs →
    execute_block_with_tips pins signing_chain_id error_text ex height ts txs recipient tips st
      = (Ok (gas, rs), st1) →
    sound st2 → grows st1 st2 → chain st2 log st3 → chain st ((txs, rs) :: log) st3.

(** [tx] succeeded at [i] of block [k] of the log. *)
Definition succeeded_in (log : list (list Transaction * list ExecutionReceipt)) (k i : nat) (tx : Transaction) : Prop :=
  ∃ txs rs, log !! k = Some (txs, rs) ∧ succeeded_at txs (Some <$> rs) i tx.

Lemma block_consumed ex height ts txs recipient tips st gas rs st1 :
  security_v4_active ex height = true → GAS_PER_TRANSFER * Z.of_nat (length txs) ≤ u64_max →
  Forall (λ tx, tx_nonce tx ≤ u64_max) txs → sound st →
  execute_block_with_tips pins signing_chain_id error_text ex height ts txs recipient tips st = (Ok (gas, rs), st1) →
  consumed txs (Some <$> rs) (seq 0 (length txs)) st st1.
Proof.
  intros Hv Hcap Hmax Hs He.
  destruct (same_in_order pins signing_chain_id error_text ex height ts txs recipient tips Hv Hcap st st)
    as [Hr (Ha & _)]; [done|].
  rewrite He in Hr, Ha. simpl in *. destruct (execute_in_order _ _ _ _ _ _ _ _ _ st) as [r u] eqn:Ei. simpl in *.
  subst r. apply in_order_nonces in Ei as [Hg Hu Ho]; [|done..].
  assert (∀ id, nonce_at u id = nonce_at st1 id) as Hn by (intros id; symmetry; by apply alike_nonce).
  split; [intros id; rewrite <- Hn; apply Hg|intros i tx; rewrite <- Hn; apply Hu|done].
Qed.

Lemma succeeded_in_range txs rs i tx : succeeded_at txs rs i tx → i ∈ seq 0 (length txs).
Proof. intros [Hi _]. apply elem_of_seq. apply lookup_lt_Some in Hi. lia. Qed.

Lemma chain_used st log st' :
  sound st → chain st log st' → ∀ k i tx, succeeded_in log k i tx → nonce_at st (tx_sender tx) ≤ tx_nonce tx.
Proof.
  intros Hs Hc. revert Hs. induction Hc as [st|ex height ts txs recipient tips st gas rs st1 st2 log st3 Hv Hcap Hmax He Hs2 Hg Hc IH];
    intros Hs k i tx (txs' & rs' & Hk & Hsuc); [done|].
  pose proof (block_consumed _ _ _ _ _ _ _ _ _ _ Hv Hcap Hmax Hs He) as [Hgb Hub _].
  destruct k as [|k]; simplify_eq/=.
  - apply (Hub i tx); [by eapply succeeded_in_range|done].
  - specialize (IH Hs2 k i tx ltac:(by exists txs', rs')). specialize (Hgb (tx_sender tx)). specialize (Hg (tx_sender tx)). lia.
Qed.

(** C7: no replay: along a chain of blocks of any length, executed under the V4 rule, two
    transactions with the same sender and nonce never both succeed, whether they are in
    one block (in one batch or not) or in different ones. *)
Theorem no_replay_in_chain st log st' :
  sound st → chain st log st' → ∀ k l i j tx tx',
  succeeded_in log k i tx → succeeded_in log l j tx' →
  tx_sender tx = tx_sender tx' → tx_nonce tx = tx_nonce tx' → k = l ∧ i = j.
Proof.
  intros Hs Hc. revert Hs. induction Hc as [st|ex height ts txs recipient tips st gas rs st1 st2 log st3 Hv Hcap Hmax He Hs2 Hg Hc IH];
    intros Hs k l i j tx tx' Hk Hl Hsame Hnon; [by destruct Hk as (? & ? & ? & _)|].
  pose proof (block_consumed _ _ _ _ _ _ _ _ _ _ Hv Hcap Hmax Hs He) as [_ Hub Hon].
  assert (∀ m i j t t', succeeded_at txs (Some <$> rs) i t → succeeded_in log m j t' →
    tx_sender t = tx_sender t' → tx_nonce t < tx_nonce t') as Hlt.
  { intros m i0 j0 t t' Ht Ht' Hst. apply (chain_used st2 log st3 Hs2 Hc) in Ht'.
    specialize (Hub i0 t (succeeded_in_range _ _ _ _ Ht) Ht). specialize (Hg (tx_sender t)). rewrite Hst in *. lia. }
  destruct k as [|k], l as [|l]; destruct Hk as (ta & ra & Ek & Hka), Hl as (tb & rb & El & Hlb); simplify_eq/=.
  - split; [done|]. eapply Hon; [by eapply succeeded_in_range..|done|done|done|done].
  - exfalso. specialize (Hlt l i j tx tx' Hka ltac:(by exists tb, rb) Hsame). lia.
  - exfalso. specialize (Hlt k j i tx' tx Hlb ltac:(by exists ta, ra) (eq_sym Hsame)). lia.
  - destruct (IH Hs2 k l i j tx tx') as [-> ->]; try done; [by exists ta, ra|by exists tb, rb].
Qed.

End Chain.
