(* ===== verification/ExecutorBehaviours.v ===== *)
(** * Behaviours of the block executor

    Concrete blocks, and behaviours of [Executor.v] that the code does not intend: a
    receipt's error text is cut at a byte offset, which panics inside a character, and
    the text of a rejected deploy has the purpose its sender chose in it. *)

From S2P Require Import Prelude Types Names Governance Blobs SampleMarket SlashAppeals Signatures OpenValidators Words Bytecode Qa Merkle Store Tokenomics StoreLaws StoreUndo Scheduler Interp InterpLaws Vm VmWrites VmMoney VmAgree Executor ExecutorRuns ExecutorParallel ExecutorMoney ExecutorNonces.
Import MoneyLaws VmMoneyLaws.

(** ** Error texts that no receipt can hold *)

(** [QA rejected: {rule_id} — {message}] for a purpose that is not a category. *)
Definition purpose_rejection_text `{TextOps} (cat : string) : bytes :=
  str_bytes "QA rejected: PURPOSE_DECLARATION_INVALID " ++ [226; 128; 148] ++
  str_bytes " Invalid purpose category '" ++ utf8 (str_trim cat) ++
  str_bytes "'; valid: dApp, token, NFT, meme, community, entertainment, tooling, other".

Section Faults.
Context `{Host} `{RegistryCodec} `{Iteration} `{TextOps} `{Crypto} `{HexText} `{PolicyJson}.
Context (pins : HostPins) (signing_chain_id : option Z) (error_text : nat → ExecutionError → bytes).

Lemma sanitize_panics s :
  sanitize_error s = None ↔
  (MAX_RECEIPT_ERROR_STRING_BYTES < length s)%nat ∧ ∃ b, s !! MAX_RECEIPT_ERROR_STRING_BYTES = Some b ∧ 128 ≤ b < 192.
Proof.
  unfold sanitize_error, str_truncate, is_char_boundary.
  destruct (Nat.ltb_spec MAX_RECEIPT_ERROR_STRING_BYTES (length s)) as [Hlt|Hge]; [|split; [done|lia]].
  rewrite (proj2 (Nat.leb_le _ _)) by lia.
  destruct (lookup_lt_is_Some_2 s _ Hlt) as [c Hc]. rewrite Hc.
  destruct (Z.ltb_spec c 128), (Z.leb_spec 192 c); simpl; (split; [try done|]); try naive_solver lia.
Qed.

Lemma run_one_panics b p idx tx e (st : VmStore) :
  (execute_with_context pins (br_vm b) signing_chain_id tx (br_ctx b) (checkpoint st).2).1 = Err (Vm e) →
  sanitize_error (error_text idx (ExecVm e)) = None →
  (run_one pins signing_chain_id error_text b p idx tx st).1 = Err ExecCrash.
Proof.
  intros He Hs. unfold run_one. destruct (checkpoint st) as [cp u]. simpl in He.
  destruct (execute_with_context _ _ _ _ _ u) as [r v]. simpl in He. subst r.
  unfold apply_failed_tx_consuming_nonce, settle_failed, pure_st. unfold mbind at 1, st_bind at 1. cbn [fst snd].
  destruct (failed_charge b tx (get (revert cp v) (tx_sender tx))) as [charge gas].
  unfold record_receipt, mbind, st_bind, st_modify, from_tx_outcome. by rewrite Hs.
Qed.

Lemma schedule_single tx : schedule [tx] = [[0%nat]].
Proof. reflexivity. Qed.

(** A block of one transaction whose error has no receipt ends in the panic. *)
Lemma single_block_panics ex height ts tx recipient e vm (st u : VmStore) :
  is_transfer (tx_payload tx) = false → open_block ex height ts st = (vm, u) →
  let b := block_run ex vm height ts [tx] recipient [] in
  (execute_with_context pins (br_vm b) signing_chain_id tx (br_ctx b) (checkpoint u).2).1 = Err (Vm e) →
  sanitize_error (error_text 0 (ExecVm e)) = None →
  (execute_block pins signing_chain_id error_text ex height ts [tx] recipient st).1 = Err ExecCrash.
Proof.
  intros Ht Ho b He Hs.
  assert (br_txs b = [tx]) as Eb by (subst b; unfold block_run; by destruct (fee_rule_at ex height)).
  pose proof (run_one_panics b (0, [None]) 0 tx e u He Hs) as Hr.
  assert ((run_batches pins signing_chain_id error_text b (0, [None]) [[0%nat]] u).1 = Err ExecCrash) as Hb.
  { destruct (run_one pins signing_chain_id error_text b (0, [None]) 0 tx u) as [r v] eqn:Er. simpl in Hr. subst r.
    cbn [run_batches]. unfold mbind, st_bind, run_batch, parallel_batch. rewrite Eb. simpl forallb. rewrite Ht.
    cbn [andb]. by rewrite (sequential_fault _ _ _ b _ 0 tx _ _ _ _ ltac:(by rewrite Eb) Er). }
  unfold execute_block, execute_block_with_tips. rewrite schedule_single.
  change (replicate (length [tx]) None) with [@None ExecutionReceipt].
  assert (bool_decide (@nil Z = []) || (length (@nil Z) =? length [tx])%nat = true) as -> by done.
  unfold mbind, st_bind, st_require, pure_st. cbv [mret st_ret]. rewrite Ho. cbv beta iota. fold b.
  destruct (run_batches _ _ _ b _ _ u) as [r v]. simpl in Hb. by subst r.
Qed.

(** The rejection of a deploy whose purpose is not a category. *)
Lemma purpose_rejected vm tx ctx bytecode cat hash salt a (st : VmStore) :
  tx_payload tx = ContractDeployWithPurpose bytecode cat hash salt →
  get st (tx_sender tx) = Some a → nonce a = tx_nonce tx →
  check_contract_deploy_full_with_metadata bytecode (Some cat) hash None None (qa_at vm (ctx_at vm ctx))
    = Reject PURPOSE_DECLARATION_INVALID →
  (execute_with_context pins vm signing_chain_id tx ctx st).1 = Err (Vm QaRejected).
Proof.
  intros Hp Ha Hn Hq. unfold execute_with_context, look, mbind, st_bind. cbv zeta. rewrite Ha. simpl.
  rewrite Hn, Z.eqb_refl. simpl. unfold execute_payload, execute_contract_deploy. rewrite Hp. simpl. by rewrite Hq.
Qed.

(** Where byte 2048 of the text falls in the purpose. *)
Lemma purpose_text_byte cat c :
  utf8 (str_trim cat) !! 1977%nat = Some c → 128 ≤ c < 192 → sanitize_error (purpose_rejection_text cat) = None.
Proof.
  intros Hc Hr. apply sanitize_panics. unfold purpose_rejection_text.
  set (pre := str_bytes "QA rejected: PURPOSE_DECLARATION_INVALID " ++ [226; 128; 148] ++
    str_bytes " Invalid purpose category '").
  assert (length pre = 71%nat) as Hpre by reflexivity.
  pose proof (lookup_lt_Some _ _ _ Hc) as Hlen. unfold MAX_RECEIPT_ERROR_STRING_BYTES.
  rewrite !(assoc_L (++)). fold pre. rewrite <- (assoc_L (++) pre). split.
  - rewrite !length_app, Hpre. lia.
  - exists c. split; [|done]. rewrite lookup_app_r by lia. rewrite Hpre, lookup_app_l by (simpl; lia). exact Hc.
Qed.

(** C35: one transaction can panic every node that executes its block. A receipt's error text is
    cut at byte 2048, which panics when that byte is inside a character; the text of a
    deploy rejected for its purpose has the purpose in it, which the sender chooses and
    whose length the deploy check does not bound. So a block with a deploy whose purpose has a continuation
    byte at offset 1977 panics instead of recording a failed transaction, on every
    executor and in every state where the sender's nonce fits. *)
Theorem long_purpose_panics ex height ts tx recipient bytecode cat hash salt c a vm (st u : VmStore) :
  tx_payload tx = ContractDeployWithPurpose bytecode cat hash salt →
  open_block ex height ts st = (vm, u) → get u (tx_sender tx) = Some a → nonce a = tx_nonce tx →
  check_contract_deploy_full_with_metadata bytecode (Some cat) hash None None
    (qa_at vm (ctx_at vm (br_ctx (block_run ex vm height ts [tx] recipient [])))) = Reject PURPOSE_DECLARATION_INVALID →
  error_text 0 (ExecVm QaRejected) = purpose_rejection_text cat →
  utf8 (str_trim cat) !! 1977%nat = Some c → 128 ≤ c < 192 →
  (execute_block pins signing_chain_id error_text ex height ts [tx] recipient st).1 = Err ExecCrash.
Proof.
  intros Hp Ho Ha Hn Hq Ht Hc Hr. eapply single_block_panics; [by rewrite Hp|exact Ho| |rewrite Ht; by eapply purpose_text_byte].
  assert (br_vm (block_run ex vm height ts [tx] recipient []) = vm) as ->.
  { unfold block_run. by destruct (fee_rule_at ex height). }
  eapply purpose_rejected; [done| |done|exact Hq]. by rewrite (alike_get _ _ _ (checkpoint_alike u)).
Qed.

End Faults.

(** ** Concrete blocks *)

Module SampleBlocks.
Import SampleVm.

#[local] Existing Instances sample_host codec hex.
#[local] Existing Instances SampleQa.plain_text SampleSigs.open_crypto SampleStore.in_order.

Definition no_json : PolicyJson := {|
  rule_registry_from_json _ := None;
  qa_pool_config_from_json _ := None;
|}.
#[local] Existing Instance no_json.

(** Hash maps iterated the other way round. *)
Definition backwards : Iteration := {|
  iter A l := rev l;
  iter_perm A l := Permutation_sym (Permutation_rev l);
|}.

Definition carol : AccountId := replicate 32 3.
Definition dave : AccountId := replicate 32 4.
Definition proposer : AccountId := replicate 32 9.

Definition accounts_of (l : list (AccountId * AccountState)) : VmStore :=
  mkStore (mkContents (list_to_map l) ∅ ∅ ∅ (λ _, default_regs))
    (mkCache (with_max_depth LEGACY_MAX_DEPTH) ∅ false false false ∅ ∅ ∅)
    (mkLog [] 0 0 (λ _, None)) None None.

Definition two_senders : VmStore :=
  accounts_of [(alice, mkAccountState (10 ^ 18) 0 0 0 0); (carol, mkAccountState (10 ^ 18) 0 0 0 0)].

Definition pays (from to : AccountId) (amount : Z) : Transaction :=
  mkTransaction 0 from (Transfer to amount) (mkAccessList [from; to] [from; to]).

(** Two transfers with no account in common, which run in parallel. *)
Definition block : list Transaction := [pays alice bob 70; pays carol dave 5].

Definition no_text (_ : nat) (_ : ExecutionError) : bytes := [].

Lemma two_senders_sound : sound two_senders.
Proof. apply snaps_none. Qed.

Lemma block_deterministic_witness :
  let r i := execute_block_with_tips (H1 := i) pins None no_text new_executor 5 10 block proposer [3; 0] two_senders in
  (r SampleStore.in_order).1 = (r backwards).1 ∧ alike (r SampleStore.in_order).2 (r backwards).2.
Proof.
  intros r.
  destruct (block_deterministic pins None no_text SampleStore.in_order backwards new_executor 5 10 block proposer
    [3; 0] two_senders two_senders) as [Hr (Ha & _)].
  - split_and!; [done|apply two_senders_sound..].
  - split; [exact Hr|exact Ha].
Defined.

Lemma block_serializable_witness :
  alike (execute_block_with_tips pins None no_text new_executor 5 10 block proposer [3; 0] two_senders).2
    (execute_in_order pins None no_text new_executor 5 10 block proposer [3; 0] two_senders).2.
Proof.
  apply (block_serializable pins None no_text new_executor 5 10 block proposer [3; 0] two_senders eq_refl).
  - done.
  - apply two_senders_sound.
Defined.

Lemma block_well_formed : block_ok pins no_text new_executor 5 10 block [3; 0].
Proof.
  assert (∀ from to amount, word_ok from = true → 0 ≤ amount → tx_ok (pays from to amount)) as Htx.
  { intros from to amount Hf Ha. split; [by apply word_ok_spec|done]. }
  constructor; try done.
  - split; [by intros p [= <-]|done].
  - split; [by repeat constructor|by repeat constructor].
  - by repeat constructor.
  - by right.
  - do 2 (apply Forall_cons; split; [by apply Htx|]). constructor.
Qed.

Lemma two_senders_ledger : ledger_at (2 * 10 ^ 18) two_senders.
Proof.
  constructor; [| | | | | | |by vm_compute].
  - apply (bool_decide_unpack (map_Forall (λ _, funds) (accounts (contents two_senders)))). by vm_compute.
  - apply map_Forall_empty.
  - apply map_Forall_empty.
  - apply map_Forall_empty.
  - apply map_Forall_empty.
  - apply map_Forall_empty.
  - apply map_Forall_empty.
Qed.

Lemma rewards_unsigned bs c : qa_pool_config_from_json bs = Some c → 0 ≤ reward_per_counted_vote c.
Proof. done. Qed.

Lemma block_conserves_funds_witness :
  ∃ gas rs st', execute_block_with_tips pins None no_text new_executor 5 10 block proposer [3; 0] two_senders
                  = (Ok (gas, rs), st') ∧ length rs = 2%nat ∧ well_formed st'.
Proof.
  destruct (block_conserves_funds pins None no_text rewards_unsigned new_executor 5 10 block
    proposer [3; 0] two_senders block_well_formed eq_refl) as (gas & rs & st' & Hr & Hl & _ & Hw & _).
  - discriminate.
  - done.
  - apply two_senders_sound.
  - unfold well_formed. rewrite (lg_total _ _ two_senders_ledger). apply two_senders_ledger.
  - rewrite (lg_total _ _ two_senders_ledger). done.
  - exists gas, rs, st'. split; [exact Hr|]. split; [exact Hl|exact Hw].
Defined.

(** Alice's transfer, sent again in the next block, fails there. *)
Definition replayed : list Transaction := [pays alice bob 70].

Definition first_run := execute_block_with_tips pins None no_text new_executor 5 10 replayed proposer [] two_senders.
Definition second_run := execute_block_with_tips pins None no_text new_executor 6 12 replayed proposer [] first_run.2.

Lemma runs_sound : sound first_run.2 ∧ sound second_run.2.
Proof.
  assert (∀ h t st, sound st →
    sound (execute_block_with_tips pins None no_text new_executor h t replayed proposer [] st).2) as Hk.
  { intros h t st Hs.
    apply (same_in_order pins None no_text new_executor h t replayed proposer [] eq_refl ltac:(done) st st). done. }
  split; repeat apply Hk; apply two_senders_sound.
Qed.

Lemma runs_chain :
  ∃ rs1 rs2, chain pins None no_text two_senders [(replayed, rs1); (replayed, rs2)] second_run.2 ∧
    rc_success <$> rs1 = [true].
Proof.
  destruct runs_sound as [Hs1 Hs2].
  assert (match first_run.1 with Ok (_, rs) => rc_success <$> rs = [true] | Err _ => False end) as H1
    by (vm_compute; reflexivity).
  assert (match second_run.1 with Ok (_, rs) => True | Err _ => False end) as H2 by (vm_compute; exact I).
  destruct first_run as [[[g1 rs1]|] u1] eqn:E1; [|destruct H1].
  destruct second_run as [[[g2 rs2]|] u2] eqn:E2; [|destruct H2].
  assert (Forall (λ tx, tx_nonce tx ≤ u64_max) replayed) as Hn by (by repeat constructor).
  exists rs1, rs2. split; [|exact H1].
  unfold second_run in E2. rewrite E1 in E2.
  apply (chain_block _ _ _ new_executor 5 10 replayed proposer [] two_senders g1 rs1 u1 u1);
    [reflexivity|done|exact Hn|exact E1|exact Hs1|reflexivity|].
  apply (chain_block _ _ _ new_executor 6 12 replayed proposer [] u1 g2 rs2 u2 u2);
    [reflexivity|done|exact Hn|exact E2|exact Hs2|reflexivity|apply chain_start].
Qed.

Lemma no_replay_in_chain_witness :
  ∃ rs1 rs2, chain pins None no_text two_senders [(replayed, rs1); (replayed, rs2)] second_run.2 ∧
    ∀ j, ¬ succeeded_in [(replayed, rs1); (replayed, rs2)] 1 j (pays alice bob 70).
Proof.
  destruct runs_chain as (rs1 & rs2 & Hc & Hr). exists rs1, rs2. split; [exact Hc|]. intros j Hj.
  assert (succeeded_in [(replayed, rs1); (replayed, rs2)] 0 0 (pays alice bob 70)) as H0.
  { exists replayed, rs1. split; [reflexivity|]. split; [reflexivity|].
    destruct rs1 as [|r rs1]; [discriminate Hr|]. exists r. split; [reflexivity|]. by injection Hr. }
  destruct (no_replay_in_chain pins None no_text two_senders _ _ two_senders_sound Hc 0 1 0 j
    (pays alice bob 70) (pays alice bob 70) H0 Hj eq_refl eq_refl) as [E _]. discriminate E.
Defined.

(** Every rule from genesis, the V4 rule from height 100. *)
Definition before_v4 : BlockExecutor :=
  mkExecutor new_vm treasury_default (Some (mkHistory 1 [] 0 0 0 0 0 100 0 0 0 0 0 0 None)).

Definition to_proposer : list Transaction := [pays carol dave 5; pays alice proposer 70].

(** Why batches that touch a fee account are left out: before the rule, the tip of the
    first transaction is overwritten when the view of the second, taken before it was
    paid, is merged. *)
Theorem fee_account_batch_loses_tip :
  let r := execute_block_with_tips pins None no_text before_v4 5 10 to_proposer proposer [3; 0] two_senders in
  match r with (Ok _, st') => total st' = total two_senders - 3 | (Err _, _) => False end ∧
  let r' := execute_block_with_tips pins None no_text before_v4 100 10 to_proposer proposer [3; 0] two_senders in
  match r' with (Ok _, st') => total st' = total two_senders | (Err _, _) => False end.
Proof. vm_compute. split; reflexivity. Qed.

(** A deploy with a purpose of a thousand two-byte characters. *)
Definition accents : string := String.concat EmptyString (repeat (String (Ascii.ascii_of_nat 195) (String (Ascii.ascii_of_nat 169) EmptyString)) 1000).

Definition loud_deploy : Transaction :=
  mkTransaction 0 alice (ContractDeployWithPurpose [0] accents None None) (mkAccessList [] []).

Definition text_of_qa (_ : nat) (e : ExecutionError) : bytes :=
  match e with ExecVm QaRejected => purpose_rejection_text accents | _ => [] end.

Lemma long_purpose_panics_witness :
  (execute_block pins None text_of_qa new_executor 5 10 [loud_deploy] proposer two_senders).1 = Err ExecCrash.
Proof.
  destruct (open_block new_executor 5 10 two_senders) as [vm u] eqn:Eo.
  assert (get u alice = Some (mkAccountState (10 ^ 18) 0 0 0 0)) as Ha.
  { change u with ((vm, u).2). rewrite <- Eo. vm_compute. reflexivity. }
  apply (long_purpose_panics pins None text_of_qa new_executor 5 10 loud_deploy proposer [0] accents None None 169
    (mkAccountState (10 ^ 18) 0 0 0 0) vm two_senders u eq_refl Eo Ha eq_refl).
  - change vm with ((vm, u).1). rewrite <- Eo. vm_compute. reflexivity.
  - reflexivity.
  - vm_compute. reflexivity.
  - lia.
Defined.

End SampleBlocks.
