(* ===== verification/Mempool.v ===== *)
(** * The mempool

    Models [crates/boing-node/src/mempool.rs]: admission with its caps, replacement
    and eviction, the k-way merge that drains transactions into a block, and their
    return after a failed one. A [BTreeMap] and a [HashMap] are finite maps, the latter
    iterated in an unspecified order; a [BinaryHeap] is the list of its elements, of
    which the greatest is popped. The mutex is held for the whole of each operation. *)

From S2P Require Import Prelude Types Qa Store Signatures.

Definition DEFAULT_MAX_PENDING_PER_SENDER : nat := 16.
Definition DEFAULT_MAX_FREE_PENDING_PER_SENDER : nat := 4.
Definition DEFAULT_MAX_TOTAL_PENDING : nat := 10000.

Inductive DeployQaMode := Enforce | Skip | AdmitUnsure.

(** The errors of the pool's own operations. *)
Inductive MempoolError :=
| Duplicate
| MpInvalidSignature
| LegacySignature
| MpInvalidBatch (e : BatchValidationError)
| PendingLimitExceeded (sender : AccountId) (limit : nat)
| FreePendingLimitExceeded (sender : AccountId) (limit : nat)
| MempoolFull (limit : nat)
| UnderpricedReplacement (have got : Z)
| InsufficientFee (have need : Z)
| StaleNonce (expected got : Z)
| UnknownSender
| FreeTxBalanceGate (have need : Z)
| MpQaRejected (rule : RuleId)
| QaPendingPool (h : Hash)
| QaPoolEnqueue (e : PoolError)
| QaPoolDisabled
| QaPoolFull
| QaPoolDeployerCap
| OpenValidatorRejected
| NameRejected
| MediaBlobRejected
| GovernanceRejected
| MpNativeValueNotActive (from : Z)
| GossipPrecheckThrottled.

Record MempoolInner := mkInner {
  by_sender : gmap AccountId (gmap Z SignedTransaction);
  by_id : gset Hash;
  mp_len : nat;
}.

Definition new_inner : MempoolInner := mkInner ∅ ∅ 0.

(** The fields of [Mempool] other than its contents. *)
Record MempoolConfig := mkMempoolConfig {
  max_pending_per_sender : nat;
  max_free_pending_per_sender : nat;
  max_total : nat;
  mp_qa_registry : RuleRegistry;
  mp_native_value_opcodes : bool;
  mp_blake3_opcodes : bool;
  optional_fees_active : bool;
}.

Definition set_qa_registry (r : RuleRegistry) (c : MempoolConfig) : MempoolConfig :=
  mkMempoolConfig (max_pending_per_sender c) (max_free_pending_per_sender c) (max_total c) r
    (mp_native_value_opcodes c) (mp_blake3_opcodes c) (optional_fees_active c).

(** [set_native_value_opcodes] and [set_blake3_opcodes]. *)
Definition set_opcodes (native blake : bool) (c : MempoolConfig) : MempoolConfig :=
  mkMempoolConfig (max_pending_per_sender c) (max_free_pending_per_sender c) (max_total c) (mp_qa_registry c)
    native blake (optional_fees_active c).

(** [set_optional_fees_active]. *)
Definition set_optional_fees (active : bool) (c : MempoolConfig) : MempoolConfig :=
  mkMempoolConfig (max_pending_per_sender c) (max_free_pending_per_sender c) (max_total c) (mp_qa_registry c)
    (mp_native_value_opcodes c) (mp_blake3_opcodes c) active.

Definition new_mempool (max : nat) : MempoolConfig :=
  mkMempoolConfig DEFAULT_MAX_PENDING_PER_SENDER DEFAULT_MAX_FREE_PENDING_PER_SENDER max new_rules
    false false false.

(** ** Ordered maps, iterators and heaps *)

Definition nonce_le {A} (a b : Z * A) : Prop := a.1 ≤ b.1.

#[global] Instance nonce_le_dec {A} : RelDecision (@nonce_le A).
Proof. intros a b. unfold nonce_le. apply _. Defined.

(** [iter()] of a [BTreeMap], its [next()], and [keys().next_back()]. *)
Definition bt_iter {A} (m : gmap Z A) : list (Z * A) := merge_sort nonce_le (map_to_list m).

Definition bt_first {A} (m : gmap Z A) : option (Z * A) := head (bt_iter m).

Definition bt_last {A} (m : gmap Z A) : option Z := fst <$> last (bt_iter m).

(** [max_by]: the last of the greatest; [le] is [cmp(..) != Greater]. *)
Definition max_by {A} (le : A → A → bool) (l : list A) : option A :=
  fold_left (λ acc x, match acc with Some b => if le b x then Some x else Some b | None => Some x end) l None.

(** [min_by]: the first of the least. *)
Definition min_by {A} (le : A → A → bool) (l : list A) : option A :=
  fold_left (λ acc x, match acc with Some b => if le b x then Some b else Some x | None => Some x end) l None.

(** [(tip, Reverse(nonce), Reverse(sender))] and its order. *)
Definition Key : Type := Z * Z * AccountId.

Definition key_le (a b : Key) : bool :=
  (a.1.1 <? b.1.1) ||
  ((a.1.1 =? b.1.1) && ((b.1.2 <? a.1.2) || ((b.1.2 =? a.1.2) && bytes_leb b.2 a.2))).

(** Removes one occurrence. *)
Fixpoint remove_key (k : Key) (heap : list Key) : list Key :=
  match heap with
  | [] => []
  | x :: heap => if bool_decide (x = k) then heap else x :: remove_key k heap
  end.

Definition heap_pop (heap : list Key) : option (Key * list Key) :=
  k ← max_by key_le heap;
  Some (k, remove_key k heap).

(** ** Operations *)

Section Ops.
Context `{Host} `{Crypto} `{TextOps} `{Iteration}.
Context (cfg : MempoolConfig).

Notation M := (ST MempoolInner MempoolError).

Definition signed_id (s : SignedTransaction) : Hash := tx_id (st_tx s).

(** [Mempool::verify_signature_with]. *)
Definition verify_signature_with (s : SignedTransaction) (policy : TxSigPolicy) : result () MempoolError :=
  match verify_with s policy with
  | Ok _ => Ok ()
  | Err LegacySignatureRejected => Err LegacySignature
  | Err _ => Err MpInvalidSignature
  end.

Definition lift {A} (r : result A MempoolError) : M A := λ p, (r, p).

(** The registry of the deploy check. *)
Definition admission_registry : RuleRegistry :=
  let reg := mp_qa_registry cfg in
  let reg := if mp_native_value_opcodes cfg then with_native_value_opcodes reg true else reg in
  if mp_blake3_opcodes cfg then with_blake3_opcodes reg true else reg.

Definition check_deploy (s : SignedTransaction) (mode : DeployQaMode) : result () MempoolError :=
  match mode, as_contract_deploy (tx_payload (st_tx s)) with
  | Skip, _ | _, None => Ok ()
  | _, Some (bytecode, purpose, desc_hash, asset_name, asset_symbol) =>
      match check_contract_deploy_full_with_metadata bytecode purpose desc_hash asset_name asset_symbol
              admission_registry with
      | Reject r => Err (MpQaRejected r)
      | Unsure => match mode with AdmitUnsure => Ok () | _ => Err (QaPendingPool (signed_id s)) end
      | Allow => Ok ()
      end
  end.

(** What a sender has pending. *)
Definition queue (p : MempoolInner) (sender : AccountId) : gmap Z SignedTransaction :=
  default ∅ (by_sender p !! sender).

Definition put_queue (p : MempoolInner) (sender : AccountId) (q : gmap Z SignedTransaction)
    : gmap AccountId (gmap Z SignedTransaction) :=
  if bool_decide (q = ∅) then delete sender (by_sender p) else <[sender := q]> (by_sender p).

Definition victim_le (a b : AccountId * gmap Z SignedTransaction) : bool :=
  (size a.2 <? size b.2)%nat || ((size a.2 =? size b.2)%nat && bytes_leb a.1 b.1).

Definition tip_le (a b : Z * SignedTransaction) : bool :=
  (st_priority_tip a.2 <? st_priority_tip b.2)
  || ((st_priority_tip a.2 =? st_priority_tip b.2) && (b.1 <=? a.1)).

Definition take_out (p : MempoolInner) (sender : AccountId) (q : gmap Z SignedTransaction) (nonce : Z)
    (s : SignedTransaction) : MempoolInner :=
  mkInner (put_queue p sender (delete nonce q)) (by_id p ∖ {[signed_id s]}) (mp_len p - 1).

(** The last case is the [expect] on a queue that is not empty. *)
Definition evict_for (newcomer : AccountId) (newcomer_count : nat) : M () := λ p,
  let victims := filter (λ e, e.1 ≠ newcomer ∧ e.2 ≠ ∅) (iter (map_to_list (by_sender p))) in
  match max_by victim_le victims with
  | Some (id, q) =>
      if (newcomer_count + 1 <? size q)%nat then
        match min_by tip_le (bt_iter q) with
        | Some (nonce, evicted) => (Ok (), take_out p id q nonce evicted)
        | None => (Ok (), p)
        end
      else (Err (MempoolFull (max_total cfg)), p)
  | None => (Err (MempoolFull (max_total cfg)), p)
  end.

(** The caps on a transaction that replaces none. *)
Definition admit_new (s : SignedTransaction) (restoring : bool) : M () :=
  let sender := tx_sender (st_tx s) in
  q ← (p ← st_get; mret (queue p sender));
  _ ← st_require (size q <? max_pending_per_sender cfg)%nat
        (PendingLimitExceeded sender (max_pending_per_sender cfg));
  _ ← st_require (negb ((st_priority_tip s =? 0) && optional_fees_active cfg
                        && (max_free_pending_per_sender cfg <=?
                            length (filter (λ x, st_priority_tip x = 0%Z) (map_to_list q).*2))%nat))
        (FreePendingLimitExceeded sender (max_free_pending_per_sender cfg));
  p ← st_get;
  if negb restoring && (max_total cfg <=? mp_len p)%nat then evict_for sender (size q) else mret ().

(** The insertion itself. *)
Definition store_signed (s : SignedTransaction) (p : MempoolInner) : MempoolInner :=
  let sender := tx_sender (st_tx s) in
  let q := queue p sender in
  let m := <[sender := <[tx_nonce (st_tx s) := s]> q]> (by_sender p) in
  match q !! tx_nonce (st_tx s) with
  | Some old => mkInner m ({[signed_id s]} ∪ by_id p ∖ {[signed_id old]}) (mp_len p)
  | None => mkInner m ({[signed_id s]} ∪ by_id p) (S (mp_len p))
  end.

Definition insert_checked (s : SignedTransaction) (mode : DeployQaMode) (restoring : bool)
    (policy : TxSigPolicy) : M () :=
  _ ← lift (verify_signature_with s policy);
  _ ← lift (match validate_batch (tx_payload (st_tx s)) with Ok _ => Ok () | Err e => Err (MpInvalidBatch e) end);
  _ ← lift (check_deploy s mode);
  p ← st_get;
  _ ← st_require (negb (bool_decide (signed_id s ∈ by_id p))) Duplicate;
  _ ← match queue p (tx_sender (st_tx s)) !! tx_nonce (st_tx s) with
      | Some existing =>
          st_require (st_priority_tip existing <? st_priority_tip s)
            (UnderpricedReplacement (st_priority_tip existing) (st_priority_tip s))
      | None => admit_new s restoring
      end;
  st_modify (store_signed s).

Definition insert_with_policy (s : SignedTransaction) (policy : TxSigPolicy) : M () :=
  insert_checked s Enforce false policy.

Definition insert_after_pool_allow_with_policy (s : SignedTransaction) (policy : TxSigPolicy) : M () :=
  insert_checked s Skip false policy.

Definition insert_unsure_for_inclusion_with_policy (s : SignedTransaction) (policy : TxSigPolicy) : M () :=
  insert_checked s AdmitUnsure false policy.

(** The entry of a sender's queue in the heap. *)
Definition head_key (sender : AccountId) (q : gmap Z SignedTransaction) : list Key :=
  match bt_first q with Some (n, s) => [(st_priority_tip s, n, sender)] | None => [] end.

Definition ready (p : MempoolInner) : list Key :=
  iter (map_to_list (by_sender p)) ≫= λ e, head_key e.1 e.2.

(** The loop, [left] transactions from its bound; [None] is running out of fuel. *)
Fixpoint drain_loop (fuel left : nat) (heap : list Key) (p : MempoolInner)
    : option (list SignedTransaction * MempoolInner) :=
  match left, fuel with
  | O, _ => Some ([], p)
  | _, O => None
  | S left', S fuel =>
      match heap_pop heap with
      | None => Some ([], p)
      | Some ((_, nonce, sender), heap) =>
          match by_sender p !! sender with
          | None => drain_loop fuel left heap p
          | Some q =>
              match q !! nonce with
              | None => drain_loop fuel left heap p
              | Some s =>
                  '(out, p') ← drain_loop fuel left' (head_key sender (delete nonce q) ++ heap)
                                 (take_out p sender q nonce s);
                  Some (s :: out, p')
              end
          end
      end
  end.

Definition drain_for_block (max : nat) (p : MempoolInner) : option (list SignedTransaction * MempoolInner) :=
  drain_loop (max + length (ready p)) max (ready p) p.

Definition reinsert (policy : TxSigPolicy) (l : list SignedTransaction) (p : MempoolInner) : MempoolInner :=
  foldl (λ p s, (insert_checked s Skip true policy p).2) p l.

Definition contains_tx_id (h : Hash) (p : MempoolInner) : bool := bool_decide (h ∈ by_id p).

Definition suggested_next_nonce (sender : AccountId) (chain_nonce : Z) (p : MempoolInner) : Z :=
  match bt_last (queue p sender) with
  | Some n => Z.max (sat_add u64_max n 1) chain_nonce
  | None => chain_nonce
  end.

End Ops.
