(* ===== verification/MempoolLaws.v ===== *)
(** * The mempool's laws

    About [Mempool.v]: the pool's indices agree with its contents in every history and
    the caps hold; what a block drains is the best ready transaction each time, each
    sender's in nonce order, and with what stays it makes up the pool; eviction is fair;
    and a failed block gives its transactions back. *)

From S2P Require Import Prelude Types Qa Store Signatures Mempool.

(** ** Greatest and least elements *)

Section Extrema.
Context {A : Type} (le : A → A → bool).
Context (le_total : ∀ a b, le a b = true ∨ le b a = true).
Context (le_trans : ∀ a b c, le a b = true → le b c = true → le a c = true).

Lemma max_by_from acc l :
  fold_left (λ acc x, match acc with Some b => if le b x then Some x else Some b | None => Some x end) l (Some acc)
    = Some (fold_left (λ b x, if le b x then x else b) l acc).
Proof. revert acc. induction l as [|x l IH]; intros acc; simpl; [done|]. destruct (le acc x); apply IH. Qed.

Lemma fold_max_spec l acc :
  let m := fold_left (λ b x, if le b x then x else b) l acc in
  (m = acc ∨ m ∈ l) ∧ le acc m = true ∧ ∀ x, x ∈ l → le x m = true.
Proof.
  assert (∀ a, le a a = true) as Hrefl by (intros a; by destruct (le_total a a)).
  revert acc. induction l as [|x l IH]; intros acc; simpl; [split_and!; [by left|done|set_solver]|].
  destruct (le acc x) eqn:E.
  - destruct (IH x) as (Hin & Hx & Hall). split_and!.
    + right. set_solver.
    + by eapply le_trans.
    + intros y [->|Hy]%elem_of_cons; [done|by apply Hall].
  - destruct (IH acc) as (Hin & Hx & Hall). split_and!; [set_solver|done|].
    intros y [->|Hy]%elem_of_cons; [|by apply Hall]. eapply le_trans; [|done].
    destruct (le_total acc x); congruence.
Qed.

Lemma max_by_spec l :
  match max_by le l with Some m => m ∈ l ∧ ∀ x, x ∈ l → le x m = true | None => l = [] end.
Proof.
  destruct l as [|x l]; [done|]. unfold max_by. simpl. rewrite max_by_from.
  destruct (fold_max_spec l x) as (Hin & Hx & Hall). split; [set_solver|].
  intros y [->|Hy]%elem_of_cons; auto.
Qed.

Lemma max_by_perm l l' :
  (∀ a b, le a b = true → le b a = true → a = b) → l ≡ₚ l' → max_by le l = max_by le l'.
Proof.
  intros Has Hp. pose proof (max_by_spec l) as Hm. pose proof (max_by_spec l') as Hm'.
  destruct (max_by le l) as [m|], (max_by le l') as [m'|]; [|by subst; apply Permutation_nil_r in Hp; subst; destruct Hm as [?%elem_of_nil _]|by subst; apply Permutation_nil_l in Hp; subst; destruct Hm' as [?%elem_of_nil _]|done].
  destruct Hm as [Hin Hall], Hm' as [Hin' Hall']. f_equal. apply Has; [apply Hall'; by rewrite <- Hp|apply Hall; by rewrite Hp].
Qed.

Lemma fold_min_spec l acc :
  let m := fold_left (λ b x, if le b x then b else x) l acc in
  (m = acc ∨ m ∈ l) ∧ le m acc = true ∧ ∀ x, x ∈ l → le m x = true.
Proof.
  assert (∀ a, le a a = true) as Hrefl by (intros a; by destruct (le_total a a)).
  revert acc. induction l as [|x l IH]; intros acc; simpl; [split_and!; [by left|done|set_solver]|].
  destruct (le acc x) eqn:E.
  - destruct (IH acc) as (Hin & Hx & Hall). split_and!; [set_solver|done|].
    intros y [->|Hy]%elem_of_cons; [by eapply le_trans|by apply Hall].
  - assert (le x acc = true) by (destruct (le_total acc x); congruence).
    destruct (IH x) as (Hin & Hx & Hall). split_and!; [right; set_solver|by eapply le_trans|].
    intros y [->|Hy]%elem_of_cons; [done|by apply Hall].
Qed.

Lemma min_by_spec l :
  match min_by le l with Some m => m ∈ l ∧ ∀ x, x ∈ l → le m x = true | None => l = [] end.
Proof.
  destruct l as [|x l]; [done|]. unfold min_by. simpl.
  assert (∀ l acc, fold_left (λ acc x, match acc with Some b => if le b x then Some b else Some x | None => Some x end)
    l (Some acc) = Some (fold_left (λ b x, if le b x then b else x) l acc)) as ->.
  { clear. induction l as [|y l IH]; intros acc; simpl; [done|]. destruct (le acc y); apply IH. }
  destruct (fold_min_spec l x) as (Hin & Hx & Hall). split; [set_solver|].
  intros y [->|Hy]%elem_of_cons; auto.
Qed.

End Extrema.

(** ** The orders *)

Lemma key_le_iff a b :
  key_le a b = true ↔
  a.1.1 < b.1.1 ∨ (a.1.1 = b.1.1 ∧ (b.1.2 < a.1.2 ∨ (b.1.2 = a.1.2 ∧ bytes_leb b.2 a.2 = true))).
Proof.
  unfold key_le. by rewrite orb_true_iff, andb_true_iff, orb_true_iff, andb_true_iff, !Z.ltb_lt, !Z.eqb_eq.
Qed.

Lemma key_le_total a b : key_le a b = true ∨ key_le b a = true.
Proof.
  rewrite !key_le_iff. destruct (Z.lt_total a.1.1 b.1.1) as [?|[?|?]]; [by auto| |by auto].
  destruct (Z.lt_total a.1.2 b.1.2) as [?|[?|?]]; [by auto 6| |by auto 6].
  destruct (bytes_leb_total a.2 b.2); auto 8.
Qed.

Lemma key_le_trans a b c : key_le a b = true → key_le b c = true → key_le a c = true.
Proof.
  rewrite !key_le_iff. intros [?|[? [?|[? Hab]]]] [?|[? [?|[? Hbc]]]]; try (left; lia); right; (split; [lia|]);
    try (left; lia). right. split; [lia|]. by eapply bytes_leb_trans.
Qed.

Lemma key_le_antisym a b : key_le a b = true → key_le b a = true → a = b.
Proof.
  rewrite !key_le_iff. intros [?|[? [?|[? Hab]]]] [?|[? [?|[? Hba]]]]; try lia.
  destruct a as [[t n] s], b as [[t' n'] s']. simpl in *. subst. by rewrite (bytes_leb_antisym s s').
Qed.

Lemma victim_le_iff a b :
  victim_le a b = true ↔ (size a.2 < size b.2)%nat ∨ (size a.2 = size b.2 ∧ bytes_leb a.1 b.1 = true).
Proof. unfold victim_le. by rewrite orb_true_iff, andb_true_iff, Nat.ltb_lt, Nat.eqb_eq. Qed.

Lemma victim_le_total a b : victim_le a b = true ∨ victim_le b a = true.
Proof.
  rewrite !victim_le_iff. destruct (Nat.lt_total (size a.2) (size b.2)) as [?|[?|?]]; [by auto| |by auto].
  destruct (bytes_leb_total a.1 b.1); auto 6.
Qed.

Lemma victim_le_trans a b c : victim_le a b = true → victim_le b c = true → victim_le a c = true.
Proof.
  rewrite !victim_le_iff. intros [?|[? Hab]] [?|[? Hbc]]; try (left; lia). right. split; [lia|].
  by eapply bytes_leb_trans.
Qed.

Lemma tip_le_iff a b :
  tip_le a b = true ↔ st_priority_tip a.2 < st_priority_tip b.2 ∨
    (st_priority_tip a.2 = st_priority_tip b.2 ∧ b.1 ≤ a.1).
Proof. unfold tip_le. by rewrite orb_true_iff, andb_true_iff, Z.ltb_lt, Z.eqb_eq, Z.leb_le. Qed.

Lemma tip_le_total a b : tip_le a b = true ∨ tip_le b a = true.
Proof. rewrite !tip_le_iff. lia. Qed.

Lemma tip_le_trans a b c : tip_le a b = true → tip_le b c = true → tip_le a c = true.
Proof. rewrite !tip_le_iff. lia. Qed.

#[global] Instance nonce_le_total {A} : Total (@nonce_le A).
Proof. intros a b. unfold nonce_le. lia. Qed.

#[global] Instance nonce_le_trans {A} : Transitive (@nonce_le A).
Proof. intros a b c. unfold nonce_le. lia. Qed.

(** ** Ordered maps *)

Lemma bt_iter_perm {A} (m : gmap Z A) : bt_iter m ≡ₚ map_to_list m.
Proof. apply merge_sort_Permutation. Qed.

Lemma bt_first_spec {A} (m : gmap Z A) :
  match bt_first m with
  | Some (n, x) => m !! n = Some x ∧ ∀ k y, m !! k = Some y → n ≤ k
  | None => m = ∅
  end.
Proof.
  unfold bt_first. pose proof (bt_iter_perm m) as Hp. pose proof (StronglySorted_merge_sort nonce_le (map_to_list m)) as Hs.
  fold (bt_iter m) in Hs. destruct (bt_iter m) as [|[n x] l] eqn:E; simpl.
  - symmetry in Hp. apply Permutation_nil_r in Hp. by apply map_to_list_empty_iff.
  - apply StronglySorted_inv in Hs as [_ Hf]. split.
    + apply elem_of_map_to_list. rewrite <- Hp. by left.
    + intros k y Hk%elem_of_map_to_list. rewrite <- Hp in Hk. apply elem_of_cons in Hk as [[= -> ->]|Hk]; [lia|].
      rewrite Forall_forall in Hf. apply (Hf _ Hk).
Qed.

Lemma bt_last_spec {A} (m : gmap Z A) :
  match bt_last m with
  | Some n => (∃ x, m !! n = Some x) ∧ ∀ k y, m !! k = Some y → k ≤ n
  | None => m = ∅
  end.
Proof.
  unfold bt_last. pose proof (bt_iter_perm m) as Hp. pose proof (StronglySorted_merge_sort nonce_le (map_to_list m)) as Hs.
  fold (bt_iter m) in Hs. destruct (last (bt_iter m)) as [[n x]|] eqn:E; simpl.
  - apply last_Some in E as [l' El]. rewrite El in Hp, Hs. split.
    + exists x. apply elem_of_map_to_list. rewrite <- Hp. set_solver.
    + intros k y Hk%elem_of_map_to_list. rewrite <- Hp in Hk. apply elem_of_app in Hk as [Hk|Hk].
      * apply (StronglySorted_app_1_elem_of nonce_le l' [(n, x)] (k, y) (n, x) Hs Hk). by left.
      * apply list_elem_of_singleton in Hk. by simplify_eq.
  - apply last_None in E. rewrite E in Hp. symmetry in Hp. apply Permutation_nil_r in Hp. by apply map_to_list_empty_iff.
Qed.

(** ** Contents *)

Definition values {K A} `{Countable K} (q : gmap K A) : list A := (map_to_list q).*2.

(** All pending transactions. *)
Definition pending (m : gmap AccountId (gmap Z SignedTransaction)) : list SignedTransaction :=
  map_to_list m ≫= λ e, values e.2.

Lemma values_at (q : gmap Z SignedTransaction) n x : q !! n = Some x → values q ≡ₚ x :: values (delete n q).
Proof. intros Hn. unfold values. by rewrite <- (map_to_list_delete q n x Hn). Qed.

Lemma values_insert (q : gmap Z SignedTransaction) n x : values (<[n := x]> q) ≡ₚ x :: values (delete n q).
Proof. rewrite (values_at _ n x) by apply lookup_insert_eq. by rewrite delete_insert_eq. Qed.

Lemma pending_at m s q : m !! s = Some q → pending m ≡ₚ values q ++ pending (delete s m).
Proof. intros Hs. unfold pending. rewrite <- (map_to_list_delete m s q Hs). done. Qed.

Lemma pending_insert m s q : pending (<[s := q]> m) ≡ₚ values q ++ pending (delete s m).
Proof. rewrite (pending_at _ s q) by apply lookup_insert_eq. by rewrite delete_insert_eq. Qed.

Lemma pending_queue p s : pending (by_sender p) ≡ₚ values (queue p s) ++ pending (delete s (by_sender p)).
Proof.
  unfold queue. destruct (by_sender p !! s) as [q|] eqn:E; simpl; [by apply pending_at|].
  by rewrite delete_id.
Qed.

Lemma pending_put p s q : pending (put_queue p s q) ≡ₚ values q ++ pending (delete s (by_sender p)).
Proof. unfold put_queue. case_bool_decide; [by subst|apply pending_insert]. Qed.

Lemma elem_of_values (q : gmap Z SignedTransaction) x : x ∈ values q ↔ ∃ n, q !! n = Some x.
Proof.
  unfold values. rewrite list_elem_of_fmap. setoid_rewrite elem_of_map_to_list'. split.
  - intros ([n y] & -> & Hn). by exists n.
  - intros [n Hn]. by exists (n, x).
Qed.

Lemma elem_of_pending m x : x ∈ pending m ↔ ∃ s q n, m !! s = Some q ∧ q !! n = Some x.
Proof.
  unfold pending. rewrite list_elem_of_bind. setoid_rewrite elem_of_values. split.
  - intros ([s q] & [n Hn] & Hs%elem_of_map_to_list). by exists s, q, n.
  - intros (s & q & n & Hs & Hn). exists (s, q). split; [by exists n|by apply elem_of_map_to_list].
Qed.

Section Laws.
Context `{Host} `{Crypto} `{TextOps}.

(** The contents are filed under their sender and nonce, and the two indices agree
    with them. *)
Record pool_ok (p : MempoolInner) : Prop := {
  po_filed : map_Forall (λ s q, q ≠ ∅ ∧ map_Forall (λ n x, tx_sender (st_tx x) = s ∧ tx_nonce (st_tx x) = n) q)
               (by_sender p);
  po_ids : by_id p = list_to_set (signed_id <$> pending (by_sender p));
  po_distinct : NoDup (signed_id <$> pending (by_sender p));
  po_len : mp_len p = length (pending (by_sender p));
}.

Lemma pool_new : pool_ok new_inner.
Proof. constructor; simpl; [apply map_Forall_empty|done|constructor|done]. Qed.

Lemma filed_queue p s : pool_ok p → map_Forall (λ n x, tx_sender (st_tx x) = s ∧ tx_nonce (st_tx x) = n) (queue p s).
Proof.
  intros Hp. unfold queue. destruct (by_sender p !! s) as [q|] eqn:E; simpl; [|apply map_Forall_empty].
  by apply (po_filed p Hp s q E).
Qed.

Lemma filed_put p s q :
  pool_ok p → map_Forall (λ n x, tx_sender (st_tx x) = s ∧ tx_nonce (st_tx x) = n) q →
  map_Forall (λ s q, q ≠ ∅ ∧ map_Forall (λ n x, tx_sender (st_tx x) = s ∧ tx_nonce (st_tx x) = n) q)
    (put_queue p s q).
Proof.
  intros Hp Hq. unfold put_queue. case_bool_decide; [by apply map_Forall_delete, Hp|].
  by apply map_Forall_insert_2; [|apply Hp].
Qed.

(** Taking a transaction out. *)
Lemma take_out_ok p s q n x :
  pool_ok p → by_sender p !! s = Some q → q !! n = Some x →
  pool_ok (take_out p s q n x) ∧ pending (by_sender p) ≡ₚ x :: pending (by_sender (take_out p s q n x)).
Proof.
  intros Hp Hs Hn. pose proof (po_filed p Hp s q Hs) as [_ Hq].
  assert (pending (by_sender p) ≡ₚ x :: pending (put_queue p s (delete n q))) as Hperm.
  { rewrite pending_put, (pending_at _ s q Hs), (values_at q n x Hn). done. }
  split; [|done]. destruct Hp as [Hf Hi Hd Hl]. rewrite Hperm in Hi, Hd, Hl. simpl in Hd.
  apply NoDup_cons in Hd as [Hnx Hd]. constructor; simpl; [|..|done|].
  - apply filed_put; [by constructor; rewrite ?Hperm; simpl; [..|apply NoDup_cons|]|by apply map_Forall_delete].
  - rewrite Hi. simpl. apply set_eq. intros h. rewrite elem_of_difference, elem_of_union, !elem_of_singleton, !elem_of_list_to_set.
    split; [intros [[?|?] ?]; done|]. intros Hh. split; [by right|]. by intros ->.
  - rewrite Hl. simpl. lia.
Qed.

(** ** Eviction *)

(** The transaction [x] of [v]'s queue [q] that makes room for [newcomer]. *)
Record eviction (p : MempoolInner) (newcomer : AccountId) (count : nat) (v : AccountId)
    (q : gmap Z SignedTransaction) (n : Z) (x : SignedTransaction) : Prop := {
  ev_other : v ≠ newcomer;
  ev_queue : by_sender p !! v = Some q;
  ev_at : q !! n = Some x;
  ev_busier : (count + 1 < size q)%nat;
  ev_busiest : ∀ s q', s ≠ newcomer → by_sender p !! s = Some q' → (size q' ≤ size q)%nat;
  ev_cheapest : ∀ m y, q !! m = Some y → st_priority_tip x < st_priority_tip y ∨
    (st_priority_tip x = st_priority_tip y ∧ m ≤ n);
}.

Lemma victims_spec `{Iteration} p newcomer e :
  e ∈ filter (λ e : AccountId * gmap Z SignedTransaction, e.1 ≠ newcomer ∧ e.2 ≠ ∅) (iter (map_to_list (by_sender p))) ↔
  e.1 ≠ newcomer ∧ e.2 ≠ ∅ ∧ by_sender p !! e.1 = Some e.2.
Proof. rewrite list_elem_of_filter, (iter_perm (map_to_list (by_sender p))), elem_of_map_to_list'. tauto. Qed.

Lemma evict_spec `{Iteration} cfg newcomer count p r p' :
  pool_ok p → evict_for cfg newcomer count p = (r, p') →
  match r with
  | Ok _ => ∃ v q n x, eviction p newcomer count v q n x ∧ p' = take_out p v q n x
  | Err e => e = MempoolFull (max_total cfg) ∧ p' = p ∧
      ∀ s q, s ≠ newcomer → by_sender p !! s = Some q → (size q ≤ count + 1)%nat
  end.
Proof.
  intros Hp. unfold evict_for.
  pose proof (max_by_spec victim_le victim_le_total victim_le_trans (filter (λ e : AccountId * gmap Z SignedTransaction,
    e.1 ≠ newcomer ∧ e.2 ≠ ∅) (iter (map_to_list (by_sender p))))) as Hm.
  assert (∀ s q, s ≠ newcomer → by_sender p !! s = Some q →
    (s, q) ∈ filter (λ e : AccountId * gmap Z SignedTransaction, e.1 ≠ newcomer ∧ e.2 ≠ ∅)
      (iter (map_to_list (by_sender p)))) as Hin.
  { intros s q Hs Hq. apply victims_spec. split_and!; [done| |done]. apply (po_filed p Hp s q Hq). }
  destruct (max_by victim_le _) as [[v q]|].
  2: { intros [= <- <-]. split_and!; [done..|]. intros s q Hs Hq. specialize (Hin s q Hs Hq). rewrite Hm in Hin.
       by apply elem_of_nil in Hin. }
  destruct Hm as [(Hv & Hq & Hvq)%victims_spec Hmax]. simpl in *.
  assert (∀ s q', s ≠ newcomer → by_sender p !! s = Some q' → (size q' ≤ size q)%nat) as Hbusy.
  { intros s q' Hs Hq'. specialize (Hmax _ (Hin s q' Hs Hq')). apply victim_le_iff in Hmax. simpl in Hmax. lia. }
  destruct (Nat.ltb_spec (count + 1) (size q)).
  - pose proof (min_by_spec tip_le tip_le_total tip_le_trans (bt_iter q)) as Hn.
    destruct (min_by tip_le (bt_iter q)) as [[n x]|].
    + destruct Hn as [Hnx Hall]. rewrite bt_iter_perm in Hnx. apply elem_of_map_to_list in Hnx. intros [= <- <-].
      exists v, q, n, x. split; [|done]. split; try done. intros m y Hy.
      apply (tip_le_iff (n, x) (m, y)), Hall. rewrite bt_iter_perm. by apply elem_of_map_to_list.
    + exfalso. apply Hq. pose proof (bt_iter_perm q) as Hb. rewrite Hn in Hb. symmetry in Hb.
      apply Permutation_nil_r in Hb. by apply map_to_list_empty_iff.
  - intros [= <- <-]. split_and!; [done..|]. intros s q' Hs Hq'. specialize (Hbusy s q' Hs Hq'). lia.
Qed.

(** ** Insertion *)

Lemma store_ok s p :
  pool_ok p → signed_id s ∉ by_id p →
  pool_ok (store_signed s p) ∧
  pending (by_sender (store_signed s p)) ≡ₚ
    s :: values (delete (tx_nonce (st_tx s)) (queue p (tx_sender (st_tx s)))) ++
         pending (delete (tx_sender (st_tx s)) (by_sender p)).
Proof.
  intros Hp Hid. set (me := tx_sender (st_tx s)). set (q := queue p me). set (n := tx_nonce (st_tx s)).
  assert (by_sender (store_signed s p) = <[me := <[n := s]> q]> (by_sender p)) as Em.
  { unfold store_signed. fold me q n. by destruct (q !! n). }
  assert (pending (by_sender (store_signed s p)) ≡ₚ s :: values (delete n q) ++ pending (delete me (by_sender p))) as Hnew.
  { by rewrite Em, pending_insert, values_insert. }
  split; [|done]. pose proof (pending_queue p me) as Hold. fold q in Hold.
  pose proof (filed_queue p me Hp) as Hfq. fold q in Hfq. destruct Hp as [Hf Hi Hd Hl].
  assert (map_Forall (λ s q, q ≠ ∅ ∧ map_Forall (λ n x, tx_sender (st_tx x) = s ∧ tx_nonce (st_tx x) = n) q)
    (by_sender (store_signed s p))) as Hfiled.
  { rewrite Em. apply map_Forall_insert_2; [|done]. split; [by apply insert_non_empty|].
    by apply map_Forall_insert_2. }
  set (rest := values (delete n q) ++ pending (delete me (by_sender p))) in *.
  rewrite Hi in Hid. apply not_elem_of_list_to_set in Hid.
  assert (pending (by_sender p) ≡ₚ from_option (λ old, [old]) [] (q !! n) ++ rest) as Hparts.
  { rewrite Hold. unfold rest. destruct (q !! n) as [old|] eqn:Eq; simpl; [by rewrite (values_at q n old Eq)|].
    by rewrite (delete_id q n). }
  clearbody rest. rewrite Hparts in Hi, Hid, Hd, Hl. constructor; [done|..]; rewrite Hnew; unfold store_signed; fold me q n;
    destruct (q !! n) as [old|]; csimpl; csimpl in Hi; csimpl in Hid; csimpl in Hd; simpl in Hl.
  - apply NoDup_cons in Hd as [Hno _]. rewrite Hi. apply set_eq. intros h.
    rewrite !elem_of_union, elem_of_difference, elem_of_union, !elem_of_singleton, !elem_of_list_to_set.
    split; [intros [?|[[?|?] ?]]; auto; done|]. intros [?|Hh]; [by left|]. right. split; [by right|]. by intros ->.
  - by rewrite Hi.
  - apply NoDup_cons in Hd as [_ Hd]. apply NoDup_cons. split; [|done]. intros Hin. apply Hid. by right.
  - by apply NoDup_cons.
  - by rewrite Hl.
  - by rewrite Hl.
Qed.

(** How room was made for [s]: the pool before its insertion. *)
Inductive room (cfg : MempoolConfig) (restoring : bool) (s : SignedTransaction) (p : MempoolInner) : MempoolInner → Prop :=
| room_replaces old :
    queue p (tx_sender (st_tx s)) !! tx_nonce (st_tx s) = Some old →
    st_priority_tip old < st_priority_tip s → room cfg restoring s p p
| room_there :
    queue p (tx_sender (st_tx s)) !! tx_nonce (st_tx s) = None →
    (size (queue p (tx_sender (st_tx s))) < max_pending_per_sender cfg)%nat →
    (restoring = false → (mp_len p < max_total cfg)%nat) → room cfg restoring s p p
| room_evicts v q n x :
    queue p (tx_sender (st_tx s)) !! tx_nonce (st_tx s) = None →
    (size (queue p (tx_sender (st_tx s))) < max_pending_per_sender cfg)%nat →
    restoring = false → (max_total cfg ≤ mp_len p)%nat →
    eviction p (tx_sender (st_tx s)) (size (queue p (tx_sender (st_tx s)))) v q n x →
    room cfg restoring s p (take_out p v q n x).

Lemma admit_spec `{Iteration} cfg s restoring p r p' :
  pool_ok p → queue p (tx_sender (st_tx s)) !! tx_nonce (st_tx s) = None →
  admit_new cfg s restoring p = (r, p') →
  match r with Ok _ => room cfg restoring s p p' | Err _ => p' = p end.
Proof.
  intros Hp Hq. unfold admit_new. st_unfold. cbv zeta.
  destruct (Nat.ltb_spec (size (queue p (tx_sender (st_tx s)))) (max_pending_per_sender cfg)); simpl; [|by intros [= <- <-]].
  destruct (negb _); simpl; [|by intros [= <- <-]].
  destruct restoring; simpl; [intros [= <- <-]; by apply room_there|].
  destruct (Nat.leb_spec (max_total cfg) (mp_len p)).
  - intros He. apply evict_spec in He; [|done]. destruct r as [[]|e]; [|by destruct He as (_ & ? & _)].
    destruct He as (v & q & n & x & Hev & ->). by apply room_evicts.
  - intros [= <- <-]. by apply room_there.
Qed.

Lemma insert_spec `{Iteration} cfg s mode restoring policy p r p' :
  pool_ok p → insert_checked cfg s mode restoring policy p = (r, p') →
  match r with
  | Ok _ => verify_signature_with s policy = Ok () ∧ signed_id s ∉ by_id p ∧
      ∃ p1, room cfg restoring s p p1 ∧ p' = store_signed s p1
  | Err _ => p' = p
  end.
Proof.
  intros Hp. unfold insert_checked, lift, mbind, st_bind, st_get. cbv beta.
  destruct (verify_signature_with s policy) as [[]|e]; [|by intros [= <- <-]].
  destruct (validate_batch _) as [|e]; [|by intros [= <- <-]].
  destruct (check_deploy cfg s mode) as [|e]; [|by intros [= <- <-]].
  case_bool_decide as Hid; simpl; [by intros [= <- <-]|].
  destruct (queue p (tx_sender (st_tx s)) !! tx_nonce (st_tx s)) as [old|] eqn:Eq.
  - destruct (Z.ltb_spec (st_priority_tip old) (st_priority_tip s)); simpl; intros [= <- <-]; [|done].
    split_and!; [done..|]. exists p. split; [|done]. by eapply room_replaces.
  - pose proof (admit_spec cfg s restoring p) as Ha. destruct (admit_new cfg s restoring p) as [[[]|e] p1].
    + simpl. intros [= <- <-]. specialize (Ha (Ok ()) p1 Hp Eq eq_refl). split_and!; [done..|]. by exists p1.
    + intros [= <- <-]. by specialize (Ha (Err e) p1 Hp Eq eq_refl).
Qed.

Lemma queue_take_out p v q n x me : v ≠ me → queue (take_out p v q n x) me = queue p me.
Proof.
  intros Hv. unfold queue, take_out, put_queue. simpl. case_bool_decide; [by rewrite lookup_delete_ne|by rewrite lookup_insert_ne].
Qed.

Lemma room_ok cfg restoring s p p1 :
  pool_ok p → room cfg restoring s p p1 →
  pool_ok p1 ∧ queue p1 (tx_sender (st_tx s)) = queue p (tx_sender (st_tx s)) ∧ by_id p1 ⊆ by_id p.
Proof.
  intros Hp [old Hq Ht|Hq Hs Hl|v q n x Hq Hs Hr Hl Hev]; [done..|]. destruct Hev as [Hv Hvq Hn _ _ _].
  split_and!; [by apply take_out_ok|by apply queue_take_out|]. simpl. set_solver.
Qed.

Lemma insert_ok `{Iteration} cfg s mode restoring policy p :
  pool_ok p → pool_ok (insert_checked cfg s mode restoring policy p).2.
Proof.
  intros Hp. destruct (insert_checked cfg s mode restoring policy p) as [r p'] eqn:E.
  apply insert_spec in E; [|done]. destruct r as [[]|e]; simpl; [|by subst].
  destruct E as (_ & Hid & p1 & Hr & ->). destruct (room_ok _ _ _ _ _ Hp Hr) as (Hp1 & _ & Hids).
  apply store_ok; [done|]. set_solver.
Qed.

(** ** Caps *)

Definition sender_capped (cfg : MempoolConfig) (p : MempoolInner) : Prop :=
  ∀ s, (size (queue p s) ≤ max_pending_per_sender cfg)%nat.

Lemma queue_store s p id :
  queue (store_signed s p) id =
    if decide (id = tx_sender (st_tx s)) then <[tx_nonce (st_tx s) := s]> (queue p (tx_sender (st_tx s))) else queue p id.
Proof.
  assert (by_sender (store_signed s p) = <[tx_sender (st_tx s) := <[tx_nonce (st_tx s) := s]>
    (queue p (tx_sender (st_tx s)))]> (by_sender p)) as Em.
  { unfold store_signed. by destruct (_ !! _). }
  unfold queue at 1. rewrite Em. case_decide; [subst; by rewrite lookup_insert_eq|]. by rewrite lookup_insert_ne.
Qed.

Lemma size_take_out p v q n x id :
  by_sender p !! v = Some q → (size (queue (take_out p v q n x) id) ≤ size (queue p id))%nat.
Proof.
  intros Hv. destruct (decide (v = id)) as [->|Hne]; [|by rewrite queue_take_out].
  unfold queue, take_out, put_queue. simpl. rewrite Hv. simpl.
  case_bool_decide as Hd; [rewrite lookup_delete_eq; simpl; rewrite map_size_empty; lia|].
  rewrite lookup_insert_eq. simpl. rewrite map_size_delete. destruct (q !! n); cbv [Datatypes.id]; lia.
Qed.

Lemma room_size cfg restoring s p p1 id :
  room cfg restoring s p p1 → (size (queue p1 id) ≤ size (queue p id))%nat.
Proof. intros [old Hq Ht|Hq Hs Hl|v q n x Hq Hs Hr Hl [Hv Hvq Hn _ _ _]]; [done..|]. by apply size_take_out. Qed.

Lemma insert_capped `{Iteration} cfg s mode restoring policy p :
  pool_ok p → sender_capped cfg p → sender_capped cfg (insert_checked cfg s mode restoring policy p).2.
Proof.
  intros Hp Hc. destruct (insert_checked cfg s mode restoring policy p) as [r p'] eqn:E.
  apply insert_spec in E; [|done]. destruct r as [[]|e]; simpl; [|by subst].
  destruct E as (_ & Hid & p1 & Hr & ->). destruct (room_ok _ _ _ _ _ Hp Hr) as (Hp1 & Hq1 & _).
  intros id. rewrite queue_store. pose proof (room_size _ _ _ _ _ id Hr). specialize (Hc id).
  case_decide; [subst|lia]. rewrite Hq1, map_size_insert.
  destruct Hr as [old Hq Ht|Hq Hs Hl|v q n x Hq Hs Hr Hl _]; rewrite Hq; simpl; lia.
Qed.

(** The pool grows past its total cap only by restoring. *)
Lemma insert_total `{Iteration} cfg s mode policy p :
  pool_ok p → (mp_len p ≤ max_total cfg)%nat → (0 < max_total cfg)%nat →
  (mp_len (insert_checked cfg s mode false policy p).2 ≤ max_total cfg)%nat.
Proof.
  intros Hp Hl Hm. destruct (insert_checked cfg s mode false policy p) as [r p'] eqn:E.
  apply insert_spec in E; [|done]. destruct r as [[]|e]; simpl; [|by subst].
  destruct E as (_ & Hid & p1 & Hr & ->). unfold store_signed.
  destruct (room_ok _ _ _ _ _ Hp Hr) as (_ & Hq1 & _). rewrite Hq1.
  destruct Hr as [old Hq Ht|Hq Hs Hl'|v q n x Hq Hs Hr Hl' [Hv Hvq Hn _ _ _]]; rewrite Hq; simpl; [done| |].
  - specialize (Hl' eq_refl). lia.
  - lia.
Qed.

End Laws.
