(* ===== verification/MempoolDrain.v ===== *)
(** * Draining the mempool

    About [Mempool.v]: the heap of the senders' next transactions computes the reference
    that looks for the best one each time; what is drained and what stays; and the way
    back when a block is not committed. *)

From S2P Require Import Prelude Types Qa Store Signatures Mempool MempoolLaws.

Lemma filter_all {A} (P : A → Prop) `{!∀ x, Decision (P x)} l : Forall P l → filter P l = l.
Proof. induction 1 as [|x l Hx _ IH]; [done|]. rewrite filter_cons_True by done. by rewrite IH. Qed.

Lemma filter_none {A} (P : A → Prop) `{!∀ x, Decision (P x)} l : Forall (λ x, ¬ P x) l → filter P l = [].
Proof. induction 1 as [|x l Hx _ IH]; [done|]. by rewrite filter_cons_False. Qed.

(** ** The reference *)

(** The senders' next transactions. *)
Definition next_keys (m : gmap AccountId (gmap Z SignedTransaction)) : list Key :=
  map_to_list m ≫= λ e, head_key e.1 e.2.

Section Drain.
Context `{Host} `{Crypto} `{TextOps}.

(** The best next transaction, [n] times. *)
Fixpoint drain_best (n : nat) (p : MempoolInner) : list SignedTransaction * MempoolInner :=
  match n with
  | O => ([], p)
  | S n =>
      match max_by key_le (next_keys (by_sender p)) with
      | None => ([], p)
      | Some (_, nonce, sender) =>
          match queue p sender !! nonce with
          | None => ([], p)
          | Some x =>
              let '(out, p') := drain_best n (take_out p sender (queue p sender) nonce x) in (x :: out, p')
          end
      end
  end.

Lemma ready_keys `{Iteration} p : ready p ≡ₚ next_keys (by_sender p).
Proof. unfold ready, next_keys. by rewrite (iter_perm (map_to_list (by_sender p))). Qed.

Lemma keys_at m s q : m !! s = Some q → next_keys m ≡ₚ head_key s q ++ next_keys (delete s m).
Proof. intros Hs. unfold next_keys. by rewrite <- (map_to_list_delete m s q Hs). Qed.

Lemma keys_put p s q : next_keys (put_queue p s q) ≡ₚ head_key s q ++ next_keys (delete s (by_sender p)).
Proof.
  unfold put_queue. case_bool_decide; [by subst|].
  rewrite (keys_at _ s q) by apply lookup_insert_eq. by rewrite delete_insert_eq.
Qed.

Lemma elem_of_next_keys m k :
  k ∈ next_keys m → ∃ q x, m !! k.2 = Some q ∧ bt_first q = Some (k.1.2, x) ∧ k.1.1 = st_priority_tip x.
Proof.
  unfold next_keys. rewrite list_elem_of_bind. intros ([s q] & Hk & Hs%elem_of_map_to_list). unfold head_key in Hk.
  simpl in *. destruct (bt_first q) as [[n x]|] eqn:E; [|by apply elem_of_nil in Hk].
  apply list_elem_of_singleton in Hk as ->. by exists q, x.
Qed.

Lemma remove_key_perm k heap : k ∈ heap → heap ≡ₚ k :: remove_key k heap.
Proof.
  induction heap as [|x heap IH]; [by intros ?%elem_of_nil|]. simpl. case_bool_decide; [by subst|].
  intros [?|Hk]%elem_of_cons; [done|]. rewrite (IH Hk) at 1. apply Permutation_swap.
Qed.

(** The first step of the reference, when there is one. *)
Lemma best_key p k :
  max_by key_le (next_keys (by_sender p)) = Some k →
  ∃ q x, by_sender p !! k.2 = Some q ∧ q !! k.1.2 = Some x ∧ k = (st_priority_tip x, k.1.2, k.2) ∧
    (∀ m y, q !! m = Some y → k.1.2 ≤ m) ∧ head_key k.2 q = [k] ∧ ∀ k', k' ∈ next_keys (by_sender p) → key_le k' k = true.
Proof.
  intros Hk. pose proof (max_by_spec key_le key_le_total key_le_trans (next_keys (by_sender p))) as Hm.
  rewrite Hk in Hm. destruct Hm as [Hin Hall]. destruct (elem_of_next_keys _ _ Hin) as (q & x & Hq & Hf & Ht).
  pose proof (bt_first_spec q) as Hs. rewrite Hf in Hs. destruct Hs as [Hn Hmin].
  exists q, x. assert (k = (st_priority_tip x, k.1.2, k.2)) as Ek by (destruct k as [[t n] s]; simpl in *; congruence).
  split_and!; try done. unfold head_key. rewrite Hf. by rewrite <- Ek.
Qed.

Lemma drain_loop_best fuel left heap p :
  pool_ok p → heap ≡ₚ next_keys (by_sender p) → (left ≤ fuel)%nat →
  drain_loop fuel left heap p = Some (drain_best left p).
Proof.
  revert left heap p. induction fuel as [|fuel IH]; intros [|left] heap p Hp Hh Hle; [done|lia|done|].
  cbn [drain_loop drain_best]. unfold heap_pop.
  rewrite (max_by_perm key_le key_le_total key_le_trans heap _ key_le_antisym Hh).
  destruct (max_by key_le (next_keys (by_sender p))) as [k|] eqn:Ek; [|done]. simpl.
  destruct (best_key p k Ek) as (q & x & Hq & Hx & Hk & _ & Hhead & _).
  pose proof (max_by_spec key_le key_le_total key_le_trans (next_keys (by_sender p))) as Hin. rewrite Ek in Hin.
  destruct Hin as [Hin _]. destruct k as [[t n] s]. simpl in *. rewrite Hq, Hx. unfold queue. rewrite Hq. simpl. rewrite Hx.
  destruct (take_out_ok p s q n x Hp Hq Hx) as [Hp' _].
  rewrite IH; [|done| |lia].
  - by destruct (drain_best left (take_out p s q n x)).
  - simpl. rewrite keys_put. apply Permutation_app_head.
    rewrite <- Hh in Hin. apply remove_key_perm in Hin.
    apply (Permutation_cons_inv (a := (t, n, s))). rewrite <- Hin, Hh, (keys_at _ s q Hq), Hhead. done.
Qed.

(** ** What is drained *)

Notation sender_of x := (tx_sender (st_tx x)).
Notation nonce_of x := (tx_nonce (st_tx x)).

Lemma pending_lookup p s n x :
  pool_ok p → queue p s !! n = Some x ↔ x ∈ pending (by_sender p) ∧ sender_of x = s ∧ nonce_of x = n.
Proof.
  intros Hp. split.
  - intros Hx. destruct (filed_queue p s Hp n x Hx). split_and!; [|done..].
    unfold queue in Hx. destruct (by_sender p !! s) as [q|] eqn:Es; [|done]. apply elem_of_pending. by exists s, q, n.
  - intros (Hx & <- & <-). apply elem_of_pending in Hx as (s & q & n & Hs & Hn).
    destruct (po_filed p Hp s q Hs) as [_ Hq]. destruct (Hq n x Hn) as [-> ->]. unfold queue. by rewrite Hs.
Qed.

(** The transactions of [x]'s sender in [p] come after it. *)
Definition after (x : SignedTransaction) (l : list SignedTransaction) : Prop :=
  ∀ y, y ∈ l → sender_of y = sender_of x → nonce_of x < nonce_of y.

#[local] Instance after_perm x : Proper (Permutation ==> iff) (after x).
Proof. intros l l' Hl. unfold after. by setoid_rewrite Hl. Qed.

Lemma first_taken p s q n x :
  pool_ok p → by_sender p !! s = Some q → q !! n = Some x → (∀ m y, q !! m = Some y → n ≤ m) →
  after x (pending (by_sender (take_out p s q n x))).
Proof.
  intros Hp Hs Hn Hmin y Hy Hsame. destruct (take_out_ok p s q n x Hp Hs Hn) as [Hp' Hperm].
  assert (queue p s = q) as Eq by (unfold queue; by rewrite Hs).
  assert (queue p s !! n = Some x) as Hx by (by rewrite Eq).
  apply pending_lookup in Hx as (_ & Hsx & Hnx); [|done].
  assert (y ∈ pending (by_sender p)) as Hyp by (rewrite Hperm; by right).
  assert (queue p s !! nonce_of y = Some y) as Hyq by (apply pending_lookup; [done|]; by rewrite Hsame).
  rewrite Eq in Hyq. pose proof (Hmin _ _ Hyq). destruct (decide (nonce_of y = n)) as [E|?]; [|lia].
  rewrite E, Hn in Hyq. injection Hyq as <-.
  pose proof (po_distinct p Hp) as Hd. rewrite Hperm in Hd. apply NoDup_cons in Hd as [Hd _]. destruct Hd.
  by apply list_elem_of_fmap_2.
Qed.

(** Each comes before the later ones of its sender. *)
Fixpoint nonce_ordered (l : list SignedTransaction) : Prop :=
  match l with [] => True | x :: l => after x l ∧ nonce_ordered l end.

(** [x] goes before [y]: the higher tip, then the lower nonce, then the lower sender. *)
Definition goes_before (x y : SignedTransaction) : Prop :=
  st_priority_tip y < st_priority_tip x ∨
  (st_priority_tip y = st_priority_tip x ∧
    (nonce_of x < nonce_of y ∨ (nonce_of x = nonce_of y ∧ bytes_leb (sender_of x) (sender_of y) = true))).

(** [y] is its sender's next in [l]. *)
Definition is_next (l : list SignedTransaction) (y : SignedTransaction) : Prop :=
  y ∈ l ∧ ∀ z, z ∈ l → sender_of z = sender_of y → nonce_of y ≤ nonce_of z.

(** Each of [out] goes before the senders' next ones at its turn. *)
Fixpoint best_first (out rest : list SignedTransaction) : Prop :=
  match out with
  | [] => True
  | x :: out => (∀ y, is_next (x :: out ++ rest) y → goes_before x y) ∧ best_first out rest
  end.

Lemma next_has_key p y :
  pool_ok p → is_next (pending (by_sender p)) y →
  (st_priority_tip y, nonce_of y, sender_of y) ∈ next_keys (by_sender p).
Proof.
  intros Hp [Hy Hmin]. assert (queue p (sender_of y) !! nonce_of y = Some y) as Hq by (by apply pending_lookup).
  unfold queue in Hq. destruct (by_sender p !! sender_of y) as [q|] eqn:Es; [|done]. simpl in Hq.
  unfold next_keys. apply list_elem_of_bind. exists (sender_of y, q). split; [|by apply elem_of_map_to_list].
  simpl. unfold head_key. pose proof (bt_first_spec q) as Hf. destruct (bt_first q) as [[n x]|].
  - destruct Hf as [Hn Hle]. assert (queue p (sender_of y) !! n = Some x) as Hx by (unfold queue; by rewrite Es).
    apply pending_lookup in Hx as (Hx & Hsx & Hnx); [|done].
    assert (n = nonce_of y) as -> by (specialize (Hle _ _ Hq); specialize (Hmin x Hx Hsx); lia).
    assert (x = y) as -> by congruence. by left.
  - subst q. by rewrite lookup_empty in Hq.
Qed.

Lemma best_goes_before p k x y :
  pool_ok p → max_by key_le (next_keys (by_sender p)) = Some k → k = (st_priority_tip x, nonce_of x, sender_of x) →
  is_next (pending (by_sender p)) y → goes_before x y.
Proof.
  intros Hp Hk -> Hy. destruct (best_key p _ Hk) as (_ & _ & _ & _ & _ & _ & _ & Hbest).
  apply (next_has_key p y Hp), Hbest, key_le_iff in Hy. simpl in Hy. unfold goes_before. intuition.
Qed.

#[local] Instance is_next_perm : Proper (Permutation ==> eq ==> iff) is_next.
Proof. intros l l' Hl y ? <-. unfold is_next. by setoid_rewrite Hl. Qed.

Record drained (n : nat) (p : MempoolInner) (out : list SignedTransaction) (p' : MempoolInner) : Prop := {
  dr_ok : pool_ok p';
  dr_parts : pending (by_sender p) ≡ₚ out ++ pending (by_sender p');
  dr_length : length out = (n `min` mp_len p)%nat;
  dr_ordered : nonce_ordered out;
  dr_best : best_first out (pending (by_sender p'));
  dr_prefix : Forall (λ x, after x (pending (by_sender p'))) out;
}.

Lemma no_keys p : pool_ok p → next_keys (by_sender p) = [] → pending (by_sender p) = [].
Proof.
  intros Hp Hk. destruct (pending (by_sender p)) as [|x l] eqn:E; [done|].
  assert (x ∈ pending (by_sender p)) as Hx by (rewrite E; by left).
  apply elem_of_pending in Hx as (s & q & n & Hs & Hn). exfalso.
  pose proof (keys_at _ s q Hs) as Hat. rewrite Hk in Hat. symmetry in Hat. apply Permutation_nil_r in Hat.
  apply app_eq_nil in Hat as [Hh _]. unfold head_key in Hh. pose proof (bt_first_spec q) as Hf.
  destruct (bt_first q) as [[]|]; [done|]. subst q. by rewrite lookup_empty in Hn.
Qed.

Lemma drain_best_spec n p out p' : pool_ok p → drain_best n p = (out, p') → drained n p out p'.
Proof.
  revert p out. induction n as [|n IH]; intros p out Hp; cbn [drain_best].
  { intros [= <- <-]. by constructor. }
  pose proof (max_by_spec key_le key_le_total key_le_trans (next_keys (by_sender p))) as Hm.
  destruct (max_by key_le (next_keys (by_sender p))) as [k|] eqn:Ek.
  2: { intros [= <- <-]. constructor; [done..| |done|done|done]. rewrite (po_len p Hp), (no_keys p Hp Hm). done. }
  destruct (best_key p k Ek) as (q & x & Hq & Hx & Hk & Hmin & _). destruct k as [[t m] s]. simpl in *.
  assert (queue p s = q) as Eq by (unfold queue; by rewrite Hq). rewrite Eq, Hx.
  destruct (take_out_ok p s q m x Hp Hq Hx) as [Hp1 Hperm]. pose proof (first_taken p s q m x Hp Hq Hx Hmin) as Hfirst.
  destruct (drain_best n (take_out p s q m x)) as [out1 p1] eqn:E. intros [= <- <-].
  assert (queue p s !! m = Some x) as Hqx by (by rewrite Eq). apply pending_lookup in Hqx as (_ & Hsx & Hnx); [|done].
  destruct (IH _ _ Hp1 E) as [Hok Hparts Hlen Hord Hbf Hpre]. rewrite Hparts in Hfirst.
  constructor; [done|by rewrite Hperm, Hparts| | | |].
  - simpl. rewrite Hlen, (po_len p Hp), Hperm, (po_len _ Hp1). simpl. lia.
  - split; [|done]. intros y Hy. apply Hfirst. apply elem_of_app. by left.
  - split; [|done]. intros y Hy. apply (best_goes_before p (t, m, s)); [done|done|congruence|]. by rewrite Hperm, Hparts.
  - constructor; [|done]. intros y Hy. apply Hfirst. apply elem_of_app. by right.
Qed.

(** ** The way back *)

Lemma queue_size p s :
  pool_ok p → size (queue p s) = length (filter (λ x, sender_of x = s) (pending (by_sender p))).
Proof.
  intros Hp. rewrite (pending_queue p s), filter_app, length_app.
  assert (filter (λ x, sender_of x = s) (values (queue p s)) = values (queue p s)) as ->.
  { apply filter_all, Forall_forall. intros x [n Hx]%elem_of_values. apply (filed_queue p s Hp n x Hx). }
  assert (filter (λ x, sender_of x = s) (pending (delete s (by_sender p))) = []) as ->.
  { apply filter_none, Forall_forall. intros x (s' & q & n & Hs & Hn)%elem_of_pending.
    apply lookup_delete_Some in Hs as [Hne Hs]. destruct (po_filed p Hp s' q Hs) as [_ Hq].
    destruct (Hq n x Hn) as [-> _]. done. }
  unfold values. simpl. rewrite length_fmap, length_map_to_list. lia.
Qed.

Lemma pool_ext p p' :
  pool_ok p → pool_ok p' → pending (by_sender p) ≡ₚ pending (by_sender p') → p = p'.
Proof.
  intros Hp Hp' Hperm.
  assert (∀ s, queue p s = queue p' s) as Hq.
  { intros s. apply map_eq. intros n. apply option_eq. intros x. rewrite !pending_lookup by done. by rewrite Hperm. }
  assert (by_sender p = by_sender p') as Em.
  { apply map_eq. intros s. specialize (Hq s). unfold queue in Hq. pose proof (po_filed p Hp s) as Hf.
    pose proof (po_filed p' Hp' s) as Hf'.
    destruct (by_sender p !! s) as [q|], (by_sender p' !! s) as [q'|]; simpl in Hq; subst; try done;
      [by destruct (Hf _ eq_refl)|by destruct (Hf' _ eq_refl)]. }
  pose proof (po_ids p Hp) as Hi. pose proof (po_ids p' Hp') as Hi'. pose proof (po_len p Hp) as Hl.
  pose proof (po_len p' Hp') as Hl'. rewrite Em in Hi, Hl. destruct p, p'. simpl in *. congruence.
Qed.

Definition restorable (policy : TxSigPolicy) (x : SignedTransaction) : Prop :=
  verify_signature_with x policy = Ok () ∧ validate_batch (tx_payload (st_tx x)) = Ok ().

(** A restored transaction is let in where its place is free. *)
Lemma restore_one `{Iteration} cfg policy x p :
  restorable policy x → optional_fees_active cfg = false →
  signed_id x ∉ by_id p → queue p (sender_of x) !! nonce_of x = None →
  (size (queue p (sender_of x)) < max_pending_per_sender cfg)%nat →
  insert_checked cfg x Skip true policy p = (Ok (), store_signed x p).
Proof.
  intros [Hv Hb] Ho Hid Hq Hs. unfold insert_checked, lift, mbind, st_bind, st_get. rewrite Hv, Hb. simpl.
  rewrite bool_decide_false by done. simpl. rewrite Hq. unfold admit_new. st_unfold. cbv zeta.
  rewrite (proj2 (Nat.ltb_lt _ _)) by done. rewrite Ho, andb_false_r. simpl. done.
Qed.

Lemma reinsert_all `{Iteration} cfg policy l p p0 :
  optional_fees_active cfg = false → Forall (restorable policy) l → sender_capped cfg p0 →
  pool_ok p0 → pool_ok p → pending (by_sender p0) ≡ₚ l ++ pending (by_sender p) →
  reinsert cfg policy l p = p0.
Proof.
  intros Ho Hl Hcap Hp0. revert p. induction Hl as [|x l Hx _ IH]; intros p Hp Hperm; simpl in *.
  { by apply pool_ext. }
  pose proof (po_distinct p0 Hp0) as Hd. rewrite Hperm in Hd. csimpl in Hd. rewrite fmap_app in Hd.
  apply NoDup_cons in Hd as [Hnx _]. rewrite not_elem_of_app in Hnx. destruct Hnx as [_ Hnx].
  assert (signed_id x ∉ by_id p) as Hid.
  { rewrite (po_ids p Hp). by apply not_elem_of_list_to_set. }
  assert (queue p (sender_of x) !! nonce_of x = None) as Hq.
  { destruct (queue p (sender_of x) !! nonce_of x) as [y|] eqn:Ey; [|done]. exfalso.
    apply pending_lookup in Ey as (Hy & Hs & Hn); [|done]. apply Hnx.
    assert (queue p0 (sender_of x) !! nonce_of x = Some y) as H0y.
    { apply pending_lookup; [done|]. split; [|done]. rewrite Hperm. set_solver. }
    assert (queue p0 (sender_of x) !! nonce_of x = Some x) as H0x.
    { apply pending_lookup; [done|]. split; [|done]. rewrite Hperm. by left. }
    simplify_eq. by apply list_elem_of_fmap_2. }
  assert (size (queue p (sender_of x)) < max_pending_per_sender cfg)%nat as Hs.
  { eapply Nat.lt_le_trans; [|apply (Hcap (sender_of x))]. rewrite !queue_size by done.
    rewrite Hperm. rewrite filter_cons_True, filter_app by done. simpl. rewrite length_app. lia. }
  rewrite (restore_one cfg policy x p Hx Ho Hid Hq Hs). simpl.
  destruct (store_ok x p Hp Hid) as [Hp1 Hperm1]. apply IH; [done|].
  rewrite Hperm, Hperm1, (delete_id _ _ Hq), <- pending_queue. by rewrite Permutation_middle.
Qed.

Lemma drained_sizes n p out p' s :
  pool_ok p → drained n p out p' → (size (queue p' s) ≤ size (queue p s))%nat ∧ (mp_len p' ≤ mp_len p)%nat.
Proof.
  intros Hp [Hok Hparts _ _ _ _]. rewrite !queue_size, (po_len p Hp), (po_len p' Hok), Hparts by done.
  rewrite filter_app, !length_app. lia.
Qed.

(** ** A full pool *)

(** No other sender has more than one transaction more than the newcomer. *)
Definition level (p : MempoolInner) (newcomer : AccountId) : Prop :=
  ∀ v q, v ≠ newcomer → by_sender p !! v = Some q → (size q ≤ size (queue p newcomer) + 1)%nat.

Lemma admit_full `{Iteration} cfg s p limit p' :
  pool_ok p → admit_new cfg s false p = (Err (MempoolFull limit), p') → level p (sender_of s).
Proof.
  intros Hp. unfold admit_new. st_unfold. cbv zeta.
  destruct (_ <? _)%nat; simpl; [|done]. destruct (negb _); simpl; [|done].
  destruct (_ <=? _)%nat; [|done]. intros He. apply evict_spec in He as (_ & _ & Hl); done.
Qed.

Lemma insert_full `{Iteration} cfg s mode policy p limit p' :
  pool_ok p → insert_checked cfg s mode false policy p = (Err (MempoolFull limit), p') → level p (sender_of s).
Proof.
  intros Hp. unfold insert_checked, lift, mbind, st_bind, st_get. cbv beta.
  destruct (verify_signature_with s policy) as [[]|e] eqn:Ev.
  2: { unfold verify_signature_with in Ev. destruct (verify_with s policy) as [|[]]; congruence. }
  destruct (validate_batch _) as [|e]; [|done].
  destruct (check_deploy cfg s mode) as [|e] eqn:Ec.
  2: { unfold check_deploy in Ec. repeat case_match; congruence. }
  case_bool_decide; simpl; [done|].
  destruct (queue p (sender_of s) !! nonce_of s); [by destruct (_ <? _)|].
  destruct (admit_new cfg s false p) as [[[]|e] p1] eqn:Ea; [done|]. intros [= -> ->]. by eapply admit_full.
Qed.

Lemma queue_victim p v q n x : by_sender p !! v = Some q → q !! n = Some x → queue (take_out p v q n x) v = delete n q.
Proof.
  intros Hv Hn. unfold queue, take_out, put_queue. simpl.
  case_bool_decide as Hd; [by rewrite lookup_delete_eq, Hd|by rewrite lookup_insert_eq].
Qed.

Lemma evicted_level p s v q n x :
  queue p (sender_of s) !! nonce_of s = None →
  eviction p (sender_of s) (size (queue p (sender_of s))) v q n x →
  (size (queue (store_signed s (take_out p v q n x)) (sender_of s)) ≤
   size (queue (store_signed s (take_out p v q n x)) v))%nat.
Proof.
  intros Hq [Hv Hvq Hn Hb _ _]. rewrite !queue_store, decide_True, decide_False by done.
  rewrite queue_take_out, (queue_victim p v q n x Hvq Hn) by done.
  rewrite map_size_insert_None by done. rewrite map_size_delete_Some by (by exists x). lia.
Qed.

(** ** Histories *)

Inductive PoolOp :=
| OpAdmit (s : SignedTransaction) (mode : DeployQaMode) (policy : TxSigPolicy)
| OpDrain (max : nat)
| OpReinsert (policy : TxSigPolicy) (l : list SignedTransaction).

Definition apply_pool_op `{Iteration} (cfg : MempoolConfig) (p : MempoolInner) (op : PoolOp) : option MempoolInner :=
  match op with
  | OpAdmit s mode policy => Some (insert_checked cfg s mode false policy p).2
  | OpDrain max => snd <$> drain_for_block max p
  | OpReinsert policy l => Some (reinsert cfg policy l p)
  end.

Definition run_pool `{Iteration} (cfg : MempoolConfig) (ops : list PoolOp) (p : MempoolInner) : option MempoolInner :=
  foldl (λ o op, o ≫= λ p, apply_pool_op cfg p op) (Some p) ops.

Definition is_reinsert (op : PoolOp) : bool := match op with OpReinsert _ _ => true | _ => false end.

Lemma capped_new cfg : sender_capped cfg new_inner.
Proof. intros s. unfold queue. simpl. rewrite lookup_empty. simpl. rewrite map_size_empty. lia. Qed.

Lemma reinsert_inv `{Iteration} cfg policy l p :
  pool_ok p → sender_capped cfg p → pool_ok (reinsert cfg policy l p) ∧ sender_capped cfg (reinsert cfg policy l p).
Proof.
  revert p. induction l as [|x l IH]; intros p Hp Hc; simpl; [done|]. apply IH; [by apply insert_ok|by apply insert_capped].
Qed.

Lemma drain_for_block_spec `{Iteration} n p :
  pool_ok p → drain_for_block n p = Some (drain_best n p) ∧ drained n p (drain_best n p).1 (drain_best n p).2.
Proof.
  intros Hp. split; [apply drain_loop_best; [done|apply ready_keys|lia]|].
  apply drain_best_spec; [done|]. by destruct (drain_best n p).
Qed.

Lemma pool_op_inv `{Iteration} cfg op p :
  pool_ok p → sender_capped cfg p →
  ∃ p', apply_pool_op cfg p op = Some p' ∧ pool_ok p' ∧ sender_capped cfg p' ∧
    (is_reinsert op = false → (0 < max_total cfg)%nat → (mp_len p ≤ max_total cfg)%nat → (mp_len p' ≤ max_total cfg)%nat).
Proof.
  intros Hp Hc. destruct op as [s mode policy|n|policy l]; simpl.
  - eexists. split; [done|]. split_and!; [by apply insert_ok|by apply insert_capped|]. intros _ ? ?. by apply insert_total.
  - destruct (drain_for_block_spec n p Hp) as [-> Hd]. eexists. split; [done|]. split_and!; [apply Hd|..].
    + intros s. destruct (drained_sizes n p _ _ s Hp Hd). specialize (Hc s). lia.
    + intros _ _ Hl. destruct (drained_sizes n p _ _ [] Hp Hd). lia.
  - eexists. split; [done|]. destruct (reinsert_inv cfg policy l p Hp Hc). done.
Qed.

End Drain.

(** ** Properties *)

Module PoolLaws.
Section Laws.
Context `{Host} `{Crypto} `{TextOps} `{Iteration}.

(** C18: the mempool is well formed in every history. Any series of admissions (in any
    mode, by any policy), drains and re-insertions runs to its end; transactions are
    filed under their sender and nonce, the id index holds exactly the ids of the
    contents, no two of which share one, the length is the number of transactions, no
    sender is past its cap, and the pool is past the total cap only by re-insertions. *)
Theorem mempool_reachable cfg ops :
  ∃ p, run_pool cfg ops new_inner = Some p ∧ pool_ok p ∧ sender_capped cfg p ∧
    (forallb (λ op, negb (is_reinsert op)) ops = true → (0 < max_total cfg)%nat → (mp_len p ≤ max_total cfg)%nat).
Proof.
  assert (∀ p, pool_ok p → sender_capped cfg p → ∃ p', run_pool cfg ops p = Some p' ∧ pool_ok p' ∧ sender_capped cfg p' ∧
    (forallb (λ op, negb (is_reinsert op)) ops = true → (0 < max_total cfg)%nat → (mp_len p ≤ max_total cfg)%nat →
     (mp_len p' ≤ max_total cfg)%nat)) as Hrun.
  { unfold run_pool. induction ops as [|op ops IH]; intros p Hp Hc; simpl; [by exists p|].
    destruct (pool_op_inv cfg op p Hp Hc) as (p1 & -> & Hp1 & Hc1 & Hl1).
    destruct (IH p1 Hp1 Hc1) as (p' & Hr & Hp' & Hc' & Hl'). exists p'. split_and!; [done..|].
    intros [Hn Hall]%andb_true_iff Hm Hl. apply Hl'; [done..|]. apply Hl1; [by apply negb_true_iff|done..]. }
  destruct (Hrun new_inner) as (p & Hr & Hp & Hc & Hl); [apply pool_new|apply capped_new|].
  exists p. split_and!; [done..|]. intros Hn Hm. apply Hl; [done..|]. simpl. lia.
Qed.

(** C19: draining a block takes the best transactions. The heap of the senders' next
    transactions computes the reference that looks for the best of them each time (the
    highest tip, then the lowest nonce, then the lowest sender), whatever the iteration
    order of the hash map; the loop always ends; what is drained and what stays is the
    pool, no transaction lost or duplicated; as many as asked for and there are; each
    sender's in nonce order and before those of that sender that stay. *)
Theorem drain_best_first n p :
  pool_ok p → drain_for_block n p = Some (drain_best n p) ∧ drained n p (drain_best n p).1 (drain_best n p).2.
Proof. apply drain_for_block_spec. Qed.

(** C21: a block that is not committed gives its transactions back: draining and
    re-inserting is the identity on the pool, provided their signatures still verify and
    the free-transaction cap is off. *)
Theorem restore_roundtrip cfg policy n p out p' :
  pool_ok p → sender_capped cfg p → optional_fees_active cfg = false →
  drain_for_block n p = Some (out, p') → Forall (restorable policy) out → reinsert cfg policy out p' = p.
Proof.
  intros Hp Hc Ho Hd Hl. destruct (drain_for_block_spec n p Hp) as [Hs Hdr]. rewrite Hd in Hs.
  injection Hs as Hs. rewrite <- Hs in Hdr. by apply reinsert_all; [..|apply Hdr|apply Hdr].
Qed.

(** C22: eviction is fair. A transaction that is new to a full pool is let in at the cost
    of one transaction of another sender, the busiest, the one with its lowest tip; that
    sender keeps at least as many as the newcomer then has, and everything else stays.
    It is turned away only when no other sender has more than one transaction more than
    the newcomer. *)
Theorem eviction_fair cfg s mode policy p r p' :
  pool_ok p → (max_total cfg ≤ mp_len p)%nat → queue p (tx_sender (st_tx s)) !! tx_nonce (st_tx s) = None →
  insert_checked cfg s mode false policy p = (r, p') →
  match r with
  | Ok _ => ∃ v q n x rest,
      eviction p (tx_sender (st_tx s)) (size (queue p (tx_sender (st_tx s)))) v q n x ∧
      pending (by_sender p) ≡ₚ x :: rest ∧ pending (by_sender p') ≡ₚ s :: rest ∧
      (size (queue p' (tx_sender (st_tx s))) ≤ size (queue p' v))%nat
  | Err (MempoolFull _) => p' = p ∧ level p (tx_sender (st_tx s))
  | Err _ => p' = p
  end.
Proof.
  intros Hp Hl Hq E. pose proof E as Hs. apply insert_spec in Hs; [|done]. destruct r as [[]|e].
  2: { destruct e; try done. split; [done|]. by eapply insert_full. }
  destruct Hs as (_ & Hid & p1 & Hr & ->). destruct (room_ok _ _ _ _ _ Hp Hr) as (Hp1 & Hq1 & Hids).
  destruct Hr as [old Ho _|_ _ Hlt|v q n x _ _ _ _ Hev]; [congruence|specialize (Hlt eq_refl); lia|].
  destruct (store_ok s (take_out p v q n x) Hp1) as [_ Hst]; [set_solver|].
  destruct (take_out_ok p v q n x Hp (ev_queue _ _ _ _ _ _ _ Hev) (ev_at _ _ _ _ _ _ _ Hev)) as [_ Hperm].
  exists v, q, n, x, (pending (by_sender (take_out p v q n x))). split_and!; [done..| |by apply evicted_level].
  rewrite Hst, delete_id, <- pending_queue by congruence. done.
Qed.

(** A transaction's tip cannot be raised. Submitting a pending transaction again with
    another tip, whatever it is, is refused as a duplicate and changes nothing: the id
    does not cover the tip. *)
Theorem tip_bump_refused cfg x y mode restoring policy p :
  pool_ok p → x ∈ pending (by_sender p) → st_tx y = st_tx x → restorable policy y → check_deploy cfg y mode = Ok () →
  insert_checked cfg y mode restoring policy p = (Err Duplicate, p).
Proof.
  intros Hp Hx Hy [Hv Hb] Hc. unfold insert_checked, lift, mbind, st_bind, st_get. rewrite Hv, Hb, Hc. simpl.
  rewrite bool_decide_true; [done|]. rewrite (po_ids p Hp). apply elem_of_list_to_set.
  replace (signed_id y) with (signed_id x) by (unfold signed_id; by rewrite Hy). by apply list_elem_of_fmap_2.
Qed.

(** The nonce suggested to a sender is free: not below its account's nonce, and above
    every nonce it has pending, unless those have reached the end of [u64]. *)
Theorem suggested_nonce_free sender chain_nonce p :
  (∀ m y, queue p sender !! m = Some y → m < u64_max) →
  chain_nonce ≤ suggested_next_nonce sender chain_nonce p ∧
  (∀ m y, queue p sender !! m = Some y → m < suggested_next_nonce sender chain_nonce p).
Proof.
  intros Hall. unfold suggested_next_nonce. pose proof (bt_last_spec (queue p sender)) as Hb.
  destruct (bt_last (queue p sender)) as [k|].
  - destruct Hb as [[z Hz] Hmax]. split; [lia|]. intros m y Hm. specialize (Hmax m y Hm). specialize (Hall k z Hz).
    unfold sat_add. lia.
  - split; [lia|]. intros m y Hm. by rewrite Hb, lookup_empty in Hm.
Qed.

End Laws.
End PoolLaws.

Module SamplePool.

#[local] Existing Instances sample_host SampleQa.plain_text SampleSigs.open_crypto SampleStore.in_order.

Definition sends (from : Z) (nonce tip : Z) : SignedTransaction :=
  mkSignedTransaction (mkTransaction nonce (replicate 32 from) ClaimUnbond (mkAccessList [] [])) (replicate 64 1) tip.

Definition any : TxSigPolicy := mkTxSigPolicy (Some 6913) false.

Definition small : MempoolConfig := mkMempoolConfig 16 4 3 new_rules false false false.

Definition newcomer : AccountId := replicate 32 2.

Definition arrivals : list SignedTransaction := [sends 1 0 0; sends 1 1 9; sends 1 2 4].

Definition pool : MempoolInner := reinsert small any arrivals new_inner.

Lemma pool_inv : pool_ok pool ∧ sender_capped small pool.
Proof. apply reinsert_inv; [apply pool_new|apply capped_new]. Qed.

Lemma drain_best_first_witness :
  (fst <$> drain_for_block 2 pool) = Some [sends 1 0 0; sends 1 1 9].
Proof.
  destruct (PoolLaws.drain_best_first 2 pool (proj1 pool_inv)) as [-> _]. vm_compute. reflexivity.
Defined.

Lemma restore_roundtrip_witness :
  reinsert small any [sends 1 0 0; sends 1 1 9] (drain_best 2 pool).2 = pool.
Proof.
  apply (PoolLaws.restore_roundtrip small any 2 pool [sends 1 0 0; sends 1 1 9] (drain_best 2 pool).2);
    [apply pool_inv|apply pool_inv|done|vm_compute; reflexivity|].
  repeat constructor.
Defined.

(** A second sender takes the place of the first one's cheapest transaction. *)
Lemma eviction_fair_witness :
  ∃ v, v ≠ newcomer ∧ (size (queue (insert_checked small (sends 2 0 0) Skip false any pool).2 newcomer) ≤
    size (queue (insert_checked small (sends 2 0 0) Skip false any pool).2 v))%nat.
Proof.
  destruct (PoolLaws.eviction_fair small (sends 2 0 0) Skip any pool (Ok ())
    (insert_checked small (sends 2 0 0) Skip false any pool).2) as (v & q & n & x & rest & Hev & _ & _ & Hl);
    [apply pool_inv|vm_compute; lia|vm_compute; reflexivity|vm_compute; reflexivity|].
  exists v. split; [apply (ev_other _ _ _ _ _ _ _ Hev)|exact Hl].
Defined.

Lemma tip_bump_refused_witness :
  insert_checked small (sends 1 0 100) Enforce false any pool = (Err Duplicate, pool).
Proof.
  apply (PoolLaws.tip_bump_refused small (sends 1 0 0) (sends 1 0 100) Enforce false any pool);
    [apply pool_inv| |done|done|done].
  apply elem_of_pending. exists (replicate 32 1), (queue pool (replicate 32 1)), 0. split; vm_compute; reflexivity.
Defined.

Lemma suggested_nonce_free_witness : 7 ≤ suggested_next_nonce (replicate 32 2) 7 pool.
Proof.
  apply (PoolLaws.suggested_nonce_free (replicate 32 2) 7 pool). intros m y Hm. vm_compute in Hm. done.
Defined.

End SamplePool.
