(* ===== verification/Chain.v ===== *)
(** * The chain

    Models [crates/boing-node/src/chain.rs]: the head of the chain and the blocks kept in
    memory, indexed by height and by hash. The lock around them is held for the whole of
    each operation. Whatever is appended, the blocks form one chain of hashes up to the
    genesis, the head is its newest block, the indices answer with blocks of the chain
    only, and a memory window keeps the genesis and the newest blocks. *)

From S2P Require Import Prelude Types Store.

Definition DEFAULT_IN_MEMORY_BLOCK_WINDOW : Z := 100000.

Record ChainState := mkChain {
  cs_height : Z;
  cs_latest_hash : Hash;
  cs_latest_block : option Block;
  blocks_by_height : gmap Z Block;
  blocks_by_hash : gmap Hash Block;
  memory_window : Z;
}.

Inductive ChainError := BlockNotChained | InvalidHeight.

Definition genesis_block (by_ : AccountId) : Block :=
  mkBlock (mkBlockHeader ZERO 0 0 by_ ZERO ZERO ZERO None) [] [] [].

Section Ops.
Context `{Host} `{Iteration}.

Definition from_genesis_with_window (genesis : Block) (window : Z) : ChainState :=
  let hash := block_hash genesis in
  mkChain 0 hash (Some genesis) {[0 := genesis]} {[hash := genesis]} window.

Definition from_genesis (genesis : Block) : ChainState :=
  from_genesis_with_window genesis DEFAULT_IN_MEMORY_BLOCK_WINDOW.

Definition new_chain (genesis_proposer : AccountId) : ChainState := from_genesis (genesis_block genesis_proposer).

(** One height of the loop of [prune_locked]. *)
Definition drop_height (c : ChainState) (h : Z) : ChainState :=
  match blocks_by_height c !! h with
  | Some b =>
      mkChain (cs_height c) (cs_latest_hash c) (cs_latest_block c) (delete h (blocks_by_height c))
        (delete (block_hash b) (blocks_by_hash c)) (memory_window c)
  | None => c
  end.

Definition first_keep (tip window : Z) : Z := sat_sub tip (sat_sub window 1).

Definition prune_locked (c : ChainState) : ChainState :=
  if memory_window c =? 0 then c
  else
    let drop_heights := filter (λ h, h ≠ 0 ∧ h < first_keep (cs_height c) (memory_window c))
                          (iter (map_to_list (blocks_by_height c)).*1) in
    foldl drop_height c drop_heights.

Definition set_memory_window (window : Z) (c : ChainState) : ChainState :=
  prune_locked (mkChain (cs_height c) (cs_latest_hash c) (cs_latest_block c) (blocks_by_height c)
                  (blocks_by_hash c) window).

Definition tip_timestamp (c : ChainState) : Z :=
  match cs_latest_block c with Some b => timestamp (header b) | None => 0 end.

Definition append (b : Block) (c : ChainState) : result () ChainError * ChainState :=
  if negb (bool_decide (parent_hash (header b) = cs_latest_hash c)) then (Err BlockNotChained, c)
  else if negb (height (header b) =? wrap_add u64_max (cs_height c) 1) then (Err InvalidHeight, c)
  else
    let hash := block_hash b in
    (Ok (), prune_locked (mkChain (height (header b)) hash (Some b) (<[height (header b) := b]> (blocks_by_height c))
                            (<[hash := b]> (blocks_by_hash c)) (memory_window c))).

Definition cached_block_count (c : ChainState) : nat := size (blocks_by_height c).

Definition get_block_by_height (h : Z) (c : ChainState) : option Block := blocks_by_height c !! h.

Definition get_block_by_hash (hash : Hash) (c : ChainState) : option Block := blocks_by_hash c !! hash.

(** ** Histories *)

Inductive ChainOp := ChAppend (b : Block) | ChWindow (window : Z).

Definition apply_chain_op (c : ChainState) (op : ChainOp) : ChainState :=
  match op with ChAppend b => (append b c).2 | ChWindow w => set_memory_window w c end.

End Ops.

(** ** The chain of blocks *)

Section Lineage.
Context `{Host}.

(** The blocks from the newest down to the genesis. *)
Inductive lineage : list Block → Prop :=
| lin_genesis g : height (header g) = 0 → lineage [g]
| lin_append b p l :
    lineage (p :: l) → parent_hash (header b) = block_hash p →
    height (header b) = height (header p) + 1 → lineage (b :: p :: l).

Lemma lineage_head b l : lineage (b :: l) → height (header b) = Z.of_nat (length l).
Proof.
  remember (b :: l) as bl. intros Hl. revert b l Heqbl. induction Hl as [|b p l Hl IH Hp Hh]; intros ? ? [= <- <-]; [done|].
  rewrite Hh, (IH p l eq_refl). simpl. lia.
Qed.

Lemma lineage_bound b l : lineage (b :: l) → ∀ x, x ∈ b :: l → height (header x) ≤ height (header b).
Proof.
  remember (b :: l) as bl. intros Hl. revert b l Heqbl.
  induction Hl as [|c p l Hl IH Hp Hh]; intros ? ? [= <- <-] x [->|Hx]%elem_of_cons; try lia.
  - by apply elem_of_nil in Hx.
  - pose proof (IH p l eq_refl x Hx). lia.
Qed.

(** The heights of a chain are distinct. *)
Lemma lineage_heights l a b :
  lineage l → a ∈ l → b ∈ l → height (header a) = height (header b) → a = b.
Proof.
  intros Hl. induction Hl as [g|c p l Hl IH Hp Hh]; intros Ha Hb.
  - apply elem_of_cons in Ha as [->|Ha], Hb as [->|Hb]; intros _; [done|by apply elem_of_nil in Hb|by apply elem_of_nil in Ha..].
  - apply elem_of_cons in Ha as [->|Ha], Hb as [->|Hb]; intros Hab; [done| | |by apply IH].
    + pose proof (lineage_bound p l Hl b Hb). lia.
    + pose proof (lineage_bound p l Hl a Ha). lia.
Qed.

Lemma lineage_ends l : lineage l → ∃ g, last l = Some g ∧ height (header g) = 0.
Proof. induction 1 as [g|b p l Hl (g & Hg & H0) Hp Hh]; [by exists g|]. by exists g. Qed.

(** What the state [c] says of the chain [l]; [k] is the lowest height of which all the
    blocks from it on are in memory. *)
Record chain_ok (l : list Block) (k : Z) (c : ChainState) : Prop := {
  ck_lineage : lineage l;
  ck_latest : cs_latest_block c = head l;
  ck_height : cs_height c = Z.of_nat (length l) - 1;
  ck_hash : block_hash <$> head l = Some (cs_latest_hash c);
  ck_by_height : ∀ h b, blocks_by_height c !! h = Some b → b ∈ l ∧ height (header b) = h;
  ck_by_hash : ∀ x b, blocks_by_hash c !! x = Some b → b ∈ l ∧ block_hash b = x;
  ck_kept : ∀ b, b ∈ l → height (header b) = 0 ∨ k ≤ height (header b) →
    blocks_by_height c !! height (header b) = Some b;
  ck_kept_hash : NoDup (block_hash <$> l) → ∀ h b, blocks_by_height c !! h = Some b →
    blocks_by_hash c !! block_hash b = Some b;
}.

Lemma genesis_ok g w : height (header g) = 0 → chain_ok [g] 0 (from_genesis_with_window g w).
Proof.
  intros Hg. constructor; simpl; try done.
  - by constructor.
  - intros h b [<- <-]%lookup_singleton_Some. by split; [left|].
  - intros x b [<- <-]%lookup_singleton_Some. by split; [left|].
  - intros b ->%list_elem_of_singleton _. rewrite Hg. apply lookup_singleton_eq.
  - intros _ h b [<- <-]%lookup_singleton_Some. apply lookup_singleton_eq.
Qed.

(** Dropping a block below the kept ones. *)
Lemma drop_ok l k c h : h ≠ 0 → h < k → chain_ok l k c → chain_ok l k (drop_height c h).
Proof.
  intros H0 Hk Hc. unfold drop_height. destruct (blocks_by_height c !! h) as [d|] eqn:Ed; [|done].
  destruct (ck_by_height _ _ _ Hc h d Ed) as [Hd Hdh]. destruct Hc as [Hl Hlat Hhe Hha Hbh Hbx Hke Hkh].
  constructor; simpl; try done.
  - intros h' b [_ Hb]%lookup_delete_Some. by apply Hbh.
  - intros x b [_ Hb]%lookup_delete_Some. by apply Hbx.
  - intros b Hb Hkb. rewrite lookup_delete_ne by lia. by apply Hke.
  - intros Hnd h' b [Hne Hb]%lookup_delete_Some. rewrite lookup_delete_ne; [by eapply Hkh|].
    intros Heq. destruct (Hbh h' b Hb) as [Hbl Hh']. assert (d = b) as ->; [|congruence].
    apply list_elem_of_lookup in Hd as [i Hi], Hbl as [j Hj].
    assert (i = j) as ->; [|congruence].
    eapply (NoDup_lookup _ i j); [exact Hnd| |]; rewrite list_lookup_fmap, ?Hi, ?Hj; simpl; [done|congruence].
Qed.

Lemma drops_ok l k c hs : Forall (λ h, h ≠ 0 ∧ h < k) hs → chain_ok l k c → chain_ok l k (foldl drop_height c hs).
Proof.
  intros Hhs. revert c. induction Hhs as [|h hs [H0 Hk] _ IH]; intros c Hc; simpl; [done|]. by apply IH, drop_ok.
Qed.

Lemma kept_less l k k' c : k ≤ k' → chain_ok l k c → chain_ok l k' c.
Proof. intros Hk []. constructor; try done. intros b Hb [?|?]; auto with lia. Qed.

(** The lowest height kept by a window. *)
Definition window_from (tip window : Z) : Z := if window =? 0 then 0 else first_keep tip window.

Lemma prune_ok `{Iteration} l k c :
  chain_ok l k c → chain_ok l (Z.max k (window_from (cs_height c) (memory_window c))) (prune_locked c).
Proof.
  intros Hc. unfold prune_locked, window_from. destruct (memory_window c =? 0); [by eapply kept_less; [|done]; lia|].
  apply drops_ok; [|by eapply kept_less; [|done]; lia].
  apply Forall_forall. intros h [Hh _]%list_elem_of_filter. lia.
Qed.

Lemma drops_lookup c hs h :
  blocks_by_height (foldl drop_height c hs) !! h = if decide (h ∈ hs) then None else blocks_by_height c !! h.
Proof.
  revert c. induction hs as [|h' hs IH]; intros c; simpl; [done|]. rewrite IH. unfold drop_height.
  assert (blocks_by_height (match blocks_by_height c !! h' with
    | Some b => mkChain (cs_height c) (cs_latest_hash c) (cs_latest_block c) (delete h' (blocks_by_height c))
        (delete (block_hash b) (blocks_by_hash c)) (memory_window c) | None => c end)
    = delete h' (blocks_by_height c)) as ->.
  { destruct (blocks_by_height c !! h') eqn:E; [done|]. by rewrite delete_id. }
  destruct (decide (h ∈ hs)), (decide (h ∈ h' :: hs)) as [Hd|Hd]; try done; [set_solver| |].
  - apply elem_of_cons in Hd as [->|?]; [|done]. apply lookup_delete_eq.
  - apply lookup_delete_ne. set_solver.
Qed.

Lemma drops_same c hs :
  cs_height (foldl drop_height c hs) = cs_height c ∧ memory_window (foldl drop_height c hs) = memory_window c.
Proof.
  revert c. induction hs as [|h hs IH]; intros c; simpl; [done|]. destruct (IH (drop_height c h)) as [-> ->].
  unfold drop_height. by destruct (_ !! _).
Qed.

(** All that is kept is in the window. *)
Definition in_window (c : ChainState) : Prop :=
  ∀ h b, blocks_by_height c !! h = Some b → h = 0 ∨ window_from (cs_height c) (memory_window c) ≤ h.

Lemma prune_same `{Iteration} c :
  cs_height (prune_locked c) = cs_height c ∧ memory_window (prune_locked c) = memory_window c.
Proof. unfold prune_locked. destruct (_ =? 0); [done|apply drops_same]. Qed.

Lemma prune_window `{Iteration} c : (∀ h b, blocks_by_height c !! h = Some b → 0 ≤ h) → in_window (prune_locked c).
Proof.
  intros Hpos h b. unfold in_window. destruct (prune_same c) as [-> ->]. unfold prune_locked, window_from.
  destruct (memory_window c =? 0); [intros Hb; right; by eapply Hpos|]. rewrite drops_lookup. case_decide as Hd; [done|].
  intros Hb. destruct (decide (h = 0)); [by left|]. right. apply Z.nlt_ge. intros Hlt. apply Hd.
  apply list_elem_of_filter. split; [done|]. rewrite (iter_perm (map_to_list (blocks_by_height c)).*1).
  apply list_elem_of_fmap. exists (h, b). split; [done|]. by apply elem_of_map_to_list.
Qed.

Lemma lineage_pos l b : lineage l → b ∈ l → 0 ≤ height (header b).
Proof.
  induction 1 as [g Hg|c p l Hl IH Hp Hh]; intros Hb; apply elem_of_cons in Hb as [->|Hb]; try lia.
  - by apply elem_of_nil in Hb.
  - rewrite Hh. pose proof (lineage_head p l Hl). lia.
  - by apply IH.
Qed.

Lemma chain_pos l k c h b : chain_ok l k c → blocks_by_height c !! h = Some b → 0 ≤ h.
Proof. intros Hc Hb. destruct (ck_by_height _ _ _ Hc h b Hb) as [? <-]. by eapply lineage_pos; [apply Hc|]. Qed.

Lemma chain_lengths l k c : chain_ok l k c → ∃ b l', l = b :: l' ∧ height (header b) = cs_height c.
Proof.
  intros Hc. destruct l as [|b l']; [by apply ck_lineage in Hc; inversion Hc|]. exists b, l'. split; [done|].
  rewrite (lineage_head b l' (ck_lineage _ _ _ Hc)), (ck_height _ _ _ Hc). simpl. lia.
Qed.

(** The state with a new head, before pruning. *)
Lemma extend_ok l k c b :
  chain_ok l k c → parent_hash (header b) = cs_latest_hash c → height (header b) = cs_height c + 1 →
  chain_ok (b :: l) k (mkChain (height (header b)) (block_hash b) (Some b) (<[height (header b) := b]> (blocks_by_height c))
                         (<[block_hash b := b]> (blocks_by_hash c)) (memory_window c)).
Proof.
  intros Hc Hp Hh. destruct (chain_lengths l k c Hc) as (p & l' & El & Hph).
  assert (∀ a, a ∈ l → height (header a) ≠ height (header b)) as Hnew.
  { intros a Ha. pose proof (ck_lineage _ _ _ Hc) as Hl. rewrite El in Hl, Ha. pose proof (lineage_bound p l' Hl a Ha). lia. }
  destruct Hc as [Hl Hlat Hhe Hha Hbh Hbx Hke Hkh]. constructor; simpl; try done.
  - rewrite El in *. simpl in Hha. constructor; [done|congruence|lia].
  - lia.
  - intros h a [[<- <-]|[Hne Ha]]%lookup_insert_Some; [by split; [left|]|]. destruct (Hbh h a Ha). by split; [right|].
  - intros x a [[<- <-]|[Hne Ha]]%lookup_insert_Some; [by split; [left|]|]. destruct (Hbx x a Ha). by split; [right|].
  - intros a [->|Ha]%elem_of_cons Hk; [apply lookup_insert_eq|]. rewrite lookup_insert_ne by (symmetry; by apply Hnew).
    by apply Hke.
  - intros [Hb Hnd]%NoDup_cons h a [[<- <-]|[Hne Ha]]%lookup_insert_Some; [apply lookup_insert_eq|].
    rewrite lookup_insert_ne; [by eapply Hkh|]. intros Heq. apply Hb. rewrite Heq. apply list_elem_of_fmap_2.
    by eapply Hbh.
Qed.

Lemma append_spec `{Iteration} l k c b r c' :
  chain_ok l k c → cs_height c < u64_max → append b c = (r, c') →
  match r with
  | Ok _ => chain_ok (b :: l) (Z.max k (window_from (cs_height c') (memory_window c'))) c' ∧ in_window c' ∧
      cs_height c' = cs_height c + 1 ∧ memory_window c' = memory_window c
  | Err _ => c' = c
  end.
Proof.
  intros Hc Hu. unfold append. case_bool_decide as Hp; simpl; [|by intros [= <- <-]].
  assert (wrap_add u64_max (cs_height c) 1 = cs_height c + 1) as ->.
  { destruct (chain_lengths l k c Hc) as (p & l' & El & _). rewrite (ck_height _ _ _ Hc), El in *. simpl in *.
    unfold wrap_add. rewrite Z.mod_small; lia. }
  destruct (Z.eqb_spec (height (header b)) (cs_height c + 1)) as [Hh|]; simpl; [|by intros [= <- <-]].
  intros [= <- <-]. pose proof (extend_ok l k c b Hc Hp Hh) as Hx.
  match goal with |- context [prune_locked ?x] => set (c1 := x) in * end.
  destruct (prune_same c1) as [Eh Ew]. split_and!.
  - rewrite Eh, Ew. by apply prune_ok.
  - apply prune_window. intros h a Ha. by eapply chain_pos.
  - rewrite Eh. done.
  - done.
Qed.

Lemma window_spec `{Iteration} l k c w :
  chain_ok l k c → chain_ok l (Z.max k (window_from (cs_height c) w)) (set_memory_window w c) ∧
    in_window (set_memory_window w c) ∧ cs_height (set_memory_window w c) = cs_height c.
Proof.
  intros Hc. unfold set_memory_window.
  match goal with |- context [prune_locked ?x] => set (c1 := x) in * end.
  assert (chain_ok l k c1) as Hc1 by (by destruct Hc). destruct (prune_same c1) as [Eh Ew]. split_and!; [|..|done].
  - by apply (prune_ok l k c1).
  - apply prune_window. intros h a Ha. by eapply chain_pos.
Qed.

Lemma window_from_le tip w : 0 ≤ tip → window_from tip w ≤ tip.
Proof. unfold window_from, first_keep, sat_sub. intros. destruct (w =? 0); lia. Qed.

Lemma window_from_mono tip tip' w : tip ≤ tip' → window_from tip w ≤ window_from tip' w.
Proof. unfold window_from, first_keep, sat_sub. intros. destruct (w =? 0); lia. Qed.

Definition is_append (op : ChainOp) : bool := match op with ChAppend _ => true | ChWindow _ => false end.

Lemma run_chain `{Iteration} ops l k c :
  chain_ok l k c → in_window c → k ≤ cs_height c → cs_height c + Z.of_nat (length ops) ≤ u64_max →
  let c' := foldl apply_chain_op c ops in
  ∃ l' k', chain_ok (l' ++ l) k' c' ∧ in_window c' ∧ k' ≤ cs_height c' ∧ cs_height c' = cs_height c + Z.of_nat (length l') ∧
    (forallb is_append ops = true → memory_window c' = memory_window c ∧
       (k ≤ window_from (cs_height c) (memory_window c) → k' ≤ window_from (cs_height c') (memory_window c'))).
Proof.
  revert l k c. induction ops as [|op ops IH]; intros l k c Hc Hw Hk Hu; simpl in *; [exists [], k; split_and!; try done; first [simpl; lia|by auto]|].
  assert (0 ≤ cs_height c) as Hpos.
  { destruct (chain_lengths l k c Hc) as (p & l0 & El & _). rewrite (ck_height _ _ _ Hc), El. simpl. lia. }
  destruct op as [b|w]; simpl.
  - destruct (append b c) as [r c1] eqn:Ea. pose proof (append_spec l k c b r c1 Hc ltac:(lia) Ea) as Ha.
    destruct r as [[]|e]; simpl; [|subst c1; apply IH; [done..|lia]].
    destruct Ha as (Hc1 & Hw1 & Eh & Ew). pose proof (window_from_le (cs_height c1) (memory_window c1) ltac:(lia)).
    destruct (IH _ _ _ Hc1 Hw1 ltac:(lia) ltac:(lia)) as (l' & k' & Hc' & Hw' & Hk' & Eh' & Happ).
    exists (l' ++ [b]), k'. rewrite <- app_assoc, length_app. split_and!; try done; [simpl; lia|].
    intros Hall. destruct (Happ Hall) as [Ew' Hkw]. split; [congruence|]. intros Hkc. apply Hkw.
    pose proof (window_from_mono (cs_height c) (cs_height c1) (memory_window c) ltac:(lia)). rewrite Ew in *. lia.
  - destruct (window_spec l k c w Hc) as (Hc1 & Hw1 & Eh). pose proof (window_from_le (cs_height c) w Hpos).
    destruct (IH _ _ _ Hc1 Hw1 ltac:(lia) ltac:(lia)) as (l' & k' & Hc' & Hw' & Hk' & Eh' & _).
    exists l', k'. by rewrite Eh in Eh'.
Qed.

(** C20: the chain state is a chain. After any series of appended blocks (good and bad)
    and of changes of the memory window, the accepted blocks form one chain of hashes and
    consecutive heights down to the genesis, of which the head, height and latest hash
    are the newest; every block found by height or by hash is the block of the chain with
    that height or hash; the genesis and the head are found; nothing below the window
    is; and with a fixed window every block in it is found, by its hash too unless two
    blocks of the chain share one. *)
Theorem chain_reachable `{Iteration} g w ops :
  height (header g) = 0 → Z.of_nat (length ops) ≤ u64_max →
  let c := foldl apply_chain_op (from_genesis_with_window g w) ops in
  ∃ b l, lineage (b :: l) ∧ last (b :: l) = Some g ∧ cs_latest_block c = Some b ∧
    cs_height c = height (header b) ∧ cs_latest_hash c = block_hash b ∧
    (∀ h a, get_block_by_height h c = Some a → a ∈ b :: l ∧ height (header a) = h ∧
       (h = 0 ∨ window_from (cs_height c) (memory_window c) ≤ h)) ∧
    (∀ x a, get_block_by_hash x c = Some a → a ∈ b :: l ∧ block_hash a = x) ∧
    get_block_by_height 0 c = Some g ∧ get_block_by_height (height (header b)) c = Some b ∧
    (forallb is_append ops = true → ∀ a, a ∈ b :: l → height (header a) = 0 ∨ window_from (cs_height c) w ≤ height (header a) →
       get_block_by_height (height (header a)) c = Some a ∧
       (NoDup (block_hash <$> b :: l) → get_block_by_hash (block_hash a) c = Some a)).
Proof.
  intros Hg Hlen. set (c0 := from_genesis_with_window g w).
  assert (in_window c0) as Hw0.
  { intros h b Hb. unfold c0, from_genesis_with_window in Hb. simpl in Hb. apply lookup_singleton_Some in Hb as [<- <-]. by left. }
  destruct (run_chain ops [g] 0 c0 (genesis_ok g w Hg) Hw0 ltac:(simpl; lia) Hlen)
    as (l' & k & Hc & Hw & Hk & _ & Happ). fold c0. set (c := foldl apply_chain_op c0 ops) in *.
  destruct (chain_lengths _ _ _ Hc) as (b & l & El & Eb). rewrite El in Hc. exists b, l.
  assert (last (b :: l) = Some g) as Hlast by (rewrite <- El; apply last_snoc).
  destruct Hc as [Hl Hlat Hhe Hha Hbh Hbx Hke Hkh]. simpl in Hha. split_and!; try done; [congruence|..].
  - intros h a Ha. destruct (Hbh h a Ha). by split_and!; [..|eapply Hw].
  - rewrite <- Hg. apply Hke; [by apply last_Some_elem_of|by left].
  - apply Hke; [by left|lia].
  - intros Hall a Ha Hk'. destruct (Happ Hall) as [Ew Hkw]. specialize (Hkw ltac:(by unfold window_from, first_keep, sat_sub; simpl; destruct (w =? 0); lia)).
    assert (blocks_by_height c !! height (header a) = Some a) as Hfound.
    { apply Hke; [done|]. simpl in Ew. rewrite Ew in Hkw. destruct Hk'; [by left|right; lia]. }
    split; [done|]. intros Hnd. by eapply Hkh.
Qed.

End Lineage.

Module SampleChain.

#[local] Existing Instances sample_host SampleStore.in_order.

Definition root_block : Block := genesis_block (replicate 32 1).

Definition child (p : Block) : Block :=
  mkBlock (mkBlockHeader (block_hash p) (height (header p) + 1) 5 (replicate 32 1) ZERO ZERO ZERO None) [] [] [].

Definition three : list ChainOp :=
  [ChAppend (child root_block); ChAppend root_block; ChAppend (child (child root_block));
   ChAppend (child (child (child root_block)))].

(** Three blocks and one that does not chain, in a window of two. *)
Lemma chain_reachable_witness :
  let c := foldl apply_chain_op (from_genesis_with_window root_block 2) three in
  get_block_by_height 0 c = Some root_block ∧ cached_block_count c = 3%nat.
Proof.
  intros c. destruct (chain_reachable root_block 2 three) as (b & l & _ & _ & _ & _ & _ & _ & _ & H0 & _);
    [reflexivity|vm_compute; discriminate|]. split; [exact H0|]. vm_compute. reflexivity.
Defined.

End SampleChain.
