(* ===== verification/Blocks.v ===== *)
(** * Producing and importing blocks

    Models [crates/boing-node/src/block_validation.rs] and [block_producer.rs], the
    signature and preset rules of [network_preset.rs] they use, and [receipts_root] of
    [crates/boing-primitives/src/types.rs].

    The producer and the importer contain the same steps between the transactions of a
    block and its state root (the execution, the block reward, the housekeeping of the
    blob markets and the validator hook): [run_block]. The clock, the environment and
    [bincode] of a receipt are arguments. A panic of the process is [ImportCrash] or, for
    the producer, [None]. *)

From S2P Require Import Prelude Types Names Governance Blobs SampleMarket SlashAppeals Signatures OpenValidators Consensus Words Bytecode Qa Merkle Store Tokenomics Interp Vm Executor Mempool Chain.

(** ** Receipts *)

Class ReceiptCodec := { bincode_receipt : ExecutionReceipt → bytes }.

Definition receipt_leaf_hash `{Host} `{ReceiptCodec} (r : ExecutionReceipt) : Hash := blake3 (bincode_receipt r).

(** The fuel is the number of leaves. *)
Definition receipts_root `{Host} `{ReceiptCodec} (rs : list ExecutionReceipt) : option Hash :=
  match rs with
  | [] => Some ZERO
  | _ => merkle_root_impl (length rs) (map receipt_leaf_hash rs)
  end.

(** ** Network presets *)

Definition BOING_TESTNET_CHAIN_ID : Z := 6913.
Definition BOING_MAINNET_CHAIN_ID : Z := 6914.
Definition BOING_TESTNET_GENESIS_ACCOUNT : AccountId := replicate 32 1.
Definition BOING_TESTNET_GENESIS_BALANCE : Z := 1000000.
Definition BOING_TESTNET_TREASURY_FEES_FROM : Z := 27.
Definition BOING_TESTNET_SECURITY_V2_FROM : Z := 900.
Definition BOING_TESTNET_SECURITY_V3_FROM : Z := 920.
Definition BOING_TESTNET_SECURITY_V4_FROM : Z := 1000.
Definition BOING_TESTNET_BASE_UNITS_FROM : Z := 1050.
Definition BOING_TESTNET_NATIVE_VALUE_FROM : Z := 1150.
Definition BOING_TESTNET_MICRO_FEES_FROM : Z := 1188.
Definition BOING_TESTNET_EXECUTION_GAS_FEE_BPS : Z := 100.
Definition BOING_TESTNET_MEDIA_BLOBS_FROM : Z := 1200.
Definition BOING_TESTNET_MEDIA_BLOBS_PHASE7_CAP_FROM : Z := 1306.
Definition BOING_TESTNET_VM_HARDENING_FROM : Z := 1500.
Definition BOING_TESTNET_STORAGE_TREE_V2_FROM : Z := 1500.
Definition BOING_TESTNET_ACCOUNT_TREE_V3_FROM : Z := 1500.
Definition BOING_TESTNET_EQUIVOCATION_SLASH_FROM : Z := 1600.
Definition BOING_TESTNET_VM_JUMP_STRICT_FROM : Z := 1600.
Definition BOING_TESTNET_QA_CANONICAL_FROM : Z := 1700.
Definition FAUCET_INITIAL_BALANCE : Z := 10000000.

Record GenesisSpec := mkGenesisSpec {
  gs_proposer : AccountId;
  gs_allocations : list (AccountId * Z);
}.

Record NetworkPreset := mkPreset {
  np_chain_id : Z;
  np_anchors : list AccountId;
  np_genesis : GenesisSpec;
  np_history : ExecutionHistory;
  np_fee_policy : option NetworkFeePolicy;
  np_media_blobs_from : option Z;
  np_media_blobs_phase7_cap_from : option Z;
  np_storage_tree_v2_from : option Z;
  np_account_tree_v3_from : option Z;
}.

Definition boing_testnet_history : ExecutionHistory :=
  mkHistory BOING_TESTNET_CHAIN_ID [mkFeeEra 0 legacy_proposer_split RemValidators]
    BOING_TESTNET_TREASURY_FEES_FROM BOING_TESTNET_SECURITY_V2_FROM BOING_TESTNET_SECURITY_V2_FROM
    BOING_TESTNET_SECURITY_V3_FROM BOING_TESTNET_SECURITY_V3_FROM BOING_TESTNET_SECURITY_V4_FROM
    BOING_TESTNET_BASE_UNITS_FROM BOING_TESTNET_NATIVE_VALUE_FROM BOING_TESTNET_MICRO_FEES_FROM
    BOING_TESTNET_VM_HARDENING_FROM BOING_TESTNET_EQUIVOCATION_SLASH_FROM BOING_TESTNET_VM_JUMP_STRICT_FROM
    (Some BOING_TESTNET_QA_CANONICAL_FROM).

Definition boing_testnet_fee_policy : NetworkFeePolicy :=
  set_execution_gas_fee_bps treasury_default BOING_TESTNET_EXECUTION_GAS_FEE_BPS.

(** The faucet's account is the public key of a fixed seed. *)
Definition boing_testnet_genesis (faucet_account : AccountId) : GenesisSpec :=
  mkGenesisSpec BOING_TESTNET_GENESIS_ACCOUNT
    [(BOING_TESTNET_GENESIS_ACCOUNT, BOING_TESTNET_GENESIS_BALANCE); (faucet_account, FAUCET_INITIAL_BALANCE)].

Definition boing_testnet_preset (faucet_account : AccountId) : NetworkPreset :=
  mkPreset BOING_TESTNET_CHAIN_ID [BOING_TESTNET_GENESIS_ACCOUNT] (boing_testnet_genesis faucet_account)
    boing_testnet_history (Some boing_testnet_fee_policy) (Some BOING_TESTNET_MEDIA_BLOBS_FROM)
    (Some BOING_TESTNET_MEDIA_BLOBS_PHASE7_CAP_FROM) (Some BOING_TESTNET_STORAGE_TREE_V2_FROM)
    (Some BOING_TESTNET_ACCOUNT_TREE_V3_FROM).

Definition preset_for_chain (faucet_account : AccountId) (chain_id : Z) : option NetworkPreset :=
  if chain_id =? BOING_TESTNET_CHAIN_ID then Some (boing_testnet_preset faucet_account) else None.

(** The two refusals of mainnet mode. *)
Inductive GuardError := OperatorTokenUnset | FaucetOnMainnet.

Definition check_mainnet_guards (chain_id : option Z) (operator_token_set faucet_enabled : bool)
    : result () GuardError :=
  if negb (bool_decide (chain_id = Some BOING_MAINNET_CHAIN_ID)) then Ok ()
  else if negb operator_token_set then Err OperatorTokenUnset
  else if faucet_enabled then Err FaucetOnMainnet
  else Ok ().

(** The environment variables that are set to a number. *)
Record NodeEnv := mkNodeEnv {
  BOING_CHAIN_ID : option Z;
  BOING_TX_V2_FROM : option Z;
  BOING_BLOCK_SIGS_FROM : option Z;
}.

Section Policies.
Context (env : NodeEnv) (history : option ExecutionHistory).

Definition tx_v2_from : Z :=
  match BOING_TX_V2_FROM env with
  | Some h => h
  | None => match history with Some h => h_tx_v2_from h | None => 0 end
  end.

Definition block_sigs_from : Z :=
  match BOING_BLOCK_SIGS_FROM env with
  | Some h => h
  | None => match history with Some h => h_block_sigs_from h | None => 0 end
  end.

Definition effective_chain_id : option Z :=
  match history with
  | Some h => if h_chain_id h =? 0 then BOING_CHAIN_ID env else Some (h_chain_id h)
  | None => BOING_CHAIN_ID env
  end.

Definition tx_sig_policy (chain_id : option Z) (next_height : Z) : TxSigPolicy :=
  match chain_id with
  | None => mkTxSigPolicy None false
  | Some c => mkTxSigPolicy (Some c) (tx_v2_from <=? next_height)
  end.

End Policies.

(** ** Validation *)

Definition MAX_BLOCK_TIMESTAMP_FUTURE_SECS : Z := 600.

Inductive BlockValidationError :=
| DoesNotChain
| TimestampBeforeParent (parent got : Z)
| TimestampTooFarInFuture (got max_allowed : Z)
| InvalidTxRoot
| InvalidReceiptsRoot (expected computed : Hash)
| InvalidProposer
| NotRoundLeader (proposer expected_leader : AccountId)
| ExecutionFailed (e : ExecutionError)
| InvalidStateRoot (expected computed : Hash)
| InvalidBlobsRoot (expected found : option Hash)
| NoValidators
| MissingTxSignatures (expected found : nat)
| InvalidPriorityTips (expected found : nat)
| InvalidTxSignature (index : nat) (reason : SignatureError).

Inductive ImportFault :=
| Refused (e : BlockValidationError)
| ImportCrash.

Definition chains_to (b : Block) (our_latest_hash : Hash) (our_height : Z) : bool :=
  bool_decide (parent_hash (header b) = our_latest_hash) && (height (header b) =? wrap_add u64_max our_height 1).

Definition validate_block_timestamp (now : Z) (b : Block) (parent_timestamp : Z) : result () BlockValidationError :=
  let ts := timestamp (header b) in
  let max_allowed := sat_add u64_max now MAX_BLOCK_TIMESTAMP_FUTURE_SECS in
  if (0 <? height (header b)) && (ts <? parent_timestamp) then Err (TimestampBeforeParent parent_timestamp ts)
  else if max_allowed <? ts then Err (TimestampTooFarInFuture ts max_allowed)
  else Ok ().

Definition blobs_root_header_active (vm : VmConfig) (height : Z) : bool :=
  match blobs_root_header_from vm with Some h => h <=? height | None => false end.

Section Node.
Context `{Host} `{RegistryCodec} `{Iteration} `{TextOps} `{Crypto} `{HexText} `{PolicyJson} `{ReceiptCodec}.
Context (env : NodeEnv) (signing_chain_id : option Z) (error_text : nat → ExecutionError → bytes).
Context (pins : HostPins) (ex : BlockExecutor).

(** [set_slash_appeal_resolvers]. *)
Definition pin_resolvers (set : list AccountId) : HostPins :=
  mkHostPins (open_validator_params pins) (name_registry_params pins) (Some set).

Definition block_sig_policy (height : Z) : TxSigPolicy :=
  tx_sig_policy env (ex_history ex) (effective_chain_id env (ex_history ex)) height.

(** The loop over the transactions from [index] on. *)
Fixpoint verify_signed (policy : TxSigPolicy) (b : Block) (index : nat) (l : list (Transaction * bytes))
    : result () BlockValidationError :=
  match l with
  | [] => Ok ()
  | (tx, sig) :: rest =>
      match verify_signature_with_tip tx sig (tx_sender tx) policy (priority_tip_at b index) with
      | Ok _ => verify_signed policy b (S index) rest
      | Err e => Err (InvalidTxSignature index e)
      end
  end.

Definition verify_block_tx_signatures (b : Block) : result () BlockValidationError :=
  let required := block_sigs_from env (ex_history ex) <=? height (header b) in
  if negb required && bool_decide (signatures b = []) then Ok ()
  else if negb (length (signatures b) =? length (transactions b))%nat
  then Err (MissingTxSignatures (length (transactions b)) (length (signatures b)))
  else verify_signed (block_sig_policy (height (header b))) b 0 (zip (transactions b) (signatures b)).

(** The reward of the block's proposer. *)
Definition credit_reward (height : Z) (by_ : AccountId) (st : VmStore) : VmStore :=
  let reward := block_emission ex height in
  if 0 <? reward then
    match get st by_ with
    | Some _ => get_mut by_ (λ s, set_balance s (sat_add u128_max (balance s) reward)) st
    | None => insert_account by_ (with_balance reward) st
    end
  else st.

Definition apply_open_validator_block_hook (height : Z) (by_ : AccountId) (st : VmStore) : VmStore :=
  match open_validator_params pins with
  | Some p => registry_mut Store.OpenValidators (λ v, set_validators v (OpenReg.on_block p height by_ (ar_validators v))) st
  | None => st
  end.

(** From the transactions of a block to the state its root commits to. *)
Definition run_block (set : list AccountId) (height timestamp : Z) (txs : list Transaction) (by_ : AccountId)
    (tips : list Z) : ST VmStore ExecFault (list ExecutionReceipt) :=
  '(_, rs) ← execute_block_with_tips (pin_resolvers set) signing_chain_id error_text ex height timestamp txs by_ tips;
  _ ← st_modify (credit_reward height by_);
  _ ← map_err exec_fault (apply_media_blob_block_housekeeping height);
  _ ← st_modify (apply_open_validator_block_hook height by_);
  mret rs.

(** The checks before the execution. *)
Definition check_block (now : Z) (b : Block) (set : list AccountId) (expected_leader : AccountId)
    (parent_timestamp : Z) : result () ImportFault :=
  match validate_block_timestamp now b parent_timestamp with
  | Err e => Err (Refused e)
  | Ok _ =>
  match tx_root (transactions b) with
  | None => Err ImportCrash
  | Some expected =>
  if negb (bool_decide (bh_tx_root (header b) = expected)) then Err (Refused InvalidTxRoot)
  else match verify_block_tx_signatures b with
  | Err e => Err (Refused e)
  | Ok _ =>
  if negb (bool_decide (priority_tips b = [])) && negb (length (priority_tips b) =? length (transactions b))%nat
  then Err (Refused (InvalidPriorityTips (length (transactions b)) (length (priority_tips b))))
  else if negb (bool_decide (proposer (header b) ∈ set)) then Err (Refused InvalidProposer)
  else if negb (bool_decide (proposer (header b) = expected_leader))
  then Err (Refused (NotRoundLeader (proposer (header b)) expected_leader))
  else Ok ()
  end end end.

Definition expected_blobs (height : Z) (txs : list Transaction) : option Hash :=
  if blobs_root_header_active (ex_vm ex) height then Some (blobs_root_of_transactions txs) else None.

(** The checks of the header after the execution. *)
Definition check_roots (b : Block) (rs : list ExecutionReceipt) (st : VmStore) : result VmStore ImportFault :=
  let h := header b in
  match receipts_root rs, state_root_at_height (height h) st with
  | None, _ => Err ImportCrash
  | Some rr, root =>
      if negb (bool_decide (bh_receipts_root h = rr)) then Err (Refused (InvalidReceiptsRoot (bh_receipts_root h) rr))
      else match root with
      | None => Err ImportCrash
      | Some (st, root) =>
          if negb (bool_decide (bh_state_root h = root)) then Err (Refused (InvalidStateRoot (bh_state_root h) root))
          else if negb (bool_decide (blobs_root h = expected_blobs (height h) (transactions b)))
          then Err (Refused (InvalidBlobsRoot (expected_blobs (height h) (transactions b)) (blobs_root h)))
          else Ok st
      end
  end.

Definition validate_and_execute_block (now : Z) (b : Block) (parent_state : VmStore) (set : list AccountId)
    (expected_leader : AccountId) (parent_timestamp : Z) : result (VmStore * list ExecutionReceipt) ImportFault :=
  match check_block now b set expected_leader parent_timestamp with
  | Err e => Err e
  | Ok _ =>
      match run_block set (height (header b)) (timestamp (header b)) (transactions b) (proposer (header b))
              (priority_tips b) (snapshot parent_state) with
      | (Err (ExecErr e), _) => Err (Refused (ExecutionFailed e))
      | (Err ExecCrash, _) => Err ImportCrash
      | (Ok rs, st) =>
          match check_roots b rs st with
          | Ok st => Ok (st, rs)
          | Err e => Err e
          end
      end
  end.

Definition import_block (now : Z) (b : Block) (our_latest_hash : Hash) (our_height : Z) (parent_state : VmStore)
    (consensus : ConsensusEngine) (parent_timestamp : Z) : result (VmStore * list ExecutionReceipt) ImportFault :=
  if negb (chains_to b our_latest_hash our_height) then Err (Refused DoesNotChain)
  else match validators consensus with
  | [] => Err (Refused NoValidators)
  | set =>
      match (if may_propose consensus (height (header b)) (proposer (header b)) then Some (proposer (header b))
             else leader consensus (height (header b))) with
      | None => Err ImportCrash
      | Some expected_leader => validate_and_execute_block now b parent_state set expected_leader parent_timestamp
      end
  end.

(** ** Production *)

Record ProducedProposal := mkProposal {
  pp_block : Block;
  pp_receipts : list ExecutionReceipt;
  pp_new_state : VmStore;
}.

Record BlockProducer := mkProducer {
  bp_proposer : AccountId;
  max_txs_per_block : nat;
  bp_blobs_root_header_from : option Z;
}.

Definition new_producer (by_ : AccountId) : BlockProducer := mkProducer by_ 1000 None.

(** The tip vector of the block, which is left out when there is no tip. *)
Definition tips_field (tips : list Z) : list Z := if existsb (λ t, negb (t =? 0)) tips then tips else [].

(** [verify_with(policy).is_ok()]. *)
Definition verifies (policy : TxSigPolicy) (s : SignedTransaction) : bool :=
  match verify_with s policy with Ok _ => true | Err _ => false end.

(** The state after a proposal, whether there is one, and the pool. *)
Notation outcome := (option ProducedProposal * MempoolInner * VmStore)%type.

(** The mempool's configuration and the process-wide policy by which it re-inserts. *)
Context (cfg : MempoolConfig) (process_policy : TxSigPolicy).

(** From the drained transactions that verify to the proposal. *)
Definition build_proposal (now : Z) (bp : BlockProducer) (chain : ChainState) (consensus : ConsensusEngine)
    (signed_txs : list SignedTransaction) (pool : MempoolInner) (st : VmStore) : option outcome :=
  let h := wrap_add u64_max (cs_height chain) 1 in
  let txs := map st_tx signed_txs in
  let tips := map st_priority_tip signed_txs in
  let parent_ts := match get_block_by_height (cs_height chain) chain with
                   | Some b => timestamp (header b) | None => 0 end in
  let ts := Z.max now (sat_add u64_max parent_ts 1) in
  root ← tx_root txs;
  let '(cp, st) := checkpoint st in
  match run_block (validators consensus) h ts txs (bp_proposer bp) tips st with
  | (Err ExecCrash, _) => None
  | (Err (ExecErr _), st) => Some (None, reinsert cfg process_policy signed_txs pool, revert cp st)
  | (Ok rs, st) =>
      '(st, sroot) ← state_root_at_height h st;
      rr ← receipts_root rs;
      let blobs := if match bp_blobs_root_header_from bp with Some from => from <=? h | None => false end
                   then Some (blobs_root_of_transactions txs) else None in
      let b := mkBlock (mkBlockHeader (cs_latest_hash chain) h ts (bp_proposer bp) root rr sroot blobs)
                 txs (map st_signature signed_txs) (tips_field tips) in
      Some (Some (mkProposal b rs (snapshot st)), pool, revert cp st)
  end.

Definition produce_proposal_with_fallback (now : Z) (bp : BlockProducer) (chain : ChainState) (pool : MempoolInner)
    (st : VmStore) (consensus : ConsensusEngine) (anchor_fallback : bool) : option outcome :=
  let next_height := wrap_add u64_max (cs_height chain) 1 in
  scheduled ← leader consensus next_height;
  if negb (bool_decide (scheduled = bp_proposer bp))
     && negb (anchor_fallback && may_propose consensus next_height (bp_proposer bp))
  then Some (None, pool, st)
  else
    '(drained, pool) ← drain_for_block (max_txs_per_block bp) pool;
    match filter (λ s, verifies (block_sig_policy next_height) s = true) drained with
    | [] => Some (None, pool, st)
    | signed_txs => build_proposal now bp chain consensus signed_txs pool st
    end.

Definition produce_proposal (now : Z) (bp : BlockProducer) (chain : ChainState) (pool : MempoolInner)
    (st : VmStore) (consensus : ConsensusEngine) : option outcome :=
  produce_proposal_with_fallback now bp chain pool st consensus false.

End Node.
