(* ===== verification/BlocksLaws.v ===== *)
(** * Producers and importers agree

    About [Blocks.v]. Proposing a block leaves the state of the tip as it was. A block
    that a node proposes is accepted by every node with the same tip, whatever its caches
    and hash map orders, and leaves it with the contents the proposer computed. An
    imported block chains, is proposed by a validator entitled to, carries a signature
    for every transaction where they are required, and commits to its transactions,
    receipts and state. *)

From S2P Require Import Prelude Types Names Governance Blobs SampleMarket SlashAppeals Signatures OpenValidators Consensus Words Bytecode Qa Merkle Store Tokenomics StoreLaws StoreUndo Scheduler Interp Vm VmWrites VmAgree Executor ExecutorRuns ExecutorNonces Mempool Chain Blocks.
Import MoneyLaws.

(** ** Nested changes *)

Section Scopes.
Context `{Host} `{RegistryCodec} `{Iteration}.

(** From [st] to [st'] every checkpoint taken was dropped or reverted to, so that an
    outer one undoes the same. *)
Record scope (st st' : VmStore) : Prop := {
  sc_sound : sound st → sound st';
  sc_undoes : sound st → ∀ base d c, undoes_to base (S d) c st → undoes_to base (S d) c st';
  sc_v2 : storage_tree_v2_from st' = storage_tree_v2_from st;
  sc_v3 : account_tree_v3_from st' = account_tree_v3_from st;
}.

#[export] Instance scope_preorder : PreOrder scope.
Proof.
  split; [by constructor|]. intros s1 s2 s3 [S1 U1 A1 B1] [S2 U2 A2 B2]. constructor; [auto..|congruence|congruence].
Qed.

Lemma write_activations (st st' : VmStore) op :
  write_op op = true → apply_store_op st op = Some st' →
  storage_tree_v2_from st' = storage_tree_v2_from st ∧ account_tree_v3_from st' = account_tree_v3_from st.
Proof.
  destruct op; simpl; intros Hw Hop; try done; injection Hop as <-;
    unfold insert_account, get_mut, set_contract_code, merge_contract_storage, qa_pending_mut, insert_qa_pending,
      remove_qa_pending, registry_mut, write_accounts, write_qa, record_account, record_storage, record_qa, journaling;
    repeat (case_match; simplify_eq/=); done.
Qed.

Lemma writes_activations ops (st st' : VmStore) :
  Forall (λ op, write_op op = true) ops → run_store st ops = Some st' →
  storage_tree_v2_from st' = storage_tree_v2_from st ∧ account_tree_v3_from st' = account_tree_v3_from st.
Proof.
  intros Hops. revert st. unfold run_store. induction Hops as [|op ops Hop _ IH]; intros st Hr; simpl in Hr; [by simplify_eq|].
  apply bind_Some in Hr as (s1 & Hop1 & Hr). destruct (IH s1 Hr) as [-> ->]. by apply (write_activations st s1 op).
Qed.

Lemma writes_scope st st' : writes st st' → scope st st'.
Proof.
  intros (ops & Hops & Hr). constructor.
  - intros Hs. by apply (run_snaps ops st).
  - intros Hs base d c Hu. eapply run_undoes; [done|done|by apply writes_nest|done].
  - by apply (writes_activations ops).
  - by apply (writes_activations ops).
Qed.

Lemma checkpoint_activations (st : VmStore) :
  storage_tree_v2_from (checkpoint st).2 = storage_tree_v2_from st ∧
  account_tree_v3_from (checkpoint st).2 = account_tree_v3_from st.
Proof. unfold checkpoint, journaling. by destruct (0 <? _)%nat. Qed.

Lemma scope_drop st u : scope (checkpoint st).2 u → scope st (drop_checkpoint u).
Proof.
  intros [S U A B]. destruct (checkpoint_activations st) as [EA EB]. constructor; simpl; [| |congruence|congruence].
  - intros Hs. by apply drop_snaps, S, checkpoint_snaps.
  - intros Hs base d c Hu. apply (checkpoint_undoes base (Datatypes.S d)) in Hu; [|lia].
    apply U in Hu; [|by apply checkpoint_snaps]. destruct Hu. constructor; simpl; try done. lia.
Qed.

Lemma scope_revert st u : scope (checkpoint st).2 u → scope st (revert (checkpoint st).1 u).
Proof.
  intros [S U A B]. destruct (checkpoint_activations st) as [EA EB].
  destruct (revert_eq (checkpoint st).1 u) as (k & Erev). constructor; [| |rewrite Erev; simpl; congruence..].
  - intros Hs. by apply revert_snaps, S, checkpoint_snaps.
  - intros Hs base d c Hu. pose proof Hu as [Hl Hb _ _].
    apply (checkpoint_undoes base (Datatypes.S d)) in Hu; [|lia].
    apply U in Hu; [|by apply checkpoint_snaps]. apply (revert_undoes base (Datatypes.S d)); [done|lia|].
    unfold checkpoint. rewrite journaling_live by lia. done.
Qed.

(** Reverting to a checkpoint gives back the contents it was taken at. *)
Lemma scope_restores st u :
  sound st → scope (checkpoint st).2 u → alike (revert (checkpoint st).1 u) st ∧ sound (revert (checkpoint st).1 u).
Proof.
  intros Hs Hu. split; [|by apply (scope_revert st u)]. destruct (checkpoint_start st) as [Hstart Hsn].
  apply (sc_undoes _ _ Hu (Hsn Hs)) in Hstart as [_ _ _ Hun].
  destruct (revert_eq (checkpoint st).1 u) as (k & ->). apply Hun.
Qed.

(** A computation that ends in such a state unless the process panics. *)
Definition frames {A} (m : ST VmStore ExecFault A) : Prop :=
  ∀ st, (m st).1 ≠ Err ExecCrash → scope st (m st).2.

Lemma frames_writes {A} (m : ST VmStore ExecFault A) : (∀ st, writes st (m st).2) → frames m.
Proof. intros Hm st _. by apply writes_scope. Qed.

Lemma frames_bind {A B} (m : ST VmStore ExecFault A) (k : A → ST VmStore ExecFault B) :
  frames m → (∀ a, frames (k a)) → frames (m ≫= k).
Proof.
  intros Hm Hk st. unfold mbind, st_bind. specialize (Hm st). destruct (m st) as [[a|e] u]; simpl in *; [|naive_solver].
  intros Hn. etrans; [by apply Hm|by apply Hk].
Qed.

End Scopes.

(** ** The executor is nested *)

Section Frames.
Context `{Host} `{RegistryCodec} `{Iteration} `{TextOps} `{Crypto} `{HexText} `{PolicyJson}.
Context (pins : HostPins) (signing_chain_id : option Z) (error_text : nat → ExecutionError → bytes).

Section Run.
Context (b : BlockRun).

Lemma writes_settle_failed tx idx e p st : writes st (settle_failed error_text b tx idx e p st).2.
Proof.
  apply writes_bind; [done|intros a]. destruct (failed_charge b tx a) as [charge gas].
  apply writes_bind; [apply writes_modify, writes_get_mut|intros _].
  apply writes_bind; [apply writes_modify, writes_charge_failed|intros _; apply writes_receipt].
Qed.

Lemma settled_scope tx idx out p st u :
  scope (checkpoint st).2 u → (settle_ok b tx idx out p u).1 ≠ Err ExecCrash → scope st (settle_ok b tx idx out p u).2.
Proof.
  intros Hu. unfold settle_ok, record_receipt, st_some, mbind, st_bind.
  destruct (from_tx_outcome _ _ _ _ _ _ _ _) as [r|]; [|done]. intros _. by apply scope_drop.
Qed.

Lemma frames_run_one p idx tx : frames (run_one pins signing_chain_id error_text b p idx tx).
Proof.
  intros st. unfold run_one. pose proof (settled_scope tx idx) as Hok. pose proof (scope_revert st) as Hrev.
  specialize (Hok). destruct (checkpoint st) as [cp u] eqn:Ecp. simpl in *.
  pose proof (writes_execute pins signing_chain_id b tx (br_ctx b) u) as W1.
  destruct (execute_with_context _ _ _ _ _ u) as [[out|e] v]; simpl in *.
  - pose proof (writes_fees b tx idx (res_gas_used out) v) as W2.
    destruct (charge_fees _ _ _ _ v) as [[[]|e] w]; simpl in *.
    + apply (Hok out p st w). rewrite Ecp. apply writes_scope. by etrans.
    + intros _. etrans; [apply Hrev, writes_scope; by etrans|apply writes_scope, writes_settle_failed].
  - destruct e; [|done..]. intros _. etrans; [by apply Hrev, writes_scope|apply writes_scope, writes_settle_failed].
Qed.

Lemma frames_sequential batch p : frames (run_sequential pins signing_chain_id error_text b p batch).
Proof.
  revert p. induction batch as [|idx batch IH]; intros p; simpl; [by intros st _|].
  apply frames_bind; [|intros ?; apply IH]. apply frames_bind; [apply frames_writes, writes_some|intros ?; apply frames_run_one].
Qed.

Lemma frames_batch p batch : frames (run_batch pins signing_chain_id error_text b p batch).
Proof.
  intros st. unfold run_batch. destruct (parallel_batch b batch); [|apply frames_sequential].
  pose proof (scope_drop st) as Hdrop. pose proof (scope_revert st) as Hrev.
  destruct (checkpoint st) as [cp u]. simpl in *. pose proof (writes_attempt b H1 p batch u) as W.
  destruct (attempt_parallel b p batch u) as [[q|[e|]] v]; simpl in *; [|intros Hn|done].
  - intros _. by apply Hdrop, writes_scope.
  - etrans; [by apply Hrev, writes_scope|by apply frames_sequential].
Qed.

Lemma frames_batches batches p : frames (run_batches pins signing_chain_id error_text b p batches).
Proof.
  revert p. induction batches as [|batch batches IH]; intros p; simpl; [by intros st _|].
  apply frames_bind; [apply frames_batch|intros ?; apply IH].
Qed.

End Run.

Lemma frames_block ex height ts txs recipient tips :
  frames (execute_block_with_tips pins signing_chain_id error_text ex height ts txs recipient tips).
Proof.
  apply frames_bind; [apply frames_writes, writes_require|intros _]. apply frames_bind.
  { apply frames_writes. intros st. unfold pure_st. pose proof (quiet_open ex height ts st) as [Hw _].
    by destruct (open_block ex height ts st). }
  intros vm. apply frames_bind; [apply frames_batches|intros [gas rs]].
  apply frames_bind; [apply frames_writes, writes_some|intros ?; by intros st _].
Qed.

End Frames.

(** ** Tips that are left out *)

Section Tips.
Context `{Host} `{RegistryCodec} `{Iteration} `{TextOps} `{Crypto} `{HexText} `{PolicyJson}.
Context (pins : HostPins) (signing_chain_id : option Z) (error_text : nat → ExecutionError → bytes).

Definition set_tips (b : BlockRun) (tips : list Z) : BlockRun :=
  mkBlockRun (br_vm b) (br_ctx b) (br_policy b) (br_remainder b) (br_recipient b) (br_denom b) (br_failed_fee b)
    (br_exclude b) (br_txs b) tips.

Context (b : BlockRun) (tips : list Z) (Htips : ∀ i, tip_at (set_tips b tips) i = tip_at b i).

Lemma fees_tips tx idx gas : charge_fees (set_tips b tips) tx idx gas = charge_fees b tx idx gas.
Proof. unfold charge_fees. by rewrite Htips. Qed.

Lemma sequential_tips batch p st :
  run_sequential pins signing_chain_id error_text (set_tips b tips) p batch st =
  run_sequential pins signing_chain_id error_text b p batch st.
Proof.
  revert p st. induction batch as [|idx batch IH]; intros p st; [done|]. cbn [run_sequential].
  assert (∀ st, run_tx pins signing_chain_id error_text (set_tips b tips) p idx st =
    run_tx pins signing_chain_id error_text b p idx st) as Htx.
  { intros st'. unfold run_tx, mbind, st_bind, st_some.
    change (br_txs (set_tips b tips)) with (br_txs b). destruct (br_txs b !! idx) as [tx|]; [|done]. simpl.
    unfold run_one. destruct (checkpoint st') as [cp u]. simpl.
    destruct (execute_with_context _ _ _ _ _ u) as [[out|e] v]; [|reflexivity]. by rewrite fees_tips. }
  unfold mbind, st_bind. rewrite Htx. destruct (run_tx _ _ _ b p idx st) as [[q|e] u]; [apply IH|done].
Qed.

Lemma merge_tips rs p st : merge_all (set_tips b tips) p rs st = merge_all b p rs st.
Proof.
  revert p st. induction rs as [|[[[idx tx] view] gas] rs IH]; intros p st; [done|]. simpl.
  unfold mbind, st_bind. simpl. rewrite fees_tips.
  destruct (map_err _ (charge_fees b tx idx gas) (merge_into view st)) as [[[]|e] u]; [|done].
  destruct (record_receipt _ _ _ _ u) as [[q|e] v]; [apply IH|done].
Qed.

Lemma views_tips batch st : run_views (set_tips b tips) st batch = run_views b st batch.
Proof. induction batch as [|idx batch IH]; simpl; [done|]. by rewrite IH. Qed.

Lemma attempt_tips batch p st : attempt_parallel (set_tips b tips) p batch st = attempt_parallel b p batch st.
Proof.
  unfold attempt_parallel, read_views, mbind, st_bind. rewrite views_tips.
  destruct (run_views b st batch) as [rs|e]; [|done].
  destruct (st_require _ _ st) as [[[]|e] u]; [|done]. by rewrite merge_tips.
Qed.

Lemma batches_tips batches p st :
  run_batches pins signing_chain_id error_text (set_tips b tips) p batches st =
  run_batches pins signing_chain_id error_text b p batches st.
Proof.
  revert p st. induction batches as [|batch batches IH]; intros p st; [done|]. cbn [run_batches].
  assert (run_batch pins signing_chain_id error_text (set_tips b tips) p batch st =
    run_batch pins signing_chain_id error_text b p batch st) as Hb.
  { unfold run_batch. change (parallel_batch (set_tips b tips) batch) with (parallel_batch b batch).
    destruct (parallel_batch b batch); [|apply sequential_tips]. destruct (checkpoint st) as [cp u].
    rewrite attempt_tips. destruct (attempt_parallel b p batch u) as [[q|[e|]] v]; [done|apply sequential_tips|done]. }
  unfold mbind, st_bind. rewrite Hb. destruct (run_batch _ _ _ b p batch st) as [[q|e] u]; [apply IH|done].
Qed.

End Tips.

(** ** The steps of a block *)

Section RunBlock.
Context `{Host} `{RegistryCodec} `{TextOps} `{Crypto} `{HexText} `{PolicyJson} `{ReceiptCodec}.
Context (env : NodeEnv) (signing_chain_id : option Z) (error_text : nat → ExecutionError → bytes).
Context (pins : HostPins) (ex : BlockExecutor).

Lemma field_tips tips i : default 0 (tips_field tips !! i) = default 0 (tips !! i).
Proof.
  unfold tips_field. destruct (existsb _ tips) eqn:E; [done|]. destruct (tips !! i) as [t|] eqn:Ei; [|done]. simpl.
  destruct (Z.eqb_spec t 0) as [->|Ht]; [done|]. apply not_true_iff_false in E. destruct E. apply existsb_exists.
  exists t. split; [by apply list_elem_of_In, list_elem_of_lookup; exists i|]. by destruct (Z.eqb_spec t 0).
Qed.

Lemma field_length (tips : list Z) {A} (txs : list A) :
  length tips = length txs → bool_decide (tips_field tips = []) || (length (tips_field tips) =? length txs)%nat = true.
Proof.
  intros Hl. unfold tips_field. destruct (existsb _ tips); [|done]. apply orb_true_iff. right. by apply Nat.eqb_eq.
Qed.

Lemma block_tips `{Iteration} pins' height ts txs recipient tips st :
  length tips = length txs →
  execute_block_with_tips pins' signing_chain_id error_text ex height ts txs recipient (tips_field tips) st =
  execute_block_with_tips pins' signing_chain_id error_text ex height ts txs recipient tips st.
Proof.
  intros Hl. unfold execute_block_with_tips. rewrite (field_length tips txs Hl).
  rewrite (proj2 (Nat.eqb_eq _ _) Hl), orb_true_r. unfold mbind, st_bind, st_require, mret, st_ret, pure_st.
  destruct (open_block ex height ts st) as [vm u].
  assert (block_run ex vm height ts txs recipient (tips_field tips) =
    set_tips (block_run ex vm height ts txs recipient tips) (tips_field tips)) as ->.
  { unfold block_run. by destruct (fee_rule_at ex height). }
  rewrite batches_tips; [done|]. intros i. unfold tip_at, block_run. destruct (fee_rule_at ex height). simpl.
  apply field_tips.
Qed.

Lemma run_block_tips `{Iteration} set height ts txs by_ tips st :
  length tips = length txs →
  run_block signing_chain_id error_text pins ex set height ts txs by_ (tips_field tips) st =
  run_block signing_chain_id error_text pins ex set height ts txs by_ tips st.
Proof. intros Hl. unfold run_block, mbind, st_bind. by rewrite block_tips. Qed.

Lemma writes_reward `{Iteration} height by_ st : writes st (credit_reward ex height by_ st).
Proof.
  unfold credit_reward. destruct (0 <? _); [|done]. destruct (get st by_); [apply writes_get_mut|apply writes_insert].
Qed.

Lemma respects_reward height by_ : respects (credit_reward ex height by_).
Proof.
  intros s1 s2 Hs. unfold credit_reward. destruct (0 <? _); [|done]. rewrite (alike_get s1 s2 by_ Hs).
  destruct (get s2 by_); [by apply respects_get_mut|by apply respects_insert].
Qed.

Lemma writes_hook `{Iteration} height by_ st : writes st (apply_open_validator_block_hook pins height by_ st).
Proof. unfold apply_open_validator_block_hook. destruct (open_validator_params pins); [apply writes_registry|done]. Qed.

Lemma respects_hook height by_ : respects (apply_open_validator_block_hook pins height by_).
Proof.
  unfold apply_open_validator_block_hook. destruct (open_validator_params pins); [apply respects_registry|by intros s1 s2].
Qed.

Lemma writes_housekeeping `{Iteration} height st : writes st (apply_media_blob_block_housekeeping height st).2.
Proof. apply (bumps_housekeeping (mkTransaction 0 [] ClaimUnbond (mkAccessList [] []))). Qed.

Lemma same_run_block (i1 i2 : Iteration) set height ts txs by_ tips :
  same_run (run_block (H1 := i1) signing_chain_id error_text pins ex set height ts txs by_ tips)
    (run_block (H1 := i2) signing_chain_id error_text pins ex set height ts txs by_ tips).
Proof.
  apply same_bind; [apply same_execute|intros [gas rs]]. apply same_bind.
  { apply same_modify. intros s1 s2 Hs. eapply (twins_writes (H1 := i1)); [done|apply writes_reward..|].
    apply respects_reward, Hs. }
  intros _. apply same_bind.
  { apply (same_writes (H1 := i1)); [apply agrees_housekeeping|]. apply writes_housekeeping. }
  intros _. apply same_bind; [|intros _; apply same_ret].
  apply same_modify. intros s1 s2 Hs. eapply (twins_writes (H1 := i1)); [done|apply writes_hook..|].
  apply respects_hook, Hs.
Qed.

Lemma frames_run_block `{Iteration} set height ts txs by_ tips :
  frames (run_block signing_chain_id error_text pins ex set height ts txs by_ tips).
Proof.
  apply frames_bind; [apply frames_block|intros [gas rs]].
  apply frames_bind; [apply frames_writes, writes_modify, writes_reward|intros _].
  apply frames_bind; [apply frames_writes, writes_map_err, writes_housekeeping|intros _].
  apply frames_bind; [apply frames_writes, writes_modify, writes_hook|intros _]. by intros st _.
Qed.

(** A root touches the caches only. *)
Lemma root_frame `{Iteration} h (st st' : VmStore) r :
  state_root_at_height h st = Some (st', r) →
  contents st' = contents st ∧ undo_log st' = undo_log st ∧ scope st st'.
Proof.
  intros Hr. pose proof (state_root_frame _ _ _ Hr) as [Hc Hl]. simpl in Hc, Hl. split_and!; [done..|].
  unfold state_root_at_height, state_root in Hr. apply bind_Some in Hr as (k & _ & (p & _ & Heq)%bind_Some). simplify_eq/=.
  constructor; [done| |done|done]. intros _ base d c Hu. by eapply undoes_frame.
Qed.

Lemma same_leaves (c c' : Contents AllRegs) sd ids subs :
  same_contents c c' → committed_leaves c sd ids subs = committed_leaves c' sd ids subs.
Proof.
  intros [Ea Ec Es Eq Er]. unfold committed_leaves. f_equal; [f_equal|]; f_equal; apply list_omap_ext, Forall_Forall2_diag, Forall_true.
  - intros r. unfold reg_spec. by rewrite Er.
  - intros s. unfold qa_spec. by rewrite Eq.
  - intros a. rewrite (account_spec_ext c' c); [done|by rewrite ?Ea, ?Ec|by rewrite ?Ec|intros; by rewrite Es].
Qed.

(** The root is that of the contents. *)
Lemma same_root (i1 i2 : Iteration) ids subs h (s1 s2 : VmStore) :
  keys_separate ids subs → store_inv ids subs s1 → store_inv ids subs s2 → alike s1 s2 →
  storage_tree_v2_from s1 = storage_tree_v2_from s2 → account_tree_v3_from s1 = account_tree_v3_from s2 →
  ∃ t1 t2 r, state_root_at_height (H1 := i1) h s1 = Some (t1, r) ∧ state_root_at_height (H1 := i2) h s2 = Some (t2, r).
Proof.
  intros Hsep I1 I2 Hs E2 E3.
  destruct (state_root_inv (H1 := i1) ids subs Hsep _ (switch_inv ids subs h s1 I1)) as (t1 & R1 & _).
  destruct (state_root_inv (H1 := i2) ids subs Hsep _ (switch_inv ids subs h s2 I2)) as (t2 & R2 & _).
  exists t1, t2, (root_spec ids subs (contents s1) (cache_at h s1)). split; [exact R1|].
  assert (root_spec ids subs (contents s1) (cache_at h s1) = root_spec ids subs (contents s2) (cache_at h s2)) as ->; [|exact R2].
  unfold root_spec. destruct (cache_at_depths h s1) as [-> ->], (cache_at_depths h s2) as [-> ->].
  rewrite E2, E3. f_equal. by apply same_leaves.
Qed.

End RunBlock.

(** ** Checks *)

Section Checks.
Context `{Host} `{Crypto}.

Lemma leader_in e h x : leader e h = Some x → x ∈ validators e.
Proof.
  unfold leader, leader_at. destruct (leader_election e); [apply list_elem_of_lookup_2|].
  destruct (view e =? 0); [|apply list_elem_of_lookup_2].
  destruct (m ← vrf_proofs e !! h; leader_from_ecvrf_proofs (validators e) h (map_to_list m)) as [y|] eqn:E.
  - intros [= <-]. apply bind_Some in E as (m & _ & E). unfold leader_from_ecvrf_proofs in E.
    destruct (validators e) as [|v vs] eqn:Ev; [done|]. apply best_ecvrf_spec in E as (out & [?|[? _]] & _); done.
  - unfold leader_from_vrf. destruct (validators e); [done|]. apply list_elem_of_lookup_2.
Qed.

Lemma may_propose_in e h x : may_propose e h x = true → x ∈ validators e.
Proof. unfold may_propose, may_propose_at, is_validator. by case_bool_decide. Qed.

Lemma verify_signed_all policy b index l :
  (∀ j s, l !! j = Some s → verifies policy s = true ∧ priority_tip_at b (index + j) = st_priority_tip s) →
  verify_signed policy b index (zip (map st_tx l) (map st_signature l)) = Ok ().
Proof.
  revert index. induction l as [|s l IH]; intros index Hl; simpl; [done|].
  destruct (Hl 0%nat s eq_refl) as [Hv Ht]. rewrite Nat.add_0_r in Ht. unfold verifies, verify_with in Hv. rewrite Ht.
  destruct (verify_signature_with_tip _ _ _ _ _); [|done]. apply IH. intros j x Hx. rewrite Nat.add_succ_comm. by apply Hl.
Qed.

Lemma verify_signed_sound policy b index l :
  verify_signed policy b index l = Ok () →
  ∀ j tx sig, l !! j = Some (tx, sig) →
    verify_signature_with_tip tx sig (tx_sender tx) policy (priority_tip_at b (index + j)) = Ok ().
Proof.
  revert index. induction l as [|[tx sig] l IH]; intros index Hv j tx' sig' Hj; simpl in *; [done|].
  destruct (verify_signature_with_tip tx sig _ _ _) as [[]|] eqn:E; [|done].
  destruct j as [|j]; simpl in Hj; [injection Hj as <- <-; by rewrite Nat.add_0_r|].
  rewrite <- Nat.add_succ_comm. by apply (IH (S index)).
Qed.

End Checks.

(** ** Properties *)

Module BlockLaws.
Section Laws.
Context `{Host} `{RegistryCodec} `{TextOps} `{Crypto} `{HexText} `{PolicyJson} `{ReceiptCodec}.
Context (env : NodeEnv) (signing_chain_id : option Z) (error_text : nat → ExecutionError → bytes).
Context (pins : HostPins) (ex : BlockExecutor) (cfg : MempoolConfig) (process_policy : TxSigPolicy).

Notation produce i := (produce_proposal_with_fallback (H1 := i) env signing_chain_id error_text pins ex cfg process_policy).
Notation propose i := (build_proposal (H1 := i) signing_chain_id error_text pins ex cfg process_policy).
Notation run i := (run_block (H1 := i) signing_chain_id error_text pins ex).
Notation import i := (import_block (H1 := i) env signing_chain_id error_text pins ex).

Lemma propose_keeps `{Iteration} now bp chain e l pool st r pool' st' :
  sound st → propose _ now bp chain e l pool st = Some (r, pool', st') → alike st' st ∧ sound st'.
Proof.
  intros Hs. unfold Blocks.build_proposal. intros (root & _ & Hp)%bind_Some. revert Hp.
  pose proof (scope_restores st) as Hback. destruct (checkpoint st) as [cp u]. simpl in Hback.
  match goal with |- context [run_block ?a ?b ?c ?d ?e ?f ?g ?h ?i ?j u] =>
    pose proof (frames_run_block a b c d e f g h i j u) as Hf; destruct (run_block a b c d e f g h i j u) as [[rs|[err|]] v] end;
    simpl in Hf; [| |done].
  - intros ([w sroot] & Hroot & (rr & _ & Heq)%bind_Some)%bind_Some. injection Heq as <- <- <-.
    apply Hback; [done|]. etrans; [by apply Hf|]. by eapply root_frame.
  - intros [= <- <- <-]. apply Hback; [done|]. by apply Hf.
Qed.

Lemma produce_keeps `{Iteration} now bp chain pool st e fallback r pool' st' :
  sound st → produce _ now bp chain pool st e fallback = Some (r, pool', st') → alike st' st ∧ sound st'.
Proof.
  intros Hs. unfold produce_proposal_with_fallback. intros (scheduled & _ & Hp)%bind_Some. revert Hp.
  destruct (_ && _); [by intros [= <- <- <-]|]. intros ([drained pool1] & _ & Hp)%bind_Some. revert Hp.
  destruct (filter _ drained) as [|s l]; [by intros [= <- <- <-]|]. by apply propose_keeps.
Qed.

(** Proposing a block leaves the tip's state as it was, whether or not a block comes
    of it: after [produce_proposal] the accounts, code, storage, pending items and
    registries are those before it, so a proposal that is never committed has no effect. *)
Theorem proposing_keeps_tip `{Iteration} now bp chain pool st e fallback r pool' st' :
  sound st → produce _ now bp chain pool st e fallback = Some (r, pool', st') → alike st' st ∧ sound st'.
Proof. apply produce_keeps. Qed.

(** How a proposal came about. *)
Record produced (i : Iteration) (now : Z) (bp : BlockProducer) (chain : ChainState) (st : VmStore)
    (e : ConsensusEngine) (prop : ProducedProposal) (signed : list SignedTransaction) : Prop := {
  pr_signed : Forall (λ s, verifies (block_sig_policy env ex (wrap_add u64_max (cs_height chain) 1)) s = true) signed;
  pr_txs : transactions (pp_block prop) = map st_tx signed;
  pr_sigs : signatures (pp_block prop) = map st_signature signed;
  pr_tips : priority_tips (pp_block prop) = tips_field (map st_priority_tip signed);
  pr_parent : parent_hash (header (pp_block prop)) = cs_latest_hash chain;
  pr_height : height (header (pp_block prop)) = wrap_add u64_max (cs_height chain) 1;
  pr_time : timestamp (header (pp_block prop)) =
    Z.max now (sat_add u64_max (match get_block_by_height (cs_height chain) chain with
                                | Some b => timestamp (header b) | None => 0 end) 1);
  pr_proposer : proposer (header (pp_block prop)) = bp_proposer bp;
  pr_turn : leader e (wrap_add u64_max (cs_height chain) 1) = Some (bp_proposer bp) ∨
    may_propose e (wrap_add u64_max (cs_height chain) 1) (bp_proposer bp) = true;
  pr_tx_root : tx_root (transactions (pp_block prop)) = Some (bh_tx_root (header (pp_block prop)));
  pr_receipts : receipts_root (pp_receipts prop) = Some (bh_receipts_root (header (pp_block prop)));
  pr_blobs : blobs_root (header (pp_block prop)) =
    if match bp_blobs_root_header_from bp with Some from => from <=? height (header (pp_block prop)) | None => false end
    then Some (blobs_root_of_transactions (transactions (pp_block prop))) else None;
  pr_run : ∃ u w,
    run i (validators e) (height (header (pp_block prop))) (timestamp (header (pp_block prop)))
      (transactions (pp_block prop)) (bp_proposer bp) (priority_tips (pp_block prop)) (checkpoint st).2
      = (Ok (pp_receipts prop), u) ∧
    state_root_at_height (H1 := i) (height (header (pp_block prop))) u = Some (w, bh_state_root (header (pp_block prop))) ∧
    pp_new_state prop = snapshot w;
}.

Lemma produced_spec (i : Iteration) now bp chain pool st e fallback prop pool' st' :
  produce i now bp chain pool st e fallback = Some (Some prop, pool', st') →
  ∃ signed, produced i now bp chain st e prop signed.
Proof.
  unfold produce_proposal_with_fallback. intros (scheduled & Hlead & Hp)%bind_Some. revert Hp.
  destruct (negb (bool_decide (scheduled = _)) && _) eqn:Eturn; [done|].
  assert (leader e (wrap_add u64_max (cs_height chain) 1) = Some (bp_proposer bp) ∨
    may_propose e (wrap_add u64_max (cs_height chain) 1) (bp_proposer bp) = true) as Hturn.
  { destruct (decide (scheduled = bp_proposer bp)) as [<-|Hne]; [by left|]. right.
    rewrite bool_decide_false in Eturn by done. simpl in Eturn. apply negb_false_iff, andb_true_iff in Eturn as [_ ?]. done. }
  intros ([drained pool1] & _ & Hp)%bind_Some. revert Hp.
  destruct (filter _ drained) as [|s0 l] eqn:Ef; [done|]. set (signed := s0 :: l) in *.
  assert (Forall (λ s, verifies (block_sig_policy env ex (wrap_add u64_max (cs_height chain) 1)) s = true) signed) as Hall.
  { rewrite <- Ef. apply Forall_forall. by intros s [Hs _]%list_elem_of_filter. }
  unfold Blocks.build_proposal. intros (root & Hroot & Hp)%bind_Some. revert Hp.
  destruct (checkpoint st) as [cp v] eqn:Ecp.
  match goal with |- context [run_block ?a ?b ?c ?d ?e ?f ?g ?h ?i ?j v] =>
    destruct (run_block a b c d e f g h i j v) as [[rs|[err|]] u] eqn:Erun end; [|done..].
  intros ([w sroot] & Hsroot & (rr & Hrr & Heq)%bind_Some)%bind_Some. injection Heq as <- <- <-.
  exists signed. constructor; simpl; try done. exists u, w. split_and!; [|done..].
  rewrite Ecp. simpl. rewrite run_block_tips; [done|]. clear. induction l; simpl in *; congruence.
Qed.

(** The state a block leaves, from [st]. *)
Notation leaves_of i set b st :=
  (run i set (height (header b)) (timestamp (header b)) (transactions b) (proposer (header b)) (priority_tips b) st).2.

(** After the block neither store has an account at the tree key of a registry or of a
    pending item, and the caches of both are in order. *)
Definition roots_meaningful (i1 i2 : Iteration) (set : list AccountId) (b : Block) (s1 s2 : VmStore) : Prop :=
  ∃ ids subs, keys_separate ids subs ∧ store_inv ids subs (leaves_of i1 set b s1) ∧ store_inv ids subs (leaves_of i2 set b s2).

Lemma produced_checks i now now' bp chain st e prop signed :
  produced i now bp chain st e prop signed →
  0 ≤ cs_height chain < u64_max → tip_timestamp chain ≤ u64_max →
  get_block_by_height (cs_height chain) chain = cs_latest_block chain →
  timestamp (header (pp_block prop)) ≤ sat_add u64_max now' MAX_BLOCK_TIMESTAMP_FUTURE_SECS →
  check_block env ex now' (pp_block prop) (validators e) (bp_proposer bp) (tip_timestamp chain) = Ok ().
Proof.
  intros [Hall Htxs Hsigs Htips Hpar Hh Hts Hby Hturn Htr Hrr Hbl _] Hrange Htip Hlatest Hfuture.
  unfold check_block, validate_block_timestamp.
  assert (tip_timestamp chain ≤ timestamp (header (pp_block prop))) as Hle.
  { rewrite Hts, Hlatest. unfold tip_timestamp in *. destruct (cs_latest_block chain); unfold sat_add; lia. }
  rewrite (proj2 (Z.ltb_ge _ _) Hle), andb_false_r, (proj2 (Z.ltb_ge _ _) Hfuture), Htr.
  rewrite bool_decide_true by done. simpl. unfold verify_block_tx_signatures.
  rewrite Htxs, Hsigs, !length_map, Nat.eqb_refl. simpl. rewrite Hh, Hby.
  rewrite verify_signed_all.
  2: { intros j s Hj. split; [by eapply (Forall_lookup_1 _ _ _ _ Hall Hj)|]. unfold priority_tip_at.
       rewrite Htips. simpl. rewrite field_tips, list_lookup_fmap, Hj. done. }
  assert (bp_proposer bp ∈ validators e) as Hin.
  { destruct Hturn; [by eapply leader_in|by eapply may_propose_in]. }
  rewrite (bool_decide_true (bp_proposer bp ∈ validators e)), (bool_decide_true (bp_proposer bp = bp_proposer bp)) by done.
  pose proof (field_length (map st_priority_tip signed) (map st_tx signed)) as Hlen. rewrite !length_map in Hlen.
  specialize (Hlen eq_refl). rewrite <- Htips in Hlen.
  assert (negb (bool_decide (priority_tips (pp_block prop) = [])) &&
    negb (length (priority_tips (pp_block prop)) =? length signed)%nat = false) as ->.
  { apply orb_true_iff in Hlen as [-> | ->]; [done|]. by rewrite andb_false_r. }
  by destruct (negb _ && bool_decide (_ = [])).
Qed.

(** The importer repeats the proposer's run. *)
Lemma replayed (i1 i2 : Iteration) set b rs st st2 u w ids subs :
  run i1 set (height (header b)) (timestamp (header b)) (transactions b) (proposer (header b)) (priority_tips b)
    (checkpoint st).2 = (Ok rs, u) →
  state_root_at_height (H1 := i1) (height (header b)) u = Some (w, bh_state_root (header b)) →
  receipts_root rs = Some (bh_receipts_root (header b)) →
  blobs_root (header b) = expected_blobs ex (height (header b)) (transactions b) →
  twins st st2 → storage_tree_v2_from st2 = storage_tree_v2_from st → account_tree_v3_from st2 = account_tree_v3_from st →
  keys_separate ids subs → store_inv ids subs (leaves_of i1 set b (checkpoint st).2) →
  store_inv ids subs (leaves_of i2 set b (snapshot st2)) →
  ∃ u2 st2',
    run i2 set (height (header b)) (timestamp (header b)) (transactions b) (proposer (header b)) (priority_tips b)
      (snapshot st2) = (Ok rs, u2) ∧
    check_roots (H1 := i2) ex b rs u2 = Ok st2' ∧ alike st2' w.
Proof.
  intros Hrun Hroot Hrr Hbl (Ha & Hs1 & Hs2) E2 E3 Hsep I1 I2.
  destruct (same_run_block signing_chain_id error_text pins ex i1 i2 set (height (header b)) (timestamp (header b))
    (transactions b) (proposer (header b)) (priority_tips b) (checkpoint st).2 (snapshot st2)) as [Hres Hfin].
  { split_and!; [by rewrite checkpoint_alike|by apply checkpoint_snaps|apply snaps_none]. }
  pose proof (frames_run_block (H6 := i1) signing_chain_id error_text pins ex set (height (header b)) (timestamp (header b))
    (transactions b) (proposer (header b)) (priority_tips b) (checkpoint st).2) as F1.
  pose proof (frames_run_block (H6 := i2) signing_chain_id error_text pins ex set (height (header b)) (timestamp (header b))
    (transactions b) (proposer (header b)) (priority_tips b) (snapshot st2)) as F2.
  rewrite Hrun in Hres, Hfin, F1, I1. destruct (run i2 set _ _ _ _ _ (snapshot st2)) as [r2 u2]. simpl in *. subst r2.
  destruct (F1 ltac:(done)) as [_ _ A1 B1], (F2 ltac:(done)) as [_ _ A2 B2].
  destruct (checkpoint_activations st) as [CA CB].
  destruct (same_root i1 i2 ids subs (height (header b)) u u2 Hsep I1 I2) as (t1 & t2 & r & R1 & R2);
    [apply Hfin|simpl in *; congruence|simpl in *; congruence|].
  rewrite Hroot in R1. injection R1 as <- <-. exists u2, t2. split; [done|].
  unfold check_roots. rewrite Hrr, R2, !bool_decide_true by done. split; [done|].
  apply root_frame in Hroot as (Hc1 & _ & _), R2 as (Hc2 & _ & _). unfold alike. rewrite Hc1, Hc2. symmetry. apply Hfin.
Qed.

(** C2: what one node proposes, every node accepts. Whatever transactions the proposer
    drained from its pool, a node with the same tip, the same rules and tree activations
    and the same view of whose turn it is, whose clock is not further behind the block
    than the future limit, imports the block with the receipts the proposer computed and
    is left with the contents of the proposer's new state. Journals and hash map orders
    may differ, and so may the caches, as long as they are in order and the keys of the
    state tree do not coincide. *)
Theorem produced_block_imports (i1 i2 : Iteration) now now' bp chain pool pool' st st' st2 e e' fallback prop :
  produce i1 now bp chain pool st e fallback = Some (Some prop, pool', st') →
  twins st st2 → storage_tree_v2_from st2 = storage_tree_v2_from st → account_tree_v3_from st2 = account_tree_v3_from st →
  0 ≤ cs_height chain < u64_max → tip_timestamp chain ≤ u64_max →
  get_block_by_height (cs_height chain) chain = cs_latest_block chain →
  timestamp (header (pp_block prop)) ≤ sat_add u64_max now' MAX_BLOCK_TIMESTAMP_FUTURE_SECS →
  bp_blobs_root_header_from bp = blobs_root_header_from (ex_vm ex) →
  validators e' = validators e → (∀ h, leader e' h = leader e h) → (∀ h x, may_propose e' h x = may_propose e h x) →
  roots_meaningful i1 i2 (validators e) (pp_block prop) (checkpoint st).2 (snapshot st2) →
  ∃ st2', import i2 now' (pp_block prop) (cs_latest_hash chain) (cs_height chain) st2 e' (tip_timestamp chain)
      = Ok (st2', pp_receipts prop) ∧ alike st2' (pp_new_state prop).
Proof.
  intros Hprod Htw E2 E3 Hrange Htip Hlatest Hfuture Hblobs Ev El Em (ids & subs & Hsep & I1 & I2).
  destruct (produced_spec i1 now bp chain pool st e fallback prop pool' st' Hprod) as (signed & Hp).
  pose proof (produced_checks i1 now now' bp chain st e prop signed Hp Hrange Htip Hlatest Hfuture) as Hcheck.
  destruct Hp as [_ _ _ _ Hpar Hh _ Hby Hturn _ Hrr Hbl (u & w & Hrun & Hroot & Hnew)].
  rewrite <- Hby, <- Hh in *. unfold import_block.
  assert (chains_to (pp_block prop) (cs_latest_hash chain) (cs_height chain) = true) as ->.
  { unfold chains_to. by rewrite Hpar, <- Hh, bool_decide_true, Z.eqb_refl. }
  assert (proposer (header (pp_block prop)) ∈ validators e) as Hin.
  { destruct Hturn; [by eapply leader_in|by eapply may_propose_in]. }
  rewrite Ev. destruct (validators e) as [|v0 vs] eqn:Evs; [by apply elem_of_nil in Hin|]. rewrite <- Evs in *.
  rewrite Em, El. cbn [negb].
  assert ((if may_propose e (height (header (pp_block prop))) (proposer (header (pp_block prop)))
    then Some (proposer (header (pp_block prop))) else leader e (height (header (pp_block prop))))
    = Some (proposer (header (pp_block prop)))) as ->.
  { destruct Hturn as [->| ->]; [|done]. by destruct (may_propose _ _ _). }
  unfold validate_and_execute_block. rewrite Hcheck.
  destruct (replayed i1 i2 (validators e) (pp_block prop) (pp_receipts prop) st st2 u w ids subs)
    as (u2 & st2' & -> & Hck & Ha); try done.
  { rewrite Hbl, Hblobs. done. }
  exists st2'. rewrite Hck. split; [done|]. by rewrite Hnew.
Qed.

(** What an accepted block went through. *)
Lemma import_ok (i : Iteration) now b our_hash our_height st e parent_ts st' rs :
  import i now b our_hash our_height st e parent_ts = Ok (st', rs) →
  chains_to b our_hash our_height = true ∧ proposer (header b) ∈ validators e ∧
  (may_propose e (height (header b)) (proposer (header b)) = true ∨
   leader e (height (header b)) = Some (proposer (header b))) ∧
  validate_block_timestamp now b parent_ts = Ok () ∧ verify_block_tx_signatures env ex b = Ok () ∧
  tx_root (transactions b) = Some (bh_tx_root (header b)) ∧
  ∃ u, run i (validators e) (height (header b)) (timestamp (header b)) (transactions b) (proposer (header b))
         (priority_tips b) (snapshot st) = (Ok rs, u) ∧
    receipts_root rs = Some (bh_receipts_root (header b)) ∧
    state_root_at_height (H1 := i) (height (header b)) u = Some (st', bh_state_root (header b)).
Proof.
  unfold import_block. destruct (chains_to b our_hash our_height); [|done]. cbn [negb].
  destruct (validators e) as [|v0 vs] eqn:Evs; [done|]. rewrite <- Evs. clear v0 vs Evs.
  destruct (if may_propose _ _ _ then _ else _) as [expected|] eqn:El; [|done].
  unfold validate_and_execute_block. destruct (check_block _ _ _ _ _ _ _) as [[]|f] eqn:Ec; [|done].
  destruct (run_block _ _ _ _ _ _ _ _ _ _ _) as [[rs'|[]] u] eqn:Er; [|done..].
  destruct (check_roots ex b rs' u) as [w|] eqn:Ek; [|done]. intros [= <- <-]. revert Ec Ek. unfold check_block, check_roots.
  destruct (validate_block_timestamp now b parent_ts) as [[]|]; [|done].
  destruct (tx_root (transactions b)) as [root|]; [|done]. case_bool_decide as Htr; simpl; [|done].
  destruct (verify_block_tx_signatures env ex b) as [[]|]; [|done]. destruct (_ && _); [done|].
  case_bool_decide as Hin; simpl; [|done]. case_bool_decide as Hl; simpl; [|done]. intros _.
  destruct (receipts_root rs') as [rr|]; [|done]. case_bool_decide as Hrr; simpl; [|done].
  destruct (state_root_at_height _ u) as [[st1 sroot]|] eqn:Hs; [|done]. case_bool_decide as Hsr; simpl; [|done].
  case_bool_decide; simpl; [|done]. intros [= <-]. subst. split_and!; try done.
  - destruct (may_propose e _ _) eqn:Em; [by left|]. right. by rewrite El.
  - exists u. by split_and!.
Qed.

(** C10: an imported block is what its header says. It extends our tip, its proposer is a
    validator whose turn it is, its time is neither before its parent's nor too far
    ahead, each transaction carries a valid signature by its sender over the tip it pays
    wherever the rules ask for signatures (or the block has any), and the header's roots
    are those of the transactions, of the receipts and of the state that the block's
    execution on our state gives. *)
Theorem import_sound (i : Iteration) now b our_hash our_height st e parent_ts st' rs :
  import i now b our_hash our_height st e parent_ts = Ok (st', rs) → 0 < height (header b) →
  parent_hash (header b) = our_hash ∧ height (header b) = wrap_add u64_max our_height 1 ∧
  proposer (header b) ∈ validators e ∧
  (may_propose e (height (header b)) (proposer (header b)) = true ∨
   leader e (height (header b)) = Some (proposer (header b))) ∧
  parent_ts ≤ timestamp (header b) ≤ sat_add u64_max now MAX_BLOCK_TIMESTAMP_FUTURE_SECS ∧
  (block_sigs_from env (ex_history ex) ≤ height (header b) ∨ signatures b ≠ [] →
   length (signatures b) = length (transactions b) ∧
   ∀ j tx sig, transactions b !! j = Some tx → signatures b !! j = Some sig →
     verify_signature_with_tip tx sig (tx_sender tx) (block_sig_policy env ex (height (header b))) (priority_tip_at b j)
       = Ok ()) ∧
  tx_root (transactions b) = Some (bh_tx_root (header b)) ∧
  receipts_root rs = Some (bh_receipts_root (header b)) ∧
  ∃ u, run i (validators e) (height (header b)) (timestamp (header b)) (transactions b) (proposer (header b))
         (priority_tips b) (snapshot st) = (Ok rs, u) ∧ alike st' u ∧
    state_root_at_height (H1 := i) (height (header b)) u = Some (st', bh_state_root (header b)).
Proof.
  intros Himp Hpos. apply import_ok in Himp as (Hch & Hin & Hturn & Hts & Hsig & Htr & u & Hrun & Hrr & Hsr).
  apply andb_true_iff in Hch as [Hp%bool_decide_eq_true Hh%Z.eqb_eq]. split_and!; try done.
  - revert Hts. unfold validate_block_timestamp. rewrite (proj2 (Z.ltb_lt _ _) Hpos). simpl.
    by destruct (Z.ltb_spec (timestamp (header b)) parent_ts).
  - revert Hts. unfold validate_block_timestamp. destruct (_ && _); [done|].
    by destruct (Z.ltb_spec (sat_add u64_max now MAX_BLOCK_TIMESTAMP_FUTURE_SECS) (timestamp (header b))).
  - intros Hreq. revert Hsig. unfold verify_block_tx_signatures.
    destruct (negb _ && _) eqn:Er.
    { apply andb_true_iff in Er as [Er%negb_true_iff%Z.leb_gt Es%bool_decide_eq_true]. destruct Hreq; [lia|done]. }
    destruct (Nat.eqb_spec (length (signatures b)) (length (transactions b))) as [Hl|]; simpl; [|done].
    intros Hv. split; [done|]. intros j tx sig Htx Hsg. apply (verify_signed_sound _ b 0 _ Hv).
    apply lookup_zip_with_Some. by exists tx, sig.
  - exists u. split_and!; try done. apply root_frame in Hsr as (Hc & _). unfold alike. by rewrite Hc.
Qed.

(** Two nodes whose states agree and that accept the same block agree on its receipts
    and on the state after it, whatever their clocks, caches and hash map orders. *)
Theorem importers_agree (i1 i2 : Iteration) now1 now2 b hash1 hash2 height1 height2 st1 st2 e1 e2 ts1 ts2 st1' st2' rs1 rs2 :
  twins st1 st2 → validators e1 = validators e2 →
  import i1 now1 b hash1 height1 st1 e1 ts1 = Ok (st1', rs1) →
  import i2 now2 b hash2 height2 st2 e2 ts2 = Ok (st2', rs2) →
  rs1 = rs2 ∧ twins st1' st2'.
Proof.
  intros (Ha & Hs1 & Hs2) Ev I1 I2.
  apply import_ok in I1 as (_ & _ & _ & _ & _ & _ & u1 & R1 & _ & T1).
  apply import_ok in I2 as (_ & _ & _ & _ & _ & _ & u2 & R2 & _ & T2).
  destruct (same_run_block signing_chain_id error_text pins ex i1 i2 (validators e1) (height (header b)) (timestamp (header b))
    (transactions b) (proposer (header b)) (priority_tips b) (snapshot st1) (snapshot st2)) as [Hr (Hf & F1 & F2)].
  { split_and!; [done|apply snaps_none..]. }
  rewrite Ev in R1. rewrite Ev in Hr, Hf, F1, F2. rewrite R1 in Hr, Hf, F1. rewrite R2 in Hr, Hf, F2. simpl in *. injection Hr as ->. split; [done|].
  apply root_frame in T1 as (C1 & L1 & _), T2 as (C2 & L2 & _).
  split_and!; unfold alike, sound; [by rewrite C1, C2|by rewrite L1|by rewrite L2].
Qed.

End Laws.
End BlockLaws.
