(* ===== verification/BlocksBehaviours.v ===== *)
(** * Blocks on concrete nodes

    The laws of [BlocksLaws.v] on a small chain, the fee eras of the public testnet, and
    the bodies a block's header does not tell apart. *)

From S2P Require Import Prelude Types Names Governance Blobs SampleMarket SlashAppeals Signatures OpenValidators Consensus Words Bytecode Qa Merkle Store Tokenomics StoreLaws StoreUndo Scheduler Interp Vm VmWrites VmAgree Executor ExecutorRuns ExecutorNonces ExecutorBehaviours Mempool MempoolLaws MempoolDrain Chain Blocks BlocksLaws.

(** ** Merkle roots of lists *)

Module RootLaws.
Section Laws.
Context `{Host}.

Lemma merkle_level_length l : length (merkle_level l) = Nat.div2 (S (length l)).
Proof.
  revert l. fix IH 1. intros [|a [|b l]]; [done|done|]. simpl. by rewrite IH.
Qed.

Lemma merkle_level_shorter a b l : (0 < length (merkle_level (a :: b :: l)) < length (a :: b :: l))%nat.
Proof.
  rewrite merkle_level_length, Nat.div2_div. cbn [length]. set (n := S (S (S (length l)))).
  pose proof (Nat.div_mod_eq n 2). pose proof (Nat.mod_upper_bound n 2). lia.
Qed.

(** The fuel of the roots is enough. *)
Lemma merkle_root_total fuel l : (0 < length l ≤ fuel)%nat → is_Some (merkle_root_impl fuel l).
Proof.
  revert l. induction fuel as [|fuel IH]; intros l Hl; [lia|]. simpl. destruct l as [|a [|b l]]; [simpl in *; lia|by eexists|].
  apply IH. pose proof (merkle_level_shorter a b l). lia.
Qed.

(** The roots of a block always exist: the recursion over the levels of the tree ends
    for every list of transactions and of receipts. *)
Theorem block_roots_total `{ReceiptCodec} txs rs : is_Some (tx_root txs) ∧ is_Some (receipts_root rs).
Proof.
  split.
  - destruct txs as [|tx txs]; [by eexists|]. apply merkle_root_total. rewrite length_map. simpl. lia.
  - destruct rs as [|r rs]; [by eexists|]. apply merkle_root_total. rewrite length_map. simpl. lia.
Qed.

(** A header does not determine the body of its block. Where the number of
    transactions at the last pairing is odd the last one is paired with itself, so a body
    with the last transaction repeated has the same transaction root and the block the
    same hash. *)
Theorem repeated_tx_same_hash h a b c :
  let short := mkBlock h [a; b; c] [] [] in
  let long := mkBlock h [a; b; c; c] [] [] in
  tx_root (transactions short) = tx_root (transactions long) ∧ block_hash short = block_hash long ∧ short ≠ long.
Proof. split_and!; done. Qed.

End Laws.
End RootLaws.

(** ** The testnet's fee eras *)

Module EraLaws.

(** The executor with the testnet's rules. *)
Definition testnet_executor : BlockExecutor :=
  mkExecutor (vm_with_history new_vm (Some boing_testnet_history)) boing_testnet_fee_policy (Some boing_testnet_history).

(** The rules a node replays the public testnet with: the first 26 blocks split the
    fees 70/20/10 and leave the remainder to the proposer; the treasury takes everything
    after that; gas costs in full up to block 1187 and one percent of it from 1188 on;
    amounts count base units from block 1050 on. *)
Theorem testnet_fee_eras height :
  0 ≤ height →
  fee_rule_at testnet_executor height =
    (if height <? 27 then (legacy_proposer_split, RemValidators)
     else if height <? 1188 then (treasury_default, RemTreasury)
     else (boing_testnet_fee_policy, RemTreasury)) ∧
  ex_denomination_at testnet_executor height = (if height <? 1050 then WholeBoing else BaseUnits).
Proof.
  intros H0. split.
  - unfold fee_rule_at, micro_fees_active, gated, testnet_executor, fee_era_at. simpl.
    unfold BOING_TESTNET_TREASURY_FEES_FROM, BOING_TESTNET_MICRO_FEES_FROM.
    destruct (Z.leb_spec 27 height); simpl.
    + destruct (Z.leb_spec 1188 height); simpl; repeat (case_match; try lia); done.
    + rewrite decide_True by done. simpl. repeat (case_match; try lia); done.
  - unfold ex_denomination_at, gated. simpl. unfold BOING_TESTNET_BASE_UNITS_FROM. repeat (case_match; try lia); done.
Qed.

Lemma testnet_fee_eras_witness : fee_rule_at testnet_executor 30 = (treasury_default, RemTreasury).
Proof. destruct (testnet_fee_eras 30) as [-> _]; [done|]. reflexivity. Defined.

End EraLaws.

(** ** Two nodes *)

Module SampleNodes.
Import SampleVm SampleBlocks.

#[local] Existing Instances sample_host codec hex no_json.
#[local] Existing Instances SampleQa.plain_text SampleSigs.open_crypto.

#[local] Instance plain_receipts : ReceiptCodec := {|
  bincode_receipt r := rc_tx_id r ++ [if rc_success r then 1 else 0];
|}.

Definition here : NodeEnv := mkNodeEnv (Some 6913) None None.
Definition limits : MempoolConfig := mkMempoolConfig 16 4 100 new_rules false false false.
Definition policy : TxSigPolicy := mkTxSigPolicy (Some 6913) true.

Definition signed (tx : Transaction) (tip : Z) : SignedTransaction := mkSignedTransaction tx (replicate 64 1) tip.

Definition pool : MempoolInner :=
  reinsert (H2 := SampleStore.in_order) limits policy [signed (pays alice bob 70) 3] new_inner.

Definition tip : ChainState := new_chain proposer.

Definition alone : ConsensusEngine := mkEngine [proposer] 0 0 None ∅ RoundRobin [] ∅ [].

Notation node i :=
  (produce_proposal_with_fallback (H1 := i) here None no_text pins new_executor limits policy 50 (new_producer proposer)
    tip pool two_senders alone false).

Definition no_block : Block := genesis_block proposer.

Definition outcome := default (None, pool, two_senders) (node SampleStore.in_order).

Definition proposal : ProducedProposal := default (mkProposal no_block [] two_senders) outcome.1.1.

Lemma node_proposes : node SampleStore.in_order = Some (Some proposal, outcome.1.2, outcome.2).
Proof. vm_compute. reflexivity. Qed.

(** Accounts only, and no root computed yet. *)
Lemma plain_inv ids (st : VmStore) :
  bool_decide (dom (accounts (contents st)) ⊆ ids) = true → contract_code (contents st) = ∅ →
  contract_storage (contents st) = ∅ → qa_pending (contents st) = ∅ → dirty_accounts (cache st) = ∅ →
  dirty_qa (cache st) = ∅ → root_synced (cache st) = false →
  forallb (λ u, match u with
    | UndoAccount id _ | UndoCode id _ => bool_decide (id ∈ ids)
    | UndoStorage k _ => bool_decide (k.1 ∈ ids)
    | UndoQaPending _ _ => false
    | UndoRegistry _ _ => true end) (journal (undo_log st)) = true →
  store_inv ids ∅ st.
Proof.
  intros Ha%bool_decide_eq_true Hc Hs Hq Hd Hdq Hr Hj. constructor.
  - unfold scoped. rewrite Hc, Hs, Hq, !dom_empty_L. split_and!; [done|set_solver..].
  - constructor; [rewrite Hd; set_solver|rewrite Hdq; set_solver|by rewrite Hr].
  - apply Forall_forall. intros u Hu%list_elem_of_In. apply (proj1 (forallb_forall _ _) Hj) in Hu.
    destruct u; simpl; by try apply bool_decide_eq_true in Hu.
Qed.

Definition used : gset AccountId := {[alice; bob; carol; dave; proposer; PROTOCOL_TREASURY; FEE_BURN_SINK]}.

Lemma roots_ok : BlockLaws.roots_meaningful None no_text pins new_executor SampleStore.in_order backwards (validators alone)
  (pp_block proposal) (checkpoint two_senders).2 (snapshot two_senders).
Proof.
  exists used, ∅. split_and!; [|apply plain_inv; vm_compute; reflexivity..].
  apply (bool_decide_eq_true_1 (keys_separate used ∅)). vm_compute. reflexivity.
Qed.

Lemma proposal_time : timestamp (header (pp_block proposal)) ≤ sat_add u64_max 40 MAX_BLOCK_TIMESTAMP_FUTURE_SECS.
Proof. apply Z.leb_le. vm_compute. reflexivity. Qed.

Lemma tip_known : get_block_by_height (cs_height tip) tip = cs_latest_block tip.
Proof. vm_compute. reflexivity. Qed.

Lemma tip_range : 0 ≤ cs_height tip < u64_max ∧ tip_timestamp tip ≤ u64_max.
Proof. vm_compute. done. Qed.

Lemma same_start : twins two_senders two_senders.
Proof. split; [reflexivity|split; apply two_senders_sound]. Qed.

Lemma produced_block_imports_witness :
  ∃ st, import_block (H1 := backwards) here None no_text pins new_executor 40 (pp_block proposal)
      (cs_latest_hash tip) (cs_height tip) two_senders alone (tip_timestamp tip)
    = Ok (st, pp_receipts proposal) ∧ alike st (pp_new_state proposal).
Proof.
  exact (BlockLaws.produced_block_imports here None no_text pins new_executor limits policy SampleStore.in_order backwards
    50 40 (new_producer proposer) tip pool outcome.1.2 two_senders outcome.2 two_senders alone alone false proposal node_proposes
    same_start eq_refl eq_refl (proj1 tip_range) (proj2 tip_range) tip_known proposal_time eq_refl eq_refl
    (λ _, eq_refl) (λ _ _, eq_refl) roots_ok).
Defined.

Lemma proposing_keeps_tip_witness : alike outcome.2 two_senders ∧ sound outcome.2.
Proof.
  exact (BlockLaws.proposing_keeps_tip here None no_text pins new_executor limits policy 50 (new_producer proposer) tip
    pool two_senders alone false (Some proposal) outcome.1.2 outcome.2 two_senders_sound node_proposes).
Defined.

Notation imports i :=
  (import_block (H1 := i) here None no_text pins new_executor 40 (pp_block proposal) (cs_latest_hash tip)
    (cs_height tip) two_senders alone (tip_timestamp tip)).

Definition imported (r : result (VmStore * list ExecutionReceipt) ImportFault) : VmStore * list ExecutionReceipt :=
  match r with Ok p => p | Err _ => (two_senders, []) end.

Lemma first_imports : imports SampleStore.in_order =
  Ok ((imported (imports SampleStore.in_order)).1, (imported (imports SampleStore.in_order)).2).
Proof. vm_compute. reflexivity. Qed.

Lemma second_imports : imports backwards = Ok ((imported (imports backwards)).1, (imported (imports backwards)).2).
Proof. vm_compute. reflexivity. Qed.

Lemma proposal_height : 0 < height (header (pp_block proposal)).
Proof. vm_compute. reflexivity. Qed.

Lemma import_sound_witness :
  parent_hash (header (pp_block proposal)) = cs_latest_hash tip ∧ Types.proposer (header (pp_block proposal)) ∈ validators alone.
Proof.
  destruct (BlockLaws.import_sound here None no_text pins new_executor backwards 40 (pp_block proposal) (cs_latest_hash tip)
    (cs_height tip) two_senders alone (tip_timestamp tip) _ _ second_imports proposal_height) as (Hp & _ & Hin & _).
  split; [exact Hp|exact Hin].
Defined.

Lemma importers_agree_witness :
  (imported (imports SampleStore.in_order)).2 = (imported (imports backwards)).2 ∧
  twins (imported (imports SampleStore.in_order)).1 (imported (imports backwards)).1.
Proof.
  exact (BlockLaws.importers_agree here None no_text pins new_executor SampleStore.in_order backwards 40 40 (pp_block proposal)
    (cs_latest_hash tip) (cs_latest_hash tip) (cs_height tip) (cs_height tip) two_senders two_senders alone alone
    (tip_timestamp tip) (tip_timestamp tip) _ _ _ _ same_start eq_refl first_imports second_imports).
Defined.

End SampleNodes.
