(* ===== verification/NodeParts.v ===== *)
(** * Parts of the node beside consensus and execution

    Models [crates/boing-node/src/stake_validator_set.rs] (the validators chosen by
    stake at epoch boundaries), [receipt_retention.rs] (the window of receipts kept in
    memory) and [crates/boing-governance/src/slashing_appeal.rs] (the node-local mirror
    of slashes and appeals). The stake set is the same on every node with the same
    committed accounts, whatever the order of its hash maps, and consists of the best
    eligible stakers; the boundary restored after a restart is the last one that was
    switched at; the mirror keeps one record per slash and one appeal per record. *)

From S2P Require Import Prelude Types Signatures OpenValidators Store StoreLaws StoreQueries Tokenomics Executor.

(** ** Validators by stake *)

Record StakeValidatorSetConfig := mkStakeSet {
  ss_top_n : nat;
  ss_epoch_len : Z;
  ss_min_stake : Z;
  ss_activation_height : Z;
  ss_bootstrap : list AccountId;
}.

Definition MIN_VALIDATOR_STAKE : Z := 10000.

Definition default_stake_set : StakeValidatorSetConfig := mkStakeSet 21 100 MIN_VALIDATOR_STAKE 0 [].

Definition set_min_stake (c : StakeValidatorSetConfig) (m : Z) : StakeValidatorSetConfig :=
  mkStakeSet (ss_top_n c) (ss_epoch_len c) m (ss_activation_height c) (ss_bootstrap c).

Definition is_refresh_height (c : StakeValidatorSetConfig) (height : Z) : bool :=
  (0 <? ss_epoch_len c) && (0 <? ss_top_n c)%nat && (0 <? height) && (ss_activation_height c <=? height)
  && (height mod ss_epoch_len c =? 0).

Definition last_refresh_height (c : StakeValidatorSetConfig) (height : Z) : option Z :=
  if (ss_epoch_len c =? 0) || (ss_top_n c =? 0)%nat then None
  else
    let h := height - height mod ss_epoch_len c in
    if (0 <? h) && (ss_activation_height c <=? h) then Some h else None.

(** The order of [sort_by]: stake descending, then id ascending. *)
Definition candidate_le (a b : AccountId * Z) : Prop :=
  b.2 < a.2 ∨ (a.2 = b.2 ∧ word_le a.1 b.1).

#[export] Instance candidate_le_dec : RelDecision candidate_le.
Proof. intros a b. unfold candidate_le. apply _. Defined.

Section StakeSet.
Context {V : Type} `{Iteration}.
Implicit Types st : StateStore V.

(** The accounts with at least the minimum; no table has more than [usize::MAX] of them. *)
Definition candidates st (min_stake : Z) : list (AccountId * Z) :=
  filter (λ p, min_stake ≤ p.2 ∧ 0 < p.2)
    (omap (λ id, (λ a, (id, stake a)) <$> get st id) (top_stakers (size (accounts (contents st))) st)).

Definition eligible_stake_validators st (top_n : nat) (min_stake : Z) : list AccountId :=
  merge_sort word_le (take top_n (merge_sort candidate_le (candidates st min_stake))).*1.

Definition next_validator_set st (c : StakeValidatorSetConfig) (current : list AccountId) : list AccountId :=
  match eligible_stake_validators st (ss_top_n c) (ss_min_stake c) with
  | [] => match ss_bootstrap c with [] => current | _ => ss_bootstrap c end
  | eligible => eligible
  end.

End StakeSet.

(** ** Receipts kept in memory *)

Definition DEFAULT_RECEIPT_RETENTION_BLOCKS : Z := 1000000.
Definition PRUNE_INTERVAL : Z := 256.

Definition window_for_rpc (window : Z) : option Z := if window =? 0 then None else Some window.

Definition first_retained_height (tip window : Z) : Z :=
  if window =? 0 then 0 else sat_sub tip (sat_sub window 1).

(** What is left, and how many were removed. *)
Definition prune (rs : gmap Hash ExecutionReceipt) (tip window : Z) : gmap Hash ExecutionReceipt * nat :=
  if window =? 0 then (rs, 0%nat)
  else
    let kept := filter (λ e, first_retained_height tip window ≤ rc_block_height e.2) rs in
    (kept, (size rs - size kept)%nat).

Definition prune_due (height : Z) : bool := (0 <? height) && (height mod PRUNE_INTERVAL =? 0).

(** ** The mirror of slashes *)

Module Mirror.

Definition MAX_SLASH_APPEAL_EVIDENCE_BYTES : Z := 4096.

Inductive SlashReason :=
| MrEquivocation | MrLiveness | MrFraud | MrBlobFailedServe | MrOther (s : string).

#[export] Instance mirror_reason_eq_dec : EqDecision SlashReason.
Proof. solve_decision. Defined.

Record SlashRecord := mkMirrorRecord {
  ms_id : Z;
  ms_validator : bytes;
  ms_amount : Z;
  ms_reason : SlashReason;
  ms_block_height : Z;
  ms_appeal_deadline : Z;
}.

Inductive AppealStatus := MaPending | MaApproved | MaRejected.

#[export] Instance mirror_status_eq_dec : EqDecision AppealStatus.
Proof. solve_decision. Defined.

Record SlashingAppeal := mkMirrorAppeal {
  ma_id : Z;
  ma_slash_id : Z;
  ma_evidence : bytes;
  ma_status : AppealStatus;
}.

Record SlashRegistry := mkMirror {
  m_slashes : gmap Z SlashRecord;
  m_appeals : gmap Z SlashingAppeal;
  m_next_slash_id : Z;
  m_next_appeal_id : Z;
}.

Inductive SlashingError :=
| SlashNotFound | AppealNotFound | AppealWindowClosed | AppealAlreadyExists | AppealAlreadyResolved
| EvidenceTooLarge (max : Z) | ConsensusBookOwnsSlash.

Definition new_mirror : SlashRegistry := mkMirror ∅ ∅ 1 1.

Definition insert_slash_record (id : Z) (validator : bytes) (amount : Z) (reason : SlashReason)
    (block_height appeal_window_blocks : Z) (r : SlashRegistry) : SlashRegistry :=
  mkMirror (<[id := mkMirrorRecord id validator amount reason block_height
                      (sat_add u64_max block_height appeal_window_blocks)]> (m_slashes r))
    (m_appeals r) (m_next_slash_id r) (m_next_appeal_id r).

Definition record_slash (validator : bytes) (amount : Z) (reason : SlashReason)
    (block_height appeal_window_blocks : Z) (r : SlashRegistry) : Z * SlashRegistry :=
  let id := m_next_slash_id r in
  (id, insert_slash_record id validator amount reason block_height appeal_window_blocks
         (mkMirror (m_slashes r) (m_appeals r) (wrap_add u64_max id 1) (m_next_appeal_id r))).

Definition record_slash_with_id (id : Z) (validator : bytes) (amount : Z) (reason : SlashReason)
    (block_height appeal_window_blocks : Z) (r : SlashRegistry) : SlashRegistry :=
  match m_slashes r !! id with
  | Some _ => r
  | None =>
      let r := insert_slash_record id validator amount reason block_height appeal_window_blocks r in
      if m_next_slash_id r <=? id
      then mkMirror (m_slashes r) (m_appeals r) (sat_add u64_max id 1) (m_next_appeal_id r) else r
  end.

Notation M := (ST SlashRegistry SlashingError).

Definition submit_appeal (slash_id : Z) (evidence : bytes) (current_height : Z) : M Z :=
  if MAX_SLASH_APPEAL_EVIDENCE_BYTES <? Z.of_nat (length evidence)
  then st_fail (EvidenceTooLarge MAX_SLASH_APPEAL_EVIDENCE_BYTES)
  else
    r ← st_get;
    slash ← st_some (m_slashes r !! slash_id) SlashNotFound;
    if ms_appeal_deadline slash <? current_height then st_fail AppealWindowClosed
    else if existsb (λ a, ma_slash_id a =? slash_id) (map_to_list (m_appeals r)).*2
    then st_fail AppealAlreadyExists
    else
      let id := m_next_appeal_id r in
      _ ← st_put (mkMirror (m_slashes r) (<[id := mkMirrorAppeal id slash_id evidence MaPending]> (m_appeals r))
                    (m_next_slash_id r) (wrap_add u64_max id 1));
      mret id.

Definition resolve_appeal (appeal_id : Z) (approved : bool) : M () :=
  r ← st_get;
  a ← st_some (m_appeals r !! appeal_id) AppealNotFound;
  if negb (bool_decide (ma_status a = MaPending)) then st_fail AppealAlreadyResolved
  else
    st_put (mkMirror (m_slashes r)
              (<[appeal_id := mkMirrorAppeal (ma_id a) (ma_slash_id a) (ma_evidence a)
                                (if approved then MaApproved else MaRejected)]> (m_appeals r))
              (m_next_slash_id r) (m_next_appeal_id r)).

Definition is_slash_reversed (slash_id : Z) (r : SlashRegistry) : bool :=
  existsb (λ a, (ma_slash_id a =? slash_id) && bool_decide (ma_status a = MaApproved))
    (map_to_list (m_appeals r)).*2.

Definition get_slash (id : Z) (r : SlashRegistry) : option SlashRecord := m_slashes r !! id.

Definition get_appeal (id : Z) (r : SlashRegistry) : option SlashingAppeal := m_appeals r !! id.

Definition list_slashes `{Iteration} (r : SlashRegistry) : list SlashRecord := (iter (map_to_list (m_slashes r))).*2.

(** Histories of the mirror. *)
Inductive MirrorOp :=
| MoRecord (validator : bytes) (amount : Z) (reason : SlashReason) (height window : Z)
| MoRecordId (id : Z) (validator : bytes) (amount : Z) (reason : SlashReason) (height window : Z)
| MoSubmit (slash_id : Z) (evidence : bytes) (height : Z)
| MoResolve (appeal_id : Z) (approved : bool).

Definition apply_mirror_op (r : SlashRegistry) (op : MirrorOp) : SlashRegistry :=
  match op with
  | MoRecord v amount reason h w => (record_slash v amount reason h w r).2
  | MoRecordId id v amount reason h w => record_slash_with_id id v amount reason h w r
  | MoSubmit id ev h => (submit_appeal id ev h r).2
  | MoResolve id approved => (resolve_appeal id approved r).2
  end.

(** The ids a caller chooses are below [bound]. *)
Definition chosen_below (bound : Z) (op : MirrorOp) : Prop :=
  match op with MoRecordId id _ _ _ _ _ => 1 ≤ id < bound | _ => True end.

Record mirror_inv (bound : Z) (r : SlashRegistry) : Prop := {
  mi_record : ∀ id s, m_slashes r !! id = Some s → ms_id s = id ∧ 1 ≤ id < m_next_slash_id r;
  mi_appeal : ∀ id a, m_appeals r !! id = Some a →
    ma_id a = id ∧ 1 ≤ id < m_next_appeal_id r ∧ is_Some (m_slashes r !! ma_slash_id a) ∧
    Z.of_nat (length (ma_evidence a)) ≤ MAX_SLASH_APPEAL_EVIDENCE_BYTES;
  mi_once : ∀ i j a b, m_appeals r !! i = Some a → m_appeals r !! j = Some b → ma_slash_id a = ma_slash_id b → i = j;
  mi_slash_ids : 1 ≤ m_next_slash_id r ≤ bound;
  mi_appeal_ids : 1 ≤ m_next_appeal_id r ≤ bound;
}.

Lemma mirror_inv_grow b b' r : b ≤ b' → mirror_inv b r → mirror_inv b' r.
Proof. intros Hb []. constructor; try done; lia. Qed.

Lemma insert_record_inv b id v amount reason h w n r :
  mirror_inv b r → 1 ≤ id < n → m_next_slash_id r ≤ n → n ≤ b →
  mirror_inv b (mkMirror (m_slashes (insert_slash_record id v amount reason h w r)) (m_appeals r) n (m_next_appeal_id r)).
Proof.
  intros [Hr Ha Ho Hs Hi] Hid Hn Hb. constructor; simpl; [| |done|lia|done].
  - intros i s. destruct (decide (i = id)) as [->|Hne].
    + rewrite lookup_insert_eq. intros [= <-]. done.
    + rewrite lookup_insert_ne by done. intros Hi'. destruct (Hr i s Hi'). lia.
  - intros i a Hi'. destruct (Ha i a Hi') as (? & ? & Hsome & ?). split_and!; try done; try lia.
    by apply lookup_insert_is_Some'; right.
Qed.

Lemma submit_inv b r slash_id evidence s :
  mirror_inv b r → m_slashes r !! slash_id = Some s →
  Z.of_nat (length evidence) ≤ MAX_SLASH_APPEAL_EVIDENCE_BYTES →
  existsb (λ a, ma_slash_id a =? slash_id) (map_to_list (m_appeals r)).*2 = false →
  mirror_inv (b + 1) (mkMirror (m_slashes r)
    (<[m_next_appeal_id r := mkMirrorAppeal (m_next_appeal_id r) slash_id evidence MaPending]> (m_appeals r))
    (m_next_slash_id r) (m_next_appeal_id r + 1)).
Proof.
  intros [Hr Ha Ho Hs Hi] Hslash Hev Hno. assert (∀ i a, m_appeals r !! i = Some a → ma_slash_id a ≠ slash_id) as Hnew.
  { intros i a Hia Heq. apply not_true_iff_false in Hno. apply Hno, existsb_exists. exists a. split; [|by apply Z.eqb_eq].
    apply list_elem_of_In, list_elem_of_fmap. exists (i, a). by rewrite elem_of_map_to_list. }
  constructor; simpl; [done| | |lia|lia].
  - intros i a [[<- <-]|[Hne Hia]]%lookup_insert_Some; simpl; [split_and!; [done|lia|lia|eauto|done]|].
    destruct (Ha i a Hia) as (? & ? & ? & ?). split_and!; try done; lia.
  - intros i j a c [[<- <-]|[Hne Hia]]%lookup_insert_Some [[<- <-]|[Hne' Hjc]]%lookup_insert_Some; simpl; intros Heq; [done| | |by eapply Ho].
    + by destruct (Hnew j c Hjc).
    + by destruct (Hnew i a Hia).
Qed.

Lemma resolve_inv b r id a status :
  mirror_inv b r → m_appeals r !! id = Some a →
  mirror_inv b (mkMirror (m_slashes r)
    (<[id := mkMirrorAppeal (ma_id a) (ma_slash_id a) (ma_evidence a) status]> (m_appeals r))
    (m_next_slash_id r) (m_next_appeal_id r)).
Proof.
  intros [Hr Ha Ho Hs Hi] Hia. constructor; simpl; [done| | |done|done].
  - intros j c [[<- <-]|[_ Hjc]]%lookup_insert_Some; simpl; by apply Ha.
  - intros i j c d [[<- <-]|[_ Hc]]%lookup_insert_Some [[<- <-]|[_ Hd]]%lookup_insert_Some; simpl; [done|by eapply Ho..].
Qed.

Lemma apply_mirror_inv b r op :
  mirror_inv b r → b < u64_max → chosen_below b op → mirror_inv (b + 1) (apply_mirror_op r op).
Proof.
  intros Hinv Hb Hop. pose proof (mirror_inv_grow b (b + 1) r ltac:(lia) Hinv) as Hinv'.
  pose proof Hinv as [Hr Ha Ho Hs Hi]. destruct op as [v amount reason h w|id v amount reason h w|id ev h|id ok]; simpl.
  - unfold wrap_add. rewrite Z.mod_small by lia.
    apply (insert_record_inv (b + 1) _ v amount reason h w (m_next_slash_id r + 1) r Hinv'); lia.
  - unfold record_slash_with_id. destruct (m_slashes r !! id) eqn:E; [done|]. simpl in Hop. simpl.
    destruct (Z.leb_spec (m_next_slash_id r) id); simpl.
    + replace (sat_add u64_max id 1) with (id + 1) by (unfold sat_add; lia). apply (insert_record_inv (b + 1) id v amount reason h w (id + 1) r Hinv'); lia.
    + apply (insert_record_inv (b + 1) id v amount reason h w (m_next_slash_id r) r Hinv'); lia.
  - unfold submit_appeal. st_unfold. repeat (case_match; simplify_eq/=; try done). bool_to_prop.
    unfold wrap_add. rewrite Z.mod_small by lia.
    by eapply submit_inv.
  - unfold resolve_appeal. st_unfold. repeat (case_match; simplify_eq/=; try done).
    all: by apply resolve_inv.
Qed.

Lemma run_mirror_inv b r ops :
  mirror_inv b r → b + Z.of_nat (length ops) ≤ u64_max → Forall (chosen_below b) ops →
  mirror_inv (b + Z.of_nat (length ops)) (foldl apply_mirror_op r ops).
Proof.
  intros Hr Hb Hops. revert b r Hr Hb Hops. induction ops as [|op ops IH]; intros b r Hr Hb Hops; simpl in *.
  { by rewrite Z.add_0_r. }
  apply Forall_cons in Hops as [Hop Hops]. replace (b + Z.of_nat (S (length ops))) with (b + 1 + Z.of_nat (length ops)) by lia.
  apply IH; [apply apply_mirror_inv; [done|lia|done]|lia|].
  eapply Forall_impl; [exact Hops|]. intros [] ?; simpl in *; lia.
Qed.

End Mirror.

(** ** The stake set *)

#[export] Instance candidate_le_total : Total candidate_le.
Proof.
  intros [a x] [b y]. unfold candidate_le. simpl. destruct (total word_le a b), (Z.lt_trichotomy x y) as [|[|]]; naive_solver.
Qed.

#[export] Instance candidate_le_transitive : Transitive candidate_le.
Proof.
  intros [a x] [b y] [c z]. unfold candidate_le. simpl. intros [?|[? Hab]] [?|[? Hbc]]; [left; lia..|].
  right. split; [lia|by etrans].
Qed.

#[export] Instance candidate_le_antisym : AntiSymm (=) candidate_le.
Proof.
  intros [a x] [b y] [?|[? Hab]] [?|[? Hba]]; simpl in *; try lia. f_equal; [by apply (anti_symm word_le)|done].
Qed.

Section StakeLaws.
Context {V : Type}.
Implicit Types st : StateStore V.

(** An account that may validate. *)
Definition eligible st (m : Z) (id : AccountId) : Prop :=
  ∃ a, accounts (contents st) !! id = Some a ∧ m ≤ stake a ∧ 0 < stake a.

Lemma all_stakers `{Iteration} st id :
  id ∈ top_stakers (size (accounts (contents st))) st ↔ is_Some (accounts (contents st) !! id).
Proof.
  unfold top_stakers. fold (ranking st). rewrite take_ge.
  2: { rewrite ranking_perm, length_map_to_list. lia. }
  rewrite ranking_perm, list_elem_of_fmap. split.
  - intros ([i a] & -> & Ha%elem_of_map_to_list). eauto.
  - intros [a Ha]. exists (id, a). by rewrite elem_of_map_to_list.
Qed.

Lemma elem_of_candidates `{Iteration} st m id s :
  (id, s) ∈ candidates st m ↔ ∃ a, accounts (contents st) !! id = Some a ∧ stake a = s ∧ m ≤ s ∧ 0 < s.
Proof.
  unfold candidates, get. rewrite list_elem_of_filter, list_elem_of_omap. simpl. split.
  - intros [[Hm Hs] (x & _ & (a & Ha & [= -> ->])%fmap_Some)]. eauto.
  - intros (a & Ha & <- & Hm & Hs). split; [done|]. exists id. rewrite all_stakers, Ha. eauto.
Qed.

Lemma omap_fst_sublist (f : AccountId → option (AccountId * Z)) l :
  (∀ x y, f x = Some y → y.1 = x) → (omap f l).*1 `sublist_of` l.
Proof.
  intros Hf. induction l as [|x l IH]; simpl; [done|]. destruct (f x) as [y|] eqn:E; simpl; [|by constructor].
  rewrite (Hf x y E). by constructor.
Qed.

Lemma candidates_NoDup `{Iteration} st m : NoDup (candidates st m).*1.
Proof.
  eapply sublist_NoDup; [apply (ranking_NoDup st)|]. unfold candidates, top_stakers. fold (ranking st). etrans.
  { apply fmap_sublist, sublist_filter. }
  etrans; [apply omap_fst_sublist; by intros x y (a & _ & ->)%fmap_Some|]. apply fmap_sublist, sublist_take.
Qed.

Lemma candidates_order (i1 i2 : Iteration) st m : candidates (H := i1) st m = candidates (H := i2) st m.
Proof.
  unfold candidates, top_stakers. fold (ranking (H := i1) st) (ranking (H := i2) st). by rewrite (ranking_order i1 i2).
Qed.

(** The candidates, best first. *)
Definition ranked `{Iteration} st m : list (AccountId * Z) := merge_sort candidate_le (candidates st m).

Lemma elem_of_ranked `{Iteration} st m id :
  id ∈ (ranked st m).*1 ↔ eligible st m id.
Proof.
  unfold ranked, eligible. rewrite merge_sort_Permutation, list_elem_of_fmap. split.
  - intros ([i s] & -> & (a & Ha & <- & ?)%elem_of_candidates). eauto.
  - intros (a & Ha & ?). exists (id, stake a). rewrite elem_of_candidates. eauto.
Qed.

Lemma elem_of_eligible_set `{Iteration} st n m id :
  id ∈ eligible_stake_validators st n m ↔ id ∈ (take n (ranked st m)).*1.
Proof. unfold eligible_stake_validators. by rewrite merge_sort_Permutation. Qed.

Lemma eligible_set_size `{Iteration} st n m :
  length (eligible_stake_validators st n m) = (n `min` length (ranked st m))%nat.
Proof. unfold eligible_stake_validators. by rewrite merge_sort_Permutation, length_fmap, length_take. Qed.

Lemma eligible_set_NoDup `{Iteration} st n m : NoDup (eligible_stake_validators st n m).
Proof.
  unfold eligible_stake_validators. rewrite merge_sort_Permutation.
  eapply sublist_NoDup; [|apply fmap_sublist, sublist_take]. rewrite merge_sort_Permutation. apply candidates_NoDup.
Qed.

Lemma eligible_set_members `{Iteration} st n m id : id ∈ eligible_stake_validators st n m → eligible st m id.
Proof.
  rewrite elem_of_eligible_set, <- elem_of_ranked, <- (take_drop n (ranked st m)), fmap_app, elem_of_app, take_drop. by left.
Qed.

Lemma eligible_set_all `{Iteration} st n m id :
  (length (eligible_stake_validators st n m) < n)%nat → eligible st m id → id ∈ eligible_stake_validators st n m.
Proof. rewrite eligible_set_size, elem_of_eligible_set, <- elem_of_ranked. intros Hn. rewrite take_ge by lia. done. Qed.

Lemma eligible_set_some `{Iteration} st n m id :
  eligible st m id → (0 < n)%nat → (0 < length (eligible_stake_validators st n m))%nat.
Proof.
  rewrite <- elem_of_ranked, eligible_set_size. destruct (ranked st m); [by intros ?%elem_of_nil|simpl; lia].
Qed.

Lemma eligible_set_best `{Iteration} st n m a sa b sb :
  a ∈ eligible_stake_validators st n m → b ∉ eligible_stake_validators st n m → eligible st m b →
  accounts (contents st) !! a = Some sa → accounts (contents st) !! b = Some sb →
  stake sb < stake sa ∨ (stake sa = stake sb ∧ bytes_leb a b = true).
Proof.
  rewrite !elem_of_eligible_set, <- elem_of_ranked. intros Ha Hb Heb Hsa Hsb.
  rewrite <- (take_drop n (ranked st m)), fmap_app, elem_of_app in Heb. destruct Heb as [?|Heb]; [done|].
  apply list_elem_of_fmap in Ha as ([a' x] & -> & Ha), Heb as ([b' y] & -> & Hb'). simpl in *.
  pose proof (StronglySorted_merge_sort candidate_le (candidates st m)) as Hs. fold (ranked st m) in Hs.
  assert (∀ i s acc, (i, s) ∈ ranked st m → accounts (contents st) !! i = Some acc → s = stake acc) as Hst.
  { intros i s acc Hi Hacc. unfold ranked in Hi. rewrite merge_sort_Permutation in Hi.
    apply elem_of_candidates in Hi as (z & Hz & <- & _). congruence. }
  rewrite <- (take_drop n (ranked st m)) in Hs, Hst.
  pose proof (Hst a' x sa (proj2 (elem_of_app _ _ _) (or_introl Ha)) Hsa).
  pose proof (Hst b' y sb (proj2 (elem_of_app _ _ _) (or_intror Hb')) Hsb).
  destruct (StronglySorted_app_1_elem_of _ _ _ _ _ Hs Ha Hb') as [?|[? Hle]]; simpl in *; subst; [by left|].
  right. split; [done|]. by apply Is_true_true.
Qed.

End StakeLaws.

Module PartLaws.

(** The set of the next epoch is the same for every order of the account table. With
    accounts that bond the minimum it is sorted by id, holds [top_n] of them or all when
    they are fewer, and each one left out ranks below each member; otherwise it is the
    bootstrap list, or the present set when that list is empty. *)
Theorem stake_set_best {V} (i1 i2 : Iteration) (st : StateStore V) c current :
  let set := next_validator_set (H := i1) st c current in
  set = next_validator_set (H := i2) st c current ∧
  ((∃ id, eligible st (ss_min_stake c) id) → (0 < ss_top_n c)%nat →
     StronglySorted word_le set ∧ NoDup set ∧ (1 ≤ length set ≤ ss_top_n c)%nat ∧
     (∀ id, id ∈ set → eligible st (ss_min_stake c) id) ∧
     ((length set < ss_top_n c)%nat → ∀ id, eligible st (ss_min_stake c) id → id ∈ set) ∧
     (∀ a sa b sb, a ∈ set → b ∉ set → eligible st (ss_min_stake c) b →
        accounts (contents st) !! a = Some sa → accounts (contents st) !! b = Some sb →
        stake sb < stake sa ∨ (stake sa = stake sb ∧ bytes_leb a b = true))) ∧
  ((∀ id, ¬ eligible st (ss_min_stake c) id) →
     set = match ss_bootstrap c with [] => current | l => l end) ∧
  (current ≠ [] → set ≠ []).
Proof.
  simpl. split_and!.
  - unfold next_validator_set, eligible_stake_validators. by rewrite (candidates_order i1 i2).
  - intros [id Hid] Hn. pose proof (eligible_set_some (H := i1) st _ _ id Hid Hn) as Hl.
    assert (next_validator_set (H := i1) st c current =
      eligible_stake_validators (H := i1) st (ss_top_n c) (ss_min_stake c)) as ->.
    { unfold next_validator_set. by destruct (eligible_stake_validators _ _ _); [simpl in Hl; lia|]. }
    pose proof (eligible_set_size (H := i1) st (ss_top_n c) (ss_min_stake c)) as Hs.
    split_and!; [apply StronglySorted_merge_sort; apply _|apply eligible_set_NoDup|lia|lia| | |].
    + intros x. exact (eligible_set_members (H := i1) st (ss_top_n c) (ss_min_stake c) x).
    + intros Hlt x. by apply eligible_set_all.
    + intros a sa b sb. apply eligible_set_best.
  - intros Hno. unfold next_validator_set. destruct (eligible_stake_validators _ _ _) as [|x l] eqn:E; [by destruct (ss_bootstrap c)|].
    destruct (Hno x). apply (eligible_set_members (H := i1) st (ss_top_n c)). rewrite E. by left.
  - intros Hc. unfold next_validator_set. destruct (eligible_stake_validators _ _ _); [|done]. by destruct (ss_bootstrap c).
Qed.

(** The boundary restored after a restart is the last height, up to the tip, at which
    the validators were switched. *)
Theorem last_refresh_is_last c tip :
  0 ≤ tip → 0 ≤ ss_epoch_len c →
  match last_refresh_height c tip with
  | Some h => is_refresh_height c h = true ∧ h ≤ tip ∧ ∀ h', h < h' → h' ≤ tip → is_refresh_height c h' = false
  | None => ∀ h', h' ≤ tip → is_refresh_height c h' = false
  end.
Proof.
  intros Htip Hlen. unfold last_refresh_height, is_refresh_height.
  destruct (Z.eqb_spec (ss_epoch_len c) 0) as [->|Hne]; simpl; [done|].
  destruct (Nat.eqb_spec (ss_top_n c) 0) as [->|Hn]; [intros; by rewrite andb_false_r|].
  set (n := ss_epoch_len c) in *. set (h := tip - tip mod n).
  pose proof (Z.mod_pos_bound tip n ltac:(lia)) as Hb.
  assert (h mod n = 0) as Hh.
  { unfold h. rewrite (Z.div_mod tip n) at 1 by lia. replace (n * (tip / n) + tip mod n - tip mod n) with ((tip / n) * n) by lia.
    apply Z_mod_mult. }
  assert (h ≤ tip) as Hle by (unfold h; lia).
  assert (∀ h', h < h' → h' ≤ tip → h' mod n ≠ 0) as Hlast.
  { intros h' H1 H2 H0. assert (∃ q, h' = n * q) as [q ->] by (exists (h' / n); by apply Z_div_exact_full_2; [lia|]).
    unfold h in H1. pose proof (Z.div_mod tip n ltac:(lia)) as Hd.
    apply (Z.div_le_mono _ _ n) in H2; [|lia]. rewrite Z.mul_comm, Z.div_mul in H2 by lia. nia. }
  clearbody h. destruct ((0 <? h) && (ss_activation_height c <=? h)) eqn:E; bool_to_prop; split_and?; [|lia| |].
  - repeat (apply andb_true_iff; split); rewrite ?Z.ltb_lt, ?Nat.ltb_lt, ?Z.leb_le, ?Z.eqb_eq; lia.
  - intros h' H1 H2. rewrite (proj2 (Z.eqb_neq _ _) (Hlast h' H1 H2)). by rewrite andb_false_r.
  - intros h' H2. apply not_true_iff_false. intros Ht. bool_to_prop.
    destruct (Z_le_gt_dec h' h); [|by destruct (Hlast h'); lia]. lia.
Qed.

(** Whatever is recorded and appealed, every record of the mirror is under its own id,
    every appeal contests a recorded slash with evidence within the limit, no slash has
    two appeals, and fresh ids are larger than all used ones. *)
Theorem mirror_reachable b ops :
  1 ≤ b → b + Z.of_nat (length ops) ≤ u64_max → Forall (Mirror.chosen_below b) ops →
  Mirror.mirror_inv (b + Z.of_nat (length ops)) (foldl Mirror.apply_mirror_op Mirror.new_mirror ops).
Proof.
  intros Hb Hl Hops. apply Mirror.run_mirror_inv; [|done..].
  constructor; simpl; [by intros ? ? ?%lookup_empty_Some..|by intros ? ? ? ? ?%lookup_empty_Some|lia|lia].
Qed.

(** Pruning removes the receipts of the blocks before the window and no other; a window
    of zero keeps all of them. *)
Theorem prune_keeps_window rs tip window :
  0 ≤ window → (∀ h r, rs !! h = Some r → 0 ≤ rc_block_height r) →
  (∀ h r, (prune rs tip window).1 !! h = Some r ↔
     rs !! h = Some r ∧ (window = 0 ∨ tip < rc_block_height r + window)) ∧
  (prune rs tip window).2 = (size rs - size (prune rs tip window).1)%nat.
Proof.
  intros Hw Hpos. unfold prune, first_retained_height, sat_sub. destruct (Z.eqb_spec window 0) as [->|Hne]; simpl.
  { split; [naive_solver|lia]. }
  split; [|done]. intros h r. rewrite map_lookup_filter_Some. simpl.
  split; intros [Hr Hin]; pose proof (Hpos h r Hr); split; [done|lia|done|lia].
Qed.

End PartLaws.
