(* ===== verification/Node.v ===== *)
(** * The node

    Models [crates/boing-node/src/node.rs]: proposals, votes and commits, the pacemaker,
    catch-up, equivocation reports, the validator set after a commit and the mirror of
    slashes; and the signing functions of [crates/boing-primitives/src/signature.rs],
    [consensus_vote.rs] and [vrf_proof.rs].

    The state is the record [BoingNode]; what the operator configures is [NodeConfig].
    Messages handed to the network and the announcements of a new head are appended to
    [n_sent]. Writing to the disk changes nothing in memory and is left out. A panic is
    [NodePanic]. Instants and durations are numbers of one unit of time; the clock is read
    once per event. *)

From S2P Require Import Prelude Types Names Governance Blobs SampleMarket SlashAppeals Signatures OpenValidators Consensus Qa Store Tokenomics Scheduler Interp Vm Executor Mempool Chain Blocks NodeParts.

(** ** Keys *)

(** An Ed25519 signing key, with what the libraries compute from it. *)
Record SigningKey := mkKey {
  verifying_key : AccountId;
  key_sign : bytes → bytes;
  key_ecvrf_prove : Z → option VrfOutput;
}.

Section Signing.
Context `{Host} `{Crypto}.

Definition sign_vote (round : Z) (bh : Hash) (k : SigningKey) : ConsensusVote :=
  mkConsensusVote round bh (verifying_key k) (key_sign k (consensus_vote_signable_hash round bh)).

Definition new_legacy (tx : Transaction) (k : SigningKey) : SignedTransaction :=
  mkSignedTransaction tx (key_sign k (signable_hash tx)) 0.

Definition new_for_chain_with_tip (tx : Transaction) (k : SigningKey) (cid tip : Z) : SignedTransaction :=
  mkSignedTransaction tx (key_sign k (signable_transaction_hash_with_tip tx cid tip)) tip.

Definition new_for_chain (tx : Transaction) (k : SigningKey) (cid : Z) : SignedTransaction :=
  new_for_chain_with_tip tx k cid 0.

(** [SignedTransaction::new]; the chain is the process's default. *)
Definition new_signed (default_chain : option Z) (tx : Transaction) (k : SigningKey) : SignedTransaction :=
  match default_chain with Some cid => new_for_chain tx k cid | None => new_legacy tx k end.

End Signing.

Record VrfProofGossip := mkVrfGossip {
  vg_round : Z;
  vg_validator : AccountId;
  vg_vrf : VrfOutput;
}.

Definition prove_vrf (round : Z) (k : SigningKey) : option VrfProofGossip :=
  vrf ← key_ecvrf_prove k round; Some (mkVrfGossip round (verifying_key k) vrf).

Definition vrf_gossip_verify `{Host} (g : VrfProofGossip) : bool :=
  verify_ecvrf_output (vg_validator g) (vg_round g) (vg_vrf g).

(** ** State *)

Definition DEFAULT_ANCHOR_FALLBACK_TIMEOUT : Z := 3.
Definition LIVENESS_LEADER_TIMEOUT_SECS : Z := sat_mul u64_max BLOCK_TIME_SECS 3.
Definition DEFAULT_PROPOSAL_TIMEOUT : Z := LIVENESS_LEADER_TIMEOUT_SECS.
Definition LIVENESS_MISS_THRESHOLD : Z := 3.
Definition MAX_EARLY_AHEAD : Z := 8.
Definition MAX_EARLY_ENTRIES : nat := 4096.
Definition PHASE12_FAILED_SERVE_APPEAL_WINDOW_BLOCKS : Z := 1000.

(** [bincode] of signed transactions and the JSON of fee policies. *)
Record Serde := mkSerde {
  tb_encode : SignedTransaction → bytes;
  tb_decode : bytes → option SignedTransaction;
  network_fee_policy_from_json : bytes → option NetworkFeePolicy;
}.

Record PendingCommit := mkPendingCommit {
  pc_block : Block;
  pc_receipts : list ExecutionReceipt;
  pc_new_state : VmStore;
}.

(** What the node sends: [p2p.broadcast_*], and [head_broadcast]. *)
Inductive Sent :=
| SentBlock (b : Block)
| SentVote (v : ConsensusVote)
| SentEquivocation (e : EquivocationEvidence)
| SentVrf (g : VrfProofGossip)
| SentHead (height : Z) (hash : Hash).

(** Of the struct, the configuration that no call changes is in [NodeConfig] below. Left out
    are the disk ([persistence], [media_blob_store]), the registries that only RPC calls read
    ([dapp_registry], [intent_pool], [bls_dual_key_registry]), [vm] and [scheduler], which
    the executor has again, and the cache key of the account index. [n_mempool_config]
    holds the settings of the mempool, and [n_verify_policy] the signature policy of the process. *)
Record BoingNode := mkNode {
  n_chain : ChainState;
  n_consensus : ConsensusEngine;
  n_state : VmStore;
  n_executor : BlockExecutor;
  n_mempool : MempoolInner;
  n_mempool_config : MempoolConfig;
  n_qa_pool : PendingQaQueue;
  n_receipts : gmap Hash ExecutionReceipt;
  n_aggregates : ChainNativeAggregates;
  n_pending : option PendingCommit;
  n_pending_since : option Z;
  n_early_votes : gmap (Z * Hash) (list AccountId);
  n_observed_votes : gmap (Z * AccountId) ConsensusVote;
  n_slashed : gmap (AccountId * Z) Z;
  n_slash_registry : Mirror.SlashRegistry;
  n_governance : Governance.Governance;
  n_last_local_vote_round : option Z;
  n_miss_streak : gmap AccountId Z;
  n_leader_wait : option (Z * Z);
  n_fallback_wait : option (Z * Z);
  n_verify_policy : TxSigPolicy;
  n_sent : list Sent;
}.

(** What the operator and the network configure. [nc_executor] and [nc_mempool] are the
    executor and the settings of the mempool that a node starts with: the rules and activation
    heights of the network, and the caps. *)
Record NodeConfig := mkNodeConfig {
  nc_env : NodeEnv;
  nc_signing_chain_id : option Z;
  nc_pins : HostPins;
  nc_executor : BlockExecutor;
  nc_producer : BlockProducer;
  nc_mempool : MempoolConfig;
  nc_key : option SigningKey;
  nc_stake_set : option StakeValidatorSetConfig;
  nc_proposal_timeout : Z;
  nc_fallback_timeout : Z;
  nc_retention : Z;
}.

(** The clocks at an event: monotonic, since the epoch, that of the review pool, and the
    system time in the unit of the periods of the governance. *)
Record Clock := mkClock {
  ck_instant : Z;
  ck_unix : Z;
  ck_pool : Z;
  ck_system : Z;
}.

Inductive NodeFault :=
| NodeRefused (e : BlockValidationError)
| NodeNotAccepted (e : ConsensusError)
| NodePanic.

Notation N := (ST BoingNode NodeFault).

(** *** Assignments to a field *)

Definition set_chain (c : ChainState) (n : BoingNode) : BoingNode :=
  mkNode c (n_consensus n) (n_state n) (n_executor n) (n_mempool n) (n_mempool_config n) (n_qa_pool n)
    (n_receipts n) (n_aggregates n) (n_pending n) (n_pending_since n) (n_early_votes n) (n_observed_votes n)
    (n_slashed n) (n_slash_registry n) (n_governance n) (n_last_local_vote_round n) (n_miss_streak n)
    (n_leader_wait n) (n_fallback_wait n) (n_verify_policy n) (n_sent n).

Definition set_consensus (e : ConsensusEngine) (n : BoingNode) : BoingNode :=
  mkNode (n_chain n) e (n_state n) (n_executor n) (n_mempool n) (n_mempool_config n) (n_qa_pool n) (n_receipts n)
    (n_aggregates n) (n_pending n) (n_pending_since n) (n_early_votes n) (n_observed_votes n) (n_slashed n)
    (n_slash_registry n) (n_governance n) (n_last_local_vote_round n) (n_miss_streak n) (n_leader_wait n)
    (n_fallback_wait n) (n_verify_policy n) (n_sent n).

Definition set_state (st : VmStore) (n : BoingNode) : BoingNode :=
  mkNode (n_chain n) (n_consensus n) st (n_executor n) (n_mempool n) (n_mempool_config n) (n_qa_pool n)
    (n_receipts n) (n_aggregates n) (n_pending n) (n_pending_since n) (n_early_votes n) (n_observed_votes n)
    (n_slashed n) (n_slash_registry n) (n_governance n) (n_last_local_vote_round n) (n_miss_streak n)
    (n_leader_wait n) (n_fallback_wait n) (n_verify_policy n) (n_sent n).

Definition set_executor (x : BlockExecutor) (n : BoingNode) : BoingNode :=
  mkNode (n_chain n) (n_consensus n) (n_state n) x (n_mempool n) (n_mempool_config n) (n_qa_pool n) (n_receipts n)
    (n_aggregates n) (n_pending n) (n_pending_since n) (n_early_votes n) (n_observed_votes n) (n_slashed n)
    (n_slash_registry n) (n_governance n) (n_last_local_vote_round n) (n_miss_streak n) (n_leader_wait n)
    (n_fallback_wait n) (n_verify_policy n) (n_sent n).

Definition set_mempool (p : MempoolInner) (n : BoingNode) : BoingNode :=
  mkNode (n_chain n) (n_consensus n) (n_state n) (n_executor n) p (n_mempool_config n) (n_qa_pool n) (n_receipts n)
    (n_aggregates n) (n_pending n) (n_pending_since n) (n_early_votes n) (n_observed_votes n) (n_slashed n)
    (n_slash_registry n) (n_governance n) (n_last_local_vote_round n) (n_miss_streak n) (n_leader_wait n)
    (n_fallback_wait n) (n_verify_policy n) (n_sent n).

Definition set_mempool_config (c : MempoolConfig) (n : BoingNode) : BoingNode :=
  mkNode (n_chain n) (n_consensus n) (n_state n) (n_executor n) (n_mempool n) c (n_qa_pool n) (n_receipts n)
    (n_aggregates n) (n_pending n) (n_pending_since n) (n_early_votes n) (n_observed_votes n) (n_slashed n)
    (n_slash_registry n) (n_governance n) (n_last_local_vote_round n) (n_miss_streak n) (n_leader_wait n)
    (n_fallback_wait n) (n_verify_policy n) (n_sent n).

Definition set_qa_pool (q : PendingQaQueue) (n : BoingNode) : BoingNode :=
  mkNode (n_chain n) (n_consensus n) (n_state n) (n_executor n) (n_mempool n) (n_mempool_config n) q (n_receipts n)
    (n_aggregates n) (n_pending n) (n_pending_since n) (n_early_votes n) (n_observed_votes n) (n_slashed n)
    (n_slash_registry n) (n_governance n) (n_last_local_vote_round n) (n_miss_streak n) (n_leader_wait n)
    (n_fallback_wait n) (n_verify_policy n) (n_sent n).

Definition set_receipts (r : gmap Hash ExecutionReceipt) (n : BoingNode) : BoingNode :=
  mkNode (n_chain n) (n_consensus n) (n_state n) (n_executor n) (n_mempool n) (n_mempool_config n) (n_qa_pool n) r
    (n_aggregates n) (n_pending n) (n_pending_since n) (n_early_votes n) (n_observed_votes n) (n_slashed n)
    (n_slash_registry n) (n_governance n) (n_last_local_vote_round n) (n_miss_streak n) (n_leader_wait n)
    (n_fallback_wait n) (n_verify_policy n) (n_sent n).

Definition set_aggregates (a : ChainNativeAggregates) (n : BoingNode) : BoingNode :=
  mkNode (n_chain n) (n_consensus n) (n_state n) (n_executor n) (n_mempool n) (n_mempool_config n) (n_qa_pool n)
    (n_receipts n) a (n_pending n) (n_pending_since n) (n_early_votes n) (n_observed_votes n) (n_slashed n)
    (n_slash_registry n) (n_governance n) (n_last_local_vote_round n) (n_miss_streak n) (n_leader_wait n)
    (n_fallback_wait n) (n_verify_policy n) (n_sent n).

Definition set_pending (p : option PendingCommit) (since : option Z) (n : BoingNode) : BoingNode :=
  mkNode (n_chain n) (n_consensus n) (n_state n) (n_executor n) (n_mempool n) (n_mempool_config n) (n_qa_pool n)
    (n_receipts n) (n_aggregates n) p since (n_early_votes n) (n_observed_votes n) (n_slashed n)
    (n_slash_registry n) (n_governance n) (n_last_local_vote_round n) (n_miss_streak n) (n_leader_wait n)
    (n_fallback_wait n) (n_verify_policy n) (n_sent n).

Definition set_early_votes (m : gmap (Z * Hash) (list AccountId)) (n : BoingNode) : BoingNode :=
  mkNode (n_chain n) (n_consensus n) (n_state n) (n_executor n) (n_mempool n) (n_mempool_config n) (n_qa_pool n)
    (n_receipts n) (n_aggregates n) (n_pending n) (n_pending_since n) m (n_observed_votes n) (n_slashed n)
    (n_slash_registry n) (n_governance n) (n_last_local_vote_round n) (n_miss_streak n) (n_leader_wait n)
    (n_fallback_wait n) (n_verify_policy n) (n_sent n).

Definition set_observed_votes (m : gmap (Z * AccountId) ConsensusVote) (n : BoingNode) : BoingNode :=
  mkNode (n_chain n) (n_consensus n) (n_state n) (n_executor n) (n_mempool n) (n_mempool_config n) (n_qa_pool n)
    (n_receipts n) (n_aggregates n) (n_pending n) (n_pending_since n) (n_early_votes n) m (n_slashed n)
    (n_slash_registry n) (n_governance n) (n_last_local_vote_round n) (n_miss_streak n) (n_leader_wait n)
    (n_fallback_wait n) (n_verify_policy n) (n_sent n).

Definition set_slashed (m : gmap (AccountId * Z) Z) (n : BoingNode) : BoingNode :=
  mkNode (n_chain n) (n_consensus n) (n_state n) (n_executor n) (n_mempool n) (n_mempool_config n) (n_qa_pool n)
    (n_receipts n) (n_aggregates n) (n_pending n) (n_pending_since n) (n_early_votes n) (n_observed_votes n) m
    (n_slash_registry n) (n_governance n) (n_last_local_vote_round n) (n_miss_streak n) (n_leader_wait n)
    (n_fallback_wait n) (n_verify_policy n) (n_sent n).

Definition set_slash_registry (r : Mirror.SlashRegistry) (n : BoingNode) : BoingNode :=
  mkNode (n_chain n) (n_consensus n) (n_state n) (n_executor n) (n_mempool n) (n_mempool_config n) (n_qa_pool n)
    (n_receipts n) (n_aggregates n) (n_pending n) (n_pending_since n) (n_early_votes n) (n_observed_votes n)
    (n_slashed n) r (n_governance n) (n_last_local_vote_round n) (n_miss_streak n) (n_leader_wait n)
    (n_fallback_wait n) (n_verify_policy n) (n_sent n).

Definition set_governance (g : Governance.Governance) (n : BoingNode) : BoingNode :=
  mkNode (n_chain n) (n_consensus n) (n_state n) (n_executor n) (n_mempool n) (n_mempool_config n) (n_qa_pool n)
    (n_receipts n) (n_aggregates n) (n_pending n) (n_pending_since n) (n_early_votes n) (n_observed_votes n)
    (n_slashed n) (n_slash_registry n) g (n_last_local_vote_round n) (n_miss_streak n) (n_leader_wait n)
    (n_fallback_wait n) (n_verify_policy n) (n_sent n).

Definition set_last_local_vote_round (r : option Z) (n : BoingNode) : BoingNode :=
  mkNode (n_chain n) (n_consensus n) (n_state n) (n_executor n) (n_mempool n) (n_mempool_config n) (n_qa_pool n)
    (n_receipts n) (n_aggregates n) (n_pending n) (n_pending_since n) (n_early_votes n) (n_observed_votes n)
    (n_slashed n) (n_slash_registry n) (n_governance n) r (n_miss_streak n) (n_leader_wait n) (n_fallback_wait n)
    (n_verify_policy n) (n_sent n).

Definition set_miss_streak (m : gmap AccountId Z) (n : BoingNode) : BoingNode :=
  mkNode (n_chain n) (n_consensus n) (n_state n) (n_executor n) (n_mempool n) (n_mempool_config n) (n_qa_pool n)
    (n_receipts n) (n_aggregates n) (n_pending n) (n_pending_since n) (n_early_votes n) (n_observed_votes n)
    (n_slashed n) (n_slash_registry n) (n_governance n) (n_last_local_vote_round n) m (n_leader_wait n)
    (n_fallback_wait n) (n_verify_policy n) (n_sent n).

Definition set_leader_wait (w : option (Z * Z)) (n : BoingNode) : BoingNode :=
  mkNode (n_chain n) (n_consensus n) (n_state n) (n_executor n) (n_mempool n) (n_mempool_config n) (n_qa_pool n)
    (n_receipts n) (n_aggregates n) (n_pending n) (n_pending_since n) (n_early_votes n) (n_observed_votes n)
    (n_slashed n) (n_slash_registry n) (n_governance n) (n_last_local_vote_round n) (n_miss_streak n) w
    (n_fallback_wait n) (n_verify_policy n) (n_sent n).

Definition set_fallback_wait (w : option (Z * Z)) (n : BoingNode) : BoingNode :=
  mkNode (n_chain n) (n_consensus n) (n_state n) (n_executor n) (n_mempool n) (n_mempool_config n) (n_qa_pool n)
    (n_receipts n) (n_aggregates n) (n_pending n) (n_pending_since n) (n_early_votes n) (n_observed_votes n)
    (n_slashed n) (n_slash_registry n) (n_governance n) (n_last_local_vote_round n) (n_miss_streak n)
    (n_leader_wait n) w (n_verify_policy n) (n_sent n).

Definition set_verify_policy (p : TxSigPolicy) (n : BoingNode) : BoingNode :=
  mkNode (n_chain n) (n_consensus n) (n_state n) (n_executor n) (n_mempool n) (n_mempool_config n) (n_qa_pool n)
    (n_receipts n) (n_aggregates n) (n_pending n) (n_pending_since n) (n_early_votes n) (n_observed_votes n)
    (n_slashed n) (n_slash_registry n) (n_governance n) (n_last_local_vote_round n) (n_miss_streak n)
    (n_leader_wait n) (n_fallback_wait n) p (n_sent n).

Definition send (s : Sent) (n : BoingNode) : BoingNode :=
  mkNode (n_chain n) (n_consensus n) (n_state n) (n_executor n) (n_mempool n) (n_mempool_config n) (n_qa_pool n)
    (n_receipts n) (n_aggregates n) (n_pending n) (n_pending_since n) (n_early_votes n) (n_observed_votes n)
    (n_slashed n) (n_slash_registry n) (n_governance n) (n_last_local_vote_round n) (n_miss_streak n)
    (n_leader_wait n) (n_fallback_wait n) (n_verify_policy n) (n_sent n ++ [s]).

(** ** Operations *)

Section Ops.
Context `{Host} `{RegistryCodec} `{Iteration} `{TextOps} `{Crypto} `{HexText} `{PolicyJson} `{ReceiptCodec}.
Context (error_text : nat → ExecutionError → bytes).
Context (wire : Serde).
Context (cfg : NodeConfig).

Notation local := (bp_proposer (nc_producer cfg)).

Definition next_height (n : BoingNode) : Z := sat_add u64_max (cs_height (n_chain n)) 1.

(** A call of the engine. *)
Definition on_consensus {A} (f : ST ConsensusEngine ConsensusError A) : N (result A ConsensusError) := λ n,
  let '(r, e) := f (n_consensus n) in (Ok r, set_consensus e n).

(** [consensus.leader]. *)
Definition leader_of (h : Z) : N AccountId := n ← st_get; st_some (leader (n_consensus n) h) NodePanic.

(** [consensus.set_validators]. *)
Definition install_validators (set : list AccountId) : N () :=
  n ← st_get;
  e ← st_some (Consensus.set_validators (n_consensus n) set) NodePanic;
  st_put (set_consensus e n).

(** *** After a commit *)

Definition refresh_native_aggregates (n : BoingNode) : BoingNode :=
  set_aggregates (compute_native_aggregates (n_state n)) n.

Definition emit_head_subscriber_event (n : BoingNode) : BoingNode :=
  send (SentHead (cs_height (n_chain n)) (cs_latest_hash (n_chain n))) n.

Definition prune_receipts_if_due (h : Z) (n : BoingNode) : BoingNode :=
  if prune_due h then set_receipts (prune (n_receipts n) h (nc_retention cfg)).1 n else n.

Definition store_receipts (rs : list ExecutionReceipt) (n : BoingNode) : BoingNode :=
  set_receipts (foldl (λ m r, <[rc_tx_id r := r]> m) (n_receipts n) rs) n.

Definition maybe_publish_vrf_proof_for_current_round (n : BoingNode) : BoingNode :=
  if negb (bool_decide (leader_election (n_consensus n) = Vrf)) then n
  else match nc_key cfg with
  | None => n
  | Some key =>
      match prove_vrf (round (n_consensus n)) key with
      | None => n
      | Some g =>
          let '(stored, e) := insert_vrf_proof (n_consensus n) (vg_validator g) (vg_round g) (vg_vrf g) in
          let n := set_consensus e n in
          if stored then send (SentVrf g) n else n
      end
  end.

Definition maybe_refresh_stake_validators (committed_height : Z) : N () :=
  match nc_stake_set cfg with
  | None => mret ()
  | Some c =>
      if negb (is_refresh_height c committed_height) then mret ()
      else
        n ← st_get;
        let c := set_min_stake c (denom_scale (ex_denomination_at (n_executor n) committed_height) (ss_min_stake c)) in
        let next := next_validator_set (n_state n) c (validators (n_consensus n)) in
        if bool_decide (next = validators (n_consensus n)) then mret ()
        else
          _ ← install_validators next;
          st_modify maybe_publish_vrf_proof_for_current_round
  end.

Definition sync_open_validator_set : N () :=
  match open_validator_params (nc_pins cfg) with
  | None => mret ()
  | Some params =>
      n ← st_get;
      match OpenReg.consensus_set params (ar_validators (registries (contents (n_state n)) Store.OpenValidators)) with
      | None => mret ()
      | Some set =>
          _ ← (if bool_decide (set = validators (n_consensus n)) then mret () else install_validators set);
          n ← st_get;
          if bool_decide (anchors (n_consensus n) = ov_anchors params) then mret ()
          else st_put (set_consensus (set_anchors (n_consensus n) (ov_anchors params)) n)
      end
  end.

(** One record of the two loops of [sync_failed_serve_slash_records]. *)
Definition mirror_challenge (c : BlobSampleServeChallenge) (r : Mirror.SlashRegistry) : Mirror.SlashRegistry :=
  match ch_slash_id c with
  | None => r
  | Some id =>
      match Mirror.get_slash id r with
      | Some _ => r
      | None =>
          Mirror.record_slash_with_id id (ch_provider c) (ch_provider_penalty c) Mirror.MrBlobFailedServe
            (sat_add u64_max (ch_deadline_height c) 1) PHASE12_FAILED_SERVE_APPEAL_WINDOW_BLOCKS r
      end
  end.

Definition mirror_reason (r : ConsensusSlashReason) : option Mirror.SlashReason :=
  match r with
  | SrEquivocation => Some Mirror.MrEquivocation
  | SrLiveness => Some Mirror.MrLiveness
  | SrFraud => Some Mirror.MrFraud
  | SrBlobFailedServe => None
  | SrOther x => Some (Mirror.MrOther x)
  end.

Definition mirror_slash (s : ConsensusSlashRecord) (acc : gmap (AccountId * Z) Z * Mirror.SlashRegistry)
    : gmap (AccountId * Z) Z * Mirror.SlashRegistry :=
  match mirror_reason (sr_reason s) with
  | None => acc
  | Some reason =>
      let m := if bool_decide (sr_reason s = SrEquivocation)
               then <[(sr_account s, sr_block_height s) := sr_id s]> acc.1 else acc.1 in
      (m, match Mirror.get_slash (sr_id s) acc.2 with
          | Some _ => acc.2
          | None =>
              Mirror.record_slash_with_id (sr_id s) (sr_account s) (sr_amount s) reason (sr_block_height s)
                (sat_sub (sr_appeal_deadline s) (sr_block_height s)) acc.2
          end)
  end.

Definition sync_failed_serve_slash_records (n : BoingNode) : BoingNode :=
  let v := registries (contents (n_state n)) in
  let cs := filter (λ c, is_Some (ch_slash_id c)) (btree_list (challenges (ar_serve (v Store.SampleServe)))).*2 in
  let ss := (merge_sort Book.slash_le (map_to_list (slashes (ar_appeals (v Store.SlashAppeals))))).*2 in
  let reg := foldl (λ r c, mirror_challenge c r) (n_slash_registry n) cs in
  let '(m, reg) := foldl (λ acc s, mirror_slash s acc) (n_slashed n, reg) ss in
  set_slash_registry reg (set_slashed m n).

(** [retain] of the three maps of votes. *)
Definition retain_votes (keep_from : Z) (n : BoingNode) : BoingNode :=
  set_slashed (filter (λ e, keep_from ≤ e.1.2) (n_slashed n))
    (set_observed_votes (filter (λ e, keep_from ≤ e.1.1) (n_observed_votes n))
       (set_early_votes (filter (λ e, keep_from ≤ e.1.1) (n_early_votes n)) n)).

(** *** Commit *)

Definition commit_pending (p : PendingCommit) : N Hash :=
  let b := pc_block p in
  let h := height (header b) in
  n ← st_get;
  match append b (n_chain n) with
  | (Err _, _) => _ ← st_put (set_pending (Some p) (n_pending_since n) n); mret ZERO
  | (Ok _, c) =>
      _ ← st_put (set_state (pc_new_state p) (set_chain c n));
      _ ← st_modify (store_receipts (pc_receipts p));
      _ ← st_modify (prune_receipts_if_due h);
      _ ← st_modify (set_pending None None);
      _ ← st_modify (retain_votes (sat_sub h 64));
      _ ← st_modify refresh_native_aggregates;
      _ ← st_modify emit_head_subscriber_event;
      _ ← maybe_refresh_stake_validators h;
      _ ← sync_open_validator_set;
      _ ← st_modify sync_failed_serve_slash_records;
      _ ← st_modify (set_fallback_wait None);
      _ ← st_modify (λ n, set_miss_streak (<[proposer (header b) := 0]> (n_miss_streak n)) n);
      _ ← st_modify (set_leader_wait None);
      _ ← st_modify maybe_publish_vrf_proof_for_current_round;
      mret (block_hash b)
  end.

(** [pending_commit.take()] after the engine committed [h]. *)
Definition commit_if_pending (h : Hash) : N (option Hash) :=
  n ← st_get;
  match n_pending n with
  | Some p =>
      if bool_decide (block_hash (pc_block p) = h) then
        _ ← st_put (set_pending None (n_pending_since n) n);
        hash ← commit_pending p; mret (Some hash)
      else mret None
  | None => mret None
  end.

(** *** Equivocation reports *)

Definition refresh_tx_sig_policy : N TxSigPolicy :=
  n ← st_get;
  let p := tx_sig_policy (nc_env cfg) (ex_history (n_executor n)) (BOING_CHAIN_ID (nc_env cfg)) (next_height n) in
  _ ← st_put (set_verify_policy (unpack_tx_verify_policy (pack_tx_verify_policy p)) n);
  mret p.

Definition report_transaction (n : BoingNode) (evidence : EquivocationEvidence) (sender : AccountId) : Transaction :=
  let chain_nonce := from_option nonce 0 (get (n_state n) sender) in
  let slash_id := Book.peek_next_slash_id (ar_appeals (registries (contents (n_state n)) Store.SlashAppeals)) in
  let ids := [sender; evidence_validator evidence; slash_escrow_account slash_id] in
  mkTransaction (suggested_next_nonce sender chain_nonce (n_mempool n)) sender (ReportEquivocation evidence)
    (mkAccessList ids ids).

Definition queue_equivocation_report (evidence : EquivocationEvidence) : N bool :=
  n ← st_get;
  let key := (evidence_validator evidence, evidence_round evidence) in
  if negb (equivocation_slash_active (ex_vm (n_executor n)) (next_height n)) then mret false
  else match evidence_verify evidence with
  | Err _ => mret false
  | Ok _ =>
      if bool_decide (is_Some (n_slashed n !! key)) then mret false
      else match Book.find_equivocation_at_round (ar_appeals (registries (contents (n_state n)) Store.SlashAppeals))
                   (evidence_validator evidence) (evidence_round evidence) with
      | Some existing => _ ← st_put (set_slashed (<[key := sr_id existing]> (n_slashed n)) n); mret false
      | None =>
          let n := set_slashed (<[key := 0]> (n_slashed n)) n in
          _ ← st_put n;
          match nc_key cfg with
          | None => mret true
          | Some sk =>
              let signed := new_signed (nc_signing_chain_id cfg) (report_transaction n evidence (verifying_key sk)) sk in
              policy ← refresh_tx_sig_policy;
              n ← st_get;
              let '(r, pool) := insert_with_policy (n_mempool_config n) signed policy (n_mempool n) in
              let n := set_mempool pool n in
              match r with
              | Ok _ | Err Mempool.Duplicate => _ ← st_put n; mret true
              | Err _ => _ ← st_put (set_slashed (delete key (n_slashed n)) n); mret false
              end
          end
      end
  end.

Definition note_signed_vote_and_maybe_slash (v : ConsensusVote) : N () :=
  n ← st_get;
  let key := (cv_round v, cv_validator v) in
  match n_observed_votes n !! key with
  | Some prev =>
      if bool_decide (cv_block_hash prev = cv_block_hash v) then mret ()
      else match try_from_votes prev v with
      | Err _ => mret ()
      | Ok ev =>
          queued ← queue_equivocation_report ev;
          match queued with true => st_modify (send (SentEquivocation ev)) | false => mret () end
      end
  | None => st_put (set_observed_votes (<[key := v]> (n_observed_votes n)) n)
  end.

Definition on_equivocation_evidence (ev : EquivocationEvidence) : N bool :=
  match evidence_verify ev with
  | Err _ => mret false
  | Ok _ =>
      n ← st_get;
      if negb (bool_decide (evidence_validator ev ∈ validators (n_consensus n))) then mret false
      else
        queued ← queue_equivocation_report ev;
        _ ← match queued with true => st_modify (send (SentEquivocation ev)) | false => mret () end;
        mret queued
  end.

Definition submit_slash_appeal (slash_id : Z) (evidence : bytes) : N (result Z Mirror.SlashingError) :=
  n ← st_get;
  match slashes (ar_appeals (registries (contents (n_state n)) Store.SlashAppeals)) !! slash_id with
  | Some _ => mret (Err Mirror.ConsensusBookOwnsSlash)
  | None =>
      let '(r, reg) := Mirror.submit_appeal slash_id evidence (cs_height (n_chain n)) (n_slash_registry n) in
      _ ← st_put (set_slash_registry reg n); mret r
  end.

Definition resolve_slash_appeal (appeal_id : Z) (approved : bool) : N (result Z Mirror.SlashingError) :=
  n ← st_get;
  match Mirror.get_appeal appeal_id (n_slash_registry n) with
  | None => mret (Err Mirror.AppealNotFound)
  | Some a =>
      match slashes (ar_appeals (registries (contents (n_state n)) Store.SlashAppeals)) !! Mirror.ma_slash_id a with
      | Some _ => mret (Err Mirror.ConsensusBookOwnsSlash)
      | None =>
          let '(r, reg) := Mirror.resolve_appeal appeal_id approved (n_slash_registry n) in
          _ ← st_put (set_slash_registry reg n);
          mret (match r with Ok _ => Ok 0 | Err e => Err e end)
      end
  end.

(** *** Votes *)

Fixpoint apply_early_votes (bh : Hash) (voters : list AccountId) : N (option Hash) :=
  match voters with
  | [] => mret None
  | v :: rest =>
      r ← on_consensus (Consensus.vote bh v);
      match r with
      | Ok (Some h) => commit_if_pending h
      | _ => apply_early_votes bh rest
      end
  end.

Definition drain_early_votes_for_pending (bh : Hash) : N (option Hash) :=
  n ← st_get;
  let key := (round (n_consensus n), bh) in
  _ ← st_put (set_early_votes (delete key (n_early_votes n)) n);
  apply_early_votes bh (default [] (n_early_votes n !! key)).

(** The signed vote of a node with a key. *)
Definition broadcast_signed_vote (r : Z) (bh : Hash) : N () :=
  match nc_key cfg with
  | None => mret ()
  | Some key =>
      let v := sign_vote r bh key in
      _ ← note_signed_vote_and_maybe_slash v;
      st_modify (send (SentVote v))
  end.

Definition vote_locally_and_maybe_broadcast (bh : Hash) : N (option Hash) :=
  n ← st_get;
  let r := round (n_consensus n) in
  if negb (bool_decide (local ∈ validators (n_consensus n))) then mret None
  else if bool_decide (n_last_local_vote_round n = Some r) then mret None
  else
    res ← on_consensus (Consensus.vote bh local);
    match res with
    | Err _ => mret None
    | Ok committed =>
        _ ← st_modify (set_last_local_vote_round (Some r));
        _ ← broadcast_signed_vote r bh;
        match committed with Some h => commit_if_pending h | None => mret None end
    end.

(** The buffering of a vote without a matching proposal. *)
Definition buffer_vote (v : ConsensusVote) (n : BoingNode) : BoingNode :=
  let tip_round := round (n_consensus n) in
  let key := (cv_round v, cv_block_hash v) in
  let push n := set_early_votes (<[key := default [] (n_early_votes n !! key) ++ [cv_validator v]]> (n_early_votes n)) n in
  if sat_add u64_max tip_round MAX_EARLY_AHEAD <? cv_round v then n
  else if wrap_add u64_max (cv_round v) 64 <? tip_round then n
  else if (MAX_EARLY_ENTRIES <=? size (n_early_votes n))%nat && negb (bool_decide (is_Some (n_early_votes n !! key))) then
    let n := set_early_votes (filter (λ e, sat_sub tip_round 64 ≤ e.1.1) (n_early_votes n)) n in
    if (MAX_EARLY_ENTRIES <=? size (n_early_votes n))%nat then n else push n
  else push n.

Definition on_consensus_vote (v : ConsensusVote) : N (option Hash) :=
  match vote_verify v with
  | Err _ => mret None
  | Ok _ =>
      n ← st_get;
      if negb (bool_decide (cv_validator v ∈ validators (n_consensus n))) then mret None
      else
        _ ← note_signed_vote_and_maybe_slash v;
        n ← st_get;
        let have_pending := match n_pending n with
                            | Some p => bool_decide (block_hash (pc_block p) = cv_block_hash v)
                            | None => false
                            end in
        if negb have_pending || negb (round (n_consensus n) =? cv_round v) then
          _ ← (if (round (n_consensus n) =? cv_round v) || bool_decide (pending_block (n_consensus n) = None)
               then st_modify (buffer_vote v) else mret ());
          mret None
        else
          res ← on_consensus (Consensus.vote (cv_block_hash v) (cv_validator v));
          match res with
          | Ok (Some h) => commit_if_pending h
          | _ => mret None
          end
  end.

(** *** Blocks from the network *)

(** [import_block] against the node's tip. *)
Definition import_at_tip (clock : Clock) (b : Block) (n : BoingNode)
    : result (VmStore * list ExecutionReceipt) ImportFault :=
  import_block (nc_env cfg) (nc_signing_chain_id cfg) error_text (nc_pins cfg) (n_executor n) (ck_unix clock) b
    (cs_latest_hash (n_chain n)) (cs_height (n_chain n)) (n_state n) (n_consensus n) (tip_timestamp (n_chain n)).

(** A vote for another proposal at this height is superseded. *)
Definition supersede_vote (b : Block) (n : BoingNode) : BoingNode :=
  if bool_decide (n_last_local_vote_round n = Some (height (header b)))
     && match n_pending n with
        | Some p => negb (bool_decide (block_hash (pc_block p) = block_hash b))
        | None => false
        end
  then set_last_local_vote_round None n else n.

(** Voting on a proposal that was accepted or made. *)
Definition enter_pending (clock : Clock) (p : PendingCommit) : N (option Hash) :=
  _ ← st_modify (set_pending (Some p) (Some (ck_instant clock)));
  let bh := block_hash (pc_block p) in
  committed ← vote_locally_and_maybe_broadcast bh;
  match committed with
  | Some h => mret (Some h)
  | None => drain_early_votes_for_pending bh
  end.

Definition handle_network_block (clock : Clock) (b : Block) : N (option Hash) :=
  n ← st_get;
  match import_at_tip clock b n with
  | Err (Refused e) => st_fail (NodeRefused e)
  | Err ImportCrash => st_fail NodePanic
  | Ok (new_state, rs) =>
      accepted ← on_consensus (accept_proposal b);
      match accepted with
      | Err e => st_fail (NodeNotAccepted e)
      | Ok _ =>
          _ ← st_modify (supersede_vote b);
          enter_pending clock (mkPendingCommit b rs new_state)
      end
  end.

Definition import_network_block (clock : Clock) (b : Block) : N () :=
  _ ← handle_network_block clock b; mret ().

Definition import_network_block_catchup (clock : Clock) (b : Block) : N () :=
  n ← st_get;
  match import_at_tip clock b n with
  | Err (Refused e) => st_fail (NodeRefused e)
  | Err ImportCrash => st_fail NodePanic
  | Ok (new_state, rs) =>
      let h := height (header b) in
      _ ← st_put (set_state new_state n);
      match append b (n_chain n) with
      | (Err _, _) => st_fail NodePanic
      | (Ok _, c) =>
          _ ← st_modify (set_chain c);
          _ ← st_modify (λ n, set_consensus (sync_round (n_consensus n) (sat_add u64_max h 1)) n);
          _ ← st_modify (set_pending None None);
          _ ← st_modify (store_receipts rs);
          _ ← st_modify (prune_receipts_if_due h);
          _ ← st_modify refresh_native_aggregates;
          _ ← st_modify emit_head_subscriber_event;
          _ ← maybe_refresh_stake_validators h;
          _ ← sync_open_validator_set;
          _ ← st_modify sync_failed_serve_slash_records;
          st_modify maybe_publish_vrf_proof_for_current_round
      end
  end.

Definition on_vrf_proof (g : VrfProofGossip) : N bool :=
  if negb (vrf_gossip_verify g) then mret false
  else
    n ← st_get;
    let '(stored, e) := insert_vrf_proof (n_consensus n) (vg_validator g) (vg_round g) (vg_vrf g) in
    _ ← st_put (set_consensus e n); mret stored.

(** *** Timers *)

Definition abandon_stuck_proposal (n : BoingNode) : BoingNode :=
  let r := round (n_consensus n) in
  let early := match n_pending n with
               | Some p => delete (r, block_hash (pc_block p)) (n_early_votes n)
               | None => n_early_votes n
               end in
  set_consensus (abandon_proposal (n_consensus n))
    (set_early_votes early (set_last_local_vote_round None (set_pending None None n))).

Definition tick_proposal_timeout (clock : Clock) (n : BoingNode) : BoingNode :=
  match n_pending n with
  | None => set_pending None None n
  | Some p =>
      match n_pending_since n with
      | None => set_pending (Some p) (Some (ck_instant clock)) n
      | Some since =>
          if ck_instant clock - since <? nc_proposal_timeout cfg then n else abandon_stuck_proposal n
      end
  end.

Definition anchor_fallback_due (clock : Clock) : N bool :=
  n ← st_get;
  let h := next_height n in
  if negb (bool_decide (fallback_anchor (n_consensus n) h = Some local)) then
    (_ ← st_put (set_fallback_wait None n); mret false)
  else
    l ← leader_of h;
    if bool_decide (l = local) || (mp_len (n_mempool n) =? 0)%nat then
      (_ ← st_put (set_fallback_wait None n); mret false)
    else match n_fallback_wait n with
    | Some (h', since) =>
        if h' =? h then mret (nc_fallback_timeout cfg <=? ck_instant clock - since)
        else (_ ← st_put (set_fallback_wait (Some (h, ck_instant clock)) n); mret (nc_fallback_timeout cfg =? 0))
    | None => _ ← st_put (set_fallback_wait (Some (h, ck_instant clock)) n); mret (nc_fallback_timeout cfg =? 0)
    end.

Definition tick_liveness (clock : Clock) : N () :=
  n ← st_get;
  let quiet := st_put (set_leader_wait None n) in
  if (length (validators (n_consensus n)) <=? 1)%nat then mret ()
  else if negb (bool_decide (anchors (n_consensus n) = [])) || bool_decide (is_Some (open_validator_params (nc_pins cfg)))
  then quiet
  else if bool_decide (is_Some (n_pending n)) then quiet
  else
    let h := next_height n in
    l ← leader_of h;
    if bool_decide (l = local) then quiet
    else if (mp_len (n_mempool n) =? 0)%nat then quiet
    else
      let restart := set_leader_wait (Some (h, ck_instant clock)) n in
      match n_leader_wait n with
      | Some (h', started) =>
          if negb (h' =? h) then st_put restart
          else if ck_instant clock - started <? LIVENESS_LEADER_TIMEOUT_SECS then mret ()
          else
            let streak := match n_miss_streak n !! l with Some s => sat_add u32_max s 1 | None => 1 end in
            st_put (set_miss_streak (<[l := if streak <? LIVENESS_MISS_THRESHOLD then streak else 0]>
                                       (n_miss_streak n)) restart)
      | None => st_put restart
      end.

(** *** Production *)

Definition apply_qa_pool_expirations (clock : Clock) : N () :=
  policy ← refresh_tx_sig_policy;
  n ← st_get;
  let '(resolved, q) := QaPool.prune_expired (ck_pool clock) (n_qa_pool n) in
  let readmit pool (e : Hash * PoolResolution) :=
    match e.2 with
    | ResAllow bytes =>
        match tb_decode wire bytes with
        | Some signed => (insert_after_pool_allow_with_policy (n_mempool_config n) signed policy pool).2
        | None => pool
        end
    | _ => pool
    end in
  st_put (set_mempool (foldl readmit (n_mempool n) resolved) (set_qa_pool q n)).

Definition produce_block_if_ready (clock : Clock) : N (option Hash) :=
  _ ← apply_qa_pool_expirations clock;
  _ ← st_modify (tick_proposal_timeout clock);
  n ← st_get;
  if bool_decide (is_Some (n_pending n)) then mret None
  else if bool_decide (n_last_local_vote_round n = Some (next_height n)) then mret None
  else
    anchor_fallback ← anchor_fallback_due clock;
    n ← st_get;
    match produce_proposal_with_fallback (nc_env cfg) (nc_signing_chain_id cfg) error_text (nc_pins cfg) (n_executor n) (n_mempool_config n)
            (n_verify_policy n) (ck_unix clock) (nc_producer cfg) (n_chain n) (n_mempool n) (n_state n)
            (n_consensus n) anchor_fallback with
    | None => st_fail NodePanic
    | Some (proposal, pool, st) =>
        _ ← st_put (set_state st (set_mempool pool n));
        match proposal with
        | None => mret None
        | Some p =>
            proposed ← on_consensus (Consensus.propose (pp_block p));
            match proposed with
            | Err _ => mret None
            | Ok _ =>
                _ ← st_modify (send (SentBlock (pp_block p)));
                enter_pending clock (mkPendingCommit (pp_block p) (pp_receipts p) (pp_new_state p))
            end
        end
    end.

(** *** Policies *)

Definition execution_gas_waived (p : NetworkFeePolicy) : bool := execution_gas_fee_bps p =? 0.

(** The caps on free transactions hold when execution gas is waived by the policy in force. *)
Definition sync_mempool_optional_fees_flag (p : NetworkFeePolicy) (n : BoingNode) : BoingNode :=
  set_mempool_config (set_optional_fees
    (execution_gas_waived p && micro_fees_active (n_executor n) (next_height n)) (n_mempool_config n)) n.

(** [set_fee_policy]. *)
Definition apply_fee_policy (p : NetworkFeePolicy) (n : BoingNode) : BoingNode :=
  let n := sync_mempool_optional_fees_flag p n in
  set_executor (mkExecutor (ex_vm (n_executor n)) p (ex_history (n_executor n))) n.

(** [set_qa_policy]. *)
Definition apply_qa_policy (r : RuleRegistry) (c : QaPoolGovernanceConfig) (n : BoingNode) : BoingNode :=
  let x := n_executor n in
  set_qa_pool (mkQueue (q_items (n_qa_pool n)) c)
    (set_executor (mkExecutor (set_qa_policies (ex_vm x) r c) (ex_fee_policy x) (ex_history x))
       (set_mempool_config (set_qa_registry r (n_mempool_config n)) n)).

(** The calls of an operator, which check the policy first. *)
Definition operator_fee_policy (p : NetworkFeePolicy) (n : BoingNode) : BoingNode :=
  if fee_policy_validate p then apply_fee_policy p n else n.

Definition operator_qa_policy (r : RuleRegistry) (c : QaPoolGovernanceConfig) (n : BoingNode) : BoingNode :=
  if rules_validate r && pool_config_validate c then apply_qa_policy r c n else n.

(** A call of the node's own governance. *)
Definition on_own_governance {A} (f : ST Governance.Governance GovernanceError A) : N (result A GovernanceError) := λ n,
  let '(r, g) := f (n_governance n) in (Ok r, set_governance g n).

Definition governance_propose (key : string) (value : bytes) (now : Z) : N (result Z GovernanceError) :=
  on_own_governance (Gov.propose_at key value now).

Definition governance_vote (id : Z) (voter : AccountId) (approve : bool) (weight_override : option Z)
    : N (result () GovernanceError) :=
  n ← st_get;
  let weight := match weight_override with
                | Some w => w
                | None => from_option stake 0 (get (n_state n) voter)
                end in
  on_own_governance (Gov.cast_vote id voter approve weight).

Definition governance_advance_cooling (id now : Z) : N (result () GovernanceError) :=
  on_own_governance (Gov.advance_to_cooling id now).

Definition governance_advance_execution (id now : Z) : N (result () GovernanceError) :=
  on_own_governance (Gov.advance_to_execution id now).

(** What an executed proposal installs; [None] is a value that is refused. *)
Definition governed (key : string) (value : bytes) (n : BoingNode) : option BoingNode :=
  if bool_decide (key = "network_fee_config") then
    p ← network_fee_policy_from_json wire value;
    if fee_policy_validate p then Some (apply_fee_policy p n) else None
  else if bool_decide (key = "qa_registry") then
    r ← rule_registry_from_json value;
    if rules_validate r then Some (apply_qa_policy r (q_governance (n_qa_pool n)) n) else None
  else if bool_decide (key = "qa_pool_config") then
    c ← qa_pool_config_from_json value;
    if pool_config_validate c then Some (apply_qa_policy (mp_qa_registry (n_mempool_config n)) c n) else None
  else None.

(** An error is the answer [Err]; the proposal is used up all the same. *)
Definition governance_execute (id now : Z) : N (result string ()) :=
  r ← on_own_governance (Gov.execute id now);
  match r with
  | Err _ => mret (Err ())
  | Ok (key, value) =>
      n ← st_get;
      match governed key value n with
      | Some n' => _ ← st_put n'; mret (Ok key)
      | None => mret (Err ())
      end
  end.

(** *** A new node *)

Definition GENESIS_DEV_BALANCE : Z := 1000000 * BASE_UNITS_PER_BOING.

(** [with_validators]; [None] is a failed assertion. *)
Definition with_validators (vals : list AccountId) : option BoingNode :=
  match nc_key cfg with
  | Some key => if bool_decide (verifying_key key = local) then Some () else None
  | None => Some ()
  end ≫= λ _,
  e ← Consensus.new vals;
  let genesis := genesis_block local in
  let e := sync_round (propose_and_commit genesis e).2 1 in
  let st := insert_account local (with_balance GENESIS_DEV_BALANCE) new_store in
  Some (mkNode (from_genesis genesis) e st (nc_executor cfg) new_inner (nc_mempool cfg) (mkQueue ∅ development_default) ∅ (compute_native_aggregates st)
          None None ∅ ∅ ∅ Mirror.new_mirror Gov.default_gov None ∅ None None (mkTxSigPolicy None false) []).

Definition allocate (st : VmStore) (a : AccountId * Z) : VmStore := insert_account a.1 (with_balance a.2) st.

Definition apply_genesis_spec (spec : GenesisSpec) (n : BoingNode) : bool * BoingNode :=
  if negb (cs_height (n_chain n) =? 0) then (false, n)
  else
    let genesis := genesis_block (gs_proposer spec) in
    let changed := negb (bool_decide (cs_latest_hash (n_chain n) = block_hash genesis)) in
    let n := if changed then set_chain (from_genesis genesis) n else n in
    (changed, refresh_native_aggregates (set_state (foldl allocate new_store (gs_allocations spec)) n)).

(** [enable_open_validator_set], the parameters being those of the configuration. *)
Definition enable_open_validator_set : N () := sync_open_validator_set.

(** [restore_stake_validator_set], given the set found on the disk. *)
Definition restore_stake_validator_set (persisted : option (Z * list AccountId)) : N (option (list AccountId)) :=
  match nc_stake_set cfg with
  | None => mret None
  | Some c =>
      n ← st_get;
      let tip := cs_height (n_chain n) in
      let c := set_min_stake c (denom_scale (ex_denomination_at (n_executor n) tip) (ss_min_stake c)) in
      match last_refresh_height c tip with
      | None => mret None
      | Some boundary =>
          let set := match persisted with
                     | Some (h, ((_ :: _) as set)) =>
                         if h =? boundary then set else next_validator_set (n_state n) c (validators (n_consensus n))
                     | _ => next_validator_set (n_state n) c (validators (n_consensus n))
                     end in
          _ ← (if bool_decide (set = validators (n_consensus n)) then mret () else install_validators set);
          mret (Some set)
      end
  end.

(** *** Start-up *)

(** What the network's preset and the command line ask for at the start, beside the
    configuration: the genesis, the heights of the tree layouts, the leader election, the
    policies of the operator and the account of the faucet. *)
Record Startup := mkStartup {
  su_genesis : option GenesisSpec;
  su_storage_tree_v2 : option Z;
  su_account_tree_v3 : option Z;
  su_leader_election : LeaderElection;
  su_qa_policy : option (RuleRegistry * QaPoolGovernanceConfig);
  su_fee_policy : option NetworkFeePolicy;
  su_faucet : option AccountId;
}.

Definition enable_storage_tree_v2 (h : Z) (n : BoingNode) : BoingNode :=
  set_state (set_storage_tree_v2_activation (Some h) (n_state n)) n.

Definition enable_account_tree_v3 (h : Z) (n : BoingNode) : BoingNode :=
  set_state (set_account_tree_v3_activation (Some h) (n_state n)) n.

(** The account of the faucet is created at the genesis only. *)
Definition faucet_funded (x : BlockExecutor) (id : AccountId) (st : VmStore) : VmStore :=
  match get st id with
  | Some _ => st
  | None => insert_account id (with_balance (denom_scale (ex_denomination_at x 0) FAUCET_INITIAL_BALANCE)) st
  end.

Definition fund_faucet (id : AccountId) (n : BoingNode) : BoingNode :=
  match get (n_state n) id with
  | Some _ => n
  | None =>
      if negb (cs_height (n_chain n) =? 0) then n
      else refresh_native_aggregates (set_state (faucet_funded (n_executor n) id (n_state n)) n)
  end.

Definition when {A} (o : option A) (f : A → BoingNode → BoingNode) : N () :=
  match o with Some a => st_modify (f a) | None => mret () end.

(** [main] up to the start of the server: the network's preset, the validator set, the tree
    layouts and the election, then the policies of the command line, the faucet, and the
    first announcement of the head. *)
Definition start_up (su : Startup) : N () :=
  _ ← when (su_genesis su) (λ g n, (apply_genesis_spec g n).2);
  _ ← restore_stake_validator_set None;
  _ ← enable_open_validator_set;
  _ ← when (su_storage_tree_v2 su) enable_storage_tree_v2;
  _ ← when (su_account_tree_v3 su) enable_account_tree_v3;
  _ ← st_modify (λ n, set_consensus (set_leader_election (n_consensus n) (su_leader_election su)) n);
  _ ← st_modify maybe_publish_vrf_proof_for_current_round;
  _ ← when (su_qa_policy su) (λ p, apply_qa_policy p.1 p.2);
  _ ← when (su_fee_policy su) apply_fee_policy;
  _ ← when (su_faucet su) fund_faucet;
  st_modify emit_head_subscriber_event.

(** The node as [main] starts it on an empty data directory; the mempool is never stored. *)
Definition boot (vals : list AccountId) (su : Startup) : option BoingNode :=
  n ← with_validators vals;
  match start_up su n with (Ok _, n) => Some n | (Err _, _) => None end.

End Ops.
