(* ===== verification/Admission.v ===== *)
(** * Admission of transactions

    Models the part of [crates/boing-node/src/node.rs] that decides what enters the mempool:
    the prechecks, [submit_transaction] with its path for gossip, and the votes of the review
    pool. The answers of the media blob store on the disk are an argument, as is the answer
    of the limiter of gossiped transactions. *)

From S2P Require Import Prelude Types Names Governance Blobs SampleMarket SlashAppeals Signatures OpenValidators Consensus Qa Merkle Store Tokenomics Scheduler Interp Vm Executor Mempool Chain Blocks NodeParts Node.

(** What the store answers: size and publisher of a blob, and the provider and expiry of
    the cheapest offer that its replayed book holds for a chunk. *)
Record BlobSidecar := mkSidecar {
  sc_meta : BlobId → option (Z * AccountId);
  sc_best_offer : BlobId → Z → Z → option (AccountId * Z);
}.

Inductive AdmitFault :=
| AdmitRefused (e : MempoolError)
| AdmitPanic.

Inductive QaPoolVoteResult :=
| QvPending
| QvRejected
| QvAllowedAdmitted
| QvAllowedAlreadyInMempool
| QvAllowedMempoolFailed (e : MempoolError).

Definition is_validator_tx (p : TransactionPayload) : bool :=
  match p with ValidatorRegister _ _ | ValidatorDeregister _ | ValidatorUnjail _ => true | _ => false end.

Definition is_name_tx (p : TransactionPayload) : bool :=
  match p with
  | NameCommit _ | NameRegister _ _ _ _ | NameRenew _ _ | NameTransfer _ _ | NameSetTarget _ _ | NameSetPrimary _
  | NameRelease _ => true
  | _ => false
  end.

Definition carries_value (p : TransactionPayload) : bool :=
  match p with
  | ContractCallWithValue _ _ _ => true
  | Batch calls => existsb (λ c, match c with BatchContractCallWithValue _ _ _ => true | _ => false end) calls
  | _ => false
  end.

Section Admission.
Context `{Host} `{RegistryCodec} `{Iteration} `{TextOps} `{Crypto} `{HexText} `{PolicyJson} `{ReceiptCodec}.
Context (wire : Serde) (cfg : NodeConfig).

Notation Verdict := (result () AdmitFault).

Definition refuse (e : MempoolError) : Verdict := Err (AdmitRefused e).

(** ** The machine of the prechecks *)

Definition canonical_qa_pool_for_next_block (n : BoingNode) : option QaPoolGovernanceConfig :=
  if qa_canonical_active (ex_vm (n_executor n)) (next_height n) then Some (canonical_qa_policy (n_state n)).2 else None.

Definition admission_vm (n : BoingNode) : VmConfig :=
  set_qa_policies (ex_vm (n_executor n)) (mp_qa_registry (n_mempool_config n))
    (default (q_governance (n_qa_pool n)) (canonical_qa_pool_for_next_block n)).

(** Executing [s] on a copy of the state, prepared for the next height. *)
Definition prepared (n : BoingNode) : VmStore := prepare_state_for_height (n_executor n) (next_height n) (snapshot (n_state n)).

Definition dry_run (s : SignedTransaction) (timestamp : Z) (n : BoingNode) : result VmExecutionResult Fault * VmStore :=
  execute_with_context (nc_pins cfg) (admission_vm n) (nc_signing_chain_id cfg) (st_tx s)
    (mkCtx (next_height n) timestamp false false false false false) (prepared n).

(** ** Prechecks *)

Definition precheck_sender_viable (s : SignedTransaction) (n : BoingNode) : Verdict :=
  let next := next_height n in
  match get (n_state n) (tx_sender (st_tx s)) with
  | None => refuse UnknownSender
  | Some acct =>
      if tx_nonce (st_tx s) <? nonce acct then refuse (StaleNonce (nonce acct) (tx_nonce (st_tx s)))
      else if negb (bool_decide (redenomination_height (n_executor n) = Some next)) && failed_tx_fee_active (n_executor n) next then
        let need := failed_tx_fee_amount_in (fee_rule_at (n_executor n) next).1 (ex_denomination_at (n_executor n) next) in
        if balance acct <? need then refuse (InsufficientFee (balance acct) need) else Ok ()
      else Ok ()
  end.

(** The gate on transactions without a tip. *)
Definition free_tx_gate (s : SignedTransaction) (have : Z) (n : BoingNode) : Verdict :=
  let policy := ex_fee_policy (n_executor n) in
  if (st_priority_tip s =? 0) && execution_gas_waived policy && (0 <? free_tx_min_balance policy)
     && (have <? free_tx_min_balance policy)
  then refuse (FreeTxBalanceGate have (free_tx_min_balance policy)) else Ok ().

Definition fee_needed (s : SignedTransaction) (gas : Z) (n : BoingNode) : Z :=
  sat_add u128_max (network_fee_at (n_executor n) gas (tx_payload (st_tx s)) (next_height n)) (st_priority_tip s).

Definition precheck_transfer_fast (s : SignedTransaction) (to : AccountId) (amount : Z) (n : BoingNode) : Verdict :=
  let acct := get (n_state n) (tx_sender (st_tx s)) in
  let have := from_option balance 0 acct in
  match free_tx_gate s have n with
  | Err e => Err e
  | Ok _ =>
      if negb (bool_decide (nonce <$> acct = Some (tx_nonce (st_tx s)))) || (have <? amount) then Ok ()
      else
        let need := fee_needed s GAS_PER_TRANSFER n in
        let remaining := if bool_decide (to = tx_sender (st_tx s)) then have else have - amount in
        if remaining <? need then refuse (InsufficientFee have need) else Ok ()
  end.

Definition precheck_sender_can_pay_fee_full (s : SignedTransaction) (n : BoingNode) : Verdict :=
  let have := from_option balance 0 (get (prepared n) (tx_sender (st_tx s))) in
  let timestamp := from_option (timestamp ∘ header) 0 (get_block_by_height (cs_height (n_chain n)) (n_chain n)) in
  match free_tx_gate s have n with
  | Err e => Err e
  | Ok _ =>
      match dry_run s timestamp n with
      | (Ok out, st) =>
          let need := fee_needed s (res_gas_used out) n in
          if from_option balance 0 (get st (tx_sender (st_tx s))) <? need then refuse (InsufficientFee have need) else Ok ()
      | (Err (Vm _), _) => Ok ()
      | (Err _, _) => Err AdmitPanic
      end
  end.

Definition at_redenomination (n : BoingNode) : bool := bool_decide (redenomination_height (n_executor n) = Some (next_height n)).

Definition fee_precheck_is_expensive (s : SignedTransaction) (n : BoingNode) : bool :=
  match tx_payload (st_tx s) with Transfer _ _ => at_redenomination n | _ => true end.

Definition precheck_sender_can_pay_fee (s : SignedTransaction) (n : BoingNode) : Verdict :=
  if contains_tx_id (tx_id (st_tx s)) (n_mempool n) then refuse Mempool.Duplicate
  else match tx_payload (st_tx s) with
  | Transfer to amount =>
      if at_redenomination n then precheck_sender_can_pay_fee_full s n else precheck_transfer_fast s to amount n
  | _ => precheck_sender_can_pay_fee_full s n
  end.

(** The outcome a dry run must have; a later nonce waits behind earlier transactions. *)
Definition must_execute (e : MempoolError) (s : SignedTransaction) (n : BoingNode) : Verdict :=
  match (dry_run s 0 n).1 with
  | Ok _ | Err (Vm (InvalidNonce _ _)) => Ok ()
  | Err (Vm _) => refuse e
  | Err _ => Err AdmitPanic
  end.

Definition precheck_open_validator_tx (s : SignedTransaction) (n : BoingNode) : Verdict :=
  if is_validator_tx (tx_payload (st_tx s)) then must_execute OpenValidatorRejected s n else Ok ().

Definition precheck_name_tx (s : SignedTransaction) (n : BoingNode) : Verdict :=
  if is_name_tx (tx_payload (st_tx s)) then must_execute NameRejected s n else Ok ().

Definition precheck_native_value_tx (s : SignedTransaction) (n : BoingNode) : Verdict :=
  if carries_value (tx_payload (st_tx s)) && negb (native_value_active (ex_vm (n_executor n)) (next_height n))
  then refuse (MpNativeValueNotActive (native_value_from (ex_vm (n_executor n)))) else Ok ().

Definition is_ok {A E} (r : result A E) : bool := match r with Ok _ => true | Err _ => false end.

(** Refuses unless all conditions hold; every reason is a text of one error. *)
Definition media_if (conds : list bool) : Verdict := if forallb id conds then Ok () else refuse MediaBlobRejected.

Definition sample_cap (n : BoingNode) : Z :=
  media_blob_max_das_chunks_at (next_height n) (media_blobs_phase7_cap_from (ex_vm (n_executor n))).

(** The offer of a settlement: the committed book, else the replayed one. *)
Definition settle_offer_ok (store : option BlobSidecar) (blob_id : BlobId) (i count : Z) (provider : AccountId) (n : BoingNode)
    : bool :=
  let tip := cs_height (n_chain n) in
  match offers (sample_offers (n_state n)) !! sample_offer_market_key blob_id i provider with
  | Some o => (eo_chunk_count o =? count) && negb (offer_is_expired o tip)
  | None =>
      match s ← store; sc_best_offer s blob_id i tip with
      | Some (p, expires) => negb (bool_decide (p = provider) && ((0 <? expires) && (expires <? tip)))
      | None => true
      end
  end.

(** [|slash_appeal_resolvers|]. *)
Definition pinned_len : nat := from_option length 0%nat (slash_appeal_resolvers (nc_pins cfg)).

Definition precheck_media_blob_tx (store : option BlobSidecar) (s : SignedTransaction) (n : BoingNode) : Verdict :=
  let next := next_height n in
  let sender := tx_sender (st_tx s) in
  let st := n_state n in
  let active := media_blobs_active (ex_vm (n_executor n)) next in
  let max := media_blob_max_bytes (ex_vm (n_executor n)) next in
  let validator id := bool_decide (id ∈ validators (n_consensus n)) in
  let flip := bls_committee_flip_from (ex_vm (n_executor n)) in
  let sample i count := is_ok (validate_pay_blob_sample_with_max_chunks i count (sample_cap n)) in
  match tx_payload (st_tx s) with
  | PutBlob r content_type data => media_if [active; is_ok (validate_put_blob_with_cap r content_type data max)]
  | BlobAnnounce blob_id size r content_type =>
      media_if [active; is_ok (validate_blob_announce_with_cap blob_id size r content_type max)]
  | RenewMediaBlobPin blob_id size extend_blocks =>
      media_if [active; is_ok (validate_renew_media_blob_pin size extend_blocks);
        match store with
        | Some sc => bool_decide (fst <$> sc_meta sc blob_id = Some size)
        | None => true
        end]
  | PayBlobSample blob_id i count => media_if [active; sample i count]
  | RegisterBlobSampleOffer blob_id i count ask_fee expires =>
      media_if [active; is_ok (validate_register_blob_sample_offer i count)]
  | SettleBlobSampleMatch blob_id i count provider =>
      media_if [active; sample i count; settle_offer_ok store blob_id i count provider n]
  | CancelBlobSampleOffer blob_id i =>
      media_if [active; bool_decide (is_Some (offers (sample_offers st) !! sample_offer_market_key blob_id i sender))]
  | ChallengeBlobSampleServe blob_id i count provider =>
      media_if [active; sample i count; negb (bool_decide (provider = sender));
        PHASE11_SERVE_CHALLENGE_BOND <=? balance_of st sender; PHASE11_FAILED_SERVE_PENALTY <=? balance_of st provider;
        Offers.has_settle_receipt (sample_offers st) blob_id i provider sender]
  | RespondBlobSampleServe blob_id i count challenger _ _ _ =>
      media_if [active; bool_decide (is_Some (challenges (sample_serve st) !! serve_challenge_key blob_id i sender challenger))]
  | SubmitSlashAppeal slash_id evidence =>
      media_if [Z.of_nat (length evidence) <=? PHASE14_MAX_APPEAL_EVIDENCE_BYTES;
        bool_decide (is_Some (slashes (slash_appeals st) !! slash_id))]
  | ResolveSlashAppeal _ _ =>
      media_if [validator sender; negb (phase32_committee_requires_bls_aggregate pinned_len next flip);
        negb (phase32_committee_requires_attested pinned_len next flip)]
  | ResolveSlashAppealAttested _ _ _ =>
      media_if [validator sender; negb (phase32_committee_requires_bls_aggregate pinned_len next flip)]
  | ResolveSlashAppealBlsAggregate _ _ _ _ _ => media_if [validator sender]
  | GrantBlobDownload blob_id grantee =>
      media_if [active;
        match sc ← store; sc_meta sc blob_id with
        | Some (_, publisher) => bool_decide (publisher = sender) && negb (bool_decide (grantee = publisher))
        | None => false
        end]
  | RevokeBlobDownload blob_id _ =>
      media_if [active;
        match sc ← store; sc_meta sc blob_id with Some (_, publisher) => bool_decide (publisher = sender) | None => false end]
  | ReportEquivocation e =>
      media_if [equivocation_slash_active (ex_vm (n_executor n)) next; is_ok (evidence_verify e); validator (evidence_validator e)]
  | _ => Ok ()
  end.

Definition precheck_governance_tx (s : SignedTransaction) (n : BoingNode) : Verdict :=
  let active := governance_consensus_active (ex_vm (n_executor n)) (next_height n) in
  let gov_if (c : bool) := if active && c then Ok () else refuse GovernanceRejected in
  match tx_payload (st_tx s) with
  | GovernancePropose key value => gov_if (is_ok (validate_planned_propose key value))
  | GovernanceVote id _ => gov_if (bool_decide (is_Some (proposals (governance (n_state n)) !! id)))
  | GovernanceAdvanceCooling id =>
      gov_if (match Gov.quorum_met (governance (n_state n)) id with Ok met => met | Err _ => false end)
  | _ => Ok ()
  end.

Definition both (a b : Verdict) : Verdict := match a with Ok _ => b | Err e => Err e end.

(** The first checks of [submit_transaction_inner]: signature, duplicate, sender. *)
Definition sender_prechecks (s : SignedTransaction) (policy : TxSigPolicy) (n : BoingNode) : Verdict :=
  both (match verify_signature_with s policy with Ok _ => Ok () | Err e => refuse e end)
  (both (if contains_tx_id (tx_id (st_tx s)) (n_mempool n) then refuse Mempool.Duplicate else Ok ())
  (precheck_sender_viable s n)).

(** All prechecks, in their order. *)
Definition prechecks (store : option BlobSidecar) (gossip : option bool) (s : SignedTransaction) (policy : TxSigPolicy)
    (n : BoingNode) : Verdict :=
  both (sender_prechecks s policy n)
  (both (precheck_native_value_tx s n)
  (both (precheck_open_validator_tx s n)
  (both (precheck_name_tx s n)
  (both (precheck_media_blob_tx store s n)
  (both (precheck_governance_tx s n)
  (both (match gossip with
         | Some admitted => if fee_precheck_is_expensive s n && negb admitted then refuse GossipPrecheckThrottled else Ok ()
         | None => Ok ()
         end)
  (precheck_sender_can_pay_fee s n))))))).

(** ** Submission *)

(** What [precheck_native_value_tx] sets in the mempool, by the rules of the next height. *)
Definition set_opcode_flags (n : BoingNode) : BoingNode :=
  set_mempool_config (set_opcodes (native_value_active (ex_vm (n_executor n)) (next_height n))
    (blake3_active (ex_vm (n_executor n)) (next_height n)) (n_mempool_config n)) n.

Notation A := (ST BoingNode AdmitFault).

Definition on_mempool (m : ST MempoolInner MempoolError ()) : A (result () MempoolError) := λ n,
  let '(r, pool) := m (n_mempool n) in (Ok r, set_mempool pool n).

Definition on_qa_pool {B} (m : ST PendingQaQueue PoolError B) : A (result B PoolError) := λ n,
  let '(r, q) := m (n_qa_pool n) in (Ok r, set_qa_pool q n).

Definition refresh_policy : A TxSigPolicy := λ n,
  match refresh_tx_sig_policy cfg n with (Ok p, n') => (Ok p, n') | (Err _, n') => (Err AdmitPanic, n') end.

Definition bytecode_blake3_digest (tx : Transaction) : bytes :=
  match as_contract_deploy (tx_payload tx) with
  | Some (bytecode, _, _, _, _) => blake3 bytecode
  | None => replicate 32 0
  end.

(** [PendingQaItem::from_signed], under the process's policy. *)
Definition from_signed (s : SignedTransaction) (now : Z) (policy : TxSigPolicy) : option PendingQaItem :=
  match verify_with s policy with
  | Ok _ => Some (mkPendingItem (tx_id (st_tx s)) (bytecode_blake3_digest (st_tx s)) (tx_sender (st_tx s)) now ∅ (tb_encode wire s))
  | Err _ => None
  end.

Definition qa_vote_of (v : QaPoolVoteKind) : QaPoolVote :=
  match v with QaAllow => VoteAllow | QaReject => VoteReject | QaAbstain => VoteAbstain end.

Definition note_on_chain_qa_vote (subject : Hash) (voter : AccountId) (v : QaPoolVoteKind) : A (result () PoolError) :=
  n ← st_get;
  on_qa_pool (QaPool.vote subject voter (qa_vote_of v) (stake <$> get (n_state n) voter)).

Definition pool_refusal (e : PoolError) : MempoolError :=
  match e with
  | PoolDisabled => QaPoolDisabled
  | PoolFull => QaPoolFull
  | DeployerCapExceeded => QaPoolDeployerCap
  | e => QaPoolEnqueue e
  end.

(** A deploy that the checks leave to the review. *)
Definition refer_to_pool (clock : Clock) (s : SignedTransaction) (policy : TxSigPolicy) (h : Hash) : A () :=
  n ← st_get;
  match canonical_qa_pool_for_next_block n with
  | Some c =>
      if negb (public_membership c) || (max_pending_items c =? 0) then st_fail (AdmitRefused QaPoolDisabled)
      else
        let '(total, mine) := qa_pending_counts (tx_sender (st_tx s)) (n_state n) in
        if max_pending_items c <=? Z.of_nat total then st_fail (AdmitRefused QaPoolFull)
        else if (0 <? max_pending_per_deployer c) && (max_pending_per_deployer c <=? Z.of_nat mine)
        then st_fail (AdmitRefused QaPoolDeployerCap)
        else
          r ← on_mempool (insert_unsure_for_inclusion_with_policy (n_mempool_config n) s policy);
          match r with Ok _ => st_fail (AdmitRefused (QaPendingPool h)) | Err e => st_fail (AdmitRefused e) end
  | None =>
      match from_signed s (ck_pool clock) (n_verify_policy n) with
      | None => st_fail (AdmitRefused (QaPoolEnqueue PoolInvalidSignature))
      | Some item =>
          r ← on_qa_pool (QaPool.add item);
          match r with
          | Ok _ | Err PoolDuplicate =>
              _ ← (if public_membership (q_governance (n_qa_pool n))
                   then on_mempool (insert_unsure_for_inclusion_with_policy (n_mempool_config n) s policy) else mret (Ok ()));
              st_fail (AdmitRefused (QaPendingPool h))
          | Err e => st_fail (AdmitRefused (pool_refusal e))
          end
      end
  end.

Definition submit_transaction_inner (clock : Clock) (store : option BlobSidecar) (gossip : option bool)
    (s : SignedTransaction) : A () :=
  policy ← refresh_policy;
  n ← st_get;
  _ ← st_modify (if is_ok (sender_prechecks s policy n) then set_opcode_flags else id);
  match prechecks store gossip s policy n with
  | Err e => st_fail e
  | Ok _ =>
      n ← st_get;
      r ← on_mempool (insert_with_policy (n_mempool_config n) s policy);
      match r with
      | Ok _ =>
          match tx_payload (st_tx s) with
          | Types.QaPoolVote subject v => _ ← note_on_chain_qa_vote subject (tx_sender (st_tx s)) v; mret ()
          | _ => mret ()
          end
      | Err (QaPendingPool h) => refer_to_pool clock s policy h
      | Err e => st_fail (AdmitRefused e)
      end
  end.

(** [submit_transaction], and [submit_transaction_from_gossip] with the limiter's answer. *)
Definition submit_transaction (clock : Clock) (store : option BlobSidecar) (s : SignedTransaction) : A () :=
  submit_transaction_inner clock store None s.
Definition submit_transaction_from_gossip (clock : Clock) (store : option BlobSidecar) (admitted : bool)
    (s : SignedTransaction) : A () := submit_transaction_inner clock store (Some admitted) s.

(** ** Votes on reviews *)

Definition qa_pool_vote (clock : Clock) (h : Hash) (voter : AccountId) (v : QaPoolVote) : A (result QaPoolVoteResult PoolError) :=
  n ← st_get;
  voted ← on_qa_pool (QaPool.vote h voter v (stake <$> get (n_state n) voter));
  match voted with
  | Err e => mret (Err e)
  | Ok _ =>
      n ← st_get;
      let '(res, q) := QaPool.resolve (ck_pool clock) h (n_qa_pool n) in
      _ ← st_put (set_qa_pool q n);
      match res with
      | ResPending => mret (Ok QvPending)
      | ResReject => mret (Ok QvRejected)
      | ResAllow bytes =>
          if public_membership (q_governance (n_qa_pool n)) then mret (Ok QvPending)
          else match tb_decode wire bytes with
          | None => mret (Err PoolDeserialization)
          | Some s =>
              policy ← refresh_policy;
              r ← on_mempool (insert_after_pool_allow_with_policy (n_mempool_config n) s policy);
              mret (Ok (match r with
                        | Ok _ => QvAllowedAdmitted
                        | Err Mempool.Duplicate => QvAllowedAlreadyInMempool
                        | Err e => QvAllowedMempoolFailed e
                        end))
          end
      end
  end.

End Admission.
