(* ===== verification/AdmissionLaws.v ===== *)
(** * Laws of admission

    About [Admission.v]: the fast check of transfers decides as the dry run does, what is
    admitted is signed, known, fresh and funded, a refused transaction leaves the mempool
    alone, and an admitted transfer that is due pays its fee and its tip in the next block. *)

From S2P Require Import Prelude Types Names Governance Blobs SampleMarket SlashAppeals Signatures OpenValidators Consensus Qa Merkle Store Tokenomics StoreLaws StoreUndo Scheduler Interp Vm VmWrites VmAgree Executor ExecutorRuns ExecutorMoney Mempool MempoolLaws Chain Blocks NodeParts Node Admission.

Import MoneyLaws.

(** ** Transfers *)

Section Transfers.
Context `{Host} `{RegistryCodec} `{Iteration} `{TextOps} `{Crypto} `{HexText} `{PolicyJson} `{ReceiptCodec}.
Implicit Types st : VmStore.

(** The sender's balance after a transfer of [amount] out of [have]. *)
Definition left_after (to sender : AccountId) (have amount : Z) : Z :=
  if bool_decide (to = sender) then have else have - amount.

Lemma transfer_runs pins vm cid tx ctx to amount a st :
  tx_payload tx = Transfer to amount → get st (tx_sender tx) = Some a → nonce a = tx_nonce tx → nonce a < u64_max →
  balance a ≤ u128_max → amount ≤ balance a →
  ∃ st' a', execute_with_context pins vm cid tx ctx st = (Ok (gas_only GAS_PER_TRANSFER), st') ∧
    get st' (tx_sender tx) = Some a' ∧ balance a' = left_after to (tx_sender tx) (balance a) amount.
Proof.
  intros Hp Ha Hn Hmax Hb Hle. unfold execute_with_context, execute_payload, fixed_gas, transfer_arm, look. rewrite Hp. st_unfold.
  rewrite Ha. st_unfold. rewrite (proj2 (Z.eqb_eq _ _) Hn). st_unfold. unfold with_sender, with_account. rewrite Ha.
  unfold debit, bump_nonce. st_unfold. rewrite (proj2 (Z.leb_le _ _) Hle). st_unfold. simpl.
  assert (checked_add u64_max (nonce a) 1 = Some (nonce a + 1)) as ->.
  { unfold checked_add. by rewrite (proj2 (Z.leb_le _ _)) by lia. }
  st_unfold. simpl. match goal with |- ∃ _ _, (_, ?s) = _ ∧ _ => exists s end. unfold left_after, credit_or_create.
  destruct (decide (to = tx_sender tx)) as [->|Hne].
  - rewrite get_get_mut, decide_True, Ha by done. simpl. rewrite !get_get_mut, !decide_True, Ha by done. simpl.
    eexists. split_and!; [done..|]. rewrite bool_decide_true by done. simpl. unfold sat_add. lia.
  - rewrite bool_decide_false by done. rewrite (get_get_mut _ _ _ to), (decide_False (P := to = _)) by done.
    destruct (get st to); [rewrite get_get_mut|rewrite get_insert];
      rewrite decide_False, get_get_mut, decide_True, Ha by done; by eexists.
Qed.

Lemma transfer_refused pins vm cid tx ctx to amount st :
  tx_payload tx = Transfer to amount →
  (nonce <$> get st (tx_sender tx) ≠ Some (tx_nonce tx) ∨ balance_of st (tx_sender tx) < amount) →
  ∃ e st', execute_with_context pins vm cid tx ctx st = (Err (Vm e), st').
Proof.
  intros Hp Hr. unfold execute_with_context, execute_payload, fixed_gas, transfer_arm, look. rewrite Hp. st_unfold.
  destruct (get st (tx_sender tx)) as [a|] eqn:Ha; st_unfold; [|by do 2 eexists].
  destruct (Z.eqb_spec (nonce a) (tx_nonce tx)) as [En|]; st_unfold; [|by do 2 eexists].
  destruct Hr as [Hr|Hr]; [simpl in Hr; congruence|]. unfold balance_of in Hr. rewrite Ha in Hr. simpl in Hr.
  unfold with_sender, with_account. rewrite Ha. unfold debit. st_unfold. rewrite (proj2 (Z.leb_gt _ _) Hr).
  by do 2 eexists.
Qed.

(** ** Paying *)

Lemma credit_keeps id amount st sender a :
  0 ≤ amount → get st sender = Some a → balance a ≤ u128_max →
  ∃ a', get (credit_account id amount st) sender = Some a' ∧ balance a ≤ balance a' ≤ u128_max.
Proof.
  intros Ha Hs Hb. unfold credit_account. destruct (amount =? 0); [eauto with lia|].
  destruct (get st id) as [x|] eqn:Hx; rewrite ?get_get_mut, ?get_insert; case_decide as Hd; subst; eauto with lia.
  - rewrite Hx. simpl. eexists. split; [done|]. simpl. replace x with a by congruence. unfold sat_add. lia.
  - congruence.
Qed.

Lemma distribute_keeps r s st sender a :
  0 ≤ s.1.1 → 0 ≤ s.1.2 → 0 ≤ s.2 → get st sender = Some a → balance a ≤ u128_max →
  ∃ a', get (distribute r s st) sender = Some a' ∧ balance a ≤ balance a' ≤ u128_max.
Proof.
  intros P1 P2 P3 Ha Hb. unfold distribute.
  destruct (credit_keeps r _ st sender a P1 Ha Hb) as (a1 & E1 & B1).
  destruct (credit_keeps PROTOCOL_TREASURY _ _ sender a1 P2 E1 ltac:(lia)) as (a2 & E2 & B2).
  destruct (credit_keeps FEE_BURN_SINK _ _ sender a2 P3 E2 ltac:(lia)) as (a3 & E3 & B3). eauto with lia.
Qed.

Lemma debit_pays sender fee st a :
  get st sender = Some a → fee ≤ balance a →
  ∃ st' a', debit_fee sender fee st = (Ok (), st') ∧ get st' sender = Some a' ∧ balance a' = balance a - fee.
Proof.
  intros Ha Hle. unfold debit_fee, with_account. rewrite Ha. st_unfold. rewrite (proj2 (Z.leb_le _ _) Hle).
  do 2 eexists. split; [done|]. rewrite get_get_mut, decide_True, Ha by done. done.
Qed.

Lemma charge_pays sender fee r p rem st a :
  fee_policy_typed p → in_u128 fee → get st sender = Some a → fee ≤ balance a ≤ u128_max →
  ∃ st' a', charge_and_distribute_fee_with_remainder sender fee r p rem st = (Ok (), st') ∧
    get st' sender = Some a' ∧ balance a - fee ≤ balance a' ≤ u128_max.
Proof.
  intros Hp Hf Ha Hb. unfold charge_and_distribute_fee_with_remainder. destruct (Z.eqb_spec fee 0) as [->|]; [do 2 eexists; split; [done|]; eauto with lia|].
  destruct (debit_pays sender fee st a Ha ltac:(lia)) as (st1 & a1 & Hd & E1 & B1). unfold mbind, st_bind. rewrite Hd.
  destruct (split_fee_exact fee p rem Hp Hf) as (? & ? & ? & _). unfold in_u128 in Hf.
  destruct (distribute_keeps r (split_fee_with_remainder fee p rem) st1 sender a1) as (a2 & E2 & B2); [done..|lia|].
  do 2 eexists. split; [done|]. split; [exact E2|lia].
Qed.

Lemma tip_pays sender tip r p st a :
  fee_policy_typed p → in_u128 tip → get st sender = Some a → tip ≤ balance a ≤ u128_max →
  ∃ st', charge_priority_tip sender tip r p st = (Ok (), st').
Proof.
  intros Hp Hf Ha Hb. unfold charge_priority_tip. destruct (tip =? 0); [by eexists|].
  destruct (debit_pays sender tip st a Ha ltac:(lia)) as (st1 & a1 & Hd & _). unfold mbind, st_bind. rewrite Hd. by eexists.
Qed.

End Transfers.

(** ** Submissions *)

Section Submission.
Context `{Host} `{RegistryCodec} `{Iteration} `{TextOps} `{Crypto} `{HexText} `{PolicyJson} `{ReceiptCodec}.
Context (wire : Serde) (cfg : NodeConfig).

(** The signature policy of the next block. *)
Definition next_policy (n : BoingNode) : TxSigPolicy :=
  tx_sig_policy (nc_env cfg) (ex_history (n_executor n)) (BOING_CHAIN_ID (nc_env cfg)) (next_height n).

(** What all prechecks together establish. *)
Lemma prechecks_ok store gossip s policy n :
  prechecks cfg store gossip s policy n = Ok () →
  verify_signature_with s policy = Ok () ∧ precheck_sender_viable s n = Ok () ∧
  precheck_sender_can_pay_fee cfg s n = Ok () ∧ sender_prechecks s policy n = Ok ().
Proof.
  unfold prechecks, sender_prechecks, both. destruct (verify_signature_with s policy) as [[]|]; [|done].
  destruct (contains_tx_id _ _); [done|].
  destruct (precheck_sender_viable _ _) as [[]|]; [|done]. destruct (precheck_native_value_tx _ _) as [[]|]; [|done].
  destruct (precheck_open_validator_tx _ _ _) as [[]|]; [|done]. destruct (precheck_name_tx _ _ _) as [[]|]; [|done].
  destruct (precheck_media_blob_tx _ _ _ _) as [[]|]; [|done]. destruct (precheck_governance_tx _ _) as [[]|]; [|done].
  destruct gossip as [admitted|]; [destruct (_ && _); [done|]|]; intros ->; done.
Qed.

(** The node that the submission of [s] goes on with after the first checks. *)
Definition flagged (s : SignedTransaction) (n : BoingNode) : BoingNode :=
  let m := set_verify_policy (unpack_tx_verify_policy (pack_tx_verify_policy (next_policy n))) n in
  if is_ok (sender_prechecks s (next_policy n) m) then set_opcode_flags m else m.

Lemma flagged_same s n :
  n_mempool (flagged s n) = n_mempool n ∧ n_state (flagged s n) = n_state n ∧ n_chain (flagged s n) = n_chain n ∧
  n_pending (flagged s n) = n_pending n.
Proof. unfold flagged. by destruct (is_ok _). Qed.

(** A submission that is accepted, step by step. *)
Lemma submit_accepts clock store gossip s n n' :
  submit_transaction_inner wire cfg clock store gossip s n = (Ok (), n') →
  ∃ m pool, m = set_verify_policy (unpack_tx_verify_policy (pack_tx_verify_policy (next_policy n))) n ∧
    prechecks cfg store gossip s (next_policy n) m = Ok () ∧
    insert_with_policy (n_mempool_config (flagged s n)) s (next_policy n) (n_mempool n) = (Ok (), pool) ∧
    n_mempool n' = pool ∧ n_state n' = n_state n ∧ n_chain n' = n_chain n.
Proof.
  unfold submit_transaction_inner, refresh_policy, refresh_tx_sig_policy, on_mempool. st_unfold.
  change (tx_sig_policy _ _ _ _) with (next_policy n). pose proof (flagged_same s n) as (Ep & Es & Ec & _). unfold flagged in *.
  set (m := set_verify_policy _ n) in *.
  destruct (prechecks cfg store gossip s (next_policy n) m) as [[]|] eqn:Hpre; [|done].
  match goal with |- context [(if ?c then set_opcode_flags else id) m] =>
    replace ((if c then set_opcode_flags else id) m) with (if c then set_opcode_flags m else m) by (by destruct c) end.
  set (k := if is_ok _ then set_opcode_flags m else m) in *. rewrite Ep.
  destruct (insert_with_policy _ s (next_policy n) (n_mempool n)) as [[[]|e] pool] eqn:Hins.
  - intros Hn. exists m, pool. split_and!; try done.
    all: destruct (tx_payload (st_tx s)); unfold note_on_chain_qa_vote, on_qa_pool, mbind, st_bind in Hn; simpl in Hn;
      try (by injection Hn as <-); by destruct (QaPool.vote _ _ _ _ _); injection Hn as <-.
  - destruct e; try done. unfold refer_to_pool. st_unfold. unfold on_mempool, on_qa_pool.
    repeat case_match; try done; by intros [= ].
Qed.

(** A referral that ends in another answer than the referral changes no mempool. *)
Lemma refer_refused clock s policy h m e n' :
  pool_ok (n_mempool m) → refer_to_pool wire clock s policy h m = (Err (AdmitRefused e), n') →
  n_state n' = n_state m ∧ n_chain n' = n_chain m ∧ n_pending n' = n_pending m ∧
  ((∀ h, e ≠ QaPendingPool h) → n_mempool n' = n_mempool m).
Proof.
  intros Hok. unfold refer_to_pool. st_unfold. destruct (canonical_qa_pool_for_next_block m) as [c|].
  - destruct (_ || _); [by intros [= <- <-]|]. destruct (qa_pending_counts _ _) as [total mine].
    destruct (_ <=? _); [by intros [= <- <-]|]. destruct (_ && _); [by intros [= <- <-]|].
    unfold on_mempool. destruct (insert_unsure_for_inclusion_with_policy _ _ _ _) as [r pool] eqn:Hins.
    apply insert_spec in Hins; [|done]. destruct r as [[]|x]; intros [= <- <-]; [|by subst pool]. split_and!; try done.
    intros Hne. by destruct (Hne h).
  - destruct (from_signed _ _ _ _) as [item|]; [|by intros [= <- <-]]. unfold on_qa_pool, on_mempool.
    destruct (QaPool.add item (n_qa_pool m)) as [[[]|[]] q]; simpl; try (by intros [= <- <-]).
    all: destruct (public_membership _); simpl; [destruct (insert_unsure_for_inclusion_with_policy _ _ _ _)|];
      intros [= <- <-]; split_and!; try done; intros Hne; by destruct (Hne h).
Qed.

End Submission.

(** ** A transfer in a block *)

Section Settling.
Context `{Host} `{RegistryCodec} `{Iteration} `{TextOps} `{Crypto} `{HexText} `{PolicyJson} `{ReceiptCodec}.
Context (cfg : NodeConfig) (ex : BlockExecutor) (error_text : nat → ExecutionError → bytes) (height : Z).

Lemma transfer_settles vm timestamp txs recipient tips idx p st tx to amount a tip :
  tx_payload tx = Transfer to amount → get st (tx_sender tx) = Some a → nonce a = tx_nonce tx → nonce a < u64_max →
  0 ≤ amount ≤ balance a → balance a < u128_max → in_u128 tip → fee_policy_typed (fee_rule_at ex height).1 →
  sat_add u128_max (network_fee_at ex GAS_PER_TRANSFER (tx_payload tx) height) tip ≤ left_after to (tx_sender tx) (balance a) amount →
  tips !! idx = Some tip → (idx < length p.2)%nat →
  ∃ gas r p' st', run_one (nc_pins cfg) (nc_signing_chain_id cfg) error_text
      (block_run ex vm height timestamp txs recipient tips) p idx tx st = (Ok (gas, p'), st') ∧
    p' !! idx = Some (Some r) ∧ rc_success r = true ∧ rc_tx_id r = tx_id tx.
Proof.
  intros Hp Ha Hn Hmax Hle Hb Htip Hpol Hneed Hti Hidx.
  assert (in_u128 (network_fee_at ex GAS_PER_TRANSFER (tx_payload tx) height)) as Hfee.
  { apply network_fee_typed; [done| |done]. rewrite Hp. simpl. lia. }
  assert (left_after to (tx_sender tx) (balance a) amount ≤ balance a) as Hleft by (unfold left_after; case_bool_decide; lia).
  unfold network_fee_at in *. unfold block_run. destruct (fee_rule_at ex height) as [policy rem] eqn:Erule. simpl in *.
  set (b := mkBlockRun _ _ _ _ _ _ _ _ _ _). unfold run_one. destruct (checkpoint st) as [cp st0] eqn:Ecp.
  assert (get st0 (tx_sender tx) = Some a) as Ha0.
  { unfold checkpoint in Ecp. destruct (journaling st) as [u x] eqn:Ej. injection Ecp as _ <-.
    pose proof (journaling_contents st) as Hj. rewrite Ej in Hj. unfold get in *. simpl in *. by rewrite Hj. }
  destruct (transfer_runs (nc_pins cfg) (br_vm b) (nc_signing_chain_id cfg) tx (br_ctx b) to amount a st0 Hp Ha0 Hn Hmax
    ltac:(lia) ltac:(lia)) as (st1 & a1 & Hrun & Ha1 & Hb1). rewrite Hrun.
  unfold sat_add, in_u128 in *. unfold charge_fees, mbind at 1, st_bind at 1. simpl res_gas_used.
  destruct (charge_pays (tx_sender tx) (network_fee_amount_in GAS_PER_TRANSFER (tx_payload tx) policy (ex_denomination_at ex height))
    recipient policy rem st1 a1 Hpol Hfee Ha1 ltac:(lia)) as (st2 & a2 & Hc & Ha2 & Hb2).
  change (br_policy b) with policy. change (br_denom b) with (ex_denomination_at ex height). change (br_recipient b) with recipient.
  change (br_remainder b) with rem. rewrite Hc.
  destruct (tip_pays (tx_sender tx) tip recipient policy st2 a2 Hpol Htip Ha2 ltac:(lia)) as (st3 & Ht).
  unfold tip_at. change (br_tips b) with tips. rewrite Hti. simpl. rewrite Ht.
  unfold settle_ok, record_receipt. st_unfold. simpl. do 4 eexists. split; [done|]. simpl.
  rewrite list_lookup_insert_eq by done. done.
Qed.

End Settling.

(** ** Properties *)

Module AdmissionTheorems.
Section Theorems.
Context `{Host} `{RegistryCodec} `{Iteration} `{TextOps} `{Crypto} `{HexText} `{PolicyJson} `{ReceiptCodec}.
Context (wire : Serde) (cfg : NodeConfig).

Lemma prepared_same n : at_redenomination n = false → prepared n = snapshot (n_state n).
Proof. unfold at_redenomination, prepared, prepare_state_for_height. by intros ->. Qed.

Lemma fast_is_full s to amount n :
  tx_payload (st_tx s) = Transfer to amount → at_redenomination n = false →
  (∀ a, get (n_state n) (tx_sender (st_tx s)) = Some a → nonce a < u64_max ∧ balance a ≤ u128_max) →
  precheck_transfer_fast s to amount n = precheck_sender_can_pay_fee_full cfg s n.
Proof.
  intros Hp Hr Hty. unfold precheck_transfer_fast, precheck_sender_can_pay_fee_full, dry_run. rewrite (prepared_same n Hr).
  change (get (snapshot (n_state n)) (tx_sender (st_tx s))) with (get (n_state n) (tx_sender (st_tx s))).
  destruct (free_tx_gate _ _ _) as [[]|]; [|done].
  match goal with |- _ = match execute_with_context ?p ?v ?c ?t ?x ?s with _ => _ end =>
    pose proof (transfer_refused p v c t x to amount s Hp) as Hno;
    pose proof (λ a, transfer_runs p v c t x to amount a s Hp) as Hyes end.
  change (get (snapshot (n_state n)) (tx_sender (st_tx s))) with (get (n_state n) (tx_sender (st_tx s))) in *.
  case_bool_decide as Hn; simpl.
  - destruct (get (n_state n) (tx_sender (st_tx s))) as [a|] eqn:Ha; [|done]. injection Hn as Hn. simpl.
    destruct (Hty a eq_refl) as [Hmax Hb]. destruct (Z.ltb_spec (balance a) amount) as [Hlt|Hle].
    + destruct Hno as (e & st' & ->); [|done]. right. unfold balance_of.
      change (get (snapshot (n_state n)) (tx_sender (st_tx s))) with (get (n_state n) (tx_sender (st_tx s))). by rewrite Ha.
    + destruct (Hyes a eq_refl Hn Hmax Hb Hle) as (st' & a' & -> & -> & Hbal). simpl. by rewrite Hbal.
  - destruct Hno as (e & st' & ->); [by left|done].
Qed.

(** The fast check is the dry run. For a transfer, at every height but that of the
    redenomination, comparing the account with the fee and the tip gives the answer, the
    error included, of executing the transfer on a copy of the state and comparing what is
    left. The sender's nonce must not be the last one. *)
Theorem transfer_fast_exact s to amount n :
  tx_payload (st_tx s) = Transfer to amount → at_redenomination n = false →
  (∀ a, get (n_state n) (tx_sender (st_tx s)) = Some a → nonce a < u64_max ∧ balance a ≤ u128_max) →
  precheck_transfer_fast s to amount n = precheck_sender_can_pay_fee_full cfg s n.
Proof. apply fast_is_full. Qed.

(** What is admitted can be executed. A transaction that a node admits has a valid
    signature under the policy of the next block, its sender has an account whose nonce it
    is not behind and that can pay for a failure where failures cost, it was not pending
    and is now, and nothing but the pools changes. *)
Theorem admission_sound clock store gossip s n n' :
  pool_ok (n_mempool n) → submit_transaction_inner wire cfg clock store gossip s n = (Ok (), n') →
  verify_with s (next_policy cfg n) = Ok () ∧
  (∃ a, get (n_state n) (tx_sender (st_tx s)) = Some a ∧ nonce a ≤ tx_nonce (st_tx s) ∧
    (failed_tx_fee_active (n_executor n) (next_height n) = true → at_redenomination n = false →
     failed_tx_fee_amount_in (fee_rule_at (n_executor n) (next_height n)).1 (ex_denomination_at (n_executor n) (next_height n)) ≤ balance a)) ∧
  signed_id s ∉ by_id (n_mempool n) ∧ signed_id s ∈ by_id (n_mempool n') ∧ pool_ok (n_mempool n') ∧
  n_state n' = n_state n ∧ n_chain n' = n_chain n.
Proof.
  intros Hok (m & pool & Em & (Hsig & Hview & _ & _)%prechecks_ok & Hins & Hpool & Hst & Hch)%submit_accepts.
  assert (n_state m = n_state n ∧ n_executor m = n_executor n ∧ next_height m = next_height n ∧
    at_redenomination m = at_redenomination n) as (Es & Ex & En & Er) by (by subst m).
  apply insert_spec in Hins as (_ & Hnew & p1 & Hroom & ->); [|done].
  destruct (room_ok _ _ _ _ _ Hok Hroom) as (Hok1 & Hq1 & Hsub).
  split; [|split_and!].
  - unfold verify_signature_with in Hsig. by destruct (verify_with _ _) as [[]|[]].
  - unfold precheck_sender_viable in Hview. rewrite Es, Ex, En in Hview. destruct (get _ _) as [a|]; [|done]. exists a.
    destruct (Z.ltb_spec (tx_nonce (st_tx s)) (nonce a)); [done|]. split_and!; [done|done|]. intros Hf Hr.
    unfold at_redenomination in Hr. rewrite Hr, Hf in Hview. simpl in Hview. destruct (Z.ltb_spec (balance a) (failed_tx_fee_amount_in
      (fee_rule_at (n_executor n) (next_height n)).1 (ex_denomination_at (n_executor n) (next_height n)))); [done|lia].
  - done.
  - rewrite Hpool. unfold store_signed. case_match; simpl; set_solver.
  - rewrite Hpool. apply store_ok; [done|]. set_solver.
  - done.
  - done.
Qed.

(** An admitted transfer pays. A transfer that a node admits, with the nonce of its
    sender's account and an amount the account holds, succeeds in the next block, in any
    place where the account is still as it was: the fee and the tip are paid and the
    receipt says so. *)
Theorem admitted_transfer_pays error_text clock store gossip s n n' to amount a :
  submit_transaction_inner wire cfg clock store gossip s n = (Ok (), n') →
  tx_payload (st_tx s) = Transfer to amount → at_redenomination n = false →
  get (n_state n) (tx_sender (st_tx s)) = Some a → nonce a = tx_nonce (st_tx s) → nonce a < u64_max →
  0 ≤ amount ≤ balance a → balance a < u128_max → in_u128 (st_priority_tip s) →
  fee_policy_typed (fee_rule_at (n_executor n) (next_height n)).1 →
  ∀ vm timestamp txs recipient tips idx p st,
    get st (tx_sender (st_tx s)) = Some a → tips !! idx = Some (st_priority_tip s) → (idx < length p.2)%nat →
    ∃ gas r p' st', run_one (nc_pins cfg) (nc_signing_chain_id cfg) error_text
        (block_run (n_executor n) vm (next_height n) timestamp txs recipient tips) p idx (st_tx s) st = (Ok (gas, p'), st') ∧
      p' !! idx = Some (Some r) ∧ rc_success r = true ∧ rc_tx_id r = tx_id (st_tx s).
Proof.
  intros (m & pool & Em & (_ & _ & Hpay & _)%prechecks_ok & _)%submit_accepts Hp Hr Ha Hn Hmax Hle Hb Htip Hpol.
  assert (n_state m = n_state n ∧ n_executor m = n_executor n ∧ next_height m = next_height n ∧
    at_redenomination m = at_redenomination n) as (Es & Ex & En & Er) by (by subst m).
  intros vm timestamp txs recipient tips idx p st Hst Hti Hidx.
  unfold precheck_sender_can_pay_fee in Hpay. destruct (contains_tx_id _ _); [done|]. rewrite Hp, Er, Hr in Hpay.
  unfold precheck_transfer_fast in Hpay. rewrite Es, Ha in Hpay. simpl in Hpay. destruct (free_tx_gate _ _ _); [|done].
  rewrite bool_decide_true in Hpay by congruence. simpl in Hpay. rewrite (proj2 (Z.ltb_ge _ _)) in Hpay by lia.
  change (if bool_decide (to = _) then _ else _) with (left_after to (tx_sender (st_tx s)) (balance a) amount) in Hpay.
  destruct (Z.ltb_spec (left_after to (tx_sender (st_tx s)) (balance a) amount) (fee_needed s GAS_PER_TRANSFER m)) as [|Hneed];
    [done|].
  unfold fee_needed in Hneed. rewrite En, Ex in Hneed.
  apply (transfer_settles cfg (n_executor n) error_text (next_height n) vm timestamp txs recipient tips idx p st (st_tx s) to amount a (st_priority_tip s)); try done.
Qed.

(** A refusal leaves the mempool alone. Whatever the reason, a transaction that is
    refused does not change what is pending, nor the chain and its state; the one
    exception is a deploy referred to the review, which may wait in the mempool too. *)
Theorem refused_leaves_mempool clock store gossip s n e n' :
  pool_ok (n_mempool n) → submit_transaction_inner wire cfg clock store gossip s n = (Err (AdmitRefused e), n') →
  n_state n' = n_state n ∧ n_chain n' = n_chain n ∧ n_pending n' = n_pending n ∧
  ((∀ h, e ≠ QaPendingPool h) → n_mempool n' = n_mempool n).
Proof.
  intros Hok. unfold submit_transaction_inner, refresh_policy, refresh_tx_sig_policy, on_mempool. st_unfold.
  change (tx_sig_policy _ _ _ _) with (next_policy cfg n). pose proof (flagged_same cfg s n) as (Ep & Es & Ec & Epe).
  unfold flagged in *. set (m := set_verify_policy _ n) in *.
  match goal with |- context [(if ?c then set_opcode_flags else id) m] =>
    replace ((if c then set_opcode_flags else id) m) with (if c then set_opcode_flags m else m) by (by destruct c) end.
  set (k := if is_ok _ then set_opcode_flags m else m) in *. clearbody k.
  destruct (prechecks cfg store gossip s (next_policy cfg n) m) as [[]|[]]; [|by intros [= <- <-]|done].
  destruct (insert_with_policy _ s (next_policy cfg n) (n_mempool k)) as [r pool] eqn:Hins. pose proof Hins as Hspec.
  apply insert_spec in Hspec; [|by rewrite Ep]. destruct r as [[]|x].
  { destruct (tx_payload (st_tx s)); try done. unfold note_on_chain_qa_vote, on_qa_pool. st_unfold. by destruct (QaPool.vote _ _ _ _ _). }
  subst pool. assert (set_mempool (n_mempool k) k = k) as -> by (by destruct k). destruct x; try (by intros [= <- <-]).
  intros Hr. rewrite <- Ep, <- Es, <- Ec, <- Epe. apply (refer_refused wire clock s (next_policy cfg n) h k e n'); [by rewrite Ep|exact Hr].
Qed.

End Theorems.
End AdmissionTheorems.
