(* ===== verification/Events.v ===== *)
(** * Events of a node

    What arrives at a node ([crates/boing-node/src/main.rs], and the RPC calls that submit
    transactions, review votes and appeals, set policies and drive the governance) and how it is handled, one event at a time under
    the lock of the node. The bytes of a media blob go to the blob store on the disk, which
    is no part of the node's state: what that store answers comes with each transaction. *)

From S2P Require Import Prelude Types Names Governance Blobs SampleMarket SlashAppeals Signatures OpenValidators Consensus Qa Merkle Store Tokenomics Scheduler Interp Vm Executor Mempool Chain Blocks NodeParts Node Admission.

Section Events.
Context `{Host} `{RegistryCodec} `{Iteration} `{TextOps} `{Crypto} `{HexText} `{PolicyJson} `{ReceiptCodec}.
Context (error_text : nat → ExecutionError → bytes) (wire : Serde) (cfg : NodeConfig).

Notation N := (ST BoingNode NodeFault).

(** ** Events *)

Inductive Event :=
| EvBlock (b : Block)
| EvFetched (b : Block)
| EvVote (v : ConsensusVote)
| EvEquivocation (e : EquivocationEvidence)
| EvVrf (g : VrfProofGossip)
| EvTick
| EvTimeout
| EvProduce
| EvAppeal (slash_id : Z) (evidence : bytes)
| EvResolve (appeal_id : Z) (approved : bool)
| EvTransaction (s : SignedTransaction) (store : option BlobSidecar) (gossip : option bool)
| EvMediaBlob (blob_id : BlobId) (data : bytes)
| EvQaVote (h : Hash) (voter : AccountId) (v : QaPoolVote)
| EvFeePolicy (p : NetworkFeePolicy)
| EvQaPolicy (r : RuleRegistry) (c : QaPoolGovernanceConfig)
| EvGovPropose (key : string) (value : bytes)
| EvGovVote (id : Z) (voter : AccountId) (approve : bool) (weight_override : option Z)
| EvGovCooling (id : Z)
| EvGovExecution (id : Z)
| EvGovExecute (id : Z).

(** The events that may install another policy. *)
Definition sets_policy (ev : Event) : bool :=
  match ev with EvFeePolicy _ | EvQaPolicy _ _ | EvGovExecute _ => true | _ => false end.

(** A refusal is an answer to the sender. *)
Definition admitting {A} (m : ST BoingNode AdmitFault A) : ST BoingNode NodeFault () := λ n,
  match m n with
  | (Err AdmitPanic, n') => (Err NodePanic, n')
  | (_, n') => (Ok (), n')
  end.

Definition handle (clock : Clock) (ev : Event) : N () :=
  match ev with
  | EvBlock b => _ ← handle_network_block error_text cfg clock b; mret ()
  | EvFetched b => import_network_block_catchup error_text cfg clock b
  | EvVote v => _ ← on_consensus_vote cfg v; mret ()
  | EvEquivocation e => _ ← on_equivocation_evidence cfg e; mret ()
  | EvVrf g => _ ← on_vrf_proof g; mret ()
  | EvTick => tick_liveness cfg clock
  | EvTimeout => st_modify (tick_proposal_timeout cfg clock)
  | EvProduce => _ ← produce_block_if_ready error_text wire cfg clock; mret ()
  | EvAppeal id ev => _ ← submit_slash_appeal id ev; mret ()
  | EvResolve id ok => _ ← resolve_slash_appeal id ok; mret ()
  | EvTransaction s store gossip => admitting (submit_transaction_inner wire cfg clock store gossip s)
  | EvMediaBlob _ _ => mret ()
  | EvQaVote h voter v => admitting (qa_pool_vote wire cfg clock h voter v)
  | EvFeePolicy p => st_modify (operator_fee_policy p)
  | EvQaPolicy r c => st_modify (operator_qa_policy r c)
  | EvGovPropose key value => _ ← governance_propose key value (ck_system clock); mret ()
  | EvGovVote id voter approve w => _ ← governance_vote id voter approve w; mret ()
  | EvGovCooling id => _ ← governance_advance_cooling id (ck_system clock); mret ()
  | EvGovExecution id => _ ← governance_advance_execution id (ck_system clock); mret ()
  | EvGovExecute id => _ ← governance_execute wire id (ck_system clock); mret ()
  end.

(** Errors of one event are logged, and the node goes on; a panic ends it. *)
Fixpoint run_events (evs : list (Clock * Event)) (n : BoingNode) : option BoingNode :=
  match evs with
  | [] => Some n
  | (clock, ev) :: rest =>
      match handle clock ev n with
      | (Err NodePanic, _) => None
      | (_, n) => run_events rest n
      end
  end.

End Events.
