(* ===== verification/NodeLaws.v ===== *)
(** * The node keeps a ledger

    About [Node.v]. Whatever blocks, votes, evidence and timer ticks a node is given, its
    blocks form one chain, its state is what executing that chain from the genesis gives,
    the engine votes on the next height, and a proposal that waits for votes is the one
    the engine counts votes for and extends the tip. Every block that was not fetched
    from a peer's chain was appended with a quorum of votes, each of which is the node's
    own or came signed by its validator for that height and that block. *)

From S2P Require Import Prelude Types Names Governance Blobs SampleMarket SlashAppeals Signatures OpenValidators Consensus Qa Merkle Store Tokenomics StoreLaws StoreUndo Scheduler Interp Vm VmWrites VmAgree Executor ExecutorRuns ExecutorNonces Mempool Chain Blocks BlocksLaws NodeParts Node Admission Events.

(** ** Changes beside the consensus *)

(** Engines that differ in their leader proofs only. *)
Record same_engine (e e' : ConsensusEngine) : Prop := {
  se_validators : validators e' = validators e;
  se_round : round e' = round e;
  se_view : view e' = view e;
  se_pending : pending_block e' = pending_block e;
  se_votes : votes e' = votes e;
  se_anchors : anchors e' = anchors e;
}.

#[export] Instance same_engine_preorder : PreOrder same_engine.
Proof. split; [by constructor|]. intros e1 e2 e3 [] []. constructor; congruence. Qed.

Section Calm.
Context `{Host}.

Record calm (n n' : BoingNode) : Prop := {
  ca_chain : n_chain n' = n_chain n;
  ca_state : n_state n' = n_state n;
  ca_executor : n_executor n' = n_executor n;
  ca_pending : n_pending n' = n_pending n;
  ca_engine : same_engine (n_consensus n) (n_consensus n');
  ca_inv : engine_inv (n_consensus n) → engine_inv (n_consensus n');
  ca_early : ∀ key vs, n_early_votes n' !! key = Some vs → n_early_votes n !! key = Some vs;
}.

#[export] Instance calm_preorder : PreOrder calm.
Proof.
  split; [by constructor|]. intros n1 n2 n3 [] []. constructor; try congruence; [by etrans|by auto..].
Qed.

Definition calms {E A} (m : ST BoingNode E A) : Prop := ∀ n, calm n (m n).2.

Lemma calms_bind {E A B} (m : ST BoingNode E A) (k : A → ST BoingNode E B) :
  calms m → (∀ a, calms (k a)) → calms (m ≫= k).
Proof.
  intros Hm Hk n. unfold mbind, st_bind. specialize (Hm n). destruct (m n) as [[a|e] n1]; [|done].
  etrans; [exact Hm|apply Hk].
Qed.

Lemma calms_modify {E} (f : BoingNode → BoingNode) : (∀ n, calm n (f n)) → calms (E := E) (st_modify f).
Proof. by intros Hf n. Qed.

(** A computation that reads the state first. *)
Lemma calms_get {E B} (k : BoingNode → ST BoingNode E B) :
  (∀ n, calm n (k n n).2) → calms (st_get ≫= k).
Proof. by intros Hk n. Qed.

Lemma calms_ret {E A} (a : A) : calms (E := E) (mret a).
Proof. by intros n. Qed.

Lemma calms_fail {E A} (e : E) : calms (A := A) (st_fail e).
Proof. by intros n. Qed.

End Calm.

#[export] Hint Resolve calms_ret calms_fail : boing.

Section Quiet.
Context `{Host} `{RegistryCodec} `{Iteration} `{TextOps} `{Crypto} `{HexText} `{PolicyJson} `{ReceiptCodec}.
Context (error_text : nat → ExecutionError → bytes) (wire : Serde) (cfg : NodeConfig).

Lemma calm_insert_vrf n v r p : calm n (set_consensus (insert_vrf_proof (n_consensus n) v r p).2 n).
Proof.
  constructor; simpl; try done; [|apply insert_vrf_proof_inv].
  unfold insert_vrf_proof. by repeat case_match.
Qed.

Lemma calm_publish n : calm n (maybe_publish_vrf_proof_for_current_round cfg n).
Proof.
  unfold maybe_publish_vrf_proof_for_current_round. destruct (negb _); [done|].
  destruct (nc_key cfg) as [key|]; [|done]. destruct (prove_vrf _ key) as [g|]; [|done].
  pose proof (calm_insert_vrf n (vg_validator g) (vg_round g) (vg_vrf g)) as Hc.
  destruct (insert_vrf_proof _ _ _ _) as [[] e]; simpl in *; [|done]. by destruct Hc.
Qed.

Lemma calm_mirror n : calm n (sync_failed_serve_slash_records n).
Proof. unfold sync_failed_serve_slash_records. by destruct (foldl _ _ _). Qed.

Lemma calm_retain k n : calm n (retain_votes k n).
Proof. constructor; try done. simpl. by intros key vs [? _]%map_lookup_filter_Some. Qed.

Lemma calms_policy : calms (refresh_tx_sig_policy cfg).
Proof. by intros n. Qed.

Lemma calms_queue ev : calms (queue_equivocation_report cfg ev).
Proof.
  intros n. unfold queue_equivocation_report. st_unfold.
  repeat (case_match; simplify_eq/=; try done).
Qed.

Lemma calms_note v : calms (note_signed_vote_and_maybe_slash cfg v).
Proof.
  apply calms_get. intros n. simpl.
  destruct (n_observed_votes n !! (cv_round v, cv_validator v)) as [prev|]; [|done].
  destruct (bool_decide _); [done|]. destruct (try_from_votes prev v) as [ev|]; [|done].
  apply calms_bind; [apply calms_queue|]. intros []; [by apply calms_modify|apply calms_ret].
Qed.

Lemma calms_evidence ev : calms (on_equivocation_evidence cfg ev).
Proof.
  unfold on_equivocation_evidence. destruct (evidence_verify ev); [|apply calms_ret].
  apply calms_get. intros n. destruct (negb _); [done|].
  apply calms_bind; [apply calms_queue|]. intros q. apply calms_bind; [|by intros].
  destruct q; [by apply calms_modify|apply calms_ret].
Qed.

Lemma calms_appeal id ev : calms (submit_slash_appeal id ev).
Proof.
  apply calms_get. intros n. destruct (slashes _ !! id); [done|]. by destruct (Mirror.submit_appeal _ _ _ _).
Qed.

Lemma calms_resolve id ok : calms (resolve_slash_appeal id ok).
Proof.
  apply calms_get. intros n. destruct (Mirror.get_appeal _ _) as [a|]; [|done].
  destruct (slashes _ !! _); [done|]. by destruct (Mirror.resolve_appeal _ _ _).
Qed.

Lemma calms_vrf g : calms (on_vrf_proof g).
Proof.
  unfold on_vrf_proof. destruct (negb _); [apply calms_ret|]. apply calms_get. intros n.
  pose proof (calm_insert_vrf n (vg_validator g) (vg_round g) (vg_vrf g)) as Hc.
  by destruct (insert_vrf_proof _ _ _ _).
Qed.

Lemma calms_leader h : calms (leader_of h).
Proof. intros n. unfold leader_of. st_unfold. by destruct (leader _ h). Qed.

Lemma calms_fallback clock : calms (anchor_fallback_due cfg clock).
Proof.
  intros n. unfold anchor_fallback_due, leader_of. st_unfold. repeat (case_match; simplify_eq/=; try done).
Qed.

Lemma calms_liveness clock : calms (tick_liveness cfg clock).
Proof. intros n. unfold tick_liveness, leader_of. st_unfold. repeat (case_match; simplify_eq/=; try done). Qed.

Lemma calms_expirations clock : calms (apply_qa_pool_expirations wire cfg clock).
Proof.
  apply calms_bind; [apply calms_policy|]. intros policy. apply calms_get. intros n.
  by destruct (QaPool.prune_expired _ _).
Qed.

Lemma calms_mempool m : calms (on_mempool m).
Proof. intros n. unfold on_mempool. by destruct (m (n_mempool n)). Qed.

Lemma calms_qa_pool {B} (m : ST PendingQaQueue PoolError B) : calms (on_qa_pool m).
Proof. intros n. unfold on_qa_pool. by destruct (m (n_qa_pool n)). Qed.

Lemma calms_refresh : calms (refresh_policy cfg).
Proof. intros n. apply (calms_policy n). Qed.

Hint Resolve calms_mempool calms_qa_pool calms_refresh : boing.

Lemma calms_refer clock s policy x : calms (refer_to_pool wire clock s policy x).
Proof.
  apply calms_get. intros n. destruct (canonical_qa_pool_for_next_block n) as [c|].
  - destruct (_ || _); [done|]. destruct (qa_pending_counts _ _) as [total mine]. destruct (_ <=? _); [done|].
    destruct (_ && _); [done|]. apply (calms_bind (on_mempool _)); [auto with boing|]. intros []; auto with boing.
  - destruct (from_signed _ _ _ _) as [item|]; [|done]. apply (calms_bind (on_qa_pool _)); [auto with boing|].
    intros [|[]]; auto with boing; (apply calms_bind; [destruct (public_membership _)|]; auto with boing).
Qed.

Lemma calms_submit clock store gossip s : calms (submit_transaction_inner wire cfg clock store gossip s).
Proof.
  unfold submit_transaction_inner. apply calms_bind; [auto with boing|]. intros policy. apply calms_get. intros n.
  apply (calms_bind (st_modify _)); [apply calms_modify; intros m; by destruct (is_ok _)|intros _].
  destruct (prechecks _ _ _ _ _ _); [|auto with boing]. apply calms_get. intros m.
  apply (calms_bind (on_mempool _)); [auto with boing|].
  intros [|[]]; auto using calms_refer with boing. destruct (tx_payload _); auto with boing.
  apply calms_bind; [|auto with boing]. apply calms_get. intros n'. apply calms_qa_pool.
Qed.

Lemma calms_qa_vote clock x voter v : calms (qa_pool_vote wire cfg clock x voter v).
Proof.
  apply calms_get. intros n. apply (calms_bind (on_qa_pool _)); [auto with boing|]. intros [|]; [|auto with boing].
  apply calms_get. intros n'. destruct (QaPool.resolve _ _ _) as [res q].
  assert (calm n' (set_qa_pool q n')) as Hq by done. etrans; [exact Hq|].
  match goal with |- calm _ ((_ ≫= ?k) n').2 => assert (calms (k ())) as Hk; [|apply (Hk (set_qa_pool q n'))] end.
  destruct res; auto with boing. destruct (public_membership _); [auto with boing|]. destruct (tb_decode wire _); [|auto with boing].
  apply calms_bind; [auto with boing|]. intros policy. apply calms_bind; auto with boing.
Qed.

Lemma calms_governance {B} (f : ST Governance.Governance GovernanceError B) : calms (on_own_governance f).
Proof. intros n. unfold on_own_governance. by destruct (f (n_governance n)). Qed.

Lemma calms_gov_vote id voter approve w : calms (governance_vote id voter approve w).
Proof. apply calms_get. intros n. apply calms_governance. Qed.

(** What sets a policy changes nothing of the consensus but the executor. *)
Definition tunes (n n' : BoingNode) : Prop := calm (set_executor (n_executor n') n) n'.

Lemma tunes_governed key value n n' : governed wire key value n = Some n' → tunes n n'.
Proof.
  unfold governed. repeat case_bool_decide; [| | |done].
  all: intros (x & _ & Hx)%bind_Some; case_match; by simplify_eq.
Qed.

Lemma tunes_event clock ev n r n' :
  sets_policy ev = true → handle error_text wire cfg clock ev n = (r, n') → tunes n n'.
Proof.
  assert (tunes n n) as Hid by (unfold tunes; by destruct n).
  destruct ev; try done; intros _; simpl.
  - intros [= <- <-]. unfold operator_fee_policy. by destruct (fee_policy_validate p).
  - intros [= <- <-]. unfold operator_qa_policy. by destruct (_ && _).
  - unfold governance_execute, mbind, st_bind, on_own_governance. destruct (Gov.execute _ _ _) as [[[key value]|e] g]; simpl.
    + destruct (governed wire key value _) as [n1|] eqn:Hg; intros [= <- <-]; [|by destruct n].
      apply tunes_governed in Hg. by destruct Hg.
    + intros [= <- <-]. by destruct n.
Qed.

End Quiet.

(** ** The ledger *)

Section Ledger.
Context `{Host} `{RegistryCodec} `{TextOps} `{Crypto} `{HexText} `{PolicyJson} `{ReceiptCodec}.
Context (signing_chain_id : option Z) (error_text : nat → ExecutionError → bytes) (pins : HostPins).

(** Executing [b] from [st] by [ex], the validators being [set], gives the receipts [rs] and
    the contents of [st'], and the header commits to all of it. *)
Record applies (ex : BlockExecutor) (set : list AccountId) (b : Block) (st : VmStore) (rs : list ExecutionReceipt) (st' : VmStore) : Prop := {
  ap_run : ∃ (i : Iteration) st0 u w,
    twins st0 st ∧
    run_block (H1 := i) signing_chain_id error_text pins ex set (height (header b)) (timestamp (header b))
      (transactions b) (proposer (header b)) (priority_tips b) st0 = (Ok rs, u) ∧
    state_root_at_height (H1 := i) (height (header b)) u = Some (w, bh_state_root (header b)) ∧ alike st' w;
  ap_receipts : receipts_root rs = Some (bh_receipts_root (header b));
  ap_txs : tx_root (transactions b) = Some (bh_tx_root (header b));
}.

(** Executing a block has one outcome, whatever the order of the hash maps. *)
Lemma applies_functional ex set b st1 st2 rs1 rs2 t1 t2 :
  applies ex set b st1 rs1 t1 → applies ex set b st2 rs2 t2 → alike st1 st2 → rs1 = rs2 ∧ alike t1 t2.
Proof.
  intros [(i1 & s1 & u1 & w1 & (A1 & S1 & _) & R1 & Q1 & E1) _ _] [(i2 & s2 & u2 & w2 & (A2 & S2 & _) & R2 & Q2 & E2) _ _] Ha.
  destruct (same_run_block signing_chain_id error_text pins ex i1 i2 set (height (header b)) (timestamp (header b))
    (transactions b) (proposer (header b)) (priority_tips b) s1 s2) as [Hr Ht].
  { split_and!; [|done..]. by rewrite A1, Ha, A2. }
  rewrite R1, R2 in Hr, Ht. simpl in *. injection Hr as <-. split; [done|]. destruct Ht as (Hu & _ & _).
  apply root_frame in Q1 as (C1 & _ & _), Q2 as (C2 & _ & _). rewrite E1, E2. unfold alike in *. by rewrite C1, C2.
Qed.

(** A block of the ledger, newest first: the executor (with the policies of the time) and the
    validators it was executed under, the receipts, and whether it was fetched from a
    peer's chain. *)
Record Entry := mkEntry {
  en_executor : BlockExecutor;
  en_set : list AccountId;
  en_block : Block;
  en_receipts : list ExecutionReceipt;
  en_fetched : bool;
}.

Inductive ledger (genesis : VmStore) : list Entry → VmStore → Prop :=
| led_genesis st : alike st genesis → ledger genesis [] st
| led_block en h st st' :
    ledger genesis h st → applies (en_executor en) (en_set en) (en_block en) st (en_receipts en) st' → ledger genesis (en :: h) st'.

Lemma chain_alike g h st st' : ledger g h st → alike st' st → ledger g h st'.
Proof.
  destruct 1 as [st Hst|en h s0 st Hl [(i & s & u & w & Htw & Hr & Hq & Hw) Hrr Htx]]; intros Ha.
  - constructor. by rewrite Ha.
  - econstructor; [done|]. constructor; [|done..]. exists i, s, u, w. split_and!; [done..|]. by rewrite Ha.
Qed.

(** The same blocks under the same executors and validators leave the same state. *)
Lemma ledger_functional g1 g2 h1 h2 st1 st2 :
  ledger g1 h1 st1 → ledger g2 h2 st2 → alike g1 g2 →
  map en_block h1 = map en_block h2 → map en_set h1 = map en_set h2 → map en_executor h1 = map en_executor h2 →
  alike st1 st2 ∧ map en_receipts h1 = map en_receipts h2.
Proof.
  intros L1. revert h2 st2. induction L1 as [st1 A1|en1 h1 s1 st1 L1 IH P1]; intros h2 st2 L2 Hg Hb Hs Hx.
  - destruct L2 as [st2 A2|]; [|done]. split; [|done]. by rewrite A1, A2.
  - destruct L2 as [|en2 h2 s2 st2 L2 P2]; [done|]. simpl in Hb, Hs, Hx.
    injection Hb as Hb Hbs. injection Hs as Hs Hss. injection Hx as Hx Hxs.
    destruct (IH h2 s2 L2 Hg Hbs Hss Hxs) as [Ha Hr]. rewrite Hb, Hs, Hx in P1.
    destruct (applies_functional _ _ _ _ _ _ _ _ _ P1 P2 Ha) as [Hrs ?]. split; [done|]. simpl. by rewrite Hrs, Hr.
Qed.

End Ledger.

(** ** The invariant *)

Section Invariant.
Context `{Host} `{RegistryCodec} `{Iteration} `{TextOps} `{Crypto} `{HexText} `{PolicyJson} `{ReceiptCodec}.
Context (error_text : nat → ExecutionError → bytes) (wire : Serde) (cfg : NodeConfig).
Context (genesis : Block) (genesis_state : VmStore) (fixed : list AccountId).
(** The executor in the course of an event. *)
Context (current : BlockExecutor).
(** The nodes gone through, with the events that led to each. *)
Context (reached : list (Clock * Event) → BoingNode → Prop).

Notation local := (bp_proposer (nc_producer cfg)).
Notation applies := (applies (nc_signing_chain_id cfg) error_text (nc_pins cfg)).
Notation ledger := (ledger (nc_signing_chain_id cfg) error_text (nc_pins cfg) genesis_state).
Notation past := (list (Clock * Event)).

(** Neither stake nor registrations change the validators. *)
Definition static : Prop := nc_stake_set cfg = None ∧ open_validator_params (nc_pins cfg) = None.

(** The vote of [who] for [bh] in round [r] is the node's own or arrived signed. *)
Definition signed_by (evs : past) (who : AccountId) (bh : Hash) (r : Z) : Prop :=
  who = local ∨
  ∃ clock v, (clock, EvVote v) ∈ evs ∧ vote_verify v = Ok () ∧ cv_validator v = who ∧ cv_block_hash v = bh ∧ cv_round v = r.

(** [m] is a node gone through whose tip is the parent of the entry's block. *)
Record at_parent (evs : past) (en : Entry) (m : BoingNode) : Prop := {
  at_reached : ∃ evs0, evs0 `suffix_of` evs ∧ reached evs0 m;
  at_hash : parent_hash (header (en_block en)) = cs_latest_hash (n_chain m);
  at_height : height (header (en_block en)) = cs_height (n_chain m) + 1;
}.

(** [voters] are distinct validators of the engine of [m], enough of them for its quorum,
    and each voted for the block at its height. *)
Record certified (evs : past) (en : Entry) (m : BoingNode) (voters : list AccountId) : Prop := {
  ct_distinct : NoDup voters;
  ct_quorum : quorum (n_consensus m) ≤
    Z.of_nat (length (filter (λ v, vote_counts (n_consensus m) v = true) voters));
  ct_signed : ∀ who, who ∈ voters → who ∈ validators (n_consensus m) ∧
    signed_by evs who (block_hash (en_block en)) (height (header (en_block en)));
}.

(** At the parent of the block the node executed it by its executor of the moment, and
    appended it under the validators of its engine of the moment. *)
Record justified (evs : past) (en : Entry) : Prop := {
  ju_executed : ∃ m, at_parent evs en m ∧ n_executor m = en_executor en;
  ju_appended : ∃ m, at_parent evs en m ∧ en_set en = validators (n_consensus m) ∧
    if en_fetched en then ∃ clock, (clock, EvFetched (en_block en)) ∈ evs
    else ∃ voters, certified evs en m voters;
}.

(** What waits for votes extends the tip. *)
Record extends (p : PendingCommit) (x : BlockExecutor) (set : list AccountId) (c : ChainState) (st : VmStore) : Prop := {
  xt_parent : parent_hash (header (pc_block p)) = cs_latest_hash c;
  xt_height : height (header (pc_block p)) = cs_height c + 1;
  xt_sound : sound (pc_new_state p);
  xt_applies : applies x set (pc_block p) st (pc_receipts p) (pc_new_state p);
}.

(** [x] was the executor of a node gone through with the tip [c]. *)
Definition ran (evs : past) (x : BlockExecutor) (c : ChainState) : Prop :=
  ∃ evs0 m, evs0 `suffix_of` evs ∧ reached evs0 m ∧ n_chain m = c ∧ n_executor m = x.

(** All but the proposal that waits for votes. *)
Record base_inv (evs : past) (h : list Entry) (n : BoingNode) : Prop := {
  bi_chain : ∃ k, chain_ok (map en_block h ++ [genesis]) k (n_chain n);
  bi_engine : engine_inv (n_consensus n);
  bi_sound : sound (n_state n);
  bi_executor : n_executor n = current;
  bi_ledger : ledger h (n_state n);
  bi_votes : ∀ who bh, votes (n_consensus n) !! who = Some bh → signed_by evs who bh (round (n_consensus n));
  bi_early : ∀ r bh vs who, n_early_votes n !! (r, bh) = Some vs → who ∈ vs → signed_by evs who bh r;
  bi_justified : Forall (justified evs) h;
  bi_static : static → validators (n_consensus n) = fixed ∧ Forall (λ en, en_set en = fixed) h;
}.

Definition pending_inv (evs : past) (n : BoingNode) : Prop :=
  match n_pending n with
  | None => pending_block (n_consensus n) = None
  | Some p =>
      (∃ b, pending_block (n_consensus n) = Some b ∧ block_hash b = block_hash (pc_block p)) ∧
      ∃ x, ran evs x (n_chain n) ∧ extends p x (validators (n_consensus n)) (n_chain n) (n_state n)
  end.

Record node_inv (evs : past) (h : list Entry) (n : BoingNode) : Prop := {
  ni_base : base_inv evs h n;
  ni_round : round (n_consensus n) = cs_height (n_chain n) + 1;
  ni_pending : pending_inv evs n;
}.

Lemma suffix_subseteq {A} (l l' : list A) : l `suffix_of` l' → l ⊆ l'.
Proof. intros [k ->] x Hx. apply elem_of_app. by right. Qed.

Lemma signed_by_more evs evs' who bh r : evs `suffix_of` evs' → signed_by evs who bh r → signed_by evs' who bh r.
Proof.
  intros Hs%suffix_subseteq [->|(clock & v & Hin & Hv)]; [by left|]. right. exists clock, v. by split; [apply Hs|].
Qed.

Lemma at_parent_more evs evs' en m : evs `suffix_of` evs' → at_parent evs en m → at_parent evs' en m.
Proof. intros Hs [(evs0 & Hs0 & Hm) Hp Hh]. constructor; [|done..]. exists evs0. split; [by etrans|done]. Qed.

Lemma justified_more evs evs' en : evs `suffix_of` evs' → justified evs en → justified evs' en.
Proof.
  intros Hs [(m1 & Hm1 & Hx) (m & Hm & Hset & Hj)]. constructor; [exists m1|exists m]; split; eauto using at_parent_more.
  split; [done|]. destruct (en_fetched en).
  - destruct Hj as [clock Hc]. exists clock. by apply (suffix_subseteq _ _ Hs).
  - destruct Hj as (voters & [Hd Hq Hv]). exists voters. constructor; [done..|]. intros who Hw.
    destruct (Hv who Hw). eauto using signed_by_more.
Qed.

Lemma ran_more evs evs' x c : evs `suffix_of` evs' → ran evs x c → ran evs' x c.
Proof. intros Hs (evs0 & m & Hs0 & Hm). exists evs0, m. split; [by etrans|done]. Qed.

Lemma base_more evs evs' h n : evs `suffix_of` evs' → base_inv evs h n → base_inv evs' h n.
Proof.
  intros Hs []. constructor; try done; [eauto using signed_by_more..|]. eapply Forall_impl; [done|]. eauto using justified_more.
Qed.

Lemma node_more evs evs' h n : evs `suffix_of` evs' → node_inv evs h n → node_inv evs' h n.
Proof.
  intros Hs [Hb Hr Hp]. constructor; [by eapply base_more|done|]. unfold pending_inv in *. destruct (n_pending n); [|done].
  destruct Hp as (Hb' & x & Hx & He). eauto using ran_more.
Qed.

(** The tip, the executor, the validators and the anchors are those of a node gone through. *)
Definition known (evs : past) (n : BoingNode) : Prop :=
  ∃ evs0 m, evs0 `suffix_of` evs ∧ reached evs0 m ∧
    n_chain m = n_chain n ∧ n_executor m = n_executor n ∧ same_config (n_consensus m) (n_consensus n).

Lemma known_ran evs n : known evs n → ran evs (n_executor n) (n_chain n).
Proof. intros (evs0 & m & Hs & Hm & Hc & Hx & _). by exists evs0, m. Qed.

Lemma known_same evs n n' :
  n_chain n' = n_chain n → n_executor n' = n_executor n → same_config (n_consensus n) (n_consensus n') →
  known evs n → known evs n'.
Proof.
  intros Ec Ex [Ev Ea] (evs0 & m & Hs & Hm & Em & Exm & [Ev' Ea']). exists evs0, m. split_and!; [done..|congruence|congruence|].
  by split; etrans.
Qed.

Lemma base_calm evs h n n' : calm n n' → base_inv evs h n → base_inv evs h n'.
Proof.
  intros [Ec Es Ex Ep [Ev Er Evw Epb Evt Ea] Hi He] [Hc Hin Hs Hx Hl Hv Hy Hj Hf]. constructor; rewrite ?Ec, ?Es, ?Ex, ?Ev; auto.
  - rewrite Evt, Er. done.
  - intros r bh vs who Hr. by apply Hy, He.
Qed.

Lemma node_calm evs h n n' : calm n n' → node_inv evs h n → node_inv evs h n'.
Proof.
  intros Hc [Hb Hr Hp]. constructor; [by eapply base_calm|..]; destruct Hc as [Ec Es Ex Ep [Ev Er Evw Epb Evt Ea] _ _].
  - by rewrite Er, Ec.
  - unfold pending_inv in *. by rewrite Ep, Epb, Ev, Ec, Es.
Qed.

(** The invariant in the course of an event, before a commit. *)
Definition standing (evs : past) (h : list Entry) (n : BoingNode) : Prop := node_inv evs h n ∧ known evs n.

Lemma standing_calm evs h n n' : calm n n' → standing evs h n → standing evs h n'.
Proof.
  intros Hc [Hn Hk]. split; [by eapply node_calm|]. destruct Hc as [Ec _ Ex _ [Ev _ _ _ _ Ea] _ _].
  eapply known_same; [done|done| |done]. by split.
Qed.

(** *** Between proposals *)

Definition idle (evs : past) (h : list Entry) (n : BoingNode) : Prop := node_inv evs h n ∧ n_pending n = None.

Definition settles {A} (m : ST BoingNode NodeFault A) : Prop := ∀ evs h n, idle evs h n → idle evs h (m n).2.

Lemma idle_calm evs h n n' : calm n n' → idle evs h n → idle evs h n'.
Proof. intros Hc [Hn Hp]. split; [by eapply node_calm|]. by rewrite (ca_pending _ _ Hc). Qed.

Lemma settles_calm {A} (m : ST BoingNode NodeFault A) : calms m → settles m.
Proof. intros Hm evs h n. by apply idle_calm. Qed.

Lemma settles_bind {A B} (m : ST BoingNode NodeFault A) (k : A → ST BoingNode NodeFault B) :
  settles m → (∀ a, settles (k a)) → settles (m ≫= k).
Proof.
  intros Hm Hk evs h n Hi. unfold mbind, st_bind. specialize (Hm evs h n Hi).
  destruct (m n) as [[a|e] n1]; [by apply Hk|done].
Qed.

(** An engine with nothing to vote on. *)
Lemma idle_engine evs h n e :
  idle evs h n → engine_inv e → pending_block e = None → round e = round (n_consensus n) →
  (static → validators e = validators (n_consensus n)) → idle evs h (set_consensus e n).
Proof.
  intros [[[Hc Hi Hs Hx' Hl Hv Hy Hj Hf] Hr Hp] Hno] He Hpe Hre Hst. split; [|done]. constructor; [constructor|..]; simpl; try done.
  - intros who bh. by rewrite (inv_no_pending _ He Hpe), lookup_empty.
  - intros Hs'. by rewrite (Hst Hs'); apply Hf.
  - by rewrite Hre.
  - unfold pending_inv in *. simpl. by rewrite Hno.
Qed.

Lemma settles_install set : ¬ static → settles (install_validators set).
Proof.
  intros Hns evs h n Hi. unfold install_validators. st_unfold.
  destruct (Consensus.set_validators (n_consensus n) set) as [e|] eqn:E; [|done]. simpl.
  pose proof (ni_base _ _ _ (proj1 Hi)) as [_ He _ _ _ _ _ _ _].
  apply idle_engine; [done|by eapply (config_inv (OpValidators set))|..]; unfold Consensus.set_validators in E;
    destruct set; simplify_eq; done || naive_solver.
Qed.

Lemma settles_stake h : settles (maybe_refresh_stake_validators cfg h).
Proof.
  unfold maybe_refresh_stake_validators. destruct (nc_stake_set cfg) as [c|] eqn:Ec; [|apply settles_calm, calms_ret].
  destruct (negb _); [apply settles_calm, calms_ret|]. intros evs hs n Hi. unfold mbind at 1, st_bind at 1. simpl.
  destruct (bool_decide _); [done|]. apply settles_bind; [apply settles_install; by intros [? _]; congruence| |done].
  intros _. apply settles_calm, calms_modify, calm_publish.
Qed.

Lemma settles_open : settles (sync_open_validator_set cfg).
Proof.
  unfold sync_open_validator_set. destruct (open_validator_params (nc_pins cfg)) as [params|] eqn:Eo; [|apply settles_calm, calms_ret].
  intros evs hs n Hi. unfold mbind at 1, st_bind at 1. simpl.
  destruct (OpenReg.consensus_set _ _) as [set|]; [|done]. apply settles_bind; [| |done].
  - destruct (bool_decide _); [apply settles_calm, calms_ret|apply settles_install; by intros [_ ?]; congruence].
  - intros _. clear Eo. intros evs' hs' n' Hi'. clear Hi. revert evs' hs' n' Hi'. clear. intros evs hs n Hi. unfold mbind, st_bind. simpl. destruct (bool_decide _); [done|].
    pose proof (ni_base _ _ _ (proj1 Hi)) as [_ He _ _ _ _ _ _ _].
    assert (pending_block (n_consensus n) = None) as Hp.
    { destruct Hi as [[_ _ Hp] Hno]. unfold pending_inv in Hp. by rewrite Hno in Hp. }
    apply idle_engine; [done|by eapply (config_inv (OpAnchors (ov_anchors params)))|done..].
Qed.

(** *** Commits *)

(** The engine has committed the proposal [p], which is to be appended. *)
Record committing (evs : past) (h : list Entry) (en : Entry) (p : PendingCommit) (n : BoingNode) : Prop := {
  cm_base : base_inv evs h n;
  cm_round : round (n_consensus n) = cs_height (n_chain n) + 2;
  cm_engine : pending_block (n_consensus n) = None;
  cm_extends : extends p (en_executor en) (en_set en) (n_chain n) (n_state n);
  cm_entry : en_block en = pc_block p ∧ en_receipts en = pc_receipts p;
  cm_justified : justified evs en;
  cm_static : static → en_set en = fixed;
}.

Lemma committing_calm evs h en p n n' : calm n n' → committing evs h en p n → committing evs h en p n'.
Proof.
  intros Hc [Hb Hr He Hx Hen Hj Hf]. pose proof Hc as [Ec Es Ex Ep [Ev Er Evw Epb Evt Ea] _ _].
  constructor; [by eapply base_calm|by rewrite Er, Ec|by rewrite Epb|by rewrite Ec, Es|done..].
Qed.

Lemma base_height evs h n : base_inv evs h n → cs_height (n_chain n) = Z.of_nat (length h).
Proof. intros [[k Hc] _ _ _ _ _ _ _ _]. rewrite (ck_height _ _ _ Hc), length_app, length_map. simpl. lia. Qed.

(** A block that extends the tip is appended. *)
Lemma append_extends evs h n p x set :
  base_inv evs h n → Z.of_nat (length h) < u64_max → extends p x set (n_chain n) (n_state n) →
  ∃ c, append (pc_block p) (n_chain n) = (Ok (), c) ∧ (∃ k, chain_ok (pc_block p :: map en_block h ++ [genesis]) k c) ∧
    cs_height c = cs_height (n_chain n) + 1.
Proof.
  intros Hb Hlen [Hpar Hh _ _]. pose proof (base_height _ _ _ Hb) as Hheight. destruct Hb as [[k Hc] _ _ _ _ _ _ _ _].
  destruct (append (pc_block p) (n_chain n)) as [r c] eqn:E.
  assert (r = Ok ()) as ->.
  { unfold append in E. rewrite Hpar, bool_decide_true in E by done. simpl in E.
    rewrite Hh in E. unfold wrap_add in E. rewrite Z.mod_small, Z.eqb_refl in E by lia. simpl in E. by simplify_eq. }
  exists c. split; [done|]. pose proof (append_spec _ _ _ _ _ _ Hc ltac:(lia) E) as (Hc' & _ & Hh' & _). eauto.
Qed.

(** The rest of a commit. *)
Definition after_append (p : PendingCommit) : ST BoingNode NodeFault Hash :=
  let h := height (header (pc_block p)) in
  _ ← st_modify (store_receipts (pc_receipts p));
  _ ← st_modify (prune_receipts_if_due cfg h);
  _ ← st_modify (set_pending None None);
  _ ← st_modify (retain_votes (sat_sub h 64));
  _ ← st_modify refresh_native_aggregates;
  _ ← st_modify emit_head_subscriber_event;
  _ ← maybe_refresh_stake_validators cfg h;
  _ ← sync_open_validator_set cfg;
  _ ← st_modify sync_failed_serve_slash_records;
  _ ← st_modify (set_fallback_wait None);
  _ ← st_modify (λ n, set_miss_streak (<[proposer (header (pc_block p)) := 0]> (n_miss_streak n)) n);
  _ ← st_modify (set_leader_wait None);
  _ ← st_modify (maybe_publish_vrf_proof_for_current_round cfg);
  mret (block_hash (pc_block p)).

Lemma settles_modify f : (∀ n, calm n (f n)) → settles (st_modify f).
Proof. intros Hf. by apply settles_calm, calms_modify. Qed.

Lemma calm_prune h n : calm n (prune_receipts_if_due cfg h n).
Proof. unfold prune_receipts_if_due. by destruct (prune_due h). Qed.

Lemma settles_after p : settles (after_append p).
Proof.
  unfold after_append. repeat (apply settles_bind; [|intros _]).
  all: try apply settles_stake; try apply settles_open; try apply settles_calm, calms_ret.
  all: try (by apply settles_modify).
  - apply settles_modify, calm_prune.
  - intros evs h n [Hn Hp]. split; [|done]. eapply node_calm; [|done]. by constructor; rewrite ?Hp.
  - apply settles_modify, calm_retain.
  - apply settles_modify, calm_mirror.
  - apply settles_modify, calm_publish.
Qed.

(** Fails by a panic only. *)
Definition only_panics {A} (m : ST BoingNode NodeFault A) : Prop := ∀ n e n', m n = (Err e, n') → e = NodePanic.

Lemma only_panics_bind {A B} (m : ST BoingNode NodeFault A) (k : A → ST BoingNode NodeFault B) :
  only_panics m → (∀ a, only_panics (k a)) → only_panics (m ≫= k).
Proof.
  intros Hm Hk n e n'. unfold mbind, st_bind. destruct (m n) as [[a|e'] n1] eqn:E; [apply Hk|].
  intros [= <- <-]. by eapply Hm.
Qed.

Lemma only_panics_modify f : only_panics (st_modify f).
Proof. by intros n e n'. Qed.

Lemma only_panics_ret {A} (a : A) : only_panics (mret a).
Proof. by intros n e n'. Qed.

Lemma only_panics_some {A} (o : option A) : only_panics (st_some o NodePanic).
Proof. intros n e n'. destruct o; [done|]. by intros [= <- _]. Qed.

Lemma only_panics_get : only_panics st_get.
Proof. by intros n e n'. Qed.

Lemma only_panics_put n0 : only_panics (st_put n0).
Proof. by intros n e n'. Qed.

Hint Resolve only_panics_modify only_panics_ret only_panics_some only_panics_get only_panics_put : panics.

Lemma only_panics_install set : only_panics (install_validators set).
Proof. repeat (apply only_panics_bind; [auto with panics|intros ?]). auto with panics. Qed.

Lemma only_panics_stake x : only_panics (maybe_refresh_stake_validators cfg x).
Proof.
  unfold maybe_refresh_stake_validators. destruct (nc_stake_set cfg); [|auto with panics].
  destruct (negb _); [auto with panics|]. apply only_panics_bind; [auto with panics|intros n0].
  simpl. destruct (bool_decide _); [auto with panics|].
  apply only_panics_bind; [apply only_panics_install|auto with panics].
Qed.

Lemma only_panics_open : only_panics (sync_open_validator_set cfg).
Proof.
  unfold sync_open_validator_set. destruct (open_validator_params _); [|auto with panics].
  apply only_panics_bind; [auto with panics|intros n0]. destruct (OpenReg.consensus_set _ _); [|auto with panics].
  apply only_panics_bind; [destruct (bool_decide _); [auto with panics|apply only_panics_install]|intros _].
  apply only_panics_bind; [auto with panics|intros n1]. destruct (bool_decide _); auto with panics.
Qed.

Hint Resolve only_panics_stake only_panics_open : panics.

Lemma only_panics_after p : only_panics (after_append p).
Proof. unfold after_append. repeat (apply only_panics_bind; [|intros _]); auto with panics. Qed.

(** What [commit_pending] does when the block extends the tip. *)
Lemma commit_pending_ok p n c :
  append (pc_block p) (n_chain n) = (Ok (), c) →
  commit_pending cfg p n = after_append p (set_state (pc_new_state p) (set_chain c n)).
Proof. intros E. unfold commit_pending, mbind at 1, st_bind at 1. simpl. by rewrite E. Qed.

Lemma commit_inv evs h en p n r n' :
  committing evs h en p n → n_pending n = None → Z.of_nat (length h) < u64_max →
  commit_pending cfg p n = (r, n') →
  r = Err NodePanic ∨ r = Ok (block_hash (en_block en)) ∧ idle evs (en :: h) n'.
Proof.
  intros [Hb Hr Hpe Hx [Eb Er] Hj Hst] Hno Hlen Hcom.
  destruct (append_extends _ _ _ _ _ _ Hb Hlen Hx) as (c & Ea & [k Hc] & Hh).
  rewrite (commit_pending_ok p n c Ea) in Hcom.
  assert (idle evs (en :: h) (set_state (pc_new_state p) (set_chain c n))) as Hi.
  { destruct Hb as [_ Hin Hs Hex Hl Hv Hy Hjs Hf]. split; [|done]. constructor; [constructor|..]; simpl; try done.
    - exists k. by rewrite Eb.
    - apply Hx.
    - econstructor; [done|]. rewrite Eb, Er. apply Hx.
    - by apply Forall_cons.
    - intros Hs'. destruct (Hf Hs'). split; [done|]. apply Forall_cons. by split; [apply Hst|].
    - lia.
    - unfold pending_inv. simpl. by rewrite Hno. }
  pose proof (settles_after p _ _ _ Hi) as Hset. pose proof (only_panics_after p (set_state (pc_new_state p) (set_chain c n))) as Hpan.
  destruct (after_append p _) as [[x|e] n1] eqn:E; simplify_eq/=; [right|left; f_equal; by eapply Hpan].
  split; [|done]. revert E. unfold after_append, mbind, st_bind. repeat (case_match; try done). intros [= <- _]. by rewrite Eb.
Qed.

Lemma commit_if_pending_inv evs h en p n r n' :
  committing evs h en p n → n_pending n = Some p → Z.of_nat (length h) < u64_max →
  commit_if_pending cfg (block_hash (pc_block p)) n = (r, n') →
  r = Err NodePanic ∨ r = Ok (Some (block_hash (en_block en))) ∧ idle evs (en :: h) n'.
Proof.
  intros Hcm Hp Hlen. unfold commit_if_pending, mbind, st_bind. simpl. rewrite Hp, bool_decide_true by done. simpl.
  destruct (commit_pending cfg p _) as [r1 n1] eqn:E.
  apply (commit_inv evs h en) in E as [->|[-> Hi]]; [by intros [= <- <-]; left|by intros [= <- <-]; right| |done|done].
  by destruct Hcm as [[] ? ? ? ? ? ?].
Qed.

(** *** Votes *)

(** The engine after a vote, and what it calls for. *)
Lemma vote_inv_node evs h n who bh res e' :
  standing evs h n → Z.of_nat (length h) + 1 < u64_max → signed_by evs who bh (round (n_consensus n)) →
  Consensus.vote bh who (n_consensus n) = (res, e') →
  (∀ x, res ≠ Ok (Some x)) ∧ standing evs h (set_consensus e' n) ∧ round e' = round (n_consensus n) ∨
  ∃ p en, n_pending n = Some p ∧ res = Ok (Some (block_hash (pc_block p))) ∧ en_fetched en = false ∧
    committing evs h en p (set_consensus e' n).
Proof.
  intros [[Hb Hr Hp] Hk] Hlen Hsig Hvote. pose proof (base_height _ _ _ Hb) as Hheight.
  pose proof (vote_inv bh who (n_consensus n) (bi_engine _ _ _ Hb)) as Hie. rewrite Hvote in Hie. simpl in Hie.
  apply vote_cases in Hvote as [[-> Hn]|(b & Hin & Hpb & Hfresh & Hcase)].
  { left. split_and!; [done| |done]. split; [by destruct n|done]. }
  set (e1 := set_votes (n_consensus n) (<[who := bh]> (votes (n_consensus n)))) in *.
  assert (∀ w x, votes e1 !! w = Some x → signed_by evs w x (round (n_consensus n))) as Hall.
  { intros w x Hw. unfold e1 in Hw. simpl in Hw. apply lookup_insert_Some in Hw as [[<- <-]|[_ Hw]]; [done|].
    by apply (bi_votes _ _ _ Hb). }
  pose proof Hb as [Hc Hi Hs Hx' Hl Hv Hy Hj Hf].
  destruct Hcase as [[-> Hn]|(-> & Hq & -> & ->)].
  { left. split_and!; [done| |done]. split; [constructor; [by constructor|done|exact Hp]|by eapply known_same; [..|done]]. }
  right. unfold pending_inv in Hp. destruct (n_pending n) as [p|] eqn:Ep; [|congruence].
  destruct Hp as ((b' & Eb' & Ehash) & x & Hran & Hx). rewrite Hpb in Eb'. injection Eb' as <-.
  set (en := mkEntry x (validators e1) (pc_block p) (pc_receipts p) false).
  exists p, en. split_and!; [done|by rewrite Ehash|done|]. constructor; simpl; try done.
  - unfold wrap_add. rewrite Z.mod_small; lia.
  - destruct Hran as (evs1 & m1 & Hs1 & Hm1 & Em1 & Exm). destruct Hk as (evs0 & m & Hsuf & Hm & Em & _ & Ecfg).
    assert (∀ evs0 m, evs0 `suffix_of` evs → reached evs0 m → n_chain m = n_chain n → at_parent evs en m) as Hat.
    { intros l k ? ? Ek. constructor; [by exists l|rewrite Ek; apply Hx..]. }
    constructor; [exists m1; by eauto|]. exists m. split_and!; [by eauto|by destruct Ecfg|].
    exists (voters_for (votes e1) (block_hash b)). constructor; simpl.
    + apply NoDup_voters_for.
    + rewrite (config_quorum _ e1 Ecfg). unfold counted_votes in Hq. simpl in Hq. rewrite Hpb in Hq.
      rewrite (list_filter_iff _ (λ v, vote_counts e1 v = true)); [done|].
      intros v. by rewrite (config_vote_counts _ e1 v Ecfg).
    + intros w Hw%elem_of_voters_for. rewrite <- Ehash. destruct Ecfg as [-> _]. split.
      * apply lookup_insert_Some in Hw as [[-> _]|[_ Hw]]; [done|]. by eapply (inv_votes _ Hi).
      * rewrite (xt_height _ _ _ _ _ Hx), <- Hr. by apply Hall.
  - intros Hs'. apply (Hf Hs').
Qed.

(** How an operation that may commit leaves the node. *)
Definition outcome (evs : past) (h : list Entry) (r : result (option Hash) NodeFault) (n' : BoingNode) : Prop :=
  match r with
  | Ok None => standing evs h n'
  | Ok (Some x) => ∃ en, block_hash (en_block en) = x ∧ en_fetched en = false ∧ idle evs (en :: h) n'
  | Err NodePanic => True
  | Err _ => standing evs h n'
  end.

Lemma commit_outcome evs h en p n r n' :
  committing evs h en p n → en_fetched en = false → n_pending n = Some p → Z.of_nat (length h) < u64_max →
  commit_if_pending cfg (block_hash (pc_block p)) n = (r, n') → outcome evs h r n'.
Proof.
  intros Hcm He Hp Hlen Hc. destruct (commit_if_pending_inv _ _ _ _ _ _ _ Hcm Hp Hlen Hc) as [->|[-> Hi]]; [done|].
  simpl. eauto.
Qed.

Section Bounded.
Context (evs : past) (h : list Entry) (Hlen : Z.of_nat (length h) + 1 < u64_max).

Lemma early_votes_inv bh voters n r n' :
  standing evs h n → Forall (λ v, signed_by evs v bh (round (n_consensus n))) voters →
  apply_early_votes cfg bh voters n = (r, n') → outcome evs h r n'.
Proof.
  revert n. induction voters as [|v voters IH]; intros n Hn Hall; cbn [apply_early_votes].
  { by intros [= <- <-]. }
  apply Forall_cons in Hall as [Hv Hall]. unfold mbind, st_bind, on_consensus.
  destruct (Consensus.vote bh v (n_consensus n)) as [res e'] eqn:E.
  apply (vote_inv_node evs h) in E as [(Hno & Hn' & Hr)|(p & en & Hp & -> & He & Hcm)]; [| |done..].
  - destruct res as [[x|]|]; [by destruct (Hno x)|..]; intros Hrest; (eapply IH; [exact Hn'|simpl; by rewrite Hr|exact Hrest]).
  - intros Hc. eapply commit_outcome; [exact Hcm|done|done|lia|exact Hc].
Qed.

Lemma drain_inv bh n r n' :
  standing evs h n → drain_early_votes_for_pending cfg bh n = (r, n') → outcome evs h r n'.
Proof.
  intros Hn. unfold drain_early_votes_for_pending, mbind, st_bind. simpl. apply early_votes_inv.
  - eapply standing_calm; [|exact Hn]. constructor; try done. simpl. by intros key vs [_ ?]%lookup_delete_Some.
  - simpl. apply Forall_forall. intros v Hv. destruct (n_early_votes n !! _) as [vs|] eqn:E; [|by apply elem_of_nil in Hv].
    by eapply (bi_early _ _ _ (ni_base _ _ _ (proj1 Hn))).
Qed.

Lemma calms_signed r bh : calms (broadcast_signed_vote cfg r bh).
Proof.
  unfold broadcast_signed_vote. destruct (nc_key cfg); [|apply calms_ret].
  apply calms_bind; [apply calms_note|intros _; by apply calms_modify].
Qed.

Lemma only_panics_note v : only_panics (note_signed_vote_and_maybe_slash cfg v).
Proof.
  intros n e n'. unfold note_signed_vote_and_maybe_slash, queue_equivocation_report, refresh_tx_sig_policy. st_unfold.
  by repeat (case_match; simplify_eq/=; try done).
Qed.

Lemma only_panics_signed r bh : only_panics (broadcast_signed_vote cfg r bh).
Proof.
  unfold broadcast_signed_vote. destruct (nc_key cfg); [|auto with panics].
  apply only_panics_bind; [apply only_panics_note|auto with panics].
Qed.

Lemma local_vote_inv bh n r n' :
  standing evs h n → vote_locally_and_maybe_broadcast cfg bh n = (r, n') → outcome evs h r n'.
Proof.
  intros Hn. unfold vote_locally_and_maybe_broadcast. unfold mbind at 1, st_bind at 1. simpl.
  destruct (negb _); [by intros [= <- <-]|]. destruct (bool_decide (n_last_local_vote_round n = _)); [by intros [= <- <-]|].
  unfold mbind at 1, st_bind at 1, on_consensus. destruct (Consensus.vote bh local (n_consensus n)) as [res e'] eqn:E.
  apply (vote_inv_node evs h) in E as [(Hno & Hn' & Hr)|(p & en & Hp & -> & He & Hcm)]; [| |done..|by left].
  - destruct res as [[x|]|]; [by destruct (Hno x)| |by intros [= <- <-]]. unfold mbind at 1, st_bind at 1. simpl.
    unfold mbind at 1, st_bind at 1.
    match goal with |- context [broadcast_signed_vote cfg ?r ?x ?m] =>
      pose proof (calms_signed r x m) as Hca; pose proof (only_panics_signed r x m) as Hpa end.
    destruct (broadcast_signed_vote _ _ _ _) as [[[]|e] n1]; simpl in *; intros [= <- <-].
    + simpl. eapply standing_calm; [exact Hca|]. eapply standing_calm; [|exact Hn']. done.
    + by rewrite (Hpa e n1 eq_refl).
  - unfold mbind at 1, st_bind at 1. simpl. unfold mbind at 1, st_bind at 1.
    match goal with |- context [broadcast_signed_vote cfg ?r ?x ?m] =>
      pose proof (calms_signed r x m) as Hca; pose proof (only_panics_signed r x m) as Hpa end.
    destruct (broadcast_signed_vote _ _ _ _) as [[[]|e] n1]; simpl in *.
    + intros Hc. eapply commit_outcome; [|exact He| |lia|exact Hc].
      * eapply committing_calm; [exact Hca|]. by eapply committing_calm; [|exact Hcm].
      * rewrite (ca_pending _ _ Hca). done.
    + intros [= <- <-]. by rewrite (Hpa e n1 eq_refl).
Qed.

Lemma enter_pending_inv clock p n r n' :
  standing evs h (set_pending (Some p) (Some (ck_instant clock)) n) →
  enter_pending cfg clock p n = (r, n') → outcome evs h r n'.
Proof.
  intros Hn. unfold enter_pending. unfold mbind at 1, st_bind at 1. simpl. unfold mbind at 1, st_bind at 1.
  destruct (vote_locally_and_maybe_broadcast cfg _ _) as [[[x|]|e] n1] eqn:E; apply local_vote_inv in E; try done.
  - intros [= <- <-]. exact E.
  - intros Hd. by eapply drain_inv.
  - intros [= <- <-]. exact E.
Qed.

Lemma buffer_inv v n :
  standing evs h n → signed_by evs (cv_validator v) (cv_block_hash v) (cv_round v) → standing evs h (buffer_vote v n).
Proof.
  intros Hn Hv.
  assert (∀ n, standing evs h n → standing evs h (set_early_votes
    (<[(cv_round v, cv_block_hash v) := default [] (n_early_votes n !! (cv_round v, cv_block_hash v)) ++ [cv_validator v]]>
       (n_early_votes n)) n)) as Hpush.
  { clear n Hn. intros n [[[Hc Hi Hs Hx Hl Hvo Hy Hj Hf] Hr Hp] Hk]. split; [|done]. constructor; [constructor|..]; simpl; try done.
    intros r bh vs who [[[= <- <-] <-]|[_ Hl']]%lookup_insert_Some Hin; [|by eapply Hy].
    apply elem_of_app in Hin as [Hin| ->%list_elem_of_singleton]; [|done].
    destruct (n_early_votes n !! _) as [vs|] eqn:E; [by eapply Hy|by apply elem_of_nil in Hin]. }
  unfold buffer_vote. destruct (_ <? _); [done|]. destruct (_ <? _); [done|]. destruct (_ && _); [|by apply Hpush].
  match goal with |- context [set_early_votes ?m n] => set (n1 := set_early_votes m n) end.
  assert (standing evs h n1) as Hn1.
  { eapply standing_calm; [|exact Hn]. constructor; try done. simpl. by intros key vs [? _]%map_lookup_filter_Some. }
  destruct (_ <=? _)%nat; [done|by apply Hpush].
Qed.

Lemma peer_vote_inv clock v n r n' :
  standing evs h n → (clock, EvVote v) ∈ evs → on_consensus_vote cfg v n = (r, n') → outcome evs h r n'.
Proof.
  intros Hn Hin. unfold on_consensus_vote. destruct (vote_verify v) as [[]|] eqn:Hver; [|by intros [= <- <-]].
  assert (signed_by evs (cv_validator v) (cv_block_hash v) (cv_round v)) as Hsig by (right; by exists clock, v).
  unfold mbind at 1, st_bind at 1. simpl. destruct (negb _); [by intros [= <- <-]|].
  unfold mbind at 1, st_bind at 1. pose proof (calms_note cfg v n) as Hca.
  destruct (note_signed_vote_and_maybe_slash cfg v n) as [[[]|e] n1] eqn:En; simpl in Hca.
  2: { intros [= <- <-]. by rewrite (only_panics_note v n e n1 En). }
  assert (standing evs h n1) as Hn1 by (by eapply standing_calm). clear Hca En Hn n.
  unfold mbind at 1, st_bind at 1. simpl. destruct (negb _ || negb _) eqn:Emis.
  - unfold mbind at 1, st_bind at 1. destruct ((_ =? _) || bool_decide _); intros Heq; unfold mret, st_ret in Heq; simplify_eq/=;
      [by apply buffer_inv|done].
  - apply orb_false_iff in Emis as [_ Er]. apply negb_false_iff, Z.eqb_eq in Er.
    unfold mbind at 1, st_bind at 1, on_consensus. destruct (Consensus.vote _ _ (n_consensus n1)) as [res e'] eqn:E.
    apply (vote_inv_node evs h) in E as [(Hno & Hn' & Hr)|(p & en & Hp & -> & He & Hcm)]; [| |done..|by rewrite Er].
    + destruct res as [[x|]|]; [by destruct (Hno x)|by intros [= <- <-]..].
    + intros Hc. eapply commit_outcome; [exact Hcm|done|done|lia|exact Hc].
Qed.

(** *** Blocks *)

Lemma import_extends clock b n st' rs :
  standing evs h n → import_at_tip error_text cfg clock b n = Ok (st', rs) →
  extends (mkPendingCommit b rs st') (n_executor n) (validators (n_consensus n)) (n_chain n) (n_state n).
Proof.
  intros Hn Him. pose proof (base_height _ _ _ (ni_base _ _ _ (proj1 Hn))) as Hh. pose proof (bi_sound _ _ _ (ni_base _ _ _ (proj1 Hn))) as Hs.
  apply BlockLaws.import_ok in Him as (Hch & _ & _ & _ & _ & Htx & u & Hrun & Hrr & Hroot).
  apply andb_true_iff in Hch as [Hpar Hhe]. apply bool_decide_eq_true in Hpar. apply Z.eqb_eq in Hhe.
  assert (height (header b) = cs_height (n_chain n) + 1) as Hhe'.
  { rewrite Hhe. unfold wrap_add. rewrite Z.mod_small; lia. }
  pose proof (frames_run_block (nc_signing_chain_id cfg) error_text (nc_pins cfg) (n_executor n) (validators (n_consensus n))
    (height (header b)) (timestamp (header b)) (transactions b) (proposer (header b)) (priority_tips b)
    (snapshot (n_state n))) as Hf.
  rewrite Hrun in Hf. specialize (Hf ltac:(done)). simpl in Hf. pose proof (root_frame _ _ _ _ Hroot) as (Hcont & _ & Hsc).
  constructor; simpl; [done|done| |].
  - apply (sc_sound _ _ Hsc), (sc_sound _ _ Hf), snaps_none.
  - constructor; simpl; [|done..]. exists H1, (snapshot (n_state n)), u, st'. split_and!; [|done..].
    split_and!; [done|apply snaps_none|done].
Qed.

Lemma accept_keeps b e e' :
  engine_inv e → accept_proposal b e = (Ok (), e') →
  engine_inv e' ∧ round e' = round e ∧ same_config e e' ∧
  (∃ b', pending_block e' = Some b' ∧ block_hash b' = block_hash b) ∧
  ∀ v x, votes e' !! v = Some x → votes e !! v = Some x.
Proof.
  intros Hi Ha. pose proof (accept_proposal_inv b e Hi) as Hi'. rewrite Ha in Hi'. simpl in Hi'.
  apply accept_proposal_cases in Ha as [[-> Hp]|(ev & _ & _ & _ & _ & _ & [[-> Hp]| ->])].
  - split_and!; try done; auto.
  - split_and!; try done; auto.
  - split_and!; try done. by eexists.
Qed.

Lemma engine_waits n p e since :
  standing evs h n → engine_inv e → round e = round (n_consensus n) → same_config (n_consensus n) e →
  (∃ b', pending_block e = Some b' ∧ block_hash b' = block_hash (pc_block p)) →
  (∀ v x, votes e !! v = Some x → votes (n_consensus n) !! v = Some x) →
  extends p (n_executor n) (validators (n_consensus n)) (n_chain n) (n_state n) →
  standing evs h (set_pending (Some p) since (set_consensus e n)).
Proof.
  intros [[[Hc Hi Hs Hx' Hl Hv Hy Hj Hf] Hr Hp] Hk] He Er Ecfg Hpe Hvo Hx. destruct Ecfg as [Ev Ea]. pose proof (known_ran _ _ Hk) as Hran.
  split; [|by eapply known_same; [..|exact Hk]]. constructor; [constructor|..]; simpl; try done.
  - rewrite Er. eauto.
  - by rewrite <- Ev.
  - by rewrite Er.
  - unfold pending_inv. simpl. rewrite <- Ev. by eauto.
Qed.

Lemma calm_supersede b n : calm n (supersede_vote b n).
Proof. unfold supersede_vote. by destruct (_ && _). Qed.

Lemma network_block_inv clock b n r n' :
  standing evs h n → handle_network_block error_text cfg clock b n = (r, n') → outcome evs h r n'.
Proof.
  intros Hn. unfold handle_network_block. unfold mbind at 1, st_bind at 1. simpl.
  destruct (import_at_tip error_text cfg clock b n) as [[st' rs]|[e|]] eqn:Him; [|by intros [= <- <-]..].
  apply import_extends in Him; [|done]. unfold mbind at 1, st_bind at 1, on_consensus.
  destruct (accept_proposal b (n_consensus n)) as [[[]|e] e'] eqn:Ea.
  - apply accept_keeps in Ea as (He & Er & Ev & Hpe & Hvo); [|by apply (ni_base _ _ _ (proj1 Hn))].
    unfold mbind at 1, st_bind at 1. simpl. intros Hent. eapply enter_pending_inv; [|exact Hent].
    eapply standing_calm; [|apply (engine_waits n (mkPendingCommit b rs st') e' (Some (ck_instant clock)) Hn He Er Ev Hpe Hvo Him)].
    destruct (calm_supersede b (set_consensus e' n)) as [A B C D E F]. by constructor.
  - intros [= <- <-]. simpl. pose proof (accept_proposal_cases b _ _ _ Ea) as [[-> _]|(ev & ? & _)]; [|done]. by destruct n.
Qed.

Lemma catchup_inv clock b n r n' :
  standing evs h n → (clock, EvFetched b) ∈ evs → import_network_block_catchup error_text cfg clock b n = (r, n') →
  match r with
  | Ok _ => ∃ en, en_block en = b ∧ idle evs (en :: h) n'
  | Err NodePanic => True
  | Err _ => n' = n
  end.
Proof.
  intros Hn Hin. unfold import_network_block_catchup. unfold mbind at 1, st_bind at 1. simpl.
  destruct (import_at_tip error_text cfg clock b n) as [[st' rs]|[e|]] eqn:Him; [|by intros [= <- <-]..].
  apply import_extends in Him; [|done]. pose proof Hn as [[Hb Hr Hp] Hk]. pose proof (base_height _ _ _ Hb) as Hh.
  set (en := mkEntry (n_executor n) (validators (n_consensus n)) b rs true).
  destruct (append_extends _ _ _ _ _ _ Hb ltac:(lia) Him) as (c & Ea & [k Hc] & Hh'). simpl in Ea. rewrite Ea.
  unfold mbind at 1, st_bind at 1. simpl. unfold mbind at 1, st_bind at 1. simpl. unfold mbind at 1, st_bind at 1. simpl.
  unfold mbind at 1, st_bind at 1. simpl.
  match goal with |- context [set_pending None None ?m] => set (n1 := set_pending None None m) end.
  assert (idle evs (en :: h) n1) as Hi.
  { pose proof (xt_height _ _ _ _ _ Him) as Hhe. simpl in Hhe. destruct Hb as [_ He Hs Hx Hl Hv Hy Hj Hf].
    assert (engine_inv (sync_round (n_consensus n) (sat_add u64_max (height (header b)) 1))) as Hsync.
    { eapply (config_inv (OpSync (sat_add u64_max (height (header b)) 1))); [done|exact He| |done].
      simpl. apply sat_add_u64; lia. }
    split; [|done]. constructor; [constructor|..]; simpl; try done.
    - exists k. exact Hc.
    - apply Him.
    - econstructor; [exact Hl|]. apply Him.
    - apply Forall_cons. split; [|done]. destruct Hk as (evs0 & m & Hsuf & Hm & Em & Exm & Ecfg).
      assert (at_parent evs en m) as Hat by (constructor; simpl; [by exists evs0|rewrite Em; apply Him..]).
      constructor; exists m; [done|]. split_and!; [done|by destruct Ecfg|by exists clock].
    - intros Hs'. destruct (Hf Hs'). by rewrite Forall_cons.
    - unfold sat_add. lia. }
  match goal with |- ?m n1 = _ → _ => set (rest := m) end. intros Hrest.
  assert (settles rest ∧ only_panics rest) as [Hse Hpa].
  { unfold rest. split.
    - repeat (apply settles_bind; [|intros _]).
      all: try apply settles_stake; try apply settles_open; try (by apply settles_modify).
      + apply settles_modify, calm_prune.
      + apply settles_modify, calm_mirror.
      + apply settles_modify, calm_publish.
    - repeat (apply only_panics_bind; [|intros _]); auto with panics. }
  specialize (Hse _ _ _ Hi). rewrite Hrest in Hse. destruct r as [[]|e]; [by exists en|]. by rewrite (Hpa _ _ _ Hrest).
Qed.

Lemma timeout_inv clock n : standing evs h n → standing evs h (tick_proposal_timeout cfg clock n).
Proof.
  intros Hn. unfold tick_proposal_timeout. destruct (n_pending n) as [p|] eqn:Ep.
  2: { eapply standing_calm; [|exact Hn]. by constructor. }
  destruct (n_pending_since n) as [since|]; [|eapply standing_calm; [|exact Hn]; by constructor].
  destruct (_ <? _); [done|]. unfold abandon_stuck_proposal. rewrite Ep. destruct Hn as [[[Hc Hi Hs Hx' Hl Hv Hy Hj Hf] Hr Hp] Hk].
  split; [|by eapply known_same; [..|exact Hk]]. constructor; [constructor|..]; simpl; try done.
  - by eapply (config_inv OpAbandon).
  - intros r bh vs who [_ Hl']%lookup_delete_Some. by eapply Hy.
Qed.

(** *** Production *)

Notation produce n := (produce_proposal_with_fallback (nc_env cfg) (nc_signing_chain_id cfg) error_text (nc_pins cfg)
  (n_executor n) (n_mempool_config n)).

Lemma restated_inv n st pool :
  standing evs h n → n_pending n = None → alike st (n_state n) → sound st →
  standing evs h (set_state st (set_mempool pool n)).
Proof.
  intros [[[Hc Hi Hs Hx' Hl Hv Hy Hj Hf] Hr Hp] Hk] Hno Ha Hst. split; [|exact Hk]. constructor; [constructor|..]; simpl; try done.
  - by eapply chain_alike.
  - unfold pending_inv in *. simpl. by rewrite Hno in *.
Qed.

Lemma produced_extends policy now n fallback prop pool st' set_ :
  standing evs h n → set_ = validators (n_consensus n) →
  produce n policy now (nc_producer cfg) (n_chain n) (n_mempool n) (n_state n) (n_consensus n) fallback = Some (Some prop, pool, st') →
  alike st' (n_state n) → sound st' →
  extends (mkPendingCommit (pp_block prop) (pp_receipts prop) (pp_new_state prop)) (n_executor n) set_ (n_chain n) st'.
Proof.
  intros Hn -> Hprod Ha Hst. pose proof (base_height _ _ _ (ni_base _ _ _ (proj1 Hn))) as Hh.
  pose proof (bi_sound _ _ _ (ni_base _ _ _ (proj1 Hn))) as Hs.
  apply BlockLaws.produced_spec in Hprod as (signed & [_ _ _ _ Hpar Hhe _ Hby _ Htx Hrr _ (u & w & Hrun & Hroot & Hnew)]).
  constructor; simpl; [done| | |].
  - rewrite Hhe. unfold wrap_add. rewrite Z.mod_small; lia.
  - rewrite Hnew. apply snaps_none.
  - constructor; simpl; [|done..]. exists H1, (checkpoint (n_state n)).2, u, w. split_and!; [|by rewrite Hby|done|by rewrite Hnew].
    split_and!; [|by apply checkpoint_snaps|done]. rewrite Ha. apply checkpoint_alike.
Qed.

Lemma propose_keeps_engine b e e' :
  engine_inv e → Consensus.propose b e = (Ok (), e') →
  engine_inv e' ∧ round e' = round e ∧ same_config e e' ∧ pending_block e' = Some b ∧ votes e' = ∅.
Proof.
  intros Hi Hp. pose proof (propose_inv b e Hi) as Hi'. rewrite Hp in Hi'. unfold Consensus.propose in Hp.
  destruct (validate_proposal_current_view e b); simplify_eq. done.
Qed.

Lemma only_panics_fallback clock : only_panics (anchor_fallback_due cfg clock).
Proof.
  intros n e n'. unfold anchor_fallback_due, leader_of. st_unfold. by repeat (case_match; simplify_eq/=; try done; try by intros [= <- _]).
Qed.

Lemma produce_inv clock n r n' :
  standing evs h n → produce_block_if_ready error_text wire cfg clock n = (r, n') → outcome evs h r n'.
Proof.
  intros Hn. unfold produce_block_if_ready. unfold mbind at 1, st_bind at 1.
  pose proof (calms_expirations wire cfg clock n) as Hca. destruct (apply_qa_pool_expirations wire cfg clock n) as [[[]|e] n1] eqn:E1.
  2: { revert E1. unfold apply_qa_pool_expirations, refresh_tx_sig_policy. st_unfold. by destruct (QaPool.prune_expired _ _). }
  assert (standing evs h n1) as Hn1 by (by eapply standing_calm). clear Hca E1 Hn n.
  unfold mbind at 1, st_bind at 1. simpl. unfold mbind at 1, st_bind at 1. simpl.
  apply (timeout_inv clock) in Hn1. set (n := tick_proposal_timeout cfg clock n1) in *. clearbody n. clear n1.
  destruct (bool_decide_reflect (is_Some (n_pending n))) as [|Hno%eq_None_not_Some]; [by intros [= <- <-]|].
  destruct (bool_decide _); [by intros [= <- <-]|]. unfold mbind at 1, st_bind at 1.
  pose proof (calms_fallback cfg clock n) as Hca. destruct (anchor_fallback_due cfg clock n) as [[fb|e] n2] eqn:E2.
  2: { intros [= <- <-]. by rewrite (only_panics_fallback _ _ _ _ E2). }
  assert (standing evs h n2) as Hn2 by (by eapply standing_calm). rewrite <- (ca_pending _ _ Hca) in Hno. simpl in Hno.
  clear Hca E2 Hn1 n. unfold mbind at 1, st_bind at 1. simpl.
  destruct (produce n2 _ _ _ _ _ _ _ fb) as [[[proposal pool] st']|] eqn:Hprod; [|by intros [= <- <-]].
  destruct (BlockLaws.produce_keeps _ _ _ _ _ _ _ _ _ _ _ _ _ _ _ _ _ (bi_sound _ _ _ (ni_base _ _ _ (proj1 Hn2))) Hprod) as [Ha Hst].
  pose proof (restated_inv n2 st' pool Hn2 Hno Ha Hst) as Hn3. unfold mbind at 1, st_bind at 1. simpl.
  destruct proposal as [prop|]; [|by intros [= <- <-]].
  pose proof (produced_extends _ _ _ _ _ _ _ _ Hn2 eq_refl Hprod Ha Hst) as Hx.
  unfold mbind at 1, st_bind at 1, on_consensus. simpl.
  destruct (Consensus.propose (pp_block prop) (n_consensus n2)) as [[[]|e] e'] eqn:Ep.
  - apply propose_keeps_engine in Ep as (He & Er & Ev & Hpe & Hvo); [|apply (ni_base _ _ _ (proj1 Hn2))].
    unfold mbind at 1, st_bind at 1. simpl. intros Hent. eapply enter_pending_inv; [|exact Hent].
    eapply standing_calm; [|eapply (engine_waits _ (mkPendingCommit (pp_block prop) (pp_receipts prop) (pp_new_state prop)) e' (Some (ck_instant clock)) Hn3); simpl; try done].
    + by constructor.
    + eauto.
    + intros v x. by rewrite Hvo, lookup_empty.
  - intros [= <- <-]. simpl. unfold Consensus.propose in Ep. destruct (validate_proposal_current_view _ _); simplify_eq.
    eapply standing_calm; [|exact Hn3]. done.
Qed.

(** *** Every event *)

Definition moves (n' : BoingNode) : Prop := ∃ h', node_inv evs h' n' ∧ (h' = h ∨ ∃ en, h' = en :: h).

Lemma standing_moves n' : standing evs h n' → moves n'.
Proof. intros [Hn _]. exists h. auto. Qed.

Lemma outcome_moves r n' : outcome evs h r n' → r ≠ Err NodePanic → moves n'.
Proof.
  destruct r as [[x|]|[]]; simpl; auto using standing_moves; [|done].
  intros (en & _ & _ & Hi & _) _. exists (en :: h). eauto.
Qed.

Lemma handle_inv clock ev n r n' :
  standing evs h n → (clock, ev) ∈ evs → sets_policy ev = false → handle error_text wire cfg clock ev n = (r, n') → r ≠ Err NodePanic → moves n'.
Proof.
  intros Hn Hin Hpol Hh Hnp.
  assert (∀ (m : ST BoingNode NodeFault (option Hash)), (∀ r n', m n = (r, n') → outcome evs h r n') →
    (m ≫= λ _, mret ()) n = (r, n') → moves n') as Hout.
  { intros m Hm. unfold mbind, st_bind. destruct (m n) as [[o|e] n1]; intros [= <- <-];
      (eapply outcome_moves; [exact (Hm _ _ eq_refl)|]); naive_solver. }
  assert (∀ {A} (m : ST BoingNode NodeFault A) k, calms m → (m ≫= λ a, mret (k a)) n = (r, n') → moves n') as Hcalm.
  { intros A m k Hm Hr. pose proof (calms_bind m (λ a, mret (k a)) Hm ltac:(intros; apply calms_ret) n) as Hc.
    rewrite Hr in Hc. eauto using standing_moves, standing_calm. }
  assert (∀ {A} (m : ST BoingNode AdmitFault A), calms m → admitting m n = (r, n') → moves n') as Hadmit.
  { intros A m Hm Hr. specialize (Hm n). unfold admitting in Hr.
    destruct (m n) as [[|[]] n1]; injection Hr as <- <-; eauto using standing_moves, standing_calm. }
  destruct ev; try done; simpl in Hh.
  - apply (Hout _ (λ r n', network_block_inv clock b n r n' Hn) Hh).
  - pose proof (catchup_inv clock b n r n' Hn Hin Hh) as Hc.
    destruct r as [[]|[]]; [|by subst; apply standing_moves..|done]. destruct Hc as (en & _ & Hi & _). exists (en :: h). eauto.
  - apply (Hout _ (λ r n', peer_vote_inv clock v n r n' Hn Hin) Hh).
  - by eapply (Hcalm _ _ (λ _, ())); [apply calms_evidence|].
  - by eapply (Hcalm _ _ (λ _, ())); [apply calms_vrf|].
  - pose proof (calms_liveness cfg clock n) as Hc. rewrite Hh in Hc. eauto using standing_moves, standing_calm.
  - injection Hh as <- <-. by apply standing_moves, timeout_inv.
  - apply (Hout _ (λ r n', produce_inv clock n r n' Hn) Hh).
  - by eapply (Hcalm _ _ (λ _, ())); [apply calms_appeal|].
  - by eapply (Hcalm _ _ (λ _, ())); [apply calms_resolve|].
  - by eapply Hadmit; [apply calms_submit|].
  - injection Hh as <- <-. by apply standing_moves.
  - by eapply Hadmit; [apply calms_qa_vote|].
  - exact (Hcalm _ _ (λ _, ()) (calms_governance _) Hh).
  - by eapply (Hcalm _ _ (λ _, ())); [apply calms_gov_vote|].
  - exact (Hcalm _ _ (λ _, ()) (calms_governance _) Hh).
  - exact (Hcalm _ _ (λ _, ()) (calms_governance _) Hh).
Qed.

End Bounded.
End Invariant.

(** ** Runs *)

Module NodeTheorems.
Section Runs.
Context `{Host} `{RegistryCodec} `{TextOps} `{Crypto} `{HexText} `{PolicyJson} `{ReceiptCodec}.
Context (error_text : nat → ExecutionError → bytes).

(** The nodes reached from [n0], with the events handled, newest first. A node that panics
    is no more. *)
Inductive runs (i : Iteration) (wire : Serde) (cfg : NodeConfig) (n0 : BoingNode)
    : list (Clock * Event) → BoingNode → Prop :=
| runs_start : runs i wire cfg n0 [] n0
| runs_event evs n clock ev r n' :
    runs i wire cfg n0 evs n → handle (H1 := i) error_text wire cfg clock ev n = (r, n') → r ≠ Err NodePanic →
    runs i wire cfg n0 ((clock, ev) :: evs) n'.

Lemma run_events_runs (i : Iteration) wire cfg n0 evs past n n' :
  runs i wire cfg n0 past n → run_events (H1 := i) error_text wire cfg evs n = Some n' →
  runs i wire cfg n0 (rev evs ++ past) n'.
Proof.
  revert past n. induction evs as [|[clock ev] evs IH]; intros past n Hr; simpl; [by intros [= <-]|].
  destruct (handle error_text wire cfg clock ev n) as [r n1] eqn:E. intros Hrest.
  assert (r ≠ Err NodePanic ∧ run_events (H1 := i) error_text wire cfg evs n1 = Some n') as [Hnp Hrun].
  { by destruct r as [|[]]. }
  rewrite <- app_assoc. simpl. apply (IH _ n1); [|done]. by econstructor.
Qed.

(** Another executor changes nothing of what is there. *)
Lemma retuned `{Iteration} cfg genesis genesis_state fixed reached x evs h n n' :
  tunes n n' → node_inv error_text cfg genesis genesis_state fixed x reached evs h n →
  node_inv error_text cfg genesis genesis_state fixed (n_executor n') reached evs h n'.
Proof. intros Ht [[Hc He Hs Hx Hl Hv Hy Hj Hf] Hr Hp]. eapply node_calm; [exact Ht|]. by constructor. Qed.

(** What was executed while no policy was set was executed by one executor. *)
Definition steady (evs : list (Clock * Event)) : Prop := Forall (λ e, sets_policy e.2 = false) evs.

Lemma runs_inv (i : Iteration) wire cfg genesis genesis_state fixed n0 evs n :
  let reached := runs i wire cfg n0 in
  node_inv error_text cfg genesis genesis_state fixed (n_executor n0) reached [] [] n0 → reached evs n →
  Z.of_nat (length evs) < u64_max - 1 →
  (∃ h, node_inv error_text cfg genesis genesis_state fixed (n_executor n) reached evs h n ∧ (length h ≤ length evs)%nat) ∧
  (steady evs → n_executor n = n_executor n0).
Proof.
  cbv zeta. intros H0' Hr. induction Hr as [|evs n clock ev r n' Hr IH Hh Hnp]; intros Hlen; simpl in *.
  { split; [by exists []|done]. }
  destruct IH as ((h & Hn & Hl) & Hst); [lia|].
  assert (evs `suffix_of` (clock, ev) :: evs) as Hsub by (by exists [(clock, ev)]).
  apply (node_more _ _ _ _ _ _ _ _ _ _ _ Hsub) in Hn. destruct (sets_policy ev) eqn:Hpol.
  - split; [|intros Hs%Forall_cons; simpl in Hs; naive_solver congruence]. exists h. split; [|lia].
    eapply retuned; [|exact Hn]. by eapply (tunes_event (H1 := i)).
  - destruct (handle_inv (H1 := i) error_text wire cfg genesis genesis_state fixed (n_executor n) (runs i wire cfg n0)
      ((clock, ev) :: evs) h ltac:(lia) clock ev n r n') as (h' & Hn' & Hh'); [|by left|done..|].
    { split; [done|]. by exists evs, n. }
    pose proof (bi_executor _ _ _ _ _ _ _ _ _ _ (ni_base _ _ _ _ _ _ _ _ _ _ Hn')) as Hx. rewrite <- Hx in Hn'. split.
    + exists h'. split; [done|]. destruct Hh' as [->|(en & ->)]; simpl; lia.
    + intros [_ Hs]%Forall_cons. rewrite Hx. by apply Hst.
Qed.

End Runs.
End NodeTheorems.
