(* ===== verification/NodeProgress.v ===== *)
(** * What votes, timeouts and catch-up lead to

    About [Node.v]. A quorum of signed votes commits the proposal that waits for them. A
    timeout ends the wait but forgets the vote that was cast, so that a node that follows
    the protocol signs two votes in one round, which the network treats as evidence against
    it; without a default chain id its own report of such evidence is signed in the
    format that the mempool refuses; and a block that won its quorum after a timeout is
    refused by the nodes that fetch it. *)

From S2P Require Import Prelude Types Names Governance Blobs SampleMarket SlashAppeals Signatures OpenValidators Consensus Qa Merkle Store Tokenomics StoreLaws StoreUndo Scheduler Interp Vm VmWrites VmAgree Executor ExecutorRuns ExecutorNonces Mempool Chain Blocks BlocksLaws NodeParts Node Admission Events NodeLaws.

Section Progress.
Context `{Host} `{RegistryCodec} `{Iteration} `{TextOps} `{Crypto} `{HexText} `{PolicyJson} `{ReceiptCodec}.
Context (error_text : nat → ExecutionError → bytes) (wire : Serde) (cfg : NodeConfig).

Notation local := (bp_proposer (nc_producer cfg)).

(** ** Commits under static validators *)

Definition appends {A} (m : ST BoingNode NodeFault A) : Prop :=
  ∀ n, ∃ a n', m n = (Ok a, n') ∧ n_chain n' = n_chain n ∧ n_state n' = n_state n.

Lemma appends_bind {A B} (m : ST BoingNode NodeFault A) (k : A → ST BoingNode NodeFault B) :
  appends m → (∀ a, appends (k a)) → appends (m ≫= k).
Proof.
  intros Hm Hk n. destruct (Hm n) as (a & n1 & E1 & C1 & S1), (Hk a n1) as (b & n2 & E2 & C2 & S2).
  exists b, n2. unfold mbind, st_bind. rewrite E1. split_and!; [done|congruence..].
Qed.

Lemma appends_modify f : (∀ n, n_chain (f n) = n_chain n ∧ n_state (f n) = n_state n) → appends (st_modify f).
Proof. intros Hf n. exists (), (f n). destruct (Hf n). by split_and!. Qed.

Lemma appends_calm f : (∀ n, calm n (f n)) → appends (st_modify f).
Proof. intros Hf. apply appends_modify. intros n. destruct (Hf n). by split. Qed.

Lemma appends_ret {A} (a : A) : appends (mret a).
Proof. intros n. by exists a, n. Qed.

Lemma after_static p : static cfg → appends (after_append cfg p).
Proof.
  intros [Hst Hop]. unfold after_append. repeat (apply appends_bind; [|intros _]); try (by apply appends_modify).
  - apply appends_calm. intros n. unfold prune_receipts_if_due. by destruct (prune_due _).
  - unfold maybe_refresh_stake_validators. rewrite Hst. apply appends_ret.
  - unfold sync_open_validator_set. rewrite Hop. apply appends_ret.
  - apply appends_calm, calm_mirror.
  - apply appends_calm, calm_publish.
  - apply appends_ret.
Qed.

Lemma note_total v n : ∃ n', note_signed_vote_and_maybe_slash cfg v n = (Ok (), n').
Proof.
  unfold note_signed_vote_and_maybe_slash, queue_equivocation_report, refresh_tx_sig_policy. st_unfold.
  repeat (case_match; simplify_eq/=; try by eexists).
Qed.

(** ** A quorum of votes commits *)

Lemma same_counts e e' (l : list AccountId) :
  validators e' = validators e → anchors e' = anchors e →
  filter (λ v, vote_counts e' v = true) l = filter (λ v, vote_counts e v = true) l.
Proof. intros Ev Ea. apply list_filter_iff. intros w. by rewrite (config_vote_counts e' e). Qed.

Lemma same_counted e e' : same_engine e e' → counted_votes e' = counted_votes e.
Proof.
  intros [Ev _ _ Epb Evt Ea]. unfold counted_votes. rewrite Epb, Evt. destruct (pending_block e); [|done].
  by rewrite (same_counts e e').
Qed.

Section Quorum.
Context (genesis : Block) (genesis_state : VmStore) (fixed : list AccountId) (current : BlockExecutor).
Context (reached : list (Clock * Event) → BoingNode → Prop).
Notation standing := (standing error_text cfg genesis genesis_state fixed current reached).

(** The new head is [p] when a commit begins. *)
Lemma commit_reaches evs h en p n :
  committing error_text cfg genesis genesis_state fixed current reached evs h en p n → n_pending n = Some p → static cfg →
  Z.of_nat (length h) < u64_max →
  ∃ n', commit_if_pending cfg (block_hash (pc_block p)) n = (Ok (Some (block_hash (pc_block p))), n') ∧
    cs_latest_hash (n_chain n') = block_hash (pc_block p) ∧ n_state n' = pc_new_state p ∧
    cs_height (n_chain n') = cs_height (n_chain n) + 1.
Proof.
  intros Hcm Hp Hst Hlen. destruct (append_extends _ _ _ _ _ _ _ _ _ _ _ _ _ (cm_base _ _ _ _ _ _ _ _ _ _ _ _ Hcm) Hlen
    (cm_extends _ _ _ _ _ _ _ _ _ _ _ _ Hcm)) as (c & Ea & [k Hc] & Hh).
  unfold commit_if_pending, mbind, st_bind. simpl. rewrite Hp, bool_decide_true by done. simpl.
  rewrite (commit_pending_ok _ _ _ c) by done.
  destruct (after_static p Hst (set_state (pc_new_state p) (set_chain c (set_pending None (n_pending_since n) n))))
    as (x & n' & E & C & S).
  assert (x = block_hash (pc_block p)) as ->.
  { revert E. unfold after_append, mbind, st_bind. repeat (case_match; try done). by intros [= <- _]. }
  exists n'. rewrite E. split_and!; [done|rewrite C; simpl|done|rewrite C; done].
  pose proof (ck_hash _ _ _ Hc) as Hhash. simpl in Hhash. by injection Hhash as <-.
Qed.

Definition vote_event (clock : Clock) (v : ConsensusVote) : Clock * Event := (clock, EvVote v).

Lemma run_vote clock v evs n r n1 :
  on_consensus_vote cfg v n = (Ok r, n1) →
  run_events error_text wire cfg (vote_event clock v :: evs) n = run_events error_text wire cfg evs n1.
Proof. intros E. simpl. unfold mbind, st_bind. by rewrite E. Qed.

(** Votes that come too late change neither the chain nor the state. *)
Lemma late_votes clock vs n :
  n_pending n = None →
  ∃ n', run_events error_text wire cfg (vote_event clock <$> vs) n = Some n' ∧
    n_chain n' = n_chain n ∧ n_state n' = n_state n ∧ n_pending n' = None.
Proof.
  revert n. induction vs as [|v vs IH]; intros n Hp; [by exists n|].
  assert (∃ r n1, on_consensus_vote cfg v n = (Ok r, n1) ∧ n_chain n1 = n_chain n ∧ n_state n1 = n_state n ∧ n_pending n1 = None)
    as (r & n1 & E & C & S & P).
  { unfold on_consensus_vote. destruct (vote_verify v); [|by exists None, n]. unfold mbind at 1, st_bind at 1. simpl.
    destruct (negb _); [by exists None, n|]. unfold mbind at 1, st_bind at 1.
    destruct (note_total v n) as (n1 & E1). pose proof (calms_note cfg v n) as Hca. rewrite E1 in Hca. simpl in Hca.
    rewrite E1. unfold mbind at 1, st_bind at 1. simpl. destruct Hca as [C S _ P _ _ _]. rewrite P, Hp. simpl.
    unfold mbind at 1, st_bind at 1. destruct (_ || _); simpl; eexists None, _; (split_and!; [done|..]); try congruence.
    all: unfold buffer_vote; repeat case_match; simpl; congruence. }
  destruct (IH n1 P) as (n' & R & C' & S' & P'). exists n'. rewrite fmap_cons, (run_vote _ _ _ _ _ _ E). split_and!; congruence.
Qed.

(** One vote for the proposal, by a validator that has not voted. *)
Lemma fresh_vote evs h p b v n :
  standing evs h n → n_pending n = Some p → static cfg → Z.of_nat (length h) + 1 < u64_max →
  pending_block (n_consensus n) = Some b → block_hash b = block_hash (pc_block p) →
  (∃ clock, (clock, EvVote v) ∈ evs) →
  vote_verify v = Ok () → cv_round v = round (n_consensus n) → cv_block_hash v = block_hash (pc_block p) →
  cv_validator v ∈ validators (n_consensus n) → votes (n_consensus n) !! cv_validator v = None →
  let e1 := set_votes (n_consensus n) (<[cv_validator v := block_hash b]> (votes (n_consensus n))) in
  if quorum (n_consensus n) <=? counted_votes e1 then
    ∃ n', on_consensus_vote cfg v n = (Ok (Some (block_hash (pc_block p))), n') ∧
      cs_latest_hash (n_chain n') = block_hash (pc_block p) ∧ n_state n' = pc_new_state p ∧
      cs_height (n_chain n') = cs_height (n_chain n) + 1 ∧ n_pending n' = None
  else
    ∃ n', on_consensus_vote cfg v n = (Ok None, n') ∧ standing evs h n' ∧ n_pending n' = Some p ∧
      same_engine e1 (n_consensus n') ∧ n_chain n' = n_chain n.
Proof.
  intros Hn Hp Hst Hlen Hb Hhash [clock Hin] Hver Hr Hbh Hval Hfresh. cbv zeta.
  destruct (note_total v n) as (n1 & E1). pose proof (calms_note cfg v n) as Hca. rewrite E1 in Hca. simpl in Hca.
  assert (standing evs h n1) as Hn1 by (by eapply standing_calm). destruct Hca as [C S _ P [Ev Er Evw Epb Evt Ea] _ _].
  destruct (on_consensus_vote cfg v n) as [r n'] eqn:E.
  pose proof (peer_vote_inv _ _ _ _ _ _ _ _ _ Hlen clock v n r n' Hn Hin E) as Hout. revert E.
  unfold on_consensus_vote. rewrite Hver. unfold mbind at 1, st_bind at 1. simpl. rewrite bool_decide_true by done. simpl.
  unfold mbind at 1, st_bind at 1. rewrite E1. unfold mbind at 1, st_bind at 1. simpl.
  rewrite P, Hp, Hbh, (bool_decide_true (block_hash (pc_block p) = block_hash (pc_block p))), Er, Hr, Z.eqb_refl by done. simpl.
  assert (signed_by cfg evs (cv_validator v) (block_hash b) (round (n_consensus n1))) as Hsig.
  { right. exists clock, v. by rewrite Hbh, Hr, Er, Hhash. }
  unfold mbind at 1, st_bind at 1, on_consensus. rewrite <- Hhash.
  destruct (Consensus.vote (block_hash b) (cv_validator v) (n_consensus n1)) as [res e'] eqn:Evote.
  pose proof (vote_inv_node _ _ _ _ _ _ _ _ _ _ _ _ _ _ Hn1 Hlen Hsig Evote) as Hstep.
  rewrite (vote_fresh (n_consensus n1) b (cv_validator v)) in Evote by congruence.
  rewrite (config_quorum (n_consensus n1) (n_consensus n)) in Evote by done.
  assert (counted_votes (set_votes (n_consensus n1) (<[cv_validator v := block_hash b]> (votes (n_consensus n1)))) =
    counted_votes (set_votes (n_consensus n) (<[cv_validator v := block_hash b]> (votes (n_consensus n))))) as Hcount.
  { apply same_counted. constructor; simpl; congruence. }
  rewrite Hcount in Evote. destruct (_ <=? _); injection Evote as <- <-.
  - destruct Hstep as [(Hno & _)|(p' & en & Hp' & Hx & He & Hcm)]; [by destruct (Hno (block_hash b))|].
    assert (p' = p) as -> by congruence. intros Hc.
    edestruct (commit_reaches _ _ _ _ _ Hcm) as (n2 & E2 & T & S2 & Hh); [simpl; congruence|done|lia|].
    rewrite <- Hhash, Hc in E2. injection E2 as -> ->. exists n2. split; [by rewrite Hhash|]. split_and!; try done.
    + by rewrite Hhash.
    + rewrite Hh. simpl. by rewrite C.
    + simpl in Hout. by destruct Hout as (? & _ & _ & _ & ?).
  - intros [= <- <-]. eexists. split; [done|]. split_and!; [exact Hout|simpl; congruence| |done].
    constructor; simpl; congruence.
Qed.

(** Enough validators vote for it one after the other. *)
Lemma votes_commit evs h p b clock vs n :
  standing evs h n → n_pending n = Some p → static cfg → Z.of_nat (length h) + 1 < u64_max →
  pending_block (n_consensus n) = Some b → block_hash b = block_hash (pc_block p) →
  Forall (λ v, (clock, EvVote v) ∈ evs ∧ vote_verify v = Ok () ∧ cv_round v = round (n_consensus n) ∧
    cv_block_hash v = block_hash (pc_block p) ∧ cv_validator v ∈ validators (n_consensus n) ∧
    votes (n_consensus n) !! cv_validator v = None) vs →
  NoDup (cv_validator <$> vs) → counted_votes (n_consensus n) < quorum (n_consensus n) →
  quorum (n_consensus n) ≤ Z.of_nat (length (filter (λ v, vote_counts (n_consensus n) v = true)
    (voters_for (votes (n_consensus n)) (block_hash b) ++ (cv_validator <$> vs)))) →
  ∃ n', run_events error_text wire cfg (vote_event clock <$> vs) n = Some n' ∧
    cs_latest_hash (n_chain n') = block_hash (pc_block p) ∧ n_state n' = pc_new_state p ∧
    cs_height (n_chain n') = cs_height (n_chain n) + 1 ∧ n_pending n' = None.
Proof.
  intros Hn Hp Hst Hlen Hb Hhash Hvs Hnd Hlt Hq. revert n Hn Hp Hb Hvs Hlt Hq.
  induction vs as [|v vs IH]; intros n Hn Hp Hb Hvs Hlt Hq.
  { rewrite app_nil_r, <- (counted_votes_pending _ b Hb) in Hq. lia. }
  apply Forall_cons in Hvs as [(Hin & Hver & Hr & Hbh & Hval & Hfresh) Hvs].
  rewrite fmap_cons in Hnd. apply NoDup_cons in Hnd as [Hnew Hnd].
  pose proof (fresh_vote evs h p b v n Hn Hp Hst Hlen Hb Hhash (ex_intro _ clock Hin) Hver Hr Hbh Hval Hfresh) as Hv.
  cbv zeta in Hv. set (e1 := set_votes _ _) in Hv. destruct (quorum (n_consensus n) <=? counted_votes e1) eqn:Eq.
  - destruct Hv as (n1 & E & T & S & Hh & P). destruct (late_votes clock vs n1 P) as (n' & R & C' & S' & P').
    exists n'. rewrite fmap_cons, (run_vote _ _ _ _ _ _ E). split_and!; [done|congruence..].
  - destruct Hv as (n1 & E & Hn1 & P & [Ev Er Evw Epb Evt Ea] & C). apply Z.leb_gt in Eq.
    rewrite fmap_cons, (run_vote _ _ _ _ _ _ E), <- C. apply IH; try done.
    + by rewrite Epb.
    + apply Forall_forall. intros w Hw. rewrite Forall_forall in Hvs. destruct (Hvs w Hw) as (? & ? & ? & ? & ? & Hnone).
      rewrite Er, Ev, Evt. split_and!; try done. simpl. rewrite lookup_insert_ne; [done|]. intros Heq. apply Hnew.
      rewrite Heq. by apply list_elem_of_fmap_2.
    + rewrite (same_counted e1), (config_quorum (n_consensus n1) e1) by done. by rewrite (config_quorum e1 (n_consensus n)).
    + rewrite (config_quorum (n_consensus n1) (n_consensus n)), (same_counts (n_consensus n) (n_consensus n1)), Evt by done.
      simpl. rewrite (voters_for_insert _ _ _ Hfresh). rewrite fmap_cons, <- Permutation_middle in Hq. done.
Qed.
End Quorum.

(** ** A new node *)

Lemma vote_all_inv bh vals e : engine_inv e → engine_inv (vote_all bh vals e).2.
Proof.
  revert e. induction vals as [|v vals IH]; intros e He; simpl; [done|].
  pose proof (vote_inv bh v e He) as Hv. destruct (vote bh v e) as [[[x|]|err] e']; simpl in *; [done|by apply IH..].
Qed.

Lemma propose_and_commit_inv b e : engine_inv e → engine_inv (propose_and_commit b e).2.
Proof.
  intros He. unfold propose_and_commit. pose proof (propose_inv b e He) as Hp.
  destruct (propose b e) as [[[]|err] e']; simpl in *; [by apply vote_all_inv|done].
Qed.

Lemma propose_and_commit_validators b e : validators (propose_and_commit b e).2 = validators e.
Proof.
  unfold propose_and_commit, propose. destruct (validate_proposal_current_view e b); [|done].
  assert (∀ vals e1, validators (vote_all (block_hash b) vals e1).2 = validators e1) as Hall.
  { intros vals. induction vals as [|v vals IH]; intros e1; simpl; [done|].
    destruct (vote (block_hash b) v e1) as [r e2] eqn:E.
    assert (validators e2 = validators e1) as Hv.
    { by apply vote_cases in E as [[-> _]|(x & _ & _ & _ & [[-> _]|(_ & _ & _ & ->)])]. }
    destruct r as [[y|]|err]; simpl; [done|by rewrite IH..]. }
  by rewrite Hall.
Qed.

Section NewNode.
Context (reached : list (Clock * Event) → BoingNode → Prop) (vals : list AccountId).

(** A ledger without blocks, and nothing that waits. *)
Definition starts (g : Block) (st : VmStore) (n : BoingNode) : Prop :=
  idle error_text cfg g st vals (n_executor n) reached [] [] n.

(** An operation that keeps the executor. *)
Lemma starts_idle g st n n' :
  idle error_text cfg g st vals (n_executor n) reached [] [] n' → starts g st n'.
Proof.
  intros Hi. unfold starts. by rewrite (bi_executor _ _ _ _ _ _ _ _ _ _ (ni_base _ _ _ _ _ _ _ _ _ _ (proj1 Hi))).
Qed.

Lemma starts_calm g st n n' : calm n n' → starts g st n → starts g st n'.
Proof. intros Hc Hi. eapply starts_idle, idle_calm; [exact Hc|exact Hi]. Qed.

Lemma starts_tunes g st n n' : tunes n n' → starts g st n → starts g st n'.
Proof.
  intros Ht [Hn Hno]. split; [by eapply NodeTheorems.retuned|]. by rewrite (ca_pending _ _ Ht).
Qed.

Lemma starts_new g st e x pool m q r a p_ mirror gov vp :
  height (header g) = 0 → engine_inv e → round e = 1 → pending_block e = None → validators e = vals → sound st →
  starts g st (mkNode (from_genesis g) e st x pool m q r a None p_ ∅ ∅ ∅ mirror gov None ∅ None None vp []).
Proof.
  intros Hg He Hr Hp Hv Hs. split; [|done]. constructor; [constructor|..]; simpl; try done.
  - exists 0. by apply genesis_ok.
  - by constructor.
  - intros who bh. by rewrite (inv_no_pending _ He Hp), lookup_empty.
Qed.

Lemma starts_like g st n : starts g st n → alike (n_state n) st ∧ sound (n_state n) ∧ cs_height (n_chain n) = 0.
Proof.
  intros [[Hb _ _] _]. pose proof (base_height _ _ _ _ _ _ _ _ _ _ Hb) as Hh. destruct Hb as [_ _ Hs _ Hl _ _ _ _].
  inversion Hl. by split_and!.
Qed.

(** Before the first block the state may be replaced. *)
Lemma starts_state g st st' new n : starts g st n → alike new st' → sound new → starts g st' (set_state new n).
Proof.
  intros [[[Hc He Hs Hx _ Hv Hy Hj Hf] Hr Hp] Hno] Ha Hn. split; [|done]. constructor; [constructor|..]; simpl; try done.
  - by constructor.
  - unfold pending_inv in *. simpl. by rewrite Hno in *.
Qed.

Lemma allocate_sound st l : sound st → sound (foldl allocate st l).
Proof.
  revert st. induction l as [|a l IH]; intros st Hs; simpl; [done|]. apply IH. unfold allocate.
  eapply writes_sound; [apply writes_insert|done].
Qed.

Lemma fresh_node n :
  with_validators cfg vals = Some n →
  n_chain n = from_genesis (genesis_block local) ∧ n_executor n = nc_executor cfg ∧
  starts (genesis_block local) (insert_account local (with_balance GENESIS_DEV_BALANCE) new_store) n.
Proof.
  unfold with_validators. intros ([] & _ & Hn)%bind_Some. apply bind_Some in Hn as (e & He & [= <-]).
  pose proof (new_inv vals e He) as Hi. split_and!; [done..|]. apply starts_new; try done.
  - eapply (config_inv (OpSync 1)); [done|by apply (propose_and_commit_inv (genesis_block local) e)|done|done].
  - simpl. rewrite propose_and_commit_validators. destruct vals; [done|]. by injection He as <-.
Qed.

(** The block and the state that the ledger starts from. *)
Definition start_block (su : Startup) : Block :=
  match su_genesis su with
  | Some s => if bool_decide (block_hash (genesis_block local) = block_hash (genesis_block (gs_proposer s)))
              then genesis_block local else genesis_block (gs_proposer s)
  | None => genesis_block local
  end.

Definition genesis_state (su : Startup) : VmStore :=
  match su_genesis su with
  | Some s => foldl allocate new_store (gs_allocations s)
  | None => insert_account local (with_balance GENESIS_DEV_BALANCE) new_store
  end.

Definition start_state (su : Startup) : VmStore :=
  match su_faucet su with
  | Some id => faucet_funded (nc_executor cfg) id (genesis_state su)
  | None => genesis_state su
  end.

Lemma starts_genesis g st n spec :
  starts g st n →
  starts (if bool_decide (cs_latest_hash (n_chain n) = block_hash (genesis_block (gs_proposer spec)))
          then g else genesis_block (gs_proposer spec))
    (foldl allocate new_store (gs_allocations spec)) (apply_genesis_spec spec n).2.
Proof.
  intros Hi. pose proof (starts_like _ _ _ Hi) as (_ & _ & Hz). unfold apply_genesis_spec. rewrite Hz. simpl.
  assert (sound (foldl allocate new_store (gs_allocations spec))) as Hs by (apply allocate_sound, snaps_none).
  assert (∀ g n, starts g st n → starts g (foldl allocate new_store (gs_allocations spec))
    (refresh_native_aggregates (set_state (foldl allocate new_store (gs_allocations spec)) n))) as Hst.
  { intros g' n' Hn. eapply starts_calm; [|by eapply starts_state; [exact Hn|..]]. done. }
  case_bool_decide; simpl; apply Hst; [done|].
  destruct Hi as [[[_ He Hsn Hx Hl Hv Hy Hj Hf] Hr Hp] Hno]. split; [|done]. constructor; [constructor|..]; simpl; try done.
  - exists 0. by apply genesis_ok.
  - by rewrite Hr, Hz.
  - unfold pending_inv in *. simpl. by rewrite Hno in *.
Qed.

(** A step of the start-up. *)
Definition leads {A} (P Q : BoingNode → Prop) (m : ST BoingNode NodeFault A) : Prop :=
  ∀ n, P n → match m n with (Ok _, n') => Q n' | (Err _, _) => True end.

Lemma leads_bind {A B} P Q R (m : ST BoingNode NodeFault A) (k : A → ST BoingNode NodeFault B) :
  leads P Q m → (∀ a, leads Q R (k a)) → leads P R (m ≫= k).
Proof.
  intros Hm Hk n Hn. specialize (Hm n Hn). unfold mbind, st_bind. destruct (m n) as [[a|e] n']; [by apply Hk|done].
Qed.

Lemma leads_settles {A} g st (m : ST BoingNode NodeFault A) :
  (∀ x, settles error_text cfg g st vals x reached m) → leads (starts g st) (starts g st) m.
Proof. intros Hm n Hn. specialize (Hm _ [] [] n Hn). destruct (m n) as [[] n']; [by eapply starts_idle|done]. Qed.

Lemma leads_when {A} P (o : option A) f : (∀ a n, P n → P (f a n)) → leads P P (when o f).
Proof. intros Hf n Hn. destruct o; [by apply Hf|done]. Qed.

Lemma settles_restore g st p x : settles error_text cfg g st vals x reached (restore_stake_validator_set cfg p).
Proof.
  unfold restore_stake_validator_set. destruct (nc_stake_set cfg) as [c|] eqn:Ec; [|apply settles_calm, calms_ret].
  intros evs h n Hi. unfold mbind at 1, st_bind at 1. simpl. destruct (last_refresh_height _ _); [|done].
  apply settles_bind; [|intros _; apply settles_calm, calms_ret|done].
  destruct (bool_decide _); [apply settles_calm, calms_ret|apply settles_install; by intros [? _]; congruence].
Qed.

Lemma starts_tree g st n new :
  starts g st n → contents new = contents (n_state n) → undo_log new = undo_log (n_state n) → starts g st (set_state new n).
Proof.
  intros Hi Hc Hu. pose proof (starts_like _ _ _ Hi) as (Ha & Hs & _). eapply starts_state; [exact Hi|..].
  - unfold alike. by rewrite Hc.
  - unfold sound. by rewrite Hu.
Qed.

Lemma starts_election g st n mode :
  starts g st n → starts g st (set_consensus (set_leader_election (n_consensus n) mode) n).
Proof.
  intros Hi. pose proof (bi_engine _ _ _ _ _ _ _ _ _ _ (ni_base _ _ _ _ _ _ _ _ _ _ (proj1 Hi))) as He.
  assert (pending_block (n_consensus n) = None) as Hp.
  { destruct Hi as [[_ _ Hp] Hno]. unfold pending_inv in Hp. by rewrite Hno in Hp. }
  apply idle_engine; [done|by eapply (config_inv (OpElection mode))|done..].
Qed.

Lemma faucet_alike x id s1 s2 : alike s1 s2 → alike (faucet_funded x id s1) (faucet_funded x id s2).
Proof.
  intros Ha. unfold faucet_funded. rewrite (alike_get s1 s2 id Ha). destruct (get s2 id); [done|by apply respects_insert].
Qed.

Lemma starts_faucet g st n id :
  starts g st n → starts g (faucet_funded (n_executor n) id st) (fund_faucet id n).
Proof.
  intros Hi. pose proof (starts_like _ _ _ Hi) as (Ha & Hs & Hz). pose proof (faucet_alike (n_executor n) id _ _ Ha) as Hf.
  unfold fund_faucet. rewrite Hz. simpl. destruct (get (n_state n) id) eqn:Eg.
  - replace n with (set_state (n_state n) n) at 2 by (by destruct n). eapply starts_state; [exact Hi|..|done].
    unfold faucet_funded in Hf at 1. by rewrite Eg in Hf.
  - eapply starts_calm; [|eapply starts_state; [exact Hi|exact Hf|]]; [done|].
    unfold faucet_funded. rewrite Eg. eapply writes_sound; [apply writes_insert|done].
Qed.

(** The policies of an operator leave the history of the network, and so the denomination. *)
Definition begins (su : Startup) (n : BoingNode) : Prop :=
  starts (start_block su) (genesis_state su) n ∧ ex_history (n_executor n) = ex_history (nc_executor cfg).

Lemma leads_begins {A} su (m : ST BoingNode NodeFault A) :
  (∀ g st x, settles error_text cfg g st vals x reached m) → leads (begins su) (begins su) m.
Proof.
  intros Hm n [Hn Hx]. specialize (Hm _ _ _ [] [] n Hn). destruct (m n) as [[] n'] eqn:E; [|done]. simpl in Hm. split.
  - by eapply starts_idle.
  - by rewrite (bi_executor _ _ _ _ _ _ _ _ _ _ (ni_base _ _ _ _ _ _ _ _ _ _ (proj1 Hm))).
Qed.

Lemma leads_tree {B} su (o : option B) f :
  (∀ a n, ∃ new, f a n = set_state new n ∧ contents new = contents (n_state n) ∧ undo_log new = undo_log (n_state n)) →
  leads (begins su) (begins su) (when o f).
Proof.
  intros Hf. apply leads_when. intros a n [Hn Hx]. destruct (Hf a n) as (new & -> & Hc & Hu). split; [by apply starts_tree|done].
Qed.

Lemma begun_starts su : leads (begins su) (starts (start_block su) (start_state su)) (when (su_faucet su) fund_faucet).
Proof.
  intros n1 [Hn Hx]. unfold start_state. destruct (su_faucet su) as [id|]; [|done].
  assert (faucet_funded (nc_executor cfg) id (genesis_state su) = faucet_funded (n_executor n1) id (genesis_state su)) as ->.
  { unfold faucet_funded, ex_denomination_at, gated. by rewrite Hx. }
  by apply starts_faucet.
Qed.

Lemma boot_idle su n : boot cfg vals su = Some n → starts (start_block su) (start_state su) n.
Proof.
  intros (n0 & Hn0 & Hst)%bind_Some. apply fresh_node in Hn0 as (Hc0 & Hx0 & Hi0).
  assert (leads (λ m, m = n0) (starts (start_block su) (start_state su)) (start_up cfg su)) as Hl.
  2: { specialize (Hl n0 eq_refl). destruct (start_up cfg su n0) as [[]]; by simplify_eq. }
  apply (leads_bind _ (begins su)).
  { intros ? ->. unfold begins, start_block, genesis_state. destruct (su_genesis su) as [s|]; simpl; [|by rewrite Hx0].
    pose proof (starts_genesis _ _ _ s Hi0) as Hg. rewrite Hc0 in Hg. split; [exact Hg|].
    rewrite <- Hx0. unfold apply_genesis_spec. destruct (negb (_ =? 0)); [done|]. by destruct (negb _). }
  intros _. apply (leads_bind _ (begins su)); [apply leads_begins; intros; apply settles_restore|intros _].
  apply (leads_bind _ (begins su)); [apply leads_begins; intros; apply settles_open|intros _].
  do 2 (apply (leads_bind _ (begins su)); [apply leads_tree; intros; by eexists|intros _]).
  apply (leads_bind _ (begins su)); [intros ? []; split; [by apply starts_election|done]|intros _].
  apply (leads_bind _ (begins su)); [apply leads_begins; intros; apply settles_modify, calm_publish|intros _].
  do 2 (apply (leads_bind _ (begins su)); [apply leads_when; intros ? m []; split; [by apply (starts_tunes _ _ m)|done]|intros _]).
  apply (leads_bind _ (starts (start_block su) (start_state su))); [apply begun_starts|].
  intros _. apply leads_settles. intros x. by apply settles_modify.
Qed.

Lemma boot_inv su n :
  boot cfg vals su = Some n →
  node_inv error_text cfg (start_block su) (start_state su) vals (n_executor n) reached [] [] n.
Proof. by intros []%boot_idle. Qed.
End NewNode.

(** ** What is sent stays sent *)

Definition says (n n' : BoingNode) : Prop := n_sent n `prefix_of` n_sent n'.

#[export] Instance says_preorder : PreOrder says.
Proof. split; [intros n; unfold says; done|]. intros n1 n2 n3. unfold says. apply transitivity. Qed.

Lemma says_same n n' : n_sent n' = n_sent n → says n n'.
Proof. unfold says. by intros ->. Qed.

Definition voices {A} (m : ST BoingNode NodeFault A) : Prop := ∀ n, says n (m n).2.

Lemma voices_bind {A B} (m : ST BoingNode NodeFault A) (k : A → ST BoingNode NodeFault B) :
  voices m → (∀ a, voices (k a)) → voices (m ≫= k).
Proof.
  intros Hm Hk n. unfold mbind, st_bind. specialize (Hm n). destruct (m n) as [[a|e] n1]; [|done].
  etrans; [exact Hm|apply Hk].
Qed.

Lemma voices_modify f : (∀ n, says n (f n)) → voices (st_modify f).
Proof. by intros Hf n. Qed.

Lemma voices_ret {A} (a : A) : voices (mret a).
Proof. intros n. by apply says_same. Qed.

Lemma voices_get {B} (k : BoingNode → ST BoingNode NodeFault B) : (∀ n, says n (k n n).2) → voices (st_get ≫= k).
Proof. by intros Hk n. Qed.

Lemma says_send s n : says n (send s n).
Proof. by exists [s]. Qed.

Lemma says_publish n : says n (maybe_publish_vrf_proof_for_current_round cfg n).
Proof.
  unfold maybe_publish_vrf_proof_for_current_round. repeat case_match; try (by apply says_same). eapply (says_send _ (set_consensus _ n)).
Qed.

Lemma voices_install set : voices (install_validators set).
Proof.
  intros n. apply says_same. unfold install_validators. st_unfold. by destruct (Consensus.set_validators (n_consensus n) set).
Qed.

Lemma voices_after p : voices (after_append cfg p).
Proof.
  unfold after_append. repeat (apply voices_bind; [|intros _]); try apply voices_ret.
  all: try (by apply voices_modify; intros n; apply says_same).
  - apply voices_modify. intros n. apply says_same. unfold prune_receipts_if_due. by destruct (prune_due _).
  - apply voices_modify. intros n. apply says_send.
  - unfold maybe_refresh_stake_validators. destruct (nc_stake_set cfg); [|apply voices_ret]. destruct (negb _); [apply voices_ret|].
    apply voices_get. intros n. destruct (bool_decide _); [by apply says_same|].
    apply (voices_bind (install_validators _)); [apply voices_install|intros _; apply voices_modify, says_publish].
  - unfold sync_open_validator_set. destruct (open_validator_params _); [|apply voices_ret]. apply voices_get. intros n.
    destruct (OpenReg.consensus_set _ _); [|by apply says_same].
    match goal with |- says n (?m n).2 => assert (voices m) as Hv; [|apply Hv] end.
    apply voices_bind; [destruct (bool_decide _); [apply voices_ret|apply voices_install]|intros _].
    apply voices_get. intros n'. apply says_same. by destruct (bool_decide _).
  - apply voices_modify. intros n. apply says_same. unfold sync_failed_serve_slash_records. by destruct (foldl _ _ _).
  - apply voices_modify, says_publish.
Qed.

Lemma voices_commit h : voices (commit_if_pending cfg h).
Proof.
  apply voices_get. intros n. destruct (n_pending n) as [p|]; [|by apply says_same]. destruct (bool_decide _); [|by apply says_same].
  unfold mbind, st_bind. simpl. set (n1 := set_pending None _ n).
  assert (says n (commit_pending cfg p n1).2) as Hc; [|by destruct (commit_pending cfg p n1) as [[]]].
  destruct (append (pc_block p) (n_chain n1)) as [[[]|e] c] eqn:E.
  - rewrite (commit_pending_ok _ _ _ c E). apply (voices_after p (set_state (pc_new_state p) (set_chain c n1))).
  - unfold commit_pending, mbind, st_bind. simpl. simpl in E. rewrite E. by apply says_same.
Qed.

Lemma voices_early bh vs : voices (apply_early_votes cfg bh vs).
Proof.
  induction vs as [|v vs IH]; simpl; [apply voices_ret|]. apply voices_bind.
  - intros n. apply says_same. unfold on_consensus. by destruct (vote bh v _).
  - intros [[x|]|]; [apply voices_commit|apply IH..].
Qed.

Lemma voices_queue ev : voices (queue_equivocation_report cfg ev).
Proof.
  apply voices_get. intros n. unfold refresh_tx_sig_policy. st_unfold.
  repeat case_match; simplify_eq/=; by apply says_same.
Qed.

Lemma voices_note v : voices (note_signed_vote_and_maybe_slash cfg v).
Proof.
  apply voices_get. intros n. cbv zeta. destruct (n_observed_votes n !! (cv_round v, cv_validator v)) as [prev|]; [|by apply says_same].
  destruct (bool_decide _); [by apply says_same|]. destruct (try_from_votes prev v) as [ev|]; [|by apply says_same].
  match goal with |- says n (?m n).2 => assert (voices m) as Hv; [|apply Hv] end.
  apply voices_bind; [apply voices_queue|]. intros []; [apply voices_modify; intros n'; apply says_send|apply voices_ret].
Qed.

Lemma voices_local bh : voices (vote_locally_and_maybe_broadcast cfg bh).
Proof.
  apply voices_get. intros n. cbv zeta. destruct (negb _); [by apply says_same|]. destruct (bool_decide _); [by apply says_same|].
  match goal with |- says n (?m n).2 => assert (voices m) as Hv; [|apply Hv] end.
  apply voices_bind; [intros n'; apply says_same; unfold on_consensus; by destruct (vote bh _ _)|].
  intros [c|]; [|apply voices_ret].
  apply voices_bind; [apply voices_modify; intros n'; by apply says_same|intros _].
  apply voices_bind; [|intros _; destruct c; [apply voices_commit|apply voices_ret]].
  unfold broadcast_signed_vote. destruct (nc_key cfg); [|apply voices_ret].
  apply voices_bind; [apply voices_note|intros _; apply voices_modify; intros n'; apply says_send].
Qed.

Lemma voices_drain bh : voices (drain_early_votes_for_pending cfg bh).
Proof. apply voices_get. intros n. apply (voices_early bh _ (set_early_votes _ n)). Qed.

Lemma voices_enter clock p : voices (enter_pending cfg clock p).
Proof.
  unfold enter_pending. apply voices_bind; [apply voices_modify; intros n; by apply says_same|intros _].
  apply voices_bind; [apply voices_local|]. intros []; [apply voices_ret|apply voices_drain].
Qed.

(** A vote the engine accepts from the node itself is signed and sent. *)
Lemma local_vote_sent k bh n c e :
  nc_key cfg = Some k → bp_proposer (nc_producer cfg) ∈ validators (n_consensus n) → n_last_local_vote_round n = None →
  vote bh (bp_proposer (nc_producer cfg)) (n_consensus n) = (Ok c, e) →
  SentVote (sign_vote (round (n_consensus n)) bh k) ∈ n_sent (vote_locally_and_maybe_broadcast cfg bh n).2.
Proof.
  intros Hk Hin Hno Hv. unfold vote_locally_and_maybe_broadcast. st_unfold.
  rewrite bool_decide_true by done. simpl. rewrite Hno. simpl. unfold on_consensus. rewrite Hv. simpl.
  unfold broadcast_signed_vote. rewrite Hk. unfold mbind, st_bind.
  set (n1 := set_last_local_vote_round _ _).
  destruct (note_total (sign_vote (round (n_consensus n)) bh k) n1) as [n2 ->]. simpl.
  assert (SentVote (sign_vote (round (n_consensus n)) bh k) ∈ n_sent (send (SentVote (sign_vote (round (n_consensus n)) bh k)) n2)) as Hs.
  { simpl. rewrite elem_of_app, list_elem_of_singleton. by right. }
  destruct c as [x|]; [|exact Hs]. eapply elem_of_prefix; [exact Hs|apply voices_commit].
Qed.

(** The engine accepts a validator's first vote for the pending block. *)
Lemma vote_first b e v :
  v ∈ validators e → pending_block e = Some b → votes e = ∅ → ∃ c e', vote (block_hash b) v e = (Ok c, e').
Proof.
  intros Hv Hb Hvo. unfold vote. rewrite (proj2 (is_validator_spec _ _) Hv), Hb, Hvo, lookup_empty. simpl.
  rewrite bool_decide_false by auto. destruct (_ <=? _); by do 2 eexists.
Qed.

(** After a timeout, a node votes for what it accepts. *)
Lemma second_vote_sent k n clock b st rs e' n1 :
  nc_key cfg = Some k → bp_proposer (nc_producer cfg) ∈ validators (n_consensus n) →
  n1 = abandon_stuck_proposal n → import_at_tip error_text cfg clock b n1 = Ok (st, rs) →
  accept_proposal b (n_consensus n1) = (Ok (), e') →
  says n1 (handle_network_block error_text cfg clock b n1).2 ∧
  SentVote (sign_vote (round (n_consensus n)) (block_hash b) k) ∈ n_sent (handle_network_block error_text cfg clock b n1).2.
Proof.
  intros Hk Hin -> Him Hacc. set (n1 := abandon_stuck_proposal n) in *.
  apply accept_proposal_cases in Hacc as Hc. destruct Hc as [[-> Hc]|(ev & _ & _ & _ & Hh & _ & Hc)].
  { destruct (Hc eq_refl) as (q & Hq & _). by unfold n1, abandon_stuck_proposal in Hq. }
  destruct Hc as [[_ (q & Hq & _)]| ->]; [by unfold n1, abandon_stuck_proposal in Hq|].
  set (e' := enter_voting_phase _ b) in Hacc. set (n2 := supersede_vote b (set_consensus e' n1)).
  assert (handle_network_block error_text cfg clock b n1 = enter_pending cfg clock (mkPendingCommit b rs st) n2) as ->.
  { unfold handle_network_block. unfold mbind at 1, st_bind at 1. cbn [st_get]. rewrite Him.
    unfold on_consensus. unfold mbind at 1, st_bind at 1. rewrite Hacc. done. }
  assert (n2 = set_consensus e' n1) as -> by done.
  split; [apply (voices_enter clock (mkPendingCommit b rs st) (set_consensus e' n1))|].
  unfold enter_pending, mbind, st_bind. simpl. set (n3 := set_pending _ _ _).
  destruct (vote_first b e' (bp_proposer (nc_producer cfg))) as (c & e3 & Hv); [done..|].
  pose proof (local_vote_sent k (block_hash b) n3 c e3 Hk Hin eq_refl Hv) as Hs.
  destruct (vote_locally_and_maybe_broadcast cfg (block_hash b) n3) as [[[x|]|] n4] eqn:E; try exact Hs.
  eapply elem_of_prefix; [exact Hs|apply voices_drain].
Qed.

End Progress.

(** ** Properties *)

(** Ed25519: what a key signs verifies under its public key. *)
Definition key_sound `{Host} `{Crypto} (k : SigningKey) : Prop :=
  ∀ d, verify_digest (verifying_key k) d (key_sign k d) = Ok ().

Lemma double_vote_evidence `{Host} `{Crypto} k r h1 h2 :
  key_sound k → h2 ≠ h1 → evidence_verify (mkEquivocationEvidence (sign_vote r h1 k) (sign_vote r h2 k)) = Ok ().
Proof.
  intros Hs Hne. unfold evidence_verify, try_from_votes. simpl.
  rewrite bool_decide_true, Z.eqb_refl, bool_decide_false by congruence. simpl. unfold vote_verify. simpl. by rewrite !Hs.
Qed.

(** The mempool takes no legacy signature where the chain must be named. *)
Lemma legacy_refused `{Host} `{Iteration} `{TextOps} `{Crypto} cfg k tx c p :
  ed25519_verify (verifying_key k) (signable_transaction_hash_with_tip tx c 0) (key_sign k (signable_hash tx)) = false →
  tx_sender tx = verifying_key k →
  ∃ e, insert_with_policy cfg (new_signed None tx k) (mkTxSigPolicy (Some c) true) p = (Err e, p) ∧ e ≠ Mempool.Duplicate.
Proof.
  intros Hno Hs. unfold insert_with_policy, insert_checked, verify_signature_with, verify_with, verify_signature_with_tip, lift.
  st_unfold. simpl. rewrite Hs, Hno. destruct (ed25519_key_ok _); simpl; [destruct (ed25519_verify _ (signable_hash tx) _)|]; by eexists.
Qed.

Module ProgressTheorems.
Section Theorems.
Context `{Host} `{RegistryCodec} `{TextOps} `{Crypto} `{HexText} `{PolicyJson} `{ReceiptCodec}.
Context (error_text : nat → ExecutionError → bytes).

(** C3: the node implements a ledger. Take a node that was started on an empty data
    directory, with any options, and any events it then handled (blocks, votes, evidence,
    leader proofs, transactions, review votes, timers, appeals, changes of policy). Its
    blocks form one chain of hashes from the genesis; the state is what executing them in
    order from the genesis gives, each by an executor and under the validators that the node
    had while it stood at the block's parent, and every header commits to the outcome; the
    engine votes on the next height, on the proposal that waits and extends the tip. Each
    block that was not fetched was certified: at an earlier moment of this run the node
    stood at the block's parent, and distinct validators of its engine, a quorum by the
    rule of that engine, voted for the block at its height, each vote the node's own or
    signed by its validator and delivered. *)
Theorem node_keeps_ledger (i : Iteration) wire cfg vals su n0 evs n :
  let reached := NodeTheorems.runs error_text i wire cfg n0 in
  boot cfg vals su = Some n0 → reached evs n → Z.of_nat (length evs) < u64_max - 1 →
  ∃ h, (length h ≤ length evs)%nat ∧
    (∃ k, chain_ok (map en_block h ++ [start_block cfg su]) k (n_chain n)) ∧
    ledger (nc_signing_chain_id cfg) error_text (nc_pins cfg) (start_state cfg su) h (n_state n) ∧
    round (n_consensus n) = cs_height (n_chain n) + 1 ∧ engine_inv (n_consensus n) ∧
    pending_inv error_text cfg reached evs n ∧ Forall (justified cfg reached evs) h.
Proof.
  cbv zeta. intros Hb Hr Hl. eapply (boot_inv error_text) in Hb.
  destruct (NodeTheorems.runs_inv error_text i wire cfg _ _ _ n0 evs n Hb Hr Hl) as [(h & [[] ? ?] & ?) _].
  exists h. by split_and!.
Qed.

Lemma same_field {A} (f : Entry → A) fixed h1 h2 :
  map en_block h1 = map en_block h2 → Forall (λ en, f en = fixed) h1 → Forall (λ en, f en = fixed) h2 →
  map f h1 = map f h2.
Proof.
  intros Hb G1. revert h2 Hb. induction G1 as [|e1 h1 E1 G1 IH]; intros [|e2 h2] Hb G2; try done.
  apply Forall_cons in G2 as [E2 G2]. injection Hb as _ Hb. simpl. f_equal; [congruence|by apply IH].
Qed.

(** While no policy is set, all blocks are executed by one executor. *)
Lemma steady_executors (i : Iteration) wire cfg vals su n0 evs h :
  boot (H1 := i) cfg vals su = Some n0 → NodeTheorems.steady evs → Z.of_nat (length evs) < u64_max - 1 →
  Forall (justified cfg (NodeTheorems.runs error_text i wire cfg n0) evs) h →
  Forall (λ en, en_executor en = n_executor n0) h.
Proof.
  intros Hb Hs Hl Hj. eapply (boot_inv error_text) in Hb. eapply Forall_impl; [exact Hj|]. intros en [(m & [(evs0 & [k ->] & Hm) _ _] & <-) _].
  apply Forall_app in Hs as [_ Hs]. rewrite length_app in Hl.
  by apply (NodeTheorems.runs_inv error_text i wire cfg _ _ _ n0 evs0 m Hb Hm ltac:(lia)).
Qed.

(** C12: replicas agree. Take two nodes of one network (same genesis, faucet account,
    chain id, pins and executor at the start) with the same static validators, each with
    its own identity, key, mempool, clocks, hash map orders and events, among them no
    change of policy. Each has a chain of blocks and receipts that is its ledger: executing
    the blocks from the genesis gives those receipts and the node's state. Where the blocks
    of the two are the same, the accounts, code, storage, pending items and registries of
    the nodes are the same, and so are the receipts. *)
Theorem replicas_agree (i1 i2 : Iteration) w1 w2 cfg1 cfg2 vals su1 su2 spec n1 n2 evs1 evs2 m1 m2 :
  su_genesis su1 = Some spec → su_genesis su2 = Some spec → su_faucet su1 = su_faucet su2 →
  boot (H1 := i1) cfg1 vals su1 = Some n1 → boot (H1 := i2) cfg2 vals su2 = Some n2 →
  NodeTheorems.runs error_text i1 w1 cfg1 n1 evs1 m1 → NodeTheorems.runs error_text i2 w2 cfg2 n2 evs2 m2 →
  Z.of_nat (length evs1) < u64_max - 1 → Z.of_nat (length evs2) < u64_max - 1 →
  static cfg1 → static cfg2 → NodeTheorems.steady evs1 → NodeTheorems.steady evs2 →
  nc_signing_chain_id cfg2 = nc_signing_chain_id cfg1 → nc_pins cfg2 = nc_pins cfg1 →
  nc_executor cfg2 = nc_executor cfg1 → n_executor n2 = n_executor n1 →
  ∃ h1 h2,
    (∃ k, chain_ok (map en_block h1 ++ [start_block cfg1 su1]) k (n_chain m1)) ∧
    ledger (nc_signing_chain_id cfg1) error_text (nc_pins cfg1) (start_state cfg1 su1) h1 (n_state m1) ∧
    (∃ k, chain_ok (map en_block h2 ++ [start_block cfg2 su2]) k (n_chain m2)) ∧
    ledger (nc_signing_chain_id cfg2) error_text (nc_pins cfg2) (start_state cfg2 su2) h2 (n_state m2) ∧
    (map en_block h1 = map en_block h2 → alike (n_state m1) (n_state m2) ∧ map en_receipts h1 = map en_receipts h2).
Proof.
  intros G1 G2 Ef I1 I2 R1 R2 L1 L2 S1 S2 P1 P2 Es Ep Ee En. pose proof I1 as J1. pose proof I2 as J2.
  eapply (boot_inv error_text) in J1, J2.
  destruct (NodeTheorems.runs_inv error_text i1 w1 cfg1 _ _ _ n1 evs1 m1 J1 R1 L1) as [(h1 & [[C1 _ _ _ D1 _ _ K1 F1] _ _] & _) _].
  destruct (NodeTheorems.runs_inv error_text i2 w2 cfg2 _ _ _ n2 evs2 m2 J2 R2 L2) as [(h2 & [[C2 _ _ _ D2 _ _ K2 F2] _ _] & _) _].
  exists h1, h2. split_and!; [done..|]. intros Hb. rewrite Es, Ep in D2.
  eapply ledger_functional; [exact D1|exact D2| |done|..].
  - unfold start_state, genesis_state. by rewrite G1, G2, Ef, Ee.
  - eapply same_field; [done|apply (F1 S1)|apply (F2 S2)].
  - eapply (same_field _ (n_executor n1)); [done|by eapply (steady_executors i1 w1 cfg1 vals su1 n1 evs1)|].
    rewrite <- En. by eapply (steady_executors i2 w2 cfg2 vals su2 n2 evs2).
Qed.

(** C13: votes make progress. Take a node that reached its state by any events, under
    validators that neither stake nor registrations change, and waits on a proposal. When
    validators that have not voted yet, enough to complete the quorum, send their signed
    votes for it, the node commits it before the last of them is handled: the proposal
    becomes the head of the chain, its outcome the state, and nothing waits any more. *)
Theorem quorum_commits (i : Iteration) wire cfg vals su n0 evs n p clock vs :
  boot cfg vals su = Some n0 →
  NodeTheorems.runs error_text i wire cfg n0 evs n → Z.of_nat (length evs) < u64_max - 1 → static cfg →
  n_pending n = Some p →
  Forall (λ v, vote_verify v = Ok () ∧ cv_round v = round (n_consensus n) ∧
    cv_block_hash v = block_hash (pc_block p) ∧ cv_validator v ∈ validators (n_consensus n) ∧
    votes (n_consensus n) !! cv_validator v = None) vs →
  NoDup (cv_validator <$> vs) → counted_votes (n_consensus n) < quorum (n_consensus n) →
  quorum (n_consensus n) ≤ Z.of_nat (length (filter (λ v, vote_counts (n_consensus n) v = true)
    (voters_for (votes (n_consensus n)) (block_hash (pc_block p)) ++ (cv_validator <$> vs)))) →
  ∃ n', run_events error_text wire cfg (vote_event clock <$> vs) n = Some n' ∧
    cs_latest_hash (n_chain n') = block_hash (pc_block p) ∧ n_state n' = pc_new_state p ∧
    cs_height (n_chain n') = cs_height (n_chain n) + 1 ∧ n_pending n' = None.
Proof.
  intros Hstart Hruns Hlen Hst Hp Hvs Hnd Hlt Hq. eapply (boot_inv error_text) in Hstart.
  destruct (NodeTheorems.runs_inv error_text i wire cfg _ _ _ n0 evs n Hstart Hruns Hlen) as [(h & Hn & Hl) _].
  pose proof (ni_pending _ _ _ _ _ _ _ _ _ _ Hn) as Hpi. unfold pending_inv in Hpi. rewrite Hp in Hpi.
  destruct Hpi as [(b & Hb & Hhash) _]. rewrite <- Hhash in Hq.
  assert (evs `suffix_of` (vote_event clock <$> vs) ++ evs) as Hsuf by (by eexists).
  eapply (votes_commit error_text wire cfg _ _ _ _ _ ((vote_event clock <$> vs) ++ evs) h p b); try done.
  - split; [by eapply node_more|]. by exists evs, n.
  - lia.
  - apply Forall_forall. intros v Hv. rewrite Forall_forall in Hvs. destruct (Hvs v Hv) as (? & ? & ? & ? & ?).
    split_and!; try done. rewrite elem_of_app. left. by apply (list_elem_of_fmap_2 (vote_event clock)).
Qed.

(** Whoever the import admits is entitled to propose in the current view. *)
Lemma imported_turn (i : Iteration) cfg clock b n st rs :
  import_at_tip (H1 := i) error_text cfg clock b n = Ok (st, rs) →
  may_propose (n_consensus n) (height (header b)) (proposer (header b)) = true.
Proof.
  intros Him. apply BlockLaws.import_ok in Him as (_ & Hin & [Hm|Hl] & _); [done|].
  unfold may_propose, may_propose_at. rewrite (proj2 (is_validator_spec _ _) Hin). simpl.
  unfold leader in Hl. rewrite Hl, bool_decide_true by done. done.
Qed.

(** A proposal from the network never moves a node to a later view. Although the
    engine accepts a proposal of the next view, the import before it admits the proposers
    of the present view only, so that what the engine accepts leaves the view as it is. *)
Theorem network_block_keeps_view (i : Iteration) cfg clock b n st rs e' :
  engine_inv (n_consensus n) → import_at_tip (H1 := i) error_text cfg clock b n = Ok (st, rs) →
  accept_proposal b (n_consensus n) = (Ok (), e') → view e' = view (n_consensus n).
Proof.
  intros Hi Him Ha. pose proof (imported_turn i cfg clock b n st rs Him) as Hm.
  apply accept_proposal_cases in Ha as [[-> _]|(ev & _ & Hev & _ & Hh & Hin & He')]; [done|].
  assert (ev = view (n_consensus n)) as ->.
  2: { by destruct He' as [[-> _]| ->]. }
  rewrite <- Hh in Hev. unfold earliest_eligible_view in Hev. rewrite (proj2 (is_validator_spec _ _) Hin) in Hev. simpl in Hev.
  assert (∃ m, Z.to_nat (eligible_bound (n_consensus n)) = S m) as [m Em].
  { exists (Z.to_nat (eligible_bound (n_consensus n)) - 1)%nat. unfold eligible_bound. lia. }
  assert (sat_add u64_max (view (n_consensus n)) (Z.of_nat 0) = view (n_consensus n)) as Ev0.
  { pose proof (inv_view _ Hi) as Hv. unfold in_u64 in Hv. unfold sat_add, u64_max in *. lia. }
  rewrite Em in Hev. cbn [seq map find] in Hev. rewrite Ev0 in Hev.
  unfold may_propose in Hm. rewrite Hm in Hev. by injection Hev as <-.
Qed.

(** C39: a block of a later view cannot be fetched. Where there are no anchors, take a node
    in some view [v] at the block's height and a block of a validator that leads view
    [v + 1] but not view [v]. After the timeout that moves an engine to view [v + 1], the
    engine accepts the block and votes on it. The node that has not timed out and fetches the
    block (as it does when the others committed it) refuses it with an error: it neither
    appends it nor changes in any way. *)
Theorem later_view_not_fetched (i : Iteration) cfg clock b n x :
  let e := n_consensus n in
  engine_inv e → anchors e = [] → view e < u64_max → height (header b) = round e →
  leader e (round e) = Some x → proposer (header b) ≠ x → proposer (header b) ∈ validators e →
  leader_at e (round e) (view e + 1) = Some (proposer (header b)) →
  view (abandon_proposal e) = view e + 1 ∧
  accept_proposal b (abandon_proposal e) = (Ok (), enter_voting_phase (abandon_proposal e) b) ∧
  ∃ err, import_network_block_catchup (H1 := i) error_text cfg clock b n = (Err err, n).
Proof.
  cbv zeta. set (e := n_consensus n). intros Hi Ha Hv Hh Hl Hne Hin Hl1.
  assert (active_anchors e = []) as Hact by (unfold active_anchors; by rewrite Ha).
  assert (sat_add u64_max (view e) 1 = view e + 1 ∧ sat_add u64_max (view e + 1) 0 = view e + 1) as [Hv1 Hv0]
    by (unfold sat_add; lia).
  split_and!; [exact Hv1| |].
  - assert (is_validator (abandon_proposal e) (proposer (header b)) = true) as Hval by (by apply is_validator_spec).
    assert (earliest_eligible_view (abandon_proposal e) (round e) (proposer (header b)) = Some (view e + 1)) as Hev.
    { unfold earliest_eligible_view. rewrite Hval. simpl.
      assert (∃ m, Z.to_nat (eligible_bound (abandon_proposal e)) = S m) as [m ->].
      { exists (Z.to_nat (eligible_bound (abandon_proposal e)) - 1)%nat. unfold eligible_bound. lia. }
      cbn [seq map find]. change (Z.of_nat 0) with 0. rewrite Hv1, Hv0. unfold may_propose_at. rewrite Hval. simpl.
      change (leader_at (abandon_proposal e) (round e)) with (leader_at e (round e)). by rewrite Hl1, bool_decide_true. }
    unfold accept_proposal. simpl. rewrite Hh, Z.eqb_refl, Hval. simpl. rewrite Hev, Hv1.
    unfold sat_add at 1. rewrite (proj2 (Z.ltb_ge _ _)) by lia. simpl.
    unfold set_view, abandon_proposal, enter_voting_phase. simpl. by rewrite Hv1.
  - unfold import_network_block_catchup, mbind, st_bind. simpl.
    destruct (import_at_tip error_text cfg clock b n) as [[st rs]|[err|]] eqn:Him; [|by eexists..].
    apply imported_turn in Him. fold e in Him. unfold may_propose, may_propose_at in Him. rewrite Hh in Him.
    unfold leader in Hl. rewrite Hl in Him. unfold fallback_anchor_at in Him. rewrite Hact in Him.
    destruct (is_validator e _); [|done]. simpl in Him. rewrite bool_decide_false in Him by congruence. done.
Qed.

(** C37: the pacemaker makes equivocators of honest nodes. A node that voted for the proposal
    it waits on, times out and accepts another block of the same height signs a second
    vote in the same round and broadcasts it; the two votes are valid evidence of
    equivocation against the node. *)
Theorem timeout_makes_equivocator (i : Iteration) cfg k n p t c1 c2 b st rs e' :
  let r := round (n_consensus n) in
  let v1 := sign_vote r (block_hash (pc_block p)) k in
  let v2 := sign_vote r (block_hash b) k in
  nc_key cfg = Some k → key_sound k → bp_proposer (nc_producer cfg) ∈ validators (n_consensus n) →
  n_pending n = Some p → SentVote v1 ∈ n_sent n →
  n_pending_since n = Some t → nc_proposal_timeout cfg ≤ ck_instant c1 - t →
  block_hash b ≠ block_hash (pc_block p) →
  let n1 := tick_proposal_timeout cfg c1 n in
  import_at_tip (H1 := i) error_text cfg c2 b n1 = Ok (st, rs) → accept_proposal b (n_consensus n1) = (Ok (), e') →
  let n2 := (handle_network_block (H1 := i) error_text cfg c2 b n1).2 in
  SentVote v1 ∈ n_sent n2 ∧ SentVote v2 ∈ n_sent n2 ∧ evidence_verify (mkEquivocationEvidence v1 v2) = Ok ().
Proof.
  cbv zeta. intros Hk Hsound Hin Hp Hsent Ht Hout Hne. set (n1 := tick_proposal_timeout cfg c1 n). intros Him Hacc.
  assert (n1 = abandon_stuck_proposal n) as En1.
  { unfold n1, tick_proposal_timeout. rewrite Hp, Ht. by rewrite (proj2 (Z.ltb_ge _ _) Hout). }
  assert (says n1 (handle_network_block (H1 := i) error_text cfg c2 b n1).2 ∧
    SentVote (sign_vote (round (n_consensus n)) (block_hash b) k) ∈
      n_sent (handle_network_block (H1 := i) error_text cfg c2 b n1).2) as [Hsays Hv2].
  { by apply (second_vote_sent error_text cfg k n c2 b st rs e' n1). }
  split_and!; [|done|by apply double_vote_evidence].
  eapply elem_of_prefix; [|exact Hsays]. rewrite En1. exact Hsent.
Qed.

(** A report of equivocation is lost where signatures must name the chain. A node
    without a default chain id signs its reports in the legacy format; at a height that
    requires the format with the chain, its own mempool refuses every one of them, and
    the evidence is neither reported nor passed on. *)
Theorem reports_refused (i : Iteration) cfg k n c ev :
  nc_key cfg = Some k → nc_signing_chain_id cfg = None →
  tx_sig_policy (nc_env cfg) (ex_history (n_executor n)) (BOING_CHAIN_ID (nc_env cfg)) (next_height n) = mkTxSigPolicy (Some c) true →
  let tx := report_transaction n ev (verifying_key k) in
  ed25519_verify (verifying_key k) (signable_transaction_hash_with_tip tx c 0) (key_sign k (signable_hash tx)) = false →
  ∃ n', on_equivocation_evidence (H1 := i) cfg ev n = (Ok false, n') ∧ n_mempool n' = n_mempool n ∧ n_sent n' = n_sent n.
Proof.
  intros Hk Hc Hpol tx Hno.
  assert (∃ n', queue_equivocation_report (H1 := i) cfg ev n = (Ok false, n') ∧ n_mempool n' = n_mempool n ∧ n_sent n' = n_sent n)
    as (n' & Hq & Hm & Hs).
  2: { unfold on_equivocation_evidence. destruct (evidence_verify ev); [|by exists n]. unfold mbind, st_bind. simpl.
       destruct (negb _); [by exists n|]. rewrite Hq. by exists n'. }
  unfold queue_equivocation_report, refresh_tx_sig_policy. st_unfold. rewrite Hk, Hc.
  destruct (negb _); [by exists n|]. destruct (evidence_verify ev); [|by exists n]. destruct (bool_decide _); [by exists n|].
  destruct (Book.find_equivocation_at_round _ _ _); [by eexists|].
  set (n1 := set_slashed _ n). change (next_height n1) with (next_height n). change (n_executor n1) with (n_executor n). rewrite Hpol. simpl.
  change (report_transaction n1 ev (verifying_key k)) with tx.
  destruct (legacy_refused (n_mempool_config n) k tx c (n_mempool n) Hno eq_refl) as (e & He & Hd).
  unfold new_signed in He. rewrite He. destruct e; try done; by eexists.
Qed.

End Theorems.
End ProgressTheorems.
