(* ===== verification/NodeBehaviours.v ===== *)
(** * Concrete nodes

    A network of four validators, the laws of [NodeProgress.v] on it, and a run in which
    nodes that follow the protocol commit different blocks at one height. *)

From S2P Require Import Prelude Types Names Governance Blobs SampleMarket SlashAppeals Signatures OpenValidators Consensus Qa Merkle Store Tokenomics StoreLaws StoreUndo Scheduler Interp Vm VmWrites VmAgree Executor ExecutorRuns ExecutorBehaviours Mempool MempoolLaws Chain Blocks BlocksLaws BlocksBehaviours NodeParts Node Admission AdmissionLaws Events NodeLaws NodeProgress.

Module SampleNetwork.
Import SampleVm SampleBlocks SampleNodes.

#[local] Existing Instances sample_host codec hex no_json.
#[local] Existing Instances SampleQa.plain_text SampleSigs.open_crypto SampleNodes.plain_receipts SampleStore.in_order.

Definition v0 : AccountId := replicate 32 10.
Definition v1 : AccountId := replicate 32 11.
Definition v2 : AccountId := replicate 32 12.
Definition v3 : AccountId := replicate 32 13.
Definition quad : list AccountId := [v0; v1; v2; v3].

Definition key (v : AccountId) : SigningKey := mkKey v (λ _, v ++ v) (λ _, None).

Definition no_pins : HostPins := mkHostPins None None None.

Definition conf (v : AccountId) : NodeConfig :=
  mkNodeConfig here None no_pins new_executor (new_producer v) limits (Some (key v)) None 6 3 0.

Definition spec : GenesisSpec := mkGenesisSpec v0 [(v0, 1000)].

(** Every node starts from that genesis, with a faucet. *)
Definition begun (g : GenesisSpec) : Startup := mkStartup (Some g) None None RoundRobin None None (Some (replicate 32 99)).

Definition ck (t : Z) : Clock := mkClock t 10 0 0.
Definition no_bytes : Serde := mkSerde (λ _, []) (λ _, None) (λ _, None).

(** An empty block on the genesis. *)
Definition seal (by_ : AccountId) (ts : Z) (n : BoingNode) : option Block :=
  match run_block None no_text no_pins new_executor quad 1 ts [] by_ [] (snapshot (n_state n)) with
  | (Ok rs, st) =>
      tr ← tx_root [];
      rr ← receipts_root rs;
      '(_, sr) ← state_root_at_height 1 st;
      Some (mkBlock (mkBlockHeader (cs_latest_hash (n_chain n)) 1 ts by_ tr rr sr None) [] [] [])
  | _ => None
  end.

Definition block_a : Block := Eval vm_compute in
  default (genesis_block v0) (n ← boot (conf v0) quad (begun spec); seal v1 5 n).
Definition block_b : Block := Eval vm_compute in
  default (genesis_block v0) (n ← boot (conf v0) quad (begun spec); seal v2 6 n).

(** The node of [v] after [evs]. *)
Definition node (v : AccountId) (evs : list (Clock * Event)) : option BoingNode :=
  n ← boot (conf v) quad (begun spec); run_events no_text no_bytes (conf v) evs n.

Definition vote_of (v : AccountId) (b : Block) : ConsensusVote := sign_vote 1 (block_hash b) (key v).

(** The first proposal reaches the node of [v0]. *)
Definition proposed : list (Clock * Event) := [(ck 0, EvBlock block_a)].
Definition timed_out : list (Clock * Event) := proposed ++ [(ck 7, EvTimeout)].
Definition a_votes : list (Clock * Event) := [(ck 1, EvVote (vote_of v1 block_a)); (ck 1, EvVote (vote_of v2 block_a))].
Definition b_votes : list (Clock * Event) := [(ck 9, EvVote (vote_of v1 block_b)); (ck 9, EvVote (vote_of v2 block_b))].

Definition blank : BoingNode := mkNode (new_chain v0) (mkEngine [v0] 0 0 None ∅ RoundRobin [] ∅ []) new_store
  new_executor new_inner limits (mkQueue ∅ development_default) ∅ (compute_native_aggregates new_store) None None ∅ ∅ ∅
  Mirror.new_mirror Gov.default_gov None ∅ None None policy [].

Definition first (v : AccountId) : BoingNode := default blank (boot (conf v) quad (begun spec)).
Definition after (v : AccountId) (evs : list (Clock * Event)) : BoingNode := default blank (node v evs).

Definition made {A} (o : option A) : bool := match o with Some _ => true | None => false end.

Lemma made_some {A} (d : A) o : made o = true → o = Some (default d o).
Proof. by destruct o. Qed.

Lemma quad_boots v : v ∈ quad → made (boot (conf v) quad (begun spec)) = true.
Proof.
  intros Hv. assert (forallb (λ v, made (boot (conf v) quad (begun spec))) quad = true) as Hall by (vm_compute; reflexivity).
  rewrite forallb_forall in Hall. by apply Hall, list_elem_of_In.
Qed.

Lemma v0_in : v0 ∈ quad.
Proof. by left. Qed.

Lemma v3_in : v3 ∈ quad.
Proof. do 3 right. by left. Qed.

Lemma runs_after v evs :
  v ∈ quad → made (node v evs) = true →
  boot (conf v) quad (begun spec) = Some (first v) ∧
  NodeTheorems.runs no_text SampleStore.in_order no_bytes (conf v) (first v) (rev evs ++ []) (after v evs).
Proof.
  intros Hb%quad_boots%(made_some blank) Hn%(made_some blank). split; [exact Hb|].
  eapply NodeTheorems.run_events_runs; [constructor|]. unfold after, first in *. unfold node in Hn at 1. by rewrite Hb in Hn.
Qed.

Lemma proposal_runs : made (node v0 proposed) = true.
Proof. vm_compute. reflexivity. Qed.

Lemma committed_runs : made (node v0 (proposed ++ a_votes)) = true.
Proof. vm_compute. reflexivity. Qed.

Lemma node_keeps_ledger_witness :
  ∃ h, (∃ k, chain_ok (map en_block h ++ [start_block (conf v0) (begun spec)]) k (n_chain (after v0 (proposed ++ a_votes)))) ∧
    NodeLaws.ledger None no_text no_pins (start_state (conf v0) (begun spec)) h (n_state (after v0 (proposed ++ a_votes))) ∧
    Forall (justified (conf v0) (NodeTheorems.runs no_text SampleStore.in_order no_bytes (conf v0) (first v0)) (rev (proposed ++ a_votes) ++ [])) h.
Proof.
  destruct (runs_after v0 (proposed ++ a_votes) v0_in committed_runs) as [Hb Hr].
  destruct (ProgressTheorems.node_keeps_ledger no_text SampleStore.in_order no_bytes (conf v0) quad (begun spec)
    (first v0) _ _ Hb Hr) as (h & _ & Hc & Hl & _ & _ & _ & Hj).
  - vm_compute. reflexivity.
  - exists h. exact (conj Hc (conj Hl Hj)).
Defined.

Lemma replica_runs : made (node v3 (proposed ++ a_votes)) = true.
Proof. vm_compute. reflexivity. Qed.

Lemma votes_steady : NodeTheorems.steady (rev (proposed ++ a_votes) ++ []).
Proof. repeat constructor. Qed.

Lemma same_executor : n_executor (first v3) = n_executor (first v0).
Proof. vm_compute. reflexivity. Qed.

Lemma replicas_agree_witness :
  ∃ h1 h2, (∃ k, chain_ok (map en_block h1 ++ [start_block (conf v0) (begun spec)]) k (n_chain (after v0 (proposed ++ a_votes)))) ∧
    NodeLaws.ledger None no_text no_pins (start_state (conf v0) (begun spec)) h1 (n_state (after v0 (proposed ++ a_votes))) ∧
    (∃ k, chain_ok (map en_block h2 ++ [start_block (conf v3) (begun spec)]) k (n_chain (after v3 (proposed ++ a_votes)))) ∧
    NodeLaws.ledger None no_text no_pins (start_state (conf v3) (begun spec)) h2 (n_state (after v3 (proposed ++ a_votes))) ∧
    (map en_block h1 = map en_block h2 →
     alike (n_state (after v0 (proposed ++ a_votes))) (n_state (after v3 (proposed ++ a_votes))) ∧
     map en_receipts h1 = map en_receipts h2).
Proof.
  destruct (runs_after v0 (proposed ++ a_votes) v0_in committed_runs) as [Hb0 Hr0].
  destruct (runs_after v3 (proposed ++ a_votes) v3_in replica_runs) as [Hb3 Hr3].
  exact (ProgressTheorems.replicas_agree no_text SampleStore.in_order SampleStore.in_order no_bytes no_bytes
    (conf v0) (conf v3) quad (begun spec) (begun spec) spec (first v0) (first v3) _ _ _ _ eq_refl eq_refl eq_refl Hb0 Hb3 Hr0 Hr3
    eq_refl eq_refl (conj eq_refl eq_refl) (conj eq_refl eq_refl) votes_steady votes_steady eq_refl eq_refl eq_refl same_executor).
Defined.

(** The proposal that waits for votes at the node of [v0]. *)
Notation waits := (after v0 proposed).
Definition waiting : PendingCommit := default (mkPendingCommit block_a [] new_store) (n_pending waits).

Lemma waits_for : n_pending waits = Some waiting.
Proof. apply made_some. vm_compute. reflexivity. Qed.

Lemma hash_waiting : block_hash (pc_block waiting) = block_hash block_a.
Proof. vm_compute. reflexivity. Qed.

Definition remaining : list ConsensusVote := [vote_of v1 block_a; vote_of v2 block_a].

Definition fresh_for (bh : Hash) (e : ConsensusEngine) (v : ConsensusVote) : Prop :=
  vote_verify v = Ok () ∧ cv_round v = round e ∧ cv_block_hash v = bh ∧ cv_validator v ∈ validators e ∧
  votes e !! cv_validator v = None.

Lemma waiting_validators : validators (n_consensus waits) = quad.
Proof. vm_compute. reflexivity. Qed.

Lemma remaining_fresh : Forall (fresh_for (block_hash (pc_block waiting)) (n_consensus waits)) remaining.
Proof.
  repeat apply Forall_cons_2; [| |constructor]; unfold fresh_for; rewrite waiting_validators.
  all: split_and!; [vm_compute; reflexivity..| |vm_compute; reflexivity].
  - right. by left.
  - do 2 right. by left.
Qed.

Lemma remaining_quorum :
  counted_votes (n_consensus waits) < quorum (n_consensus waits) ∧
  quorum (n_consensus waits) ≤ Z.of_nat (length (filter (λ v, vote_counts (n_consensus waits) v = true)
    (voters_for (votes (n_consensus waits)) (block_hash (pc_block waiting)) ++ (cv_validator <$> remaining)))).
Proof. apply (bool_decide_unpack _). vm_compute. exact I. Qed.

Lemma remaining_distinct : NoDup (cv_validator <$> remaining).
Proof. apply (bool_decide_unpack _). vm_compute. exact I. Qed.

Lemma quorum_commits_witness :
  ∃ n', run_events no_text no_bytes (conf v0) (vote_event (ck 1) <$> remaining) waits = Some n' ∧
    cs_latest_hash (n_chain n') = block_hash block_a ∧ n_state n' = pc_new_state waiting ∧ n_pending n' = None.
Proof.
  destruct (runs_after v0 proposed v0_in proposal_runs) as [Hb Hr]. destruct remaining_quorum as [Hlt Hq].
  destruct (ProgressTheorems.quorum_commits no_text SampleStore.in_order no_bytes (conf v0) quad (begun spec)
    (first v0) _ _ waiting (ck 1) remaining Hb Hr eq_refl (conj eq_refl eq_refl) waits_for remaining_fresh
    remaining_distinct Hlt Hq) as (n' & Hrun & Hh & Hs & _ & Hp).
  exists n'. rewrite <- hash_waiting. exact (conj Hrun (conj Hh (conj Hs Hp))).
Defined.

Definition imported (clock : Clock) (b : Block) (n : BoingNode) : VmStore * list ExecutionReceipt :=
  match import_at_tip no_text (conf v0) clock b n with Ok x => x | Err _ => (new_store, []) end.

Definition imports (clock : Clock) (b : Block) (n : BoingNode) : bool :=
  match import_at_tip no_text (conf v0) clock b n with Ok _ => true | Err _ => false end.

Lemma imports_ok clock b n :
  imports clock b n = true →
  import_at_tip no_text (conf v0) clock b n = Ok ((imported clock b n).1, (imported clock b n).2).
Proof. unfold imports, imported. destruct (import_at_tip _ _ _ _ _) as [[]|]; done. Qed.

Lemma first_engine : n_consensus (first v0) = mkEngine quad 1 0 None ∅ RoundRobin [] ∅ [].
Proof. vm_compute. reflexivity. Qed.

Lemma first_engine_inv : engine_inv (n_consensus (first v0)).
Proof.
  pose proof (quad_boots v0 v0_in) as Hb. apply (made_some blank) in Hb.
  exact (bi_engine _ _ _ _ _ _ _ _ _ _ (ni_base _ _ _ _ _ _ _ _ _ _ (boot_inv no_text (conf v0) (λ _ _, False) quad (begun spec) _ Hb))).
Qed.

Lemma first_accepts : ∃ e, accept_proposal block_a (n_consensus (first v0)) = (Ok (), e).
Proof. rewrite first_engine. eexists. vm_compute. reflexivity. Qed.

Lemma network_block_keeps_view_witness :
  ∃ e, accept_proposal block_a (n_consensus (first v0)) = (Ok (), e) ∧ view e = view (n_consensus (first v0)).
Proof.
  destruct first_accepts as [e He]. exists e. split; [exact He|].
  refine (ProgressTheorems.network_block_keeps_view no_text SampleStore.in_order (conf v0) (ck 0) block_a (first v0) _ _ e
    first_engine_inv (imports_ok (ck 0) block_a (first v0) _) He).
  vm_compute. reflexivity.
Defined.

Lemma later_view_not_fetched_witness :
  ∃ err, import_network_block_catchup no_text (conf v0) (ck 0) block_b (first v0) = (Err err, first v0).
Proof.
  refine (proj2 (proj2 (ProgressTheorems.later_view_not_fetched no_text SampleStore.in_order (conf v0) (ck 0) block_b (first v0) v1
    first_engine_inv _ _ _ _ _ _ _))); rewrite ?first_engine; try (vm_compute; reflexivity).
  - vm_compute. congruence.
  - do 2 right. by left.
Defined.

(** ** A timeout *)

Lemma keys_sound v : key_sound (key v).
Proof. intros d. reflexivity. Qed.

Notation gave_up := (tick_proposal_timeout (conf v0) (ck 7) waits).

Lemma voted_first : SentVote (vote_of v0 block_a) ∈ n_sent waits.
Proof.
  assert (n_sent waits = [SentHead 0 (cs_latest_hash (n_chain (first v0))); SentVote (vote_of v0 block_a)]) as ->
    by (vm_compute; reflexivity).
  right. by left.
Qed.

Lemma other_imports : imports (ck 8) block_b gave_up = true.
Proof. vm_compute. reflexivity. Qed.

Lemma waits_round : round (n_consensus waits) = 1.
Proof. vm_compute. reflexivity. Qed.

Lemma waits_since : n_pending_since waits = Some 0.
Proof. vm_compute. reflexivity. Qed.

Lemma waits_engine : n_consensus gave_up = mkEngine quad 1 1 None ∅ RoundRobin [] ∅ [].
Proof. vm_compute. reflexivity. Qed.

Lemma other_accepted : ∃ e, accept_proposal block_b (n_consensus gave_up) = (Ok (), e).
Proof. rewrite waits_engine. eexists. vm_compute. reflexivity. Qed.

Lemma other_differs : block_hash block_b ≠ block_hash (pc_block waiting).
Proof. rewrite hash_waiting. vm_compute. congruence. Qed.

Lemma timeout_makes_equivocator_witness :
  let m := (handle_network_block no_text (conf v0) (ck 8) block_b gave_up).2 in
  SentVote (sign_vote 1 (block_hash block_a) (key v0)) ∈ n_sent m ∧
  SentVote (sign_vote 1 (block_hash block_b) (key v0)) ∈ n_sent m ∧
  evidence_verify (mkEquivocationEvidence (sign_vote 1 (block_hash block_a) (key v0))
    (sign_vote 1 (block_hash block_b) (key v0))) = Ok ().
Proof.
  destruct other_accepted as [e He]. rewrite <- hash_waiting, <- waits_round.
  refine (ProgressTheorems.timeout_makes_equivocator no_text SampleStore.in_order (conf v0) (key v0) waits waiting 0 (ck 7) (ck 8)
    block_b _ _ e eq_refl (keys_sound v0) _ waits_for _ waits_since _ other_differs (imports_ok _ _ _ other_imports) He).
  - rewrite waiting_validators. exact v0_in.
  - rewrite hash_waiting, waits_round. exact voted_first.
  - vm_compute. congruence.
Defined.

(** A node that gave up on the first proposal and votes for the second. *)
Definition switched : list (Clock * Event) := timed_out ++ [(ck 8, EvBlock block_b)].

(** The votes a node of this network sends, and the head of its chain. *)
Definition sent_by (v : AccountId) : list Sent := from_option n_sent [] (node v switched).
Definition head_of (v : AccountId) (evs : list (Clock * Event)) : option (Z * Hash) :=
  m ← node v evs; Some (cs_height (n_chain m), cs_latest_hash (n_chain m)).

#[export] Instance consensus_vote_eq_dec : EqDecision ConsensusVote.
Proof. solve_decision. Defined.

Definition has_sent (v : AccountId) (x : ConsensusVote) : bool :=
  existsb (λ s, match s with SentVote y => bool_decide (x = y) | _ => false end) (sent_by v).

Lemma has_sent_ok v x : has_sent v x = true → SentVote x ∈ sent_by v.
Proof.
  unfold has_sent. rewrite existsb_exists. intros ([|y| | |] & Hin & Hb); try done.
  apply bool_decide_eq_true in Hb as ->. by apply list_elem_of_In.
Qed.

(** C38: the pacemaker can fork the chain. Four nodes run the program from one genesis and
    each votes for the first proposal. At one of them the votes arrive in time and it
    commits the proposal. The others time out, vote for the proposal of the next leader,
    and one of them commits that: two different blocks at height 1, although every vote
    delivered was sent by a node that follows the program. *)
Theorem honest_nodes_fork :
  head_of v0 (proposed ++ a_votes) = Some (1, block_hash block_a) ∧
  head_of v3 (switched ++ b_votes) = Some (1, block_hash block_b) ∧
  block_hash block_a ≠ block_hash block_b ∧
  ∀ c x, (c, EvVote x) ∈ a_votes ++ b_votes → ∃ u, u ∈ quad ∧ SentVote x ∈ sent_by u.
Proof.
  split; [vm_compute; reflexivity|]. split; [vm_compute; reflexivity|]. split; [vm_compute; congruence|].
  assert (has_sent v1 (vote_of v1 block_a) && has_sent v1 (vote_of v1 block_b) &&
    has_sent v2 (vote_of v2 block_a) && has_sent v2 (vote_of v2 block_b) = true) as Hall by (vm_compute; reflexivity).
  apply andb_prop in Hall as [Hall H2b%has_sent_ok]. apply andb_prop in Hall as [Hall H2a%has_sent_ok].
  apply andb_prop in Hall as [H1a%has_sent_ok H1b%has_sent_ok].
  assert (v1 ∈ quad ∧ v2 ∈ quad) as [H1 H2] by (split; [right; by left|do 2 right; by left]).
  intros c x Hin. unfold a_votes, b_votes in Hin. cbn [app] in Hin. rewrite !elem_of_cons, elem_of_nil in Hin.
  destruct Hin as [E|[E|[E|[E|[]]]]]; injection E as _ ->; [exists v1|exists v2|exists v1|exists v2]; split; assumption.
Qed.

End SampleNetwork.

(** ** Reports *)

Module SampleReport.
Import SampleVm SampleBlocks SampleNodes SampleNetwork.

#[local] Existing Instances sample_host codec hex no_json.
#[local] Existing Instances SampleQa.plain_text SampleNodes.plain_receipts SampleStore.in_order.

(** Signatures that name what they sign. *)
#[local] Instance naming_crypto : Crypto := {|
  ed25519_key_ok _ := true;
  ed25519_verify pk d sig := bool_decide (sig = d ++ d);
  bls_fast_aggregate_verify _ _ _ := true;
  bincode_payload _ := [0];
  bincode_access_list _ := [];
|}.

Definition signer : SigningKey := mkKey v0 (λ d, d ++ d) (λ _, None).
Definition reporter : NodeConfig :=
  mkNodeConfig here None no_pins new_executor (new_producer v0) limits (Some signer) None 6 3 0.

Definition culprit : SigningKey := mkKey v1 (λ d, d ++ d) (λ _, None).
Definition proof_of_fault : EquivocationEvidence :=
  mkEquivocationEvidence (sign_vote 1 (replicate 32 1) culprit) (sign_vote 1 (replicate 32 2) culprit).

Definition started : BoingNode := default blank (boot reporter quad (begun spec)).

Lemma reports_refused_witness :
  evidence_verify proof_of_fault = Ok () ∧
  ∃ n', on_equivocation_evidence reporter proof_of_fault started = (Ok false, n') ∧
    n_mempool n' = n_mempool started ∧ n_sent n' = n_sent started.
Proof.
  split; [vm_compute; reflexivity|].
  refine (ProgressTheorems.reports_refused SampleStore.in_order reporter signer started 6913 proof_of_fault eq_refl eq_refl _ _);
    vm_compute; reflexivity.
Defined.

End SampleReport.

(** ** A transfer is admitted *)

Module SampleAdmission.
Import SampleVm SampleBlocks SampleNodes SampleNetwork.

#[local] Existing Instances sample_host codec hex no_json.
#[local] Existing Instances SampleQa.plain_text SampleSigs.open_crypto SampleNodes.plain_receipts SampleStore.in_order.

Definition payment : SignedTransaction :=
  mkSignedTransaction (mkTransaction 0 v0 (Transfer v1 500) (mkAccessList [v0; v1] [v0; v1])) (replicate 64 1) 7.
Definition unpayable : SignedTransaction :=
  mkSignedTransaction (mkTransaction 0 v1 (Transfer v0 500) (mkAccessList [v0; v1] [v0; v1])) (replicate 64 1) 7.

Notation fresh := (default blank (boot (conf v0) quad (begun (mkGenesisSpec v0 [(v0, 10 ^ 20)])))).
Notation submits s := (submit_transaction_inner no_bytes (conf v0) (ck 1) None None s fresh).

Lemma payment_admitted : submits payment = (Ok (), (submits payment).2).
Proof.
  assert ((submits payment).1 = Ok ()) as E by (vm_compute; reflexivity).
  rewrite (surjective_pairing (submits payment)) at 1. by rewrite E.
Qed.

Lemma unpayable_refused : submits unpayable = (Err (AdmitRefused UnknownSender), (submits unpayable).2).
Proof.
  assert ((submits unpayable).1 = Err (AdmitRefused UnknownSender)) as E by (vm_compute; reflexivity).
  rewrite (surjective_pairing (submits unpayable)) at 1. by rewrite E.
Qed.

Lemma fresh_pool : pool_ok (n_mempool fresh).
Proof.
  assert (n_mempool fresh = new_inner) as -> by (vm_compute; reflexivity). apply pool_new.
Qed.

Lemma admission_sound_witness :
  verify_with payment (next_policy (conf v0) fresh) = Ok () ∧ signed_id payment ∈ by_id (n_mempool (submits payment).2).
Proof.
  destruct (AdmissionTheorems.admission_sound no_bytes (conf v0) (ck 1) None None payment fresh (submits payment).2 fresh_pool
    payment_admitted) as (Hv & _ & _ & Hin & _). exact (conj Hv Hin).
Defined.

Lemma refused_leaves_mempool_witness : n_mempool (submits unpayable).2 = n_mempool fresh.
Proof.
  destruct (AdmissionTheorems.refused_leaves_mempool no_bytes (conf v0) (ck 1) None None unpayable fresh _ (submits unpayable).2
    fresh_pool unpayable_refused) as (_ & _ & _ & Hm). apply Hm. congruence.
Defined.

Definition payer : AccountState := with_balance (10 ^ 20).

Lemma fresh_payer : get (n_state fresh) v0 = Some payer.
Proof. vm_compute. reflexivity. Qed.

Lemma transfer_fast_exact_witness :
  precheck_transfer_fast payment v1 500 fresh = precheck_sender_can_pay_fee_full (conf v0) payment fresh.
Proof.
  apply (AdmissionTheorems.transfer_fast_exact (conf v0) payment v1 500 fresh).
  - reflexivity.
  - vm_compute. reflexivity.
  - intros a Ha. change (tx_sender (st_tx payment)) with v0 in Ha. rewrite fresh_payer in Ha. injection Ha as <-.
    split; [vm_compute; reflexivity|vm_compute; congruence].
Defined.

Lemma testing_policy : fee_policy_typed (fee_rule_at (n_executor fresh) (next_height fresh)).1.
Proof. split; repeat constructor; vm_compute; congruence. Qed.

Lemma admitted_transfer_pays_witness :
  ∃ gas r p' st', run_one no_pins None no_text (block_run (n_executor fresh) new_vm 1 0 [st_tx payment] v1 [7]) (0, [None]) 0
      (st_tx payment) (n_state fresh) = (Ok (gas, p'), st') ∧ p' !! 0%nat = Some (Some r) ∧ rc_success r = true.
Proof.
  destruct (AdmissionTheorems.admitted_transfer_pays no_bytes (conf v0) no_text (ck 1) None None payment fresh (submits payment).2
    v1 500 payer payment_admitted) with (vm := new_vm) (timestamp := 0) (txs := [st_tx payment]) (recipient := v1) (tips := [7])
    (idx := 0%nat) (p := (0, [None : option ExecutionReceipt])) (st := n_state fresh) as (gas & r & p' & st' & Hr & Hp & Hs & _).
  - reflexivity.
  - vm_compute. reflexivity.
  - apply fresh_payer.
  - reflexivity.
  - vm_compute. reflexivity.
  - split; vm_compute; congruence.
  - vm_compute. reflexivity.
  - split; vm_compute; congruence.
  - apply testing_policy.
  - apply fresh_payer.
  - reflexivity.
  - simpl. lia.
  - exists gas, r, p', st'. assert (next_height fresh = 1) as E by (vm_compute; reflexivity). rewrite E in Hr.
    exact (conj Hr (conj Hp Hs)).
Defined.

End SampleAdmission.
